(* ===== verification/_CoqProject ===== *)
-Q . S2P
Prelude.v
Wire.v
Protocol.v
Codec.v
Crc32c.v
RecordBatch.v
Config.v
Detail.v
Storage.v
LogFormat.v
PartitionLog.v
LogLayout.v
LogRep.v
LogAppend.v
LogRead.v
LogRecovery.v
LogDurable.v
LogConcurrent.v
SegmentCache.v
PartitionTable.v
KafkaProtocol.v
BrokerShard.v
BrokerRep.v
BrokerRouting.v
Replication.v
Acknowledged.v
CatchUp.v
Connection.v
MercuryProc.v
MercuryShard.v
MercuryDisabled.v
MercuryRep.v
MercuryKeeps.v
MercuryClient.v
MercurySafety.v
MercuryFlow.v
MercuryContract.v
MercuryNetwork.v
Main.v
Metrics.v
BenchOptions.v
BenchClient.v
BenchRequests.v
BenchTransport.v
BenchSession.v
BenchCluster.v
