(* ===== verification/Prelude.v ===== *)
(** * mkmq: a Kafka-compatible message broker, verified

    mkmq is a message broker on Seastar: one [BrokerShard] per core serves
    Kafka clients, owns a share of the topic partitions, stores their record
    sets in segment files, and replicates them to other brokers over Mercury
    RPC.  This library models the broker as executable definitions translated
    from the C++ and proves what makes it correct.

    ** The program and the files that model it

    A request travels through these parts, bottom up:

    - src/protocol/wire.cpp, the primitive types of the Kafka wire format, is
      Wire.v; src/protocol/api.cpp, header.cpp and generated/kafka_schema.cpp
      (API table, frame headers) are Protocol.v; generated/kafka_codec.cpp
      (message bodies) is Codec.v.
    - src/crc32c.cpp is Crc32c.v.  The record-batch code (offset rewriting,
      idempotence check, record counting) of kafka_protocol.cpp and
      partition_log_shard.cpp is RecordBatch.v.
    - src/config.cpp and the reload checks are Config.v; the helpers of
      src/broker_shard_detail.cpp (segment names, the codec of replication
      messages) are Detail.v.
    - src/partition_log_shard.cpp, the log of one partition, is Storage.v (the
      effects and the file interface), LogFormat.v (bytes on disk) and
      PartitionLog.v (the class [PartitionLogShard], one definition per
      method); the handles of its files that reads share are SegmentCache.v.
    - src/broker_shard.cpp is PartitionTable.v (the sorted vector of
      partitions and its cached pointer), Metrics.v (the metrics it registers) and
      BrokerShard.v (everything else).
    - src/kafka_protocol.cpp, [handle_frame], is KafkaProtocol.v; it calls the
      broker through the class [BrokerApi], of which [shard_api] of
      BrokerShard.v is the instance.
    - src/mercury_shard.cpp is MercuryProc.v (serialization),
      MercuryShard.v (RPC client and server) and MercuryDisabled.v (the stub
      that takes their place in a build without Mercury).
    - src/main.cpp is Main.v.
    - src/tools/kafka_bench_client.cpp, the benchmark and smoke-test client,
      is BenchOptions.v (command line) and BenchClient.v (requests, readers of
      responses, socket, modes, [main]).

    ** How it is modelled

    Pure code is a function.  An exception is the [Err] of [result]; a read
    outside a buffer, a signed overflow, a null or dangling pointer and the
    like are errors of the constructor [UndefinedBehavior], so that theorems
    can exclude them.  Machine integers are [Z] with the conversions of the
    C++ written out ([u32], [i64], ...); a [std::string] is a list of bytes.

    Stateful code runs in [IO] (Storage.v), a state and exception monad that
    keeps what was done before an exception.  A future runs where it is
    created, and what is kept for later is its result: within one shard the
    model fixes one order of the continuations.  There are three exceptions:
    the replication of a produce request with acks 0 or 1, which the code does
    not wait for, is kept in [replications_] and ends when
    [finish_replication] says, after the answer; LogConcurrent.v cuts [append] where its futures wait, and a schedule of
    calls, continuations and flushes interleaves appends; SegmentCache.v
    interleaves reads with the opening, sealing and eviction of segment files,
    as far as their handles are concerned.  Other tasks come
    in through interfaces: [Reactor] (the outside of a broker shard) may change the whole
    node at each call, and the Mercury shard is a transition system whose
    steps are the operations, timers and callbacks in any order, the callbacks
    of lookups that a stop has orphaned included; so is the network of such
    shards, where Mercury carries what one shard has encoded to the shard and
    the RPC that the caller's handle was created or reset for, late, out of
    order or not at all (MercuryNetwork.v).

    A pointer into a vector carries the number of insertions at the time it
    was taken, so that following it later can be undefined (PartitionTable.v).
    Paths are strings; they are compared as [std::filesystem::path] does where
    the code compares them (Config.v), and the disk has files under the paths
    as they are spelled.

    Libraries are type classes with their documented behaviour as a class of
    laws, each with an instance that satisfies the laws: [Crc32Intrinsics]
    and [Crc32Laws] (SSE4.2), [YamlApi] and [YamlLaws] (yaml-cpp), [Storage]
    and [StorageLaws] (Seastar files), [Reactor] (network, timers), [HgProc]
    and [HgProcLaws], [Hg] and [HgLaws] (Mercury), [Host] (metrics server),
    [Posix] and [Connected] (system calls of the client, and a connected
    socket that may cut the stream anywhere and be interrupted by signals).

    Loops that are not structural take fuel or a number of rounds: the
    decoders and record-batch loops the length of their input, the connection
    loop one round per frame, the request forwarding between shards [kHops]
    hops, the progress loop of Mercury as many rounds as [HG_Trigger] has
    callbacks, the client's [read_exact] and [write_exact] as many calls as
    there are bytes and signals, plus one.  Running out is an
    [UndefinedBehavior], and the theorems show that it does not happen.

    ** What is proved

    - The partition log (LogLayout.v and LogRep.v say where record sets lie on
      disk): appending, fetching and replica operations on every branch
      (LogAppend.v, LogRead.v), recovery with whatever is left of the index
      (LogRecovery.v), and the refinement of a sequence of record sets: what
      was appended is fetched after a restart (LogDurable.v), for record sets
      that are not empty.  Concurrent appends: in order they are equivalent to
      one after the other; that an append alone is the sequential one, and
      races that lose data, are shown too (LogConcurrent.v).  Files that are
      read while segments roll over are closed at most once, and not under the
      handle that owns them; which are never closed is said (SegmentCache.v).
    - Frames, messages and record batches: memory safety of the decoders on
      any input, round trips with the schema's encoding, the checksum and the
      offsets of rewritten batches.
    - The broker: the table is a finite map; whichever shard receives a
      request, it is served by the shard that owns the partition
      (BrokerRouting.v, through the rules of BrokerRep.v), provided that this
      shard exists; records acknowledged with acks -1 are on all in-sync
      replicas, those acknowledged with acks 0 or 1 are on the leader and get
      to the others in the background (Replication.v); and whatever the
      surroundings do a success with acks -1 is only reported after all of
      them have confirmed it (Acknowledged.v, over any [Reactor] and
      [Storage]); a follower catches
      up (CatchUp.v); a connection serves its frames in order, and the
      accept loop every connection (Connection.v).
    - Mercury: every handle, address, bulk descriptor, decoded message and
      unanswered promise has one owner in every reachable state, but for the
      address that the callback of an orphaned lookup forgets, and three
      faults are the only ones; pools are bounded, a promise is fulfilled or
      has one owner (a lookup, which has no time-out, or a forward with its
      timer armed), and stopping fails what waits for an address (MercuryRep.v, MercuryKeeps.v,
      MercuryClient.v, MercurySafety.v; the theorems are in MercuryContract.v).
      Replies belong to their calls: in a network of shards a forward gets
      the answer of the handler it named, on the shard it was for, to the
      payload it was given (MercuryNetwork.v, through the rules of
      MercuryFlow.v for what flows through one shard).
    - The process: a broker that has started serves its configuration, a
      reload keeps the logs, and what the signals do (Main.v).
    - The client: its command line (BenchOptions.v), its record batch and
      requests (BenchRequests.v), its socket loops (BenchTransport.v).  Joined
      with the broker (BenchSession.v), a run of the client over a socket
      refines a dialogue of requests with the broker, in which neither bytes
      nor frames occur; and the smoke test passes on a cluster and leaves its
      record on every in-sync replica (BenchCluster.v): this theorem goes
      through every layer from the command line to the disks.
    - Some theorems show faults of the code on concrete inputs: batch lengths
      below 9, an acknowledged empty record set, catch-up of record sets that
      are not batches, segment names that collide, topics listed twice, a
      dangling peer, a throwing handler, a freed lookup and a lost address in
      Mercury, a failed reload that stops the broker, a file closed under a
      reader of the active segment, an active file dropped unclosed, and
      options of the client that are narrowed before they are checked.

    ** What is not modelled

    Latency histograms, which are Seastar's and only observe the operations;
    console output of the broker; the command-line parser of Seastar;
    interleavings within a shard other than those of
    appends to a partition log, of its file handles and of replication in the
    background (in particular, connections are served one after the other); the text of measured times
    in the client's output; the Python schema generator (its output is
    modelled); the tests.

    This file holds what the components share: bytes and machine integers,
    errors, the parser and state monads, and generic lemmas. *)

From Stdlib Require Import ZArith Lia.
From Stdlib Require Import Strings.Byte Strings.String.
From stdpp Require Import base tactics list numbers option countable.

Local Open Scope Z_scope.

(** ** Bytes, strings and machine integers *)

Abbreviation byte := Byte.byte.
Abbreviation bytes := (list byte).
(** A [std::string] is a sequence of [char]s, i.e. of bytes. *)
Abbreviation cstring := (list byte).

Export String.StringSyntax.
Definition str (s : string) : cstring := String.list_byte_of_string s.
Arguments str s%_string_scope.

#[global] Instance byte_eq_dec : EqDecision byte := Byte.byte_eq_dec.
#[global] Instance byte_countable : Countable byte.
Proof. exact (inj_countable Byte.to_N Byte.of_N Byte.of_to_N). Defined.

(** The value of a [uint8_t]; a byte is used as its value where an integer is
    expected, as the integral promotions of C++ do. *)
Definition Z_of_byte (b : byte) : Z := Z.of_N (Byte.to_N b).
#[global] Coercion Z_of_byte : Byte.byte >-> Z.

(** [static_cast<std::uint8_t>(z)]. *)
Definition byte_of_Z (z : Z) : byte :=
  match Byte.of_N (Z.to_N (z mod 2 ^ 8)) with
  | Some b => b
  | None => Byte.x00
  end.

(** Conversion to an unsigned, resp. two's complement signed, [w]-bit type. *)
Definition wrap_u (w z : Z) : Z := z mod 2 ^ w.
Definition wrap_s (w z : Z) : Z :=
  let u := z mod 2 ^ w in if u <? 2 ^ (w - 1) then u else u - 2 ^ w.

Abbreviation u16 := (wrap_u 16).
Abbreviation u32 := (wrap_u 32).
Abbreviation u64 := (wrap_u 64).
Abbreviation i8 := (wrap_s 8).
Abbreviation i16 := (wrap_s 16).
Abbreviation i32 := (wrap_s 32).
Abbreviation i64 := (wrap_s 64).

Definition in_u (w z : Z) : Prop := 0 <= z < 2 ^ w.
Definition in_s (w z : Z) : Prop := - 2 ^ (w - 1) <= z < 2 ^ (w - 1).

(** The size of a vector as a [std::size_t]. *)
Definition zlen {A} (l : list A) : Z := Z.of_nat (length l).

(** Big-endian (Kafka wire) and little-endian (on-disk, x86-64) byte images
    of an integer, and the integers they denote. *)
Fixpoint be_bytes (n : nat) (z : Z) : bytes :=
  match n with
  | O => []
  | S n' => byte_of_Z (Z.shiftr z (8 * Z.of_nat n')) :: be_bytes n' z
  end.
Definition be_value (bs : bytes) : Z :=
  fold_left (λ acc b, acc * 256 + Z_of_byte b) bs 0.
Fixpoint le_bytes (n : nat) (z : Z) : bytes :=
  match n with
  | O => []
  | S n' => byte_of_Z z :: le_bytes n' (Z.shiftr z 8)
  end.
Fixpoint le_value (bs : bytes) : Z :=
  match bs with
  | [] => 0
  | b :: bs' => Z_of_byte b + 256 * le_value bs'
  end.

(** ** Errors and the state-and-exception monad *)

(** What a call can end with instead of a value: the exception classes the
    sources throw, and [UndefinedBehavior] where the C++ program has none
    (an access outside a buffer, a signed overflow). *)
Inductive error :=
| ProtocolError (msg : cstring)
| InvalidArgument (msg : cstring)
| OutOfRange (msg : cstring)
| RuntimeError (msg : cstring)
| UndefinedBehavior (what : cstring).

(** The program went on with defined behaviour: it threw an exception. *)
Definition defined (e : error) : Prop :=
  match e with UndefinedBehavior _ => False | _ => True end.

Inductive result (A : Type) :=
| Ok (a : A)
| Err (e : error).
Arguments Ok {A} _.
Arguments Err {A} _.

#[global] Instance result_ret : MRet result := λ A a, Ok a.
#[global] Instance result_bind : MBind result := λ A B k m,
  match m with Ok a => k a | Err e => Err e end.

(** Code that updates a state of type [σ] and may throw. *)
Definition ST (σ A : Type) : Type := σ → result (A * σ).

#[global] Instance ST_ret σ : MRet (ST σ) := λ A a s, Ok (a, s).
#[global] Instance ST_bind σ : MBind (ST σ) := λ A B k m s,
  match m s with Ok (a, s') => k a s' | Err e => Err e end.

Definition throw {σ A} (e : error) : ST σ A := λ _, Err e.
Definition gets {σ A} (f : σ → A) : ST σ A := λ s, Ok (f s, s).

(** A signed 64-bit sum: undefined when it overflows. *)
Definition add_i64 {σ} (a b : Z) : ST σ Z :=
  if (- 2 ^ 63 <=? a + b) && (a + b <? 2 ^ 63) then mret (a + b)
  else throw (UndefinedBehavior (str "int64 overflow")).

(** [for (T i = 0; i < count; ++i) body]: binary recursion on the count, so
    that a loop that throws early is also evaluated early. *)
Fixpoint for_pos {σ X} (p : positive) (i : Z) (body : Z → X → ST σ X) (s : X) : ST σ X :=
  match p with
  | xH => body i s
  | xO p' => s1 ← for_pos p' i body s; for_pos p' (i + Zpos p') body s1
  | xI p' =>
      s1 ← body i s;
      s2 ← for_pos p' (i + 1) body s1;
      for_pos p' (i + 1 + Zpos p') body s2
  end.
Definition for_range {σ X} (count : Z) (s : X) (body : Z → X → ST σ X) : ST σ X :=
  match count with
  | Zpos p => for_pos p 0 body s
  | _ => mret s
  end.
(** The same loop by unary recursion, for proofs. *)
Fixpoint for_nat {σ X} (n : nat) (i : Z) (body : Z → X → ST σ X) (s : X) : ST σ X :=
  match n with
  | O => mret s
  | S n' => s1 ← body i s; for_nat n' (i + 1) body s1
  end.

(** [for (const auto& x : l) body]. *)
Fixpoint for_each {σ A} (l : list A) (body : A → ST σ unit) : ST σ unit :=
  match l with
  | [] => mret tt
  | x :: l' => body x;; for_each l' body
  end.

(** ** Pieces of the C++ standard library the sources use *)

(** [std::lower_bound], by the halving loop of libstdc++; [pred x] is
    [comp(x, value)]. *)
Fixpoint lower_bound_go {A} (fuel : nat) (pred : A → bool) (l : list A)
    (first len : nat) : nat :=
  match fuel with
  | O => first
  | S fuel' =>
      if Nat.eqb len 0 then first
      else
        let half := Nat.div2 len in
        match l !! (first + half)%nat with
        | Some x =>
            if pred x then lower_bound_go fuel' pred l (first + half + 1) (len - half - 1)
            else lower_bound_go fuel' pred l first half
        | None => first
        end
  end.
Definition lower_bound {A} (pred : A → bool) (l : list A) : nat :=
  lower_bound_go (length l) pred l 0 (length l).

(** [operator<] of [std::string]: lexicographic on unsigned characters. *)
Fixpoint cstring_ltb (a b : cstring) : bool :=
  match a, b with
  | _, [] => false
  | [], _ :: _ => true
  | x :: a', y :: b' =>
      if Z_of_byte x <? Z_of_byte y then true
      else if Z_of_byte y <? Z_of_byte x then false
      else cstring_ltb a' b'
  end.

Definition cstring_eqb (a b : cstring) : bool := bool_decide (a = b).

(** [std::to_string]: 20 digits are enough for every 64-bit integer. *)
Fixpoint decimal_digits (fuel : nat) (n : Z) (acc : cstring) : cstring :=
  match fuel with
  | O => acc
  | S fuel' =>
      let acc' := byte_of_Z (48 + n mod 10) :: acc in
      if n <? 10 then acc' else decimal_digits fuel' (n / 10) acc'
  end.
Definition to_string (z : Z) : cstring :=
  if z <? 0 then str "-" ++ decimal_digits 20 (- z) [] else decimal_digits 20 z [].

(** ** Automation *)

Create HintDb mkmq.

(** Case analysis on the boolean tests of the code, turned into the facts
    they decide. *)
Ltac bcase :=
  repeat match goal with
  | |- context [Z.ltb ?a ?b] => destruct (Z.ltb_spec a b)
  | |- context [Z.leb ?a ?b] => destruct (Z.leb_spec a b)
  | |- context [Z.eqb ?a ?b] => destruct (Z.eqb_spec a b)
  | |- context [Z.gtb ?a ?b] => rewrite (Z.gtb_ltb a b)
  | |- context [Z.geb ?a ?b] => rewrite (Z.geb_leb a b)
  end.

(** ** Lemmas on bytes and machine integers *)

Lemma Z_of_byte_range (b : byte) : 0 <= b < 256.
Proof.
  unfold Z_of_byte. pose proof (Byte.to_N_bounded b). lia.
Qed.

Lemma Z_of_byte_of_Z z : Z_of_byte (byte_of_Z z) = z mod 256.
Proof.
  unfold Z_of_byte, byte_of_Z. change (2 ^ 8) with 256.
  pose proof (Z.mod_pos_bound z 256 ltac:(lia)) as Hb.
  destruct (Byte.of_N _) as [b|] eqn:E.
  - apply Byte.to_of_N in E. rewrite E. rewrite Z2N.id; lia.
  - apply Byte.of_N_None_iff in E. lia.
Qed.

Lemma byte_of_Z_of_byte (b : byte) : byte_of_Z b = b.
Proof.
  unfold byte_of_Z. change (2 ^ 8) with 256.
  pose proof (Z_of_byte_range b) as Hb. rewrite Z.mod_small by lia.
  unfold Z_of_byte. rewrite N2Z.id, Byte.of_to_N. done.
Qed.

Lemma Z_of_byte_inj (a b : byte) : Z_of_byte a = Z_of_byte b → a = b.
Proof. intros E. rewrite <- (byte_of_Z_of_byte a), E. apply byte_of_Z_of_byte. Qed.

Lemma byte_of_Z_mod z : byte_of_Z (z mod 256) = byte_of_Z z.
Proof. apply Z_of_byte_inj. rewrite !Z_of_byte_of_Z. apply Z.mod_mod. lia. Qed.

Lemma byte_of_Z_land z : byte_of_Z (Z.land z 255) = byte_of_Z z.
Proof.
  change 255 with (Z.ones 8). rewrite Z.land_ones by lia. apply byte_of_Z_mod.
Qed.

Lemma pow2_pos w : 0 <= w → 0 < 2 ^ w.
Proof. intros. apply Z.pow_pos_nonneg; lia. Qed.

Lemma pow2_half w : 0 < w → 2 ^ w = 2 * 2 ^ (w - 1).
Proof. intros. rewrite <- Z.pow_succ_r by lia. f_equal. lia. Qed.

Lemma wrap_u_range w z : 0 <= w → in_u w (wrap_u w z).
Proof. intros. apply Z.mod_pos_bound. by apply pow2_pos. Qed.

Lemma wrap_u_id w z : in_u w z → wrap_u w z = z.
Proof. intros. by apply Z.mod_small. Qed.

Lemma wrap_s_range w z : 0 < w → in_s w (wrap_s w z).
Proof.
  intros Hw. unfold in_s, wrap_s. pose proof (pow2_half w Hw).
  pose proof (Z.mod_pos_bound z (2 ^ w) (pow2_pos w ltac:(lia))).
  bcase; lia.
Qed.

Lemma wrap_s_id w z : 0 < w → in_s w z → wrap_s w z = z.
Proof.
  intros Hw Hz. unfold in_s, wrap_s in *. pose proof (pow2_half w Hw).
  pose proof (pow2_pos (w - 1) ltac:(lia)).
  destruct (Z.ltb_spec z 0).
  - replace (z mod 2 ^ w) with (z + 2 ^ w).
    + bcase; lia.
    + rewrite <- (Z.mod_small (z + 2 ^ w) (2 ^ w)) by lia.
      rewrite <- (Z.mul_1_l (2 ^ w)) at 1. by rewrite Z.mod_add by lia.
  - rewrite Z.mod_small by lia. bcase; lia.
Qed.

Lemma wrap_s_of_u w z : wrap_s w (wrap_u w z) = wrap_s w z.
Proof.
  unfold wrap_s, wrap_u. destruct (decide (2 ^ w = 0)) as [->|].
  - by rewrite !Z.mod_0_r.
  - by rewrite Z.mod_mod.
Qed.

Lemma wrap_u_of_s w z : 0 <= w → wrap_u w (wrap_s w z) = wrap_u w z.
Proof.
  intros Hw. unfold wrap_s, wrap_u. pose proof (pow2_pos w Hw).
  destruct (_ <? _).
  - by rewrite Z.mod_mod by lia.
  - rewrite <- (Z.mod_add (z mod 2 ^ w - 2 ^ w) 1) by lia.
    replace (z mod 2 ^ w - 2 ^ w + 1 * 2 ^ w) with (z mod 2 ^ w) by lia.
    by rewrite Z.mod_mod by lia.
Qed.

(** [hi << k | lo] is a sum when [lo] fits in [k] bits. *)
Lemma testbit_high lo k n : 0 <= k → 0 <= lo < 2 ^ k → k <= n → Z.testbit lo n = false.
Proof.
  intros. rewrite <- (Z.mod_small lo (2 ^ k)) by lia. by apply Z.mod_pow2_bits_high.
Qed.

Lemma land_shiftl_disjoint hi lo k :
  0 <= k → 0 <= lo < 2 ^ k → Z.land (Z.shiftl hi k) lo = 0.
Proof.
  intros. apply Z.bits_inj'. intros n Hn. rewrite Z.land_spec, Z.bits_0.
  destruct (Z.ltb_spec n k).
  - by rewrite Z.shiftl_spec_low.
  - by rewrite (testbit_high lo k n), andb_false_r.
Qed.

Lemma lor_shiftl_add hi lo k :
  0 <= k → 0 <= lo < 2 ^ k → Z.lor (Z.shiftl hi k) lo = hi * 2 ^ k + lo.
Proof.
  intros Hk Hlo. pose proof (land_shiftl_disjoint hi lo k Hk Hlo) as Hd.
  rewrite <- Z.shiftl_mul_pow2 by lia.
  rewrite Z.add_nocarry_lxor, Z.lxor_lor by done. done.
Qed.

(** *** Big- and little-endian images *)

Lemma length_be_bytes n z : length (be_bytes n z) = n.
Proof. induction n; simpl; congruence. Qed.

Lemma length_le_bytes n z : length (le_bytes n z) = n.
Proof. revert z. induction n; intros; simpl; congruence. Qed.

Lemma be_fold_bytes n z acc :
  fold_left (λ acc b, acc * 256 + Z_of_byte b) (be_bytes n z) acc
  = acc * 2 ^ (8 * Z.of_nat n) + z mod 2 ^ (8 * Z.of_nat n).
Proof.
  revert acc. induction n as [|n IH]; intros acc.
  - change (acc = acc * 1 + z mod 1). rewrite Z.mod_1_r. lia.
  - cbn [be_bytes fold_left]. rewrite IH, Z_of_byte_of_Z.
    replace (8 * Z.of_nat (S n)) with (8 * Z.of_nat n + 8) by lia.
    set (k := 8 * Z.of_nat n). rewrite Z.pow_add_r, Z.shiftr_div_pow2 by lia.
    change (2 ^ 8) with 256. pose proof (pow2_pos k ltac:(lia)).
    rewrite Z.rem_mul_r by lia. nia.
Qed.

Lemma be_value_bytes n z : be_value (be_bytes n z) = z mod 2 ^ (8 * Z.of_nat n).
Proof. unfold be_value. rewrite be_fold_bytes. lia. Qed.

Lemma le_value_bytes n z : le_value (le_bytes n z) = z mod 2 ^ (8 * Z.of_nat n).
Proof.
  revert z. induction n as [|n IH]; intros z.
  - change (0 = z mod 1). by rewrite Z.mod_1_r.
  - cbn [le_bytes le_value]. rewrite IH, Z_of_byte_of_Z.
    replace (8 * Z.of_nat (S n)) with (8 + 8 * Z.of_nat n) by lia.
    pose proof (pow2_pos (8 * Z.of_nat n) ltac:(lia)).
    rewrite Z.pow_add_r, Z.shiftr_div_pow2 by lia. change (2 ^ 8) with 256.
    rewrite Z.rem_mul_r by lia. lia.
Qed.

(** A signed integer survives the trip through its byte image. *)
Lemma be_signed_roundtrip n z :
  (0 < n)%nat → in_s (8 * Z.of_nat n) z →
  wrap_s (8 * Z.of_nat n) (be_value (be_bytes n z)) = z.
Proof.
  intros Hn Hz. rewrite be_value_bytes. fold (wrap_u (8 * Z.of_nat n) z).
  rewrite wrap_s_of_u. apply wrap_s_id; [lia|done].
Qed.

Lemma le_signed_roundtrip n z :
  (0 < n)%nat → in_s (8 * Z.of_nat n) z →
  wrap_s (8 * Z.of_nat n) (le_value (le_bytes n z)) = z.
Proof.
  intros Hn Hz. rewrite le_value_bytes. fold (wrap_u (8 * Z.of_nat n) z).
  rewrite wrap_s_of_u. apply wrap_s_id; [lia|done].
Qed.

(** ** Lemmas on lists *)

Lemma zlen_nonneg {A} (l : list A) : 0 <= zlen l.
Proof. unfold zlen. lia. Qed.

Lemma zlen_app {A} (l k : list A) : zlen (l ++ k) = zlen l + zlen k.
Proof. unfold zlen. rewrite length_app. lia. Qed.

Lemma zlen_cons {A} (x : A) l : zlen (x :: l) = 1 + zlen l.
Proof. unfold zlen. simpl. lia. Qed.

Lemma zlen_nil {A} : zlen (@nil A) = 0.
Proof. done. Qed.

(** ** Lemmas on the monad and the loops *)

Lemma st_bind_ok {σ A B} (m : ST σ A) (k : A → ST σ B) s a s' :
  m s = Ok (a, s') → (m ≫= k) s = k a s'.
Proof. intros E. unfold mbind, ST_bind. by rewrite E. Qed.

Lemma st_bind_err {σ A B} (m : ST σ A) (k : A → ST σ B) s e :
  m s = Err e → (m ≫= k) s = Err e.
Proof. intros E. unfold mbind, ST_bind. by rewrite E. Qed.

Lemma st_bind_inv {σ A B} (m : ST σ A) (k : A → ST σ B) s b s'' :
  (m ≫= k) s = Ok (b, s'') → ∃ a s', m s = Ok (a, s') ∧ k a s' = Ok (b, s'').
Proof.
  unfold mbind, ST_bind. destruct (m s) as [[a s']|e] eqn:E; [eauto|done].
Qed.

Lemma result_bind_inv {A B} (m : result A) (k : A → result B) b :
  (m ≫= k) = Ok b → ∃ a, m = Ok a ∧ k a = Ok b.
Proof. destruct m as [a|e]; [eauto|done]. Qed.

(** Takes apart the hypothesis that a computation returned a value: one [bind]
    at a time, splitting on its tests. *)
Ltac inv_bind H :=
  let a := fresh "a" in let Ha := fresh "Ha" in
  lazymatch type of H with
  | _ ≫= _ = Ok _ => apply result_bind_inv in H as (a & Ha & H); cbv beta iota in H
  | (if ?b then _ else _) = Ok _ => destruct b eqn:?; [|] ; try discriminate H
  | (let '(_, _) := ?x in _) = Ok _ => destruct x
  end.

Lemma mapM_Forall {A B} (f : A → result B) (P : B → Prop) l k :
  mapM f l = Ok k → (∀ x y, f x = Ok y → P y) → Forall P k.
Proof.
  intros Hm Hf. revert k Hm. induction l as [|x l IH]; intros k Hm; simpl in Hm.
  - injection Hm as <-. constructor.
  - apply result_bind_inv in Hm as (y & Hy & Hm). apply result_bind_inv in Hm as (k' & Hk & Hm).
    injection Hm as <-. constructor; eauto.
Qed.

Lemma add_i64_ok {σ} a b (s : σ) : in_s 64 (a + b) → add_i64 a b s = Ok (a + b, s).
Proof.
  unfold in_s, add_i64. change (2 ^ (64 - 1)) with (2 ^ 63). intros H.
  destruct (Z.leb_spec (- 2 ^ 63) (a + b)), (Z.ltb_spec (a + b) (2 ^ 63)); try lia. done.
Qed.

Lemma for_nat_app {σ X} n m i (body : Z → X → ST σ X) x s :
  for_nat (n + m) i body x s
  = (y ← for_nat n i body x; for_nat m (i + Z.of_nat n) body y) s.
Proof.
  revert i x s. induction n as [|n IH]; intros i x s.
  - unfold mbind, ST_bind. simpl. by replace (i + Z.of_nat 0) with i by lia.
  - unfold mbind, ST_bind. cbn [for_nat Nat.add]. unfold mbind, ST_bind.
    destruct (body i x s) as [[y s']|e]; [|done].
    rewrite IH. unfold mbind, ST_bind.
    destruct (for_nat n (i + 1) body y s') as [[z s'']|e]; [|done].
    by replace (i + Z.of_nat (S n)) with (i + 1 + Z.of_nat n) by lia.
Qed.

Lemma for_pos_nat {σ X} p i (body : Z → X → ST σ X) x s :
  for_pos p i body x s = for_nat (Pos.to_nat p) i body x s.
Proof.
  revert i x s. induction p as [p IH|p IH|]; intros i x s; cbn [for_pos].
  - rewrite Pos2Nat.inj_xI. replace (2 * Pos.to_nat p)%nat
      with (Pos.to_nat p + Pos.to_nat p)%nat by lia.
    cbn [for_nat]. unfold mbind, ST_bind. destruct (body i x s) as [[y s']|e]; [|done].
    rewrite for_nat_app. unfold mbind, ST_bind. rewrite IH.
    destruct (for_nat _ _ _ y s') as [[z s'']|e]; [|done].
    rewrite IH. by rewrite positive_nat_Z.
  - rewrite Pos2Nat.inj_xO. replace (2 * Pos.to_nat p)%nat
      with (Pos.to_nat p + Pos.to_nat p)%nat by lia.
    rewrite for_nat_app. unfold mbind, ST_bind. rewrite IH.
    destruct (for_nat _ _ _ x s) as [[z s'']|e]; [|done].
    rewrite IH. by rewrite positive_nat_Z.
  - change (Pos.to_nat 1) with 1%nat. cbn [for_nat]. unfold mbind, ST_bind.
    by destruct (body i x s) as [[y s']|e].
Qed.

Lemma for_range_nat {σ X} count (body : Z → X → ST σ X) x s :
  for_range count x body s = for_nat (Z.to_nat count) 0 body x s.
Proof. destruct count as [|p|p]; [done|apply for_pos_nat|done]. Qed.

(** ** Lemmas on the library functions *)

(** On a range partitioned by [pred], [lower_bound] returns the partition
    point. *)
Section lower_bound.
Context {A : Type} (pred : A → bool) (l : list A).
Hypothesis mono : ∀ i j x y, (i <= j)%nat →
  l !! i = Some x → l !! j = Some y → pred y = true → pred x = true.

Lemma lower_bound_go_spec fuel first len k :
  (len <= fuel)%nat → (first + len <= length l)%nat →
  (∀ i x, (i < first)%nat → l !! i = Some x → pred x = true) →
  (∀ i x, (first + len <= i)%nat → l !! i = Some x → pred x = false) →
  lower_bound_go fuel pred l first len = k →
  (k <= length l)%nat ∧
  (∀ i x, (i < k)%nat → l !! i = Some x → pred x = true) ∧
  (∀ i x, (k <= i)%nat → l !! i = Some x → pred x = false).
Proof.
  revert first len. induction fuel as [|fuel IH]; intros first len Hf Hl Ht Hn Hk; simpl in Hk.
  - subst k. replace len with 0%nat in * by lia. rewrite Nat.add_0_r in *. auto.
  - destruct (Nat.eqb_spec len 0) as [->|Hlen].
    { subst k. rewrite Nat.add_0_r in *. auto. }
    assert (Nat.div2 len < len)%nat by (apply Nat.lt_div2; lia).
    revert Hk. generalize dependent (Nat.div2 len). intros half Hhalf Hk.
    destruct (lookup_lt_is_Some_2 l (first + half)) as [m Hm]; [lia|].
    rewrite Hm in Hk. destruct (pred m) eqn:Em.
    + eapply (IH (first + half + 1)%nat (len - half - 1)%nat); [lia|lia| | |exact Hk].
      * intros i x Hi Hx. apply (mono i (first + half) x m); auto. lia.
      * intros i x Hi. apply Hn. lia.
    + eapply (IH first (half)); [lia|lia|exact Ht| |exact Hk].
      intros i x Hi Hx. destruct (pred x) eqn:Ex; [|done].
      rewrite (mono (first + half) i m x) in Em; auto.
Qed.

Lemma lower_bound_spec :
  (lower_bound pred l <= length l)%nat ∧
  (∀ i x, (i < lower_bound pred l)%nat → l !! i = Some x → pred x = true) ∧
  (∀ i x, (lower_bound pred l <= i)%nat → l !! i = Some x → pred x = false).
Proof.
  apply (lower_bound_go_spec (length l) 0 (length l)); auto; try lia.
  intros i x Hi Hx. apply lookup_lt_Some in Hx. lia.
Qed.
End lower_bound.

Lemma cstring_ltb_irrefl a : cstring_ltb a a = false.
Proof. induction a as [|x a IH]; simpl; [done|]. by rewrite Z.ltb_irrefl. Qed.

Lemma cstring_ltb_trans a b c :
  cstring_ltb a b = true → cstring_ltb b c = true → cstring_ltb a c = true.
Proof.
  revert b c. induction a as [|x a IH]; intros [|y b] [|z c]; simpl; try done.
  bcase; try done; try lia; eauto.
Qed.

Lemma cstring_ltb_total a b : a ≠ b → cstring_ltb a b = true ∨ cstring_ltb b a = true.
Proof.
  revert b. induction a as [|x a IH]; intros [|y b] Hne; simpl; auto; try done.
  bcase; auto; try lia. apply IH. intros ->. apply Hne. f_equal.
  apply Z_of_byte_inj. lia.
Qed.

Lemma cstring_eqb_spec a b : reflect (a = b) (cstring_eqb a b).
Proof. unfold cstring_eqb. destruct (bool_decide_reflect (a = b)); by constructor. Qed.

(** *** Decimal notation *)

Definition is_digit (c : byte) : bool := (48 <=? Z_of_byte c) && (Z_of_byte c <=? 57).
Definition decimal_value (ds : cstring) : Z :=
  fold_left (λ acc c, acc * 10 + (Z_of_byte c - 48)) ds 0.

Lemma digit_byte d : 0 <= d < 10 → Z_of_byte (byte_of_Z (48 + d)) = 48 + d.
Proof. intros. rewrite Z_of_byte_of_Z. apply Z.mod_small. lia. Qed.

Lemma decimal_digits_value fuel n acc :
  0 <= n < 10 ^ Z.of_nat fuel → (0 < fuel)%nat →
  fold_left (λ acc c, acc * 10 + (Z_of_byte c - 48)) (decimal_digits fuel n acc) 0
  = fold_left (λ acc c, acc * 10 + (Z_of_byte c - 48)) acc n.
Proof.
  revert n acc. induction fuel as [|fuel IH]; intros n acc Hn Hf; [lia|].
  pose proof (Z.mod_pos_bound n 10 ltac:(lia)). cbn [decimal_digits].
  destruct (Z.ltb_spec n 10).
  - cbn [fold_left]. rewrite digit_byte by lia. f_equal. rewrite Z.mod_small; lia.
  - rewrite Nat2Z.inj_succ, Z.pow_succ_r in Hn by lia.
    destruct fuel as [|fuel].
    { change (10 ^ Z.of_nat 0) with 1 in Hn. lia. }
    rewrite IH.
    + cbn [fold_left]. rewrite digit_byte by lia. f_equal. rewrite (Z.div_mod n 10) at 3; lia.
    + split; [apply Z.div_pos; lia|apply Z.div_lt_upper_bound; lia].
    + lia.
Qed.

Lemma decimal_digits_all fuel n acc :
  Forall (λ c, is_digit c = true) acc →
  Forall (λ c, is_digit c = true) (decimal_digits fuel n acc).
Proof.
  revert n acc. induction fuel as [|fuel IH]; intros n acc Ha; [done|].
  pose proof (Z.mod_pos_bound n 10 ltac:(lia)). cbn [decimal_digits].
  assert (Forall (λ c, is_digit c = true) (byte_of_Z (48 + n mod 10) :: acc)).
  { constructor; [|done]. unfold is_digit. rewrite digit_byte by lia. bcase; try lia; done. }
  destruct (n <? 10); auto.
Qed.

Lemma decimal_digits_nonempty fuel n acc : (0 < fuel)%nat → decimal_digits fuel n acc ≠ [].
Proof.
  intros Hf. assert (length acc < length (decimal_digits fuel n acc))%nat as Hl.
  { revert n acc Hf. induction fuel as [|fuel IH]; intros n acc Hf; [lia|].
    cbn [decimal_digits]. destruct (n <? 10); [simpl; lia|].
    destruct fuel; [simpl; lia|]. etrans; [|apply IH; lia]. simpl. lia. }
  intros E. rewrite E in Hl. simpl in Hl. lia.
Qed.

Lemma lor_range a b k : 0 <= k → in_u k a → in_u k b → in_u k (Z.lor a b).
Proof.
  unfold in_u. intros Hk Ha Hb.
  assert (Z.lor a b = Z.lor a b mod 2 ^ k) as ->.
  { rewrite <- Z.land_ones, Z.land_lor_distr_l, !Z.land_ones by lia.
    by rewrite !Z.mod_small by lia. }
  apply Z.mod_pos_bound. by apply pow2_pos.
Qed.
