(* ===== verification/Wire.v ===== *)
(** * The Kafka wire format: [WireReader] and [WireWriter]

    Models src/protocol/wire.cpp and include/mkmq/protocol/wire.hpp.  A
    reader is the buffer, its size and the read position; a writer is the
    vector of bytes written so far.  Every access to the buffer is checked
    against its length in the model: an access outside it is
    [UndefinedBehavior], so that the theorems on [reader_safe] show that no
    input makes the code read outside the frame.

    [reads m enc v] says that [m] decodes exactly the bytes [enc] to [v], and
    [writes w enc] that [w] appends exactly [enc]; both compose along the
    monad, which is how the round trips of the message codecs are proved. *)

From Stdlib Require Import ZArith Lia.
From stdpp Require Import base tactics list numbers option sets.
From S2P Require Import Prelude.

Local Open Scope Z_scope.

(** ** WireReader *)

Record WireReader := mkWireReader {
  data_ : bytes;
  size_ : Z;
  pos_ : Z;
}.

Abbreviation Reader := (ST WireReader).

(** The constructor from a vector. *)
Definition WireReader_of (data : bytes) : WireReader := mkWireReader data (zlen data) 0.

Definition position (r : WireReader) : Z := pos_ r.
Definition remaining (r : WireReader) : Z := u64 (size_ r - pos_ r).
Definition reader_empty (r : WireReader) : bool := remaining r =? 0.

Definition require (size : Z) : Reader unit := λ r,
  if size >? remaining r
  then Err (ProtocolError (str "Kafka frame ended while decoding"))
  else Ok (tt, r).

(** [data_[pos_ + off]], promoted to an integer. *)
Definition data_at (off : Z) : Reader Z := λ r,
  match data_ r !! Z.to_nat (pos_ r + off) with
  | Some b => Ok (Z_of_byte b, r)
  | None => Err (UndefinedBehavior (str "read past the end of the frame"))
  end.

(** [pos_ += n]. *)
Definition advance (n : Z) : Reader unit := λ r,
  Ok (tt, mkWireReader (data_ r) (size_ r) (u64 (pos_ r + n))).

Definition read_int8 : Reader Z :=
  require 1;; b ← data_at 0; advance 1;; mret (i8 b).

Definition read_bool : Reader bool :=
  v ← read_int8; mret (negb (v =? 0)).

Definition read_int16 : Reader Z :=
  require 2;;
  b0 ← data_at 0; b1 ← data_at 1;
  let value := u16 (Z.lor (Z.shiftl b0 8) b1) in
  advance 2;; mret (i16 value).

Definition read_int32 : Reader Z :=
  require 4;;
  b0 ← data_at 0; b1 ← data_at 1; b2 ← data_at 2; b3 ← data_at 3;
  let value :=
    Z.lor (Z.lor (Z.lor (u32 (Z.shiftl b0 24)) (u32 (Z.shiftl b1 16)))
                 (u32 (Z.shiftl b2 8))) b3 in
  advance 4;; mret (i32 value).

Definition read_int64 : Reader Z :=
  require 8;;
  value ← for_range 8 0 (λ i value,
    b ← data_at i; mret (Z.lor (u64 (Z.shiftl value 8)) b));
  advance 8;; mret (i64 value).

(** The loop runs at [shift] = 0, 7, 14, 21, 28: five rounds exhaust it. *)
Fixpoint varint_loop (fuel : nat) (value shift : Z) : Reader Z :=
  match fuel with
  | O => throw (ProtocolError (str "Kafka unsigned varint is too large"))
  | S fuel' =>
      if shift <? 32 then
        require 1;;
        byte ← data_at 0; advance 1;;
        let value' := Z.lor value (u32 (Z.shiftl (Z.land byte 0x7f) shift)) in
        if Z.land byte 0x80 =? 0 then mret value'
        else varint_loop fuel' value' (shift + 7)
      else throw (ProtocolError (str "Kafka unsigned varint is too large"))
  end.
Definition read_unsigned_varint : Reader Z := varint_loop 5 0 0.

Definition read_raw (size : Z) : Reader bytes :=
  require size;;
  out ← gets (λ r, take (Z.to_nat size) (drop (Z.to_nat (pos_ r)) (data_ r)));
  advance size;; mret out.

Definition skip (size : Z) : Reader unit := require size;; advance size.

Definition read_string : Reader cstring :=
  size ← read_int16;
  if size <? 0 then throw (ProtocolError (str "Kafka string cannot be null"))
  else read_raw size.

Definition read_nullable_string : Reader (option cstring) :=
  size ← read_int16;
  if size <? 0 then mret None
  else bytes ← read_raw size; mret (Some bytes).

Definition read_compact_string : Reader cstring :=
  size_plus_one ← read_unsigned_varint;
  if size_plus_one =? 0
  then throw (ProtocolError (str "Kafka compact string cannot be null"))
  else read_raw (size_plus_one - 1).

Definition read_compact_nullable_string : Reader (option cstring) :=
  size_plus_one ← read_unsigned_varint;
  if size_plus_one =? 0 then mret None
  else bytes ← read_raw (size_plus_one - 1); mret (Some bytes).

Definition read_bytes : Reader bytes :=
  size ← read_int32;
  if size <? 0 then throw (ProtocolError (str "Kafka bytes cannot be null"))
  else read_raw size.

Definition read_nullable_bytes : Reader (option bytes) :=
  size ← read_int32;
  if size <? 0 then mret None
  else out ← read_raw size; mret (Some out).

Definition read_compact_nullable_bytes : Reader (option bytes) :=
  size_plus_one ← read_unsigned_varint;
  if size_plus_one =? 0 then mret None
  else out ← read_raw (size_plus_one - 1); mret (Some out).

Definition read_array_count (flexible nullable : bool) : Reader Z :=
  if negb flexible then
    count ← read_int32;
    if (count <? 0) && negb nullable
    then throw (ProtocolError (str "Kafka array cannot be null"))
    else mret count
  else
    count_plus_one ← read_unsigned_varint;
    if count_plus_one =? 0 then
      if negb nullable
      then throw (ProtocolError (str "Kafka compact array cannot be null"))
      else mret (-1)
    else if count_plus_one >? 2147483647
    then throw (ProtocolError (str "Kafka compact array is too large"))
    else mret (i32 (count_plus_one - 1)).

(** One round of the loop of [skip_tagged_fields]. *)
Definition tagged_field_step (i previous_tag : Z) : Reader Z :=
  tag ← read_unsigned_varint;
  if (i >? 0) && (tag <=? previous_tag)
  then throw (ProtocolError (str "Kafka tagged fields are not strictly increasing"))
  else
    size ← read_unsigned_varint;
    skip size;;
    mret tag.

Definition skip_tagged_fields : Reader unit :=
  fields ← read_unsigned_varint;
  for_range fields 0 tagged_field_step;;
  mret tt.

(** ** WireWriter *)

Abbreviation Writer := (ST bytes).

(** [data_.push_back(static_cast<std::uint8_t>(z))]. *)
Definition push_back (z : Z) : Writer unit := λ data, Ok (tt, data ++ [byte_of_Z z]).

(** The bytes a fresh writer holds after running [w] ([take_bytes]). *)
Definition take_bytes (w : Writer unit) : result bytes :=
  match w [] with Ok (_, data) => Ok data | Err e => Err e end.

Definition writer_size : Writer Z := gets zlen.

Definition write_int8 (value : Z) : Writer unit := push_back value.

Definition write_bool (value : bool) : Writer unit := write_int8 (if value then 1 else 0).

Definition write_int16 (value : Z) : Writer unit :=
  let raw := u16 value in
  push_back (Z.land (Z.shiftr raw 8) 0xff);;
  push_back (Z.land raw 0xff).

Definition write_int32 (value : Z) : Writer unit :=
  let raw := u32 value in
  push_back (Z.land (Z.shiftr raw 24) 0xff);;
  push_back (Z.land (Z.shiftr raw 16) 0xff);;
  push_back (Z.land (Z.shiftr raw 8) 0xff);;
  push_back (Z.land raw 0xff).

(** [for (int shift = 56; shift >= 0; shift -= 8)]. *)
Definition write_int64 (value : Z) : Writer unit :=
  let raw := u64 value in
  for_each [56; 48; 40; 32; 24; 16; 8; 0] (λ shift,
    push_back (Z.land (Z.shiftr raw shift) 0xff)).

(** A [uint32_t] has at most five groups of seven bits. *)
Fixpoint write_varint_loop (fuel : nat) (value : Z) : Writer unit :=
  match fuel with
  | O => push_back value
  | S fuel' =>
      if negb (Z.land value 0xffffff80 =? 0) then
        push_back (Z.lor (Z.land value 0x7f) 0x80);;
        write_varint_loop fuel' (Z.shiftr value 7)
      else push_back value
  end.
Definition write_unsigned_varint (value : Z) : Writer unit := write_varint_loop 5 (u32 value).

Definition write_raw (value : bytes) : Writer unit := λ data, Ok (tt, data ++ value).

Definition write_string (value : cstring) : Writer unit :=
  if zlen value >? 32767
  then throw (ProtocolError (str "Kafka string is too large"))
  else write_int16 (i16 (zlen value));; write_raw value.

Definition write_nullable_string (value : option cstring) : Writer unit :=
  match value with
  | None => write_int16 (-1)
  | Some value => write_string value
  end.

Definition write_compact_string (value : cstring) : Writer unit :=
  write_unsigned_varint (u32 (zlen value + 1));; write_raw value.

Definition write_compact_nullable_string (value : option cstring) : Writer unit :=
  match value with
  | None => write_unsigned_varint 0
  | Some value => write_compact_string value
  end.

Definition write_bytes (value : bytes) : Writer unit :=
  write_int32 (i32 (zlen value));; write_raw value.

Definition write_nullable_bytes (value : option bytes) : Writer unit :=
  match value with
  | None => write_int32 (-1)
  | Some value => write_bytes value
  end.

Definition write_compact_nullable_bytes (value : option bytes) : Writer unit :=
  match value with
  | None => write_unsigned_varint 0
  | Some value => write_unsigned_varint (u32 (zlen value + 1));; write_raw value
  end.

(** [count + 1] is computed in [int32_t]: it overflows at [INT32_MAX]. *)
Definition write_array_count (count : Z) (flexible : bool) : Writer unit :=
  if count <? 0 then throw (ProtocolError (str "Kafka array count cannot be negative"))
  else if flexible then
    if count =? 2147483647
    then throw (UndefinedBehavior (str "int32 overflow in write_array_count"))
    else write_unsigned_varint (u32 (count + 1))
  else write_int32 count.

Definition write_nullable_array_count (count : Z) (flexible : bool) : Writer unit :=
  if count <? 0 then
    if flexible then write_unsigned_varint 0 else write_int32 (-1)
  else write_array_count count flexible.

Definition write_empty_tagged_fields : Writer unit := write_unsigned_varint 0.

Definition patch_int32 (offset value : Z) : Writer unit := λ data,
  if u64 (offset + 4) >? zlen data
  then Err (ProtocolError (str "cannot patch int32 outside buffer"))
  else
    let raw := u32 value in
    let o := Z.to_nat offset in
    Ok (tt,
      <[(o + 3)%nat := byte_of_Z (Z.land raw 0xff)]>
      (<[(o + 2)%nat := byte_of_Z (Z.land (Z.shiftr raw 8) 0xff)]>
      (<[(o + 1)%nat := byte_of_Z (Z.land (Z.shiftr raw 16) 0xff)]>
      (<[o := byte_of_Z (Z.land (Z.shiftr raw 24) 0xff)]> data)))).

(** ** Specifications *)

(** Type invariant of a reader: the size is the buffer's and the position is
    inside it. *)
Definition reader_wf (r : WireReader) : Prop :=
  size_ r = zlen (data_ r) ∧ 0 <= pos_ r <= size_ r ∧ size_ r < 2 ^ 64.

(** The bytes not read yet. *)
Definition rest (r : WireReader) : bytes := drop (Z.to_nat (pos_ r)) (data_ r).

Definition moved (r : WireReader) (n : nat) : WireReader :=
  mkWireReader (data_ r) (size_ r) (pos_ r + Z.of_nat n).

(** [m] never leaves the buffer: it either throws or returns
    a value satisfying [P] and a well-formed reader of the same buffer that
    has not moved backwards. *)
Definition decodes {A} (m : Reader A) (P : A → Prop) : Prop :=
  ∀ r, reader_wf r →
  match m r with
  | Ok (v, r') => P v ∧ reader_wf r' ∧ data_ r' = data_ r ∧ pos_ r <= pos_ r'
  | Err e => defined e
  end.

(** [m] decodes the bytes [enc] to [v] and stops right after them. *)
Definition reads {A} (m : Reader A) (enc : bytes) (v : A) : Prop :=
  ∀ r tail, reader_wf r → rest r = enc ++ tail → m r = Ok (v, moved r (length enc)).

(** [w] appends the bytes [enc]. *)
Definition writes (w : Writer unit) (enc : bytes) : Prop :=
  ∀ data, w data = Ok (tt, data ++ enc).

(** The encoding of an unsigned varint. *)
Fixpoint varint_enc (fuel : nat) (v : Z) : bytes :=
  match fuel with
  | O => [byte_of_Z v]
  | S fuel' =>
      if v <? 128 then [byte_of_Z v]
      else byte_of_Z (v mod 128 + 128) :: varint_enc fuel' (v / 128)
  end.
Definition uvarint (v : Z) : bytes := varint_enc 5 v.

(** *** Composition *)

Lemma decodes_weaken {A} (m : Reader A) (P Q : A → Prop) :
  decodes m P → (∀ a, P a → Q a) → decodes m Q.
Proof.
  intros H HPQ r Hr. specialize (H r Hr). destruct (m r) as [[v r']|e]; [|done].
  destruct H as (HP & ? & ? & ?). auto.
Qed.

Lemma decodes_ret {A} (v : A) (P : A → Prop) : P v → decodes (mret v) P.
Proof. intros HP r Hr. simpl. split_and!; auto; lia. Qed.

Lemma decodes_throw {A} e (P : A → Prop) : defined e → decodes (throw e) P.
Proof. intros He r Hr. done. Qed.

Lemma decodes_bind {A B} (m : Reader A) (k : A → Reader B) P Q :
  decodes m P → (∀ a, P a → decodes (k a) Q) → decodes (m ≫= k) Q.
Proof.
  intros Hm Hk r Hr. specialize (Hm r Hr). unfold mbind, ST_bind.
  destruct (m r) as [[v r']|e]; [|done]. destruct Hm as (HP & Hr' & Hd & Hp).
  specialize (Hk v HP r' Hr'). destruct (k v r') as [[w r'']|e]; [|done].
  destruct Hk as (HQ & ? & ? & ?). split_and!; auto; [congruence|lia].
Qed.

Lemma decodes_for_nat {X} n i (body : Z → X → Reader X) (x : X) (P : X → Prop) :
  P x → (∀ i x, P x → decodes (body i x) P) → decodes (for_nat n i body x) P.
Proof.
  revert i x. induction n as [|n IH]; intros i x Hx Hb; [by apply decodes_ret|].
  cbn [for_nat]. eapply decodes_bind; [by apply Hb|]. auto.
Qed.

Lemma decodes_for_range {X} count (body : Z → X → Reader X) (x : X) (P : X → Prop) :
  P x → (∀ i x, P x → decodes (body i x) P) → decodes (for_range count x body) P.
Proof.
  intros Hx Hb r Hr. rewrite for_range_nat. by apply decodes_for_nat.
Qed.

Lemma moved_wf r n tail enc :
  reader_wf r → rest r = enc ++ tail → n = length enc → reader_wf (moved r n).
Proof.
  unfold reader_wf, rest, moved, zlen. intros (Hs & Hp & Hb) Hrest ->. simpl.
  apply (f_equal length) in Hrest. rewrite length_drop, length_app in Hrest. lia.
Qed.

Lemma moved_rest r n tail enc :
  reader_wf r → rest r = enc ++ tail → n = length enc → rest (moved r n) = tail.
Proof.
  unfold reader_wf, rest, moved. intros (Hs & Hp & Hb) Hrest ->. simpl.
  rewrite Z2Nat.inj_add, Nat2Z.id, <- drop_drop, Hrest by lia.
  rewrite drop_app_length. done.
Qed.

Lemma moved_moved r n m : moved (moved r n) m = moved r (n + m).
Proof. unfold moved. simpl. f_equal. lia. Qed.

Lemma moved_0 r : moved r 0 = r.
Proof. destruct r. unfold moved. simpl. f_equal. lia. Qed.

Lemma reads_ret {A} (v : A) : reads (mret v) [] v.
Proof. intros r tail _ _. simpl. by rewrite moved_0. Qed.

Lemma reads_bind {A B} (m : Reader A) (k : A → Reader B) e1 e2 a b :
  reads m e1 a → reads (k a) e2 b → reads (m ≫= k) (e1 ++ e2) b.
Proof.
  intros Hm Hk r tail Hr Hrest. rewrite <- app_assoc in Hrest.
  erewrite st_bind_ok by (eapply Hm; eauto).
  erewrite Hk; [| eapply moved_wf; eauto | eapply moved_rest; eauto].
  by rewrite moved_moved, length_app.
Qed.

(** A [bind] whose continuation reads nothing more. *)
Lemma reads_bind_ret {A B} (m : Reader A) (f : A → B) enc a :
  reads m enc a → reads (x ← m; mret (f x)) enc (f a).
Proof.
  intros Hm. rewrite <- (app_nil_r enc). eapply reads_bind; [done|apply reads_ret].
Qed.

Lemma writes_bind (w : Writer unit) (k : unit → Writer unit) e1 e2 :
  writes w e1 → writes (k tt) e2 → writes (w ≫= k) (e1 ++ e2).
Proof. intros Hw Hk data. unfold mbind, ST_bind. by rewrite Hw, Hk, app_assoc. Qed.

Lemma writes_ret : writes (mret tt) [].
Proof. intros data. by rewrite app_nil_r. Qed.

Lemma writes_for_each {A} (l : list A) (body : A → Writer unit) (enc : A → bytes) :
  (∀ x, x ∈ l → writes (body x) (enc x)) → writes (for_each l body) (concat (map enc l)).
Proof.
  induction l as [|x l IH]; intros Hb; [apply writes_ret|]. simpl.
  apply writes_bind; [apply Hb; set_solver|]. apply IH. set_solver.
Qed.

Lemma writes_take_bytes w enc : writes w enc → take_bytes w = Ok enc.
Proof. intros Hw. unfold take_bytes. by rewrite Hw. Qed.

(** *** Primitive steps *)

Lemma remaining_rest r : reader_wf r → remaining r = zlen (rest r).
Proof.
  unfold reader_wf, remaining, rest, zlen. intros (Hs & Hp & Hb).
  rewrite wrap_u_id by (unfold in_u; lia). rewrite length_drop. unfold zlen in Hs. lia.
Qed.

Lemma require_ok r n : reader_wf r → n <= zlen (rest r) → require n r = Ok (tt, r).
Proof. intros Hr Hn. unfold require. rewrite remaining_rest by done. bcase; [lia|done]. Qed.

Lemma data_at_ok r (i : nat) b :
  reader_wf r → rest r !! i = Some b → data_at (Z.of_nat i) r = Ok (Z_of_byte b, r).
Proof.
  unfold reader_wf, rest, data_at. intros (_ & Hp & _) Hi.
  rewrite lookup_drop in Hi.
  replace (Z.to_nat (pos_ r + Z.of_nat i)) with (Z.to_nat (pos_ r) + i)%nat by lia.
  by rewrite Hi.
Qed.

Lemma advance_ok r (n : nat) :
  reader_wf r → (n <= length (rest r))%nat → advance (Z.of_nat n) r = Ok (tt, moved r n).
Proof.
  unfold reader_wf, rest, advance, moved. intros (Hs & Hp & Hb) Hn.
  rewrite length_drop in Hn. unfold zlen in Hs. rewrite wrap_u_id; [done|unfold in_u; lia].
Qed.

Lemma decodes_require n : decodes (require n) (λ _, True).
Proof. intros r Hr. unfold require. destruct (_ >? _); [done|]. split_and!; auto; lia. Qed.

(** [data_at] and [advance] are only used after [require]: the guarded
    fixed-size read. *)
Lemma require_inv r n r' :
  reader_wf r → require n r = Ok (tt, r') → r' = r ∧ n <= zlen (rest r).
Proof.
  intros Hr. unfold require. rewrite remaining_rest by done. bcase; [done|].
  intros. simplify_eq. auto.
Qed.

Lemma decodes_require_bind {A} n (m : Reader A) P :
  (∀ r, reader_wf r → n <= zlen (rest r) →
    match m r with
    | Ok (v, r') => P v ∧ reader_wf r' ∧ data_ r' = data_ r ∧ pos_ r <= pos_ r'
    | Err e => defined e
    end) →
  decodes (require n;; m) P.
Proof.
  intros Hm r Hr. unfold mbind, ST_bind.
  destruct (require n r) as [[[] r']|e] eqn:E.
  - destruct (require_inv _ _ _ Hr E) as [-> Hn]. by apply Hm.
  - pose proof (decodes_require n r Hr) as H. by rewrite E in H.
Qed.

(** The bytes at the read position, when [n] of them are there. *)
Lemma rest_split r (n : nat) :
  Z.of_nat n <= zlen (rest r) → ∃ enc tail, rest r = enc ++ tail ∧ length enc = n.
Proof.
  intros Hn. exists (take n (rest r)), (drop n (rest r)).
  rewrite take_drop, length_take. unfold zlen in Hn. split; [done|lia].
Qed.

(** A fixed-size read that decodes every byte string of its size is safe. *)
Lemma decodes_of_reads {A} (n : nat) (m : Reader A) (f : bytes → A) (P : A → Prop) :
  (∀ enc, length enc = n → reads (require (Z.of_nat n);; m) enc (f enc)) →
  (∀ enc, length enc = n → P (f enc)) →
  decodes (require (Z.of_nat n);; m) P.
Proof.
  intros Hm HP r Hr. destruct (require (Z.of_nat n) r) as [[[] r']|e] eqn:E.
  - pose proof (require_inv _ _ _ Hr E) as [-> Hn].
    destruct (rest_split r n Hn) as (enc & tail & Hrest & Hlen).
    rewrite (Hm enc Hlen r tail Hr Hrest). split_and!; auto.
    + eapply moved_wf; eauto.
    + simpl. lia.
  - pose proof (decodes_require (Z.of_nat n) r Hr) as H. rewrite E in H.
    by rewrite (st_bind_err _ _ _ _ E).
Qed.

Lemma advance_end r enc tail :
  reader_wf r → rest r = enc ++ tail →
  advance (zlen enc) r = Ok (tt, moved r (length enc)).
Proof.
  intros Hr Hrest. apply advance_ok; [done|]. rewrite Hrest, length_app. lia.
Qed.

Lemma require_enc r enc tail :
  reader_wf r → rest r = enc ++ tail → require (zlen enc) r = Ok (tt, r).
Proof. intros Hr Hrest. apply require_ok; [done|]. rewrite Hrest, zlen_app. pose proof (zlen_nonneg tail). lia. Qed.

(** One [data_at] of a read whose bytes are known. *)
Ltac rd_byte r i b Hrest :=
  rewrite (st_bind_ok (data_at i) _ r (Z_of_byte b) r)
    by (apply (data_at_ok r (Z.to_nat i)); [done | by rewrite Hrest]).

Lemma reads_int8 b : reads read_int8 [b] (i8 b).
Proof.
  intros r tail Hr Hrest. unfold read_int8.
  rewrite (st_bind_ok _ _ _ _ _ (require_enc r _ tail Hr Hrest)).
  rd_byte r 0 b Hrest.
  by rewrite (st_bind_ok _ _ _ _ _ (advance_end r _ tail Hr Hrest)).
Qed.

Lemma lor_be2 (b0 b1 : byte) : u16 (Z.lor (Z.shiftl b0 8) b1) = be_value [b0; b1].
Proof.
  pose proof (Z_of_byte_range b0). pose proof (Z_of_byte_range b1).
  rewrite lor_shiftl_add by lia. rewrite wrap_u_id by (unfold in_u; lia).
  unfold be_value. simpl. lia.
Qed.

Lemma lor_be4 (b0 b1 b2 b3 : byte) :
  Z.lor (Z.lor (Z.lor (u32 (Z.shiftl b0 24)) (u32 (Z.shiftl b1 16)))
               (u32 (Z.shiftl b2 8))) b3 = be_value [b0; b1; b2; b3].
Proof.
  pose proof (Z_of_byte_range b0). pose proof (Z_of_byte_range b1).
  pose proof (Z_of_byte_range b2). pose proof (Z_of_byte_range b3).
  rewrite !wrap_u_id by (unfold in_u; rewrite Z.shiftl_mul_pow2 by lia; lia).
  rewrite (lor_shiftl_add b0) by (rewrite ?Z.shiftl_mul_pow2 by lia; lia).
  rewrite (Z.shiftl_mul_pow2 b1) by lia.
  replace (Z_of_byte b0 * 2 ^ 24 + Z_of_byte b1 * 2 ^ 16)
    with (Z.shiftl (Z_of_byte b0 * 2 ^ 8 + Z_of_byte b1) 16) by (rewrite Z.shiftl_mul_pow2; lia).
  rewrite lor_shiftl_add by (rewrite ?Z.shiftl_mul_pow2 by lia; lia).
  rewrite (Z.shiftl_mul_pow2 b2) by lia.
  replace ((Z_of_byte b0 * 2 ^ 8 + Z_of_byte b1) * 2 ^ 16 + Z_of_byte b2 * 2 ^ 8)
    with (Z.shiftl ((Z_of_byte b0 * 2 ^ 8 + Z_of_byte b1) * 2 ^ 8 + Z_of_byte b2) 8)
    by (rewrite Z.shiftl_mul_pow2; lia).
  rewrite lor_shiftl_add by lia. unfold be_value. simpl. lia.
Qed.

Lemma reads_int16 bs : length bs = 2%nat → reads read_int16 bs (i16 (be_value bs)).
Proof.
  destruct bs as [|b0 [|b1 [|]]]; try done. intros _ r tail Hr Hrest. unfold read_int16.
  rewrite (st_bind_ok _ _ _ _ _ (require_enc r _ tail Hr Hrest)).
  rd_byte r 0 b0 Hrest. rd_byte r 1 b1 Hrest. rewrite lor_be2.
  by rewrite (st_bind_ok _ _ _ _ _ (advance_end r _ tail Hr Hrest)).
Qed.

Lemma reads_int32 bs : length bs = 4%nat → reads read_int32 bs (i32 (be_value bs)).
Proof.
  destruct bs as [|b0 [|b1 [|b2 [|b3 [|]]]]]; try done.
  intros _ r tail Hr Hrest. unfold read_int32.
  rewrite (st_bind_ok _ _ _ _ _ (require_enc r _ tail Hr Hrest)).
  rd_byte r 0 b0 Hrest. rd_byte r 1 b1 Hrest. rd_byte r 2 b2 Hrest. rd_byte r 3 b3 Hrest.
  rewrite lor_be4.
  by rewrite (st_bind_ok _ _ _ _ _ (advance_end r _ tail Hr Hrest)).
Qed.

(** The accumulation loop of [read_int64]. *)
Lemma int64_loop r bs (i : nat) v :
  reader_wf r → (∀ k b, bs !! k = Some b → rest r !! (i + k)%nat = Some b) →
  for_nat (length bs) (Z.of_nat i)
    (λ i value, b ← data_at i; mret (Z.lor (u64 (Z.shiftl value 8)) b)) v r
  = Ok (fold_left (λ acc b, Z.lor (u64 (Z.shiftl acc 8)) (Z_of_byte b)) bs v, r).
Proof.
  intros Hr. revert i v. induction bs as [|b bs IH]; intros i v Hbs; [done|].
  cbn [length for_nat fold_left].
  rewrite (st_bind_ok _ _ r (Z.lor (u64 (Z.shiftl v 8)) (Z_of_byte b)) r).
  - replace (Z.of_nat i + 1) with (Z.of_nat (S i)) by lia. apply IH.
    intros k b' Hk. rewrite Nat.add_succ_comm. by apply Hbs.
  - rewrite (st_bind_ok _ _ r (Z_of_byte b) r); [done|].
    apply data_at_ok; [done|]. rewrite <- (Nat.add_0_r i). by apply Hbs.
Qed.

Lemma int64_fold bs acc (k : nat) :
  0 <= acc < 2 ^ (8 * Z.of_nat k) → (k + length bs <= 8)%nat →
  fold_left (λ acc b, Z.lor (u64 (Z.shiftl acc 8)) (Z_of_byte b)) bs acc
  = fold_left (λ acc b, acc * 256 + Z_of_byte b) bs acc.
Proof.
  revert acc k. induction bs as [|b bs IH]; intros acc k Hacc Hk; [done|].
  cbn [fold_left length] in *. pose proof (Z_of_byte_range b).
  assert (2 ^ (8 * Z.of_nat (S k)) = 2 ^ (8 * Z.of_nat k) * 256) as Hp.
  { rewrite Nat2Z.inj_succ, Z.mul_succ_r, Z.pow_add_r by lia. done. }
  assert (2 ^ (8 * Z.of_nat (S k)) <= 2 ^ 64) by (apply Z.pow_le_mono_r; lia).
  rewrite wrap_u_id by (unfold in_u; rewrite Z.shiftl_mul_pow2; lia).
  rewrite lor_shiftl_add by lia. apply (IH _ (S k)); [|lia]. rewrite Hp. lia.
Qed.

Lemma reads_int64 bs : length bs = 8%nat → reads read_int64 bs (i64 (be_value bs)).
Proof.
  intros Hlen r tail Hr Hrest. unfold read_int64.
  assert (zlen bs = 8) as H8 by (unfold zlen; lia).
  pose proof (require_enc r _ tail Hr Hrest) as Hreq.
  pose proof (advance_end r _ tail Hr Hrest) as Hadv. rewrite H8 in Hreq, Hadv.
  rewrite (st_bind_ok _ _ _ _ _ Hreq), (st_bind_ok _ _ r (be_value bs) r).
  - by rewrite (st_bind_ok _ _ _ _ _ Hadv).
  - rewrite for_range_nat. change (Z.to_nat 8) with 8%nat. rewrite <- Hlen.
    rewrite (int64_loop r bs 0); [|done|].
    + unfold be_value. by rewrite (int64_fold bs 0 0) by (simpl; lia).
    + intros k b Hk. rewrite Hrest. by apply lookup_app_l_Some.
Qed.

(** *** Fixed-size integers: every value of the type survives the trip *)

Lemma push_back_writes z : writes (push_back z) [byte_of_Z z].
Proof. done. Qed.

Lemma push_land_writes z : writes (push_back (Z.land z 255)) [byte_of_Z z].
Proof. intros data. unfold push_back. by rewrite byte_of_Z_land. Qed.

Lemma byte_of_Z_shiftr_wrap w z k :
  0 <= k → k + 8 <= w → byte_of_Z (Z.shiftr (wrap_u w z) k) = byte_of_Z (Z.shiftr z k).
Proof.
  intros Hk Hw. apply Z_of_byte_inj. rewrite !Z_of_byte_of_Z. unfold wrap_u.
  change 256 with (2 ^ 8). rewrite <- !Z.land_ones by lia.
  apply Z.bits_inj'. intros n Hn. rewrite !Z.land_spec, !Z.shiftr_spec by lia.
  rewrite Z.land_spec. destruct (Z.ltb_spec n 8).
  - rewrite (Z.ones_spec_low w) by lia. by rewrite andb_true_r.
  - rewrite (Z.ones_spec_high 8 n) by lia. by rewrite !andb_false_r.
Qed.

Lemma writes_int8 z : writes (write_int8 z) [byte_of_Z z].
Proof. done. Qed.

(** The shifted-out bytes of a [w]-bit value, most significant first. *)
Lemma writes_shifts w z shifts :
  Forall (λ k, 0 <= k /\ k + 8 <= w) shifts →
  writes (for_each shifts (λ k, push_back (Z.land (Z.shiftr (wrap_u w z) k) 255)))
    (map (λ k, byte_of_Z (Z.shiftr z k)) shifts).
Proof.
  induction 1 as [|k shifts [Hk Hw] _ IH]; [apply writes_ret|]. cbn [for_each map].
  apply (writes_bind _ _ [_]); [|done].
  rewrite <- (byte_of_Z_shiftr_wrap w) by done. apply push_land_writes.
Qed.

Lemma writes_int16 z : writes (write_int16 z) (be_bytes 2 z).
Proof.
  intros data. rewrite <- (writes_shifts 16 z [8; 0]) by (repeat constructor; lia).
  unfold write_int16. cbn [for_each]. by rewrite Z.shiftr_0_r.
Qed.

Lemma writes_int32 z : writes (write_int32 z) (be_bytes 4 z).
Proof.
  intros data. rewrite <- (writes_shifts 32 z [24; 16; 8; 0]) by (repeat constructor; lia).
  unfold write_int32. cbn [for_each]. by rewrite Z.shiftr_0_r.
Qed.

Lemma writes_int64 z : writes (write_int64 z) (be_bytes 8 z).
Proof. apply (writes_shifts 64 z). repeat constructor; lia. Qed.

Lemma reads_int16_enc z : in_s 16 z → reads read_int16 (be_bytes 2 z) z.
Proof.
  intros Hz. rewrite <- (be_signed_roundtrip 2 z) at 2 by (done || lia).
  apply reads_int16, length_be_bytes.
Qed.

Lemma reads_int32_enc z : in_s 32 z → reads read_int32 (be_bytes 4 z) z.
Proof.
  intros Hz. rewrite <- (be_signed_roundtrip 4 z) at 2 by (done || lia).
  apply reads_int32, length_be_bytes.
Qed.

Lemma reads_int64_enc z : in_s 64 z → reads read_int64 (be_bytes 8 z) z.
Proof.
  intros Hz. rewrite <- (be_signed_roundtrip 8 z) at 2 by (done || lia).
  apply reads_int64, length_be_bytes.
Qed.

Lemma reads_int8_enc z : in_s 8 z → reads read_int8 [byte_of_Z z] z.
Proof.
  intros Hz. replace z with (i8 (byte_of_Z z)) at 2; [apply reads_int8|].
  rewrite Z_of_byte_of_Z. change (z mod 256) with (wrap_u 8 z).
  rewrite wrap_s_of_u. by apply wrap_s_id.
Qed.

Lemma reads_bool_enc (b : bool) : reads read_bool [byte_of_Z (if b then 1 else 0)] b.
Proof.
  destruct b.
  - apply (reads_bind_ret read_int8 (λ v, negb (v =? 0)) _ 1), reads_int8_enc. done.
  - apply (reads_bind_ret read_int8 (λ v, negb (v =? 0)) _ 0), reads_int8_enc. done.
Qed.

(** *** Unsigned varints *)

Lemma land_high_bits v : in_u 32 v → Z.land v 0xffffff80 = Z.shiftl (Z.shiftr v 7) 7.
Proof.
  unfold in_u. intros Hv. rewrite <- Z.ldiff_ones_r by lia.
  change 0xffffff80 with (Z.ldiff (Z.ones 32) (Z.ones 7)).
  rewrite !Z.ldiff_land, Z.land_assoc, Z.land_ones by lia. by rewrite Z.mod_small by lia.
Qed.

Lemma land_high_zero v : in_u 32 v → (Z.land v 0xffffff80 =? 0) = (v <? 128).
Proof.
  intros Hv. rewrite land_high_bits by done. unfold in_u in Hv.
  rewrite Z.shiftl_mul_pow2, Z.shiftr_div_pow2 by lia. change (2 ^ 7) with 128.
  bcase; try done.
  - rewrite Z.div_small in * by lia. lia.
  - pose proof (Z.div_le_lower_bound v 128 1). lia.
Qed.

Lemma lor_continuation v : Z.lor (Z.land v 0x7f) 0x80 = v mod 128 + 128.
Proof.
  change 0x7f with (Z.ones 7). rewrite Z.land_ones, Z.lor_comm by lia.
  pose proof (Z.mod_pos_bound v 128 ltac:(lia)).
  pose proof (lor_shiftl_add 1 (v mod 2 ^ 7) 7) as E. change (Z.shiftl 1 7) with 128 in E.
  change (2 ^ 7) with 128 in *. rewrite E by lia. lia.
Qed.

Lemma byte_continues (b : byte) : (Z.land b 0x80 =? 0) = (Z_of_byte b <? 128).
Proof. by destruct b. Qed.

Lemma byte_payload (b : byte) : Z.land b 0x7f = b mod 128.
Proof. change 0x7f with (Z.ones 7). by rewrite Z.land_ones. Qed.

Lemma write_varint_loop_enc fuel v :
  in_u 32 v → writes (write_varint_loop fuel v) (varint_enc fuel v).
Proof.
  revert v. induction fuel as [|fuel IH]; intros v Hv; [apply push_back_writes|].
  cbn [write_varint_loop varint_enc]. rewrite land_high_zero by done.
  destruct (Z.ltb_spec v 128); simpl negb; cbv iota; [apply push_back_writes|].
  rewrite lor_continuation. apply (writes_bind _ _ [_]); [apply push_back_writes|].
  rewrite Z.shiftr_div_pow2 by lia. apply IH. unfold in_u in *.
  split; [apply Z.div_pos; lia|]. apply Z.div_lt_upper_bound; lia.
Qed.

Lemma writes_uvarint v : in_u 32 v → writes (write_unsigned_varint v) (uvarint v).
Proof.
  intros Hv. unfold write_unsigned_varint. rewrite wrap_u_id by done.
  by apply write_varint_loop_enc.
Qed.

(** One byte of a varint. *)
Lemma varint_step fuel value shift b r tail :
  reader_wf r → rest r = b :: tail → shift < 32 →
  varint_loop (S fuel) value shift r =
  (let value' := Z.lor value (u32 (Z.shiftl (Z.land b 0x7f) shift)) in
   if Z_of_byte b <? 128 then Ok (value', moved r 1)
   else varint_loop fuel value' (shift + 7) (moved r 1)).
Proof.
  intros Hr Hrest Hs. cbn [varint_loop]. destruct (Z.ltb_spec shift 32); [|lia].
  rewrite (st_bind_ok _ _ _ _ _ (require_enc r [b] tail Hr Hrest)).
  rd_byte r 0 b Hrest.
  rewrite (st_bind_ok _ _ _ _ _ (advance_end r [b] tail Hr Hrest)).
  rewrite byte_continues. by destruct (_ <? 128).
Qed.

Lemma varint_loop_reads fuel value shift v :
  0 <= shift < 32 → 0 <= value < 2 ^ shift → 0 <= v → v * 2 ^ shift < 2 ^ 32 →
  v < 128 ^ Z.of_nat fuel → (0 < fuel)%nat →
  reads (varint_loop fuel value shift) (varint_enc fuel v) (value + v * 2 ^ shift).
Proof.
  revert value shift v.
  induction fuel as [|fuel IH]; intros value shift v Hs Hval Hv Hb Hfuel Hf; [lia|].
  intros r tail Hr Hrest. cbn [varint_enc] in *.
  pose proof (pow2_pos shift ltac:(lia)) as Hpos.
  pose proof (Z.mod_pos_bound v 128 ltac:(lia)) as Hm.
  assert (∀ d, 0 <= d < 128 → d <= v →
    Z.lor value (u32 (Z.shiftl d shift)) = value + d * 2 ^ shift) as Hlor.
  { intros d Hd Hdv. rewrite wrap_u_id by (unfold in_u; rewrite Z.shiftl_mul_pow2 by lia; nia).
    rewrite Z.lor_comm, lor_shiftl_add by lia. lia. }
  destruct (Z.ltb_spec v 128) as [Hsmall|Hbig]; cbn [app] in Hrest;
    erewrite varint_step by (eauto || lia); cbv zeta; rewrite byte_payload, Z_of_byte_of_Z.
  - rewrite (Z.mod_small v 256), (Z.mod_small v 128) by lia.
    destruct (Z.ltb_spec v 128); [|lia]. by rewrite Hlor by lia.
  - rewrite (Z.mod_small (v mod 128 + 128) 256) by lia.
    destruct (Z.ltb_spec (v mod 128 + 128) 128); [lia|].
    rewrite <- (Z.mul_1_l 128) at 2. rewrite Z.mod_add, Z.mod_mod, Hlor by lia.
    assert (shift < 25) as Hs'.
    { apply (Z.pow_lt_mono_r_iff 2); nia. }
    assert (2 ^ (shift + 7) = 2 ^ shift * 128) as Hp7 by (rewrite Z.pow_add_r by lia; done).
    pose proof (Z.div_mod v 128 ltac:(lia)) as Hdm.
    assert (0 <= v / 128) by (apply Z.div_pos; lia).
    destruct fuel as [|fuel]; [change (128 ^ Z.of_nat 1) with 128 in Hfuel; lia|].
    rewrite (IH _ _ (v / 128)) with (tail := tail).
    + rewrite moved_moved, Hp7.
      replace (value + v mod 128 * 2 ^ shift + v / 128 * (2 ^ shift * 128))
        with (value + v * 2 ^ shift) by nia. done.
    + lia.
    + rewrite Hp7. nia.
    + lia.
    + rewrite Hp7. nia.
    + rewrite Nat2Z.inj_succ, Z.pow_succ_r in Hfuel by lia.
      apply Z.div_lt_upper_bound; lia.
    + lia.
    + by apply (moved_wf r 1 (varint_enc (S fuel) (v / 128) ++ tail) [byte_of_Z (v mod 128 + 128)]).
    + by apply (moved_rest r 1 _ [byte_of_Z (v mod 128 + 128)]).
Qed.

Lemma reads_uvarint v : in_u 32 v → reads read_unsigned_varint (uvarint v) v.
Proof.
  unfold in_u. intros Hv. replace v with (0 + v * 2 ^ 0) at 2 by lia.
  apply varint_loop_reads; lia.
Qed.

(** *** Strings, byte strings, arrays *)

Lemma reads_raw bs : reads (read_raw (zlen bs)) bs bs.
Proof.
  intros r tail Hr Hrest. unfold read_raw.
  rewrite (st_bind_ok _ _ _ _ _ (require_enc r _ tail Hr Hrest)).
  rewrite (st_bind_ok _ _ r bs r).
  - by rewrite (st_bind_ok _ _ _ _ _ (advance_end r _ tail Hr Hrest)).
  - unfold gets. fold (rest r). rewrite Hrest. unfold zlen. rewrite Nat2Z.id.
    by rewrite take_app_length.
Qed.

Lemma reads_skip bs : reads (skip (zlen bs)) bs tt.
Proof.
  intros r tail Hr Hrest. unfold skip.
  rewrite (st_bind_ok _ _ _ _ _ (require_enc r _ tail Hr Hrest)).
  by apply (advance_end r _ tail).
Qed.

Lemma writes_raw bs : writes (write_raw bs) bs.
Proof. done. Qed.

Definition enc_string (s : cstring) : bytes := be_bytes 2 (zlen s) ++ s.
Definition enc_nullable_string (s : option cstring) : bytes :=
  match s with None => be_bytes 2 (-1) | Some s => enc_string s end.
Definition enc_compact_string (s : cstring) : bytes := uvarint (zlen s + 1) ++ s.
Definition enc_compact_nullable (s : option cstring) : bytes :=
  match s with None => uvarint 0 | Some s => enc_compact_string s end.
Definition enc_bytes (s : bytes) : bytes := be_bytes 4 (zlen s) ++ s.
Definition enc_compact_count (n : Z) : bytes := uvarint (n + 1).
Definition enc_no_tags : bytes := uvarint 0.

(** A string short enough for a compact length, resp. a 16-bit one. *)
Definition fits32 {A} (l : list A) : Prop := zlen l < 2 ^ 31 - 1.
Definition fits16 {A} (l : list A) : Prop := zlen l <= 32767.

Lemma writes_string s : fits16 s → writes (write_string s) (enc_string s).
Proof.
  unfold fits16. intros Hs. unfold write_string. bcase; [lia|].
  pose proof (zlen_nonneg s).
  rewrite wrap_s_id by (unfold in_s; lia). apply writes_bind; [apply writes_int16|done].
Qed.

Lemma reads_string s : fits16 s → reads read_string (enc_string s) s.
Proof.
  unfold fits16. intros Hs. pose proof (zlen_nonneg s).
  eapply reads_bind; [apply reads_int16_enc; unfold in_s; lia|].
  bcase; [lia|]. apply reads_raw.
Qed.

Lemma writes_nullable_string s :
  (∀ x, s = Some x → fits16 x) → writes (write_nullable_string s) (enc_nullable_string s).
Proof. destruct s; intros Hs; [by apply writes_string, Hs|apply writes_int16]. Qed.

Lemma reads_nullable_string s :
  (∀ x, s = Some x → fits16 x) → reads read_nullable_string (enc_nullable_string s) s.
Proof.
  intros Hs. destruct s as [s|]; unfold read_nullable_string.
  - specialize (Hs s eq_refl). unfold fits16 in Hs. pose proof (zlen_nonneg s).
    eapply reads_bind; [apply reads_int16_enc; unfold in_s; lia|].
    bcase; [lia|]. apply (reads_bind_ret _ Some), reads_raw.
  - rewrite <- (app_nil_r (enc_nullable_string None)).
    eapply reads_bind; [by apply reads_int16_enc|]. apply reads_ret.
Qed.

Lemma writes_compact_string s : fits32 s → writes (write_compact_string s) (enc_compact_string s).
Proof.
  unfold fits32. intros Hs. pose proof (zlen_nonneg s). unfold write_compact_string.
  rewrite wrap_u_id by (unfold in_u; lia).
  apply writes_bind; [apply writes_uvarint; unfold in_u; lia|done].
Qed.

Lemma reads_compact_string s : fits32 s → reads read_compact_string (enc_compact_string s) s.
Proof.
  unfold fits32. intros Hs. pose proof (zlen_nonneg s).
  eapply reads_bind; [apply reads_uvarint; unfold in_u; lia|].
  bcase; [lia|]. rewrite Z.add_simpl_r. apply reads_raw.
Qed.

Lemma writes_compact_nullable_string s :
  (∀ x, s = Some x → fits32 x) →
  writes (write_compact_nullable_string s) (enc_compact_nullable s).
Proof. destruct s; intros Hs; [by apply writes_compact_string, Hs|by apply writes_uvarint]. Qed.

Lemma writes_compact_nullable_bytes s :
  (∀ x, s = Some x → fits32 x) →
  writes (write_compact_nullable_bytes s) (enc_compact_nullable s).
Proof. destruct s; intros Hs; [by apply writes_compact_string, Hs|by apply writes_uvarint]. Qed.

Lemma reads_compact_nullable_string s :
  (∀ x, s = Some x → fits32 x) → reads read_compact_nullable_string (enc_compact_nullable s) s.
Proof.
  intros Hs. destruct s as [s|]; unfold read_compact_nullable_string.
  - specialize (Hs s eq_refl). unfold fits32 in Hs. pose proof (zlen_nonneg s).
    eapply reads_bind; [apply reads_uvarint; unfold in_u; lia|].
    bcase; [lia|]. rewrite Z.add_simpl_r. apply (reads_bind_ret _ Some), reads_raw.
  - rewrite <- (app_nil_r (enc_compact_nullable None)).
    eapply reads_bind; [by apply reads_uvarint|]. apply reads_ret.
Qed.

Lemma reads_compact_nullable_bytes s :
  (∀ x, s = Some x → fits32 x) → reads read_compact_nullable_bytes (enc_compact_nullable s) s.
Proof. apply reads_compact_nullable_string. Qed.

Lemma writes_bytes s : zlen s < 2 ^ 31 → writes (write_bytes s) (enc_bytes s).
Proof.
  intros Hs. pose proof (zlen_nonneg s). unfold write_bytes.
  rewrite wrap_s_id by (unfold in_s; lia). apply writes_bind; [apply writes_int32|done].
Qed.

Lemma reads_bytes s : zlen s < 2 ^ 31 → reads read_bytes (enc_bytes s) s.
Proof.
  intros Hs. pose proof (zlen_nonneg s).
  eapply reads_bind; [apply reads_int32_enc; unfold in_s; lia|].
  bcase; [lia|]. apply reads_raw.
Qed.

Lemma writes_compact_count {A} (l : list A) :
  fits32 l → writes (write_array_count (i32 (zlen l)) true) (enc_compact_count (zlen l)).
Proof.
  unfold fits32. intros Hl. pose proof (zlen_nonneg l).
  rewrite wrap_s_id by (unfold in_s; lia). unfold write_array_count. bcase; try lia.
  rewrite wrap_u_id by (unfold in_u; lia). apply writes_uvarint. unfold in_u. lia.
Qed.

Lemma reads_compact_count nullable n :
  0 <= n < 2 ^ 31 - 1 → reads (read_array_count true nullable) (enc_compact_count n) n.
Proof.
  intros Hn. unfold read_array_count. simpl negb. cbv iota.
  rewrite <- (app_nil_r (enc_compact_count n)).
  eapply reads_bind; [apply reads_uvarint; unfold in_u; lia|].
  bcase; try lia. rewrite Z.add_simpl_r, wrap_s_id by (unfold in_s; lia). apply reads_ret.
Qed.

Lemma reads_null_count : reads (read_array_count true true) (uvarint 0) (-1).
Proof.
  rewrite <- (app_nil_r (uvarint 0)).
  eapply reads_bind; [by apply reads_uvarint|]. apply reads_ret.
Qed.

Lemma reads_no_tags : reads skip_tagged_fields enc_no_tags tt.
Proof.
  rewrite <- (app_nil_r enc_no_tags). eapply reads_bind; [by apply reads_uvarint|].
  apply (reads_bind _ _ [] [] 0); apply reads_ret.
Qed.

Lemma writes_no_tags : writes write_empty_tagged_fields enc_no_tags.
Proof. by apply writes_uvarint. Qed.

(** A counted loop that decodes one element per round and pushes it back. *)
Lemma reads_for_nat {A} (body : Reader A) (enc : A → bytes) l acc i :
  (∀ x, x ∈ l → reads body (enc x) x) →
  reads (for_nat (length l) i (λ _ acc, x ← body; mret (acc ++ [x])) acc)
    (concat (map enc l)) (acc ++ l).
Proof.
  revert acc i. induction l as [|x l IH]; intros acc i Hb.
  - rewrite app_nil_r. apply reads_ret.
  - cbn [length for_nat map concat]. eapply reads_bind.
    + apply (reads_bind_ret body (λ x, acc ++ [x])), Hb. set_solver.
    + replace (acc ++ x :: l) with ((acc ++ [x]) ++ l) by (by rewrite <- app_assoc).
      apply IH. set_solver.
Qed.

Lemma reads_for_range {A} (body : Reader A) (enc : A → bytes) l acc :
  (∀ x, x ∈ l → reads body (enc x) x) →
  reads (for_range (zlen l) acc (λ _ acc, x ← body; mret (acc ++ [x])))
    (concat (map enc l)) (acc ++ l).
Proof.
  intros Hb r tail Hr Hrest. rewrite for_range_nat. unfold zlen. rewrite Nat2Z.id.
  by apply (reads_for_nat body enc l acc 0 Hb r tail).
Qed.

(** *** Safety of every read *)

Lemma decodes_int8 : decodes read_int8 (in_s 8).
Proof.
  apply (decodes_of_reads 1 _ (λ enc, i8 (default Byte.x00 (head enc)))).
  - intros [|b [|]] ?; try done. apply reads_int8.
  - intros. by apply wrap_s_range.
Qed.

Lemma decodes_int16 : decodes read_int16 (in_s 16).
Proof.
  apply (decodes_of_reads 2 _ (λ enc, i16 (be_value enc))); [apply reads_int16|].
  intros. by apply wrap_s_range.
Qed.

Lemma decodes_int32 : decodes read_int32 (in_s 32).
Proof.
  apply (decodes_of_reads 4 _ (λ enc, i32 (be_value enc))); [apply reads_int32|].
  intros. by apply wrap_s_range.
Qed.

Lemma decodes_int64 : decodes read_int64 (in_s 64).
Proof.
  apply (decodes_of_reads 8 _ (λ enc, i64 (be_value enc))); [apply reads_int64|].
  intros. by apply wrap_s_range.
Qed.

Lemma decodes_bool : decodes read_bool (λ _, True).
Proof. eapply decodes_bind; [apply decodes_int8|]. intros. by apply decodes_ret. Qed.

Lemma decodes_varint_loop fuel value shift :
  in_u 32 value → decodes (varint_loop fuel value shift) (in_u 32).
Proof.
  revert value shift. induction fuel as [|fuel IH]; intros value shift Hv; [by apply decodes_throw|].
  destruct (Z.ltb_spec shift 32) as [Hs|Hs].
  2: { cbn [varint_loop]. destruct (Z.ltb_spec shift 32); [lia|]. by apply decodes_throw. }
  intros r Hr. destruct (rest r) as [|b tail] eqn:Hrest.
  - cbn [varint_loop]. destruct (Z.ltb_spec shift 32); [|lia].
    unfold mbind, ST_bind, require. rewrite remaining_rest, Hrest by done. done.
  - erewrite varint_step by eauto. cbv zeta.
    assert (in_u 32 (Z.lor value (u32 (Z.shiftl (Z.land b 0x7f) shift)))) as Hv'.
    { apply lor_range; [lia|done|]. by apply wrap_u_range. }
    pose proof (moved_wf r 1 tail [b] Hr Hrest eq_refl) as Hr'.
    destruct (_ <? 128).
    + split_and!; auto; try lia; simpl; lia.
    + specialize (IH _ (shift + 7) Hv' _ Hr'). destruct (varint_loop _ _ _ _) as [[v r']|e]; [|done].
      destruct IH as (? & ? & ? & ?). split_and!; auto. simpl in *. lia.
Qed.

Lemma decodes_uvarint : decodes read_unsigned_varint (in_u 32).
Proof. by apply decodes_varint_loop. Qed.

Lemma decodes_raw n : 0 <= n → decodes (read_raw n) (λ bs, zlen bs = n).
Proof.
  intros Hn. rewrite <- (Z2Nat.id n) by done.
  apply (decodes_of_reads (Z.to_nat n) _ id); intros enc Henc.
  - rewrite <- Henc. apply reads_raw.
  - unfold zlen, id. lia.
Qed.

Lemma decodes_skip n : 0 <= n → decodes (skip n) (λ _, True).
Proof.
  intros Hn. rewrite <- (Z2Nat.id n) by done.
  apply (decodes_of_reads (Z.to_nat n) _ (λ _, tt)); intros enc Henc; [|done].
  rewrite <- Henc. apply reads_skip.
Qed.

#[export] Hint Resolve decodes_int8 decodes_int16 decodes_int32 decodes_int64 decodes_bool
  decodes_uvarint decodes_ret decodes_throw : mkmq.

(** Walks down a decoder: one [bind] at a time, splitting on its tests. *)
Ltac decode_step :=
  lazymatch goal with
  | |- decodes (mret _) _ => apply decodes_ret
  | |- decodes (throw _) _ => apply decodes_throw; exact I
  | |- decodes (read_raw _) _ => eapply decodes_weaken; [apply decodes_raw|]
  | |- decodes (skip _) _ => eapply decodes_weaken; [apply decodes_skip|]
  | |- decodes (mbind _ (read_raw _)) _ => eapply decodes_bind; [apply decodes_raw|]
  | |- decodes (mbind _ (skip _)) _ => eapply decodes_bind; [apply decodes_skip|]
  | |- decodes (mbind _ _) _ => eapply decodes_bind; [solve [eauto with mkmq]|]
  | |- decodes (if _ then _ else _) _ => case_match
  | |- ∀ _, _ => intros ?
  end; cbv beta.
Ltac decode_all := repeat decode_step.

Lemma decodes_string : decodes read_string fits16.
Proof.
  unfold read_string. decode_all; unfold in_s, fits16 in *; lia.
Qed.

Lemma decodes_nullable_string :
  decodes read_nullable_string (λ s, ∀ x, s = Some x → fits16 x).
Proof.
  unfold read_nullable_string. decode_all; unfold in_s, fits16 in *; intros; simplify_eq; lia.
Qed.

Lemma decodes_compact_string : decodes read_compact_string (λ s, zlen s < 2 ^ 32).
Proof. unfold read_compact_string. decode_all; unfold in_u in *; lia. Qed.

Lemma decodes_compact_nullable_string :
  decodes read_compact_nullable_string (λ s, ∀ x, s = Some x → zlen x < 2 ^ 32).
Proof.
  unfold read_compact_nullable_string. decode_all; unfold in_u in *; intros; simplify_eq; lia.
Qed.

Lemma decodes_compact_nullable_bytes :
  decodes read_compact_nullable_bytes (λ s, ∀ x, s = Some x → zlen x < 2 ^ 32).
Proof. apply decodes_compact_nullable_string. Qed.

Lemma decodes_bytes : decodes read_bytes (λ s, zlen s < 2 ^ 31).
Proof. unfold read_bytes. decode_all; unfold in_s in *; lia. Qed.

Lemma decodes_nullable_bytes :
  decodes read_nullable_bytes (λ s, ∀ x, s = Some x → zlen x < 2 ^ 31).
Proof. unfold read_nullable_bytes. decode_all; unfold in_s in *; intros; simplify_eq; lia. Qed.

Lemma decodes_array_count flexible nullable :
  decodes (read_array_count flexible nullable)
    (λ n, in_s 32 n ∧ (nullable = false → 0 <= n)).
Proof.
  unfold read_array_count. decode_all; unfold in_s, in_u in *.
  - split; [lia|]. intros ->. simpl in *. rewrite andb_true_r in *. lia.
  - split; [lia|]. intros ->. done.
  - rewrite wrap_s_id by (unfold in_s; lia). lia.
Qed.

Lemma decodes_tagged_fields : decodes skip_tagged_fields (λ _, True).
Proof.
  unfold skip_tagged_fields. decode_step. intros fields Hf.
  eapply decodes_bind.
  - apply (decodes_for_range _ _ _ (in_u 32)); [done|]. intros i tag Ht.
    unfold tagged_field_step. decode_all; unfold in_u in *; auto; lia.
  - intros. by apply decodes_ret.
Qed.

#[export] Hint Resolve decodes_string decodes_nullable_string decodes_compact_string
  decodes_compact_nullable_string decodes_compact_nullable_bytes decodes_bytes
  decodes_nullable_bytes decodes_array_count decodes_tagged_fields : mkmq.

(** ** Theorems *)

(** A tagged-field section as clients send it: [(tag, payload)] pairs. *)
Definition enc_tagged_field (f : Z * bytes) : bytes :=
  uvarint f.1 ++ uvarint (zlen f.2) ++ f.2.
Definition enc_tagged_fields (fs : list (Z * bytes)) : bytes :=
  uvarint (zlen fs) ++ concat (map enc_tagged_field fs).
Definition tagged_field_ok (f : Z * bytes) : Prop := in_u 32 f.1 ∧ zlen f.2 < 2 ^ 32.
(** The tags go up strictly, from above [prev] when there is one. *)
Definition above (prev : option Z) (t : Z) : bool :=
  match prev with None => true | Some p => p <? t end.
Fixpoint increasing_from (prev : option Z) (fs : list (Z * bytes)) : bool :=
  match fs with
  | [] => true
  | f :: fs' => above prev f.1 && increasing_from (Some f.1) fs'
  end.

Definition tag_order_error : error :=
  ProtocolError (str "Kafka tagged fields are not strictly increasing").

Lemma tagged_field_step_spec (i prev : Z) f r tail :
  tagged_field_ok f → reader_wf r → rest r = enc_tagged_field f ++ tail →
  tagged_field_step i prev r =
  if (i >? 0) && (f.1 <=? prev) then Err tag_order_error
  else Ok (f.1, moved r (length (enc_tagged_field f))).
Proof.
  destruct f as [t p]. intros [Ht Hp] Hr Hrest. simpl in *. pose proof (zlen_nonneg p).
  unfold enc_tagged_field, tagged_field_step in *. simpl in *.
  destruct ((i >? 0) && (t <=? prev)) eqn:E.
  - rewrite <- app_assoc in Hrest. rewrite (st_bind_ok _ _ _ _ _ (reads_uvarint t Ht r _ Hr Hrest)).
    by rewrite E.
  - apply (reads_bind read_unsigned_varint _ (uvarint t) _ t t) with (tail := tail);
      auto using reads_uvarint. rewrite E.
    eapply reads_bind; [apply reads_uvarint; unfold in_u; lia|].
    rewrite <- (app_nil_r p) at 2. eapply reads_bind; [apply reads_skip|apply reads_ret].
Qed.

Lemma tags_loop fs (i prev : Z) r tail :
  0 <= i → Forall tagged_field_ok fs → reader_wf r →
  rest r = concat (map enc_tagged_field fs) ++ tail →
  let ok := increasing_from (if i =? 0 then None else Some prev) fs in
  match for_nat (length fs) i tagged_field_step prev r with
  | Ok (_, r') => ok = true ∧ r' = moved r (length (concat (map enc_tagged_field fs)))
  | Err e => ok = false ∧ e = tag_order_error
  end.
Proof.
  revert i prev r. induction fs as [|f fs IH]; intros i prev r Hi Hfs Hr Hrest.
  { simpl. by rewrite moved_0. }
  apply Forall_cons in Hfs as [Hf Hfs]. cbn [length for_nat increasing_from].
  cbn [map concat] in *. rewrite <- app_assoc in Hrest.
  assert ((i >? 0) && (f.1 <=? prev) = negb (above (if i =? 0 then None else Some prev) f.1)) as Hc.
  { unfold above. rewrite Z.gtb_ltb. bcase; simpl; try done; bcase; try done; lia. }
  pose proof (tagged_field_step_spec i prev f r _ Hf Hr Hrest) as Hstep. rewrite Hc in Hstep.
  destruct (above _ f.1); simpl negb in Hstep; cbv iota in Hstep.
  - rewrite (st_bind_ok _ _ _ _ _ Hstep), andb_true_l, length_app, <- moved_moved.
    specialize (IH (i + 1) f.1 (moved r (length (enc_tagged_field f)))).
    destruct (Z.eqb_spec (i + 1) 0); [lia|].
    apply IH; [lia|done|by eapply moved_wf|by eapply moved_rest].
  - by rewrite (st_bind_err _ _ _ _ Hstep).
Qed.

Lemma WireReader_of_wf data : zlen data < 2 ^ 64 → reader_wf (WireReader_of data).
Proof. intros. unfold reader_wf. simpl. pose proof (zlen_nonneg data). lia. Qed.

Lemma WireReader_of_rest data : rest (WireReader_of data) = data.
Proof. done. Qed.

(** Decoding a whole buffer that starts with an encoding. *)
Lemma reads_buffer {A} (m : Reader A) enc v tail :
  reads m enc v → zlen (enc ++ tail) < 2 ^ 64 →
  m (WireReader_of (enc ++ tail)) = Ok (v, moved (WireReader_of (enc ++ tail)) (length enc)).
Proof. intros Hm Hlen. apply (Hm _ tail); [by apply WireReader_of_wf|done]. Qed.

Lemma length_varint_enc fuel v : (length (varint_enc fuel v) <= S fuel)%nat.
Proof.
  revert v. induction fuel as [|fuel IH]; intros v; simpl; [lia|].
  destruct (v <? 128); simpl; [lia|]. specialize (IH (v / 128)). lia.
Qed.

Lemma length_varint_enc_bound fuel n v :
  (0 < n <= S fuel)%nat → 0 <= v < 128 ^ Z.of_nat n → (1 <= length (varint_enc fuel v) <= n)%nat.
Proof.
  revert n v. induction fuel as [|fuel IH]; intros n v Hn Hv; simpl; [lia|].
  destruct (Z.ltb_spec v 128); simpl; [lia|].
  destruct n as [|[|n]]; [lia|change (128 ^ Z.of_nat 1) with 128 in Hv; lia|].
  specialize (IH (S n) (v / 128)).
  rewrite (Nat2Z.inj_succ (S n)), Z.pow_succ_r in Hv by lia.
  assert (0 <= v / 128 < 128 ^ Z.of_nat (S n)).
  { split; [apply Z.div_pos; lia|apply Z.div_lt_upper_bound; lia]. }
  lia.
Qed.

(** Every [uint32_t] written by [write_unsigned_varint] takes one to five
    bytes and is read back by [read_unsigned_varint], which stops right after
    them, whatever follows in the frame. *)
Theorem varint_roundtrip (v : Z) (tail : bytes) :
  in_u 32 v → zlen tail < 2 ^ 63 →
  ∃ enc, take_bytes (write_unsigned_varint v) = Ok enc ∧ 1 <= zlen enc <= 5 ∧
    read_unsigned_varint (WireReader_of (enc ++ tail))
    = Ok (v, mkWireReader (enc ++ tail) (zlen enc + zlen tail) (zlen enc)).
Proof.
  intros Hv Ht. exists (uvarint v).
  assert (1 <= zlen (uvarint v) <= 5) as Hlen.
  { unfold zlen, in_u in *. pose proof (length_varint_enc_bound 5 5 v ltac:(lia) ltac:(lia)).
    unfold uvarint. lia. }
  split_and!; [by apply writes_take_bytes, writes_uvarint|lia|lia|].
  rewrite (reads_buffer _ _ v); [|by apply reads_uvarint|rewrite zlen_app; lia].
  unfold moved. simpl. by rewrite zlen_app.
Qed.

Lemma varint_roundtrip_witness :
  in_u 32 300 ∧ take_bytes (write_unsigned_varint 300) = Ok [Byte.xac; Byte.x02] ∧
  ∃ enc, take_bytes (write_unsigned_varint 300) = Ok enc ∧ 1 <= zlen enc <= 5 ∧
    read_unsigned_varint (WireReader_of (enc ++ [Byte.xff]))
    = Ok (300, mkWireReader (enc ++ [Byte.xff]) (zlen enc + zlen [Byte.xff]) (zlen enc)).
Proof.
  split; [done|split; [reflexivity|]].
  apply (varint_roundtrip 300 [Byte.xff]); [done|reflexivity].
Defined.

(** [skip_tagged_fields] accepts a tagged-field section exactly when its
    tags go up strictly, and then stops right after it; otherwise it throws
    the ordering error. *)
Theorem skip_tagged_fields_spec (fs : list (Z * bytes)) (tail : bytes) :
  Forall tagged_field_ok fs → zlen fs < 2 ^ 32 →
  zlen (enc_tagged_fields fs ++ tail) < 2 ^ 64 →
  skip_tagged_fields (WireReader_of (enc_tagged_fields fs ++ tail)) =
  if increasing_from None fs
  then Ok (tt, moved (WireReader_of (enc_tagged_fields fs ++ tail)) (length (enc_tagged_fields fs)))
  else Err (ProtocolError (str "Kafka tagged fields are not strictly increasing")).
Proof.
  intros Hfs Hn Hlen. set (r := WireReader_of _).
  assert (reader_wf r) as Hr by (by apply WireReader_of_wf).
  assert (rest r = uvarint (zlen fs) ++ concat (map enc_tagged_field fs) ++ tail) as Hrest.
  { unfold r. rewrite WireReader_of_rest. unfold enc_tagged_fields. by rewrite <- app_assoc. }
  pose proof (zlen_nonneg fs) as Hfs0. unfold skip_tagged_fields.
  rewrite (st_bind_ok _ _ _ _ _ (reads_uvarint (zlen fs) (conj Hfs0 Hn) r _ Hr Hrest)).
  pose proof (tags_loop fs 0 0 (moved r (length (uvarint (zlen fs)))) tail ltac:(lia) Hfs) as Hloop.
  simpl Z.eqb in Hloop. cbv iota zeta in Hloop.
  unfold mbind, ST_bind. rewrite for_range_nat. unfold zlen. rewrite Nat2Z.id.
  destruct (for_nat _ _ _ _ _) as [[? ?]|?];
    (destruct Hloop as [-> ->]; [by eapply moved_wf|by eapply moved_rest|]); [|done].
  unfold mret, ST_ret, enc_tagged_fields. by rewrite moved_moved, length_app.
Qed.

Lemma skip_tagged_fields_witness :
  Forall tagged_field_ok [(1, [Byte.x2a]); (0, [])] ∧
  skip_tagged_fields (WireReader_of (enc_tagged_fields [(1, [Byte.x2a]); (0, [])] ++ [])) =
  Err (ProtocolError (str "Kafka tagged fields are not strictly increasing")).
Proof.
  split; [repeat constructor; done|].
  apply (skip_tagged_fields_spec [(1, [Byte.x2a]); (0, [])] []); [|done|done].
  repeat constructor; done.
Defined.
