(* ===== verification/Protocol.v ===== *)
(** * API keys, versions, request and response headers

    Models src/protocol/api.cpp, src/protocol/header.cpp, their headers and
    the schema table of src/generated/kafka_schema.cpp. *)

From Stdlib Require Import ZArith Lia.
From stdpp Require Import base tactics list numbers option sets.
From S2P Require Import Prelude Wire.

Local Open Scope Z_scope.

Inductive ApiKey :=
| Produce
| Fetch
| ListOffsets
| Metadata
| OffsetCommit
| OffsetFetch
| FindCoordinator
| ApiVersions.

#[global] Instance ApiKey_eq_dec : EqDecision ApiKey.
Proof. solve_decision. Defined.

(** The enumerators' values: [static_cast<std::int16_t>(key)]. *)
Definition api_id (key : ApiKey) : Z :=
  match key with
  | Produce => 0
  | Fetch => 1
  | ListOffsets => 2
  | Metadata => 3
  | OffsetCommit => 8
  | OffsetFetch => 9
  | FindCoordinator => 10
  | ApiVersions => 18
  end.

Inductive ErrorCode :=
| NoError
| OffsetOutOfRange
| UnknownTopicOrPartition
| InvalidRequest
| UnsupportedVersion
| NotLeaderOrFollower
| RequestTimedOut
| NotEnoughReplicas
| RecordListTooLarge
| PolicyViolation.

(** [static_cast<std::int16_t>(ErrorCode::...)]. *)
Definition error_code_value (e : ErrorCode) : Z :=
  match e with
  | NoError => 0
  | OffsetOutOfRange => 1
  | UnknownTopicOrPartition => 3
  | InvalidRequest => 42
  | UnsupportedVersion => 35
  | NotLeaderOrFollower => 6
  | RequestTimedOut => 7
  | NotEnoughReplicas => 19
  | RecordListTooLarge => 18
  | PolicyViolation => 44
  end.

Record ApiInfo := mkApiInfo {
  ai_key : ApiKey;
  ai_name : cstring;
  ai_min_version : Z;
  ai_max_version : Z;
  ai_flexible_start : Z;
}.

Definition kApis : list ApiInfo := [
  mkApiInfo Produce (str "Produce") 9 9 9;
  mkApiInfo Fetch (str "Fetch") 12 12 12;
  mkApiInfo ListOffsets (str "ListOffsets") 6 6 6;
  mkApiInfo Metadata (str "Metadata") 9 9 9;
  mkApiInfo ApiVersions (str "ApiVersions") 0 3 3 ].

Definition find_info (key : ApiKey) : option ApiInfo :=
  List.find (λ info, bool_decide (ai_key info = key)) kApis.

Definition is_known_api (api_key : Z) : bool :=
  existsb (λ info, api_id (ai_key info) =? api_key) kApis.

Definition api_name (key : ApiKey) : cstring :=
  match find_info key with None => str "Unknown" | Some info => ai_name info end.

(** [static_cast<ApiKey>(id)], on the enumerators. *)
Definition ApiKey_of_id (id : Z) : option ApiKey :=
  List.find (λ key, api_id key =? id)
    [Produce; Fetch; ListOffsets; Metadata; OffsetCommit; OffsetFetch; FindCoordinator; ApiVersions].

Definition api_key_from_id (id : Z) : result ApiKey :=
  if negb (is_known_api id) then Err (InvalidArgument (str "unknown Kafka API key"))
  else match ApiKey_of_id id with
       | Some key => Ok key
       | None => Err (UndefinedBehavior (str "not an ApiKey enumerator"))
       end.

Record ApiVersionRange := mkApiVersionRange {
  avr_key : ApiKey;
  avr_min_version : Z;
  avr_max_version : Z;
}.

Definition supported_api_versions : list ApiVersionRange :=
  map (λ info, mkApiVersionRange (ai_key info) (ai_min_version info) (ai_max_version info)) kApis.

Definition is_supported (key : ApiKey) (version : Z) : bool :=
  match find_info key with
  | None => false
  | Some info => (version >=? ai_min_version info) && (version <=? ai_max_version info)
  end.

Definition is_flexible (key : ApiKey) (version : Z) : bool :=
  match find_info key with
  | None => false
  | Some info => version >=? ai_flexible_start info
  end.

Definition fixed_version (key : ApiKey) : result Z :=
  match find_info key with
  | None => Err (InvalidArgument (str "unknown Kafka API key"))
  | Some info => Ok (ai_max_version info)
  end.

Definition request_header_version (key : ApiKey) (version : Z) : Z :=
  if is_flexible key version then 2 else 1.

Definition response_header_version (key : ApiKey) (version : Z) : Z :=
  if bool_decide (key = ApiVersions) then 0
  else if is_flexible key version then 1 else 0.

(** ** The generated schema table *)

Record FixedKafkaApi := mkFixedKafkaApi {
  fka_api_key : Z;
  fka_name : cstring;
  fka_min_version : Z;
  fka_max_version : Z;
  fka_flexible : bool;
}.

Definition kafka_schema_source_commit : cstring := str "faa8b4870f".

Definition fixed_kafka_apis : list FixedKafkaApi := [
  mkFixedKafkaApi 18 (str "ApiVersions") 0 3 true;
  mkFixedKafkaApi 3 (str "Metadata") 9 9 true;
  mkFixedKafkaApi 0 (str "Produce") 3 9 true;
  mkFixedKafkaApi 1 (str "Fetch") 4 12 true;
  mkFixedKafkaApi 2 (str "ListOffsets") 6 6 true ].

(** ** Headers *)

Record RequestHeader := mkRequestHeader {
  api_key : ApiKey;
  api_version : Z;
  correlation_id : Z;
  client_id : cstring;
  header_version : Z;
}.

Definition lift_result {σ A} (m : result A) : ST σ A := λ s,
  match m with Ok a => Ok (a, s) | Err e => Err e end.

Definition parse_request_header : Reader RequestHeader :=
  api_id_value ← read_int16;
  version ← read_int16;
  key ← lift_result (api_key_from_id api_id_value);
  let header_version := request_header_version key version in
  correlation_id ← read_int32;
  client_id ← read_nullable_string;
  (if header_version >=? 2 then skip_tagged_fields else mret tt);;
  mret (mkRequestHeader key version correlation_id (default [] client_id) header_version).

Definition write_response_header (request : RequestHeader) : Writer unit :=
  write_int32 (correlation_id request);;
  if response_header_version (api_key request) (api_version request) >=? 1
  then write_empty_tagged_fields else mret tt.

Definition make_response_frame (request : RequestHeader) (body : bytes) : result bytes :=
  take_bytes (
    write_int32 0;;
    write_response_header request;;
    write_raw body;;
    size ← writer_size;
    patch_int32 0 (i32 (size - 4))).

(** ** Lemmas *)

Lemma patch_front v a b c d data :
  zlen (a :: b :: c :: d :: data) < 2 ^ 64 →
  patch_int32 0 v (a :: b :: c :: d :: data) = Ok (tt, be_bytes 4 v ++ data).
Proof.
  intros Hlen. unfold patch_int32. rewrite !zlen_cons in *. pose proof (zlen_nonneg data).
  rewrite wrap_u_id by (unfold in_u; lia). bcase; [lia|].
  rewrite !byte_of_Z_land.
  rewrite <- (Z.shiftr_0_r (u32 v)) at 1. rewrite !byte_of_Z_shiftr_wrap by lia.
  done.
Qed.

(** The bytes of a response header. *)
Definition enc_response_header (request : RequestHeader) : bytes :=
  be_bytes 4 (correlation_id request) ++
  (if response_header_version (api_key request) (api_version request) >=? 1
   then enc_no_tags else []).

Lemma writes_response_header request :
  writes (write_response_header request) (enc_response_header request).
Proof.
  apply writes_bind; [apply writes_int32|].
  destruct (_ >=? 1); [apply writes_no_tags|apply writes_ret].
Qed.

Lemma make_response_frame_enc request body :
  zlen body < 2 ^ 31 - 5 →
  make_response_frame request body =
  Ok (be_bytes 4 (zlen (enc_response_header request ++ body)) ++ enc_response_header request ++ body).
Proof.
  intros Hb. unfold make_response_frame, take_bytes. pose proof (zlen_nonneg body).
  assert (4 <= zlen (enc_response_header request) <= 5) as Hh.
  { unfold enc_response_header. rewrite zlen_app. unfold zlen. rewrite length_be_bytes.
    destruct (_ >=? 1); simpl; lia. }
  rewrite (st_bind_ok _ _ _ _ _ (writes_int32 0 [])).
  rewrite (st_bind_ok _ _ _ _ _ (writes_response_header request _)).
  rewrite (st_bind_ok (write_raw body) _ _ _ _ eq_refl).
  rewrite (st_bind_ok writer_size _ _ _ _ eq_refl).
  rewrite app_nil_l, <- app_assoc, zlen_app.
  change (zlen (be_bytes 4 0)) with 4. rewrite Z.add_simpl_l.
  rewrite wrap_s_id by (rewrite ?zlen_app; unfold in_s; lia).
  change (be_bytes 4 0) with [Byte.x00; Byte.x00; Byte.x00; Byte.x00].
  cbn [app]. rewrite patch_front; [done|]. rewrite !zlen_cons, zlen_app. lia.
Qed.

(** A request header on the wire, with the tagged fields of its version. *)
Definition enc_request_header (h : RequestHeader) (client : option cstring) : bytes :=
  be_bytes 2 (api_id (api_key h)) ++ be_bytes 2 (api_version h) ++
  be_bytes 4 (correlation_id h) ++ enc_nullable_string client ++
  (if header_version h >=? 2 then enc_no_tags else []).

Lemma api_key_from_id_known key info :
  find_info key = Some info → api_key_from_id (api_id key) = Ok key.
Proof. by destruct key. Qed.

Lemma api_id_range key : in_s 16 (api_id key).
Proof. by destruct key. Qed.

(** What [parse_request_header] guarantees of its result. *)
Definition request_header_wf (h : RequestHeader) : Prop :=
  is_Some (find_info (api_key h)) ∧ in_s 16 (api_version h) ∧
  in_s 32 (correlation_id h) ∧ fits16 (client_id h) ∧
  header_version h = request_header_version (api_key h) (api_version h).

Lemma reads_request_header key version corr client :
  is_Some (find_info key) → in_s 16 version → in_s 32 corr →
  (∀ c, client = Some c → fits16 c) →
  let h := mkRequestHeader key version corr (default [] client) (request_header_version key version) in
  reads parse_request_header (enc_request_header h client) h.
Proof.
  intros [info Hk] Hv Hc Hcl h. unfold parse_request_header, enc_request_header.
  eapply reads_bind; [apply reads_int16_enc, api_id_range|].
  eapply reads_bind; [by apply reads_int16_enc|].
  rewrite <- (app_nil_l (be_bytes 4 _ ++ _)). eapply reads_bind.
  { intros r tail _ _. unfold lift_result. cbn [api_key h].
    by rewrite (api_key_from_id_known key info Hk), moved_0. }
  eapply reads_bind; [by apply reads_int32_enc|].
  eapply reads_bind; [by apply reads_nullable_string|].
  apply (reads_bind_ret _ (λ _, h) _ tt). unfold h. cbn [header_version].
  destruct (_ >=? 2); [apply reads_no_tags|apply reads_ret].
Qed.

Lemma enc_nullable_string_size client :
  (∀ c, client = Some c → fits16 c) → 2 <= zlen (enc_nullable_string client) <= 32769.
Proof.
  destruct client as [c|]; intros Hcl; [|done]. specialize (Hcl c eq_refl). unfold fits16 in Hcl.
  simpl. unfold enc_string. rewrite zlen_app. change (zlen (be_bytes 2 _)) with 2.
  pose proof (zlen_nonneg c). lia.
Qed.

Lemma enc_request_header_size h client :
  (∀ c, client = Some c → fits16 c) → 10 <= zlen (enc_request_header h client) <= 33000.
Proof.
  intros Hcl. pose proof (enc_nullable_string_size client Hcl). unfold enc_request_header.
  rewrite !zlen_app. change (zlen (be_bytes 2 _)) with 2. change (zlen (be_bytes 4 _)) with 4.
  assert (0 <= zlen (if header_version h >=? 2 then enc_no_tags else []) <= 1)
    by (by destruct (_ >=? 2)). lia.
Qed.

(** Unknown keys are the only [InvalidArgument]s. *)
Lemma api_key_from_id_cases id :
  (∃ key, api_key_from_id id = Ok key ∧ is_Some (find_info key)) ∨
  api_key_from_id id = Err (InvalidArgument (str "unknown Kafka API key")).
Proof.
  unfold api_key_from_id. destruct (is_known_api id) eqn:E; [left|by right].
  unfold is_known_api, kApis in E. cbn [existsb ai_key] in E. simpl negb. cbv iota.
  repeat (apply orb_true_iff in E as [E|E]; [apply Z.eqb_eq in E; subst id; by eexists|]).
  done.
Qed.

Lemma decodes_request_header : decodes parse_request_header request_header_wf.
Proof.
  unfold parse_request_header. decode_step. intros id Hid. decode_step. intros version Hv.
  eapply (decodes_bind _ _ (λ key, is_Some (find_info key))).
  { intros r Hr. unfold lift_result.
    destruct (api_key_from_id_cases id) as [(key & -> & Hk)| ->]; [|done].
    split_and!; auto; lia. }
  intros key Hkey. decode_step. intros corr Hcorr. decode_step. intros client Hclient.
  eapply (decodes_bind _ _ (λ _, True)).
  { destruct (_ >=? 2); eauto with mkmq. }
  intros _ _. apply decodes_ret. split_and!; auto. simpl.
  destruct client; simpl; [by apply Hclient|done].
Qed.
#[export] Hint Resolve decodes_request_header : mkmq.

(** ** Theorems *)

(** A response frame is the big-endian length of what follows, the
    correlation id (and an empty tagged-field section for flexible responses
    other than ApiVersions), and the body unchanged: the length patched in
    last is that of header and body. *)
Theorem make_response_frame_spec (request : RequestHeader) (body : bytes) :
  zlen body < 2 ^ 31 - 5 →
  ∃ frame, make_response_frame request body = Ok frame ∧
    frame = be_bytes 4 (zlen frame - 4) ++ be_bytes 4 (correlation_id request) ++
      (if negb (bool_decide (api_key request = ApiVersions)) &&
          is_flexible (api_key request) (api_version request)
       then [Byte.x00] else []) ++ body.
Proof.
  intros Hb. eexists. split; [by apply make_response_frame_enc|].
  rewrite (zlen_app (be_bytes _ _)). change (zlen (be_bytes 4 _)) with 4. rewrite Z.add_simpl_l.
  unfold enc_response_header, response_header_version. rewrite <- app_assoc.
  destruct (bool_decide _); [done|]. by destruct (is_flexible _ _).
Qed.

Lemma make_response_frame_spec_witness :
  ∃ frame, make_response_frame (mkRequestHeader Fetch 12 7 [] 2) [Byte.xaa] = Ok frame ∧
    frame = be_bytes 4 (zlen frame - 4) ++ be_bytes 4 7 ++
      (if negb (bool_decide (Fetch = ApiVersions)) && is_flexible Fetch 12
       then [Byte.x00] else []) ++ [Byte.xaa].
Proof. apply (make_response_frame_spec (mkRequestHeader Fetch 12 7 [] 2) [Byte.xaa]). done. Defined.

(** [parse_request_header] reads back every request header a client can
    send: for each known API at any version, any correlation id and any null
    or present client id, it returns them (a null client id as the empty
    string) with the header version of that API version, and stops at the
    first byte of the body. *)
Theorem request_header_roundtrip (key : ApiKey) (version corr : Z) (client : option cstring) (body : bytes) :
  is_Some (find_info key) → in_s 16 version → in_s 32 corr →
  (∀ c, client = Some c → fits16 c) → zlen body < 2 ^ 63 →
  let h := mkRequestHeader key version corr (default [] client) (request_header_version key version) in
  let enc := enc_request_header h client in
  ∃ r, parse_request_header (WireReader_of (enc ++ body)) = Ok (h, r) ∧ rest r = body.
Proof.
  intros Hk Hv Hc Hcl Hb h enc.
  assert (zlen (enc ++ body) < 2 ^ 64) as Hlen.
  { pose proof (enc_request_header_size h client Hcl). unfold enc. rewrite zlen_app. lia. }
  eexists. split.
  - apply reads_buffer; [by apply reads_request_header|done].
  - by apply (moved_rest _ _ body enc); [apply WireReader_of_wf| |].
Qed.

Lemma request_header_roundtrip_witness :
  ∃ r, parse_request_header (WireReader_of
    (enc_request_header (mkRequestHeader ApiVersions 3 42 (str "client-a") 2) (Some (str "client-a")) ++ []))
    = Ok (mkRequestHeader ApiVersions 3 42 (str "client-a") 2, r) ∧ rest r = [].
Proof.
  apply (request_header_roundtrip ApiVersions 3 42 (Some (str "client-a")) []);
    [eexists; reflexivity|done|done|intros c [= <-]; done|done].
Defined.

Lemma api_id_eq key k : key = k ↔ api_id key = api_id k.
Proof. split; [by intros ->|]. by destruct key, k. Qed.

Lemma is_supported_cases key version :
  is_supported key version = true ↔
    (key = Produce ∧ version = 9) ∨ (key = Fetch ∧ version = 12) ∨
    (key = ListOffsets ∧ version = 6) ∨ (key = Metadata ∧ version = 9) ∨
    (key = ApiVersions ∧ 0 <= version <= 3).
Proof.
  unfold is_supported, find_info, kApis.
  destruct key; simpl; rewrite ?andb_true_iff, ?Z.geb_le, ?Z.leb_le; intuition (try done; lia).
Qed.

(** [api] is advertised for [key] with [version] in its range. *)
Definition advertised (key : ApiKey) (version : Z) : Prop :=
  ∃ api, api ∈ fixed_kafka_apis ∧ fka_api_key api = api_id key ∧
    fka_min_version api <= version <= fka_max_version api.

(** Dispatch accepts exactly one version of Produce, Fetch, ListOffsets
    and Metadata and versions 0 to 3 of ApiVersions.  Every accepted version
    lies in the range the ApiVersions response advertises for its key, but
    not conversely: Produce 3 to 8 and Fetch 4 to 11 are advertised and
    refused. *)
Theorem accepted_versions (key : ApiKey) (version : Z) :
  (is_supported key version = true ↔
    (key = Produce ∧ version = 9) ∨ (key = Fetch ∧ version = 12) ∨
    (key = ListOffsets ∧ version = 6) ∨ (key = Metadata ∧ version = 9) ∨
    (key = ApiVersions ∧ 0 <= version <= 3)) ∧
  (is_supported key version = true → advertised key version) ∧
  (advertised key version ∧ is_supported key version = false ↔
    (key = Produce ∧ 3 <= version <= 8) ∨ (key = Fetch ∧ 4 <= version <= 11)).
Proof.
  split; [apply is_supported_cases|].
  assert (advertised key version ↔
    (key = ApiVersions ∧ 0 <= version <= 3) ∨ (key = Metadata ∧ version = 9) ∨
    (key = Produce ∧ 3 <= version <= 9) ∨ (key = Fetch ∧ 4 <= version <= 12) ∨
    (key = ListOffsets ∧ version = 6)) as Hadv.
  { split.
    - intros (api & Hin & Hkey & Hv). unfold fixed_kafka_apis in Hin.
      rewrite !elem_of_cons, elem_of_nil in Hin.
      destruct Hin as [->|[->|[->|[->|[->|[]]]]]]; destruct key; simpl in *; try discriminate Hkey;
        repeat first [split; [reflexivity|lia] | left; split; [reflexivity|lia] | right].
    - intros [[-> ?]|[[-> ?]|[[-> ?]|[[-> ?]|[-> ?]]]]];
        [exists (mkFixedKafkaApi 18 (str "ApiVersions") 0 3 true)
        |exists (mkFixedKafkaApi 3 (str "Metadata") 9 9 true)
        |exists (mkFixedKafkaApi 0 (str "Produce") 3 9 true)
        |exists (mkFixedKafkaApi 1 (str "Fetch") 4 12 true)
        |exists (mkFixedKafkaApi 2 (str "ListOffsets") 6 6 true)];
        (split; [unfold fixed_kafka_apis; rewrite !elem_of_cons; tauto|simpl; lia]). }
  pose proof (is_supported_cases key version) as Hsup. rewrite Hadv.
  rewrite <- not_true_iff_false, Hsup, !api_id_eq. simpl. clear. lia.
Qed.
