(* ===== verification/Codec.v ===== *)
(** * The generated message codecs

    Models src/generated/kafka_codec.cpp and
    include/mkmq/generated/kafka_codec.hpp: the decoders of the four
    requests and the encoders of the five responses, at the fixed flexible
    versions.  The body of each loop is a definition of its own; a record
    has the fields of the struct, prefixed. *)

From Stdlib Require Import ZArith Lia.
From stdpp Require Import base tactics list numbers option sets.
From S2P Require Import Prelude Wire.

Local Open Scope Z_scope.

(** ** Messages *)

Record ApiVersionsResponseApi := mkApiVersionsResponseApi {
  avra_api_key : Z; avra_min_version : Z; avra_max_version : Z }.

Record ApiVersionsResponse := mkApiVersionsResponse {
  avr_error_code : Z; avr_api_keys : list ApiVersionsResponseApi; avr_throttle_time_ms : Z }.

Record MetadataRequestTopic := mkMetadataRequestTopic { mdqt_name : cstring }.

Record MetadataRequest := mkMetadataRequest {
  mdq_all_topics : bool;
  mdq_topics : list MetadataRequestTopic;
  mdq_allow_auto_topic_creation : bool;
  mdq_include_cluster_authorized_operations : bool;
  mdq_include_topic_authorized_operations : bool }.

Record MetadataResponseBroker := mkMetadataResponseBroker {
  mdb_node_id : Z; mdb_host : cstring; mdb_port : Z; mdb_rack : option cstring }.

Record MetadataResponsePartition := mkMetadataResponsePartition {
  mdp_error_code : Z;
  mdp_partition_index : Z;
  mdp_leader_id : Z;
  mdp_leader_epoch : Z;
  mdp_replica_nodes : list Z;
  mdp_isr_nodes : list Z;
  mdp_offline_replicas : list Z }.

Record MetadataResponseTopic := mkMetadataResponseTopic {
  mdt_error_code : Z;
  mdt_name : cstring;
  mdt_is_internal : bool;
  mdt_partitions : list MetadataResponsePartition;
  mdt_topic_authorized_operations : Z }.

Record MetadataResponse := mkMetadataResponse {
  mdr_throttle_time_ms : Z;
  mdr_brokers : list MetadataResponseBroker;
  mdr_cluster_id : option cstring;
  mdr_controller_id : Z;
  mdr_topics : list MetadataResponseTopic;
  mdr_cluster_authorized_operations : Z }.

Record ProduceRequestPartition := mkProduceRequestPartition {
  pqp_partition_index : Z; pqp_records : bytes }.

Record ProduceRequestTopic := mkProduceRequestTopic {
  pqt_name : cstring; pqt_partitions : list ProduceRequestPartition }.

Record WireProduceRequest := mkWireProduceRequest {
  pq_transactional_id : option cstring;
  pq_acks : Z;
  pq_timeout_ms : Z;
  pq_topics : list ProduceRequestTopic }.

Record ProduceResponsePartition := mkProduceResponsePartition {
  prp_partition_index : Z;
  prp_error_code : Z;
  prp_base_offset : Z;
  prp_log_append_time_ms : Z;
  prp_log_start_offset : Z;
  prp_record_errors : list Z;
  prp_error_message : option cstring }.

Record ProduceResponseTopic := mkProduceResponseTopic {
  prt_name : cstring; prt_partitions : list ProduceResponsePartition }.

Record ProduceResponse := mkProduceResponse {
  pr_topics : list ProduceResponseTopic; pr_throttle_time_ms : Z }.

Record FetchRequestPartition := mkFetchRequestPartition {
  fqp_partition : Z;
  fqp_current_leader_epoch : Z;
  fqp_fetch_offset : Z;
  fqp_last_fetched_epoch : Z;
  fqp_log_start_offset : Z;
  fqp_partition_max_bytes : Z }.

Record FetchRequestTopic := mkFetchRequestTopic {
  fqt_topic : cstring; fqt_partitions : list FetchRequestPartition }.

Record FetchRequest := mkFetchRequest {
  fq_replica_id : Z;
  fq_max_wait_ms : Z;
  fq_min_bytes : Z;
  fq_max_bytes : Z;
  fq_isolation_level : Z;
  fq_session_id : Z;
  fq_session_epoch : Z;
  fq_topics : list FetchRequestTopic;
  fq_rack_id : cstring }.

Record FetchResponsePartition := mkFetchResponsePartition {
  frp_partition_index : Z;
  frp_error_code : Z;
  frp_high_watermark : Z;
  frp_last_stable_offset : Z;
  frp_log_start_offset : Z;
  frp_aborted_transactions : option (list Z);
  frp_preferred_read_replica : Z;
  frp_records : bytes }.

Record FetchResponseTopic := mkFetchResponseTopic {
  frt_topic : cstring; frt_partitions : list FetchResponsePartition }.

Record FetchResponse := mkFetchResponse {
  fr_throttle_time_ms : Z; fr_error_code : Z; fr_session_id : Z;
  fr_topics : list FetchResponseTopic }.

Record ListOffsetsRequestPartition := mkListOffsetsRequestPartition {
  lqp_partition_index : Z; lqp_current_leader_epoch : Z; lqp_timestamp : Z }.

Record ListOffsetsRequestTopic := mkListOffsetsRequestTopic {
  lqt_name : cstring; lqt_partitions : list ListOffsetsRequestPartition }.

Record ListOffsetsRequest := mkListOffsetsRequest {
  lq_replica_id : Z; lq_isolation_level : Z; lq_topics : list ListOffsetsRequestTopic }.

Record ListOffsetsResponsePartition := mkListOffsetsResponsePartition {
  lrp_partition_index : Z;
  lrp_error_code : Z;
  lrp_timestamp : Z;
  lrp_offset : Z;
  lrp_leader_epoch : Z }.

Record ListOffsetsResponseTopic := mkListOffsetsResponseTopic {
  lrt_name : cstring; lrt_partitions : list ListOffsetsResponsePartition }.

Record ListOffsetsResponse := mkListOffsetsResponse {
  lr_throttle_time_ms : Z; lr_topics : list ListOffsetsResponseTopic }.

(** ** Request decoders *)

(** [for (i < count) v.push_back(<element>)]. *)
Definition read_vector {A} (count : Z) (element : Reader A) : Reader (list A) :=
  for_range count [] (λ _ acc, x ← element; mret (acc ++ [x])).

Definition decode_metadata_request_topic : Reader MetadataRequestTopic :=
  name ← read_compact_string;
  skip_tagged_fields;;
  mret (mkMetadataRequestTopic name).

Definition decode_metadata_request : Reader MetadataRequest :=
  topic_count ← read_array_count true true;
  let all_topics := topic_count <? 0 in
  topics ← read_vector topic_count decode_metadata_request_topic;
  allow_auto_topic_creation ← read_bool;
  include_cluster_authorized_operations ← read_bool;
  include_topic_authorized_operations ← read_bool;
  skip_tagged_fields;;
  mret (mkMetadataRequest all_topics topics allow_auto_topic_creation
    include_cluster_authorized_operations include_topic_authorized_operations).

Definition decode_produce_request_partition : Reader ProduceRequestPartition :=
  partition_index ← read_int32;
  records ← read_compact_nullable_bytes;
  skip_tagged_fields;;
  mret (mkProduceRequestPartition partition_index (default [] records)).

Definition decode_produce_request_topic : Reader ProduceRequestTopic :=
  name ← read_compact_string;
  partition_count ← read_array_count true false;
  partitions ← read_vector partition_count decode_produce_request_partition;
  skip_tagged_fields;;
  mret (mkProduceRequestTopic name partitions).

Definition decode_produce_request : Reader WireProduceRequest :=
  transactional_id ← read_compact_nullable_string;
  acks ← read_int16;
  timeout_ms ← read_int32;
  topic_count ← read_array_count true false;
  topics ← read_vector topic_count decode_produce_request_topic;
  skip_tagged_fields;;
  mret (mkWireProduceRequest transactional_id acks timeout_ms topics).

Definition decode_fetch_request_partition : Reader FetchRequestPartition :=
  partition ← read_int32;
  current_leader_epoch ← read_int32;
  fetch_offset ← read_int64;
  last_fetched_epoch ← read_int32;
  log_start_offset ← read_int64;
  partition_max_bytes ← read_int32;
  skip_tagged_fields;;
  mret (mkFetchRequestPartition partition current_leader_epoch fetch_offset
    last_fetched_epoch log_start_offset partition_max_bytes).

Definition decode_fetch_request_topic : Reader FetchRequestTopic :=
  topic ← read_compact_string;
  partition_count ← read_array_count true false;
  partitions ← read_vector partition_count decode_fetch_request_partition;
  skip_tagged_fields;;
  mret (mkFetchRequestTopic topic partitions).

(** A forgotten topic is decoded and dropped. *)
Definition skip_forgotten_topic : Reader unit :=
  read_compact_string;;
  partition_count ← read_array_count true false;
  for_range partition_count tt (λ _ _, read_int32;; mret tt);;
  skip_tagged_fields.

Definition decode_fetch_request : Reader FetchRequest :=
  replica_id ← read_int32;
  max_wait_ms ← read_int32;
  min_bytes ← read_int32;
  max_bytes ← read_int32;
  isolation_level ← read_int8;
  session_id ← read_int32;
  session_epoch ← read_int32;
  topic_count ← read_array_count true false;
  topics ← read_vector topic_count decode_fetch_request_topic;
  forgotten_topic_count ← read_array_count true false;
  for_range forgotten_topic_count tt (λ _ _, skip_forgotten_topic);;
  rack_id ← read_compact_string;
  skip_tagged_fields;;
  mret (mkFetchRequest replica_id max_wait_ms min_bytes max_bytes isolation_level
    session_id session_epoch topics rack_id).

Definition decode_list_offsets_request_partition : Reader ListOffsetsRequestPartition :=
  partition_index ← read_int32;
  current_leader_epoch ← read_int32;
  timestamp ← read_int64;
  skip_tagged_fields;;
  mret (mkListOffsetsRequestPartition partition_index current_leader_epoch timestamp).

Definition decode_list_offsets_request_topic : Reader ListOffsetsRequestTopic :=
  name ← read_compact_string;
  partition_count ← read_array_count true false;
  partitions ← read_vector partition_count decode_list_offsets_request_partition;
  skip_tagged_fields;;
  mret (mkListOffsetsRequestTopic name partitions).

Definition decode_list_offsets_request : Reader ListOffsetsRequest :=
  replica_id ← read_int32;
  isolation_level ← read_int8;
  topic_count ← read_array_count true false;
  topics ← read_vector topic_count decode_list_offsets_request_topic;
  skip_tagged_fields;;
  mret (mkListOffsetsRequest replica_id isolation_level topics).

(** ** Response encoders *)

(** [write_array_count(static_cast<int32_t>(v.size()), true)] and the loop
    over [v]. *)
Definition write_vector {A} (l : list A) (element : A → Writer unit) : Writer unit :=
  write_array_count (i32 (zlen l)) true;; for_each l element.

Definition encode_api_versions_response_api (api : ApiVersionsResponseApi) : Writer unit :=
  write_int16 (avra_api_key api);;
  write_int16 (avra_min_version api);;
  write_int16 (avra_max_version api);;
  write_empty_tagged_fields.

Definition encode_api_versions_response (response : ApiVersionsResponse) : result bytes :=
  take_bytes (
    write_int16 (avr_error_code response);;
    write_vector (avr_api_keys response) encode_api_versions_response_api;;
    write_int32 (avr_throttle_time_ms response);;
    write_empty_tagged_fields).

Definition encode_metadata_response_broker (broker : MetadataResponseBroker) : Writer unit :=
  write_int32 (mdb_node_id broker);;
  write_compact_string (mdb_host broker);;
  write_int32 (mdb_port broker);;
  write_compact_nullable_string (mdb_rack broker);;
  write_empty_tagged_fields.

Definition encode_metadata_response_partition (partition : MetadataResponsePartition) : Writer unit :=
  write_int16 (mdp_error_code partition);;
  write_int32 (mdp_partition_index partition);;
  write_int32 (mdp_leader_id partition);;
  write_int32 (mdp_leader_epoch partition);;
  write_vector (mdp_replica_nodes partition) write_int32;;
  write_vector (mdp_isr_nodes partition) write_int32;;
  write_vector (mdp_offline_replicas partition) write_int32;;
  write_empty_tagged_fields.

Definition encode_metadata_response_topic (topic : MetadataResponseTopic) : Writer unit :=
  write_int16 (mdt_error_code topic);;
  write_compact_string (mdt_name topic);;
  write_bool (mdt_is_internal topic);;
  write_vector (mdt_partitions topic) encode_metadata_response_partition;;
  write_int32 (mdt_topic_authorized_operations topic);;
  write_empty_tagged_fields.

Definition encode_metadata_response (response : MetadataResponse) : result bytes :=
  take_bytes (
    write_int32 (mdr_throttle_time_ms response);;
    write_vector (mdr_brokers response) encode_metadata_response_broker;;
    write_compact_nullable_string (mdr_cluster_id response);;
    write_int32 (mdr_controller_id response);;
    write_vector (mdr_topics response) encode_metadata_response_topic;;
    write_int32 (mdr_cluster_authorized_operations response);;
    write_empty_tagged_fields).

Definition encode_produce_response_partition (partition : ProduceResponsePartition) : Writer unit :=
  write_int32 (prp_partition_index partition);;
  write_int16 (prp_error_code partition);;
  write_int64 (prp_base_offset partition);;
  write_int64 (prp_log_append_time_ms partition);;
  write_int64 (prp_log_start_offset partition);;
  write_vector (prp_record_errors partition) (λ error,
    write_int32 error;;
    write_compact_nullable_string None;;
    write_empty_tagged_fields);;
  write_compact_nullable_string (prp_error_message partition);;
  write_empty_tagged_fields.

Definition encode_produce_response_topic (topic : ProduceResponseTopic) : Writer unit :=
  write_compact_string (prt_name topic);;
  write_vector (prt_partitions topic) encode_produce_response_partition;;
  write_empty_tagged_fields.

Definition encode_produce_response (response : ProduceResponse) : result bytes :=
  take_bytes (
    write_vector (pr_topics response) encode_produce_response_topic;;
    write_int32 (pr_throttle_time_ms response);;
    write_empty_tagged_fields).

Definition encode_fetch_response_partition (partition : FetchResponsePartition) : Writer unit :=
  write_int32 (frp_partition_index partition);;
  write_int16 (frp_error_code partition);;
  write_int64 (frp_high_watermark partition);;
  write_int64 (frp_last_stable_offset partition);;
  write_int64 (frp_log_start_offset partition);;
  match frp_aborted_transactions partition with
  | None => write_nullable_array_count (-1) true
  | Some producer_ids =>
      write_vector producer_ids (λ producer_id,
        write_int64 producer_id;;
        write_int64 (-1);;
        write_empty_tagged_fields)
  end;;
  write_int32 (frp_preferred_read_replica partition);;
  write_compact_nullable_bytes (Some (frp_records partition));;
  write_empty_tagged_fields.

Definition encode_fetch_response_topic (topic : FetchResponseTopic) : Writer unit :=
  write_compact_string (frt_topic topic);;
  write_vector (frt_partitions topic) encode_fetch_response_partition;;
  write_empty_tagged_fields.

Definition encode_fetch_response (response : FetchResponse) : result bytes :=
  take_bytes (
    write_int32 (fr_throttle_time_ms response);;
    write_int16 (fr_error_code response);;
    write_int32 (fr_session_id response);;
    write_vector (fr_topics response) encode_fetch_response_topic;;
    write_empty_tagged_fields).

Definition encode_list_offsets_response_partition (partition : ListOffsetsResponsePartition) : Writer unit :=
  write_int32 (lrp_partition_index partition);;
  write_int16 (lrp_error_code partition);;
  write_int64 (lrp_timestamp partition);;
  write_int64 (lrp_offset partition);;
  write_int32 (lrp_leader_epoch partition);;
  write_empty_tagged_fields.

Definition encode_list_offsets_response_topic (topic : ListOffsetsResponseTopic) : Writer unit :=
  write_compact_string (lrt_name topic);;
  write_vector (lrt_partitions topic) encode_list_offsets_response_partition;;
  write_empty_tagged_fields.

Definition encode_list_offsets_response (response : ListOffsetsResponse) : result bytes :=
  take_bytes (
    write_int32 (lr_throttle_time_ms response);;
    write_vector (lr_topics response) encode_list_offsets_response_topic;;
    write_empty_tagged_fields).

(** ** Lemmas: vectors *)

Lemma reads_end {A} (v : A) : reads (skip_tagged_fields;; mret v) enc_no_tags v.
Proof. apply (reads_bind_ret skip_tagged_fields (λ _, v) _ tt), reads_no_tags. Qed.

Lemma reads_vector {A} (element : Reader A) (enc : A → bytes) (P : A → Prop) l :
  Forall P l → (∀ x, P x → reads element (enc x) x) →
  reads (read_vector (zlen l) element) (concat (map enc l)) l.
Proof.
  intros Hl He. apply (reads_for_range element enc l []). intros x Hx.
  apply He. by eapply Forall_forall in Hl.
Qed.

Lemma reads_count {A} nullable (l : list A) :
  fits32 l → reads (read_array_count true nullable) (enc_compact_count (zlen l)) (zlen l).
Proof. intros Hl. apply reads_compact_count. unfold fits32 in Hl. pose proof (zlen_nonneg l). lia. Qed.

Lemma decodes_vector {A} count (element : Reader A) (P : A → Prop) :
  decodes element P → decodes (read_vector count element) (Forall P).
Proof.
  intros He. apply decodes_for_range; [constructor|]. intros _ acc Hacc.
  eapply decodes_bind; [exact He|]. intros x Hx. apply decodes_ret.
  by apply Forall_app_2; [|constructor].
Qed.

(** A counted vector on the wire. *)
Definition enc_vector {A} (enc : A → bytes) (l : list A) : bytes :=
  enc_compact_count (zlen l) ++ concat (map enc l).

Lemma writes_vector {A} (l : list A) (element : A → Writer unit) (enc : A → bytes) (P : A → Prop) :
  fits32 l → Forall P l → (∀ x, P x → writes (element x) (enc x)) →
  writes (write_vector l element) (enc_vector enc l).
Proof.
  intros Hn Hl He. apply writes_bind; [by apply writes_compact_count|].
  apply writes_for_each. intros x Hx. apply He. by eapply Forall_forall in Hl.
Qed.

(** One field of a decoder, resp. encoder, against its specification. *)
Ltac reads_step :=
  lazymatch goal with
  | |- reads (skip_tagged_fields ≫= λ _, mret _) _ _ => apply reads_end
  | |- reads (mbind _ (read_vector _ _)) _ _ =>
      eapply reads_bind; [eapply reads_vector; [eassumption|eauto with mkmq]|cbv beta]
  | |- reads (mbind _ (read_array_count true _)) _ _ =>
      eapply reads_bind; [first [apply reads_null_count | apply reads_count; assumption]|cbv beta]
  | |- reads (mbind _ _) _ _ => eapply reads_bind; [solve [eauto with mkmq]|cbv beta]
  end.
Ltac writes_step :=
  lazymatch goal with
  | |- writes (mbind _ _) (_ ++ _) => apply writes_bind; [|cbv beta]
  | |- writes (write_vector _ _) _ =>
      eapply writes_vector; [assumption|eassumption|solve [eauto with mkmq]]
  | |- writes _ _ => solve [eauto with mkmq]
  end.
#[export] Hint Resolve reads_int8_enc reads_int16_enc reads_int32_enc reads_int64_enc
  reads_bool_enc reads_compact_string reads_compact_nullable_string
  reads_compact_nullable_bytes reads_no_tags reads_null_count : mkmq.
#[export] Hint Resolve writes_int8 writes_int16 writes_int32 writes_int64
  writes_compact_string writes_compact_nullable_string writes_compact_nullable_bytes
  writes_no_tags writes_ret : mkmq.

(** ** The requests on the wire *)

(** A value the schema can carry: every integer fits its field, strings and
    arrays fit a compact length. *)
Definition opt_fits {A} (s : option (list A)) : Prop := ∀ x, s = Some x → fits32 x.

Definition enc_metadata_request_topic (t : MetadataRequestTopic) : bytes :=
  enc_compact_string (mdqt_name t) ++ enc_no_tags.
Definition enc_bool (b : bool) : bytes := [byte_of_Z (if b then 1 else 0)].
Definition enc_metadata_request (q : MetadataRequest) : bytes :=
  (if mdq_all_topics q then uvarint 0 else enc_vector enc_metadata_request_topic (mdq_topics q)) ++
  enc_bool (mdq_allow_auto_topic_creation q) ++
  enc_bool (mdq_include_cluster_authorized_operations q) ++
  enc_bool (mdq_include_topic_authorized_operations q) ++ enc_no_tags.
Definition metadata_request_topic_wf (t : MetadataRequestTopic) : Prop := fits32 (mdqt_name t).
Definition metadata_request_wf (q : MetadataRequest) : Prop :=
  fits32 (mdq_topics q) ∧ Forall metadata_request_topic_wf (mdq_topics q) ∧
  (mdq_all_topics q = true → mdq_topics q = []).

Definition enc_produce_request_partition (p : ProduceRequestPartition) : bytes :=
  be_bytes 4 (pqp_partition_index p) ++ enc_compact_nullable (Some (pqp_records p)) ++ enc_no_tags.
Definition enc_produce_request_topic (t : ProduceRequestTopic) : bytes :=
  enc_compact_string (pqt_name t) ++ enc_compact_count (zlen (pqt_partitions t)) ++
  concat (map enc_produce_request_partition (pqt_partitions t)) ++ enc_no_tags.
Definition enc_produce_request (q : WireProduceRequest) : bytes :=
  enc_compact_nullable (pq_transactional_id q) ++ be_bytes 2 (pq_acks q) ++
  be_bytes 4 (pq_timeout_ms q) ++ enc_compact_count (zlen (pq_topics q)) ++
  concat (map enc_produce_request_topic (pq_topics q)) ++ enc_no_tags.
Definition produce_request_partition_wf (p : ProduceRequestPartition) : Prop :=
  in_s 32 (pqp_partition_index p) ∧ opt_fits (Some (pqp_records p)).
Definition produce_request_topic_wf (t : ProduceRequestTopic) : Prop :=
  fits32 (pqt_name t) ∧ fits32 (pqt_partitions t) ∧
  Forall produce_request_partition_wf (pqt_partitions t).
Definition produce_request_wf (q : WireProduceRequest) : Prop :=
  opt_fits (pq_transactional_id q) ∧ in_s 16 (pq_acks q) ∧ in_s 32 (pq_timeout_ms q) ∧
  fits32 (pq_topics q) ∧ Forall produce_request_topic_wf (pq_topics q).

Definition enc_fetch_request_partition (p : FetchRequestPartition) : bytes :=
  be_bytes 4 (fqp_partition p) ++ be_bytes 4 (fqp_current_leader_epoch p) ++
  be_bytes 8 (fqp_fetch_offset p) ++ be_bytes 4 (fqp_last_fetched_epoch p) ++
  be_bytes 8 (fqp_log_start_offset p) ++ be_bytes 4 (fqp_partition_max_bytes p) ++ enc_no_tags.
Definition enc_fetch_request_topic (t : FetchRequestTopic) : bytes :=
  enc_compact_string (fqt_topic t) ++ enc_compact_count (zlen (fqt_partitions t)) ++
  concat (map enc_fetch_request_partition (fqt_partitions t)) ++ enc_no_tags.
(** A forgotten topic: its name and its partition indices. *)
Definition enc_forgotten_topic (t : cstring * list Z) : bytes :=
  enc_compact_string t.1 ++ enc_compact_count (zlen t.2) ++ concat (map (be_bytes 4) t.2) ++ enc_no_tags.
Definition enc_fetch_request (q : FetchRequest) (forgotten : list (cstring * list Z)) : bytes :=
  be_bytes 4 (fq_replica_id q) ++ be_bytes 4 (fq_max_wait_ms q) ++ be_bytes 4 (fq_min_bytes q) ++
  be_bytes 4 (fq_max_bytes q) ++ [byte_of_Z (fq_isolation_level q)] ++
  be_bytes 4 (fq_session_id q) ++ be_bytes 4 (fq_session_epoch q) ++
  enc_compact_count (zlen (fq_topics q)) ++ concat (map enc_fetch_request_topic (fq_topics q)) ++
  enc_compact_count (zlen forgotten) ++ concat (map enc_forgotten_topic forgotten) ++
  enc_compact_string (fq_rack_id q) ++ enc_no_tags.
Definition fetch_request_partition_wf (p : FetchRequestPartition) : Prop :=
  in_s 32 (fqp_partition p) ∧ in_s 32 (fqp_current_leader_epoch p) ∧
  in_s 64 (fqp_fetch_offset p) ∧ in_s 32 (fqp_last_fetched_epoch p) ∧
  in_s 64 (fqp_log_start_offset p) ∧ in_s 32 (fqp_partition_max_bytes p).
Definition fetch_request_topic_wf (t : FetchRequestTopic) : Prop :=
  fits32 (fqt_topic t) ∧ fits32 (fqt_partitions t) ∧
  Forall fetch_request_partition_wf (fqt_partitions t).
Definition forgotten_topic_wf (t : cstring * list Z) : Prop :=
  fits32 t.1 ∧ fits32 t.2 ∧ Forall (in_s 32) t.2.
Definition fetch_request_wf (q : FetchRequest) : Prop :=
  in_s 32 (fq_replica_id q) ∧ in_s 32 (fq_max_wait_ms q) ∧ in_s 32 (fq_min_bytes q) ∧
  in_s 32 (fq_max_bytes q) ∧ in_s 8 (fq_isolation_level q) ∧ in_s 32 (fq_session_id q) ∧
  in_s 32 (fq_session_epoch q) ∧ fits32 (fq_topics q) ∧
  Forall fetch_request_topic_wf (fq_topics q) ∧ fits32 (fq_rack_id q).

Definition enc_list_offsets_request_partition (p : ListOffsetsRequestPartition) : bytes :=
  be_bytes 4 (lqp_partition_index p) ++ be_bytes 4 (lqp_current_leader_epoch p) ++
  be_bytes 8 (lqp_timestamp p) ++ enc_no_tags.
Definition enc_list_offsets_request_topic (t : ListOffsetsRequestTopic) : bytes :=
  enc_compact_string (lqt_name t) ++ enc_compact_count (zlen (lqt_partitions t)) ++
  concat (map enc_list_offsets_request_partition (lqt_partitions t)) ++ enc_no_tags.
Definition enc_list_offsets_request (q : ListOffsetsRequest) : bytes :=
  be_bytes 4 (lq_replica_id q) ++ [byte_of_Z (lq_isolation_level q)] ++
  enc_compact_count (zlen (lq_topics q)) ++
  concat (map enc_list_offsets_request_topic (lq_topics q)) ++ enc_no_tags.
Definition list_offsets_request_partition_wf (p : ListOffsetsRequestPartition) : Prop :=
  in_s 32 (lqp_partition_index p) ∧ in_s 32 (lqp_current_leader_epoch p) ∧ in_s 64 (lqp_timestamp p).
Definition list_offsets_request_topic_wf (t : ListOffsetsRequestTopic) : Prop :=
  fits32 (lqt_name t) ∧ fits32 (lqt_partitions t) ∧
  Forall list_offsets_request_partition_wf (lqt_partitions t).
Definition list_offsets_request_wf (q : ListOffsetsRequest) : Prop :=
  in_s 32 (lq_replica_id q) ∧ in_s 8 (lq_isolation_level q) ∧
  fits32 (lq_topics q) ∧ Forall list_offsets_request_topic_wf (lq_topics q).

(** Takes a message apart and runs a codec along its specification. *)
Ltac message x H := destruct x; hnf in H; simpl in H; destruct_and? H.

Lemma reads_metadata_request_topic t : metadata_request_topic_wf t →
  reads decode_metadata_request_topic (enc_metadata_request_topic t) t.
Proof. intros H. destruct t. hnf in H. unfold decode_metadata_request_topic. repeat reads_step. Qed.
#[export] Hint Resolve reads_metadata_request_topic : mkmq.

Lemma reads_metadata_request q : metadata_request_wf q →
  reads decode_metadata_request (enc_metadata_request q) q.
Proof.
  intros H. message q H. unfold decode_metadata_request, enc_metadata_request.
  cbn [mdq_all_topics mdq_topics].
  destruct mdq_all_topics0.
  - rewrite H2 by done. reads_step.
    rewrite <- (app_nil_l (enc_bool _ ++ _)). eapply reads_bind; [apply reads_ret|].
    repeat reads_step.
  - unfold enc_vector. rewrite <- app_assoc. reads_step.
    replace (zlen mdq_topics0 <? 0) with false
      by (symmetry; apply Z.ltb_ge, zlen_nonneg).
    repeat reads_step.
Qed.

Lemma reads_produce_request_partition p : produce_request_partition_wf p →
  reads decode_produce_request_partition (enc_produce_request_partition p) p.
Proof. intros H. message p H. unfold decode_produce_request_partition. repeat reads_step. Qed.
#[export] Hint Resolve reads_produce_request_partition : mkmq.

Lemma reads_produce_request_topic t : produce_request_topic_wf t →
  reads decode_produce_request_topic (enc_produce_request_topic t) t.
Proof. intros H. message t H. unfold decode_produce_request_topic. repeat reads_step. Qed.
#[export] Hint Resolve reads_produce_request_topic : mkmq.

Lemma reads_produce_request q : produce_request_wf q →
  reads decode_produce_request (enc_produce_request q) q.
Proof. intros H. message q H. unfold decode_produce_request. repeat reads_step. Qed.

Lemma reads_fetch_request_partition p : fetch_request_partition_wf p →
  reads decode_fetch_request_partition (enc_fetch_request_partition p) p.
Proof. intros H. message p H. unfold decode_fetch_request_partition. repeat reads_step. Qed.
#[export] Hint Resolve reads_fetch_request_partition : mkmq.

Lemma reads_fetch_request_topic t : fetch_request_topic_wf t →
  reads decode_fetch_request_topic (enc_fetch_request_topic t) t.
Proof. intros H. message t H. unfold decode_fetch_request_topic. repeat reads_step. Qed.
#[export] Hint Resolve reads_fetch_request_topic : mkmq.

(** A counted loop that reads elements and drops them. *)
Lemma reads_drop_loop {A} (l : list A) (body : Reader unit) (enc : A → bytes) :
  (∀ x, x ∈ l → reads body (enc x) tt) →
  reads (for_range (zlen l) tt (λ _ _, body)) (concat (map enc l)) tt.
Proof.
  intros Hb r tail Hr Hrest. rewrite for_range_nat. unfold zlen. rewrite Nat2Z.id.
  revert r tail Hr Hrest. fold (reads (for_nat (length l) 0 (λ _ _, body) tt) (concat (map enc l)) tt).
  generalize 0. induction l as [|x l IH]; intros i; [apply reads_ret|].
  cbn [length for_nat map concat]. eapply reads_bind; [apply Hb; set_solver|].
  apply IH. set_solver.
Qed.

Lemma reads_forgotten_topic t : forgotten_topic_wf t →
  reads skip_forgotten_topic (enc_forgotten_topic t) tt.
Proof.
  intros H. message t H. unfold skip_forgotten_topic. repeat reads_step.
  eapply (reads_bind _ _ _ _ tt); [|apply reads_no_tags].
  apply reads_drop_loop. intros x Hx. eapply (reads_bind_ret _ (λ _, tt)), reads_int32_enc.
  by eapply (proj1 (Forall_forall _ _)) in Hx.
Qed.

Lemma reads_fetch_request q forgotten :
  fetch_request_wf q → fits32 forgotten → Forall forgotten_topic_wf forgotten →
  reads decode_fetch_request (enc_fetch_request q forgotten) q.
Proof.
  intros H Hf Hfs. message q H. unfold decode_fetch_request.
  do 10 reads_step. eapply reads_bind.
  { apply reads_drop_loop. intros x Hx. apply reads_forgotten_topic.
    by eapply (proj1 (Forall_forall _ _)) in Hx. }
  repeat reads_step.
Qed.

Lemma reads_list_offsets_request_partition p : list_offsets_request_partition_wf p →
  reads decode_list_offsets_request_partition (enc_list_offsets_request_partition p) p.
Proof. intros H. message p H. unfold decode_list_offsets_request_partition. repeat reads_step. Qed.
#[export] Hint Resolve reads_list_offsets_request_partition : mkmq.

Lemma reads_list_offsets_request_topic t : list_offsets_request_topic_wf t →
  reads decode_list_offsets_request_topic (enc_list_offsets_request_topic t) t.
Proof. intros H. message t H. unfold decode_list_offsets_request_topic. repeat reads_step. Qed.
#[export] Hint Resolve reads_list_offsets_request_topic : mkmq.

Lemma reads_list_offsets_request q : list_offsets_request_wf q →
  reads decode_list_offsets_request (enc_list_offsets_request q) q.
Proof. intros H. message q H. unfold decode_list_offsets_request. repeat reads_step. Qed.

(** ** The responses, as a client reads them *)

(** Readers written from the message schemas; they are what a client of the
    broker runs, and the specification of the encoders. *)
Definition client_array {A} (element : Reader A) : Reader (list A) :=
  count ← read_array_count true false; read_vector count element.
Definition client_end {A} (v : A) : Reader A := skip_tagged_fields;; mret v.

Lemma reads_client_array {A} (element : Reader A) (enc : A → bytes) (P : A → Prop) l :
  fits32 l → Forall P l → (∀ x, P x → reads element (enc x) x) →
  reads (client_array element) (enc_vector enc l) l.
Proof. intros. eapply reads_bind; [by apply reads_count|]. by eapply reads_vector. Qed.

Ltac client_step :=
  lazymatch goal with
  | |- reads (client_end _) _ _ => apply reads_end
  | |- reads (mbind _ (client_array _)) _ _ =>
      eapply reads_bind; [eapply reads_client_array; [assumption|eassumption|solve [eauto with mkmq]]|cbv beta]
  | |- reads (mbind _ _) _ _ => eapply reads_bind; [solve [eauto with mkmq]|cbv beta]
  end.

Definition client_api : Reader ApiVersionsResponseApi :=
  k ← read_int16; lo ← read_int16; hi ← read_int16;
  client_end (mkApiVersionsResponseApi k lo hi).
Definition client_api_versions_response : Reader ApiVersionsResponse :=
  e ← read_int16; apis ← client_array client_api; t ← read_int32;
  client_end (mkApiVersionsResponse e apis t).

Definition client_metadata_broker : Reader MetadataResponseBroker :=
  id ← read_int32; host ← read_compact_string; port ← read_int32;
  rack ← read_compact_nullable_string;
  client_end (mkMetadataResponseBroker id host port rack).
Definition client_metadata_partition : Reader MetadataResponsePartition :=
  e ← read_int16; i ← read_int32; leader ← read_int32; epoch ← read_int32;
  replicas ← client_array read_int32; isr ← client_array read_int32;
  offline ← client_array read_int32;
  client_end (mkMetadataResponsePartition e i leader epoch replicas isr offline).
Definition client_metadata_topic : Reader MetadataResponseTopic :=
  e ← read_int16; name ← read_compact_string; internal ← read_bool;
  ps ← client_array client_metadata_partition; ops ← read_int32;
  client_end (mkMetadataResponseTopic e name internal ps ops).
Definition client_metadata_response : Reader MetadataResponse :=
  t ← read_int32; brokers ← client_array client_metadata_broker;
  cluster ← read_compact_nullable_string; controller ← read_int32;
  topics ← client_array client_metadata_topic; ops ← read_int32;
  client_end (mkMetadataResponse t brokers cluster controller topics ops).

(** A record error is an index and a null message. *)
Definition client_record_error : Reader Z :=
  i ← read_int32; _ ← read_compact_nullable_string; client_end i.
Definition client_produce_partition : Reader ProduceResponsePartition :=
  i ← read_int32; e ← read_int16; base ← read_int64; time ← read_int64; start ← read_int64;
  errs ← client_array client_record_error; msg ← read_compact_nullable_string;
  client_end (mkProduceResponsePartition i e base time start errs msg).
Definition client_produce_topic : Reader ProduceResponseTopic :=
  name ← read_compact_string; ps ← client_array client_produce_partition;
  client_end (mkProduceResponseTopic name ps).
Definition client_produce_response : Reader ProduceResponse :=
  topics ← client_array client_produce_topic; t ← read_int32;
  client_end (mkProduceResponse topics t).

(** An aborted transaction is a producer id and a first offset, here -1. *)
Definition client_aborted : Reader Z := id ← read_int64; _ ← read_int64; client_end id.
Definition client_aborted_list : Reader (option (list Z)) :=
  count ← read_array_count true true;
  if count <? 0 then mret None else l ← read_vector count client_aborted; mret (Some l).
Definition client_fetch_partition : Reader FetchResponsePartition :=
  i ← read_int32; e ← read_int16; hw ← read_int64; lso ← read_int64; start ← read_int64;
  aborted ← client_aborted_list; preferred ← read_int32;
  records ← read_compact_nullable_bytes;
  client_end (mkFetchResponsePartition i e hw lso start aborted preferred (default [] records)).
Definition client_fetch_topic : Reader FetchResponseTopic :=
  name ← read_compact_string; ps ← client_array client_fetch_partition;
  client_end (mkFetchResponseTopic name ps).
Definition client_fetch_response : Reader FetchResponse :=
  t ← read_int32; e ← read_int16; session ← read_int32;
  topics ← client_array client_fetch_topic;
  client_end (mkFetchResponse t e session topics).

Definition client_list_offsets_partition : Reader ListOffsetsResponsePartition :=
  i ← read_int32; e ← read_int16; time ← read_int64; offset ← read_int64; epoch ← read_int32;
  client_end (mkListOffsetsResponsePartition i e time offset epoch).
Definition client_list_offsets_topic : Reader ListOffsetsResponseTopic :=
  name ← read_compact_string; ps ← client_array client_list_offsets_partition;
  client_end (mkListOffsetsResponseTopic name ps).
Definition client_list_offsets_response : Reader ListOffsetsResponse :=
  t ← read_int32; topics ← client_array client_list_offsets_topic;
  client_end (mkListOffsetsResponse t topics).

(** ** The values the responses can carry *)

Definition api_wf (a : ApiVersionsResponseApi) : Prop :=
  in_s 16 (avra_api_key a) ∧ in_s 16 (avra_min_version a) ∧ in_s 16 (avra_max_version a).
Definition api_versions_response_wf (r : ApiVersionsResponse) : Prop :=
  in_s 16 (avr_error_code r) ∧ fits32 (avr_api_keys r) ∧ Forall api_wf (avr_api_keys r) ∧
  in_s 32 (avr_throttle_time_ms r).

Definition metadata_broker_wf (b : MetadataResponseBroker) : Prop :=
  in_s 32 (mdb_node_id b) ∧ fits32 (mdb_host b) ∧ in_s 32 (mdb_port b) ∧ opt_fits (mdb_rack b).
Definition metadata_partition_wf (p : MetadataResponsePartition) : Prop :=
  in_s 16 (mdp_error_code p) ∧ in_s 32 (mdp_partition_index p) ∧ in_s 32 (mdp_leader_id p) ∧
  in_s 32 (mdp_leader_epoch p) ∧
  (fits32 (mdp_replica_nodes p) ∧ Forall (in_s 32) (mdp_replica_nodes p)) ∧
  (fits32 (mdp_isr_nodes p) ∧ Forall (in_s 32) (mdp_isr_nodes p)) ∧
  (fits32 (mdp_offline_replicas p) ∧ Forall (in_s 32) (mdp_offline_replicas p)).
Definition metadata_topic_wf (t : MetadataResponseTopic) : Prop :=
  in_s 16 (mdt_error_code t) ∧ fits32 (mdt_name t) ∧ fits32 (mdt_partitions t) ∧
  Forall metadata_partition_wf (mdt_partitions t) ∧ in_s 32 (mdt_topic_authorized_operations t).
Definition metadata_response_wf (r : MetadataResponse) : Prop :=
  in_s 32 (mdr_throttle_time_ms r) ∧ (fits32 (mdr_brokers r) ∧ Forall metadata_broker_wf (mdr_brokers r)) ∧
  opt_fits (mdr_cluster_id r) ∧ in_s 32 (mdr_controller_id r) ∧
  (fits32 (mdr_topics r) ∧ Forall metadata_topic_wf (mdr_topics r)) ∧
  in_s 32 (mdr_cluster_authorized_operations r).

Definition produce_partition_wf (p : ProduceResponsePartition) : Prop :=
  in_s 32 (prp_partition_index p) ∧ in_s 16 (prp_error_code p) ∧ in_s 64 (prp_base_offset p) ∧
  in_s 64 (prp_log_append_time_ms p) ∧ in_s 64 (prp_log_start_offset p) ∧
  fits32 (prp_record_errors p) ∧ Forall (in_s 32) (prp_record_errors p) ∧
  opt_fits (prp_error_message p).
Definition produce_topic_wf (t : ProduceResponseTopic) : Prop :=
  fits32 (prt_name t) ∧ fits32 (prt_partitions t) ∧ Forall produce_partition_wf (prt_partitions t).
Definition produce_response_wf (r : ProduceResponse) : Prop :=
  fits32 (pr_topics r) ∧ Forall produce_topic_wf (pr_topics r) ∧ in_s 32 (pr_throttle_time_ms r).

Definition aborted_wf (a : option (list Z)) : Prop :=
  ∀ l, a = Some l → fits32 l ∧ Forall (in_s 64) l.
Definition fetch_partition_wf (p : FetchResponsePartition) : Prop :=
  in_s 32 (frp_partition_index p) ∧ in_s 16 (frp_error_code p) ∧ in_s 64 (frp_high_watermark p) ∧
  in_s 64 (frp_last_stable_offset p) ∧ in_s 64 (frp_log_start_offset p) ∧
  aborted_wf (frp_aborted_transactions p) ∧ in_s 32 (frp_preferred_read_replica p) ∧
  opt_fits (Some (frp_records p)).
Definition fetch_topic_wf (t : FetchResponseTopic) : Prop :=
  fits32 (frt_topic t) ∧ fits32 (frt_partitions t) ∧ Forall fetch_partition_wf (frt_partitions t).
Definition fetch_response_wf (r : FetchResponse) : Prop :=
  in_s 32 (fr_throttle_time_ms r) ∧ in_s 16 (fr_error_code r) ∧ in_s 32 (fr_session_id r) ∧
  fits32 (fr_topics r) ∧ Forall fetch_topic_wf (fr_topics r).

Definition list_offsets_partition_wf (p : ListOffsetsResponsePartition) : Prop :=
  in_s 32 (lrp_partition_index p) ∧ in_s 16 (lrp_error_code p) ∧ in_s 64 (lrp_timestamp p) ∧
  in_s 64 (lrp_offset p) ∧ in_s 32 (lrp_leader_epoch p).
Definition list_offsets_topic_wf (t : ListOffsetsResponseTopic) : Prop :=
  fits32 (lrt_name t) ∧ fits32 (lrt_partitions t) ∧
  Forall list_offsets_partition_wf (lrt_partitions t).
Definition list_offsets_response_wf (r : ListOffsetsResponse) : Prop :=
  in_s 32 (lr_throttle_time_ms r) ∧ fits32 (lr_topics r) ∧ Forall list_offsets_topic_wf (lr_topics r).

(** ** The bytes of the responses *)

(** [codec P w m enc]: on the values of [P], the writer and the reader agree
    on the encoding. *)
Definition codec {A} (P : A → Prop) (w : A → Writer unit) (m : Reader A) (enc : A → bytes) : Prop :=
  ∀ x, P x → writes (w x) (enc x) ∧ reads m (enc x) x.

Lemma codec_array {A} (P : A → Prop) w m enc l :
  codec P w m enc → fits32 l → Forall P l →
  writes (write_vector l w) (enc_vector enc l) ∧ reads (client_array m) (enc_vector enc l) l.
Proof.
  intros Hc Hn Hl. split.
  - eapply writes_vector; [done|exact Hl|]. intros x Hx. by apply Hc.
  - eapply reads_client_array; [done|exact Hl|]. intros x Hx. by apply Hc.
Qed.

Lemma codec_int32 : codec (in_s 32) write_int32 read_int32 (be_bytes 4).
Proof. intros z Hz. split; [apply writes_int32|by apply reads_int32_enc]. Qed.

Lemma writes_bool b : writes (write_bool b) (enc_bool b).
Proof. done. Qed.
#[export] Hint Resolve codec_int32 writes_bool : mkmq.

(** Both halves of a [codec] fact, field by field. *)
Ltac codec_array_go := eapply codec_array; [solve [eauto with mkmq]|assumption|assumption].
Ltac codec_writes :=
  repeat match goal with
  | |- writes (mbind _ _) _ => apply writes_bind; [|cbv beta]
  | |- writes (write_vector _ _) _ => codec_array_go
  | |- writes _ _ => solve [eauto with mkmq]
  end.
Ltac codec_reads :=
  repeat match goal with
  | |- reads (client_end _) _ _ => apply reads_end
  | |- reads (mbind _ (client_array _)) _ _ => eapply reads_bind; [codec_array_go|cbv beta]
  | |- reads (mbind _ _) _ _ => eapply reads_bind; [solve [eauto with mkmq]|cbv beta]
  end.
Ltac codec_go w m :=
  let x := fresh in let H := fresh in
  intros x H; message x H; split; [unfold w; codec_writes | unfold m; codec_reads].

Definition enc_api (a : ApiVersionsResponseApi) : bytes :=
  be_bytes 2 (avra_api_key a) ++ be_bytes 2 (avra_min_version a) ++
  be_bytes 2 (avra_max_version a) ++ enc_no_tags.
Definition enc_api_versions_response (r : ApiVersionsResponse) : bytes :=
  be_bytes 2 (avr_error_code r) ++ enc_vector enc_api (avr_api_keys r) ++
  be_bytes 4 (avr_throttle_time_ms r) ++ enc_no_tags.

Lemma codec_api : codec api_wf encode_api_versions_response_api client_api enc_api.
Proof. codec_go encode_api_versions_response_api client_api. Qed.
#[export] Hint Resolve codec_api : mkmq.

Definition enc_metadata_broker (b : MetadataResponseBroker) : bytes :=
  be_bytes 4 (mdb_node_id b) ++ enc_compact_string (mdb_host b) ++ be_bytes 4 (mdb_port b) ++
  enc_compact_nullable (mdb_rack b) ++ enc_no_tags.
Definition enc_metadata_partition (p : MetadataResponsePartition) : bytes :=
  be_bytes 2 (mdp_error_code p) ++ be_bytes 4 (mdp_partition_index p) ++
  be_bytes 4 (mdp_leader_id p) ++ be_bytes 4 (mdp_leader_epoch p) ++
  enc_vector (be_bytes 4) (mdp_replica_nodes p) ++ enc_vector (be_bytes 4) (mdp_isr_nodes p) ++
  enc_vector (be_bytes 4) (mdp_offline_replicas p) ++ enc_no_tags.
Definition enc_metadata_topic (t : MetadataResponseTopic) : bytes :=
  be_bytes 2 (mdt_error_code t) ++ enc_compact_string (mdt_name t) ++
  enc_bool (mdt_is_internal t) ++ enc_vector enc_metadata_partition (mdt_partitions t) ++
  be_bytes 4 (mdt_topic_authorized_operations t) ++ enc_no_tags.
Definition enc_metadata_response (r : MetadataResponse) : bytes :=
  be_bytes 4 (mdr_throttle_time_ms r) ++ enc_vector enc_metadata_broker (mdr_brokers r) ++
  enc_compact_nullable (mdr_cluster_id r) ++ be_bytes 4 (mdr_controller_id r) ++
  enc_vector enc_metadata_topic (mdr_topics r) ++
  be_bytes 4 (mdr_cluster_authorized_operations r) ++ enc_no_tags.

Lemma codec_metadata_broker :
  codec metadata_broker_wf encode_metadata_response_broker client_metadata_broker enc_metadata_broker.
Proof. codec_go encode_metadata_response_broker client_metadata_broker. Qed.
Lemma codec_metadata_partition :
  codec metadata_partition_wf encode_metadata_response_partition client_metadata_partition
    enc_metadata_partition.
Proof. codec_go encode_metadata_response_partition client_metadata_partition. Qed.
#[export] Hint Resolve codec_metadata_broker codec_metadata_partition : mkmq.
Lemma codec_metadata_topic :
  codec metadata_topic_wf encode_metadata_response_topic client_metadata_topic enc_metadata_topic.
Proof. codec_go encode_metadata_response_topic client_metadata_topic. Qed.
#[export] Hint Resolve codec_metadata_topic : mkmq.

Definition enc_record_error (i : Z) : bytes := be_bytes 4 i ++ enc_compact_nullable None ++ enc_no_tags.
Definition enc_produce_partition (p : ProduceResponsePartition) : bytes :=
  be_bytes 4 (prp_partition_index p) ++ be_bytes 2 (prp_error_code p) ++
  be_bytes 8 (prp_base_offset p) ++ be_bytes 8 (prp_log_append_time_ms p) ++
  be_bytes 8 (prp_log_start_offset p) ++ enc_vector enc_record_error (prp_record_errors p) ++
  enc_compact_nullable (prp_error_message p) ++ enc_no_tags.
Definition enc_produce_topic (t : ProduceResponseTopic) : bytes :=
  enc_compact_string (prt_name t) ++ enc_vector enc_produce_partition (prt_partitions t) ++ enc_no_tags.
Definition enc_produce_response (r : ProduceResponse) : bytes :=
  enc_vector enc_produce_topic (pr_topics r) ++ be_bytes 4 (pr_throttle_time_ms r) ++ enc_no_tags.

Lemma opt_fits_none {A} : opt_fits (@None (list A)).
Proof. by intros ? [=]. Qed.
#[export] Hint Resolve opt_fits_none : mkmq.
Lemma codec_record_error :
  codec (in_s 32)
    (λ error, write_int32 error;; write_compact_nullable_string None;; write_empty_tagged_fields)
    client_record_error enc_record_error.
Proof.
  intros i Hi. split; [codec_writes|].
  unfold client_record_error, enc_record_error. codec_reads.
  eapply reads_bind; [apply reads_compact_nullable_string, opt_fits_none|]. apply reads_end.
Qed.
#[export] Hint Resolve codec_record_error : mkmq.
Lemma codec_produce_partition :
  codec produce_partition_wf encode_produce_response_partition client_produce_partition
    enc_produce_partition.
Proof. codec_go encode_produce_response_partition client_produce_partition. Qed.
#[export] Hint Resolve codec_produce_partition : mkmq.
Lemma codec_produce_topic :
  codec produce_topic_wf encode_produce_response_topic client_produce_topic enc_produce_topic.
Proof. codec_go encode_produce_response_topic client_produce_topic. Qed.
#[export] Hint Resolve codec_produce_topic : mkmq.

Definition enc_aborted (id : Z) : bytes := be_bytes 8 id ++ be_bytes 8 (-1) ++ enc_no_tags.
Definition enc_aborted_list (a : option (list Z)) : bytes :=
  match a with None => uvarint 0 | Some l => enc_vector enc_aborted l end.
Definition enc_fetch_partition (p : FetchResponsePartition) : bytes :=
  be_bytes 4 (frp_partition_index p) ++ be_bytes 2 (frp_error_code p) ++
  be_bytes 8 (frp_high_watermark p) ++ be_bytes 8 (frp_last_stable_offset p) ++
  be_bytes 8 (frp_log_start_offset p) ++ enc_aborted_list (frp_aborted_transactions p) ++
  be_bytes 4 (frp_preferred_read_replica p) ++ enc_compact_nullable (Some (frp_records p)) ++
  enc_no_tags.
Definition enc_fetch_topic (t : FetchResponseTopic) : bytes :=
  enc_compact_string (frt_topic t) ++ enc_vector enc_fetch_partition (frt_partitions t) ++ enc_no_tags.
Definition enc_fetch_response (r : FetchResponse) : bytes :=
  be_bytes 4 (fr_throttle_time_ms r) ++ be_bytes 2 (fr_error_code r) ++
  be_bytes 4 (fr_session_id r) ++ enc_vector enc_fetch_topic (fr_topics r) ++ enc_no_tags.

Lemma codec_aborted :
  codec (in_s 64) (λ id, write_int64 id;; write_int64 (-1);; write_empty_tagged_fields)
    client_aborted enc_aborted.
Proof.
  intros i Hi. split; [codec_writes|]. unfold client_aborted, enc_aborted.
  codec_reads. eapply reads_bind; [by apply reads_int64_enc|]. apply reads_end.
Qed.
#[export] Hint Resolve codec_aborted : mkmq.
Lemma codec_aborted_list :
  codec aborted_wf (λ a, match a with
    | None => write_nullable_array_count (-1) true
    | Some ids => write_vector ids (λ id, write_int64 id;; write_int64 (-1);; write_empty_tagged_fields)
    end) client_aborted_list enc_aborted_list.
Proof.
  intros [l|] Hwf.
  - destruct (Hwf l eq_refl) as [Hl Hall]. split; [codec_writes|].
    unfold client_aborted_list. simpl. unfold enc_vector. eapply reads_bind; [by apply reads_count|].
    pose proof (zlen_nonneg l). bcase; [lia|]. apply (reads_bind_ret _ Some).
    eapply reads_vector; [exact Hall|]. intros. by apply codec_aborted.
  - split; [by apply writes_uvarint|]. unfold client_aborted_list, enc_aborted_list.
    rewrite <- (app_nil_r (uvarint 0)). eapply reads_bind; [apply reads_null_count|]. apply reads_ret.
Qed.
Lemma codec_fetch_partition :
  codec fetch_partition_wf encode_fetch_response_partition client_fetch_partition enc_fetch_partition.
Proof.
  intros p H. message p H. split.
  - unfold encode_fetch_response_partition. codec_writes. by apply codec_aborted_list.
  - unfold client_fetch_partition. codec_reads.
    eapply reads_bind; [by apply codec_aborted_list|]. codec_reads.
Qed.
#[export] Hint Resolve codec_fetch_partition : mkmq.
Lemma codec_fetch_topic :
  codec fetch_topic_wf encode_fetch_response_topic client_fetch_topic enc_fetch_topic.
Proof. codec_go encode_fetch_response_topic client_fetch_topic. Qed.
#[export] Hint Resolve codec_fetch_topic : mkmq.

Definition enc_list_offsets_partition (p : ListOffsetsResponsePartition) : bytes :=
  be_bytes 4 (lrp_partition_index p) ++ be_bytes 2 (lrp_error_code p) ++
  be_bytes 8 (lrp_timestamp p) ++ be_bytes 8 (lrp_offset p) ++ be_bytes 4 (lrp_leader_epoch p) ++
  enc_no_tags.
Definition enc_list_offsets_topic (t : ListOffsetsResponseTopic) : bytes :=
  enc_compact_string (lrt_name t) ++ enc_vector enc_list_offsets_partition (lrt_partitions t) ++
  enc_no_tags.
Definition enc_list_offsets_response (r : ListOffsetsResponse) : bytes :=
  be_bytes 4 (lr_throttle_time_ms r) ++ enc_vector enc_list_offsets_topic (lr_topics r) ++ enc_no_tags.

Lemma codec_list_offsets_partition :
  codec list_offsets_partition_wf encode_list_offsets_response_partition
    client_list_offsets_partition enc_list_offsets_partition.
Proof. codec_go encode_list_offsets_response_partition client_list_offsets_partition. Qed.
#[export] Hint Resolve codec_list_offsets_partition : mkmq.
Lemma codec_list_offsets_topic :
  codec list_offsets_topic_wf encode_list_offsets_response_topic client_list_offsets_topic
    enc_list_offsets_topic.
Proof. codec_go encode_list_offsets_response_topic client_list_offsets_topic. Qed.
#[export] Hint Resolve codec_list_offsets_topic : mkmq.

(** ** Safety of the request decoders *)

Lemma decodes_drop_loop count (body : Reader unit) :
  decodes body (λ _, True) → decodes (for_range count tt (λ _ _, body)) (λ _, True).
Proof. intros Hb. by apply decodes_for_range. Qed.

Lemma decodes_any {A} (m : Reader A) P : decodes m P → decodes m (λ _, True).
Proof. intros Hm. by eapply decodes_weaken. Qed.

Ltac safe_step :=
  lazymatch goal with
  | |- decodes (mbind _ (read_vector _ _)) _ =>
      eapply decodes_bind; [apply decodes_vector; solve [eauto with mkmq]|intros ? ?]
  | |- decodes (mbind _ (for_range _ _ _)) _ =>
      eapply decodes_bind; [apply decodes_drop_loop|intros ? ?]
  | |- decodes (mbind _ _) _ => eapply decodes_bind; [solve [eauto with mkmq]|intros ? ?]
  | |- decodes (mret _) _ => apply decodes_ret; exact I
  end; cbv beta zeta.

Definition safe {A} (m : Reader A) : Prop := decodes m (λ _, True).

Lemma safe_metadata_request_topic : decodes decode_metadata_request_topic (λ _, True).
Proof. unfold decode_metadata_request_topic. repeat safe_step. Qed.
Lemma safe_produce_request_partition : decodes decode_produce_request_partition (λ _, True).
Proof. unfold decode_produce_request_partition. repeat safe_step. Qed.
Lemma safe_fetch_request_partition : decodes decode_fetch_request_partition (λ _, True).
Proof. unfold decode_fetch_request_partition. repeat safe_step. Qed.
Lemma safe_list_offsets_request_partition :
  decodes decode_list_offsets_request_partition (λ _, True).
Proof. unfold decode_list_offsets_request_partition. repeat safe_step. Qed.
#[export] Hint Resolve safe_metadata_request_topic safe_produce_request_partition
  safe_fetch_request_partition safe_list_offsets_request_partition : mkmq.

Lemma safe_produce_request_topic : decodes decode_produce_request_topic (λ _, True).
Proof. unfold decode_produce_request_topic. repeat safe_step. Qed.
Lemma safe_fetch_request_topic : decodes decode_fetch_request_topic (λ _, True).
Proof. unfold decode_fetch_request_topic. repeat safe_step. Qed.
Lemma safe_list_offsets_request_topic : decodes decode_list_offsets_request_topic (λ _, True).
Proof. unfold decode_list_offsets_request_topic. repeat safe_step. Qed.
Lemma safe_forgotten_topic : decodes skip_forgotten_topic (λ _, True).
Proof.
  unfold skip_forgotten_topic. repeat safe_step. apply decodes_tagged_fields.
Qed.
#[export] Hint Resolve safe_produce_request_topic safe_fetch_request_topic
  safe_list_offsets_request_topic safe_forgotten_topic : mkmq.

Lemma safe_metadata_request : safe decode_metadata_request.
Proof. unfold safe, decode_metadata_request. repeat safe_step. Qed.
Lemma safe_produce_request : safe decode_produce_request.
Proof. unfold safe, decode_produce_request. repeat safe_step. Qed.
Lemma safe_fetch_request : safe decode_fetch_request.
Proof. unfold safe, decode_fetch_request. repeat safe_step. eauto with mkmq. Qed.
Lemma safe_list_offsets_request : safe decode_list_offsets_request.
Proof. unfold safe, decode_list_offsets_request. repeat safe_step. Qed.

(** ** Theorems *)

(** On any frame whatsoever, the outcome of a decoder is a value or a thrown
    exception, and the reader is left inside the frame. *)
Definition memory_safe {A} (m : Reader A) : Prop :=
  ∀ frame, zlen frame < 2 ^ 64 →
  match m (WireReader_of frame) with
  | Ok (_, r) => data_ r = frame ∧ 0 <= pos_ r <= zlen frame
  | Err e => defined e
  end.

Lemma safe_memory_safe {A} (m : Reader A) : safe m → memory_safe m.
Proof.
  intros Hm frame Hf. specialize (Hm _ (WireReader_of_wf frame Hf)).
  destruct (m _) as [[v r]|e]; [|done]. destruct Hm as (_ & (Hs & Hp & _) & Hd & _).
  simpl in Hd. split; [done|]. rewrite Hs, Hd in Hp. lia.
Qed.

(** C27: the decoders of the four request bodies are memory safe: no byte
    sequence a client can send makes one of them read outside the frame; it
    returns a request or throws. *)
Theorem request_decoders_safe :
  memory_safe decode_metadata_request ∧ memory_safe decode_produce_request ∧
  memory_safe decode_fetch_request ∧ memory_safe decode_list_offsets_request.
Proof.
  split_and!; apply safe_memory_safe; [apply safe_metadata_request|apply safe_produce_request
    |apply safe_fetch_request|apply safe_list_offsets_request].
Qed.

(** [m] recovers every well-formed message from its encoding and leaves the
    reader at the byte that follows it. *)
Definition recovers {A} (P : A → Prop) (enc : A → bytes) (m : Reader A) : Prop :=
  ∀ x tail, P x → zlen (enc x ++ tail) < 2 ^ 64 →
  ∃ r, m (WireReader_of (enc x ++ tail)) = Ok (x, r) ∧ rest r = tail.

Lemma reads_recovers {A} (P : A → Prop) enc (m : Reader A) :
  (∀ x, P x → reads m (enc x) x) → recovers P enc m.
Proof.
  intros Hm x tail HP Hlen. eexists. split; [by apply reads_buffer; [apply Hm|]|].
  by apply (moved_rest _ _ tail (enc x)); [apply WireReader_of_wf| |].
Qed.

(** C28: each request decoder inverts the schema's encoding of its message:
    every well-formed Metadata, Produce, Fetch (with any forgotten topics)
    and ListOffsets request is recovered exactly, and decoding stops at its
    last byte. *)
Theorem request_decoders_roundtrip :
  recovers metadata_request_wf enc_metadata_request decode_metadata_request ∧
  recovers produce_request_wf enc_produce_request decode_produce_request ∧
  (∀ forgotten, fits32 forgotten → Forall forgotten_topic_wf forgotten →
    recovers fetch_request_wf (λ q, enc_fetch_request q forgotten) decode_fetch_request) ∧
  recovers list_offsets_request_wf enc_list_offsets_request decode_list_offsets_request.
Proof.
  split_and!; [| |intros forgotten Hf Hfs|]; apply reads_recovers.
  - apply reads_metadata_request.
  - apply reads_produce_request.
  - intros q Hq. by apply reads_fetch_request.
  - apply reads_list_offsets_request.
Qed.

(** [encode] succeeds on every well-formed message and a client's [m] gets
    the message back. *)
Definition delivers {A} (P : A → Prop) (encode : A → result bytes) (m : Reader A) : Prop :=
  ∀ x, P x → ∃ enc, encode x = Ok enc ∧ ∀ tail, zlen (enc ++ tail) < 2 ^ 64 →
    ∃ r, m (WireReader_of (enc ++ tail)) = Ok (x, r) ∧ rest r = tail.

Lemma codec_delivers {A} (P : A → Prop) (encode : A → result bytes) (m : Reader A) enc :
  (∀ x, P x → encode x = Ok (enc x) ∧ reads m (enc x) x) → delivers P encode m.
Proof.
  intros Hc x HP. destruct (Hc x HP) as [He Hr]. exists (enc x). split; [done|]. intros tail Hlen.
  apply (reads_recovers (λ y, y = x) enc m); [by intros ? ->|done|done].
Qed.

Ltac delivers_go enc w m :=
  let x := fresh in let H := fresh in
  apply (codec_delivers _ _ _ enc); intros x H; message x H; split;
  [unfold w; apply writes_take_bytes; codec_writes | unfold m; codec_reads].

(** C29: the five response encoders never fail on well-formed responses, and
    a client that decodes their bytes by the message schemas gets exactly
    the response the broker built, with nothing of the following bytes
    consumed. *)
Theorem response_encoders_roundtrip :
  delivers api_versions_response_wf encode_api_versions_response client_api_versions_response ∧
  delivers metadata_response_wf encode_metadata_response client_metadata_response ∧
  delivers produce_response_wf encode_produce_response client_produce_response ∧
  delivers fetch_response_wf encode_fetch_response client_fetch_response ∧
  delivers list_offsets_response_wf encode_list_offsets_response client_list_offsets_response.
Proof.
  split_and!.
  - delivers_go enc_api_versions_response encode_api_versions_response client_api_versions_response.
  - delivers_go enc_metadata_response encode_metadata_response client_metadata_response.
  - delivers_go enc_produce_response encode_produce_response client_produce_response.
  - delivers_go enc_fetch_response encode_fetch_response client_fetch_response.
  - delivers_go enc_list_offsets_response encode_list_offsets_response client_list_offsets_response.
Qed.
