(* ===== verification/Crc32c.v ===== *)
(** * CRC-32C

    Models src/crc32c.cpp.  The SSE4.2 instructions behind
    [_mm_crc32_u8], [_mm_crc32_u32] and [_mm_crc32_u64] are an interface
    ([Crc32Intrinsics]); what the instruction set documents of them, that the
    wide forms accumulate the bytes of their operand in little-endian order,
    is [Crc32Laws].  [sse42] is the bitwise instance for the Castagnoli
    polynomial. *)

From Stdlib Require Import ZArith Lia.
From stdpp Require Import base tactics list numbers.
From S2P Require Import Prelude.

Local Open Scope Z_scope.

(** ** The intrinsics *)

Class Crc32Intrinsics := {
  mm_crc32_u8 : Z → Z → Z;
  mm_crc32_u32 : Z → Z → Z;
  mm_crc32_u64 : Z → Z → Z;
}.

Definition crc_bytes `{Crc32Intrinsics} (crc : Z) (bs : bytes) : Z :=
  fold_left (λ crc b, mm_crc32_u8 crc (Z_of_byte b)) bs crc.

Class Crc32Laws `{Crc32Intrinsics} : Prop := {
  mm_crc32_u8_range crc v : in_u 32 crc → in_u 8 v → in_u 32 (mm_crc32_u8 crc v);
  mm_crc32_u32_bytes crc v : in_u 32 crc → in_u 32 v →
    mm_crc32_u32 crc v = crc_bytes crc (le_bytes 4 v);
  mm_crc32_u64_bytes crc v : in_u 32 crc → in_u 64 v →
    mm_crc32_u64 crc v = crc_bytes crc (le_bytes 8 v);
}.

(** ** The checksum *)

Section crc32c.
Context `{Crc32Intrinsics}.

(** [while (size >= n) { memcpy(&word, data, n); crc = step(crc, word); ... }].
    [data] is the memory from the pointer on; every round takes [n] > 0 of
    its bytes, so [length data] rounds exhaust it. *)
Fixpoint crc_loop (n : nat) (step : Z → Z → Z) (fuel : nat)
    (data : bytes) (size crc : Z) : result (bytes * Z * Z) :=
  if size <? Z.of_nat n then Ok (data, size, crc)
  else if zlen data <? Z.of_nat n
  then Err (UndefinedBehavior (str "crc32c reads past the end of the buffer"))
  else match fuel with
  | O => Err (UndefinedBehavior (str "crc32c reads past the end of the buffer"))
  | S fuel' =>
      crc_loop n step fuel' (drop n data) (size - Z.of_nat n)
        (step crc (le_value (take n data)))
  end.

Definition crc32c (data : bytes) (size : Z) : result Z :=
  '(data, size, crc) ← crc_loop 8 mm_crc32_u64 (length data) data size 0xffffffff;
  let crc32 := u32 crc in
  '(data, size, crc32) ← crc_loop 4 mm_crc32_u32 (length data) data size crc32;
  '(data, size, crc32) ← crc_loop 1 mm_crc32_u8 (length data) data size crc32;
  mret (Z.lxor crc32 0xffffffff).

(** The byte-at-a-time definition of the checksum. *)
Definition crc32c_spec (bs : bytes) : Z := Z.lxor (crc_bytes 0xffffffff bs) 0xffffffff.

(** ** Lemmas *)

Lemma crc_bytes_app crc a b : crc_bytes crc (a ++ b) = crc_bytes (crc_bytes crc a) b.
Proof. apply fold_left_app. Qed.

Lemma le_value_range bs : in_u (8 * zlen bs) (le_value bs).
Proof.
  unfold in_u. induction bs as [|b bs IH]; [done|]. cbn [le_value].
  rewrite zlen_cons, Z.mul_add_distr_l, Z.pow_add_r by (pose proof (zlen_nonneg bs); lia).
  pose proof (Z_of_byte_range b). change (2 ^ (8 * 1)) with 256. lia.
Qed.

Lemma le_bytes_value bs : le_bytes (length bs) (le_value bs) = bs.
Proof.
  induction bs as [|b bs IH]; [done|]. cbn [length le_bytes le_value].
  pose proof (Z_of_byte_range b). f_equal.
  - apply Z_of_byte_inj. rewrite Z_of_byte_of_Z, Z.mul_comm, Z.mod_add, Z.mod_small by lia. done.
  - rewrite Z.shiftr_div_pow2 by lia. change (2 ^ 8) with 256.
    rewrite Z.mul_comm, Z.div_add, Z.div_small by lia. exact IH.
Qed.

Context `{!Crc32Laws}.

Lemma crc_bytes_range crc bs : in_u 32 crc → in_u 32 (crc_bytes crc bs).
Proof.
  revert crc. induction bs as [|b bs IH]; intros crc Hc; [done|]. apply IH.
  apply mm_crc32_u8_range; [done|]. unfold in_u. pose proof (Z_of_byte_range b). lia.
Qed.

(** [step] accumulates the [n] bytes of its word. *)
Definition accumulates (n : nat) (step : Z → Z → Z) : Prop :=
  ∀ crc bs, in_u 32 crc → length bs = n → step crc (le_value bs) = crc_bytes crc bs.

Lemma accumulates_u8 : accumulates 1 mm_crc32_u8.
Proof.
  intros crc [|b [|]] Hc Hl; try done. cbn [le_value]. by rewrite Z.mul_0_r, Z.add_0_r.
Qed.
Lemma accumulates_u32 : accumulates 4 mm_crc32_u32.
Proof.
  intros crc bs Hc Hl. pose proof (le_value_range bs) as Hr. unfold zlen in Hr. rewrite Hl in Hr.
  rewrite mm_crc32_u32_bytes by done. by rewrite <- Hl, le_bytes_value.
Qed.
Lemma accumulates_u64 : accumulates 8 mm_crc32_u64.
Proof.
  intros crc bs Hc Hl. pose proof (le_value_range bs) as Hr. unfold zlen in Hr. rewrite Hl in Hr.
  rewrite mm_crc32_u64_bytes by done. by rewrite <- Hl, le_bytes_value.
Qed.

(** A loop of [n]-byte words consumes a prefix of the range and leaves less
    than a word of it. *)
Lemma crc_loop_spec n step fuel data size crc :
  (0 < n)%nat → accumulates n step → in_u 32 crc → (length data <= fuel)%nat →
  0 <= size <= zlen data →
  ∃ pre, crc_loop n step fuel data size crc
    = Ok (drop (length pre) data, size - zlen pre, crc_bytes crc pre) ∧
    pre = take (length pre) data ∧ 0 <= size - zlen pre < Z.of_nat n.
Proof.
  intros Hn Hstep. revert data size crc. induction fuel as [|fuel IH]; intros data size crc Hc Hf Hs.
  - destruct data; [|simpl in Hf; lia]. unfold zlen in Hs. simpl in Hs.
    exists []. simpl. destruct (Z.ltb_spec size (Z.of_nat n)); [|lia]. rewrite Z.sub_0_r. split_and!; (done || lia).
  - cbn [crc_loop]. destruct (Z.ltb_spec size (Z.of_nat n)) as [Hlt|Hge].
    { exists []. rewrite Z.sub_0_r. split_and!; (done || lia). }
    destruct (Z.ltb_spec (zlen data) (Z.of_nat n)) as [|Hd]; [lia|].
    assert (length (take n data) = n) as Htake by (rewrite length_take; unfold zlen in *; lia).
    assert (zlen (take n data) = Z.of_nat n) as Hz by (unfold zlen; lia).
    rewrite Hstep by done. unfold zlen in Hs, Hd.
    destruct (IH (drop n data) (size - Z.of_nat n) (crc_bytes crc (take n data)))
      as (pre & Heq & Hpre & Hrem);
      [by apply crc_bytes_range|rewrite length_drop; lia|unfold zlen; rewrite length_drop; lia|].
    exists (take n data ++ pre). rewrite length_app, Htake, zlen_app, Hz. split_and!.
    + rewrite Heq, drop_drop, crc_bytes_app. do 2 f_equal. f_equal. lia.
    + rewrite <- take_take_drop. f_equal. done.
    + lia.
    + lia.
Qed.

Lemma crc32c_prefix data size :
  0 <= size <= zlen data → crc32c data size = Ok (crc32c_spec (take (Z.to_nat size) data)).
Proof.
  intros Hs. unfold crc32c.
  destruct (crc_loop_spec 8 mm_crc32_u64 (length data) data size 0xffffffff)
    as (p8 & -> & Hp8 & Hr8); [lia|apply accumulates_u64|done|lia|done|].
  assert (length p8 <= length data)%nat
    by (apply (f_equal length) in Hp8; rewrite length_take in Hp8; lia).
  cbn [mbind result_bind]. rewrite (wrap_u_id 32) by (by apply crc_bytes_range).
  set (d4 := drop (length p8) data).
  assert (zlen d4 = zlen data - zlen p8) as Hd4 by (unfold d4, zlen in *; rewrite length_drop; lia).
  destruct (crc_loop_spec 4 mm_crc32_u32 (length d4) d4 (size - zlen p8) (crc_bytes 0xffffffff p8))
    as (p4 & -> & Hp4 & Hr4); [lia|apply accumulates_u32|by apply crc_bytes_range|lia|lia|].
  assert (length p4 <= length d4)%nat
    by (apply (f_equal length) in Hp4; rewrite length_take in Hp4; lia).
  cbn [mbind result_bind]. set (d1 := drop (length p4) d4).
  assert (zlen d1 = zlen d4 - zlen p4) as Hd1 by (unfold d1, zlen in *; rewrite length_drop; lia).
  destruct (crc_loop_spec 1 mm_crc32_u8 (length d1) d1 (size - zlen p8 - zlen p4)
    (crc_bytes (crc_bytes 0xffffffff p8) p4))
    as (p1 & -> & Hp1 & Hr1); [lia|apply accumulates_u8|by apply crc_bytes_range, crc_bytes_range|lia|lia|].
  cbn [mbind result_bind mret result_ret]. unfold crc32c_spec. rewrite <- !crc_bytes_app.
  assert (p8 ++ p4 ++ p1 = take (Z.to_nat size) data) as ->; [|done].
  replace (Z.to_nat size) with (length p8 + (length p4 + length p1))%nat
    by (unfold zlen in *; lia).
  rewrite <- !take_take_drop. fold d4. fold d1. by rewrite <- Hp1, <- Hp4, <- Hp8.
Qed.
End crc32c.

(** ** The Castagnoli polynomial, bit by bit *)

Fixpoint crc_shift (rounds : nat) (t : Z) : Z :=
  match rounds with
  | O => t
  | S rounds' =>
      crc_shift rounds'
        (if Z.odd t then Z.lxor (Z.shiftr t 1) 0x82f63b78 else Z.shiftr t 1)
  end.
Definition crc_u8 (crc v : Z) : Z := crc_shift 8 (Z.lxor crc v).

#[global] Instance sse42 : Crc32Intrinsics := {|
  mm_crc32_u8 := crc_u8;
  mm_crc32_u32 crc v := fold_left (λ crc b, crc_u8 crc (Z_of_byte b)) (le_bytes 4 v) crc;
  mm_crc32_u64 crc v := fold_left (λ crc b, crc_u8 crc (Z_of_byte b)) (le_bytes 8 v) crc;
|}.

Lemma lxor_range a b k : 0 <= k → in_u k a → in_u k b → in_u k (Z.lxor a b).
Proof.
  unfold in_u. intros Hk Ha Hb.
  assert (Z.lxor a b = Z.lxor a b mod 2 ^ k) as ->.
  { apply Z.bits_inj'. intros n Hn. destruct (Z.ltb_spec n k).
    - by rewrite Z.mod_pow2_bits_low.
    - rewrite Z.mod_pow2_bits_high, Z.lxor_spec by lia.
      by rewrite !(testbit_high _ k) by lia. }
  apply Z.mod_pos_bound. by apply pow2_pos.
Qed.

Lemma crc_shift_range rounds t : in_u 32 t → in_u 32 (crc_shift rounds t).
Proof.
  revert t. induction rounds as [|rounds IH]; intros t Ht; [done|]. cbn [crc_shift]. apply IH.
  assert (in_u 32 (Z.shiftr t 1)).
  { rewrite Z.shiftr_div_pow2 by lia. unfold in_u in *. change (2 ^ 1) with 2.
    split; [apply Z.div_pos; lia|apply Z.div_lt_upper_bound; lia]. }
  destruct (Z.odd t); [|done]. apply lxor_range; [lia|done|done].
Qed.

#[global] Instance sse42_laws : Crc32Laws.
Proof.
  split; cbv [mm_crc32_u8 mm_crc32_u32 mm_crc32_u64 sse42 crc_bytes];
    [|intros; reflexivity|intros; reflexivity]. intros crc v Hc Hv. apply crc_shift_range, lxor_range; [lia|done|].
  unfold in_u in *. lia.
Qed.

(** ** Theorems *)

(** C36: whatever the hardware's intrinsics, as long as their wide forms
    accumulate bytes in little-endian order, the eight-, four- and one-byte
    loops of [crc32c] compute the byte-at-a-time checksum of the range, and
    read nothing outside it. *)
Theorem crc32c_bytewise `{Crc32Laws} (data : bytes) (size : Z) :
  0 <= size <= zlen data →
  crc32c data size = Ok (crc32c_spec (take (Z.to_nat size) data)).
Proof. intros Hs. by apply crc32c_prefix. Qed.

Lemma crc32c_bytewise_witness :
  crc32c (str "123456789 and more") 9 = Ok 0xe3069283 ∧
  crc32c (str "123456789 and more") 9 = Ok (crc32c_spec (take (Z.to_nat 9) (str "123456789 and more"))).
Proof.
  split; [vm_compute; reflexivity|].
  apply (crc32c_bytewise (str "123456789 and more") 9). vm_compute. split; discriminate.
Defined.
