(* ===== verification/RecordBatch.v ===== *)
(** * Record batches

    Models the record-batch code the broker runs on the bytes of a produce
    request: [read_i32_be], [write_i64_be], [has_idempotent_record_batch] and
    [rewrite_record_batch_offsets] of src/kafka_protocol.cpp, and
    [PartitionLogShard::estimate_record_count] of src/partition_log_shard.cpp.

    A batch is 8 bytes of base offset, 4 of length (of what follows them), 4
    of leader epoch, the magic byte, 4 of checksum, and from byte 21 on the
    checksummed part, with the last offset delta at byte 23. *)

From Stdlib Require Import ZArith Lia.
From stdpp Require Import base tactics list numbers option.
From S2P Require Import Prelude Wire Crc32c.

Local Open Scope Z_scope.

(** ** A vector of bytes, indexed *)

Abbreviation Vec := (ST bytes).

(** [v[pos]] and [v[pos] = static_cast<uint8_t>(z)]: undefined outside. *)
Definition vec_at (pos : Z) : Vec Z := λ v,
  match v !! Z.to_nat pos with
  | Some b => Ok (Z_of_byte b, v)
  | None => Err (UndefinedBehavior (str "vector index out of range"))
  end.
Definition vec_set (pos z : Z) : Vec unit := λ v,
  if pos <? zlen v then Ok (tt, <[Z.to_nat pos := byte_of_Z z]> v)
  else Err (UndefinedBehavior (str "vector index out of range")).

Definition write_i32_be (pos value : Z) : Vec unit :=
  let raw := u32 value in
  vec_set pos (Z.land (Z.shiftr raw 24) 0xff);;
  vec_set (pos + 1) (Z.land (Z.shiftr raw 16) 0xff);;
  vec_set (pos + 2) (Z.land (Z.shiftr raw 8) 0xff);;
  vec_set (pos + 3) (Z.land raw 0xff).

(** [for (shift : shifts) out[pos++] = (raw >> shift) & 0xff]. *)
Fixpoint write_shifted (pos raw : Z) (shifts : list Z) : Vec unit :=
  match shifts with
  | [] => mret tt
  | shift :: shifts' =>
      vec_set pos (Z.land (Z.shiftr raw shift) 0xff);;
      write_shifted (pos + 1) raw shifts'
  end.
Definition write_i64_be (pos value : Z) : Vec unit :=
  write_shifted pos (u64 value) [56; 48; 40; 32; 24; 16; 8; 0].

(** The four bytes at [pos], most significant first. *)
Definition read_u32_be (pos : Z) : Vec Z :=
  b0 ← vec_at pos; b1 ← vec_at (pos + 1); b2 ← vec_at (pos + 2); b3 ← vec_at (pos + 3);
  mret (Z.lor (Z.lor (Z.lor (u32 (Z.shiftl b0 24)) (u32 (Z.shiftl b1 16)))
                     (u32 (Z.shiftl b2 8))) b3).
Definition read_i32_be (pos : Z) : Vec Z := v ← read_u32_be pos; mret (i32 v).

Definition read_i64_be_at (pos : Z) : Vec Z :=
  raw ← for_range 8 0 (λ i raw,
    b ← vec_at (pos + i); mret (Z.lor (u64 (Z.shiftl raw 8)) b));
  mret (i64 raw).

Definition read_i16_be_at (pos : Z) : Vec Z :=
  b0 ← vec_at pos; b1 ← vec_at (pos + 1);
  mret (i16 (Z.lor (Z.shiftl b0 8) b1)).

(** ** The three walks over the batches *)

(** Every walk moves on by at least 13 bytes per round, so [length records]
    rounds are enough; running out is reported as an error no theorem below
    allows. *)
Definition out_of_rounds {A} : Vec A := throw (UndefinedBehavior (str "out of rounds")).

Fixpoint idempotent_loop (fuel : nat) (pos : Z) : Vec bool :=
  match fuel with
  | O => out_of_rounds
  | S fuel' =>
      size ← gets zlen;
      if pos + 61 <=? size then
        batch_length ← read_i32_be (pos + 8);
        if batch_length <=? 0 then mret false
        else
          let total_batch_size := batch_length + 12 in
          if pos + total_batch_size >? size then mret false
          else
            producer_id ← read_i64_be_at (pos + 43);
            producer_epoch ← read_i16_be_at (pos + 51);
            base_sequence ← read_i32_be (pos + 53);
            if negb (producer_id =? -1) || negb (producer_epoch =? -1) || negb (base_sequence =? -1)
            then mret true
            else idempotent_loop fuel' (pos + total_batch_size)
      else mret false
  end.
Definition has_idempotent_record_batch : Vec bool :=
  n ← gets (λ records, length records); idempotent_loop (S n) 0.

Fixpoint count_loop (fuel : nat) (total pos : Z) : Vec Z :=
  match fuel with
  | O => out_of_rounds
  | S fuel' =>
      size ← gets zlen;
      if pos + 27 <=? size then
        batch_length ← read_u32_be (pos + 8);
        let total_batch_size := batch_length + 12 in
        if (batch_length =? 0) || (pos + total_batch_size >? size) then mret total
        else
          last_offset_delta ← read_i32_be (pos + 23);
          total' ← add_i64 total (Z.max 1 (last_offset_delta + 1));
          count_loop fuel' total' (pos + total_batch_size)
      else mret total
  end.
Definition estimate_record_count : Vec Z :=
  n ← gets (λ records, length records);
  if Nat.eqb n 0 then mret 0
  else
    total ← count_loop (S n) 0 0;
    mret (if total =? 0 then 1 else total).

Section rewrite.
Context `{Crc32Intrinsics}.

(** [crc32c(records.data() + pos, size)]. *)
Definition crc32c_at (pos size : Z) : Vec Z := λ records,
  match crc32c (drop (Z.to_nat pos) records) size with
  | Ok crc => Ok (crc, records)
  | Err e => Err e
  end.

Fixpoint rewrite_loop (fuel : nat) (pos next_base : Z) : Vec unit :=
  match fuel with
  | O => out_of_rounds
  | S fuel' =>
      size ← gets zlen;
      if pos + 57 <=? size then
        batch_length ← read_i32_be (pos + 8);
        if batch_length <=? 0 then mret tt
        else
          let batch_size := batch_length + 12 in
          if pos + batch_size >? size then mret tt
          else
            write_i64_be pos next_base;;
            crc ← crc32c_at (pos + 21) (u64 (batch_size - 21));
            write_i32_be (pos + 17) (i32 crc);;
            last_offset_delta ← read_i32_be (pos + 23);
            next_base' ← add_i64 next_base (Z.max 1 (last_offset_delta + 1));
            rewrite_loop fuel' (pos + batch_size) next_base'
      else mret tt
  end.
Definition rewrite_record_batch_offsets (records : bytes) (base_offset : Z) : result bytes :=
  match rewrite_loop (S (length records)) 0 base_offset records with
  | Ok (_, records') => Ok records'
  | Err e => Err e
  end.
End rewrite.

(** ** Batches as data *)

Definition slice (off n : nat) (b : bytes) : bytes := take n (drop off b).
Definition batch_length (b : bytes) : Z := be_value (slice 8 4 b).
Definition last_offset_delta (b : bytes) : Z := i32 (be_value (slice 23 4 b)).
Definition batch_count (b : bytes) : Z := Z.max 1 (last_offset_delta b + 1).

(** A batch with a whole header, whose length field is its length. *)
Definition batch_ok (b : bytes) : Prop :=
  61 <= zlen b < 2 ^ 31 ∧ batch_length b = zlen b - 12.
(** What a walk that needs [n] header bytes stops at: nothing, a truncated
    header, or a truncated batch. *)
Definition stops (n : Z) (tail : bytes) : Prop :=
  zlen tail < n ∨ batch_length tail = 0 ∨ zlen tail < batch_length tail + 12.

Definition total_count (bs : list bytes) : Z := foldr (λ b n, batch_count b + n) 0 bs.

(** The batch at offset [base], with a fresh checksum. *)
Definition rebased `{Crc32Intrinsics} (base : Z) (b : bytes) : bytes :=
  be_bytes 8 base ++ slice 8 9 b ++ be_bytes 4 (crc32c_spec (drop 21 b)) ++ drop 21 b.
Fixpoint rebased_all `{Crc32Intrinsics} (base : Z) (bs : list bytes) : list bytes :=
  match bs with
  | [] => []
  | b :: bs' => rebased base b :: rebased_all (base + batch_count b) bs'
  end.

(** ** Lemmas: reads and writes inside a vector *)

Lemma length_slice off n b : (off + n <= length b)%nat → length (slice off n b) = n.
Proof. intros. unfold slice. rewrite length_take, length_drop. lia. Qed.

Lemma lookup_slice off n b i : (i < n)%nat → slice off n b !! i = b !! (off + i)%nat.
Proof. intros. unfold slice. by rewrite lookup_take_lt, lookup_drop. Qed.

Lemma slice_app_l off n b post : (off + n <= length b)%nat → slice off n (b ++ post) = slice off n b.
Proof.
  intros. unfold slice. rewrite drop_app_le by lia.
  rewrite take_app_le; [done|]. rewrite length_drop. lia.
Qed.

Lemma slice_drop off n k b : slice (k + off) n b = slice off n (drop k b).
Proof. unfold slice. by rewrite drop_drop. Qed.

Lemma vec_at_app pre rest k b :
  rest !! k = Some b → vec_at (zlen pre + Z.of_nat k) (pre ++ rest) = Ok (Z_of_byte b, pre ++ rest).
Proof.
  intros Hk. unfold vec_at, zlen.
  replace (Z.to_nat (Z.of_nat (length pre) + Z.of_nat k)) with (length pre + k)%nat by lia.
  by rewrite lookup_app_r, Nat.add_comm, Nat.add_sub, Hk by lia.
Qed.

Lemma vec_set_app pre b post z :
  vec_set (zlen pre) z (pre ++ b :: post) = Ok (tt, pre ++ byte_of_Z z :: post).
Proof.
  unfold vec_set. rewrite zlen_app, zlen_cons. pose proof (zlen_nonneg post).
  bcase; [|lia]. unfold zlen. rewrite Nat2Z.id.
  rewrite insert_app_r_alt, Nat.sub_diag by lia. done.
Qed.

(** One indexed read of a slice that is known byte by byte. *)
Ltac vec_byte pre rest k b :=
  rewrite (st_bind_ok (vec_at _) _ (pre ++ rest) (Z_of_byte b) (pre ++ rest))
    by (replace (zlen pre + Z.of_nat _ + _) with (zlen pre + Z.of_nat k) by lia;
        apply vec_at_app; assumption).

Lemma read_u32_be_ok pre rest k :
  (k + 4 <= length rest)%nat →
  read_u32_be (zlen pre + Z.of_nat k) (pre ++ rest) = Ok (be_value (slice k 4 rest), pre ++ rest).
Proof.
  intros Hk. pose proof (length_slice k 4 rest Hk) as Hl.
  pose proof (lookup_slice k 4 rest) as Hs.
  destruct (slice k 4 rest) as [|b0 [|b1 [|b2 [|b3 [|]]]]]; try done.
  pose proof (Hs 0%nat ltac:(lia)) as H0. pose proof (Hs 1%nat ltac:(lia)) as H1.
  pose proof (Hs 2%nat ltac:(lia)) as H2. pose proof (Hs 3%nat ltac:(lia)) as H3.
  simpl in H0, H1, H2, H3. symmetry in H0, H1, H2, H3. rewrite Nat.add_0_r in H0.
  unfold read_u32_be.
  rewrite (st_bind_ok (vec_at _) _ _ _ _ (vec_at_app pre rest k b0 H0)).
  vec_byte pre rest (k + 1)%nat b1. vec_byte pre rest (k + 2)%nat b2.
  vec_byte pre rest (k + 3)%nat b3. by rewrite lor_be4.
Qed.

Lemma read_i32_be_ok pre rest k :
  (k + 4 <= length rest)%nat →
  read_i32_be (zlen pre + Z.of_nat k) (pre ++ rest) = Ok (i32 (be_value (slice k 4 rest)), pre ++ rest).
Proof. intros Hk. unfold read_i32_be. by rewrite (st_bind_ok _ _ _ _ _ (read_u32_be_ok pre rest k Hk)). Qed.

Lemma read_i16_be_ok pre rest k :
  (k + 2 <= length rest)%nat →
  read_i16_be_at (zlen pre + Z.of_nat k) (pre ++ rest) = Ok (i16 (be_value (slice k 2 rest)), pre ++ rest).
Proof.
  intros Hk. pose proof (length_slice k 2 rest Hk) as Hl.
  pose proof (lookup_slice k 2 rest) as Hs. destruct (slice k 2 rest) as [|b0 [|b1 [|]]]; try done.
  pose proof (Hs 0%nat ltac:(lia)) as H0. pose proof (Hs 1%nat ltac:(lia)) as H1.
  simpl in H0, H1. symmetry in H0, H1. rewrite Nat.add_0_r in H0. unfold read_i16_be_at.
  rewrite (st_bind_ok (vec_at _) _ _ _ _ (vec_at_app pre rest k b0 H0)).
  vec_byte pre rest (k + 1)%nat b1. unfold mret, ST_ret. by rewrite <- lor_be2, wrap_s_of_u.
Qed.

Lemma read_i64_loop pre rest k bs (i : nat) acc :
  (∀ j b, bs !! j = Some b → rest !! (k + i + j)%nat = Some b) →
  for_nat (length bs) (Z.of_nat i) (λ i raw,
    b ← vec_at (zlen pre + Z.of_nat k + i); mret (Z.lor (u64 (Z.shiftl raw 8)) b)) acc (pre ++ rest)
  = Ok (fold_left (λ acc b, Z.lor (u64 (Z.shiftl acc 8)) (Z_of_byte b)) bs acc, pre ++ rest).
Proof.
  revert i acc. induction bs as [|b bs IH]; intros i acc Hbs; [done|].
  cbn [length for_nat fold_left].
  rewrite (st_bind_ok _ _ (pre ++ rest) (Z.lor (u64 (Z.shiftl acc 8)) (Z_of_byte b)) (pre ++ rest)).
  - replace (Z.of_nat i + 1) with (Z.of_nat (S i)) by lia. apply IH. intros j b' Hj.
    replace (k + S i + j)%nat with (k + i + S j)%nat by lia. by apply Hbs.
  - rewrite (st_bind_ok _ _ (pre ++ rest) (Z_of_byte b) (pre ++ rest)); [done|].
    replace (zlen pre + Z.of_nat k + Z.of_nat i) with (zlen pre + Z.of_nat (k + i)) by lia.
    apply vec_at_app. rewrite <- (Nat.add_0_r (k + i)). by apply Hbs.
Qed.

Lemma read_i64_be_ok pre rest k :
  (k + 8 <= length rest)%nat →
  read_i64_be_at (zlen pre + Z.of_nat k) (pre ++ rest) = Ok (i64 (be_value (slice k 8 rest)), pre ++ rest).
Proof.
  intros Hk. pose proof (length_slice k 8 rest Hk) as Hl. unfold read_i64_be_at.
  rewrite (st_bind_ok _ _ (pre ++ rest) (be_value (slice k 8 rest)) (pre ++ rest)); [done|].
  rewrite for_range_nat. change (Z.to_nat 8) with 8%nat.
  pose proof (read_i64_loop pre rest k (slice k 8 rest) 0 0) as Hloop.
  rewrite Hl in Hloop. change (Z.of_nat 0) with 0 in Hloop. rewrite Hloop.
  - unfold be_value. by rewrite (int64_fold _ 0 0) by (simpl; lia).
  - intros j b Hj. pose proof (lookup_lt_Some _ _ _ Hj). rewrite Nat.add_0_r.
    rewrite <- (lookup_slice k 8) by lia. done.
Qed.

Lemma write_shifted_ok w z pre old post shifts :
  length old = length shifts → Forall (λ k, 0 <= k ∧ k + 8 <= w) shifts →
  write_shifted (zlen pre) (wrap_u w z) shifts (pre ++ old ++ post)
  = Ok (tt, pre ++ map (λ k, byte_of_Z (Z.shiftr z k)) shifts ++ post).
Proof.
  revert pre old. induction shifts as [|k shifts IH]; intros pre [|b old] Hl Hs; try done.
  apply Forall_cons_1 in Hs as [[Hk Hw] Hs]. cbn [write_shifted map app].
  rewrite (st_bind_ok _ _ _ _ _ (vec_set_app pre b (old ++ post) _)).
  rewrite byte_of_Z_land, byte_of_Z_shiftr_wrap by done.
  replace (zlen pre + 1) with (zlen (pre ++ [byte_of_Z (Z.shiftr z k)]))
    by (rewrite zlen_app; done).
  rewrite (cons_middle _ pre (old ++ post)), (app_assoc pre).
  rewrite IH by (done || (simpl in Hl; lia)). by rewrite <- app_assoc.
Qed.

Lemma write_i64_be_ok z pre old post :
  length old = 8%nat →
  write_i64_be (zlen pre) z (pre ++ old ++ post) = Ok (tt, pre ++ be_bytes 8 z ++ post).
Proof.
  intros Hl. unfold write_i64_be. rewrite write_shifted_ok; [done|done|repeat constructor; lia].
Qed.

Lemma write_i32_be_shifted pos z v :
  write_i32_be pos z v = write_shifted pos (u32 z) [24; 16; 8; 0] v.
Proof.
  unfold write_i32_be. cbn [write_shifted]. rewrite Z.shiftr_0_r, <- !Z.add_assoc.
  unfold mbind, ST_bind, mret, ST_ret.
  repeat (destruct (vec_set _ _ _) as [[[] ?]|]; [|done]). done.
Qed.

Lemma write_i32_be_ok z pre old post :
  length old = 4%nat →
  write_i32_be (zlen pre) z (pre ++ old ++ post) = Ok (tt, pre ++ be_bytes 4 z ++ post).
Proof.
  intros Hl. rewrite write_i32_be_shifted.
  rewrite write_shifted_ok; [done|done|repeat constructor; lia].
Qed.

(** ** Lemmas: the walks *)

Lemma batch_length_range b : 0 <= batch_length b < 2 ^ 32.
Proof.
  assert (∀ bs acc, 0 <= acc → 0 <= fold_left (λ acc b, acc * 256 + Z_of_byte b) bs acc
    < (acc + 1) * 256 ^ zlen bs) as H.
  { intros bs. induction bs as [|x bs IH]; intros acc Ha.
    { change (zlen []) with 0. simpl. lia. }
    cbn [fold_left]. pose proof (Z_of_byte_range x).
    rewrite zlen_cons, Z.pow_add_r by (pose proof (zlen_nonneg bs); lia).
    specialize (IH (acc * 256 + Z_of_byte x) ltac:(lia)).
    pose proof (Z.pow_pos_nonneg 256 (zlen bs) ltac:(lia) (zlen_nonneg bs)). nia. }
  specialize (H (slice 8 4 b) 0 ltac:(lia)). unfold batch_length, be_value.
  assert (256 ^ zlen (slice 8 4 b) <= 256 ^ 4).
  { apply Z.pow_le_mono_r; [lia|]. unfold zlen, slice. rewrite length_take. lia. }
  lia.
Qed.

Lemma batch_length_app b post : (12 <= length b)%nat → batch_length (b ++ post) = batch_length b.
Proof. intros. unfold batch_length. by rewrite slice_app_l. Qed.

Lemma last_offset_delta_app b post :
  (27 <= length b)%nat → last_offset_delta (b ++ post) = last_offset_delta b.
Proof. intros. unfold last_offset_delta. by rewrite slice_app_l. Qed.

Lemma i32_length b : batch_length b < 2 ^ 31 → i32 (batch_length b) = batch_length b.
Proof. intros. pose proof (batch_length_range b). apply wrap_s_id; unfold in_s; lia. Qed.

(** The length fields as a walk at the end of [pre] reads them. *)
Lemma walk_length_u pre rest : (12 <= length rest)%nat →
  read_u32_be (zlen pre + 8) (pre ++ rest) = Ok (batch_length rest, pre ++ rest).
Proof. intros. by apply (read_u32_be_ok pre rest 8). Qed.
Lemma walk_length_i pre rest : (12 <= length rest)%nat →
  read_i32_be (zlen pre + 8) (pre ++ rest) = Ok (i32 (batch_length rest), pre ++ rest).
Proof. intros. by apply (read_i32_be_ok pre rest 8). Qed.
Lemma walk_delta pre rest : (27 <= length rest)%nat →
  read_i32_be (zlen pre + 23) (pre ++ rest) = Ok (last_offset_delta rest, pre ++ rest).
Proof. intros. by apply (read_i32_be_ok pre rest 23). Qed.

(** Takes the [size] of the vector and splits on the header guard. *)
Ltac walk_guard :=
  rewrite (st_bind_ok (gets zlen) _ _ _ _ eq_refl), zlen_app;
  match goal with
  | |- context [zlen ?pre + ?n <=? zlen ?pre + zlen ?tail] =>
      destruct (Z.leb_spec (zlen pre + n) (zlen pre + zlen tail))
  end.

(** A walk stops at the tail of the record set. *)
Lemma count_loop_tail fuel total pre tail :
  stops 27 tail →
  count_loop (S fuel) total (zlen pre) (pre ++ tail) = Ok (total, pre ++ tail).
Proof.
  intros Hstop. cbn [count_loop]. walk_guard; [|done].
  rewrite (st_bind_ok _ _ _ _ _ (walk_length_u pre tail ltac:(unfold zlen in *; lia))).
  destruct Hstop as [Hs|[Hs|Hs]]; [lia|by rewrite Hs|].
  replace (zlen pre + _ >? _) with true; [by rewrite orb_true_r|].
  symmetry. apply Z.gtb_lt. lia.
Qed.

Lemma i32_stops n tail :
  stops n tail → n <= zlen tail < 2 ^ 31 →
  i32 (batch_length tail) <= 0 ∨ zlen tail < i32 (batch_length tail) + 12.
Proof.
  intros [Hs|[Hs|Hs]] Hn; [lia|rewrite Hs; left; done|].
  pose proof (batch_length_range tail). destruct (Z.ltb_spec (batch_length tail) (2 ^ 31)).
  - right. rewrite i32_length; lia.
  - left. unfold wrap_s. rewrite Z.mod_small by lia. bcase; lia.
Qed.

Lemma idempotent_loop_tail fuel pre tail :
  stops 61 tail → zlen tail < 2 ^ 31 →
  idempotent_loop (S fuel) (zlen pre) (pre ++ tail) = Ok (false, pre ++ tail).
Proof.
  intros Hstop Hl. cbn [idempotent_loop]. walk_guard; [|done].
  rewrite (st_bind_ok _ _ _ _ _ (walk_length_i pre tail ltac:(unfold zlen in *; lia))).
  destruct (i32_stops 61 tail Hstop ltac:(lia)); bcase; done || lia.
Qed.

Section rewrite_lemmas.
Context `{Crc32Laws}.

Lemma rewrite_loop_tail fuel next pre tail :
  stops 57 tail → zlen tail < 2 ^ 31 →
  rewrite_loop (S fuel) (zlen pre) next (pre ++ tail) = Ok (tt, pre ++ tail).
Proof.
  intros Hstop Hl. cbn [rewrite_loop]. walk_guard; [|done].
  rewrite (st_bind_ok _ _ _ _ _ (walk_length_i pre tail ltac:(unfold zlen in *; lia))).
  destruct (i32_stops 57 tail Hstop ltac:(lia)); bcase; done || lia.
Qed.

(** A batch in its parts. *)
Lemma batch_parts b : (21 <= length b)%nat →
  b = slice 0 8 b ++ slice 8 9 b ++ slice 17 4 b ++ drop 21 b.
Proof.
  intros. unfold slice. rewrite drop_0.
  rewrite <- (take_drop 8 b) at 1. f_equal.
  rewrite <- (take_drop 9 (drop 8 b)) at 1. rewrite drop_drop. f_equal.
  rewrite <- (take_drop 4 (drop (8 + 9) b)) at 1. by rewrite drop_drop.
Qed.

Lemma drop_rebased base b : (21 <= length b)%nat → drop 21 (rebased base b) = drop 21 b.
Proof.
  intros. unfold rebased. rewrite !app_assoc. apply drop_app_length'.
  rewrite !length_app, !length_be_bytes, length_slice by lia. done.
Qed.

Lemma zlen_rebased base b : (21 <= length b)%nat → zlen (rebased base b) = zlen b.
Proof.
  intros. unfold rebased. rewrite !zlen_app. unfold zlen.
  rewrite !length_be_bytes, length_slice, length_drop by lia. lia.
Qed.

Lemma last_offset_delta_rebased base b :
  (27 <= length b)%nat → last_offset_delta (rebased base b) = last_offset_delta b.
Proof.
  intros. unfold last_offset_delta. rewrite (slice_drop 2 4 21 (rebased base b)), drop_rebased by lia.
  by rewrite <- (slice_drop 2 4 21 b).
Qed.

Lemma batch_length_rebased base b : (21 <= length b)%nat → batch_length (rebased base b) = batch_length b.
Proof.
  intros. unfold batch_length, rebased. rewrite (slice_drop 0 4 8).
  rewrite drop_app_length' by (by rewrite length_be_bytes).
  rewrite slice_app_l by (rewrite length_slice by lia; lia).
  unfold slice. rewrite drop_0, take_take. done.
Qed.

Lemma batch_ok_rebased base b : batch_ok b → batch_ok (rebased base b).
Proof.
  intros [Hl Hb]. unfold batch_ok, zlen in *.
  pose proof (zlen_rebased base b ltac:(lia)) as Hz. unfold zlen in Hz. rewrite Hz.
  by rewrite batch_length_rebased by lia.
Qed.

(** The checksum is written as an [int32_t]. *)
Lemma be_bytes_i32 z : be_bytes 4 (i32 z) = be_bytes 4 z.
Proof.
  unfold be_bytes. rewrite <- !(byte_of_Z_shiftr_wrap 32 (i32 _)) by lia.
  by rewrite wrap_u_of_s, !byte_of_Z_shiftr_wrap by lia.
Qed.

(** The body of one round of [rewrite_loop]: base offset, checksum. *)
Lemma rewrite_round pre b post base :
  batch_ok b → zlen (b ++ post) < 2 ^ 31 →
  (write_i64_be (zlen pre) base;;
   crc ← crc32c_at (zlen pre + 21) (u64 (zlen b - 21));
   write_i32_be (zlen pre + 17) (i32 crc)) (pre ++ b ++ post)
  = Ok (tt, pre ++ rebased base b ++ post).
Proof.
  intros [Hl Hb] Hlen. assert (21 <= length b)%nat by (unfold zlen in *; lia).
  pose proof (f_equal (λ x, pre ++ x ++ post) (batch_parts b ltac:(done))) as Hparts.
  cbv beta in Hparts. rewrite <- !app_assoc in Hparts. rewrite Hparts. clear Hparts.
  rewrite (st_bind_ok _ _ _ _ _ (write_i64_be_ok base pre (slice 0 8 b) _
    ltac:(by rewrite length_slice by lia))).
  set (v := pre ++ be_bytes 8 base ++ _).
  assert (crc32c_at (zlen pre + 21) (u64 (zlen b - 21)) v = Ok (crc32c_spec (drop 21 b), v)) as Hcrc.
  { unfold crc32c_at, v. rewrite wrap_u_id by (unfold in_u; lia).
    rewrite !app_assoc, <- (app_assoc _ (drop 21 b)).
    rewrite drop_app_length' by (rewrite !length_app, length_be_bytes, !length_slice by lia;
      unfold zlen; lia).
    assert (zlen (drop 21 b) = zlen b - 21) as Hd by (unfold zlen; rewrite length_drop; lia).
    rewrite crc32c_prefix by (rewrite zlen_app; pose proof (zlen_nonneg post); lia).
    rewrite take_app_length' by (unfold zlen in Hd |- *; lia). done. }
  rewrite (st_bind_ok _ _ _ _ _ Hcrc). unfold v. rewrite (app_assoc pre), (app_assoc (pre ++ _)).
  replace (zlen pre + 17) with (zlen ((pre ++ be_bytes 8 base) ++ slice 8 9 b)).
  2: { rewrite !zlen_app. unfold zlen. rewrite length_be_bytes, length_slice by lia. lia. }
  rewrite write_i32_be_ok by (by rewrite length_slice by lia).
  unfold rebased. rewrite <- !app_assoc. do 3 f_equal. f_equal. f_equal.
  by rewrite be_bytes_i32.
Qed.
End rewrite_lemmas.

(** A batch in front of the walk: the guards let it through. *)
Lemma batch_guards b post :
  batch_ok b → (61 <= length b)%nat ∧ batch_length (b ++ post) = zlen b - 12 ∧
  i32 (batch_length (b ++ post)) = zlen b - 12 ∧ 1 <= batch_count b <= 2 ^ 31.
Proof.
  intros [Hl Hb]. assert (61 <= length b)%nat by (unfold zlen in *; lia).
  rewrite batch_length_app, i32_length by lia. unfold batch_count, last_offset_delta.
  pose proof (wrap_s_range 32 (be_value (slice 23 4 b)) ltac:(lia)) as Hr. unfold in_s in Hr.
  split_and!; lia.
Qed.

Lemma total_count_nonneg bs : 0 <= total_count bs.
Proof. induction bs as [|b bs IH]; simpl; [done|]. unfold total_count, batch_count in *. lia. Qed.

Lemma count_loop_batches bs fuel total pre tail :
  Forall batch_ok bs → stops 27 tail → (length bs < fuel)%nat →
  0 <= total → total + total_count bs < 2 ^ 63 →
  count_loop fuel total (zlen pre) (pre ++ concat bs ++ tail)
  = Ok (total + total_count bs, pre ++ concat bs ++ tail).
Proof.
  intros Hbs Htail. revert fuel total pre.
  induction Hbs as [|b bs Hb Hbs IH]; intros fuel total pre Hf Ht Hsum;
    (destruct fuel as [|fuel]; [simpl in Hf; lia|]).
  { simpl concat. rewrite app_nil_l, Z.add_0_r. by apply count_loop_tail. }
  cbn [concat total_count foldr length] in *. fold (total_count bs) in *. rewrite <- app_assoc.
  set (rest := concat bs ++ tail). destruct (batch_guards b rest Hb) as (Hlb & Hlen & _ & Hc).
  assert (27 <= length (b ++ rest))%nat by (rewrite length_app; lia).
  cbn [count_loop]. walk_guard; [|unfold zlen in *; lia].
  rewrite (st_bind_ok _ _ _ _ _ (walk_length_u pre (b ++ rest) ltac:(lia))), Hlen.
  replace (_ || _) with false; cycle 1.
  { symmetry. apply orb_false_iff. rewrite Z.eqb_neq, Z.gtb_ltb, Z.ltb_ge, zlen_app.
    pose proof (zlen_nonneg rest). unfold zlen in *. lia. }
  rewrite (st_bind_ok _ _ _ _ _ (walk_delta pre (b ++ rest) ltac:(lia))).
  rewrite last_offset_delta_app by lia. fold (batch_count b).
  pose proof (total_count_nonneg bs).
  rewrite (st_bind_ok _ _ _ _ _ (add_i64_ok total (batch_count b) _ ltac:(unfold in_s; lia))).
  replace (zlen pre + (zlen b - 12 + 12)) with (zlen (pre ++ b)) by (rewrite zlen_app; lia).
  rewrite app_assoc. unfold rest. rewrite IH by lia. f_equal. f_equal. lia.
Qed.

(** The producer fields: -1 everywhere in a batch of a plain producer. *)
Definition batch_idempotent (b : bytes) : bool :=
  negb (i64 (be_value (slice 43 8 b)) =? -1) || negb (i16 (be_value (slice 51 2 b)) =? -1) ||
  negb (i32 (be_value (slice 53 4 b)) =? -1).

Lemma idempotent_loop_batches bs fuel pre tail :
  Forall batch_ok bs → stops 61 tail → zlen (concat bs ++ tail) < 2 ^ 31 → (length bs < fuel)%nat →
  idempotent_loop fuel (zlen pre) (pre ++ concat bs ++ tail)
  = Ok (existsb batch_idempotent bs, pre ++ concat bs ++ tail).
Proof.
  intros Hbs Htail. revert fuel pre. induction Hbs as [|b bs Hb Hbs IH]; intros fuel pre Hl Hf;
    (destruct fuel as [|fuel]; [simpl in Hf; lia|]).
  { by apply idempotent_loop_tail. }
  cbn [concat existsb length] in *. rewrite <- app_assoc in *.
  set (rest := concat bs ++ tail) in *. destruct (batch_guards b rest Hb) as (Hlb & _ & Hlen & _).
  assert (61 <= length (b ++ rest))%nat by (rewrite length_app; lia).
  rewrite zlen_app in Hl. pose proof (zlen_nonneg rest). pose proof (zlen_nonneg b).
  cbn [idempotent_loop]. walk_guard; [|unfold zlen in *; lia].
  rewrite (st_bind_ok _ _ _ _ _ (walk_length_i pre (b ++ rest) ltac:(lia))), Hlen, zlen_app.
  destruct (Z.leb_spec (zlen b - 12) 0); [unfold zlen in *; lia|].
  rewrite Z.gtb_ltb. bcase; [lia|].
  rewrite (st_bind_ok _ _ _ _ _ (read_i64_be_ok pre (b ++ rest) 43 ltac:(lia))).
  rewrite (st_bind_ok _ _ _ _ _ (read_i16_be_ok pre (b ++ rest) 51 ltac:(lia))).
  rewrite (st_bind_ok _ _ _ _ _ (read_i32_be_ok pre (b ++ rest) 53 ltac:(lia))).
  rewrite !slice_app_l by lia. fold (batch_idempotent b).
  destruct (batch_idempotent b); [done|]. simpl orb.
  replace (zlen pre + (zlen b - 12 + 12)) with (zlen (pre ++ b)) by (rewrite zlen_app; lia).
  rewrite app_assoc. apply IH; lia.
Qed.

Lemma rewrite_loop_batches `{Crc32Laws} bs fuel next pre tail :
  Forall batch_ok bs → stops 57 tail → zlen (concat bs ++ tail) < 2 ^ 31 → (length bs < fuel)%nat →
  0 <= next → next + total_count bs < 2 ^ 63 →
  rewrite_loop fuel (zlen pre) next (pre ++ concat bs ++ tail)
  = Ok (tt, pre ++ concat (rebased_all next bs) ++ tail).
Proof.
  intros Hbs Htail. revert fuel next pre.
  induction Hbs as [|b bs Hb Hbs IH]; intros fuel next pre Hl Hf Hn Hsum;
    (destruct fuel as [|fuel]; [simpl in Hf; lia|]).
  { by apply rewrite_loop_tail. }
  cbn [concat rebased_all length total_count foldr] in *. fold (total_count bs) in *.
  rewrite <- app_assoc in *.
  set (rest := concat bs ++ tail) in *. destruct (batch_guards b rest Hb) as (Hlb & _ & Hlen & Hc).
  rewrite zlen_app in Hl. pose proof (zlen_nonneg rest). pose proof (zlen_nonneg b).
  assert (57 <= length (b ++ rest))%nat by (rewrite length_app; lia).
  cbn [rewrite_loop]. walk_guard; [|unfold zlen in *; lia].
  rewrite (st_bind_ok _ _ _ _ _ (walk_length_i pre (b ++ rest) ltac:(lia))), Hlen, zlen_app.
  destruct (Z.leb_spec (zlen b - 12) 0); [unfold zlen in *; lia|].
  rewrite Z.gtb_ltb. bcase; [lia|]. replace (zlen b - 12 + 12) with (zlen b) by lia.
  pose proof (rewrite_round pre b rest next Hb ltac:(rewrite zlen_app; lia)) as Hround.
  apply st_bind_inv in Hround as ([] & v1 & Hw64 & Hround).
  apply st_bind_inv in Hround as (crc & v2 & Hcrc & Hw32).
  rewrite (st_bind_ok _ _ _ _ _ Hw64), (st_bind_ok _ _ _ _ _ Hcrc), (st_bind_ok _ _ _ _ _ Hw32).
  pose proof (zlen_rebased next b ltac:(lia)) as Hz.
  assert (27 <= length (rebased next b))%nat by (unfold zlen in *; lia).
  rewrite (st_bind_ok _ _ _ _ _ (walk_delta pre (rebased next b ++ rest) ltac:(rewrite length_app; lia))).
  rewrite last_offset_delta_app, last_offset_delta_rebased by lia. fold (batch_count b).
  pose proof (total_count_nonneg bs).
  rewrite (st_bind_ok _ _ _ _ _ (add_i64_ok next (batch_count b) _ ltac:(unfold in_s; lia))).
  replace (zlen pre + zlen b) with (zlen (pre ++ rebased next b)) by (rewrite zlen_app; lia).
  rewrite app_assoc. unfold rest. rewrite IH by lia. by rewrite <- !app_assoc.
Qed.

Lemma batches_fit bs : Forall batch_ok bs → 61 * zlen bs <= zlen (concat bs).
Proof.
  induction 1 as [|b bs [Hl _] _ IH]; [done|]. simpl concat. rewrite zlen_app, zlen_cons. lia.
Qed.

Lemma total_count_bound bs : Forall batch_ok bs → total_count bs <= 2 ^ 31 * zlen bs.
Proof.
  induction 1 as [|b bs Hb _ IH]; [done|]. rewrite zlen_cons.
  change (total_count (b :: bs)) with (batch_count b + total_count bs).
  destruct (batch_guards b [] Hb) as (_ & _ & _ & ?). lia.
Qed.

Lemma stops_mono n m tail : n <= m → stops n tail → stops m tail.
Proof. intros ? [?|[?|?]]; unfold stops; auto. left. lia. Qed.

(** The fields of a rebased batch. *)
Lemma rebased_base_offset `{Crc32Intrinsics} base b :
  in_s 64 base → i64 (be_value (slice 0 8 (rebased base b))) = base.
Proof.
  intros Hb. unfold rebased. rewrite slice_app_l by (by rewrite length_be_bytes).
  unfold slice. rewrite drop_0, take_ge by (by rewrite length_be_bytes).
  apply (be_signed_roundtrip 8 base); [lia|exact Hb].
Qed.

Lemma rebased_crc `{Crc32Laws} base b :
  (21 <= length b)%nat → be_value (slice 17 4 (rebased base b)) = crc32c_spec (drop 21 b).
Proof.
  intros. unfold rebased. rewrite (slice_drop 0 4 17), app_assoc.
  rewrite drop_app_length' by (rewrite length_app, length_be_bytes, length_slice by lia; done).
  rewrite slice_app_l by (by rewrite length_be_bytes). unfold slice.
  rewrite drop_0, take_ge, be_value_bytes by (by rewrite length_be_bytes).
  apply Z.mod_small. apply lxor_range; [lia|by apply crc_bytes_range|done].
Qed.

Lemma rebased_all_lookup `{Crc32Intrinsics} base bs i b :
  bs !! i = Some b → rebased_all base bs !! i = Some (rebased (base + total_count (take i bs)) b).
Proof.
  revert base i. induction bs as [|x bs IH]; intros base [|i] Hi; simpl in *; try done.
  - simplify_eq. by rewrite Z.add_0_r.
  - rewrite (IH _ _ Hi). do 2 f_equal. unfold total_count. lia.
Qed.

Lemma rebased_all_ok `{Crc32Intrinsics} base bs :
  Forall batch_ok bs → Forall batch_ok (rebased_all base bs) ∧
  length (rebased_all base bs) = length bs ∧ total_count (rebased_all base bs) = total_count bs ∧
  zlen (concat (rebased_all base bs)) = zlen (concat bs).
Proof.
  intros Hbs. revert base. induction Hbs as [|b bs Hb Hbs IH]; intros base; [done|].
  destruct (IH (base + batch_count b)) as (H1 & H2 & H3 & H4).
  destruct (batch_guards b [] Hb) as (Hl & _).
  cbn [rebased_all concat length]. rewrite !zlen_app, H2, H4.
  unfold total_count in *. cbn [foldr]. rewrite H3. unfold batch_count.
  rewrite last_offset_delta_rebased, zlen_rebased by lia.
  split_and!; [constructor; [by apply batch_ok_rebased|done]|done|done|done].
Qed.

Lemma estimate_batches bs tail :
  Forall batch_ok bs → stops 27 tail → zlen (concat bs ++ tail) < 2 ^ 31 →
  estimate_record_count (concat bs ++ tail)
  = Ok (if Nat.eqb (length (concat bs ++ tail)) 0 then 0
        else if total_count bs =? 0 then 1 else total_count bs, concat bs ++ tail).
Proof.
  intros Hbs Ht Hl. pose proof (batches_fit bs Hbs). pose proof (total_count_bound bs Hbs).
  unfold estimate_record_count. rewrite (st_bind_ok (gets _) _ _ _ _ eq_refl).
  destruct (Nat.eqb _ 0); [done|]. rewrite zlen_app in Hl. pose proof (zlen_nonneg tail).
  erewrite st_bind_ok; [done|]. apply (count_loop_batches bs _ 0 [] tail); try done; try lia.
  rewrite length_app. unfold zlen in *. lia.
Qed.

Lemma rewrite_batches `{Crc32Laws} bs tail base :
  Forall batch_ok bs → stops 57 tail → zlen (concat bs ++ tail) < 2 ^ 31 →
  0 <= base → base + total_count bs < 2 ^ 63 →
  rewrite_record_batch_offsets (concat bs ++ tail) base = Ok (concat (rebased_all base bs) ++ tail).
Proof.
  intros Hbs Ht Hl Hb Hsum. pose proof (batches_fit bs Hbs). unfold rewrite_record_batch_offsets.
  rewrite (rewrite_loop_batches bs _ base [] tail); try done.
  rewrite zlen_app in Hl. pose proof (zlen_nonneg tail).
  rewrite length_app. unfold zlen in *. lia.
Qed.

(** The count of arbitrary bytes. *)
Lemma count_loop_any fuel total pre rest :
  (length rest < fuel)%nat → 0 <= total → total + 2 ^ 31 * zlen rest < 2 ^ 63 →
  ∃ n, count_loop fuel total (zlen pre) (pre ++ rest) = Ok (n, pre ++ rest) ∧
    total <= n <= total + 2 ^ 31 * zlen rest.
Proof.
  revert total pre rest. induction fuel as [|fuel IH]; intros total pre rest Hf Ht Hb; [lia|].
  pose proof (zlen_nonneg rest). cbn [count_loop]. walk_guard; [|exists total; split; [done|lia]].
  assert (27 <= length rest)%nat by (unfold zlen in *; lia).
  rewrite (st_bind_ok _ _ _ _ _ (walk_length_u pre rest ltac:(lia))).
  pose proof (batch_length_range rest). rewrite Z.gtb_ltb.
  destruct (Z.eqb_spec (batch_length rest) 0); [exists total; split; [done|lia]|].
  rewrite orb_false_l. bcase; [exists total; split; [done|lia]|].
  rewrite (st_bind_ok _ _ _ _ _ (walk_delta pre rest ltac:(lia))).
  pose proof (wrap_s_range 32 (be_value (slice 23 4 rest)) ltac:(lia)) as Hr.
  fold (last_offset_delta rest) in Hr. fold (batch_count rest).
  assert (1 <= batch_count rest <= 2 ^ 31) by (unfold in_s, batch_count in *; lia).
  rewrite (st_bind_ok _ _ _ _ _ (add_i64_ok total (batch_count rest) _ ltac:(unfold in_s; lia))).
  set (k := Z.to_nat (batch_length rest + 12)).
  assert (zlen (take k rest) = batch_length rest + 12) as Hk.
  { unfold zlen, k. rewrite length_take. unfold zlen in *. lia. }
  assert (zlen (drop k rest) = zlen rest - (batch_length rest + 12)) as Hd.
  { unfold zlen, k. rewrite length_drop. unfold zlen in *. lia. }
  assert (pre ++ rest = (pre ++ take k rest) ++ drop k rest) as Hsplit
    by (by rewrite <- app_assoc, take_drop).
  destruct (IH (total + batch_count rest) (pre ++ take k rest) (drop k rest)) as (m & Hn & Hnb);
    [unfold zlen in *; lia|lia|lia|].
  exists m. rewrite zlen_app, Hk, <- Hsplit in Hn. split; [done|]. lia.
Qed.

(** The idempotence check returns on any bytes. *)
Lemma idempotent_loop_any fuel pre rest :
  (length rest < fuel)%nat →
  ∃ b, idempotent_loop fuel (zlen pre) (pre ++ rest) = Ok (b, pre ++ rest).
Proof.
  revert pre rest. induction fuel as [|fuel IH]; intros pre rest Hf; [lia|].
  cbn [idempotent_loop]. walk_guard; [|by exists false].
  assert (61 <= length rest)%nat by (unfold zlen in *; lia).
  rewrite (st_bind_ok _ _ _ _ _ (walk_length_i pre rest ltac:(lia))).
  destruct (Z.leb_spec (i32 (batch_length rest)) 0); [by exists false|]. rewrite Z.gtb_ltb.
  destruct (Z.ltb_spec (zlen pre + zlen rest) (zlen pre + (i32 (batch_length rest) + 12))); [by exists false|].
  rewrite (st_bind_ok _ _ _ _ _ (read_i64_be_ok pre rest 43 ltac:(lia))).
  rewrite (st_bind_ok _ _ _ _ _ (read_i16_be_ok pre rest 51 ltac:(lia))).
  rewrite (st_bind_ok _ _ _ _ _ (read_i32_be_ok pre rest 53 ltac:(lia))).
  destruct (_ || _); [by exists true|]. set (k := Z.to_nat (i32 (batch_length rest) + 12)).
  assert (zlen (take k rest) = i32 (batch_length rest) + 12) as Hk.
  { unfold zlen, k. rewrite length_take. unfold zlen in *. lia. }
  assert (pre ++ rest = (pre ++ take k rest) ++ drop k rest) as Hsplit
    by (by rewrite <- app_assoc, take_drop).
  destruct (IH (pre ++ take k rest) (drop k rest)) as [b Hb].
  { rewrite length_drop. unfold zlen in *. lia. }
  exists b. rewrite zlen_app, Hk, <- Hsplit in Hb. exact Hb.
Qed.

Lemma estimate_total (records : bytes) :
  zlen records < 2 ^ 31 →
  ∃ n, estimate_record_count records = Ok (n, records) ∧ 0 <= n < 2 ^ 62 ∧ (n = 0 ↔ records = []).
Proof.
  intros Hl. unfold estimate_record_count. rewrite (st_bind_ok (gets _) _ _ _ _ eq_refl).
  destruct records as [|b records]; [by exists 0|]. set (v := b :: records) in *.
  change (Nat.eqb (length v) 0) with false. cbv iota.
  destruct (count_loop_any (S (length v)) 0 [] v) as (n & Hn & Hb); [lia|lia|lia|].
  change (zlen []) with 0 in Hn. rewrite app_nil_l in Hn. rewrite (st_bind_ok _ _ _ _ _ Hn).
  eexists. split; [done|]. bcase; (split; [lia|]; split; [lia|done]).
Qed.

(** ** Theorems *)

(** C18: rewriting the batch headers of a record set that is a sequence of
    well-formed batches, with any truncated tail, succeeds and touches only
    the base offsets and the checksums: the batches keep their sizes and
    their checksummed bytes, batch [i] starts at [base] plus the records of
    the batches before it, its checksum is the CRC-32C of its bytes from 21
    on, and the record count of the set is unchanged. *)
Theorem rewrite_record_batch_offsets_spec `{Crc32Laws} (bs : list bytes) (tail : bytes) (base : Z) :
  Forall batch_ok bs → stops 27 tail → zlen (concat bs ++ tail) < 2 ^ 31 →
  0 <= base → base + total_count bs < 2 ^ 63 →
  ∃ bs', rewrite_record_batch_offsets (concat bs ++ tail) base = Ok (concat bs' ++ tail) ∧
    length bs' = length bs ∧
    (∀ i b, bs !! i = Some b → ∃ b', bs' !! i = Some b' ∧ zlen b' = zlen b ∧
      drop 21 b' = drop 21 b ∧
      i64 (be_value (slice 0 8 b')) = base + total_count (take i bs) ∧
      be_value (slice 17 4 b') = crc32c_spec (drop 21 b')) ∧
    ∃ n, estimate_record_count (concat bs ++ tail) = Ok (n, concat bs ++ tail) ∧
      estimate_record_count (concat bs' ++ tail) = Ok (n, concat bs' ++ tail).
Proof.
  intros Hbs Ht Hl Hb Hsum. exists (rebased_all base bs).
  destruct (rebased_all_ok base bs Hbs) as (Hok & Hlen & Htot & Hz).
  split_and!; [apply rewrite_batches; auto; by apply (stops_mono 27)|done| |].
  - intros i b Hi. eexists. split; [by apply rebased_all_lookup|].
    assert (batch_ok b) as Hbok by (by eapply Forall_lookup_1 in Hbs).
    destruct (batch_guards b [] Hbok) as (Hlb & _).
    assert (0 <= total_count (take i bs) <= total_count bs).
    { split; [apply total_count_nonneg|]. clear. revert i.
      induction bs as [|x bs IH]; intros [|i]; simpl; try done.
      - pose proof (total_count_nonneg (x :: bs)). done.
      - specialize (IH i). unfold total_count in *. lia. }
    rewrite zlen_rebased, drop_rebased, rebased_crc, rebased_base_offset by (unfold in_s; lia).
    done.
  - eexists. split; [by apply estimate_batches|].
    rewrite estimate_batches by (done || (rewrite zlen_app in *; lia)).
    rewrite Htot. replace (length (concat (rebased_all base bs) ++ tail))
      with (length (concat bs ++ tail)); [done|].
    rewrite !length_app. unfold zlen in Hz. lia.
Qed.

(** A batch of [n] records with an empty payload. *)
Definition sample_batch (n : Z) : bytes :=
  be_bytes 8 0 ++ be_bytes 4 49 ++ be_bytes 4 0 ++ [Byte.x02] ++ be_bytes 4 0 ++
  be_bytes 2 0 ++ be_bytes 4 (n - 1) ++ be_bytes 8 0 ++ be_bytes 8 0 ++
  be_bytes 8 (-1) ++ be_bytes 2 (-1) ++ be_bytes 4 (-1) ++ be_bytes 4 n.

Lemma sample_batch_ok n : batch_ok (sample_batch n).
Proof. split; [by split|reflexivity]. Qed.

Lemma rewrite_record_batch_offsets_witness :
  let bs := [sample_batch 3; sample_batch 2] in
  total_count bs = 5 ∧
  ∃ bs', rewrite_record_batch_offsets (concat bs ++ [Byte.xff]) 40 = Ok (concat bs' ++ [Byte.xff]) ∧
    length bs' = length bs ∧
    (∀ i b, bs !! i = Some b → ∃ b', bs' !! i = Some b' ∧ zlen b' = zlen b ∧
      drop 21 b' = drop 21 b ∧
      i64 (be_value (slice 0 8 b')) = 40 + total_count (take i bs) ∧
      be_value (slice 17 4 b') = crc32c_spec (drop 21 b')) ∧
    ∃ n, estimate_record_count (concat bs ++ [Byte.xff]) = Ok (n, concat bs ++ [Byte.xff]) ∧
      estimate_record_count (concat bs' ++ [Byte.xff]) = Ok (n, concat bs' ++ [Byte.xff]).
Proof.
  intros bs. split; [reflexivity|].
  apply (rewrite_record_batch_offsets_spec bs [Byte.xff] 40).
  - repeat constructor; apply sample_batch_ok.
  - left. reflexivity.
  - vm_compute. reflexivity.
  - lia.
  - vm_compute. reflexivity.
Defined.

(** [estimate_record_count] is total: on any bytes below 2 GiB, however
    malformed, it returns without reading outside them or overflowing, 0
    exactly for no bytes, and otherwise a count that is positive and below
    2^62. *)
Theorem estimate_record_count_total (records : bytes) :
  zlen records < 2 ^ 31 →
  ∃ n, estimate_record_count records = Ok (n, records) ∧ 0 <= n < 2 ^ 62 ∧ (n = 0 ↔ records = []).
Proof. apply estimate_total. Qed.

Lemma estimate_record_count_total_witness :
  ∃ n, estimate_record_count (repeat Byte.xff 40) = Ok (n, repeat Byte.xff 40) ∧
    0 <= n < 2 ^ 62 ∧ (n = 0 ↔ repeat Byte.xff 40 = []).
Proof. apply (estimate_record_count_total (repeat Byte.xff 40)). vm_compute. reflexivity. Defined.

(** On a sequence of well-formed batches [has_idempotent_record_batch]
    holds exactly when some batch has a producer id, epoch or base sequence
    other than -1, wherever in the sequence it is. *)
Theorem has_idempotent_record_batch_spec (bs : list bytes) (tail : bytes) :
  Forall batch_ok bs → stops 61 tail → zlen (concat bs ++ tail) < 2 ^ 31 →
  ∃ found, has_idempotent_record_batch (concat bs ++ tail) = Ok (found, concat bs ++ tail) ∧
    (found = true ↔ ∃ b, b ∈ bs ∧
      (i64 (be_value (slice 43 8 b)) ≠ -1 ∨ i16 (be_value (slice 51 2 b)) ≠ -1 ∨
       i32 (be_value (slice 53 4 b)) ≠ -1)).
Proof.
  intros Hbs Ht Hl. pose proof (batches_fit bs Hbs). exists (existsb batch_idempotent bs). split.
  - unfold has_idempotent_record_batch. rewrite (st_bind_ok (gets _) _ _ _ _ eq_refl).
    apply (idempotent_loop_batches bs _ []); try done.
    rewrite zlen_app in Hl. pose proof (zlen_nonneg tail). rewrite length_app. unfold zlen in *. lia.
  - rewrite existsb_exists. apply exist_proper. intros b. rewrite list_elem_of_In.
    unfold batch_idempotent. rewrite !orb_true_iff, !negb_true_iff, !Z.eqb_neq. tauto.
Qed.

Lemma has_idempotent_record_batch_witness :
  ∃ found, has_idempotent_record_batch (concat [sample_batch 3] ++ [])
      = Ok (found, concat [sample_batch 3] ++ []) ∧
    (found = true ↔ ∃ b, b ∈ [sample_batch 3] ∧
      (i64 (be_value (slice 43 8 b)) ≠ -1 ∨ i16 (be_value (slice 51 2 b)) ≠ -1 ∨
       i32 (be_value (slice 53 4 b)) ≠ -1)).
Proof.
  apply (has_idempotent_record_batch_spec [sample_batch 3] []).
  - repeat constructor; apply sample_batch_ok.
  - left. reflexivity.
  - vm_compute. reflexivity.
Defined.

(** A record set whose first batch claims to be one byte long. *)
Definition tiny_batch : bytes := be_bytes 8 0 ++ be_bytes 4 1 ++ repeat Byte.x00 45.

(** A batch length of 1 to 8 makes [batch_size - 21] wrap around to
    almost 2^64: [rewrite_record_batch_offsets] then asks [crc32c] for far
    more bytes than the record set has, on bytes a client chooses. *)
Theorem rewrite_length_underflow :
  ∃ what, rewrite_record_batch_offsets tiny_batch 0 = Err (UndefinedBehavior what).
Proof. eexists. vm_compute. reflexivity. Qed.
