(* ===== verification/Config.v ===== *)
(** * Broker configuration

    Models src/config.cpp and include/mkmq/config.hpp, with
    [all_partitions] and [validate_reload] of src/broker_shard_detail.cpp.
    The YAML library is an interface ([YamlApi]): node lookup, sequence
    iteration and the typed conversions, which return a value of the C++ type
    or throw ([YamlLaws]).  [yaml_tree] is an instance on concrete trees. *)

From Stdlib Require Import ZArith Lia.
From stdpp Require Import base tactics list numbers option gmap sets.
From S2P Require Import Prelude.

Local Open Scope Z_scope.

(** ** Configuration records *)

Inductive Durability := Write | Fsync.
Inductive FetchVisibility := HighWatermark | LeaderLocalEnd.

#[global] Instance Durability_eq_dec : EqDecision Durability.
Proof. solve_decision. Defined.
#[global] Instance FetchVisibility_eq_dec : EqDecision FetchVisibility.
Proof. solve_decision. Defined.

Record BrokerEndpoint := mkBrokerEndpoint {
  be_id : Z;
  be_kafka_host : cstring;
  be_kafka_port : Z;
  be_mercury_address : cstring;
}.

Record PartitionConfig := mkPartitionConfig {
  pc_topic : cstring;
  pc_partition : Z;
  pc_shard : Z;
  pc_replicas : list Z;
  pc_isr : list Z;
  pc_durability : Durability;
  pc_queue_limit : Z;
  pc_max_frame_bytes : Z;
  pc_fetch_visibility : FetchVisibility;
  pc_allow_follower_fetch : bool;
  pc_leader : Z;
  pc_migration_generation : Z;
  pc_migration_target_shard : Z;
  pc_migration_target_leader : Z;
}.

Record TopicConfig := mkTopicConfig {
  tc_name : cstring;
  tc_partitions : list PartitionConfig;
}.

Record BrokerConfig := mkBrokerConfig {
  bc_node_id : Z;
  bc_cluster_generation : Z;
  bc_data_dir : cstring;
  bc_metrics_port : Z;
  bc_fetch_max_wait_ms_cap : Z;
  bc_produce_wait_ms_cap : Z;
  bc_segment_bytes : Z;
  bc_brokers : list BrokerEndpoint;
  bc_topics : list TopicConfig;
}.

#[global] Instance BrokerEndpoint_eq_dec : EqDecision BrokerEndpoint.
Proof. solve_decision. Defined.
#[global] Instance PartitionConfig_eq_dec : EqDecision PartitionConfig.
Proof. solve_decision. Defined.

(** ** Lookups *)

Definition find_partition (config : BrokerConfig) (topic : cstring) (partition : Z)
    : option PartitionConfig :=
  (fix go (topics : list TopicConfig) : option PartitionConfig :=
    match topics with
    | [] => None
    | topic_config :: topics' =>
        if negb (cstring_eqb (tc_name topic_config) topic) then go topics'
        else match List.find (λ candidate, pc_partition candidate =? partition)
                     (tc_partitions topic_config) with
        | Some it => Some it
        | None => go topics'
        end
    end) (bc_topics config).

Definition find_broker (config : BrokerConfig) (node_id : Z) : option BrokerEndpoint :=
  List.find (λ broker, be_id broker =? node_id) (bc_brokers config).

Definition durability_to_string (durability : Durability) : cstring :=
  match durability with Fsync => str "fsync" | Write => str "write" end.

Definition visibility_to_string (visibility : FetchVisibility) : cstring :=
  match visibility with
  | LeaderLocalEnd => str "leader_local_end"
  | HighWatermark => str "high_watermark"
  end.

Definition all_partitions (config : BrokerConfig) : list PartitionConfig :=
  concat (map tc_partitions (bc_topics config)).

(** ** Validation *)

(** The message prefix of the partition errors. *)
Definition partition_name (p : PartitionConfig) : cstring :=
  str "partition " ++ pc_topic p ++ str "/" ++ to_string (pc_partition p).

(** [if (!s.insert(x).second) throw e]. *)
Definition insert_new {K} `{Countable K} (x : K) (e : error) : ST (gset K) unit := λ s,
  if bool_decide (x ∈ s) then Err e else Ok (tt, {[x]} ∪ s).

Definition check {σ} (ok : bool) (e : error) : ST σ unit :=
  if ok then mret tt else throw e.

Definition list_contains (l : list Z) (x : Z) : bool := bool_decide (x ∈ l).

Definition validate_broker (broker : BrokerEndpoint) : ST (gset Z) unit :=
  insert_new (be_id broker)
    (RuntimeError (str "duplicate broker id: " ++ to_string (be_id broker)));;
  check (negb (bool_decide (be_kafka_host broker = []) || (be_kafka_port broker =? 0) ||
               bool_decide (be_mercury_address broker = [])))
    (RuntimeError (str "broker " ++ to_string (be_id broker) ++
      str " requires kafka and Mercury endpoints")).

Definition validate_partition (broker_ids : gset Z) (partition : PartitionConfig)
    : ST (gset (cstring * Z)) unit :=
  insert_new (pc_topic partition, pc_partition partition)
    (RuntimeError (str "duplicate " ++ partition_name partition));;
  check (negb (bool_decide (pc_replicas partition = [])))
    (RuntimeError (partition_name partition ++ str " requires at least one replica"));;
  check (negb (bool_decide (pc_isr partition = [])))
    (RuntimeError (partition_name partition ++ str " requires at least one ISR"));;
  let in_replicas := list_contains (pc_replicas partition) in
  check (in_replicas (pc_leader partition))
    (RuntimeError (partition_name partition ++ str " leader must be in replicas"));;
  for_each (pc_replicas partition) (λ replica,
    check (bool_decide (replica ∈ broker_ids))
      (RuntimeError (partition_name partition ++ str " references unknown replica broker")));;
  for_each (pc_isr partition) (λ isr,
    check (in_replicas isr)
      (RuntimeError (partition_name partition ++ str " ISR must be a subset of replicas")));;
  check (negb ((pc_queue_limit partition =? 0) || (pc_max_frame_bytes partition =? 0)))
    (RuntimeError (partition_name partition ++
      str " queue_limit and max_frame_bytes must be positive"));;
  check (negb (negb (pc_migration_generation partition =? 0) &&
      ((pc_migration_target_leader partition <? 0) ||
       negb (bool_decide (pc_migration_target_leader partition ∈ broker_ids)))))
    (RuntimeError (partition_name partition ++
      str " migration target_leader must reference a broker")).

Definition validate_topic (broker_ids : gset Z) (topic : TopicConfig)
    : ST (gset (cstring * Z)) unit :=
  check (negb (bool_decide (tc_name topic = [])))
    (RuntimeError (str "topic name must not be empty"));;
  for_each (tc_partitions topic) (validate_partition broker_ids).

Definition validate_config (config : BrokerConfig) : result unit :=
  match for_each (bc_brokers config) validate_broker ∅ with
  | Err e => Err e
  | Ok (_, broker_ids) =>
      if negb (bool_decide (bc_node_id config ∈ broker_ids))
      then Err (RuntimeError (str "node_id does not match any configured broker"))
      else if bc_segment_bytes config =? 0
      then Err (RuntimeError (str "segment_bytes must be positive"))
      else match for_each (bc_topics config) (validate_topic broker_ids) ∅ with
      | Ok _ => Ok tt
      | Err e => Err e
      end
  end.

(** A [std::filesystem::path] as [operator!=] sees it: whether it has a root
    directory, and the names between its separators.  Repeated separators are
    one; one at the end is followed by an empty name. *)
Definition has_root_directory (p : cstring) : bool := match p with c :: _ => Byte.eqb c Byte.x2f | [] => false end.
Fixpoint relative_path (nested : bool) (name p : cstring) : list cstring :=
  match p with
  | [] => match name with [] => if nested then [[]] else [] | _ => [name] end
  | c :: p' =>
      if Byte.eqb c Byte.x2f then
        match name with [] => relative_path nested [] p' | _ => name :: relative_path true [] p' end
      else relative_path nested (name ++ [c]) p'
  end.
Definition path_eqb (p q : cstring) : bool :=
  Bool.eqb (has_root_directory p) (has_root_directory q) &&
  bool_decide (relative_path false [] p = relative_path false [] q).

(** [validate_reload]: what a SIGHUP may not change. *)
Definition validate_reload (old_config new_config : BrokerConfig) : result unit :=
  if negb (bc_node_id old_config =? bc_node_id new_config)
  then Err (RuntimeError (str "SIGHUP reload cannot change node_id"))
  else if negb (path_eqb (bc_data_dir old_config) (bc_data_dir new_config))
  then Err (RuntimeError (str "SIGHUP reload cannot change data_dir"))
  else if negb (bc_segment_bytes old_config =? bc_segment_bytes new_config)
  then Err (RuntimeError (str "SIGHUP reload cannot change segment_bytes"))
  else if negb (zlen (bc_brokers old_config) =? zlen (bc_brokers new_config))
  then Err (RuntimeError (str "SIGHUP reload cannot add or remove brokers yet"))
  else
  match for_each (bc_brokers old_config) (λ broker,
    check (match find_broker new_config (be_id broker) with
      | None => false
      | Some updated =>
          cstring_eqb (be_kafka_host updated) (be_kafka_host broker) &&
          (be_kafka_port updated =? be_kafka_port broker) &&
          cstring_eqb (be_mercury_address updated) (be_mercury_address broker)
      end) (RuntimeError (str "SIGHUP reload cannot change broker endpoints yet"))) tt with
  | Err e => Err e
  | Ok _ =>
  match for_each (all_partitions old_config) (λ partition,
    match find_partition new_config (pc_topic partition) (pc_partition partition) with
    | None => throw (RuntimeError (str "SIGHUP reload cannot delete topic partitions"))
    | Some updated =>
        check (pc_shard updated =? pc_shard partition)
          (RuntimeError (str "SIGHUP reload cannot migrate partitions across shards"));;
        check (bool_decide (pc_replicas updated = pc_replicas partition) &&
               bool_decide (pc_isr updated = pc_isr partition))
          (RuntimeError (str "SIGHUP reload cannot change replicas or ISR yet"));;
        check ((pc_migration_generation updated =? pc_migration_generation partition) &&
               (pc_migration_target_shard updated =? pc_migration_target_shard partition) &&
               (pc_migration_target_leader updated =? pc_migration_target_leader partition))
          (RuntimeError (str "SIGHUP reload accepts migration schema but does not execute migrations yet"))
    end) tt with
  | Ok _ => Ok tt
  | Err e => Err e
  end end.

(** ** Parsing *)

(** The YAML library: [node[field]] (which throws on a scalar), the
    conversion of a node to [bool], sequences, and [node.as<T>()]. *)
Class YamlApi := {
  YamlNode : Type;
  yaml_at : YamlNode → cstring → result YamlNode;
  yaml_defined : YamlNode → bool;
  yaml_is_sequence : YamlNode → bool;
  yaml_items : YamlNode → list YamlNode;
  as_int32 : YamlNode → result Z;
  as_uint16 : YamlNode → result Z;
  as_uint32 : YamlNode → result Z;
  as_uint64 : YamlNode → result Z;
  as_string : YamlNode → result cstring;
  as_bool : YamlNode → result bool;
}.

(** A conversion returns a value of its type. *)
Class YamlLaws `{YamlApi} : Prop := {
  as_int32_range n z : as_int32 n = Ok z → in_s 32 z;
  as_uint16_range n z : as_uint16 n = Ok z → in_u 16 z;
  as_uint32_range n z : as_uint32 n = Ok z → in_u 32 z;
  as_uint64_range n z : as_uint64 n = Ok z → in_u 64 z;
}.

Section parse.
Context `{YamlApi}.

Definition require_node (node : YamlNode) (field : cstring) : result YamlNode :=
  n ← yaml_at node field;
  if negb (yaml_defined n) then Err (RuntimeError (str "config requires " ++ field))
  else Ok n.

Definition require_partition_field (node : YamlNode) (topic : cstring) (partition : Z)
    (field : cstring) : result unit :=
  n ← yaml_at node field;
  if negb (yaml_defined n)
  then Err (RuntimeError (str "partition " ++ topic ++ str "/" ++ to_string partition ++
    str " requires " ++ field))
  else Ok tt.

Definition parse_durability (node : YamlNode) : result Durability :=
  value ← as_string node;
  if cstring_eqb value (str "write") then Ok Write
  else if cstring_eqb value (str "fsync") then Ok Fsync
  else Err (RuntimeError (str "durability must be 'write' or 'fsync'")).

Definition parse_visibility (node : YamlNode) : result FetchVisibility :=
  value ← as_string node;
  if cstring_eqb value (str "high_watermark") then Ok HighWatermark
  else if cstring_eqb value (str "leader_local_end") then Ok LeaderLocalEnd
  else Err (RuntimeError (str "fetch_visibility must be 'high_watermark' or 'leader_local_end'")).

Definition parse_vector {T} (as_T : YamlNode → result T) (node : YamlNode) (field : cstring)
    : result (list T) :=
  if negb (yaml_defined node) || negb (yaml_is_sequence node)
  then Err (RuntimeError (field ++ str " must be a YAML sequence"))
  else mapM as_T (yaml_items node).

(** [root[field] ? root[field].as<T>() : dflt]. *)
Definition optional_field {T} (as_T : YamlNode → result T) (root : YamlNode) (field : cstring)
    (dflt : T) : result T :=
  n ← yaml_at root field; if yaml_defined n then as_T n else Ok dflt.

Definition parse_broker (node : YamlNode) : result BrokerEndpoint :=
  n ← require_node node (str "id"); id ← as_int32 n;
  n ← require_node node (str "kafka_host"); kafka_host ← as_string n;
  n ← require_node node (str "kafka_port"); kafka_port ← as_uint16 n;
  n ← require_node node (str "mercury_address"); mercury_address ← as_string n;
  Ok (mkBrokerEndpoint id kafka_host kafka_port mercury_address).

(** The optional [migration] block: generation, target shard and leader. *)
Definition parse_migration (partition_node : YamlNode) : result (Z * Z * Z) :=
  migration ← yaml_at partition_node (str "migration");
  if yaml_defined migration then
    n ← require_node migration (str "generation"); generation ← as_uint64 n;
    n ← require_node migration (str "target_shard"); target_shard ← as_uint32 n;
    n ← require_node migration (str "target_leader"); target_leader ← as_int32 n;
    Ok (generation, target_shard, target_leader)
  else Ok (0, 0, -1).

Definition parse_partition (topic : cstring) (partition_node : YamlNode) : result PartitionConfig :=
  n ← require_node partition_node (str "id"); partition ← as_int32 n;
  mapM (require_partition_field partition_node topic partition)
    [str "shard"; str "leader"; str "replicas"; str "isr"; str "durability"; str "queue_limit";
     str "max_frame_bytes"; str "fetch_visibility"; str "allow_follower_fetch"];;
  n ← yaml_at partition_node (str "shard"); shard ← as_uint32 n;
  n ← yaml_at partition_node (str "replicas"); replicas ← parse_vector as_int32 n (str "replicas");
  n ← yaml_at partition_node (str "isr"); isr ← parse_vector as_int32 n (str "isr");
  n ← yaml_at partition_node (str "leader"); leader ← as_int32 n;
  n ← yaml_at partition_node (str "durability"); durability ← parse_durability n;
  n ← yaml_at partition_node (str "queue_limit"); queue_limit ← as_uint32 n;
  n ← yaml_at partition_node (str "max_frame_bytes"); max_frame_bytes ← as_uint32 n;
  n ← yaml_at partition_node (str "fetch_visibility"); fetch_visibility ← parse_visibility n;
  n ← yaml_at partition_node (str "allow_follower_fetch"); allow_follower_fetch ← as_bool n;
  '(generation, target_shard, target_leader) ← parse_migration partition_node;
  Ok (mkPartitionConfig topic partition shard replicas isr durability queue_limit max_frame_bytes
    fetch_visibility allow_follower_fetch leader generation target_shard target_leader).

Definition parse_topic (topic_node : YamlNode) : result TopicConfig :=
  n ← yaml_at topic_node (str "name"); name ← as_string n;
  n ← yaml_at topic_node (str "partitions");
  if negb (yaml_defined n) || negb (yaml_is_sequence n)
  then Err (RuntimeError (str "topic " ++ name ++ str " requires partitions sequence"))
  else partitions ← mapM (parse_partition name) (yaml_items n); Ok (mkTopicConfig name partitions).

Definition parse_config_node (root : YamlNode) : result BrokerConfig :=
  n ← require_node root (str "node_id"); node_id ← as_int32 n;
  n ← require_node root (str "cluster_generation"); cluster_generation ← as_uint64 n;
  n ← require_node root (str "data_dir"); data_dir ← as_string n;
  metrics_port ← optional_field as_uint16 root (str "metrics_port") 9642;
  fetch_max_wait_ms_cap ← optional_field as_uint32 root (str "fetch_max_wait_ms_cap") 100;
  produce_wait_ms_cap ← optional_field as_uint32 root (str "produce_wait_ms_cap") 100;
  segment_bytes ← optional_field as_uint64 root (str "segment_bytes") (1024 * 1024 * 1024);
  n ← yaml_at root (str "brokers");
  if negb (yaml_defined n) || negb (yaml_is_sequence n)
  then Err (RuntimeError (str "config requires brokers sequence"))
  else
    brokers ← mapM parse_broker (yaml_items n);
    n ← yaml_at root (str "topics");
    if negb (yaml_defined n) || negb (yaml_is_sequence n)
    then Err (RuntimeError (str "config requires topics sequence"))
    else
      topics ← mapM parse_topic (yaml_items n);
      let config := mkBrokerConfig node_id cluster_generation data_dir metrics_port
        fetch_max_wait_ms_cap produce_wait_ms_cap segment_bytes brokers topics in
      validate_config config;;
      Ok config.

(** [LoadFile] and [Load] are YAML::LoadFile and YAML::Load. *)
Definition load_config_file (LoadFile : cstring → result YamlNode) (path : cstring) : result BrokerConfig :=
  root ← LoadFile path; parse_config_node root.
Definition load_config_yaml (Load : cstring → result YamlNode) (yaml : cstring) : result BrokerConfig :=
  root ← Load yaml; parse_config_node root.
End parse.

(** *** YAML trees *)

Inductive Yaml :=
| YUndefined
| YScalar (s : cstring)
| YInt (z : Z)
| YSequence (items : list Yaml)
| YMap (fields : list (cstring * Yaml)).

Definition yaml_int (lo hi : Z) (n : Yaml) : result Z :=
  match n with
  | YInt z => if (lo <=? z) && (z <? hi) then Ok z else Err (RuntimeError (str "bad conversion"))
  | _ => Err (RuntimeError (str "bad conversion"))
  end.

#[global] Instance yaml_tree : YamlApi := {|
  YamlNode := Yaml;
  yaml_at n field := match n with
    | YMap fields =>
        match List.find (λ f, cstring_eqb f.1 field) fields with
        | Some f => Ok f.2
        | None => Ok YUndefined
        end
    | YUndefined | YSequence _ => Ok YUndefined
    | _ => Err (RuntimeError (str "operator[] call on a scalar"))
    end;
  yaml_defined n := match n with YUndefined => false | _ => true end;
  yaml_is_sequence n := match n with YSequence _ => true | _ => false end;
  yaml_items n := match n with YSequence items => items | _ => [] end;
  as_int32 := yaml_int (- 2 ^ 31) (2 ^ 31);
  as_uint16 := yaml_int 0 (2 ^ 16);
  as_uint32 := yaml_int 0 (2 ^ 32);
  as_uint64 := yaml_int 0 (2 ^ 64);
  as_string n := match n with
    | YScalar s => Ok s
    | YInt z => Ok (to_string z)
    | _ => Err (RuntimeError (str "bad conversion"))
    end;
  as_bool n := match n with
    | YScalar s =>
        if cstring_eqb s (str "true") then Ok true
        else if cstring_eqb s (str "false") then Ok false
        else Err (RuntimeError (str "bad conversion"))
    | _ => Err (RuntimeError (str "bad conversion"))
    end;
|}.

Lemma yaml_int_range lo hi n z : yaml_int lo hi n = Ok z → lo <= z < hi.
Proof.
  destruct n; simpl; try done. destruct (Z.leb_spec lo z0), (Z.ltb_spec z0 hi); simpl; intros;
    simplify_eq; lia.
Qed.

#[global] Instance yaml_tree_laws : YamlLaws.
Proof. split; intros n z Hz; apply yaml_int_range in Hz; exact Hz. Qed.

(** ** What a valid configuration is *)

Definition endpoint_valid (b : BrokerEndpoint) : Prop :=
  be_kafka_host b ≠ [] ∧ be_kafka_port b ≠ 0 ∧ be_mercury_address b ≠ [].

Definition partition_key (p : PartitionConfig) : cstring * Z := (pc_topic p, pc_partition p).

Definition partition_valid (ids : list Z) (p : PartitionConfig) : Prop :=
  pc_replicas p ≠ [] ∧ pc_isr p ≠ [] ∧ pc_leader p ∈ pc_replicas p ∧
  pc_replicas p ⊆ ids ∧ pc_isr p ⊆ pc_replicas p ∧
  pc_queue_limit p ≠ 0 ∧ pc_max_frame_bytes p ≠ 0 ∧
  (pc_migration_generation p ≠ 0 →
    0 <= pc_migration_target_leader p ∧ pc_migration_target_leader p ∈ ids).

Definition broker_ids (c : BrokerConfig) : list Z := map be_id (bc_brokers c).

Definition config_valid (c : BrokerConfig) : Prop :=
  NoDup (broker_ids c) ∧ Forall endpoint_valid (bc_brokers c) ∧
  bc_node_id c ∈ broker_ids c ∧ bc_segment_bytes c ≠ 0 ∧
  Forall (λ t, tc_name t ≠ []) (bc_topics c) ∧
  NoDup (map partition_key (all_partitions c)) ∧
  Forall (partition_valid (broker_ids c)) (all_partitions c).

(** The fields have the ranges of their C++ types and every partition names
    the topic it is listed under. *)
Definition partition_typed (p : PartitionConfig) : Prop :=
  in_s 32 (pc_partition p) ∧ in_u 32 (pc_shard p) ∧ Forall (in_s 32) (pc_replicas p) ∧
  Forall (in_s 32) (pc_isr p) ∧ in_u 32 (pc_queue_limit p) ∧ in_u 32 (pc_max_frame_bytes p) ∧
  in_s 32 (pc_leader p) ∧ in_u 64 (pc_migration_generation p) ∧
  in_u 32 (pc_migration_target_shard p) ∧ in_s 32 (pc_migration_target_leader p).
Definition topic_typed (t : TopicConfig) : Prop :=
  Forall (λ p, pc_topic p = tc_name t ∧ partition_typed p) (tc_partitions t).
Definition endpoint_typed (b : BrokerEndpoint) : Prop := in_s 32 (be_id b) ∧ in_u 16 (be_kafka_port b).
Definition config_typed (c : BrokerConfig) : Prop :=
  in_s 32 (bc_node_id c) ∧ in_u 64 (bc_cluster_generation c) ∧ in_u 16 (bc_metrics_port c) ∧
  in_u 32 (bc_fetch_max_wait_ms_cap c) ∧ in_u 32 (bc_produce_wait_ms_cap c) ∧
  in_u 64 (bc_segment_bytes c) ∧ Forall endpoint_typed (bc_brokers c) ∧
  Forall topic_typed (bc_topics c).

(** ** Lemmas: validation loops *)

Lemma check_ok {σ} ok e (s : σ) : check ok e s = if ok then Ok (tt, s) else Err e.
Proof. by destruct ok. Qed.

Lemma st_bind_ok_iff {σ} (m : ST σ unit) (k : unit → ST σ unit) s s'' :
  (m ≫= k) s = Ok (tt, s'') ↔ ∃ s', m s = Ok (tt, s') ∧ k tt s' = Ok (tt, s'').
Proof.
  split.
  - intros H. apply st_bind_inv in H as ([] & s' & ? & ?). eauto.
  - intros (s' & Hm & Hk). by rewrite (st_bind_ok _ _ _ _ _ Hm).
Qed.

(** A step that only checks. *)
Lemma check_bind_iff {σ} ok e (k : unit → ST σ unit) s s'' :
  (check ok e ≫= k) s = Ok (tt, s'') ↔ ok = true ∧ k tt s = Ok (tt, s'').
Proof.
  rewrite st_bind_ok_iff. split.
  - intros (s' & Hc & Hk). rewrite check_ok in Hc. destruct ok; simplify_eq. done.
  - intros [-> Hk]. by exists s.
Qed.

Lemma check_iff {σ} ok e (s s' : σ) : check ok e s = Ok (tt, s') ↔ ok = true ∧ s' = s.
Proof. rewrite check_ok. destruct ok; naive_solver. Qed.

Lemma for_each_check_iff {σ A} (l : list A) (f : A → bool) (e : A → error) (s s' : σ) :
  for_each l (λ x, check (f x) (e x)) s = Ok (tt, s') ↔ Forall (λ x, f x = true) l ∧ s' = s.
Proof.
  induction l as [|x l IH]; simpl.
  - split; [intros [= <-]|intros [_ ->]]; done.
  - rewrite check_bind_iff, IH, Forall_cons. tauto.
Qed.

Lemma for_each_check_bind_iff {σ A} (l : list A) (f : A → bool) (e : A → error)
    (k : unit → ST σ unit) s s'' :
  (for_each l (λ x, check (f x) (e x)) ≫= k) s = Ok (tt, s'') ↔
  Forall (λ x, f x = true) l ∧ k tt s = Ok (tt, s'').
Proof.
  rewrite st_bind_ok_iff. setoid_rewrite for_each_check_iff. naive_solver.
Qed.

Lemma insert_new_bind_iff {K} `{Countable K} (x : K) e (k : unit → ST (gset K) unit) s s'' :
  (insert_new x e ≫= k) s = Ok (tt, s'') ↔ x ∉ s ∧ k tt ({[x]} ∪ s) = Ok (tt, s'').
Proof.
  rewrite st_bind_ok_iff. unfold insert_new. case_bool_decide; naive_solver.
Qed.

(** A loop whose body inserts a fresh key and checks the element. *)
Lemma for_each_unique {A K} `{Countable K} (l : list A) (key : A → K) (P : A → Prop)
    (body : A → ST (gset K) unit) s s' :
  (∀ x s s', body x s = Ok (tt, s') ↔ key x ∉ s ∧ P x ∧ s' = {[key x]} ∪ s) →
  for_each l body s = Ok (tt, s') ↔
  NoDup (map key l) ∧ Forall P l ∧ (∀ x, x ∈ l → key x ∉ s) ∧ s' = list_to_set (map key l) ∪ s.
Proof.
  intros Hbody. revert s. induction l as [|x l IH]; intros s; simpl.
  - split; [intros [= <-]|intros (_ & _ & _ & ->)].
    + split_and!; [constructor|constructor|set_solver|set_solver].
    + unfold mret, ST_ret. do 2 f_equal. set_solver.
  - rewrite st_bind_ok_iff, NoDup_cons, Forall_cons. setoid_rewrite Hbody. setoid_rewrite IH.
    rewrite list_elem_of_fmap. split.
    + intros (s1 & (Hx & HP & ->) & Hnd & Hall & Hfresh & ->). split_and!; try done.
      * intros (y & Hy & Hin). apply (Hfresh y Hin). set_solver.
      * set_solver.
      * set_solver.
    + intros ([Hx Hnd] & [HP Hall] & Hfresh & ->). eexists. split_and!; try done.
      * set_solver.
      * intros y Hy Hin. apply elem_of_union in Hin as [Hin|Hin]; [|set_solver].
        apply Hx. exists y. set_solver.
      * set_solver.
Qed.

Lemma validate_broker_iff b s s' :
  validate_broker b s = Ok (tt, s') ↔ be_id b ∉ s ∧ endpoint_valid b ∧ s' = {[be_id b]} ∪ s.
Proof.
  unfold validate_broker, endpoint_valid. rewrite insert_new_bind_iff, check_iff.
  rewrite negb_true_iff, !orb_false_iff, !bool_decide_eq_false, Z.eqb_neq. tauto.
Qed.

Lemma validate_partition_iff ids p s s' :
  validate_partition (list_to_set ids) p s = Ok (tt, s') ↔
  partition_key p ∉ s ∧ partition_valid ids p ∧ s' = {[partition_key p]} ∪ s.
Proof.
  unfold validate_partition, partition_valid. fold (partition_key p).
  rewrite insert_new_bind_iff, !check_bind_iff, !for_each_check_bind_iff, check_bind_iff, check_iff.
  unfold list_contains.
  rewrite !negb_true_iff, !bool_decide_eq_false, bool_decide_eq_true, orb_false_iff, !Z.eqb_neq.
  rewrite andb_false_iff, orb_false_iff, !negb_false_iff, Z.eqb_eq, Z.ltb_ge, bool_decide_eq_true.
  rewrite !Forall_forall. setoid_rewrite bool_decide_eq_true.
  setoid_rewrite elem_of_list_to_set. unfold subseteq, list_subseteq.
  destruct (decide (pc_migration_generation p = 0)); intuition.
Qed.

Lemma for_each_app {σ A} (l k : list A) (body : A → ST σ unit) s :
  for_each (l ++ k) body s = (for_each l body;; for_each k body) s.
Proof.
  revert s. induction l as [|x l IH]; intros s; simpl; [done|]. unfold mbind, ST_bind.
  destruct (body x s) as [[[] s']|e]; [|done]. rewrite IH. done.
Qed.

Lemma validate_topics_iff (ids : gset Z) (topics : list TopicConfig) s s' :
  for_each topics (validate_topic ids) s = Ok (tt, s') ↔
  Forall (λ t, tc_name t ≠ []) topics ∧
  for_each (concat (map tc_partitions topics)) (validate_partition ids) s = Ok (tt, s').
Proof.
  revert s. induction topics as [|t topics IH]; intros s; simpl; [naive_solver|].
  rewrite for_each_app, !st_bind_ok_iff, Forall_cons. setoid_rewrite IH.
  unfold validate_topic. setoid_rewrite check_bind_iff.
  setoid_rewrite negb_true_iff. setoid_rewrite bool_decide_eq_false. naive_solver.
Qed.

Lemma validate_config_valid c : validate_config c = Ok tt ↔ config_valid c.
Proof.
  unfold validate_config, config_valid. fold (broker_ids c).
  pose proof (for_each_unique (bc_brokers c) be_id endpoint_valid validate_broker ∅) as Hb.
  destruct (for_each (bc_brokers c) validate_broker ∅) as [[[] ids]|e].
  2: { split; [done|]. intros (H1 & H2 & _). exfalso.
       destruct (Hb (list_to_set (broker_ids c) ∪ ∅) validate_broker_iff) as [_ Hb'].
       discriminate Hb'. split_and!; try done; set_solver. }
  destruct (Hb ids validate_broker_iff) as [(Hnd & Hall & _ & ->) _]; [done|].
  fold (broker_ids c). rewrite union_empty_r_L.
  case_bool_decide as Hin; rewrite elem_of_list_to_set in Hin; simpl.
  2: { split; [done|tauto]. }
  destruct (Z.eqb_spec (bc_segment_bytes c) 0); [split; [done|tauto]|].
  pose proof (validate_topics_iff (list_to_set (broker_ids c)) (bc_topics c) ∅) as Ht.
  fold (all_partitions c) in Ht.
  pose proof (λ s', for_each_unique (all_partitions c) partition_key (partition_valid (broker_ids c))
    (validate_partition (list_to_set (broker_ids c))) ∅ s'
    (validate_partition_iff (broker_ids c))) as Hp.
  setoid_rewrite Hp in Ht.
  destruct (for_each (bc_topics c) _ ∅) as [[[] s']|e].
  - destruct (Ht s') as [(H1 & H2 & H3 & _ & _) _]; [done|]. tauto.
  - split; [done|]. intros (_ & _ & _ & _ & H1 & H2 & H3). exfalso.
    destruct (Ht (list_to_set (map partition_key (all_partitions c)) ∪ ∅)) as [_ Ht'].
    discriminate Ht'. split_and!; try done; set_solver.
Qed.

(** ** Lemmas: lookups *)

Lemma find_partition_go topics topic partition p :
  find_partition (mkBrokerConfig 0 0 [] 0 0 0 0 [] topics) topic partition = Some p →
  ∃ t, t ∈ topics ∧ p ∈ tc_partitions t ∧ tc_name t = topic ∧ pc_partition p = partition.
Proof.
  unfold find_partition. cbn [bc_topics].
  induction topics as [|t topics IH]; [done|].
  destruct (cstring_eqb_spec (tc_name t) topic) as [Hn|Hn]; simpl negb; cbv iota.
  - destruct (List.find _ (tc_partitions t)) as [x|] eqn:Hf.
    + intros [= ->]. apply List.find_some in Hf as [Hin Heq].
      exists t. rewrite Z.eqb_eq in Heq. split_and!; try done; [left|by apply list_elem_of_In].
    + intros Hgo. destruct (IH Hgo) as (t' & ? & ?). exists t'. by split; [right|].
  - intros Hgo. destruct (IH Hgo) as (t' & ? & ?). exists t'. by split; [right|].
Qed.

Lemma find_partition_none topics topic partition :
  find_partition (mkBrokerConfig 0 0 [] 0 0 0 0 [] topics) topic partition = None →
  ∀ t p, t ∈ topics → p ∈ tc_partitions t → tc_name t = topic → pc_partition p ≠ partition.
Proof.
  unfold find_partition. cbn [bc_topics].
  induction topics as [|t topics IH]; [set_solver|].
  intros Hgo t' p Ht' Hp Hn. apply elem_of_cons in Ht' as [->|Ht'].
  - destruct (cstring_eqb_spec (tc_name t) topic) as [_|]; [|done]. simpl negb in Hgo. cbv iota in Hgo.
    destruct (List.find _ (tc_partitions t)) eqn:Hf; [done|].
    apply list_elem_of_In in Hp. by apply (List.find_none _ _ Hf), Z.eqb_neq in Hp.
  - destruct (cstring_eqb_spec (tc_name t) topic); simpl negb in Hgo; cbv iota in Hgo; [|by eapply IH].
    destruct (List.find _ (tc_partitions t)); [done|by eapply IH].
Qed.

Lemma find_partition_topics c topic partition :
  find_partition c topic partition
  = find_partition (mkBrokerConfig 0 0 [] 0 0 0 0 [] (bc_topics c)) topic partition.
Proof. done. Qed.

Lemma elem_of_all_partitions c p :
  p ∈ all_partitions c ↔ ∃ t, t ∈ bc_topics c ∧ p ∈ tc_partitions t.
Proof.
  unfold all_partitions. rewrite list_elem_of_In, in_concat. split.
  - intros (l & Hl & Hp). apply in_map_iff in Hl as (t & <- & Ht).
    exists t. by rewrite !list_elem_of_In.
  - intros (t & Ht & Hp). apply list_elem_of_In in Ht, Hp. exists (tc_partitions t).
    split; [by apply in_map|done].
Qed.

Lemma NoDup_map_inj {A K} (f : A → K) l x y :
  NoDup (map f l) → x ∈ l → y ∈ l → f x = f y → x = y.
Proof.
  induction l as [|z l IH]; [set_solver|]. simpl. rewrite NoDup_cons. intros [Hz Hnd] Hx Hy Hf.
  apply elem_of_cons in Hx as [->|Hx], Hy as [->|Hy]; try done; auto.
  - destruct Hz. rewrite Hf. apply list_elem_of_fmap; eauto.
  - destruct Hz. rewrite <- Hf. apply list_elem_of_fmap; eauto.
Qed.

(** Every partition names the topic it is listed under. *)
Definition topics_consistent (c : BrokerConfig) : Prop :=
  ∀ t p, t ∈ bc_topics c → p ∈ tc_partitions t → pc_topic p = tc_name t.

Lemma find_partition_iff c topic partition p :
  config_valid c → topics_consistent c →
  find_partition c topic partition = Some p ↔
  p ∈ all_partitions c ∧ partition_key p = (topic, partition).
Proof.
  intros (_ & _ & _ & _ & _ & Hnd & _) Hcons. rewrite find_partition_topics. split.
  - intros Hf. apply find_partition_go in Hf as (t & Ht & Hp & Hn & Hi).
    rewrite elem_of_all_partitions. split; [by exists t|].
    unfold partition_key. rewrite (Hcons t p), Hn, Hi by done. done.
  - intros [Hin Hkey]. destruct (find_partition _ topic partition) as [q|] eqn:Hf.
    + apply find_partition_go in Hf as (t & Ht & Hq & Hn & Hi). f_equal.
      apply (NoDup_map_inj partition_key (all_partitions c)); try done.
      * apply elem_of_all_partitions. by exists t.
      * unfold partition_key at 1. rewrite (Hcons t q), Hn, Hi by done. done.
    + exfalso. apply elem_of_all_partitions in Hin as (t & Ht & Hp).
      unfold partition_key in Hkey. injection Hkey as Htop Hpart.
      by apply (find_partition_none _ _ _ Hf t p); [| |rewrite <- (Hcons t p)|].
Qed.

(** ** Lemmas: parsed configurations are typed *)

Section parse_lemmas.
Context `{YamlLaws}.

Lemma optional_field_range {T} (as_T : YamlNode → result T) root field dflt v (P : T → Prop) :
  optional_field as_T root field dflt = Ok v → (∀ n z, as_T n = Ok z → P z) → P dflt → P v.
Proof.
  unfold optional_field. intros Hv Has Hd. repeat inv_bind Hv; [eauto|]. by injection Hv as <-.
Qed.

Lemma parse_broker_typed n b : parse_broker n = Ok b → endpoint_typed b.
Proof.
  unfold parse_broker. intros Hb. repeat inv_bind Hb. injection Hb as <-.
  split; [by eapply as_int32_range|by eapply as_uint16_range].
Qed.

Lemma parse_vector_typed n field l : parse_vector as_int32 n field = Ok l → Forall (in_s 32) l.
Proof.
  unfold parse_vector. intros Hl. destruct (_ || _); [done|].
  eapply mapM_Forall; [exact Hl|]. apply as_int32_range.
Qed.

Lemma parse_migration_typed n g s l :
  parse_migration n = Ok (g, s, l) → in_u 64 g ∧ in_u 32 s ∧ in_s 32 l.
Proof.
  unfold parse_migration. intros Hm. repeat inv_bind Hm; injection Hm as <- <- <-; [|done].
  split_and!; eauto using as_uint64_range, as_uint32_range, as_int32_range.
Qed.

Lemma parse_partition_typed topic n p :
  parse_partition topic n = Ok p → pc_topic p = topic ∧ partition_typed p.
Proof.
  unfold parse_partition. intros Hp. do 21 inv_bind Hp.
  apply result_bind_inv in Hp as ([[g s] l] & Hm & Hp). injection Hp as <-.
  apply parse_migration_typed in Hm as (? & ? & ?).
  split; [done|]. unfold partition_typed. simpl.
  split_and!; eauto using as_int32_range, as_uint32_range, parse_vector_typed.
Qed.

Lemma parse_topic_typed n t : parse_topic n = Ok t → topic_typed t.
Proof.
  unfold parse_topic. intros Ht. do 3 inv_bind Ht. destruct (_ || _); [done|].
  inv_bind Ht. injection Ht as <-. eapply mapM_Forall; [done|]. apply parse_partition_typed.
Qed.

Lemma parse_config_node_inv root c : parse_config_node root = Ok c → config_valid c ∧ config_typed c.
Proof.
  unfold parse_config_node. intros Hc. do 11 inv_bind Hc.
  destruct (_ || _); [done|]. do 2 inv_bind Hc. destruct (_ || _); [done|].
  inv_bind Hc. apply result_bind_inv in Hc as ([] & Hv & Hc). injection Hc as <-.
  split; [by apply validate_config_valid|]. unfold config_typed. simpl.
  split_and!;
    eauto using as_int32_range, as_uint64_range, mapM_Forall, parse_broker_typed, parse_topic_typed;
    (eapply optional_field_range; [done|eauto using as_uint16_range, as_uint32_range, as_uint64_range|done]).
Qed.

Lemma config_typed_consistent c : config_typed c → topics_consistent c.
Proof.
  intros (_ & _ & _ & _ & _ & _ & _ & Ht) t p Hin Hp.
  rewrite Forall_forall in Ht. specialize (Ht t Hin). unfold topic_typed in Ht.
  rewrite Forall_forall in Ht. by apply Ht in Hp as [? _].
Qed.
End parse_lemmas.

(** ** Lemmas: errors and reloads *)

(** Everything [m] throws is a [std::runtime_error]. *)
Definition throws_runtime {σ A} (m : ST σ A) : Prop :=
  ∀ s e, m s = Err e → ∃ msg, e = RuntimeError msg.

Lemma throws_runtime_check {σ} ok msg : throws_runtime (σ := σ) (check ok (RuntimeError msg)).
Proof. intros s e. rewrite check_ok. destruct ok; naive_solver. Qed.
Lemma throws_runtime_insert {K} `{Countable K} (x : K) msg :
  throws_runtime (insert_new x (RuntimeError msg)).
Proof. intros s e. unfold insert_new. case_bool_decide; naive_solver. Qed.
Lemma throws_runtime_bind {σ A B} (m : ST σ A) (k : A → ST σ B) :
  throws_runtime m → (∀ a, throws_runtime (k a)) → throws_runtime (m ≫= k).
Proof.
  intros Hm Hk s e. unfold mbind, ST_bind. destruct (m s) as [[a s']|e'] eqn:E.
  - apply Hk.
  - intros [= <-]. by eapply Hm.
Qed.
Lemma throws_runtime_each {σ A} (l : list A) (body : A → ST σ unit) :
  (∀ x, throws_runtime (body x)) → throws_runtime (for_each l body).
Proof. intros Hb. induction l as [|x l IH]; [done|]. by apply throws_runtime_bind. Qed.

Ltac throws_runtime_all :=
  repeat first
    [apply throws_runtime_check | apply throws_runtime_insert
    | apply throws_runtime_bind; [|intros ?] | apply throws_runtime_each; intros ?].

Lemma validate_config_errors c e :
  validate_config c = Err e → ∃ msg, e = RuntimeError msg.
Proof.
  unfold validate_config.
  assert (throws_runtime (for_each (bc_brokers c) validate_broker)) as Hb.
  { unfold validate_broker. throws_runtime_all. }
  assert (∀ ids, throws_runtime (for_each (bc_topics c) (validate_topic ids))) as Ht.
  { intros ids. unfold validate_topic, validate_partition. throws_runtime_all. }
  destruct (for_each (bc_brokers c) _ _) as [[[] ids]|e'] eqn:E.
  - destruct (negb _); [naive_solver|]. destruct (_ =? 0); [naive_solver|].
    destruct (for_each (bc_topics c) _ _) as [[]|e''] eqn:E'; [done|].
    intros [= <-]. by eapply Ht.
  - intros [= <-]. by eapply Hb.
Qed.

(** The changes [validate_reload] lets through, on each side of a reload. *)
Definition endpoint_kept (new_config : BrokerConfig) (b : BrokerEndpoint) : Prop :=
  ∃ b', find_broker new_config (be_id b) = Some b' ∧ be_kafka_host b' = be_kafka_host b ∧
    be_kafka_port b' = be_kafka_port b ∧ be_mercury_address b' = be_mercury_address b.
Definition placement_kept (new_config : BrokerConfig) (p : PartitionConfig) : Prop :=
  ∃ q, find_partition new_config (pc_topic p) (pc_partition p) = Some q ∧
    pc_shard q = pc_shard p ∧ pc_replicas q = pc_replicas p ∧ pc_isr q = pc_isr p ∧
    pc_migration_generation q = pc_migration_generation p ∧
    pc_migration_target_shard q = pc_migration_target_shard p ∧
    pc_migration_target_leader q = pc_migration_target_leader p.
(** The same path: rooted or not, with the same names.  How many separators
    stand between two names does not matter. *)
Definition same_path (p q : cstring) : Prop :=
  has_root_directory p = has_root_directory q ∧ relative_path false [] p = relative_path false [] q.
#[global] Instance same_path_equivalence : Equivalence same_path.
Proof.
  split; [done| |].
  - intros p q []. split; congruence.
  - intros p q r [] []. split; congruence.
Qed.

Lemma path_eqb_spec p q : reflect (same_path p q) (path_eqb p q).
Proof.
  unfold path_eqb, same_path. destruct (eqb_spec (has_root_directory p) (has_root_directory q)) as [Hr|Hr]; [|by constructor; intros []].
  cbn [andb]. case_bool_decide; constructor; tauto.
Qed.

Lemma relative_path_separators nested name p q :
  relative_path nested name (p ++ str "//" ++ q) = relative_path nested name (p ++ str "/" ++ q).
Proof.
  revert nested name. induction p as [|c p IH]; intros nested name; [by destruct name|].
  cbn [relative_path app]. destruct (Byte.eqb c Byte.x2f); [destruct name; by rewrite IH|apply IH].
Qed.
Lemma same_path_separators p q : same_path (p ++ str "//" ++ q) (p ++ str "/" ++ q).
Proof. split; [by destruct p|apply relative_path_separators]. Qed.

(** A name is what is left of a path without separators. *)
Lemma relative_path_name nested name p : Byte.x2f ∉ p → name ++ p ≠ [] → relative_path nested name p = [name ++ p].
Proof.
  revert name. induction p as [|c p IH]; intros name Hp Hne; cbn [relative_path].
  - rewrite app_nil_r in *. by destruct name.
  - rewrite elem_of_cons in Hp. destruct (Byte.eqb c Byte.x2f) eqn:E; [apply Byte.byte_dec_bl in E; naive_solver|].
    rewrite IH; rewrite <- ?app_assoc; cbn; [done|naive_solver|done].
Qed.
Lemma same_name p q : Byte.x2f ∉ p → Byte.x2f ∉ q → p ≠ [] → q ≠ [] → same_path p q → p = q.
Proof. intros Hp Hq Hp0 Hq0 [_ E]. rewrite !relative_path_name in E by done. by injection E. Qed.

Definition reload_allowed (old_config new_config : BrokerConfig) : Prop :=
  bc_node_id old_config = bc_node_id new_config ∧
  same_path (bc_data_dir old_config) (bc_data_dir new_config) ∧
  bc_segment_bytes old_config = bc_segment_bytes new_config ∧
  length (bc_brokers old_config) = length (bc_brokers new_config) ∧
  Forall (endpoint_kept new_config) (bc_brokers old_config) ∧
  Forall (placement_kept new_config) (all_partitions old_config).

(** A loop over elements that are checked one by one. *)
Lemma for_each_iff {A} (l : list A) (body : A → ST unit unit) (P : A → Prop) :
  (∀ x, body x tt = Ok (tt, tt) ↔ P x) → for_each l body tt = Ok (tt, tt) ↔ Forall P l.
Proof.
  intros Hb. induction l as [|x l IH]; simpl; [split; [constructor|done]|].
  rewrite st_bind_ok_iff, Forall_cons, <- IH, <- Hb. split.
  - intros ([] & ? & ?). done.
  - intros [? ?]. by exists tt.
Qed.

Lemma unit_result (m : result (unit * unit)) :
  match m with Ok _ => Ok tt | Err e => Err e end = Ok tt ↔ m = Ok (tt, tt).
Proof. destruct m as [[[] []]|e]; naive_solver. Qed.

Lemma validate_reload_iff old_config new_config :
  validate_reload old_config new_config = Ok tt ↔ reload_allowed old_config new_config.
Proof.
  unfold validate_reload, reload_allowed.
  destruct (Z.eqb_spec (bc_node_id old_config) (bc_node_id new_config)); [simpl|by split; [|intros []]].
  destruct (path_eqb_spec (bc_data_dir old_config) (bc_data_dir new_config));
    [simpl|split; [done|tauto]].
  destruct (Z.eqb_spec (bc_segment_bytes old_config) (bc_segment_bytes new_config));
    [simpl|split; [done|tauto]].
  destruct (Z.eqb_spec (zlen (bc_brokers old_config)) (zlen (bc_brokers new_config))) as [Hl|Hl];
    unfold zlen in Hl; [simpl|split; [done|intros (_ & _ & _ & ? & _); lia]].
  match goal with |- context [for_each (bc_brokers old_config) ?b tt] => set (bb := b) end.
  match goal with |- context [for_each (all_partitions old_config) ?b tt] => set (pb := b) end.
  pose proof (for_each_iff (bc_brokers old_config) bb (endpoint_kept new_config)) as Hb.
  pose proof (for_each_iff (all_partitions old_config) pb (placement_kept new_config)) as Hp.
  rewrite <- Hb, <- Hp.
  - rewrite <- (unit_result (for_each (all_partitions _) pb tt)).
    destruct (for_each (bc_brokers old_config) bb tt) as [[[] []]|err].
    + split; [|tauto]. intros ?. split_and!; try done. lia.
    + split; [done|]. intros (_ & _ & _ & _ & ? & _). done.
  - intros p. unfold pb, placement_kept.
    destruct (find_partition new_config _ _) as [q|]; [|naive_solver].
    rewrite !check_bind_iff, check_iff, !andb_true_iff, !bool_decide_eq_true, !Z.eqb_eq.
    naive_solver.
  - intros b. unfold bb, endpoint_kept. rewrite check_iff.
    destruct (find_broker new_config (be_id b)) as [b'|]; [|naive_solver].
    rewrite !andb_true_iff, Z.eqb_eq.
    destruct (cstring_eqb_spec (be_kafka_host b') (be_kafka_host b)),
      (cstring_eqb_spec (be_mercury_address b') (be_mercury_address b)); naive_solver.
Qed.

Lemma reload_keeps_brokers old_config new_config :
  config_valid old_config → reload_allowed old_config new_config →
  bc_brokers old_config ≡ₚ bc_brokers new_config.
Proof.
  intros (Hnd & _) (_ & _ & _ & Hlen & Hkept & _).
  apply submseteq_length_Permutation; [|lia]. apply NoDup_submseteq.
  - unfold broker_ids in Hnd. by eapply NoDup_fmap_1.
  - intros b Hb. rewrite Forall_forall in Hkept. destruct (Hkept b Hb) as (b' & Hf & Hh & Hp & Hm).
    apply List.find_some in Hf as [Hin Hid]. rewrite Z.eqb_eq in Hid.
    apply list_elem_of_In in Hin. destruct b, b'. simpl in *. by subst.
Qed.

(** ** Theorems *)

(** C37: [validate_config] accepts exactly the valid configurations: unique
    broker ids with endpoints, this node among them, a positive segment size,
    unique partition keys, and for every partition a leader among its
    replicas, known replicas, an ISR inside the replicas and positive limits.
    Everything else ends in a [std::runtime_error]. *)
Theorem validate_config_exact (c : BrokerConfig) :
  (validate_config c = Ok tt ↔ config_valid c) ∧
  (¬ config_valid c → ∃ msg, validate_config c = Err (RuntimeError msg)).
Proof.
  split; [apply validate_config_valid|]. intros Hn.
  destruct (validate_config c) as [[]|e] eqn:E; [by apply validate_config_valid in E|].
  apply validate_config_errors in E as [msg ->]. by exists msg.
Qed.

(** C38: whatever YAML document it comes from, a configuration that
    [parse_config_node] returns is valid, has every integer in the range of
    its C++ type, and [find_partition] finds in it exactly its partitions by
    topic and id. *)
Theorem parse_config_node_sound `{YamlLaws} (root : YamlNode) (c : BrokerConfig) :
  parse_config_node root = Ok c →
  config_valid c ∧ config_typed c ∧
  ∀ topic partition p, find_partition c topic partition = Some p ↔
    p ∈ all_partitions c ∧ pc_topic p = topic ∧ pc_partition p = partition.
Proof.
  intros Hc. apply parse_config_node_inv in Hc as [Hv Ht]. split; [done|]. split; [done|].
  intros topic partition p. rewrite find_partition_iff by (done || by apply config_typed_consistent).
  unfold partition_key. naive_solver.
Qed.

(** A single-broker document. *)
Definition sample_yaml : @YamlNode yaml_tree := YMap [
  (str "node_id", YInt 1); (str "cluster_generation", YInt 1); (str "data_dir", YScalar (str "data"));
  (str "brokers", YSequence [YMap [
    (str "id", YInt 1); (str "kafka_host", YScalar (str "127.0.0.1")); (str "kafka_port", YInt 9092);
    (str "mercury_address", YScalar (str "ofi+tcp://127.0.0.1:3344"))]]);
  (str "topics", YSequence [YMap [
    (str "name", YScalar (str "orders"));
    (str "partitions", YSequence [YMap [
      (str "id", YInt 0); (str "shard", YInt 0); (str "leader", YInt 1);
      (str "replicas", YSequence [YInt 1]); (str "isr", YSequence [YInt 1]);
      (str "durability", YScalar (str "fsync")); (str "queue_limit", YInt 16);
      (str "max_frame_bytes", YInt 4096); (str "fetch_visibility", YScalar (str "high_watermark"));
      (str "allow_follower_fetch", YScalar (str "false"))]])]])].
Definition sample_partition : PartitionConfig :=
  mkPartitionConfig (str "orders") 0 0 [1] [1] Fsync 16 4096 HighWatermark false 1 0 0 (-1).
Definition sample_config : BrokerConfig :=
  mkBrokerConfig 1 1 (str "data") 9642 100 100 (1024 * 1024 * 1024)
    [mkBrokerEndpoint 1 (str "127.0.0.1") 9092 (str "ofi+tcp://127.0.0.1:3344")]
    [mkTopicConfig (str "orders") [sample_partition]].

Lemma parse_config_node_sound_witness :
  parse_config_node sample_yaml = Ok sample_config ∧
  find_partition sample_config (str "orders") 0 = Some sample_partition ∧
  config_valid sample_config ∧ config_typed sample_config ∧
  ∀ topic partition p, find_partition sample_config topic partition = Some p ↔
    p ∈ all_partitions sample_config ∧ pc_topic p = topic ∧ pc_partition p = partition.
Proof.
  split; [vm_compute; reflexivity|]. split; [reflexivity|].
  apply (parse_config_node_sound sample_yaml sample_config). vm_compute. reflexivity.
Defined.

(** C39: a SIGHUP reload is accepted exactly when node id, data directory (as
    a path: repeated separators do not matter), segment size and the number of
    brokers are unchanged, every broker keeps its endpoint, and every
    existing partition keeps its shard, replicas, ISR and migration block;
    starting from a valid configuration the brokers are then the same up to
    order. *)
Theorem validate_reload_exact (old_config new_config : BrokerConfig) :
  config_valid old_config →
  (validate_reload old_config new_config = Ok tt ↔ reload_allowed old_config new_config) ∧
  (validate_reload old_config new_config = Ok tt → bc_brokers old_config ≡ₚ bc_brokers new_config).
Proof.
  intros Hv. split; [apply validate_reload_iff|]. intros Hr.
  apply reload_keeps_brokers; [done|]. by apply validate_reload_iff.
Qed.

(** The same configuration, with its data directory spelled as [dir]. *)
Definition spelled (dir : cstring) : BrokerConfig :=
  mkBrokerConfig (bc_node_id sample_config) (bc_cluster_generation sample_config) dir (bc_metrics_port sample_config)
    (bc_fetch_max_wait_ms_cap sample_config) (bc_produce_wait_ms_cap sample_config) (bc_segment_bytes sample_config) (bc_brokers sample_config) (bc_topics sample_config).

Lemma validate_reload_exact_witness :
  config_valid (spelled (str "data/x")) ∧ reload_allowed (spelled (str "data/x")) (spelled (str "data//x")) ∧
  ¬ reload_allowed (spelled (str "data/x")) (spelled (str "data/x/")) ∧
  bc_brokers (spelled (str "data/x")) ≡ₚ bc_brokers (spelled (str "data//x")).
Proof.
  assert (config_valid (spelled (str "data/x"))) as Hv.
  { apply validate_config_valid. vm_compute. reflexivity. }
  split; [exact Hv|]. destruct (validate_reload_exact (spelled (str "data/x")) (spelled (str "data//x")) Hv) as [Hiff Hb].
  split; [apply Hiff; vm_compute; reflexivity|]. split; [|apply Hb; vm_compute; reflexivity].
  intros Hno. apply (validate_reload_exact (spelled (str "data/x")) (spelled (str "data/x/")) Hv) in Hno.
  vm_compute in Hno. discriminate Hno.
Defined.
