(* ===== verification/Detail.v ===== *)
(** * Shared helpers of the broker and the log

    Models src/broker_shard_detail.hpp and src/broker_shard_detail.cpp: the
    native-endian integer images of the on-disk formats, segment file names,
    and the codec of the replication messages (the reload checks are in
    Config.v). *)

From Stdlib Require Import ZArith Lia.
From stdpp Require Import base tactics list numbers option.
From S2P Require Import Prelude Wire Protocol Config RecordBatch.

Local Open Scope Z_scope.

(** ** File-format constants and byte-level helpers *)

Definition kLogMagic : bytes := str "MKMQLOG1".
Definition kIndexMagic : bytes := str "MKMQIDX1".
Definition kIndexEntryPayloadSize : Z := 48.
Definition kReplicaCatchupMaxBytes : Z := 1024 * 1024.

Definition round_up (value alignment : Z) : Z :=
  u64 (u64 (value + alignment - 1) / alignment * alignment).

(** [memcpy(buf + off, src, |src|)] and [memcmp(buf + off, src, |src|) == 0]. *)
Definition memcpy_at (off : nat) (src buf : bytes) : bytes :=
  take off buf ++ src ++ drop (off + length src) buf.
Definition memcmp_eq (buf : bytes) (off : nat) (src : bytes) : bool :=
  bool_decide (slice off (length src) buf = src).

Definition put_i32 (off : nat) (value : Z) (buf : bytes) : bytes := memcpy_at off (le_bytes 4 value) buf.
Definition put_i64 (off : nat) (value : Z) (buf : bytes) : bytes := memcpy_at off (le_bytes 8 value) buf.
Definition get_i32 (off : nat) (buf : bytes) : Z := i32 (le_value (slice off 4 buf)).
Definition get_i64 (off : nat) (buf : bytes) : Z := i64 (le_value (slice off 8 buf)).

(** The four-byte length prefix of a Kafka frame. *)
Definition decode_frame_size (b0 b1 b2 b3 : byte) : Z :=
  i32 (Z.lor (Z.lor (Z.lor (u32 (Z.shiftl b0 24)) (u32 (Z.shiftl b1 16)))
                    (u32 (Z.shiftl b2 8))) b3).

Definition partition_missing : Z := error_code_value UnknownTopicOrPartition.

Definition request_api_key (payload : bytes) : Z :=
  match payload with
  | b0 :: b1 :: _ => i16 (Z.lor (Z.shiftl b0 8) b1)
  | _ => -1
  end.

(** ** Segment file names *)

Definition sanitized_topic_name (name : cstring) : cstring :=
  map (λ ch, if bool_decide (ch = Byte.x2f) || bool_decide (ch = Byte.x3a) then Byte.x5f else ch) name.

Definition segment_prefix (config : PartitionConfig) : cstring :=
  sanitized_topic_name (pc_topic config) ++ str "-" ++ to_string (pc_partition config) ++ str "-".

(** [std::setw(20) << std::setfill('0')]. *)
Definition setw20 (s : cstring) : cstring := replicate (20 - length s) Byte.x30 ++ s.

Definition segment_suffix : cstring := str ".segment".

Definition segment_name (config : PartitionConfig) (base_offset : Z) : cstring :=
  segment_prefix config ++ setw20 (to_string base_offset) ++ segment_suffix.

(** [std::stoll] on a string of digits. *)
Definition stoll (digits : cstring) : result Z :=
  let v := decimal_value digits in
  if v <? 2 ^ 63 then Ok v else Err (OutOfRange (str "stoll")).

Definition segment_base_offset_from_name (config : PartitionConfig) (filename : cstring)
    : result (option Z) :=
  let prefix := segment_prefix config in
  if (zlen filename <=? zlen prefix + zlen segment_suffix)
     || negb (bool_decide (take (length prefix) filename = prefix))
     || negb (bool_decide (drop (length filename - length segment_suffix) filename = segment_suffix))
  then Ok None
  else
    let digits := take (length filename - length prefix - length segment_suffix)
                       (drop (length prefix) filename) in
    if bool_decide (digits = []) || negb (forallb is_digit digits) then Ok None
    else v ← stoll digits; Ok (Some v).

(** ** The replication messages *)

Record ReplicaAppendRequest := mkReplicaAppendRequest {
  raq_topic : cstring;
  raq_partition : Z;
  raq_base_offset : Z;
  raq_leader_high_watermark : Z;
  raq_records : bytes;
}.

Record ReplicaFetchRequest := mkReplicaFetchRequest {
  rfq_topic : cstring;
  rfq_partition : Z;
  rfq_offset : Z;
  rfq_max_bytes : Z;
}.

Record ReplicaFetchResult := mkReplicaFetchResult {
  rfr_error_code : Z;
  rfr_leader_high_watermark : Z;
  rfr_log_end_offset : Z;
  rfr_records : bytes;
}.

Record ProducePartitionResult := mkProducePartitionResult {
  ppr_topic : cstring;
  ppr_partition : Z;
  ppr_error_code : Z;
  ppr_base_offset : Z;
  ppr_log_end_offset : Z;
  ppr_log_start_offset : Z;
}.

(** Runs a decoder on a payload of its own. *)
Definition decode_payload {A} (m : Reader A) (payload : bytes) : result A :=
  match m (WireReader_of payload) with Ok (v, _) => Ok v | Err e => Err e end.

Definition read_replica_append : Reader ReplicaAppendRequest :=
  topic ← read_string;
  partition ← read_int32;
  base_offset ← read_int64;
  leader_high_watermark ← read_int64;
  records ← read_bytes;
  mret (mkReplicaAppendRequest topic partition base_offset leader_high_watermark records).
Definition decode_replica_append (payload : bytes) : result ReplicaAppendRequest :=
  decode_payload read_replica_append payload.

Definition encode_replica_append (request : ReplicaAppendRequest) : result bytes :=
  take_bytes (
    write_string (raq_topic request);;
    write_int32 (raq_partition request);;
    write_int64 (raq_base_offset request);;
    write_int64 (raq_leader_high_watermark request);;
    write_bytes (raq_records request)).

Definition encode_replica_append_response (error_code log_end_offset : Z) : result bytes :=
  take_bytes (write_int16 error_code;; write_int64 log_end_offset).

Definition read_replica_fetch : Reader ReplicaFetchRequest :=
  topic ← read_string;
  partition ← read_int32;
  offset ← read_int64;
  max_bytes ← read_int32;
  mret (mkReplicaFetchRequest topic partition offset max_bytes).
Definition decode_replica_fetch (payload : bytes) : result ReplicaFetchRequest :=
  decode_payload read_replica_fetch payload.

Definition encode_replica_fetch (request : ReplicaFetchRequest) : result bytes :=
  take_bytes (
    write_string (rfq_topic request);;
    write_int32 (rfq_partition request);;
    write_int64 (rfq_offset request);;
    write_int32 (rfq_max_bytes request)).

Definition encode_replica_fetch_response (result : ReplicaFetchResult) : Prelude.result bytes :=
  take_bytes (
    write_int16 (rfr_error_code result);;
    write_int64 (rfr_leader_high_watermark result);;
    write_int64 (rfr_log_end_offset result);;
    write_bytes (rfr_records result)).

Definition read_replica_fetch_response : Reader ReplicaFetchResult :=
  error_code ← read_int16;
  leader_high_watermark ← read_int64;
  log_end_offset ← read_int64;
  records ← read_bytes;
  mret (mkReplicaFetchResult error_code leader_high_watermark log_end_offset records).
Definition decode_replica_fetch_response (payload : bytes) : result ReplicaFetchResult :=
  decode_payload read_replica_fetch_response payload.

(** [result.log_end_offset] keeps its default: the follower's is dropped. *)
Definition read_replica_append_response (request : ReplicaAppendRequest) : Reader ProducePartitionResult :=
  error_code ← read_int16;
  read_int64;;
  mret (mkProducePartitionResult (raq_topic request) (raq_partition request) error_code
    (raq_base_offset request) 0 0).
Definition decode_replica_append_response (request : ReplicaAppendRequest) (payload : bytes)
    : result ProducePartitionResult :=
  decode_payload (read_replica_append_response request) payload.

(** ** Lemmas: alignment and buffers *)

Lemma round_up_spec value alignment :
  0 < alignment → 0 <= value → value + alignment <= 2 ^ 64 →
  value <= round_up value alignment < value + alignment ∧
  (alignment | round_up value alignment) ∧
  round_up value alignment = (value + alignment - 1) / alignment * alignment.
Proof.
  intros Ha Hv Hb. unfold round_up.
  rewrite (wrap_u_id 64 (value + alignment - 1)) by (unfold in_u; lia).
  pose proof (Z.div_mod (value + alignment - 1) alignment ltac:(lia)).
  pose proof (Z.mod_pos_bound (value + alignment - 1) alignment ltac:(lia)).
  assert (0 <= (value + alignment - 1) / alignment) by (apply Z.div_pos; lia).
  rewrite wrap_u_id by (unfold in_u; nia).
  split; [nia|]. split; [|done]. exists ((value + alignment - 1) / alignment). done.
Qed.

Lemma round_up_mult value alignment :
  0 < alignment → 0 <= value → value + alignment <= 2 ^ 64 → (alignment | value) →
  round_up value alignment = value.
Proof.
  intros Ha Hv Hb [k Hk]. destruct (round_up_spec value alignment Ha Hv Hb) as ([H1 H2] & [q Hq] & _).
  rewrite Hq in *. subst value. assert (k <= q < k + 1) by nia. f_equal. lia.
Qed.

(** Filling a zeroed buffer from the front. *)
Lemma memcpy_fill (pre src : bytes) k x off :
  off = length pre → (length src <= k)%nat →
  memcpy_at off src (pre ++ replicate k x) = (pre ++ src) ++ replicate (k - length src) x.
Proof.
  intros -> Hk. unfold memcpy_at. rewrite take_app_length, <- drop_drop, drop_app_length.
  by rewrite drop_replicate, <- app_assoc.
Qed.

(** Reading a field back. *)
Lemma slice_field (pre m post : bytes) off n :
  off = length pre → n = length m → slice off n (pre ++ m ++ post) = m.
Proof. intros -> ->. unfold slice. by rewrite drop_app_length, take_app_length. Qed.

Lemma slice_front (m post : bytes) n : n = length m → slice 0 n (m ++ post) = m.
Proof. intros ->. unfold slice. by rewrite drop_0, take_app_length. Qed.

Lemma get_i64_field (pre post : bytes) off z :
  off = length pre → in_s 64 z → get_i64 off (pre ++ le_bytes 8 z ++ post) = z.
Proof.
  intros Hoff Hz. unfold get_i64. rewrite slice_field by (done || by rewrite length_le_bytes).
  apply (le_signed_roundtrip 8 z); [lia|exact Hz].
Qed.

Lemma get_i32_field (pre post : bytes) off z :
  off = length pre → in_s 32 z → get_i32 off (pre ++ le_bytes 4 z ++ post) = z.
Proof.
  intros Hoff Hz. unfold get_i32. rewrite slice_field by (done || by rewrite length_le_bytes).
  apply (le_signed_roundtrip 4 z); [lia|exact Hz].
Qed.

Lemma decode_frame_size_be b0 b1 b2 b3 :
  decode_frame_size b0 b1 b2 b3 = i32 (be_value [b0; b1; b2; b3]).
Proof. unfold decode_frame_size. by rewrite lor_be4. Qed.

(** ** Lemmas: segment names *)

Lemma to_string_nonneg z : 0 <= z → to_string z = decimal_digits 20 z [].
Proof. intros. unfold to_string. by destruct (Z.ltb_spec z 0); [lia|]. Qed.

Lemma to_string_digits z :
  0 <= z → forallb is_digit (to_string z) = true ∧ to_string z ≠ [].
Proof.
  intros Hz. rewrite to_string_nonneg by done. split.
  - apply forallb_forall. intros c Hc.
    pose proof (decimal_digits_all 20 z [] ltac:(constructor)) as Hall.
    rewrite Forall_forall in Hall. by apply Hall.
  - apply decimal_digits_nonempty. lia.
Qed.

Lemma to_string_value z : 0 <= z < 10 ^ 20 → decimal_value (to_string z) = z.
Proof.
  intros Hz. rewrite to_string_nonneg by lia. unfold decimal_value.
  rewrite (decimal_digits_value 20 z []); [done|change (Z.of_nat 20) with 20; lia|lia].
Qed.

Lemma decimal_value_zeros k ds : decimal_value (replicate k Byte.x30 ++ ds) = decimal_value ds.
Proof. induction k as [|k IH]; [done|]. exact IH. Qed.

Lemma setw20_digits z :
  0 <= z < 2 ^ 63 →
  forallb is_digit (setw20 (to_string z)) = true ∧ setw20 (to_string z) ≠ [] ∧
  decimal_value (setw20 (to_string z)) = z.
Proof.
  intros Hz. destruct (to_string_digits z ltac:(lia)) as [Hd Hn]. unfold setw20. split_and!.
  - rewrite forallb_app, Hd, andb_true_r. by induction (20 - length (to_string z))%nat.
  - intros E. by apply app_nil in E as [_ ?].
  - rewrite decimal_value_zeros. apply to_string_value. lia.
Qed.

(** What the name parser accepts: the prefix, some digits, the suffix. *)
Lemma segment_name_parse config digits :
  forallb is_digit digits = true → digits ≠ [] →
  segment_base_offset_from_name config (segment_prefix config ++ digits ++ segment_suffix)
  = (v ← stoll digits; Ok (Some v)).
Proof.
  intros Hd Hn. unfold segment_base_offset_from_name. set (pre := segment_prefix config).
  assert (0 < zlen digits) by (destruct digits; [done|rewrite zlen_cons; pose proof (zlen_nonneg digits); lia]).
  rewrite take_app_length, (bool_decide_true (pre = pre)) by done.
  rewrite (bool_decide_true (drop _ _ = segment_suffix)); cycle 1.
  { rewrite app_assoc. apply drop_app_length'. rewrite !length_app. lia. }
  rewrite !zlen_app. bcase; [lia|]. cbn [negb orb].
  rewrite drop_app_length.
  replace (length (pre ++ digits ++ segment_suffix) - length pre - length segment_suffix)%nat
    with (length digits) by (rewrite !length_app; lia).
  by rewrite take_app_length, (bool_decide_false (digits = [])), Hd by done.
Qed.

Lemma segment_parse_inv config filename b :
  segment_base_offset_from_name config filename = Ok (Some b) →
  ∃ digits, filename = segment_prefix config ++ digits ++ segment_suffix ∧
    forallb is_digit digits = true ∧ digits ≠ [] ∧ stoll digits = Ok b.
Proof.
  unfold segment_base_offset_from_name. set (pre := segment_prefix config).
  destruct (Z.leb_spec (zlen filename) (zlen pre + zlen segment_suffix)) as [|Hlen]; [done|].
  case_bool_decide as Hpre; [|done]. case_bool_decide as Hsuf; [|done]. cbn [negb orb].
  set (digits := take _ _). case_bool_decide as Hd; [done|].
  destruct (forallb is_digit digits) eqn:Hall; [|done]. simpl. intros Hs.
  apply result_bind_inv in Hs as (v & Hv & Hs). injection Hs as ->.
  exists digits. split_and!; try done. unfold zlen in Hlen.
  rewrite <- (take_drop (length pre) filename) at 1. rewrite Hpre. f_equal.
  rewrite <- (take_drop (length filename - length pre - length segment_suffix)
    (drop (length pre) filename)) at 1. fold digits. f_equal.
  rewrite drop_drop. etrans; [|exact Hsuf]. f_equal. lia.
Qed.

(** Two ways to cut a string right after a dash, with digits behind. *)
Lemma cut_after_dash (p1 d1 p2 d2 : cstring) :
  p1 ++ Byte.x2d :: d1 = p2 ++ Byte.x2d :: d2 →
  forallb is_digit d1 = true → forallb is_digit d2 = true → p1 = p2 ∧ d1 = d2.
Proof.
  intros E H1 H2.
  assert (∀ p k d d', forallb is_digit d = true → (Byte.x2d :: d : cstring) = k ++ Byte.x2d :: d' →
    p = p ++ k ∧ d = d') as Hcut.
  { intros p [|c k] d d' Hd Ek; [rewrite app_nil_r; by injection Ek as ->|].
    injection Ek as _ ->. rewrite forallb_app in Hd. simpl in Hd.
    apply andb_true_iff in Hd as [_ Hd]. done. }
  apply app_eq_inv in E as [(k & -> & E)|(k & -> & E)].
  - destruct (Hcut p2 k d2 d1 H2 E) as [<- ->]. done.
  - destruct (Hcut p1 k d1 d2 H1 E) as [<- ->]. done.
Qed.

Lemma segment_prefix_inj c1 c2 :
  in_s 32 (pc_partition c1) → 0 <= pc_partition c1 → in_s 32 (pc_partition c2) → 0 <= pc_partition c2 →
  segment_prefix c1 = segment_prefix c2 →
  sanitized_topic_name (pc_topic c1) = sanitized_topic_name (pc_topic c2) ∧
  pc_partition c1 = pc_partition c2.
Proof.
  unfold in_s, segment_prefix. intros H1 H1' H2 H2' E.
  rewrite !app_assoc in E. apply app_inj_2 in E as [E _]; [|done].
  rewrite <- !app_assoc in E.
  apply cut_after_dash in E as [Et Ep]; [|by apply to_string_digits..].
  split; [done|]. apply (f_equal decimal_value) in Ep.
  by rewrite !to_string_value in Ep by lia.
Qed.

(** ** Lemmas: replication messages *)

Definition replica_append_wf (q : ReplicaAppendRequest) : Prop :=
  fits16 (raq_topic q) ∧ in_s 32 (raq_partition q) ∧ in_s 64 (raq_base_offset q) ∧
  in_s 64 (raq_leader_high_watermark q) ∧ zlen (raq_records q) < 2 ^ 31.
Definition replica_fetch_wf (q : ReplicaFetchRequest) : Prop :=
  fits16 (rfq_topic q) ∧ in_s 32 (rfq_partition q) ∧ in_s 64 (rfq_offset q) ∧
  in_s 32 (rfq_max_bytes q).
Definition replica_fetch_result_wf (r : ReplicaFetchResult) : Prop :=
  in_s 16 (rfr_error_code r) ∧ in_s 64 (rfr_leader_high_watermark r) ∧
  in_s 64 (rfr_log_end_offset r) ∧ zlen (rfr_records r) < 2 ^ 31.

Definition enc_replica_append (q : ReplicaAppendRequest) : bytes :=
  enc_string (raq_topic q) ++ be_bytes 4 (raq_partition q) ++ be_bytes 8 (raq_base_offset q) ++
  be_bytes 8 (raq_leader_high_watermark q) ++ enc_bytes (raq_records q).
Definition enc_replica_fetch (q : ReplicaFetchRequest) : bytes :=
  enc_string (rfq_topic q) ++ be_bytes 4 (rfq_partition q) ++ be_bytes 8 (rfq_offset q) ++
  be_bytes 4 (rfq_max_bytes q).
Definition enc_replica_fetch_result (r : ReplicaFetchResult) : bytes :=
  be_bytes 2 (rfr_error_code r) ++ be_bytes 8 (rfr_leader_high_watermark r) ++
  be_bytes 8 (rfr_log_end_offset r) ++ enc_bytes (rfr_records r).

#[export] Hint Resolve reads_string reads_bytes reads_int16_enc reads_int32_enc reads_int64_enc : mkmq.
#[export] Hint Resolve writes_string writes_bytes writes_int16 writes_int32 writes_int64 : mkmq.

Lemma zlen_be_bytes n z : zlen (be_bytes n z) = Z.of_nat n.
Proof. unfold zlen. by rewrite length_be_bytes. Qed.
Lemma zlen_enc_string s : zlen (enc_string s) = 2 + zlen s.
Proof. unfold enc_string. by rewrite zlen_app, zlen_be_bytes. Qed.
Lemma zlen_enc_bytes s : zlen (enc_bytes s) = 4 + zlen s.
Proof. unfold enc_bytes. by rewrite zlen_app, zlen_be_bytes. Qed.

Lemma decode_payload_reads {A} (m : Reader A) enc v :
  reads m enc v → zlen enc < 2 ^ 64 → decode_payload m enc = Ok v.
Proof.
  intros Hm Hl. unfold decode_payload. rewrite <- (app_nil_r enc) in Hl |- *.
  by rewrite (reads_buffer m enc v []).
Qed.

Lemma decode_payload_safe {A} (m : Reader A) P payload :
  decodes m P → zlen payload < 2 ^ 64 →
  match decode_payload m payload with Ok v => P v | Err e => defined e end.
Proof.
  intros Hm Hl. specialize (Hm _ (WireReader_of_wf payload Hl)). unfold decode_payload.
  destruct (m _) as [[v r]|e]; [|done]. by destruct Hm as [? _].
Qed.

(** Field by field, with the last field under a [bind] to [mret]. *)
Ltac fields_step :=
  lazymatch goal with
  | |- reads (mbind (λ x, mret (@?f x)) _) _ _ => eapply (reads_bind_ret _ f); solve [eauto with mkmq]
  | |- reads (mbind _ _) _ _ => eapply reads_bind; [solve [eauto with mkmq]|cbv beta]
  | |- writes (mbind _ _) _ => apply writes_bind; [solve [eauto with mkmq]|cbv beta]
  | |- writes _ _ => solve [eauto with mkmq]
  end.

Lemma reads_replica_append q :
  replica_append_wf q → reads read_replica_append (enc_replica_append q) q.
Proof. intros (? & ? & ? & ? & ?). destruct q. unfold read_replica_append. repeat fields_step. Qed.
Lemma reads_replica_fetch q :
  replica_fetch_wf q → reads read_replica_fetch (enc_replica_fetch q) q.
Proof. intros (? & ? & ? & ?). destruct q. unfold read_replica_fetch. repeat fields_step. Qed.
Lemma reads_replica_fetch_response r :
  replica_fetch_result_wf r → reads read_replica_fetch_response (enc_replica_fetch_result r) r.
Proof. intros (? & ? & ? & ?). destruct r. unfold read_replica_fetch_response. repeat fields_step. Qed.

Lemma encode_replica_append_enc q :
  replica_append_wf q → encode_replica_append q = Ok (enc_replica_append q).
Proof. intros (? & ? & ? & ? & ?). apply writes_take_bytes. unfold enc_replica_append. repeat fields_step. Qed.
Lemma encode_replica_fetch_enc q :
  replica_fetch_wf q → encode_replica_fetch q = Ok (enc_replica_fetch q).
Proof. intros (? & ? & ? & ?). apply writes_take_bytes. unfold enc_replica_fetch. repeat fields_step. Qed.
Lemma encode_replica_fetch_response_enc r :
  replica_fetch_result_wf r → encode_replica_fetch_response r = Ok (enc_replica_fetch_result r).
Proof. intros (? & ? & ? & ?). apply writes_take_bytes. unfold enc_replica_fetch_result. repeat fields_step. Qed.

Lemma replica_append_roundtrip q :
  replica_append_wf q →
  encode_replica_append q = Ok (enc_replica_append q) ∧
  decode_replica_append (enc_replica_append q) = Ok q.
Proof.
  intros Hq. split; [by apply encode_replica_append_enc|].
  apply decode_payload_reads; [by apply reads_replica_append|].
  destruct Hq as (Ht & _ & _ & _ & Hr). unfold fits16 in Ht. unfold enc_replica_append.
  rewrite !zlen_app, zlen_enc_string, zlen_enc_bytes, !zlen_be_bytes. lia.
Qed.

Lemma replica_fetch_roundtrip q :
  replica_fetch_wf q →
  encode_replica_fetch q = Ok (enc_replica_fetch q) ∧
  decode_replica_fetch (enc_replica_fetch q) = Ok q.
Proof.
  intros Hq. split; [by apply encode_replica_fetch_enc|].
  apply decode_payload_reads; [by apply reads_replica_fetch|].
  destruct Hq as (Ht & _). unfold fits16 in Ht. unfold enc_replica_fetch.
  rewrite !zlen_app, zlen_enc_string, !zlen_be_bytes. lia.
Qed.

Lemma replica_fetch_response_roundtrip r :
  replica_fetch_result_wf r →
  encode_replica_fetch_response r = Ok (enc_replica_fetch_result r) ∧
  decode_replica_fetch_response (enc_replica_fetch_result r) = Ok r.
Proof.
  intros Hr. split; [by apply encode_replica_fetch_response_enc|].
  apply decode_payload_reads; [by apply reads_replica_fetch_response|].
  destruct Hr as (_ & _ & _ & Hr). unfold enc_replica_fetch_result.
  rewrite !zlen_app, zlen_enc_bytes, !zlen_be_bytes. lia.
Qed.

Lemma replica_append_response_roundtrip q error_code log_end :
  in_s 16 error_code → in_s 64 log_end →
  encode_replica_append_response error_code log_end = Ok (be_bytes 2 error_code ++ be_bytes 8 log_end) ∧
  decode_replica_append_response q (be_bytes 2 error_code ++ be_bytes 8 log_end)
  = Ok (mkProducePartitionResult (raq_topic q) (raq_partition q) error_code (raq_base_offset q) 0 0).
Proof.
  intros He Hl. split; [apply writes_take_bytes; repeat fields_step|].
  apply decode_payload_reads; [|by rewrite zlen_app, !zlen_be_bytes].
  unfold read_replica_append_response. eapply reads_bind; [by apply reads_int16_enc|].
  eapply (reads_bind_ret _ (λ _, _)). by apply reads_int64_enc.
Qed.

Lemma replica_decoders_safe payload q :
  zlen payload < 2 ^ 64 →
  match decode_replica_append payload with
    Ok v => fits16 (raq_topic v) ∧ zlen (raq_records v) < 2 ^ 31 | Err e => defined e end ∧
  match decode_replica_fetch payload with Ok v => fits16 (rfq_topic v) | Err e => defined e end ∧
  match decode_replica_fetch_response payload with
    Ok v => zlen (rfr_records v) < 2 ^ 31 | Err e => defined e end ∧
  match decode_replica_append_response q payload with Ok v => True | Err e => defined e end.
Proof.
  intros Hl. split_and!; (eapply (decode_payload_safe _ (λ v, _)); [|done]);
    unfold read_replica_append, read_replica_fetch, read_replica_fetch_response,
      read_replica_append_response; decode_all; auto.
Qed.

(** ** Theorems *)

(** A partition's own segment names parse back, and its index is not taken
    for a segment. *)
Lemma segment_name_own config base_offset :
  0 <= base_offset < 2 ^ 63 →
  segment_base_offset_from_name config (segment_name config base_offset) = Ok (Some base_offset).
Proof.
  intros Hb. destruct (setw20_digits base_offset Hb) as (Hd & Hn & Hv).
  unfold segment_name. rewrite segment_name_parse by done. unfold stoll. rewrite Hv. cbv zeta. bcase; [done|lia].
Qed.

Lemma index_name_not_segment config pre :
  segment_base_offset_from_name config (pre ++ str ".index") = Ok None.
Proof.
  unfold segment_base_offset_from_name.
  destruct (zlen _ <=? _) eqn:Hlen; [done|]. apply Z.leb_gt in Hlen. cbn [orb].
  rewrite (bool_decide_false (drop _ _ = segment_suffix)); [by rewrite orb_true_r|].
  unfold zlen in Hlen. rewrite length_app in *.
  change (length segment_suffix) with 8%nat in *. change (length (str ".index")) with 6%nat in *.
  rewrite drop_app_le by lia. destruct (drop _ pre) as [|x [|y [|z k]]]; try done.
  intros E. apply (f_equal length) in E. rewrite !length_app in E. simpl in E. lia.
Qed.

(** A segment's file name gives back its base offset, and no other
    partition claims the file: the name parses for a partition exactly when
    its sanitised topic and its number are those of the owner. *)
Theorem segment_name_roundtrip (owner other : PartitionConfig) (base_offset : Z) :
  0 <= base_offset < 2 ^ 63 → in_s 32 (pc_partition owner) → 0 <= pc_partition owner →
  in_s 32 (pc_partition other) → 0 <= pc_partition other →
  segment_base_offset_from_name owner (segment_name owner base_offset) = Ok (Some base_offset) ∧
  (∀ b, segment_base_offset_from_name other (segment_name owner base_offset) = Ok (Some b) ↔
    sanitized_topic_name (pc_topic other) = sanitized_topic_name (pc_topic owner) ∧
    pc_partition other = pc_partition owner ∧ b = base_offset).
Proof.
  intros Hb Ho1 Ho2 Hc1 Hc2. destruct (setw20_digits base_offset Hb) as (Hd & Hn & Hv).
  assert (∀ c, segment_prefix c = segment_prefix owner →
    segment_base_offset_from_name c (segment_name owner base_offset) = Ok (Some base_offset)) as Hp.
  { intros c Hc. unfold segment_name. rewrite <- Hc. by apply segment_name_own. }
  split; [by apply Hp|]. intros b. split.
  - intros Hs. pose proof Hs as Hs'. apply segment_parse_inv in Hs as (ds & Hf & Hds & _ & _).
    unfold segment_name in Hf. rewrite !app_assoc in Hf. apply app_inj_2 in Hf as [Hf _]; [|done].
    assert (segment_prefix other = segment_prefix owner) as E.
    { unfold segment_prefix in *. rewrite !app_assoc in Hf |- *.
      rewrite <- (app_assoc _ (str "-")), <- (app_assoc _ (str "-") ds) in Hf.
      by apply cut_after_dash in Hf as [-> _]. }
    apply Hp in E as E'. rewrite E' in Hs'. injection Hs' as ->.
    apply segment_prefix_inj in E as [? ?]; auto.
  - intros (Ht & Hpart & ->). apply Hp. unfold segment_prefix. by rewrite Ht, Hpart.
Qed.

Lemma segment_name_roundtrip_witness :
  segment_name sample_partition 42 = str "orders-0-00000000000000000042.segment" ∧
  segment_base_offset_from_name sample_partition (segment_name sample_partition 42) = Ok (Some 42) ∧
  (∀ b, segment_base_offset_from_name sample_partition (segment_name sample_partition 42) = Ok (Some b) ↔
    sanitized_topic_name (pc_topic sample_partition) = sanitized_topic_name (pc_topic sample_partition) ∧
    pc_partition sample_partition = pc_partition sample_partition ∧ b = 42).
Proof.
  split; [vm_compute; reflexivity|].
  apply (segment_name_roundtrip sample_partition sample_partition 42); vm_compute;
    (split; congruence) || congruence.
Defined.

(** C40: the replication codec loses nothing: every append request, fetch
    request and fetch response that fits its fields is decoded back exactly,
    and an append response carries the follower's error code back to the
    request it answers. *)
Theorem replica_codec_roundtrip :
  (∀ q, replica_append_wf q → ∃ payload,
    encode_replica_append q = Ok payload ∧ decode_replica_append payload = Ok q) ∧
  (∀ q, replica_fetch_wf q → ∃ payload,
    encode_replica_fetch q = Ok payload ∧ decode_replica_fetch payload = Ok q) ∧
  (∀ r, replica_fetch_result_wf r → ∃ payload,
    encode_replica_fetch_response r = Ok payload ∧ decode_replica_fetch_response payload = Ok r) ∧
  (∀ q error_code log_end, in_s 16 error_code → in_s 64 log_end → ∃ payload result,
    encode_replica_append_response error_code log_end = Ok payload ∧
    decode_replica_append_response q payload = Ok result ∧
    ppr_error_code result = error_code ∧ ppr_topic result = raq_topic q ∧
    ppr_partition result = raq_partition q ∧ ppr_base_offset result = raq_base_offset q).
Proof.
  split_and!; intros.
  - eexists. by apply replica_append_roundtrip.
  - eexists. by apply replica_fetch_roundtrip.
  - eexists. by apply replica_fetch_response_roundtrip.
  - destruct (replica_append_response_roundtrip q error_code log_end) as [He Hd]; [done|done|].
    do 2 eexists. split_and!; [exact He|exact Hd|done|done|done|done].
Qed.

(** Two topics that differ only in a character [sanitized_topic_name]
    replaces. *)
Definition colliding_config : BrokerConfig :=
  mkBrokerConfig 1 1 (str "data") 9642 100 100 (1024 * 1024 * 1024)
    [mkBrokerEndpoint 1 (str "127.0.0.1") 9092 (str "ofi+tcp://127.0.0.1:3344")]
    [mkTopicConfig (str "a/b")
       [mkPartitionConfig (str "a/b") 0 0 [1] [1] Fsync 16 4096 HighWatermark false 1 0 0 (-1)];
     mkTopicConfig (str "a_b")
       [mkPartitionConfig (str "a_b") 0 0 [1] [1] Fsync 16 4096 HighWatermark false 1 0 0 (-1)]].

(** [validate_config] accepts configurations in which two different
    partitions have the same segment files: topics that differ only in [/],
    [:] and [_]. *)
Theorem segment_name_collision :
  ∃ c p q, validate_config c = Ok tt ∧ p ∈ all_partitions c ∧ q ∈ all_partitions c ∧
    partition_key p ≠ partition_key q ∧ ∀ b, segment_name p b = segment_name q b.
Proof.
  exists colliding_config.
  exists (mkPartitionConfig (str "a/b") 0 0 [1] [1] Fsync 16 4096 HighWatermark false 1 0 0 (-1)).
  exists (mkPartitionConfig (str "a_b") 0 0 [1] [1] Fsync 16 4096 HighWatermark false 1 0 0 (-1)).
  split_and!.
  - vm_compute. reflexivity.
  - left.
  - right. left.
  - vm_compute. congruence.
  - intros b. unfold segment_name. f_equal.
Qed.
