(* ===== verification/Storage.v ===== *)
(** * Storage: exceptions that keep state, and the file API

    [IO σ] is the effect of the Seastar code once its futures are sequenced:
    it updates a state and may throw, and what it did before throwing stays
    done, so that [finally] blocks and failed writes can be modelled.

    The file API of Seastar (open, size, DMA read and write, flush, directory
    listing) is an interface, [Storage].  [StorageLaws] says what it does on
    a disk without faults, through the contents of its files; [memory_disk]
    is an instance. *)

From Stdlib Require Import ZArith Lia.
From stdpp Require Import base tactics list numbers option gmap.
From S2P Require Import Prelude.

Local Open Scope Z_scope.

(** ** The monad *)

Definition IO (σ A : Type) : Type := σ → result A * σ.

#[global] Instance IO_ret σ : MRet (IO σ) := λ A a s, (Ok a, s).
#[global] Instance IO_bind σ : MBind (IO σ) := λ A B k m s,
  match m s with
  | (Ok a, s') => k a s'
  | (Err e, s') => (Err e, s')
  end.

Definition fail {σ A} (e : error) : IO σ A := λ s, (Err e, s).
Definition lift {σ A} (m : result A) : IO σ A := λ s, (m, s).
Definition get {σ} : IO σ σ := λ s, (Ok s, s).
Definition modify {σ} (f : σ → σ) : IO σ unit := λ s, (Ok tt, f s).
Definition when {σ} (b : bool) (m : IO σ unit) : IO σ unit := if b then m else mret tt.

(** [m.finally(f)]: [f] runs whether [m] threw or not. *)
Definition finally {σ A} (m : IO σ A) (f : σ → σ) : IO σ A := λ s,
  let '(r, s') := m s in (r, f s').

(** [try { m } catch (...) { return dflt; }] and [m.handle_exception(h)]. *)
Definition catch {σ A} (m : IO σ A) (h : error → IO σ A) : IO σ A := λ s,
  match m s with
  | (Ok a, s') => (Ok a, s')
  | (Err e, s') => h e s'
  end.

(** A signed 64-bit result: undefined when it does not fit. *)
Definition checked_i64 {σ} (z : Z) : IO σ Z :=
  if (- 2 ^ 63 <=? z) && (z <? 2 ^ 63) then mret z
  else fail (UndefinedBehavior (str "int64 overflow")).

Fixpoint io_each {σ A} (l : list A) (body : A → IO σ unit) : IO σ unit :=
  match l with
  | [] => mret tt
  | x :: l' => body x;; io_each l' body
  end.

Lemma io_bind_ok {σ A B} (m : IO σ A) (k : A → IO σ B) s a s' :
  m s = (Ok a, s') → (m ≫= k) s = k a s'.
Proof. intros E. unfold mbind, IO_bind. by rewrite E. Qed.

(** ** The file API *)

Inductive open_flags := OpenRo | OpenRwCreate | OpenRwCreateTruncate.

(** What [list_directory] says of an entry, when it knows. *)
Inductive directory_entry_type := Regular | OtherEntry.
#[global] Instance directory_entry_type_eq_dec : EqDecision directory_entry_type.
Proof. solve_decision. Defined.

Class Storage := {
  Disk : Type;
  open_file_dma : cstring → open_flags → Disk → result Disk;
  file_size : cstring → Disk → result Z;
  dma_read : cstring → Z → Z → Disk → result bytes;
  dma_write : cstring → Z → bytes → Disk → result Disk;
  file_flush : cstring → Disk → result Disk;
  recursive_touch_directory : cstring → Disk → result Disk;
  open_directory : cstring → Disk → result unit;
  list_directory : cstring → Disk → result (list (cstring * option directory_entry_type));
  disk_write_dma_alignment : cstring → Disk → Z;
  disk_memory_dma_alignment : cstring → Disk → Z;
}.

(** [dir / name]. *)
Definition path_join (dir name : cstring) : cstring := dir ++ str "/" ++ name.

(** Writing [buf] at [pos] extends the file with zeros where needed. *)
Definition write_at (pos : nat) (buf content : bytes) : bytes :=
  take pos content ++ replicate (pos - length content) Byte.x00 ++ buf ++
  drop (pos + length buf) content.
Definition read_at (pos n : nat) (content : bytes) : bytes := take n (drop pos content).

Definition no_slash (name : cstring) : Prop := Byte.x2f ∉ name.
#[global] Instance no_slash_dec name : Decision (no_slash name).
Proof. unfold no_slash. apply _. Defined.

(** A disk that works: every operation on an open file succeeds. *)
Class StorageLaws `{Storage} := {
  files : Disk → gmap cstring bytes;
  alignment : Z;
  alignment_range : 512 <= alignment <= 2 ^ 16;
  write_dma_alignment p d : disk_write_dma_alignment p d = alignment;
  open_ro_ok p d c : files d !! p = Some c →
    ∃ d', open_file_dma p OpenRo d = Ok d' ∧ files d' = files d;
  open_ro_missing p d : files d !! p = None → ∃ e, open_file_dma p OpenRo d = Err e;
  open_create p d : ∃ d', open_file_dma p OpenRwCreate d = Ok d' ∧
    files d' = <[p := default [] (files d !! p)]> (files d);
  open_truncate p d : ∃ d', open_file_dma p OpenRwCreateTruncate d = Ok d' ∧
    files d' = <[p := []]> (files d);
  file_size_ok p d c : files d !! p = Some c → file_size p d = Ok (zlen c);
  dma_read_ok p pos n d c : files d !! p = Some c → 0 <= pos → 0 <= n →
    dma_read p pos n d = Ok (read_at (Z.to_nat pos) (Z.to_nat n) c);
  dma_write_ok p pos buf d c : files d !! p = Some c → 0 <= pos →
    ∃ d', dma_write p pos buf d = Ok d' ∧
      files d' = <[p := write_at (Z.to_nat pos) buf c]> (files d);
  file_flush_ok p d c : files d !! p = Some c →
    ∃ d', file_flush p d = Ok d' ∧ files d' = files d;
  touch_directory_ok p d : ∃ d', recursive_touch_directory p d = Ok d' ∧ files d' = files d;
  open_directory_ok p d : open_directory p d = Ok tt;
  list_directory_ok dir d : ∃ l, list_directory dir d = Ok l ∧ NoDup (map fst l) ∧
    Forall no_slash (map fst l) ∧
    ∀ name, no_slash name →
      ((∃ ty, (name, ty) ∈ l ∧ ty ≠ Some OtherEntry) ↔ is_Some (files d !! path_join dir name));
}.

(** ** A disk in memory *)

(** The name of [p] in the directory [dir]. *)
Definition name_in (dir p : cstring) : option cstring :=
  let prefix := dir ++ str "/" in
  let name := drop (length prefix) p in
  if bool_decide (take (length prefix) p = prefix) && bool_decide (no_slash name) then Some name else None.

Definition missing_file {A} : result A := Err (RuntimeError (str "no such file")).

#[global] Instance memory_disk : Storage := {|
  Disk := gmap cstring bytes;
  open_file_dma p flags d :=
    match flags with
    | OpenRo => match d !! p with Some _ => Ok d | None => missing_file end
    | OpenRwCreate => Ok (<[p := default [] (d !! p)]> d)
    | OpenRwCreateTruncate => Ok (<[p := []]> d)
    end;
  file_size p d := match d !! p with Some c => Ok (zlen c) | None => missing_file end;
  dma_read p pos n d := match d !! p with
    | Some c => Ok (read_at (Z.to_nat pos) (Z.to_nat n) c)
    | None => missing_file
    end;
  dma_write p pos buf d := match d !! p with
    | Some c => Ok (<[p := write_at (Z.to_nat pos) buf c]> d)
    | None => missing_file
    end;
  file_flush p d := match d !! p with Some _ => Ok d | None => missing_file end;
  recursive_touch_directory _ d := Ok d;
  open_directory _ _ := Ok tt;
  list_directory dir d :=
    Ok (map (λ name, (name, Some Regular)) (omap (name_in dir) (map fst (map_to_list d))));
  disk_write_dma_alignment _ _ := 512;
  disk_memory_dma_alignment _ _ := 4096;
|}.

Lemma name_in_Some dir p name : name_in dir p = Some name ↔ p = path_join dir name ∧ no_slash name.
Proof.
  unfold name_in, path_join. rewrite (app_assoc dir). set (prefix := dir ++ str "/"). split.
  - case_bool_decide as Hp; [|done]. case_bool_decide as Hn; [|done]. intros [= <-]. split; [|done].
    rewrite <- Hp at 1. by rewrite take_drop.
  - intros [-> Hn]. rewrite take_app_length, drop_app_length. by rewrite !bool_decide_true.
Qed.

Lemma NoDup_omap_inj {A B} (f : A → option B) l :
  (∀ x y b, f x = Some b → f y = Some b → x = y) → NoDup l → NoDup (omap f l).
Proof.
  intros Hf. induction 1 as [|x l Hx _ IH]; simpl; [constructor|].
  destruct (f x) as [b|] eqn:E; [|done]. constructor; [|done].
  rewrite list_elem_of_omap. intros (y & Hy & Ey). by rewrite (Hf x y b) in Hx.
Qed.

#[global] Instance memory_disk_laws : StorageLaws.
Proof.
  refine {| files := λ d : @Disk memory_disk, d; alignment := 512 |}; simpl.
  - lia.
  - done.
  - intros p d c Hc. exists d. by rewrite Hc.
  - intros p d Hn. eexists. by rewrite Hn.
  - eauto.
  - eauto.
  - intros p d c Hc. by rewrite Hc.
  - intros p pos n d c Hc _ _. by rewrite Hc.
  - intros p pos buf d c Hc _. eexists. by rewrite Hc.
  - intros p d c Hc. exists d. by rewrite Hc.
  - eauto.
  - done.
  - intros dir d. eexists. split; [done|]. split_and!.
    + rewrite map_map. simpl. rewrite map_id. apply NoDup_omap_inj.
      * intros x y b Hx Hy. apply name_in_Some in Hx as [-> _]. by apply name_in_Some in Hy as [-> _].
      * apply NoDup_fst_map_to_list.
    + rewrite map_map. simpl. rewrite map_id. apply Forall_forall. intros n Hn.
      apply list_elem_of_omap in Hn as (p & _ & Hn). by apply name_in_Some in Hn as [_ ?].
    + intros name Hslash. split.
      * intros (ty & Hin & _). apply list_elem_of_fmap in Hin as (n & [= -> ->] & Hn).
        apply list_elem_of_omap in Hn as (p & Hp & Hn). apply name_in_Some in Hn as [-> _].
        apply list_elem_of_fmap in Hp as ([p' c] & Hp' & Hc). simpl in Hp'. subst p'.
        apply elem_of_map_to_list in Hc. by exists c.
      * intros [c Hc]. exists (Some Regular). split; [|done].
        apply list_elem_of_fmap. exists name. split; [done|].
        apply list_elem_of_omap. exists (path_join dir name). split; [|by apply name_in_Some].
        apply list_elem_of_fmap. exists (path_join dir name, c). split; [done|].
        by apply elem_of_map_to_list.
Defined.
