(* ===== verification/LogFormat.v ===== *)
(** * The on-disk formats of a partition log

    Models the byte formats of src/partition_log_shard.cpp: the frame
    [write_record_set] writes to a segment, and the index entries
    ([encode_index_entry], [decode_index_entry]), with the in-memory index
    bookkeeping ([note_index_entry], [find_index_for_offset]). *)

From Stdlib Require Import ZArith Lia.
From stdpp Require Import base tactics numbers option list.
From S2P Require Import Prelude RecordBatch Detail.

Local Open Scope Z_scope.

(** ** Data *)

Record RecordSet := mkRecordSet {
  rs_base_offset : Z;
  rs_last_offset : Z;
  rs_bytes : bytes;
}.

Record IndexEntry := mkIndexEntry {
  ie_base_offset : Z;
  ie_last_offset : Z;
  ie_segment_base : Z;
  ie_segment_position : Z;
  ie_record_bytes : Z;
}.

Record SegmentInfo := mkSegmentInfo {
  si_base_offset : Z;
  si_last_offset : Z;
  si_write_position : Z;
}.

(** ** Frames *)

Definition header_size : Z := 20.

(** [round_up(20 + record_bytes, log_frame_alignment_)]. *)
Definition frame_size_of (record_bytes align : Z) : Z := round_up (header_size + u64 record_bytes) align.

(** The buffer [write_record_set] fills and writes. *)
Definition log_frame (align : Z) (record_set : RecordSet) : bytes :=
  let frame_size := round_up (header_size + zlen (rs_bytes record_set)) align in
  let buffer := replicate (Z.to_nat frame_size) Byte.x00 in
  let buffer := memcpy_at 0 kLogMagic buffer in
  let buffer := put_i64 8 (rs_base_offset record_set) buffer in
  let buffer := put_i32 16 (i32 (zlen (rs_bytes record_set))) buffer in
  if bool_decide (rs_bytes record_set = []) then buffer
  else memcpy_at 20 (rs_bytes record_set) buffer.

(** The check of a frame against its index entry in
    [read_records_from_index]. *)
Definition frame_matches (header : bytes) (e : IndexEntry) : bool :=
  memcmp_eq header 0 kLogMagic && (get_i64 8 header =? ie_base_offset e) &&
  (get_i32 16 header =? ie_record_bytes e).

(** ** Index entries *)

Definition encode_index_entry (index_entry_size : Z) (entry : IndexEntry) : bytes :=
  let bytes := replicate (Z.to_nat index_entry_size) Byte.x00 in
  let bytes := memcpy_at 0 kIndexMagic bytes in
  let bytes := put_i64 8 (ie_base_offset entry) bytes in
  let bytes := put_i64 16 (ie_last_offset entry) bytes in
  let bytes := put_i64 24 (ie_segment_base entry) bytes in
  let bytes := put_i64 32 (i64 (ie_segment_position entry)) bytes in
  put_i32 40 (ie_record_bytes entry) bytes.

Definition decode_index_entry (bytes : bytes) : option IndexEntry :=
  if negb (memcmp_eq bytes 0 kIndexMagic) then None
  else
    let entry := mkIndexEntry (get_i64 8 bytes) (get_i64 16 bytes) (get_i64 24 bytes)
      (u64 (get_i64 32 bytes)) (get_i32 40 bytes) in
    if (ie_record_bytes entry <=? 0) || (ie_last_offset entry <? ie_base_offset entry) then None
    else Some entry.

(** ** The in-memory index *)

(** The two vectors [note_index_entry] updates. *)
Definition note_segment (align : Z) (segments : list SegmentInfo) (entry : IndexEntry)
    : list SegmentInfo :=
  let frame_size := frame_size_of (ie_record_bytes entry) align in
  let next_position := u64 (ie_segment_position entry + frame_size) in
  match last segments with
  | Some segment =>
      if si_base_offset segment =? ie_segment_base entry
      then take (length segments - 1) segments ++
        [mkSegmentInfo (si_base_offset segment)
           (Z.max (si_last_offset segment) (ie_last_offset entry))
           (Z.max (si_write_position segment) next_position)]
      else segments ++ [mkSegmentInfo (ie_segment_base entry) (ie_last_offset entry) next_position]
  | None => segments ++ [mkSegmentInfo (ie_segment_base entry) (ie_last_offset entry) next_position]
  end.

Definition find_index_for_offset (index_entries : list IndexEntry) (offset : Z) : nat :=
  lower_bound (λ entry, ie_last_offset entry <? offset) index_entries.

(** ** Lemmas: frames *)

(** An entry that fits its fields. *)
Definition entry_ok (e : IndexEntry) : Prop :=
  in_s 64 (ie_base_offset e) ∧ in_s 64 (ie_last_offset e) ∧ in_s 64 (ie_segment_base e) ∧
  in_u 64 (ie_segment_position e) ∧ 0 < ie_record_bytes e < 2 ^ 31 ∧
  ie_base_offset e <= ie_last_offset e.

(** A buffer filled field by field from the front. *)
Lemma memcpy_fill_start (src : bytes) k x :
  (length src <= k)%nat → memcpy_at 0 src (replicate k x) = src ++ replicate (k - length src) x.
Proof. intros. by apply (memcpy_fill [] src k x 0). Qed.

Ltac fill := rewrite memcpy_fill by (rewrite ?length_app, ?length_le_bytes; (reflexivity || lia)).

Lemma encode_index_entry_enc size e :
  48 <= size →
  encode_index_entry size e =
  kIndexMagic ++ le_bytes 8 (ie_base_offset e) ++ le_bytes 8 (ie_last_offset e) ++
  le_bytes 8 (ie_segment_base e) ++ le_bytes 8 (i64 (ie_segment_position e)) ++
  le_bytes 4 (ie_record_bytes e) ++ replicate (Z.to_nat size - 44) Byte.x00.
Proof.
  intros Hs. unfold encode_index_entry, put_i64, put_i32.
  rewrite memcpy_fill_start by (simpl; lia). change (length kIndexMagic) with 8%nat.
  fill. fill. fill. fill. fill. rewrite !length_le_bytes, <- !app_assoc. do 7 f_equal. lia.
Qed.

Lemma log_frame_enc align rs :
  512 <= align <= 2 ^ 16 → zlen (rs_bytes rs) < 2 ^ 31 →
  log_frame align rs =
  kLogMagic ++ le_bytes 8 (rs_base_offset rs) ++ le_bytes 4 (i32 (zlen (rs_bytes rs))) ++
  rs_bytes rs ++
  replicate (Z.to_nat (round_up (header_size + zlen (rs_bytes rs)) align) - 20 - length (rs_bytes rs))
    Byte.x00.
Proof.
  intros Ha Hl. pose proof (zlen_nonneg (rs_bytes rs)). unfold log_frame, header_size.
  destruct (round_up_spec (20 + zlen (rs_bytes rs)) align) as ([Hr _] & _); [lia..|].
  set (n := Z.to_nat (round_up _ align)). cbv zeta.
  assert (20 + length (rs_bytes rs) <= n)%nat by (unfold n, zlen in *; lia). clearbody n.
  unfold put_i64, put_i32. rewrite memcpy_fill_start by (simpl; lia).
  change (length kLogMagic) with 8%nat. fill. fill. rewrite !length_le_bytes.
  case_bool_decide as He.
  - rewrite <- !app_assoc. do 3 f_equal. rewrite He. simpl. f_equal. lia.
  - fill. rewrite <- !app_assoc. do 4 f_equal. f_equal. lia.
Qed.

Lemma zlen_encode_index_entry size e : 48 <= size → zlen (encode_index_entry size e) = size.
Proof.
  intros Hs. rewrite encode_index_entry_enc by done. rewrite !zlen_app. unfold zlen.
  rewrite !length_le_bytes, length_replicate. simpl length. lia.
Qed.

Lemma index_entry_roundtrip size e tail :
  48 <= size → entry_ok e → decode_index_entry (encode_index_entry size e ++ tail) = Some e.
Proof.
  intros Hs (Hb & Hl & Hg & Hp & Hr & Hle). destruct e as [b l g p r].
  rewrite encode_index_entry_enc by done.
  cbn [ie_base_offset ie_last_offset ie_segment_base ie_segment_position ie_record_bytes] in *.
  rewrite <- !app_assoc.
  set (z := replicate _ _). unfold decode_index_entry.
  rewrite (get_i64_field kIndexMagic _ 8 b) by done.
  rewrite (app_assoc kIndexMagic (le_bytes 8 b)).
  rewrite (get_i64_field _ _ 16 l) by (done || (rewrite length_app, length_le_bytes; done)).
  rewrite (app_assoc (kIndexMagic ++ _) (le_bytes 8 l)).
  rewrite (get_i64_field _ _ 24 g) by (done || (rewrite !length_app, !length_le_bytes; done)).
  rewrite (app_assoc (_ ++ _) (le_bytes 8 g)).
  rewrite (get_i64_field _ _ 32 (i64 p))
    by (by apply wrap_s_range || (rewrite !length_app, !length_le_bytes; done)).
  rewrite (app_assoc (_ ++ _) (le_bytes 8 (i64 p))).
  rewrite (get_i32_field _ _ 40 r)
    by (rewrite ?length_app, ?length_le_bytes; (done || (unfold in_s; lia))).
  rewrite wrap_u_of_s, wrap_u_id by (done || lia).
  rewrite <- !app_assoc. unfold memcmp_eq.
  rewrite (slice_front kIndexMagic) by done. rewrite bool_decide_true by done.
  simpl. bcase; (done || lia).
Qed.

(** Everything a reader uses of a frame, wherever the buffer goes on. *)
Lemma zlen_log_frame align rs :
  512 <= align <= 2 ^ 16 → zlen (rs_bytes rs) < 2 ^ 31 →
  zlen (log_frame align rs) = round_up (header_size + zlen (rs_bytes rs)) align.
Proof.
  intros Ha Hl. pose proof (zlen_nonneg (rs_bytes rs)).
  destruct (round_up_spec (header_size + zlen (rs_bytes rs)) align) as ([Hr _] & _);
    [lia|unfold header_size in *; lia..|].
  rewrite log_frame_enc, !zlen_app by done. unfold zlen in *.
  rewrite !length_le_bytes, length_replicate. simpl length. unfold header_size in *. lia.
Qed.

Lemma log_frame_fields align rs tail :
  512 <= align <= 2 ^ 16 → zlen (rs_bytes rs) < 2 ^ 31 → in_s 64 (rs_base_offset rs) →
  let buf := log_frame align rs ++ tail in
  memcmp_eq buf 0 kLogMagic = true ∧ get_i64 8 buf = rs_base_offset rs ∧
  get_i32 16 buf = zlen (rs_bytes rs) ∧ slice 20 (length (rs_bytes rs)) buf = rs_bytes rs.
Proof.
  intros Ha Hl Hb buf. unfold buf. rewrite log_frame_enc by done. rewrite <- !app_assoc.
  pose proof (zlen_nonneg (rs_bytes rs)).
  rewrite (wrap_s_id 32 (zlen _)) by (lia || (unfold in_s; lia)). split_and!.
  - unfold memcmp_eq. rewrite (slice_front kLogMagic) by done. by apply bool_decide_true.
  - by apply (get_i64_field kLogMagic).
  - rewrite (app_assoc kLogMagic). apply get_i32_field; [|unfold in_s; lia].
    rewrite length_app, length_le_bytes. done.
  - rewrite (app_assoc kLogMagic), (app_assoc (_ ++ _)). apply slice_field; [|done].
    rewrite !length_app, !length_le_bytes. done.
Qed.
