(* ===== verification/PartitionLog.v ===== *)
(** * The partition log: state and operations

    Models [PartitionLogShard] of include/mkmq/broker_shard.hpp and
    src/partition_log_shard.cpp.  The state is the record of the class's
    fields (an open file is its path; the latency histograms are left out);
    an operation runs in [IO World], the log together with the disk, with the
    futures it chains run to completion in order.  One [set_<field>] per
    field stands for assignment. *)

From Stdlib Require Import ZArith Lia.
From stdpp Require Import base tactics numbers option sorting list.
From S2P Require Import Prelude Protocol Config RecordBatch Detail Storage LogFormat.

Local Open Scope Z_scope.

(** ** State *)

Record PartitionOffsets := mkPartitionOffsets {
  earliest : Z;
  latest : Z;
  high_watermark : Z;
}.

Record PartitionLogShard := mkPartitionLogShard {
  config_ : PartitionConfig;
  root_ : cstring;
  segment_bytes_ : Z;
  segments_ : list SegmentInfo;
  offsets_ : PartitionOffsets;
  queue_depth_ : Z;
  active_segment_base_offset_ : Z;
  write_position_ : Z;
  log_frame_alignment_ : Z;
  index_entry_size_ : Z;
  memory_dma_alignment_ : Z;
  degraded_ : bool;
  replica_lag_ : Z;
  file_ : option cstring;
  index_file_ : option cstring;
  segment_cache_ : list (Z * cstring);
  index_position_ : Z;
  index_entries_ : list IndexEntry;
  index_write_gate_closed_ : bool;
  segment_close_gate_closed_ : bool;
  index_write_error_ : option error;
  flush_scheduled_ : bool;
  disk_writes_ : Z;
  disk_fsyncs_ : Z;
}.

(** The member initialisers of the class. *)
Definition default_partition_config : PartitionConfig :=
  mkPartitionConfig [] 0 0 [] [] Write 8192 (1024 * 1024) HighWatermark false 0 0 0 (-1).
Definition PartitionLogShard_init : PartitionLogShard :=
  mkPartitionLogShard default_partition_config [] 0 [] (mkPartitionOffsets 0 0 0) 0 0 0 4096 4096 4096
    false 0 None None [] 0 [] false false None false 0 0.

Definition kSegmentCacheMax : nat := 32.

(** Assignments. *)
Definition set_config_ (v : PartitionConfig) (l : PartitionLogShard) : PartitionLogShard :=
  mkPartitionLogShard v (root_ l) (segment_bytes_ l) (segments_ l) (offsets_ l) (queue_depth_ l)
    (active_segment_base_offset_ l) (write_position_ l) (log_frame_alignment_ l)
    (index_entry_size_ l) (memory_dma_alignment_ l) (degraded_ l) (replica_lag_ l) (file_ l)
    (index_file_ l) (segment_cache_ l) (index_position_ l) (index_entries_ l)
    (index_write_gate_closed_ l) (segment_close_gate_closed_ l) (index_write_error_ l)
    (flush_scheduled_ l) (disk_writes_ l) (disk_fsyncs_ l).
Definition set_root_ (v : cstring) (l : PartitionLogShard) : PartitionLogShard :=
  mkPartitionLogShard (config_ l) v (segment_bytes_ l) (segments_ l) (offsets_ l) (queue_depth_ l)
    (active_segment_base_offset_ l) (write_position_ l) (log_frame_alignment_ l)
    (index_entry_size_ l) (memory_dma_alignment_ l) (degraded_ l) (replica_lag_ l) (file_ l)
    (index_file_ l) (segment_cache_ l) (index_position_ l) (index_entries_ l)
    (index_write_gate_closed_ l) (segment_close_gate_closed_ l) (index_write_error_ l)
    (flush_scheduled_ l) (disk_writes_ l) (disk_fsyncs_ l).
Definition set_segment_bytes_ (v : Z) (l : PartitionLogShard) : PartitionLogShard :=
  mkPartitionLogShard (config_ l) (root_ l) v (segments_ l) (offsets_ l) (queue_depth_ l)
    (active_segment_base_offset_ l) (write_position_ l) (log_frame_alignment_ l)
    (index_entry_size_ l) (memory_dma_alignment_ l) (degraded_ l) (replica_lag_ l) (file_ l)
    (index_file_ l) (segment_cache_ l) (index_position_ l) (index_entries_ l)
    (index_write_gate_closed_ l) (segment_close_gate_closed_ l) (index_write_error_ l)
    (flush_scheduled_ l) (disk_writes_ l) (disk_fsyncs_ l).
Definition set_segments_ (v : list SegmentInfo) (l : PartitionLogShard) : PartitionLogShard :=
  mkPartitionLogShard (config_ l) (root_ l) (segment_bytes_ l) v (offsets_ l) (queue_depth_ l)
    (active_segment_base_offset_ l) (write_position_ l) (log_frame_alignment_ l)
    (index_entry_size_ l) (memory_dma_alignment_ l) (degraded_ l) (replica_lag_ l) (file_ l)
    (index_file_ l) (segment_cache_ l) (index_position_ l) (index_entries_ l)
    (index_write_gate_closed_ l) (segment_close_gate_closed_ l) (index_write_error_ l)
    (flush_scheduled_ l) (disk_writes_ l) (disk_fsyncs_ l).
Definition set_offsets_ (v : PartitionOffsets) (l : PartitionLogShard) : PartitionLogShard :=
  mkPartitionLogShard (config_ l) (root_ l) (segment_bytes_ l) (segments_ l) v (queue_depth_ l)
    (active_segment_base_offset_ l) (write_position_ l) (log_frame_alignment_ l)
    (index_entry_size_ l) (memory_dma_alignment_ l) (degraded_ l) (replica_lag_ l) (file_ l)
    (index_file_ l) (segment_cache_ l) (index_position_ l) (index_entries_ l)
    (index_write_gate_closed_ l) (segment_close_gate_closed_ l) (index_write_error_ l)
    (flush_scheduled_ l) (disk_writes_ l) (disk_fsyncs_ l).
Definition set_queue_depth_ (v : Z) (l : PartitionLogShard) : PartitionLogShard :=
  mkPartitionLogShard (config_ l) (root_ l) (segment_bytes_ l) (segments_ l) (offsets_ l) v
    (active_segment_base_offset_ l) (write_position_ l) (log_frame_alignment_ l)
    (index_entry_size_ l) (memory_dma_alignment_ l) (degraded_ l) (replica_lag_ l) (file_ l)
    (index_file_ l) (segment_cache_ l) (index_position_ l) (index_entries_ l)
    (index_write_gate_closed_ l) (segment_close_gate_closed_ l) (index_write_error_ l)
    (flush_scheduled_ l) (disk_writes_ l) (disk_fsyncs_ l).
Definition set_active_segment_base_offset_ (v : Z) (l : PartitionLogShard) : PartitionLogShard :=
  mkPartitionLogShard (config_ l) (root_ l) (segment_bytes_ l) (segments_ l) (offsets_ l)
    (queue_depth_ l) v (write_position_ l) (log_frame_alignment_ l) (index_entry_size_ l)
    (memory_dma_alignment_ l) (degraded_ l) (replica_lag_ l) (file_ l) (index_file_ l)
    (segment_cache_ l) (index_position_ l) (index_entries_ l) (index_write_gate_closed_ l)
    (segment_close_gate_closed_ l) (index_write_error_ l) (flush_scheduled_ l) (disk_writes_ l)
    (disk_fsyncs_ l).
Definition set_write_position_ (v : Z) (l : PartitionLogShard) : PartitionLogShard :=
  mkPartitionLogShard (config_ l) (root_ l) (segment_bytes_ l) (segments_ l) (offsets_ l)
    (queue_depth_ l) (active_segment_base_offset_ l) v (log_frame_alignment_ l)
    (index_entry_size_ l) (memory_dma_alignment_ l) (degraded_ l) (replica_lag_ l) (file_ l)
    (index_file_ l) (segment_cache_ l) (index_position_ l) (index_entries_ l)
    (index_write_gate_closed_ l) (segment_close_gate_closed_ l) (index_write_error_ l)
    (flush_scheduled_ l) (disk_writes_ l) (disk_fsyncs_ l).
Definition set_log_frame_alignment_ (v : Z) (l : PartitionLogShard) : PartitionLogShard :=
  mkPartitionLogShard (config_ l) (root_ l) (segment_bytes_ l) (segments_ l) (offsets_ l)
    (queue_depth_ l) (active_segment_base_offset_ l) (write_position_ l) v (index_entry_size_ l)
    (memory_dma_alignment_ l) (degraded_ l) (replica_lag_ l) (file_ l) (index_file_ l)
    (segment_cache_ l) (index_position_ l) (index_entries_ l) (index_write_gate_closed_ l)
    (segment_close_gate_closed_ l) (index_write_error_ l) (flush_scheduled_ l) (disk_writes_ l)
    (disk_fsyncs_ l).
Definition set_index_entry_size_ (v : Z) (l : PartitionLogShard) : PartitionLogShard :=
  mkPartitionLogShard (config_ l) (root_ l) (segment_bytes_ l) (segments_ l) (offsets_ l)
    (queue_depth_ l) (active_segment_base_offset_ l) (write_position_ l) (log_frame_alignment_ l)
    v (memory_dma_alignment_ l) (degraded_ l) (replica_lag_ l) (file_ l) (index_file_ l)
    (segment_cache_ l) (index_position_ l) (index_entries_ l) (index_write_gate_closed_ l)
    (segment_close_gate_closed_ l) (index_write_error_ l) (flush_scheduled_ l) (disk_writes_ l)
    (disk_fsyncs_ l).
Definition set_memory_dma_alignment_ (v : Z) (l : PartitionLogShard) : PartitionLogShard :=
  mkPartitionLogShard (config_ l) (root_ l) (segment_bytes_ l) (segments_ l) (offsets_ l)
    (queue_depth_ l) (active_segment_base_offset_ l) (write_position_ l) (log_frame_alignment_ l)
    (index_entry_size_ l) v (degraded_ l) (replica_lag_ l) (file_ l) (index_file_ l)
    (segment_cache_ l) (index_position_ l) (index_entries_ l) (index_write_gate_closed_ l)
    (segment_close_gate_closed_ l) (index_write_error_ l) (flush_scheduled_ l) (disk_writes_ l)
    (disk_fsyncs_ l).
Definition set_degraded_ (v : bool) (l : PartitionLogShard) : PartitionLogShard :=
  mkPartitionLogShard (config_ l) (root_ l) (segment_bytes_ l) (segments_ l) (offsets_ l)
    (queue_depth_ l) (active_segment_base_offset_ l) (write_position_ l) (log_frame_alignment_ l)
    (index_entry_size_ l) (memory_dma_alignment_ l) v (replica_lag_ l) (file_ l) (index_file_ l)
    (segment_cache_ l) (index_position_ l) (index_entries_ l) (index_write_gate_closed_ l)
    (segment_close_gate_closed_ l) (index_write_error_ l) (flush_scheduled_ l) (disk_writes_ l)
    (disk_fsyncs_ l).
Definition set_replica_lag_ (v : Z) (l : PartitionLogShard) : PartitionLogShard :=
  mkPartitionLogShard (config_ l) (root_ l) (segment_bytes_ l) (segments_ l) (offsets_ l)
    (queue_depth_ l) (active_segment_base_offset_ l) (write_position_ l) (log_frame_alignment_ l)
    (index_entry_size_ l) (memory_dma_alignment_ l) (degraded_ l) v (file_ l) (index_file_ l)
    (segment_cache_ l) (index_position_ l) (index_entries_ l) (index_write_gate_closed_ l)
    (segment_close_gate_closed_ l) (index_write_error_ l) (flush_scheduled_ l) (disk_writes_ l)
    (disk_fsyncs_ l).
Definition set_file_ (v : option cstring) (l : PartitionLogShard) : PartitionLogShard :=
  mkPartitionLogShard (config_ l) (root_ l) (segment_bytes_ l) (segments_ l) (offsets_ l)
    (queue_depth_ l) (active_segment_base_offset_ l) (write_position_ l) (log_frame_alignment_ l)
    (index_entry_size_ l) (memory_dma_alignment_ l) (degraded_ l) (replica_lag_ l) v
    (index_file_ l) (segment_cache_ l) (index_position_ l) (index_entries_ l)
    (index_write_gate_closed_ l) (segment_close_gate_closed_ l) (index_write_error_ l)
    (flush_scheduled_ l) (disk_writes_ l) (disk_fsyncs_ l).
Definition set_index_file_ (v : option cstring) (l : PartitionLogShard) : PartitionLogShard :=
  mkPartitionLogShard (config_ l) (root_ l) (segment_bytes_ l) (segments_ l) (offsets_ l)
    (queue_depth_ l) (active_segment_base_offset_ l) (write_position_ l) (log_frame_alignment_ l)
    (index_entry_size_ l) (memory_dma_alignment_ l) (degraded_ l) (replica_lag_ l) (file_ l) v
    (segment_cache_ l) (index_position_ l) (index_entries_ l) (index_write_gate_closed_ l)
    (segment_close_gate_closed_ l) (index_write_error_ l) (flush_scheduled_ l) (disk_writes_ l)
    (disk_fsyncs_ l).
Definition set_segment_cache_ (v : list (Z * cstring)) (l : PartitionLogShard) : PartitionLogShard :=
  mkPartitionLogShard (config_ l) (root_ l) (segment_bytes_ l) (segments_ l) (offsets_ l)
    (queue_depth_ l) (active_segment_base_offset_ l) (write_position_ l) (log_frame_alignment_ l)
    (index_entry_size_ l) (memory_dma_alignment_ l) (degraded_ l) (replica_lag_ l) (file_ l)
    (index_file_ l) v (index_position_ l) (index_entries_ l) (index_write_gate_closed_ l)
    (segment_close_gate_closed_ l) (index_write_error_ l) (flush_scheduled_ l) (disk_writes_ l)
    (disk_fsyncs_ l).
Definition set_index_position_ (v : Z) (l : PartitionLogShard) : PartitionLogShard :=
  mkPartitionLogShard (config_ l) (root_ l) (segment_bytes_ l) (segments_ l) (offsets_ l)
    (queue_depth_ l) (active_segment_base_offset_ l) (write_position_ l) (log_frame_alignment_ l)
    (index_entry_size_ l) (memory_dma_alignment_ l) (degraded_ l) (replica_lag_ l) (file_ l)
    (index_file_ l) (segment_cache_ l) v (index_entries_ l) (index_write_gate_closed_ l)
    (segment_close_gate_closed_ l) (index_write_error_ l) (flush_scheduled_ l) (disk_writes_ l)
    (disk_fsyncs_ l).
Definition set_index_entries_ (v : list IndexEntry) (l : PartitionLogShard) : PartitionLogShard :=
  mkPartitionLogShard (config_ l) (root_ l) (segment_bytes_ l) (segments_ l) (offsets_ l)
    (queue_depth_ l) (active_segment_base_offset_ l) (write_position_ l) (log_frame_alignment_ l)
    (index_entry_size_ l) (memory_dma_alignment_ l) (degraded_ l) (replica_lag_ l) (file_ l)
    (index_file_ l) (segment_cache_ l) (index_position_ l) v (index_write_gate_closed_ l)
    (segment_close_gate_closed_ l) (index_write_error_ l) (flush_scheduled_ l) (disk_writes_ l)
    (disk_fsyncs_ l).
Definition set_index_write_gate_closed_ (v : bool) (l : PartitionLogShard) : PartitionLogShard :=
  mkPartitionLogShard (config_ l) (root_ l) (segment_bytes_ l) (segments_ l) (offsets_ l)
    (queue_depth_ l) (active_segment_base_offset_ l) (write_position_ l) (log_frame_alignment_ l)
    (index_entry_size_ l) (memory_dma_alignment_ l) (degraded_ l) (replica_lag_ l) (file_ l)
    (index_file_ l) (segment_cache_ l) (index_position_ l) (index_entries_ l) v
    (segment_close_gate_closed_ l) (index_write_error_ l) (flush_scheduled_ l) (disk_writes_ l)
    (disk_fsyncs_ l).
Definition set_segment_close_gate_closed_ (v : bool) (l : PartitionLogShard) : PartitionLogShard :=
  mkPartitionLogShard (config_ l) (root_ l) (segment_bytes_ l) (segments_ l) (offsets_ l)
    (queue_depth_ l) (active_segment_base_offset_ l) (write_position_ l) (log_frame_alignment_ l)
    (index_entry_size_ l) (memory_dma_alignment_ l) (degraded_ l) (replica_lag_ l) (file_ l)
    (index_file_ l) (segment_cache_ l) (index_position_ l) (index_entries_ l)
    (index_write_gate_closed_ l) v (index_write_error_ l) (flush_scheduled_ l) (disk_writes_ l)
    (disk_fsyncs_ l).
Definition set_index_write_error_ (v : option error) (l : PartitionLogShard) : PartitionLogShard :=
  mkPartitionLogShard (config_ l) (root_ l) (segment_bytes_ l) (segments_ l) (offsets_ l)
    (queue_depth_ l) (active_segment_base_offset_ l) (write_position_ l) (log_frame_alignment_ l)
    (index_entry_size_ l) (memory_dma_alignment_ l) (degraded_ l) (replica_lag_ l) (file_ l)
    (index_file_ l) (segment_cache_ l) (index_position_ l) (index_entries_ l)
    (index_write_gate_closed_ l) (segment_close_gate_closed_ l) v (flush_scheduled_ l)
    (disk_writes_ l) (disk_fsyncs_ l).
Definition set_flush_scheduled_ (v : bool) (l : PartitionLogShard) : PartitionLogShard :=
  mkPartitionLogShard (config_ l) (root_ l) (segment_bytes_ l) (segments_ l) (offsets_ l)
    (queue_depth_ l) (active_segment_base_offset_ l) (write_position_ l) (log_frame_alignment_ l)
    (index_entry_size_ l) (memory_dma_alignment_ l) (degraded_ l) (replica_lag_ l) (file_ l)
    (index_file_ l) (segment_cache_ l) (index_position_ l) (index_entries_ l)
    (index_write_gate_closed_ l) (segment_close_gate_closed_ l) (index_write_error_ l) v
    (disk_writes_ l) (disk_fsyncs_ l).
Definition set_disk_writes_ (v : Z) (l : PartitionLogShard) : PartitionLogShard :=
  mkPartitionLogShard (config_ l) (root_ l) (segment_bytes_ l) (segments_ l) (offsets_ l)
    (queue_depth_ l) (active_segment_base_offset_ l) (write_position_ l) (log_frame_alignment_ l)
    (index_entry_size_ l) (memory_dma_alignment_ l) (degraded_ l) (replica_lag_ l) (file_ l)
    (index_file_ l) (segment_cache_ l) (index_position_ l) (index_entries_ l)
    (index_write_gate_closed_ l) (segment_close_gate_closed_ l) (index_write_error_ l)
    (flush_scheduled_ l) v (disk_fsyncs_ l).
Definition set_disk_fsyncs_ (v : Z) (l : PartitionLogShard) : PartitionLogShard :=
  mkPartitionLogShard (config_ l) (root_ l) (segment_bytes_ l) (segments_ l) (offsets_ l)
    (queue_depth_ l) (active_segment_base_offset_ l) (write_position_ l) (log_frame_alignment_ l)
    (index_entry_size_ l) (memory_dma_alignment_ l) (degraded_ l) (replica_lag_ l) (file_ l)
    (index_file_ l) (segment_cache_ l) (index_position_ l) (index_entries_ l)
    (index_write_gate_closed_ l) (segment_close_gate_closed_ l) (index_write_error_ l)
    (flush_scheduled_ l) (disk_writes_ l) v.

(** ** Results *)

Record FetchPartitionResult := mkFetchPartitionResult {
  fpr_error_code : Z;
  fpr_high_watermark : Z;
  fpr_log_start_offset : Z;
  fpr_log_end_offset : Z;
  fpr_records : bytes;
}.

Record ListOffsetPartitionResult := mkListOffsetPartitionResult {
  lopr_topic : cstring;
  lopr_partition : Z;
  lopr_error_code : Z;
  lopr_earliest : Z;
  lopr_latest : Z;
  lopr_selected : Z;
}.

Definition record_count (records : bytes) : result Z :=
  match estimate_record_count records with Ok (n, _) => Ok n | Err e => Err e end.

(** ** Paths and synchronous operations *)

Definition segment_path (l : PartitionLogShard) (base_offset : Z) : cstring :=
  path_join (root_ l) (segment_name (config_ l) base_offset).

Definition index_path (l : PartitionLogShard) : cstring :=
  path_join (root_ l) (sanitized_topic_name (pc_topic (config_ l)) ++ str "-" ++
    to_string (pc_partition (config_ l)) ++ str ".index").

Definition list_offsets (l : PartitionLogShard) (timestamp : Z) : ListOffsetPartitionResult :=
  mkListOffsetPartitionResult (pc_topic (config_ l)) (pc_partition (config_ l)) 0
    (earliest (offsets_ l)) (latest (offsets_ l))
    (if timestamp =? -2 then earliest (offsets_ l) else latest (offsets_ l)).

Definition set_latest (v : Z) (l : PartitionLogShard) : PartitionLogShard :=
  set_offsets_ (mkPartitionOffsets (earliest (offsets_ l)) v (high_watermark (offsets_ l))) l.
Definition set_high_watermark (v : Z) (l : PartitionLogShard) : PartitionLogShard :=
  set_offsets_ (mkPartitionOffsets (earliest (offsets_ l)) (latest (offsets_ l)) v) l.

Definition mark_replicated_through (offset : Z) (l : PartitionLogShard) : PartitionLogShard :=
  let hw := Z.min (latest (offsets_ l)) (Z.max (high_watermark (offsets_ l)) offset) in
  set_degraded_ false (set_replica_lag_ (Z.max 0 (latest (offsets_ l) - hw)) (set_high_watermark hw l)).

Definition mark_degraded (l : PartitionLogShard) : PartitionLogShard :=
  set_replica_lag_ (Z.max 0 (latest (offsets_ l) - high_watermark (offsets_ l))) (set_degraded_ true l).

Definition update_config (config : PartitionConfig) (l : PartitionLogShard) : PartitionLogShard :=
  set_config_ config l.

Definition note_index_entry (entry : IndexEntry) (l : PartitionLogShard) : PartitionLogShard :=
  set_segments_ (note_segment (log_frame_alignment_ l) (segments_ l) entry)
    (set_index_entries_ (index_entries_ l ++ [entry]) l).

(** ** Asynchronous operations *)

Section operations.
Context `{Storage}.

Definition World : Type := PartitionLogShard * Disk.
Abbreviation Log := (IO World).

Definition asks {A} (f : PartitionLogShard → A) : Log A := λ w, (Ok (f w.1), w).
Definition upd (f : PartitionLogShard → PartitionLogShard) : Log unit := λ w, (Ok tt, (f w.1, w.2)).
Definition on_disk (m : Disk → result Disk) : Log unit := λ w,
  match m w.2 with Ok d => (Ok tt, (w.1, d)) | Err e => (Err e, w) end.
Definition from_disk {A} (m : Disk → result A) : Log A := λ w, (m w.2, w).

Definition update_dma_alignment (p : cstring) : Log unit := λ w,
  let align := Z.max 1 (disk_write_dma_alignment p w.2) in
  (Ok tt, (set_memory_dma_alignment_ (Z.max 1 (disk_memory_dma_alignment p w.2))
    (set_index_entry_size_ (round_up kIndexEntryPayloadSize align)
      (set_log_frame_alignment_ align w.1)), w.2)).

Definition open_active_segment : Log unit :=
  p ← asks (λ l, segment_path l (active_segment_base_offset_ l));
  on_disk (open_file_dma p OpenRwCreate);;
  update_dma_alignment p;;
  upd (set_file_ (Some p)).

Definition open_index : Log unit :=
  p ← asks index_path;
  on_disk (open_file_dma p OpenRwCreate);;
  update_dma_alignment p;;
  upd (set_index_file_ (Some p)).

(** [while (cache.size() >= kSegmentCacheMax) cache.pop_back();
    cache.push_front(entry)]. *)
Definition cache_push (entry : Z * cstring) (cache : list (Z * cstring)) : list (Z * cstring) :=
  entry :: take (kSegmentCacheMax - 1) cache.

Definition ensure_segment_for_write (base_offset frame_size : Z) : Log unit :=
  l ← asks id;
  match file_ l with
  | None =>
      upd (set_active_segment_base_offset_ base_offset);;
      upd (set_write_position_ 0);;
      open_active_segment
  | Some old_file =>
      if (write_position_ l =? 0) || (u64 (write_position_ l + frame_size) <=? segment_bytes_ l)
      then mret tt
      else
        upd (set_file_ None);;
        upd (λ l, set_segment_cache_
          (cache_push (active_segment_base_offset_ l, old_file) (segment_cache_ l)) l);;
        upd (set_active_segment_base_offset_ base_offset);;
        upd (set_write_position_ 0);;
        open_active_segment
  end.

Definition not_open_error : error := RuntimeError (str "partition segment file is not open").
Definition index_not_open_error : error := RuntimeError (str "partition index file is not open").

Definition write_index_entry_at (entry : IndexEntry) (position : Z) : Log unit :=
  l ← asks id;
  match index_file_ l with
  | None => fail index_not_open_error
  | Some p => on_disk (dma_write p position (encode_index_entry (index_entry_size_ l) entry))
  end.

Definition schedule_index_entry_write (base_offset last_offset record_bytes segment_base
    segment_position : Z) : Log unit :=
  l ← asks id;
  match index_file_ l with
  | None => upd (set_index_write_error_ (Some index_not_open_error))
  | Some _ =>
      let entry := mkIndexEntry base_offset last_offset segment_base segment_position record_bytes in
      let position := index_position_ l in
      upd (set_index_position_ (u64 (position + index_entry_size_ l)));;
      upd (note_index_entry entry);;
      if index_write_gate_closed_ l then mret tt
      else catch (write_index_entry_at entry position) (λ error,
        upd (λ l, match index_write_error_ l with
          | None => set_index_write_error_ (Some error) l
          | Some _ => l
          end))
  end.

Definition write_record_set (record_set : RecordSet) : Log unit :=
  align ← asks log_frame_alignment_;
  let frame_size := round_up (header_size + zlen (rs_bytes record_set)) align in
  let buffer := log_frame align record_set in
  ensure_segment_for_write (rs_base_offset record_set) frame_size;;
  position ← asks write_position_;
  segment_base ← asks active_segment_base_offset_;
  upd (set_write_position_ (u64 (position + frame_size)));;
  file ← asks file_;
  match file with
  | None => fail not_open_error
  | Some p =>
      on_disk (dma_write p position buffer);;
      upd (λ l, set_disk_writes_ (u64 (disk_writes_ l + 1)) l);;
      schedule_index_entry_write (rs_base_offset record_set) (rs_last_offset record_set)
        (i32 (zlen (rs_bytes record_set))) segment_base position
  end.

Definition maybe_flush : Log unit :=
  l ← asks id;
  match pc_durability (config_ l), file_ l with
  | Write, _ => mret tt
  | Fsync, None => fail not_open_error
  | Fsync, Some p =>
      upd (set_flush_scheduled_ true);;
      upd (set_flush_scheduled_ false);;
      on_disk (file_flush p);;
      upd (λ l, set_disk_fsyncs_ (u64 (disk_fsyncs_ l + 1)) l)
  end.

Definition wait_for_index_writes : Log unit :=
  l ← asks id;
  match index_write_error_ l with Some e => fail e | None => mret tt end.

(** [return write_record_set(rs).then(maybe_flush).finally(--queue_depth_)]. *)
Definition commit (record_set : RecordSet) : Log unit :=
  finally (write_record_set record_set;; maybe_flush)
    (λ w, (set_queue_depth_ (u32 (queue_depth_ w.1 - 1)) w.1, w.2)).

Definition append (records : bytes) (acks : Z) : Log ProducePartitionResult :=
  l ← asks id;
  let config := config_ l in
  let response error_code := mkProducePartitionResult (pc_topic config) (pc_partition config)
    (error_code_value error_code) 0 0 (earliest (offsets_ l)) in
  if zlen records >? pc_max_frame_bytes config then mret (response RecordListTooLarge)
  else if queue_depth_ l >=? pc_queue_limit config then mret (response RequestTimedOut)
  else if (acks <? -1) || (acks >? 1) then mret (response InvalidRequest)
  else
    upd (set_queue_depth_ (u32 (queue_depth_ l + 1)));;
    let base_offset := latest (offsets_ l) in
    count ← lift (record_count records);
    new_latest ← checked_i64 (base_offset + count);
    let last_offset := if count =? 0 then base_offset - 1 else base_offset + count - 1 in
    upd (set_latest new_latest);;
    when (length (pc_isr config) <=? 1)%nat (upd (set_high_watermark new_latest));;
    commit (mkRecordSet base_offset last_offset records);;
    mret (mkProducePartitionResult (pc_topic config) (pc_partition config) 0 base_offset new_latest
      (earliest (offsets_ l))).

Definition append_replica (request : ReplicaAppendRequest) : Log ProducePartitionResult :=
  l ← asks id;
  let config := config_ l in
  let response error_code := mkProducePartitionResult (raq_topic request) (raq_partition request)
    (error_code_value error_code) (raq_base_offset request) 0 (earliest (offsets_ l)) in
  if zlen (raq_records request) >? pc_max_frame_bytes config then mret (response RecordListTooLarge)
  else if negb (raq_base_offset request =? latest (offsets_ l)) then mret (response OffsetOutOfRange)
  else if queue_depth_ l >=? pc_queue_limit config then mret (response RequestTimedOut)
  else
    upd (set_queue_depth_ (u32 (queue_depth_ l + 1)));;
    count ← lift (record_count (raq_records request));
    let base_offset := raq_base_offset request in
    new_latest ← checked_i64 (base_offset + count);
    let last_offset := if count =? 0 then base_offset - 1 else base_offset + count - 1 in
    upd (set_latest new_latest);;
    let hw := Z.min new_latest (raq_leader_high_watermark request) in
    upd (set_high_watermark hw);;
    upd (set_replica_lag_ (Z.max 0 (raq_leader_high_watermark request - hw)));;
    commit (mkRecordSet base_offset last_offset (raq_records request));;
    mret (mkProducePartitionResult (raq_topic request) (raq_partition request) 0
      base_offset new_latest (earliest (offsets_ l))).

(** ** Reading *)

(** The cached handle of a segment, moved to the front. *)
Definition cache_hit (segment_base : Z) (cache : list (Z * cstring)) : option (cstring * list (Z * cstring)) :=
  match list_find (λ e : Z * cstring, e.1 = segment_base) cache with
  | Some (i, e) => Some (e.2, e :: take i cache ++ drop (S i) cache)
  | None => None
  end.

Definition get_segment_file_for_read (segment_base : Z) : Log cstring :=
  l ← asks id;
  match (if segment_base =? active_segment_base_offset_ l then file_ l else None) with
  | Some p => mret p
  | None =>
      match cache_hit segment_base (segment_cache_ l) with
      | Some (p, cache) => upd (set_segment_cache_ cache);; mret p
      | None =>
          let p := segment_path l segment_base in
          on_disk (open_file_dma p OpenRo);;
          upd (λ l, set_segment_cache_ (cache_push (segment_base, p) (segment_cache_ l)) l);;
          mret p
      end
  end.

(** The inner [while] of [read_records_from_index]: how many entries after
    the first join its run, and the size of the run in bytes. *)
Fixpoint extend_run (rest : list IndexEntry) (align visible_end limit have segment_base
    run_start_position : Z) (run_count : nat) (run_record_bytes run_total_bytes : Z) : nat * Z :=
  match rest with
  | [] => (run_count, run_total_bytes)
  | e :: rest' =>
      if (ie_base_offset e >=? visible_end) || (ie_last_offset e >=? visible_end)
      then (run_count, run_total_bytes)
      else if negb (ie_segment_base e =? segment_base) then (run_count, run_total_bytes)
      else
        let rb := u64 (ie_record_bytes e) in
        if u64 (u64 (have + run_record_bytes) + rb) >? limit then (run_count, run_total_bytes)
        else
          let frame_size := frame_size_of (ie_record_bytes e) align in
          extend_run rest' align visible_end limit have segment_base run_start_position
            (S run_count) (u64 (run_record_bytes + rb))
            (u64 (u64 (ie_segment_position e - run_start_position) + frame_size))
  end.

(** The parsing loop over the entries of a run. *)
Fixpoint parse_run (buffer : bytes) (run_start_position : Z) (run : list IndexEntry)
    (records : bytes) : result bytes :=
  match run with
  | [] => Ok records
  | e :: run' =>
      let relative := u64 (ie_segment_position e - run_start_position) in
      let rb := u64 (ie_record_bytes e) in
      if relative + header_size + rb >? zlen buffer
      then Err (UndefinedBehavior (str "frame outside the read buffer"))
      else
        let header := drop (Z.to_nat relative) buffer in
        if negb (frame_matches header e)
        then Err (RuntimeError (str "partition segment frame is corrupt"))
        else parse_run buffer run_start_position run'
               (records ++ slice 20 (Z.to_nat rb) header)
  end.

(** One run per round: at most [length index_entries_] rounds. *)
Fixpoint read_loop (fuel : nat) (offset visible_end limit : Z) (idx : nat) (records : bytes)
    : Log bytes :=
  match fuel with
  | O => fail (UndefinedBehavior (str "out of rounds"))
  | S fuel' =>
      l ← asks id;
      match index_entries_ l !! idx with
      | None => mret records
      | Some first =>
          if ie_last_offset first <? offset
          then read_loop fuel' offset visible_end limit (S idx) records
          else if (ie_base_offset first >=? visible_end) || (ie_last_offset first >=? visible_end)
          then mret records
          else
            let first_rb := u64 (ie_record_bytes first) in
            if negb (bool_decide (records = [])) && (u64 (zlen records + first_rb) >? limit)
            then mret records
            else
              let align := log_frame_alignment_ l in
              let '(run_count, run_total_bytes) :=
                extend_run (drop (S idx) (index_entries_ l)) align visible_end limit (zlen records)
                  (ie_segment_base first) (ie_segment_position first) 1 first_rb
                  (frame_size_of (ie_record_bytes first) align) in
              p ← get_segment_file_for_read (ie_segment_base first);
              buffer ← from_disk (dma_read p (ie_segment_position first) run_total_bytes);
              if negb (zlen buffer =? run_total_bytes)
              then fail (RuntimeError (str "partition segment short read"))
              else
                records ← lift (parse_run buffer (ie_segment_position first)
                  (take run_count (drop idx (index_entries_ l))) records);
                if zlen records >=? limit then mret records
                else read_loop fuel' offset visible_end limit (idx + run_count) records
      end
  end.

Definition read_records_from_index (offset visible_end limit : Z) : Log bytes :=
  l ← asks id;
  read_loop (S (length (index_entries_ l))) offset visible_end limit
    (find_index_for_offset (index_entries_ l) offset) [].

Definition fetch_limit (l : PartitionLogShard) (max_bytes : Z) : Z :=
  if max_bytes <=? 0 then pc_max_frame_bytes (config_ l) else max_bytes.

Definition visible_end_of (l : PartitionLogShard) : Z :=
  match pc_fetch_visibility (config_ l) with
  | HighWatermark => high_watermark (offsets_ l)
  | LeaderLocalEnd => latest (offsets_ l)
  end.

Definition fetch (offset max_bytes : Z) : Log FetchPartitionResult :=
  l ← asks id;
  let visible_end := visible_end_of l in
  let result error_code := mkFetchPartitionResult error_code visible_end
    (earliest (offsets_ l)) (latest (offsets_ l)) in
  if (offset <? earliest (offsets_ l)) || (offset >? latest (offsets_ l))
  then mret (result (error_code_value OffsetOutOfRange) [])
  else
    records ← read_records_from_index offset visible_end (fetch_limit l max_bytes);
    mret (result 0 records).

Definition fetch_for_replica (offset max_bytes : Z) : Log ReplicaFetchResult :=
  l ← asks id;
  let result error_code := mkReplicaFetchResult error_code
    (high_watermark (offsets_ l)) (latest (offsets_ l)) in
  if (offset <? earliest (offsets_ l)) || (offset >? latest (offsets_ l))
  then mret (result (error_code_value OffsetOutOfRange) [])
  else
    records ← read_records_from_index offset (latest (offsets_ l)) (fetch_limit l max_bytes);
    mret (result 0 records).

(** ** Recovery *)

Definition reset_recovery (l : PartitionLogShard) : PartitionLogShard :=
  set_index_position_ 0 (set_write_position_ 0 (set_active_segment_base_offset_ 0
    (set_offsets_ (mkPartitionOffsets 0 0 0) (set_index_entries_ [] (set_segments_ [] l))))).

(** The active segment is the last one of [segments_]. *)
Definition activate_last (l : PartitionLogShard) : PartitionLogShard :=
  match last (segments_ l) with
  | Some active => set_write_position_ (si_write_position active)
      (set_active_segment_base_offset_ (si_base_offset active) l)
  | None => l
  end.

(** [for (position = 0; position + entry_size <= size; position += entry_size)];
    an entry takes at least one byte, so [size] rounds are enough. *)
Fixpoint recover_index_loop (fuel : nat) (p : cstring) (size position : Z) (recovered : bool)
    : Log bool :=
  match fuel with
  | O => fail (UndefinedBehavior (str "out of rounds"))
  | S fuel' =>
      l ← asks id;
      let entry_size := index_entry_size_ l in
      if u64 (position + entry_size) <=? size then
        buffer ← from_disk (dma_read p position entry_size);
        if negb (zlen buffer =? entry_size) then mret recovered
        else match decode_index_entry buffer with
        | None => mret recovered
        | Some entry =>
            upd (note_index_entry entry);;
            next_offset ← checked_i64 (ie_last_offset entry + 1);
            upd (λ l, set_latest (Z.max (latest (offsets_ l)) next_offset) l);;
            upd (λ l, set_high_watermark (latest (offsets_ l)) l);;
            upd (λ l, set_index_position_ (u64 (index_position_ l + entry_size)) l);;
            recover_index_loop fuel' p size (u64 (position + entry_size)) true
        end
      else mret recovered
  end.

Definition recover_from_index : Log bool :=
  p ← asks index_path;
  opened ← catch (on_disk (open_file_dma p OpenRo);; update_dma_alignment p;; mret true)
                 (λ _, mret false);
  if negb opened then mret false
  else
    size ← from_disk (file_size p);
    recovered ← recover_index_loop (S (Z.to_nat size)) p size 0 false;
    when recovered (upd activate_last);;
    mret recovered.

(** The directory entries that are segments of this partition. *)
Fixpoint collect_segments (l : PartitionLogShard)
    (entries : list (cstring * option directory_entry_type)) : result (list (Z * cstring)) :=
  match entries with
  | [] => Ok []
  | (name, ty) :: entries' =>
      if bool_decide (ty = Some OtherEntry) then collect_segments l entries'
      else
        base_offset ← segment_base_offset_from_name (config_ l) name;
        segments ← collect_segments l entries';
        Ok (match base_offset with
            | Some b => (b, path_join (root_ l) name) :: segments
            | None => segments
            end)
  end.

Definition by_base (a b : Z * cstring) : Prop := a.1 <= b.1.
#[global] Instance by_base_dec : RelDecision by_base.
Proof. intros a b. apply Z_le_dec. Defined.

Definition list_segment_files : Log (list (Z * cstring)) :=
  l ← asks id;
  opened ← catch (from_disk (open_directory (root_ l));; mret true) (λ _, mret false);
  if negb opened then mret []
  else
    entries ← from_disk (list_directory (root_ l));
    segments ← lift (collect_segments l entries);
    mret (merge_sort by_base segments).

Fixpoint segments_cover (segment_files : list (Z * cstring)) (segments : list SegmentInfo) : Log bool :=
  match segment_files, segments with
  | (segment_base, p) :: segment_files', info :: segments' =>
      if negb (segment_base =? si_base_offset info) then mret false
      else
        on_disk (open_file_dma p OpenRo);;
        size ← from_disk (file_size p);
        if negb (size =? si_write_position info) then mret false
        else segments_cover segment_files' segments'
  | _, _ => mret true
  end.

Definition recovered_index_covers_segments : Log bool :=
  l ← asks id;
  if bool_decide (segments_ l = []) then mret true
  else
    segment_files ← list_segment_files;
    if negb (zlen segment_files =? zlen (segments_ l)) then mret false
    else segments_cover segment_files (segments_ l).

Definition write_rebuilt_index_entry (index_file : cstring) (entry : IndexEntry) (position : Z) : Log unit :=
  l ← asks id;
  on_disk (dma_write index_file position (encode_index_entry (index_entry_size_ l) entry)).

(** A frame takes at least one byte of the segment: [size] rounds are enough.
    Returns the position reached in the rebuilt index. *)
Fixpoint recover_segment_loop (fuel : nat) (segment_base : Z) (p : cstring) (index_file : cstring)
    (size position rebuilt_index_position : Z) : Log Z :=
  match fuel with
  | O => fail (UndefinedBehavior (str "out of rounds"))
  | S fuel' =>
      l ← asks id;
      let align := log_frame_alignment_ l in
      if u64 (position + align) <=? size then
        header ← from_disk (dma_read p position align);
        if negb (zlen header =? align) || negb (memcmp_eq header 0 kLogMagic)
        then mret rebuilt_index_position
        else
          let base_offset := get_i64 8 header in
          let record_bytes := get_i32 16 header in
          if record_bytes <=? 0 then mret rebuilt_index_position
          else
            let frame_size := frame_size_of record_bytes align in
            if u64 (position + frame_size) >? size then mret rebuilt_index_position
            else
              records ← (if frame_size =? align
                then mret (Some (slice 20 (Z.to_nat record_bytes) header))
                else
                  frame ← from_disk (dma_read p position frame_size);
                  if negb (zlen frame =? frame_size) || negb (memcmp_eq frame 0 kLogMagic) ||
                     negb (get_i64 8 frame =? base_offset) || negb (get_i32 16 frame =? record_bytes)
                  then mret None
                  else mret (Some (slice 20 (Z.to_nat record_bytes) frame)) : Log (option bytes));
              match records with
              | None => mret rebuilt_index_position
              | Some records =>
                  count ← lift (record_count records);
                  new_latest ← checked_i64 (base_offset + count);
                  let entry := mkIndexEntry base_offset (new_latest - 1) segment_base position record_bytes in
                  upd (note_index_entry entry);;
                  write_rebuilt_index_entry index_file entry rebuilt_index_position;;
                  upd (λ l, set_index_position_ (u64 (index_position_ l + index_entry_size_ l)) l);;
                  upd (set_latest new_latest);;
                  upd (set_high_watermark new_latest);;
                  recover_segment_loop fuel' segment_base p index_file size
                    (u64 (position + frame_size)) (u64 (rebuilt_index_position + index_entry_size_ l))
              end
      else mret rebuilt_index_position
  end.

Definition recover_segment_file (segment_base : Z) (p index_file : cstring)
    (rebuilt_index_position : Z) : Log Z :=
  on_disk (open_file_dma p OpenRo);;
  update_dma_alignment p;;
  size ← from_disk (file_size p);
  recover_segment_loop (S (Z.to_nat size)) segment_base p index_file size 0 rebuilt_index_position.

Fixpoint recover_segment_files (segment_files : list (Z * cstring)) (index_file : cstring)
    (rebuilt_index_position : Z) : Log Z :=
  match segment_files with
  | [] => mret rebuilt_index_position
  | (segment_base, p) :: segment_files' =>
      position ← recover_segment_file segment_base p index_file rebuilt_index_position;
      recover_segment_files segment_files' index_file position
  end.

Definition recover_from_segments : Log unit :=
  segment_files ← list_segment_files;
  index_file ← asks index_path;
  on_disk (open_file_dma index_file OpenRwCreateTruncate);;
  recover_segment_files segment_files index_file 0;;
  if bool_decide (segment_files = []) then
    upd (λ l, set_write_position_ 0 (set_active_segment_base_offset_ (latest (offsets_ l)) l))
  else upd activate_last.

Definition recover : Log unit :=
  upd reset_recovery;;
  recovered ← recover_from_index;
  if recovered : bool then
    complete ← recovered_index_covers_segments;
    if complete : bool then mret tt
    else upd reset_recovery;; recover_from_segments
  else recover_from_segments.

Definition start (config : PartitionConfig) (root : cstring) (segment_bytes : Z) : Log unit :=
  upd (λ l, set_flush_scheduled_ false (set_index_write_error_ None (set_index_entries_ []
    (set_segment_bytes_ segment_bytes (set_root_ root (set_config_ config l))))));;
  on_disk (recursive_touch_directory root);;
  recover;;
  open_active_segment;;
  open_index.

(** [stop]: with no write in flight the gates close at once. *)
Definition stop : Log unit :=
  upd (set_index_write_gate_closed_ true);;
  upd (set_segment_cache_ []);;
  upd (set_segment_close_gate_closed_ true);;
  upd (set_file_ None);;
  upd (set_index_file_ None).
End operations.
