(* ===== verification/LogLayout.v ===== *)
(** * Where a sequence of record sets lies in the segments

    The specification of the storage layout: given the record sets appended
    so far, the index entries they get, the segments they fill and the bytes
    of every segment file.  Pure functions of the sequence; PartitionLog's
    state is related to them in LogRep.v. *)

From Stdlib Require Import ZArith Lia.
From stdpp Require Import base tactics numbers option sorting list.
From S2P Require Import Prelude RecordBatch Detail LogFormat PartitionLog.

Local Open Scope Z_scope.

(** The write position: active segment, position in it, next offset. *)
Record Cursor := mkCursor { cu_seg : Z; cu_pos : Z; cu_next : Z }.
Definition cursor0 : Cursor := mkCursor 0 0 0.

(** Records in a record set. *)
Definition cnt (b : bytes) : Z := match record_count b with Ok n => n | Err _ => 0 end.

(** A record set the log stores: not empty, below 2 GiB. *)
Definition rs_ok (b : bytes) : Prop := b ≠ [] ∧ zlen b < 2 ^ 31.

Section layout.
Context (A S : Z).
Hypothesis A_range : 512 <= A <= 2 ^ 16.

Definition fsz (b : bytes) : Z := round_up (header_size + zlen b) A.

(** Segment rollover: the active segment is not empty and the frame does not
    fit. *)
Definition rolls (c : Cursor) (b : bytes) : bool :=
  negb ((cu_pos c =? 0) || (cu_pos c + fsz b <=? S)).
Definition seg_for (c : Cursor) (b : bytes) : Z := if rolls c b then cu_next c else cu_seg c.
Definition pos_for (c : Cursor) (b : bytes) : Z := if rolls c b then 0 else cu_pos c.
Definition entry_for (c : Cursor) (b : bytes) : IndexEntry :=
  mkIndexEntry (cu_next c) (cu_next c + cnt b - 1) (seg_for c b) (pos_for c b) (zlen b).
Definition next_cursor (c : Cursor) (b : bytes) : Cursor :=
  mkCursor (seg_for c b) (pos_for c b + fsz b) (cu_next c + cnt b).

Fixpoint placed (c : Cursor) (L : list bytes) : list (IndexEntry * bytes) :=
  match L with
  | [] => []
  | b :: L' => (entry_for c b, b) :: placed (next_cursor c b) L'
  end.
Definition cursor_after (c : Cursor) (L : list bytes) : Cursor := fold_left next_cursor L c.
Definition entries (L : list bytes) : list IndexEntry := map fst (placed cursor0 L).

(** The frame of an entry, and the bytes of segment [s]. *)
Definition frame_of (eb : IndexEntry * bytes) : bytes :=
  log_frame A (mkRecordSet (ie_base_offset eb.1) (ie_last_offset eb.1) eb.2).
Definition in_segment (s : Z) (eb : IndexEntry * bytes) : Prop := ie_segment_base eb.1 = s.
#[global] Instance in_segment_dec s eb : Decision (in_segment s eb) := Z.eq_dec _ _.
Definition frames (es : list (IndexEntry * bytes)) : bytes := concat (map frame_of es).
Definition image (L : list bytes) (s : Z) : bytes := frames (filter (in_segment s) (placed cursor0 L)).

(** Segments with a file: the first one and every one an entry lies in. *)
Definition seg_exists (L : list bytes) (s : Z) : Prop :=
  s = 0 ∨ ∃ eb, eb ∈ placed cursor0 L ∧ in_segment s eb.

Definition index_image (L : list bytes) : bytes := concat (map (encode_index_entry A) (entries L)).

(** What the log as a whole must satisfy for no counter to wrap. *)
Definition log_ok (L : list bytes) : Prop :=
  Forall rs_ok L ∧ zlen L < 2 ^ 31 ∧ cu_next (cursor_after cursor0 L) < 2 ^ 63.

(** ** Lemmas *)

Lemma cnt_ok b : zlen b < 2 ^ 31 → record_count b = Ok (cnt b) ∧ 0 <= cnt b < 2 ^ 62 ∧ (cnt b = 0 ↔ b = []).
Proof.
  intros Hb. unfold cnt, record_count. destruct (estimate_total b Hb) as (n & -> & Hn & Hz). done.
Qed.

Lemma cnt_pos b : rs_ok b → 1 <= cnt b.
Proof.
  intros [Hn Hl]. destruct (cnt_ok b Hl) as (_ & Hb & Hz).
  assert (cnt b ≠ 0) by (by rewrite Hz). lia.
Qed.

Lemma fsz_range b :
  zlen b < 2 ^ 31 → 20 + zlen b <= fsz b < 2 ^ 32 ∧ A <= fsz b ∧ (A | fsz b).
Proof.
  intros Hb. pose proof (zlen_nonneg b). unfold fsz, header_size.
  destruct (round_up_spec (20 + zlen b) A) as ([H1 H2] & Hd & _); [lia..|].
  destruct Hd as [k Hk]. split; [lia|]. split; [|by exists k]. rewrite Hk in *.
  assert (0 < k) by (apply (Z.mul_pos_cancel_r _ A); lia). nia.
Qed.

Lemma frame_size_of_fsz b : zlen b < 2 ^ 31 → frame_size_of (zlen b) A = fsz b.
Proof.
  intros Hb. pose proof (zlen_nonneg b). unfold frame_size_of.
  by rewrite wrap_u_id by (unfold in_u; lia).
Qed.

Lemma placed_app c L1 L2 :
  placed c (L1 ++ L2) = placed c L1 ++ placed (cursor_after c L1) L2.
Proof. revert c. induction L1 as [|b L1 IH]; intros c; [done|]. simpl. by rewrite IH. Qed.

Lemma cursor_after_app c L1 L2 :
  cursor_after c (L1 ++ L2) = cursor_after (cursor_after c L1) L2.
Proof. apply fold_left_app. Qed.

Lemma placed_snoc c L b :
  placed c (L ++ [b]) = placed c L ++ [(entry_for (cursor_after c L) b, b)].
Proof. by rewrite placed_app. Qed.

Lemma cursor_after_snoc c L b : cursor_after c (L ++ [b]) = next_cursor (cursor_after c L) b.
Proof. by rewrite cursor_after_app. Qed.

Lemma length_placed c L : length (placed c L) = length L.
Proof. revert c. induction L as [|b L IH]; intros c; simpl; auto. Qed.

Lemma placed_bytes c L : map snd (placed c L) = L.
Proof. revert c. induction L as [|b L IH]; intros c; simpl; [done|]. by rewrite IH. Qed.

Lemma frames_app es1 es2 : frames (es1 ++ es2) = frames es1 ++ frames es2.
Proof. unfold frames. by rewrite map_app, concat_app. Qed.

Lemma zlen_frame_of eb : zlen eb.2 < 2 ^ 31 → zlen (frame_of eb) = fsz eb.2.
Proof. intros Hb. unfold frame_of. by rewrite zlen_log_frame. Qed.

(** A cursor in range: nothing behind it, and past its segment's base once it
    has written there. *)
Definition cursor_wf (c : Cursor) : Prop :=
  0 <= cu_seg c <= cu_next c ∧ 0 <= cu_pos c ∧ (cu_pos c ≠ 0 → cu_seg c < cu_next c).

Lemma cursor0_wf : cursor_wf cursor0.
Proof. unfold cursor_wf. simpl. lia. Qed.

Lemma next_cursor_wf c b :
  cursor_wf c → rs_ok b → cursor_wf (next_cursor c b) ∧ cu_next c < cu_next (next_cursor c b) ∧
  cu_seg c <= cu_seg (next_cursor c b) ∧ 0 < cu_pos (next_cursor c b) ∧
  (rolls c b = true → cu_seg c < cu_next c).
Proof.
  intros (Hs & Hp & Hlt) Hb. pose proof (cnt_pos b Hb). destruct Hb as [_ Hl].
  pose proof (fsz_range b Hl). pose proof (zlen_nonneg b).
  assert (rolls c b = true → cu_seg c < cu_next c) as Hr.
  { unfold rolls. rewrite negb_true_iff, orb_false_iff, Z.eqb_neq. intros [? _]. auto. }
  unfold cursor_wf, next_cursor, seg_for, pos_for. simpl.
  destruct (rolls c b); split_and!; try lia; auto.
Qed.

Lemma cursor_after_wf c L :
  cursor_wf c → Forall rs_ok L → cursor_wf (cursor_after c L) ∧
  cu_next c <= cu_next (cursor_after c L) ∧ cu_seg c <= cu_seg (cursor_after c L).
Proof.
  intros Hc HL. revert c Hc. induction HL as [|b L Hb _ IH]; intros c Hc; [simpl; split_and!; (done || lia)|].
  destruct (next_cursor_wf c b Hc Hb) as (Hc' & Hn & Hs & _ & _).
  destruct (IH _ Hc') as (? & ? & ?). simpl. split_and!; [done|lia..].
Qed.

Lemma placed_split c L P1 e b P2 :
  placed c L = P1 ++ (e, b) :: P2 →
  ∃ L1 L2, L = L1 ++ b :: L2 ∧ P1 = placed c L1 ∧ e = entry_for (cursor_after c L1) b ∧
    P2 = placed (cursor_after c (L1 ++ [b])) L2.
Proof.
  revert c L. induction P1 as [|[e1 b1] P1 IH]; intros c [|b' L] E; simpl in E; try done.
  - injection E as <- <- <-. exists [], L. done.
  - injection E as <- <- E. destruct (IH _ _ E) as (L1 & L2 & -> & -> & -> & ->).
    exists (b' :: L1), L2. done.
Qed.

Lemma placed_elem c L eb :
  eb ∈ placed c L → ∃ L1 L2, L = L1 ++ eb.2 :: L2 ∧ eb.1 = entry_for (cursor_after c L1) eb.2.
Proof.
  intros Hin. apply list_elem_of_split in Hin as (P1 & P2 & E). destruct eb as [e b].
  apply placed_split in E as (L1 & L2 & -> & _ & -> & _). eauto.
Qed.

(** The segments and offsets of the entries lie between the cursors. *)
Lemma placed_bounds c L eb :
  cursor_wf c → Forall rs_ok L → eb ∈ placed c L →
  rs_ok eb.2 ∧ cu_seg c <= ie_segment_base eb.1 <= cu_seg (cursor_after c L) ∧
  cu_next c <= ie_base_offset eb.1 <= ie_last_offset eb.1 ∧
  ie_last_offset eb.1 < cu_next (cursor_after c L) ∧
  ie_segment_base eb.1 <= ie_base_offset eb.1 ∧ 0 <= ie_segment_position eb.1.
Proof.
  intros Hc HL Hin. destruct (placed_elem c L eb Hin) as (L1 & L2 & -> & He).
  apply Forall_app in HL as [H1 H2]. apply Forall_cons in H2 as [Hb H2].
  destruct (cursor_after_wf c L1 Hc H1) as (Hc1 & Hn1 & Hs1).
  destruct (next_cursor_wf _ eb.2 Hc1 Hb) as (Hc2 & Hn2 & Hs2 & _ & _).
  destruct (cursor_after_wf _ L2 Hc2 H2) as (_ & Hn3 & Hs3).
  rewrite cursor_after_app. simpl. fold (cursor_after (next_cursor (cursor_after c L1) eb.2) L2).
  pose proof (cnt_pos _ Hb). rewrite He. simpl in *. destruct Hc1 as (? & ? & ?).
  unfold pos_for, seg_for in *. destruct (rolls _ _); split_and!; try done; lia.
Qed.

Lemma filter_none (s : Z) (P : list (IndexEntry * bytes)) :
  (∀ eb, eb ∈ P → ie_segment_base eb.1 ≠ s) → filter (in_segment s) P = [].
Proof.
  induction P as [|eb P IH]; intros HP; [done|]. rewrite filter_cons_False.
  - apply IH. intros x Hx. apply HP. by right.
  - apply HP. by left.
Qed.

Lemma filter_all (s : Z) (P : list (IndexEntry * bytes)) :
  Forall (in_segment s) P → filter (in_segment s) P = P.
Proof. induction 1 as [|eb P Heb _ IH]; [done|]. by rewrite filter_cons_True, IH. Qed.

Lemma filter_segment_cons s eb (P : list (IndexEntry * bytes)) :
  filter (in_segment s) (eb :: P)
  = if ie_segment_base eb.1 =? s then eb :: filter (in_segment s) P else filter (in_segment s) P.
Proof.
  destruct (Z.eqb_spec (ie_segment_base eb.1) s); [by apply filter_cons_True|by apply filter_cons_False].
Qed.

Lemma zlen_frames_cons eb P :
  zlen eb.2 < 2 ^ 31 → zlen (frames (eb :: P)) = fsz eb.2 + zlen (frames P).
Proof. intros Hb. unfold frames. cbn [map concat]. by rewrite zlen_app, zlen_frame_of. Qed.

(** The write position is the size of the active segment. *)
Lemma cursor_pos c L :
  cursor_wf c → Forall rs_ok L →
  let s := cu_seg (cursor_after c L) in
  cu_pos (cursor_after c L)
  = (if s =? cu_seg c then cu_pos c else 0) + zlen (frames (filter (in_segment s) (placed c L))).
Proof.
  intros Hc HL. revert c Hc. induction HL as [|b L Hb HL IH]; intros c Hc s.
  { unfold s. simpl. rewrite Z.eqb_refl. unfold zlen. simpl. lia. }
  destruct (next_cursor_wf c b Hc Hb) as (Hc' & _ & _ & _ & Hroll).
  destruct (cursor_after_wf _ L Hc' HL) as (_ & _ & Hs). cbn [placed cursor_after fold_left] in *.
  fold (cursor_after (next_cursor c b) L) in *. specialize (IH _ Hc'). fold s in IH, Hs.
  cbv zeta in IH. rewrite IH. clear IH. destruct Hb as [_ Hl].
  rewrite filter_segment_cons. set (rest := filter (in_segment s) _).
  cbn [fst entry_for ie_segment_base next_cursor cu_seg cu_pos] in *. unfold seg_for, pos_for in *.
  destruct (rolls c b) eqn:Hr.
  - specialize (Hroll eq_refl). destruct (Z.eqb_spec s (cu_seg c)); [lia|].
    destruct (Z.eqb_spec s (cu_next c)), (Z.eqb_spec (cu_next c) s); try lia.
    rewrite zlen_frames_cons by done. simpl. lia.
  - destruct (Z.eqb_spec s (cu_seg c)), (Z.eqb_spec (cu_seg c) s); try lia.
    rewrite zlen_frames_cons by done. simpl. lia.
Qed.

(** The position of an entry is the size of the frames before it in its
    segment. *)
Lemma entry_position L P1 e b P2 :
  Forall rs_ok L → placed cursor0 L = P1 ++ (e, b) :: P2 →
  ie_segment_position e = zlen (frames (filter (in_segment (ie_segment_base e)) P1)).
Proof.
  intros HL E. apply placed_split in E as (L1 & L2 & -> & -> & -> & _).
  apply Forall_app in HL as [H1 H2]. apply Forall_cons in H2 as [Hb _].
  pose proof (cursor_pos cursor0 L1 cursor0_wf H1) as Hp. cbv zeta in Hp.
  destruct (cursor_after_wf cursor0 L1 cursor0_wf H1) as (Hc1 & _ & _).
  destruct (next_cursor_wf _ b Hc1 Hb) as (_ & _ & _ & _ & Hroll).
  set (c1 := cursor_after cursor0 L1) in *. simpl. unfold pos_for, seg_for.
  destruct (rolls c1 b) eqn:Hr.
  - rewrite filter_none; [done|]. intros eb Hin.
    destruct (placed_bounds cursor0 L1 eb cursor0_wf H1 Hin) as (_ & Hs & _). fold c1 in Hs.
    specialize (Hroll eq_refl). lia.
  - rewrite Hp. destruct (_ =? _); simpl; lia.
Qed.

(** A segment file is cut at the position of each of its entries. *)
Lemma image_split L P1 run P2 s :
  Forall rs_ok L → placed cursor0 L = P1 ++ run ++ P2 →
  Forall (in_segment s) run →
  image L s = frames (filter (in_segment s) P1) ++ frames run ++ frames (filter (in_segment s) P2).
Proof.
  intros HL E Hrun. unfold image. rewrite E, !filter_app, !frames_app. do 2 f_equal.
  by rewrite filter_all.
Qed.

Lemma cursor_pos_bound c L :
  Forall rs_ok L → 0 <= cu_pos c →
  0 <= cu_pos (cursor_after c L) <= cu_pos c + 2 ^ 32 * zlen L.
Proof.
  intros HL. revert c. induction HL as [|b L [_ Hl] _ IH]; intros c Hc; simpl.
  { unfold zlen. simpl. lia. }
  fold (cursor_after (next_cursor c b) L).
  pose proof (fsz_range b Hl). pose proof (zlen_nonneg b). rewrite zlen_cons.
  assert (0 <= cu_pos (next_cursor c b) <= cu_pos c + 2 ^ 32).
  { simpl. unfold pos_for. destruct (rolls c b); lia. }
  specialize (IH (next_cursor c b) ltac:(lia)). lia.
Qed.

(** ** The segment table *)

Definition segments_of (L : list bytes) : list SegmentInfo := fold_left (note_segment A) (entries L) [].

Lemma entries_snoc L b : entries (L ++ [b]) = entries L ++ [entry_for (cursor_after cursor0 L) b].
Proof. unfold entries. by rewrite placed_snoc, map_app. Qed.

Lemma segments_of_snoc L b :
  segments_of (L ++ [b]) = note_segment A (segments_of L) (entry_for (cursor_after cursor0 L) b).
Proof. unfold segments_of. by rewrite entries_snoc, fold_left_app. Qed.

Lemma image_snoc L b s :
  image (L ++ [b]) s = image L s ++
    (if seg_for (cursor_after cursor0 L) b =? s
     then frame_of (entry_for (cursor_after cursor0 L) b, b) else []).
Proof.
  unfold image. rewrite placed_snoc, filter_app, frames_app. f_equal.
  rewrite filter_segment_cons. cbn [fst entry_for ie_segment_base].
  destruct (_ =? s); [|done]. unfold frames. simpl. by rewrite app_nil_r.
Qed.

(** One row per segment in use, in order, with the size of its file; the
    last row is the active segment. *)
Definition table_ok (L : list bytes) (segs : list SegmentInfo) : Prop :=
  StronglySorted Z.lt (map si_base_offset segs) ∧
  (∀ s, s ∈ map si_base_offset segs ↔ ∃ eb, eb ∈ placed cursor0 L ∧ in_segment s eb) ∧
  Forall (λ info, si_write_position info = zlen (image L (si_base_offset info))) segs ∧
  (∀ info, last segs = Some info → si_base_offset info = cu_seg (cursor_after cursor0 L)) ∧
  (segs = [] → L = []).

Lemma image_empty L s :
  (∀ eb, eb ∈ placed cursor0 L → ie_segment_base eb.1 ≠ s) → image L s = [].
Proof. intros H. unfold image. by rewrite filter_none. Qed.

Lemma cursor_pos0 L :
  Forall rs_ok L →
  cu_pos (cursor_after cursor0 L) = zlen (image L (cu_seg (cursor_after cursor0 L))).
Proof.
  intros HL. rewrite (cursor_pos cursor0 L cursor0_wf HL). cbv zeta. unfold image.
  destruct (_ =? _); simpl; lia.
Qed.

Lemma in_use_snoc L b s :
  (∃ eb, eb ∈ placed cursor0 (L ++ [b]) ∧ in_segment s eb) ↔
  (∃ eb, eb ∈ placed cursor0 L ∧ in_segment s eb) ∨ s = seg_for (cursor_after cursor0 L) b.
Proof.
  rewrite placed_snoc. unfold in_segment. split.
  - intros (eb & Hin & <-). apply elem_of_app in Hin as [Hin|Hin]; [eauto|].
    apply list_elem_of_singleton in Hin as ->. by right.
  - intros [(eb & Hin & <-)| ->].
    + exists eb. split; [apply elem_of_app; by left|done].
    + eexists. split; [apply elem_of_app; right; by apply list_elem_of_singleton|done].
Qed.

(** A record set that opens a segment adds a row. *)
Lemma table_open L segs b last_offset wp :
  table_ok L segs → (∀ s, s ∈ map si_base_offset segs → s < seg_for (cursor_after cursor0 L) b) →
  wp = zlen (frame_of (entry_for (cursor_after cursor0 L) b, b)) →
  table_ok (L ++ [b])
    (segs ++ [mkSegmentInfo (seg_for (cursor_after cursor0 L) b) last_offset wp]).
Proof.
  intros (Hsort & Hmem & Hwp & Hlast & Hnil) Hlt Hw. set (s' := seg_for _ b) in *.
  assert (image L s' = []) as Himg.
  { apply image_empty. intros eb Hin Heq. assert (s' ∈ map si_base_offset segs); [|naive_solver lia].
    apply Hmem. by exists eb. }
  unfold table_ok. rewrite cursor_after_snoc, map_app. cbn [map si_base_offset next_cursor cu_seg].
  split_and!.
  - apply StronglySorted_app. split_and!; [|done|repeat constructor].
    intros x y Hx Hy. apply list_elem_of_singleton in Hy as ->. by apply Hlt.
  - intros s. rewrite in_use_snoc, elem_of_app, list_elem_of_singleton, Hmem. done.
  - apply Forall_app. split.
    + rewrite Forall_forall in Hwp |- *. intros info Hin. rewrite (Hwp info Hin), image_snoc.
      fold s'. destruct (Z.eqb_spec s' (si_base_offset info)) as [Heq|]; [|by rewrite app_nil_r].
      exfalso. specialize (Hlt (si_base_offset info)). rewrite Heq in Hlt.
      assert (si_base_offset info ∈ map si_base_offset segs); [|naive_solver lia].
      by apply list_elem_of_fmap_2.
    + repeat constructor. simpl. rewrite image_snoc. fold s'. by rewrite Z.eqb_refl, Himg.
  - intros info. rewrite last_snoc. by intros [= <-].
  - intros E. by apply app_nil in E as [_ ?].
Qed.

(** A record set in the active segment grows its row. *)
Lemma table_grow L init info b last_offset wp :
  table_ok L (init ++ [info]) → seg_for (cursor_after cursor0 L) b = si_base_offset info →
  wp = zlen (image (L ++ [b]) (si_base_offset info)) →
  table_ok (L ++ [b]) (init ++ [mkSegmentInfo (si_base_offset info) last_offset wp]).
Proof.
  intros (Hsort & Hmem & Hwp & Hlast & Hnil) Hseg ->. unfold table_ok.
  rewrite cursor_after_snoc, map_app in *. cbn [map si_base_offset next_cursor cu_seg] in *. split_and!.
  - done.
  - intros s. rewrite in_use_snoc, <- Hmem, Hseg. split; [auto|].
    intros [?| ->]; [done|]. apply elem_of_app. right. by apply list_elem_of_singleton.
  - apply Forall_app in Hwp as [Hwp _]. apply Forall_app. split; [|by repeat constructor].
    rewrite Forall_forall in Hwp |- *. intros i Hin. rewrite (Hwp i Hin), image_snoc, Hseg.
    destruct (Z.eqb_spec (si_base_offset info) (si_base_offset i)) as [Heq|]; [|by rewrite app_nil_r].
    exfalso. assert (si_base_offset i < si_base_offset info); [|lia].
    eapply (StronglySorted_app_1_elem_of Z.lt); [exact Hsort|by apply list_elem_of_fmap_2|left].
  - intros i. rewrite last_snoc. intros [= <-]. done.
  - intros E. by apply app_nil in E as [_ ?].
Qed.

Lemma table_ok_snoc L segs b :
  Forall rs_ok (L ++ [b]) → zlen L < 2 ^ 31 - 1 → table_ok L segs →
  table_ok (L ++ [b]) (note_segment A segs (entry_for (cursor_after cursor0 L) b)).
Proof.
  intros HL' HLn Htab. pose proof Htab as (Hsort & Hmem & Hwp & Hlast & Hnil).
  apply Forall_app in HL' as [HL Hb]. apply Forall_cons in Hb as [Hb _].
  destruct (cursor_after_wf cursor0 L cursor0_wf HL) as (Hc & _ & _).
  destruct (next_cursor_wf _ b Hc Hb) as (_ & _ & _ & _ & Hroll).
  pose proof (cursor_pos_bound cursor0 L HL ltac:(done)) as Hpos.
  pose proof (cursor_pos0 L HL) as Himg. pose proof (fsz_range b (proj2 Hb)) as Hfs.
  pose proof (zlen_nonneg b). set (c := cursor_after cursor0 L) in *. simpl in Hpos.
  assert (zlen (frame_of (entry_for c b, b)) = fsz b) as Hframe by (by apply zlen_frame_of, Hb).
  unfold note_segment.
  cbn [entry_for ie_record_bytes ie_segment_position ie_segment_base ie_last_offset].
  rewrite frame_size_of_fsz by apply Hb.
  rewrite (wrap_u_id 64) by (unfold in_u, pos_for; destruct (rolls c b); lia).
  destruct (last segs) as [info|] eqn:Elast.
  - specialize (Hlast info eq_refl). apply last_Some in Elast as [init ->].
    rewrite Hlast. unfold seg_for at 1, pos_for. destruct (rolls c b) eqn:Hr.
    + destruct (Z.eqb_spec (cu_seg c) (cu_next c)); [specialize (Hroll eq_refl); lia|].
      apply table_open; [done| |by fold c; rewrite Hframe].
      intros s Hs. apply Hmem in Hs as (eb & Hin & <-). fold c. unfold seg_for. rewrite Hr.
      specialize (Hroll eq_refl).
      destruct (placed_bounds cursor0 L eb cursor0_wf HL Hin) as (_ & Hle & _). fold c in Hle. lia.
    + rewrite Z.eqb_refl, length_app, Nat.add_sub, take_app_length, <- Hlast.
      assert (seg_for c b = si_base_offset info) as Hseg by (unfold seg_for; by rewrite Hr).
      apply table_grow; [done|done|]. rewrite image_snoc. fold c. rewrite Hseg, Z.eqb_refl, zlen_app, Hframe.
      rewrite Forall_app in Hwp. destruct Hwp as [_ Hwp]. apply Forall_cons in Hwp as [-> _].
      rewrite Hlast, <- Himg. lia.
  - apply last_None in Elast as ->. specialize (Hnil eq_refl) as ->.
    apply table_open; [done|intros s Hs; by apply elem_of_nil in Hs|]. fold c. rewrite Hframe. done.
Qed.

Lemma segments_of_ok L : Forall rs_ok L → zlen L < 2 ^ 31 → table_ok L (segments_of L).
Proof.
  induction L as [|b L IH] using rev_ind; intros HL Hn.
  { unfold table_ok, segments_of. simpl. split_and!; try done; [apply SSorted_nil|].
    intros s. split; [by intros ?%elem_of_nil|]. intros (eb & Hin & _). by apply elem_of_nil in Hin. }
  rewrite segments_of_snoc. rewrite zlen_app in Hn. change (zlen [b]) with 1 in Hn.
  apply table_ok_snoc; [done|lia|]. apply Forall_app in HL as [HL _]. apply IH; [done|lia].
Qed.
End layout.
