(* ===== verification/LogRep.v ===== *)
(** * What a partition log stores

    [store l d L] relates the concrete state of a partition log and its disk
    to the record sets [L] appended to it: the in-memory index, the segment
    table and the write position are those of the layout of [L], and the
    segment and index files hold exactly its frames and entries.  Writing a
    record set extends [L] by it. *)

From Stdlib Require Import ZArith Lia.
From stdpp Require Import base tactics numbers option sorting gmap list.
From S2P Require Import Prelude Protocol Config RecordBatch Detail Storage LogFormat PartitionLog LogLayout.

Local Open Scope Z_scope.

(** ** Paths *)

Lemma path_join_inj dir a b : path_join dir a = path_join dir b → a = b.
Proof. unfold path_join. intros E. by apply app_inv_head, app_inv_head in E. Qed.

Lemma segment_name_inj config a b :
  0 <= a < 2 ^ 63 → 0 <= b < 2 ^ 63 → segment_name config a = segment_name config b → a = b.
Proof.
  unfold segment_name. intros Ha Hb E. apply app_inv_head, app_inv_tail in E.
  apply (f_equal decimal_value) in E.
  destruct (setw20_digits a Ha) as (_ & _ & Va). destruct (setw20_digits b Hb) as (_ & _ & Vb). congruence.
Qed.

Lemma segment_path_inj l a b :
  0 <= a < 2 ^ 63 → 0 <= b < 2 ^ 63 → segment_path l a = segment_path l b → a = b.
Proof. unfold segment_path. intros Ha Hb E. by eapply segment_name_inj, path_join_inj. Qed.

Lemma segment_path_not_index l s : segment_path l s ≠ index_path l.
Proof.
  unfold segment_path, index_path. intros E. apply path_join_inj, (f_equal last) in E.
  unfold segment_name in E. rewrite !last_app in E. done.
Qed.

(** The files of the log's directory whose name parses as a segment of this
    partition are named the way it names segments. *)
Definition names_ok (l : PartitionLogShard) (fs : gmap cstring bytes) : Prop :=
  ∀ name, no_slash name → is_Some (fs !! path_join (root_ l) name) →
    segment_base_offset_from_name (config_ l) name = Ok None ∨
    ∃ s, 0 <= s < 2 ^ 63 ∧ name = segment_name (config_ l) s.

Lemma names_ok_segment l fs s c :
  names_ok l fs → 0 <= s < 2 ^ 63 → names_ok l (<[segment_path l s := c]> fs).
Proof.
  intros Hn Hs name Hname Hin. destruct (decide (name = segment_name (config_ l) s)) as [->|Hne]; [eauto|].
  apply Hn; [done|]. rewrite lookup_insert_ne in Hin; [done|]. intros E. by apply path_join_inj in E.
Qed.

Lemma names_ok_index l fs c : names_ok l fs → names_ok l (<[index_path l := c]> fs).
Proof.
  intros Hn name Hname Hin. destruct (decide (index_path l = path_join (root_ l) name)) as [E|Hne].
  - left. apply path_join_inj in E as <-. rewrite !app_assoc. apply index_name_not_segment.
  - apply Hn; [done|]. by rewrite lookup_insert_ne in Hin.
Qed.

(** ** The file contents under writes *)

Lemma write_at_end buf content : write_at (length content) buf content = content ++ buf.
Proof.
  unfold write_at. rewrite take_ge, Nat.sub_diag, drop_ge by lia. simpl. by rewrite app_nil_r.
Qed.

Section rep.
Context {St : Storage} {Laws : StorageLaws}.

Definition store_state (l : PartitionLogShard) (L : list bytes) : Prop :=
  let c := cursor_after alignment (segment_bytes_ l) cursor0 L in
  log_ok alignment (segment_bytes_ l) L ∧
  log_frame_alignment_ l = alignment ∧ index_entry_size_ l = alignment ∧
  index_entries_ l = entries alignment (segment_bytes_ l) L ∧
  segments_ l = segments_of alignment (segment_bytes_ l) L ∧
  active_segment_base_offset_ l = cu_seg c ∧ write_position_ l = cu_pos c ∧
  file_ l = Some (segment_path l (cu_seg c)) ∧ index_file_ l = Some (index_path l) ∧
  index_position_ l = alignment * zlen L ∧ index_write_gate_closed_ l = false ∧
  Forall (λ e, e.2 = segment_path l e.1 ∧ seg_exists alignment (segment_bytes_ l) L e.1)
    (segment_cache_ l).

Definition store_disk (l : PartitionLogShard) (d : Disk) (L : list bytes) : Prop :=
  files d !! index_path l = Some (index_image alignment (segment_bytes_ l) L) ∧
  (∀ s, seg_exists alignment (segment_bytes_ l) L s →
    files d !! segment_path l s = Some (image alignment (segment_bytes_ l) L s)) ∧
  (∀ s, 0 <= s < 2 ^ 63 → ¬ seg_exists alignment (segment_bytes_ l) L s →
    files d !! segment_path l s = None) ∧
  names_ok l (files d).

Definition store (l : PartitionLogShard) (d : Disk) (L : list bytes) : Prop :=
  store_state l L ∧ store_disk l d L ∧ 0 < segment_bytes_ l.

(** The part of the state writing a record set leaves alone. *)
Definition same_config (l l' : PartitionLogShard) : Prop :=
  config_ l' = config_ l ∧ root_ l' = root_ l ∧ segment_bytes_ l' = segment_bytes_ l ∧
  offsets_ l' = offsets_ l ∧ queue_depth_ l' = queue_depth_ l ∧ degraded_ l' = degraded_ l ∧
  replica_lag_ l' = replica_lag_ l.

Lemma round_up_entry : round_up kIndexEntryPayloadSize alignment = alignment.
Proof.
  pose proof alignment_range. unfold kIndexEntryPayloadSize.
  destruct (round_up_spec 48 alignment) as ([H1 H2] & [k Hk] & _); [lia..|].
  rewrite Hk in *. assert (k = 1) by nia. lia.
Qed.

(** Opening a file for writing creates it when needed, and the alignment
    fields keep their values. *)
Lemma open_active_segment_ok l d :
  log_frame_alignment_ l = alignment → index_entry_size_ l = alignment →
  ∃ l' d', open_active_segment (l, d) = (Ok tt, (l', d')) ∧
    files d' = <[segment_path l (active_segment_base_offset_ l) :=
                  default [] (files d !! segment_path l (active_segment_base_offset_ l))]> (files d) ∧
    ∃ m, l' = set_file_ (Some (segment_path l (active_segment_base_offset_ l)))
                (set_memory_dma_alignment_ m l).
Proof.
  intros Ha Hi. set (p := segment_path l (active_segment_base_offset_ l)).
  destruct (open_create p d) as (d' & Ho & Hf). do 2 eexists. split; [|split; [exact Hf|]].
  - unfold open_active_segment. rewrite (io_bind_ok _ _ _ p (l, d)) by done.
    rewrite (io_bind_ok _ _ _ tt (l, d')) by (unfold on_disk; simpl; by rewrite Ho).
    unfold mbind, IO_bind, update_dma_alignment, upd. simpl. rewrite write_dma_alignment.
    rewrite (Z.max_r 1 alignment) by (pose proof alignment_range; lia). rewrite round_up_entry.
    reflexivity.
  - eexists. unfold set_file_, set_memory_dma_alignment_, set_index_entry_size_, set_log_frame_alignment_.
    simpl. by rewrite Ha, Hi.
Qed.

Abbreviation cursor l L := (cursor_after alignment (segment_bytes_ l) cursor0 L).
Abbreviation seg_next l L b := (seg_for alignment (segment_bytes_ l) (cursor l L) b).
Abbreviation pos_next l L b := (pos_for alignment (segment_bytes_ l) (cursor l L) b).
Abbreviation in_store l L := (seg_exists alignment (segment_bytes_ l) L).

(** The state between [ensure_segment_for_write] and the write itself: the
    segment of the next frame is open, and empty if it is new. *)
Definition ready (l : PartitionLogShard) (d : Disk) (L : list bytes) (b : bytes) : Prop :=
  log_ok alignment (segment_bytes_ l) L ∧ 0 < segment_bytes_ l ∧
  log_frame_alignment_ l = alignment ∧ index_entry_size_ l = alignment ∧
  index_entries_ l = entries alignment (segment_bytes_ l) L ∧
  segments_ l = segments_of alignment (segment_bytes_ l) L ∧
  active_segment_base_offset_ l = seg_next l L b ∧ write_position_ l = pos_next l L b ∧
  file_ l = Some (segment_path l (seg_next l L b)) ∧ index_file_ l = Some (index_path l) ∧
  index_position_ l = alignment * zlen L ∧ index_write_gate_closed_ l = false ∧
  Forall (λ e, e.2 = segment_path l e.1 ∧ in_store l L e.1) (segment_cache_ l) ∧
  files d !! index_path l = Some (index_image alignment (segment_bytes_ l) L) ∧
  (∀ s, in_store l L s ∨ s = seg_next l L b →
    files d !! segment_path l s = Some (image alignment (segment_bytes_ l) L s)) ∧
  (∀ s, 0 <= s < 2 ^ 63 → ¬ (in_store l L s ∨ s = seg_next l L b) → files d !! segment_path l s = None) ∧
  names_ok l (files d).

Lemma seg_exists_range A S L s :
  512 <= A <= 2 ^ 16 → log_ok A S L → seg_exists A S L s →
  0 <= s <= cu_seg (cursor_after A S cursor0 L) ∧ s < 2 ^ 63.
Proof.
  intros HA (HL & _ & Hn) Hs.
  destruct (cursor_after_wf A S HA cursor0 L cursor0_wf HL) as ((Hc & _) & _).
  destruct Hs as [->|(eb & Hin & <-)]; [lia|].
  destruct (placed_bounds A S HA cursor0 L eb cursor0_wf HL Hin) as (_ & ? & _). simpl in *. lia.
Qed.

Lemma seg_exists_active A S L :
  512 <= A <= 2 ^ 16 → Forall rs_ok L → zlen L < 2 ^ 31 →
  seg_exists A S L (cu_seg (cursor_after A S cursor0 L)).
Proof.
  intros HA HL Hn. destruct (segments_of_ok A S HA L HL Hn) as (_ & Hmem & _ & Hlast & Hnil).
  destruct (last (segments_of A S L)) as [info|] eqn:E.
  - right. apply Hmem. rewrite <- (Hlast info eq_refl). apply list_elem_of_fmap_2.
    apply last_Some in E as [k ->]. apply elem_of_app. right. left.
  - apply last_None in E. rewrite (Hnil E). by left.
Qed.

Lemma rolls_code l L b :
  Forall rs_ok L → zlen L < 2 ^ 31 → rs_ok b →
  write_position_ l = cu_pos (cursor l L) →
  (write_position_ l =? 0) || (u64 (write_position_ l + fsz alignment b) <=? segment_bytes_ l)
  = negb (rolls alignment (segment_bytes_ l) (cursor l L) b).
Proof.
  intros HL Hn [_ Hb] ->. unfold rolls. rewrite negb_involutive. do 2 f_equal.
  pose proof alignment_range as HA.
  pose proof (cursor_pos_bound alignment (segment_bytes_ l) HA cursor0 L HL ltac:(done)) as Hp.
  pose proof (fsz_range alignment HA b Hb). pose proof (zlen_nonneg b).
  apply wrap_u_id. unfold in_u. simpl in Hp. lia.
Qed.

(** The files after a fresh, empty segment [s0] has been created. *)
Lemma fresh_segment_files l fs fs' L s0 :
  log_ok alignment (segment_bytes_ l) L → 0 <= s0 < 2 ^ 63 → ¬ in_store l L s0 →
  fs !! index_path l = Some (index_image alignment (segment_bytes_ l) L) →
  (∀ s, in_store l L s → fs !! segment_path l s = Some (image alignment (segment_bytes_ l) L s)) →
  (∀ s, 0 <= s < 2 ^ 63 → ¬ in_store l L s → fs !! segment_path l s = None) → names_ok l fs →
  fs' = <[segment_path l s0 := []]> fs →
  fs' !! index_path l = Some (index_image alignment (segment_bytes_ l) L) ∧
  (∀ s, in_store l L s ∨ s = s0 → fs' !! segment_path l s = Some (image alignment (segment_bytes_ l) L s)) ∧
  (∀ s, 0 <= s < 2 ^ 63 → ¬ (in_store l L s ∨ s = s0) → fs' !! segment_path l s = None) ∧
  names_ok l fs'.
Proof.
  intros Hok Hrange Hfresh Hdi Hds Hdn Hnm ->. split_and!.
  - rewrite lookup_insert_ne; [done|apply segment_path_not_index].
  - intros s Hs. destruct (decide (s = s0)) as [->|Hne].
    + rewrite lookup_insert_eq. f_equal. symmetry. apply image_empty. intros eb Hin Heq.
      apply Hfresh. right. by exists eb.
    + destruct Hs as [Hs| ->]; [|done]. rewrite lookup_insert_ne; [by apply Hds|].
      intros E. apply segment_path_inj in E; [congruence|done|].
      pose proof (seg_exists_range alignment (segment_bytes_ l) L s alignment_range Hok Hs). lia.
  - intros s Hs Hns. rewrite lookup_insert_ne; [apply Hdn; [done|tauto]|].
    intros E. apply segment_path_inj in E; [|done|done]. subst s. tauto.
  - by apply names_ok_segment.
Qed.

(** A log whose next frame fits into the active segment is ready as it is. *)
Lemma store_ready l d L b :
  store l d L → rolls alignment (segment_bytes_ l) (cursor l L) b = false → ready l d L b.
Proof.
  intros (((HL & Hn & Hnext) & Ha & Hi & Hent & Hseg & Hact & Hwp & Hfile & Hidx & Hipos & Hgate & Hcache) &
    (Hdi & Hds & Hdn & Hnm) & Hsb) Hr.
  pose proof (seg_exists_active alignment (segment_bytes_ l) L alignment_range HL Hn) as Hex.
  unfold ready, seg_for, pos_for. rewrite Hr. split_and!; try done.
  - intros s [Hs| ->]; by apply Hds.
  - intros s Hs Hns. apply Hdn; tauto.
Qed.

Lemma ensure_segment_ok l d L b :
  store l d L → rs_ok b →
  ∃ l' d', ensure_segment_for_write (cu_next (cursor l L)) (fsz alignment b) (l, d)
    = (Ok tt, (l', d')) ∧ same_config l l' ∧ ready l' d' L b.
Proof.
  intros Hst Hb.
  pose proof Hst as (((HL & Hn & Hnext) & Ha & Hi & Hent & Hseg & Hact & Hwp & Hfile & Hidx & Hipos & Hgate & Hcache) &
    (Hdi & Hds & Hdn & Hnm) & Hsb). pose proof alignment_range as HA.
  assert (log_ok alignment (segment_bytes_ l) L) as Hok by done.
  unfold ensure_segment_for_write. rewrite (io_bind_ok _ _ _ l (l, d)) by done. rewrite Hfile.
  rewrite (rolls_code l L b) by done.
  destruct (rolls alignment (segment_bytes_ l) (cursor l L) b) eqn:Hr; simpl negb; cbv iota.
  2:{ exists l, d. split; [done|]. split; [done|]. by apply store_ready. }
  destruct (cursor_after_wf alignment (segment_bytes_ l) HA cursor0 L cursor0_wf HL) as (Hcw & _).
  destruct (next_cursor_wf alignment (segment_bytes_ l) HA _ b Hcw Hb) as (_ & _ & _ & _ & Hroll).
  specialize (Hroll Hr).
  set (l1 := set_write_position_ 0 (set_active_segment_base_offset_ (cu_next (cursor l L))
    (set_segment_cache_ (cache_push (active_segment_base_offset_ l, segment_path l (cu_seg (cursor l L)))
       (segment_cache_ l)) (set_file_ None l)))).
  destruct (open_active_segment_ok l1 d) as (l' & d' & Ho & Hf & m & Hl'); [done|done|].
  change (segment_path l1 (active_segment_base_offset_ l1))
    with (segment_path l (cu_next (cursor l L))) in Hf.
  assert (¬ in_store l L (cu_next (cursor l L))) as Hfresh.
  { intros Hin. pose proof (seg_exists_range alignment (segment_bytes_ l) L _ HA Hok Hin). lia. }
  assert (0 <= cu_next (cursor l L) < 2 ^ 63) as Hrange by (destruct Hcw as [? _]; lia).
  rewrite (Hdn _ Hrange Hfresh) in Hf. simpl in Hf.
  destruct (fresh_segment_files l (files d) (files d') L _ Hok Hrange Hfresh Hdi Hds Hdn Hnm Hf)
    as (Hdi' & Hds' & Hdn' & Hnm').
  exists l', d'. split; [exact Ho|]. subst l'. split; [done|].
  unfold ready. change (segment_bytes_ (set_file_ _ _)) with (segment_bytes_ l). unfold seg_for, pos_for. rewrite Hr.
  split_and!; [exact Hok|exact Hsb|exact Ha|exact Hi|exact Hent|exact Hseg|reflexivity|reflexivity
    |reflexivity|exact Hidx|exact Hipos|exact Hgate| |exact Hdi'|exact Hds'|exact Hdn'|exact Hnm'].
  simpl. unfold cache_push. apply Forall_cons. split; [|by apply Forall_take].
  rewrite Hact. split; [done|]. by apply seg_exists_active.
Qed.

Lemma seg_exists_snoc A S L b s :
  seg_exists A S (L ++ [b]) s ↔ seg_exists A S L s ∨ s = seg_for A S (cursor_after A S cursor0 L) b.
Proof. unfold seg_exists. rewrite in_use_snoc. tauto. Qed.

(** The segment of the next frame ends where the frame goes. *)
Lemma image_next l L b :
  log_ok alignment (segment_bytes_ l) L → rs_ok b →
  zlen (image alignment (segment_bytes_ l) L (seg_next l L b)) = pos_next l L b.
Proof.
  intros (HL & Hn & _) Hb. pose proof alignment_range as HA. unfold seg_for, pos_for.
  destruct (cursor_after_wf alignment (segment_bytes_ l) HA cursor0 L cursor0_wf HL) as (Hcw & _).
  destruct (next_cursor_wf alignment (segment_bytes_ l) HA _ b Hcw Hb) as (_ & _ & _ & _ & Hroll).
  destruct (rolls _ _ _ b) eqn:Hr; [|symmetry; by apply cursor_pos0].
  rewrite image_empty; [done|]. intros eb Hin.
  destruct (placed_bounds alignment (segment_bytes_ l) HA cursor0 L eb cursor0_wf HL Hin) as (_ & ? & _).
  specialize (Hroll eq_refl). lia.
Qed.

Lemma zlen_index_image A S L : 48 <= A → zlen (index_image A S L) = A * zlen L.
Proof.
  intros HA. unfold index_image, entries.
  assert (∀ es, zlen (concat (map (encode_index_entry A) es)) = A * zlen es) as Hes.
  { induction es as [|e es IH]; [unfold zlen; simpl; lia|].
    cbn [map concat]. rewrite zlen_app, zlen_encode_index_entry, IH, zlen_cons by done. lia. }
  rewrite Hes. unfold zlen. by rewrite length_map, length_placed.
Qed.

Lemma index_image_snoc A S L b :
  index_image A S (L ++ [b])
  = index_image A S L ++ encode_index_entry A (entry_for A S (cursor_after A S cursor0 L) b).
Proof. unfold index_image. rewrite entries_snoc, map_app, concat_app. simpl. by rewrite app_nil_r. Qed.

Lemma write_at_zlen pos buf content :
  zlen content = pos → write_at (Z.to_nat pos) buf content = content ++ buf.
Proof. intros <-. unfold zlen. rewrite Nat2Z.id. apply write_at_end. Qed.

(** The state after the frame and its index entry are written. *)
Definition written (l : PartitionLogShard) (L : list bytes) (b : bytes) : PartitionLogShard :=
  let entry := entry_for alignment (segment_bytes_ l) (cursor l L) b in
  note_index_entry entry (set_index_position_ (u64 (index_position_ l + index_entry_size_ l))
    (set_disk_writes_ (u64 (disk_writes_ l + 1))
      (set_write_position_ (u64 (write_position_ l + fsz alignment b)) l))).

(** Its fields. *)
Lemma written_fields l L b :
  let l' := written l L b in
  let entry := entry_for alignment (segment_bytes_ l) (cursor l L) b in
  config_ l' = config_ l ∧ root_ l' = root_ l ∧ segment_bytes_ l' = segment_bytes_ l ∧
  log_frame_alignment_ l' = log_frame_alignment_ l ∧ index_entry_size_ l' = index_entry_size_ l ∧
  index_entries_ l' = index_entries_ l ++ [entry] ∧
  segments_ l' = note_segment (log_frame_alignment_ l) (segments_ l) entry ∧
  active_segment_base_offset_ l' = active_segment_base_offset_ l ∧
  write_position_ l' = u64 (write_position_ l + fsz alignment b) ∧
  file_ l' = file_ l ∧ index_file_ l' = index_file_ l ∧
  index_position_ l' = u64 (index_position_ l + index_entry_size_ l) ∧
  index_write_gate_closed_ l' = index_write_gate_closed_ l ∧ segment_cache_ l' = segment_cache_ l.
Proof. split_and!; reflexivity. Qed.

Lemma log_ok_snoc A S L b :
  log_ok A S L → rs_ok b → zlen L < 2 ^ 31 - 1 → cu_next (cursor_after A S cursor0 L) + cnt b < 2 ^ 63 →
  log_ok A S (L ++ [b]).
Proof.
  intros (HL & _ & _) Hb Hn Hnext. split; [apply Forall_app; by split; [|constructor]|].
  split; [rewrite zlen_app; unfold zlen in *; simpl; lia|]. by rewrite cursor_after_snoc.
Qed.

Lemma written_ok l d d' L b :
  ready l d L b → rs_ok b → zlen L < 2 ^ 31 - 1 → cu_next (cursor l L) + cnt b < 2 ^ 63 →
  files d' = <[index_path l := index_image alignment (segment_bytes_ l) L ++
      encode_index_entry alignment (entry_for alignment (segment_bytes_ l) (cursor l L) b)]>
    (<[segment_path l (seg_next l L b) := image alignment (segment_bytes_ l) L (seg_next l L b) ++
      frame_of alignment (entry_for alignment (segment_bytes_ l) (cursor l L) b, b)]> (files d)) →
  store (written l L b) d' (L ++ [b]).
Proof.
  intros (Hok & Hsb & Ha & Hi & Hent & Hseg & Hact & Hwp & Hfile & Hidx & Hipos & Hgate & Hcache & Hdi & Hds & Hdn & Hnm)
    Hb Hn Hnext Hf. pose proof alignment_range as HA. pose proof Hok as (HL & _ & _).
  pose proof (cursor_pos_bound alignment (segment_bytes_ l) HA cursor0 L HL ltac:(done)) as Hpos. simpl in Hpos.
  pose proof (fsz_range alignment HA b (proj2 Hb)) as Hfs. pose proof (zlen_nonneg b). pose proof (zlen_nonneg L).
  assert (0 <= pos_next l L b <= 2 ^ 32 * zlen L) as Hpn by (unfold pos_for; destruct (rolls _ _ _ b); lia).
  pose proof (log_ok_snoc _ _ L b Hok Hb Hn Hnext) as Hok'.
  assert (∀ s, seg_exists alignment (segment_bytes_ l) (L ++ [b]) s → 0 <= s < 2 ^ 63) as Hrange.
  { intros s Hs. pose proof (seg_exists_range _ _ _ s HA Hok' Hs). lia. }
  pose proof (written_fields l L b) as
    (W1 & W2 & W3 & W4 & W5 & W6 & W7 & W8 & W9 & W10 & W11 & W12 & W13 & W14).
  generalize dependent (written l L b). intros l' W1 W2 W3 W4 W5 W6 W7 W8 W9 W10 W11 W12 W13 W14.
  assert (∀ s, segment_path l' s = segment_path l s) as Wp by (intros s; unfold segment_path; by rewrite W1, W2).
  assert (index_path l' = index_path l) as Wi by (unfold index_path; by rewrite W1, W2).
  unfold store, store_state, store_disk.
  rewrite W3, W4, W5, W6, W7, W8, W9, W10, W11, W12, W13, W14, Wi, cursor_after_snoc.
  split; [split_and!|split; [split_and!|exact Hsb]].
  - exact Hok'.
  - exact Ha.
  - exact Hi.
  - by rewrite entries_snoc, Hent.
  - by rewrite segments_of_snoc, Hseg, Ha.
  - exact Hact.
  - rewrite Hwp. cbn [next_cursor cu_pos]. apply wrap_u_id. unfold in_u. lia.
  - rewrite Wp. exact Hfile.
  - exact Hidx.
  - rewrite Hipos, Hi, zlen_app. change (zlen [b]) with 1.
    rewrite wrap_u_id by (unfold in_u; nia). lia.
  - exact Hgate.
  - eapply Forall_impl; [exact Hcache|]. intros [s p] [Hp Hs]. rewrite Wp. split; [exact Hp|].
    apply seg_exists_snoc. by left.
  - by rewrite Hf, lookup_insert_eq, index_image_snoc.
  - intros s Hs. rewrite Wp. pose proof (Hrange s Hs) as Hsr. apply seg_exists_snoc in Hs.
    rewrite Hf, lookup_insert_ne by (apply not_eq_sym, segment_path_not_index).
    rewrite image_snoc. destruct (Z.eqb_spec (seg_next l L b) s) as [<-|Hne].
    + by rewrite lookup_insert_eq.
    + rewrite app_nil_r, lookup_insert_ne; [by apply Hds|]. intros E.
      apply segment_path_inj in E; [done|apply Hrange, seg_exists_snoc; by right|done].
  - intros s Hs Hns. rewrite Wp. rewrite seg_exists_snoc in Hns.
    rewrite Hf, lookup_insert_ne by (apply not_eq_sym, segment_path_not_index).
    rewrite lookup_insert_ne; [by apply Hdn|]. intros E.
    apply segment_path_inj in E; [subst s; tauto|apply Hrange, seg_exists_snoc; by right|done].
  - rewrite Hf. unfold names_ok. rewrite W1, W2. apply names_ok_index, names_ok_segment; [exact Hnm|].
    apply Hrange, seg_exists_snoc. by right.
Qed.

Lemma on_disk_ok m l d d' : m d = Ok d' → on_disk m (l, d) = (Ok tt, (l, d')).
Proof. intros E. unfold on_disk. simpl. by rewrite E. Qed.

(** [schedule_index_entry_write] appends the entry to the index. *)
Lemma schedule_index_ok l d c e :
  index_file_ l = Some (index_path l) → index_write_gate_closed_ l = false →
  files d !! index_path l = Some c → 0 <= index_position_ l → index_position_ l = zlen c →
  ∃ d', schedule_index_entry_write (ie_base_offset e) (ie_last_offset e) (ie_record_bytes e)
      (ie_segment_base e) (ie_segment_position e) (l, d)
    = (Ok tt, (note_index_entry e (set_index_position_ (u64 (index_position_ l + index_entry_size_ l)) l), d')) ∧
    files d' = <[index_path l := c ++ encode_index_entry (index_entry_size_ l) e]> (files d).
Proof.
  intros Hidx Hgate Hc Hpos Hlen. destruct e as [base last seg pos rb].
  destruct (dma_write_ok (index_path l) (index_position_ l)
    (encode_index_entry (index_entry_size_ l) (mkIndexEntry base last seg pos rb)) d c Hc Hpos) as (d' & Hw & Hf).
  exists d'. split; [|by rewrite Hf, write_at_zlen].
  unfold schedule_index_entry_write. rewrite (io_bind_ok _ _ _ l (l, d)) by done.
  rewrite Hidx. cbn [ie_base_offset ie_last_offset ie_segment_base ie_segment_position ie_record_bytes].
  set (e := mkIndexEntry base last seg pos rb) in *.
  set (l1 := set_index_position_ (u64 (index_position_ l + index_entry_size_ l)) l).
  rewrite (io_bind_ok _ _ _ tt (l1, d)) by done. rewrite (io_bind_ok _ _ _ tt (note_index_entry e l1, d)) by done.
  rewrite Hgate. unfold catch, write_index_entry_at.
  rewrite (io_bind_ok _ _ _ (note_index_entry e l1) (note_index_entry e l1, d)) by done.
  change (index_file_ (note_index_entry e l1)) with (index_file_ l). rewrite Hidx.
  change (index_entry_size_ (note_index_entry e l1)) with (index_entry_size_ l).
  by rewrite (on_disk_ok _ _ _ _ Hw).
Qed.

(** The record set the log writes for the bytes [b] at the end of [L]. *)
Definition record_set_for (l : PartitionLogShard) (L : list bytes) (b : bytes) : RecordSet :=
  mkRecordSet (cu_next (cursor l L)) (cu_next (cursor l L) + cnt b - 1) b.

(** Writing a record set appends it to the stored log. *)
Lemma write_record_set_ok l d L b :
  store l d L → rs_ok b → zlen L < 2 ^ 31 - 1 → cu_next (cursor l L) + cnt b < 2 ^ 63 →
  ∃ l' d', write_record_set (record_set_for l L b) (l, d) = (Ok tt, (l', d')) ∧
    same_config l l' ∧ store l' d' (L ++ [b]).
Proof.
  intros Hst Hb Hn Hnext. pose proof alignment_range as HA.
  destruct (ensure_segment_ok l d L b Hst Hb) as (l1 & d1 & Hens & Hcfg & Hready).
  assert (log_frame_alignment_ l = alignment) as Hal by (by destruct Hst as ((_ & ? & _) & _)).
  pose proof Hcfg as (Hc1 & Hc2 & Hc3 & _).
  pose proof Hready as (Hok & Hsb & Ha & Hi & Hent & Hseg & Hact & Hwp & Hfile & Hidx & Hipos & Hgate & Hcache & Hdi & Hds & Hdn & Hnm).
  pose proof Hok as (HL & _ & _).
  pose proof (cursor_pos_bound alignment (segment_bytes_ l1) HA cursor0 L HL ltac:(done)) as Hpos. simpl in Hpos.
  assert (0 <= pos_next l1 L b) as Hpn by (unfold pos_for; destruct (rolls _ _ _ b); lia).
  set (e := entry_for alignment (segment_bytes_ l1) (cursor l1 L) b).
  pose proof (Hds (seg_next l1 L b) ltac:(by right)) as Himg.
  destruct (dma_write_ok _ (pos_next l1 L b) (frame_of alignment (e, b)) d1 _ Himg Hpn) as (d2 & Hw & Hf2).
  rewrite write_at_zlen in Hf2 by (by apply image_next).
  set (l2 := set_disk_writes_ (u64 (disk_writes_ l1 + 1))
    (set_write_position_ (u64 (write_position_ l1 + fsz alignment b)) l1)).
  assert (files d2 !! index_path l2 = Some (index_image alignment (segment_bytes_ l1) L)) as Hdi2.
  { rewrite Hf2. change (index_path l2) with (index_path l1).
    rewrite lookup_insert_ne; [exact Hdi|apply segment_path_not_index]. }
  assert (index_position_ l2 = zlen (index_image alignment (segment_bytes_ l1) L)) as Hil.
  { change (index_position_ l2) with (index_position_ l1). rewrite Hipos, zlen_index_image; [done|lia]. }
  destruct (schedule_index_ok l2 d2 _ e Hidx Hgate Hdi2 ltac:(rewrite Hil; apply zlen_nonneg) Hil)
    as (d3 & Hsch & Hf3).
  exists (written l1 L b), d3. split; [|split].
  - unfold write_record_set. rewrite (io_bind_ok _ _ _ alignment (l, d)) by (unfold asks; simpl; by rewrite Hal).
    unfold record_set_for. cbn [rs_bytes rs_base_offset rs_last_offset].
    rewrite (io_bind_ok _ _ _ tt (l1, d1)) by exact Hens.
    rewrite (io_bind_ok _ _ _ (pos_next l1 L b) (l1, d1)) by (unfold asks; simpl; by rewrite Hwp).
    rewrite (io_bind_ok _ _ _ (seg_next l1 L b) (l1, d1)) by (unfold asks; simpl; by rewrite Hact).
    rewrite <- Hwp at 1.
    rewrite (io_bind_ok _ _ _ tt (set_write_position_ (u64 (write_position_ l1 + fsz alignment b)) l1, d1))
      by reflexivity.
    rewrite (io_bind_ok _ _ _ (Some (segment_path l1 (seg_next l1 L b)))
      (set_write_position_ (u64 (write_position_ l1 + fsz alignment b)) l1, d1))
      by (unfold asks; simpl; by rewrite Hfile).
    cbv beta iota.
    rewrite (io_bind_ok _ _ _ tt (set_write_position_ (u64 (write_position_ l1 + fsz alignment b)) l1, d2)).
    2:{ apply on_disk_ok. rewrite <- Hw. unfold frame_of, e. cbn [fst snd ie_base_offset ie_last_offset entry_for].
        by rewrite <- Hc3. }
    rewrite (io_bind_ok _ _ _ tt (l2, d2)) by reflexivity.
    rewrite (wrap_s_id 32 (zlen b)) by (lia || (unfold in_s; pose proof (zlen_nonneg b); destruct Hb; lia)).
    rewrite <- Hc3. exact Hsch.
  - exact Hcfg.
  - apply (written_ok l1 d1); [exact Hready|exact Hb|exact Hn|by rewrite Hc3|].
    rewrite Hf3, Hf2. change (index_path l2) with (index_path l1).
    change (index_entry_size_ l2) with (index_entry_size_ l1). by rewrite Hi.
Qed.

(** [store] does not look at the offsets, the counters and the flags. *)
Lemma store_frame l l' d d' L :
  store l d L → config_ l' = config_ l → root_ l' = root_ l → segment_bytes_ l' = segment_bytes_ l →
  segments_ l' = segments_ l → index_entries_ l' = index_entries_ l →
  log_frame_alignment_ l' = log_frame_alignment_ l → index_entry_size_ l' = index_entry_size_ l →
  active_segment_base_offset_ l' = active_segment_base_offset_ l → write_position_ l' = write_position_ l →
  file_ l' = file_ l → index_file_ l' = index_file_ l → index_position_ l' = index_position_ l →
  index_write_gate_closed_ l' = index_write_gate_closed_ l → segment_cache_ l' = segment_cache_ l →
  files d' = files d → store l' d' L.
Proof.
  unfold store, store_state, store_disk, names_ok, index_path, segment_path.
  intros Hst E1 E2 E3 E4 E5 E6 E7 E8 E9 E10 E11 E12 E13 E14 E15.
  rewrite E1, E2, E3, E4, E5, E6, E7, E8, E9, E10, E11, E12, E13, E14, E15. exact Hst.
Qed.

Lemma maybe_flush_ok l d L :
  store l d L →
  ∃ l' d', maybe_flush (l, d) = (Ok tt, (l', d')) ∧ same_config l l' ∧ store l' d' L.
Proof.
  intros Hst. unfold maybe_flush. rewrite (io_bind_ok _ _ _ l (l, d)) by done.
  pose proof Hst as ((Hok & _ & _ & _ & _ & Hact & _ & Hfile & _) & (_ & Hds & _) & _).
  destruct (pc_durability (config_ l)).
  - exists l, d. split_and!; done.
  - rewrite Hfile. pose proof Hok as (HL & Hn & _).
    pose proof (Hds _ (seg_exists_active alignment (segment_bytes_ l) L alignment_range HL Hn)) as Himg.
    destruct (file_flush_ok _ d _ Himg) as (d' & Hfl & Hf).
    set (l1 := set_flush_scheduled_ false (set_flush_scheduled_ true l)).
    exists (set_disk_fsyncs_ (u64 (disk_fsyncs_ l1 + 1)) l1), d'. split_and!; [|done|].
    + rewrite (io_bind_ok _ _ _ tt (set_flush_scheduled_ true l, d)) by done.
      rewrite (io_bind_ok _ _ _ tt (l1, d)) by done.
      by rewrite (io_bind_ok _ _ _ tt (l1, d')) by (by apply on_disk_ok).
    + apply (store_frame l _ d); done.
Qed.

(** [commit] stores the record set and takes it off the queue. *)
Lemma commit_ok l d L b :
  store l d L → rs_ok b → zlen L < 2 ^ 31 - 1 → cu_next (cursor l L) + cnt b < 2 ^ 63 →
  ∃ l' d', commit (record_set_for l L b) (l, d) = (Ok tt, (l', d')) ∧ store l' d' (L ++ [b]) ∧
    config_ l' = config_ l ∧ root_ l' = root_ l ∧ segment_bytes_ l' = segment_bytes_ l ∧
    offsets_ l' = offsets_ l ∧ queue_depth_ l' = u32 (queue_depth_ l - 1) ∧
    degraded_ l' = degraded_ l ∧ replica_lag_ l' = replica_lag_ l.
Proof.
  intros Hst Hb Hn Hnext.
  destruct (write_record_set_ok l d L b Hst Hb Hn Hnext) as (l1 & d1 & Hw & Hc1 & Hst1).
  destruct (maybe_flush_ok l1 d1 _ Hst1) as (l2 & d2 & Hfl & Hc2 & Hst2).
  exists (set_queue_depth_ (u32 (queue_depth_ l2 - 1)) l2), d2.
  unfold same_config in Hc1, Hc2. destruct Hc1 as (? & ? & ? & ? & Hq1 & ? & ?).
  destruct Hc2 as (? & ? & ? & ? & Hq2 & ? & ?). split_and!.
  - unfold commit, finally. rewrite (io_bind_ok _ _ _ tt (l1, d1)) by exact Hw. by rewrite Hfl.
  - by apply (store_frame l2 _ d2).
  - simpl; congruence.
  - simpl; congruence.
  - simpl; congruence.
  - simpl; congruence.
  - simpl; congruence.
  - simpl; congruence.
  - simpl; congruence.
Qed.

(** ** The state of a log between operations *)

(** The log holds the record sets [L]: they are stored, and the offsets are
    those of [L]. *)
Definition log_holds (l : PartitionLogShard) (d : Disk) (L : list bytes) : Prop :=
  store l d L ∧ earliest (offsets_ l) = 0 ∧ latest (offsets_ l) = cu_next (cursor l L) ∧
  0 <= high_watermark (offsets_ l) <= latest (offsets_ l) ∧ 0 <= queue_depth_ l.

(** Two states of the same partition's log: configuration and file names. *)
Definition same_place (l l' : PartitionLogShard) : Prop :=
  config_ l' = config_ l ∧ root_ l' = root_ l ∧ segment_bytes_ l' = segment_bytes_ l.

(** Record sets the log can still take without a counter wrapping. *)
Definition room_for (l : PartitionLogShard) (L : list bytes) (b : bytes) : Prop :=
  rs_ok b ∧ zlen L < 2 ^ 31 - 1 ∧ latest (offsets_ l) + cnt b < 2 ^ 63 ∧
  pc_queue_limit (config_ l) < 2 ^ 32.

Lemma queue_round_trip q limit : 0 <= q < limit → limit < 2 ^ 32 → u32 (u32 (q + 1) - 1) = q.
Proof.
  intros Hq Hl. rewrite (wrap_u_id 32 (q + 1)) by (unfold in_u; lia).
  rewrite wrap_u_id by (unfold in_u; lia). lia.
Qed.

Lemma checked_i64_ok {σ} z (s : σ) : - 2 ^ 63 <= z < 2 ^ 63 → checked_i64 z s = (Ok z, s).
Proof. intros Hz. unfold checked_i64. by bcase; simpl; try lia. Qed.

(** The refusals of [append], in the order of its tests. *)
Definition append_refusal (l : PartitionLogShard) (b : bytes) (acks : Z) : option ErrorCode :=
  if zlen b >? pc_max_frame_bytes (config_ l) then Some RecordListTooLarge
  else if queue_depth_ l >=? pc_queue_limit (config_ l) then Some RequestTimedOut
  else if (acks <? -1) || (acks >? 1) then Some InvalidRequest
  else None.
End rep.
