(* ===== verification/LogAppend.v ===== *)
(** * Appending to a partition log

    [append] and [append_replica] against the stored log: every refusal
    leaves log and disk alone, an accepted record set is stored at the end of
    the log at the offsets the response gives, and the synchronous operations
    keep the log's invariant [log_holds]. *)

From Stdlib Require Import ZArith Lia.
From stdpp Require Import base tactics numbers option sorting gmap list.
From S2P Require Import Prelude Protocol Config RecordBatch Detail Storage LogFormat PartitionLog.
From S2P Require Import LogLayout LogRep.

Local Open Scope Z_scope.

Section append.
Context {St : Storage} {Laws : StorageLaws}.

(** The common tail of the two appends: the offsets are set, the record set
    is committed, and one slot of the queue is used and given back. *)
Lemma commit_at_end l d L b offs lag :
  log_holds l d L → room_for l L b → queue_depth_ l < pc_queue_limit (config_ l) →
  earliest offs = 0 → latest offs = latest (offsets_ l) + cnt b → 0 <= high_watermark offs <= latest offs →
  ∃ l' d', commit (mkRecordSet (latest (offsets_ l)) (latest (offsets_ l) + cnt b - 1) b)
      (set_replica_lag_ lag (set_offsets_ offs (set_queue_depth_ (u32 (queue_depth_ l + 1)) l)), d)
    = (Ok tt, (l', d')) ∧
    log_holds l' d' (L ++ [b]) ∧ offsets_ l' = offs ∧ same_place l l' ∧
    queue_depth_ l' = queue_depth_ l ∧ degraded_ l' = degraded_ l ∧ replica_lag_ l' = lag.
Proof.
  intros (Hst & He & Hl & Hhw & Hq) (Hb & Hn & Hnext & Hlim) Hql Eo Lo Ho.
  set (l1 := set_replica_lag_ lag (set_offsets_ offs (set_queue_depth_ (u32 (queue_depth_ l + 1)) l))).
  assert (store l1 d L) as Hst1 by (by apply (store_frame l _ d)).
  destruct (commit_ok l1 d L b Hst1 Hb Hn) as (l' & d' & Hc & Hst' & E1 & E2 & E3 & E4 & E5 & E6 & E7).
  { change (segment_bytes_ l1) with (segment_bytes_ l). by rewrite <- Hl. }
  exists l', d'. split_and!.
  - rewrite Hl. exact Hc.
  - split_and!; [exact Hst'| | | | |].
    + rewrite E4. exact Eo.
    + rewrite E4, E3, cursor_after_snoc.
      change (segment_bytes_ l1) with (segment_bytes_ l). simpl. by rewrite <- Hl.
    + rewrite E4. apply Ho.
    + rewrite E4. apply Ho.
    + rewrite E5. apply wrap_u_range. lia.
  - exact E4.
  - exact (conj E1 (conj E2 E3)).
  - rewrite E5. by apply (queue_round_trip _ (pc_queue_limit (config_ l))).
  - exact E6.
  - exact E7.
Qed.

Lemma record_count_ok l L b :
  room_for l L b → record_count b = Ok (cnt b) ∧ 1 <= cnt b ∧ (cnt b =? 0) = false.
Proof.
  intros (Hb & _). pose proof (cnt_pos b Hb). destruct (cnt_ok b (proj2 Hb)) as (Hc & _).
  split_and!; [done|done|]. by apply Z.eqb_neq; lia.
Qed.

Lemma latest_nonneg l d L : log_holds l d L → 0 <= latest (offsets_ l).
Proof. intros (_ & _ & _ & ? & _). lia. Qed.

(** An accepted append. *)
Lemma append_accepted l d L b acks :
  log_holds l d L → room_for l L b → append_refusal l b acks = None →
  let base := latest (offsets_ l) in
  ∃ l' d', append b acks (l, d) = (Ok (mkProducePartitionResult (pc_topic (config_ l)) (pc_partition (config_ l))
      0 base (base + cnt b) 0), (l', d')) ∧
    log_holds l' d' (L ++ [b]) ∧ latest (offsets_ l') = base + cnt b ∧
    high_watermark (offsets_ l')
      = (if (length (pc_isr (config_ l)) <=? 1)%nat then base + cnt b else high_watermark (offsets_ l)) ∧
    same_place l l' ∧ queue_depth_ l' = queue_depth_ l.
Proof.
  intros Hh Hroom Hok base. pose proof Hh as (_ & He & _ & Hhw & Hq).
  destruct (record_count_ok l L b Hroom) as (Hc & Hc1 & Hc0). pose proof (latest_nonneg l d L Hh) as Hl0.
  pose proof Hroom as (_ & _ & Hnext & _).
  unfold append_refusal in Hok. unfold append. rewrite (io_bind_ok _ _ _ l (l, d)) by done. rewrite He.
  destruct (_ >? _); [done|]. destruct (queue_depth_ l >=? _) eqn:Hql; [done|]. destruct (_ || _); [done|].
  rewrite Z.geb_leb in Hql. apply Z.leb_gt in Hql.
  set (hw := if (length (pc_isr (config_ l)) <=? 1)%nat then base + cnt b else high_watermark (offsets_ l)).
  set (l1 := set_queue_depth_ (u32 (queue_depth_ l + 1)) l).
  destruct (commit_at_end l d L b (mkPartitionOffsets 0 (base + cnt b) hw) (replica_lag_ l) Hh Hroom Hql)
    as (l' & d' & Hcommit & Hh' & Ho & Hcfg & Hq' & _);
    [done|done|cbn [high_watermark latest]; unfold hw, base; destruct (_ <=? _)%nat; lia|].
  exists l', d'. split; [|rewrite Ho; split_and!; try done].
  rewrite (io_bind_ok _ _ _ tt (l1, d)) by done.
  rewrite (io_bind_ok _ _ _ (cnt b) (l1, d)) by (unfold lift; by rewrite Hc).
  rewrite (io_bind_ok _ _ _ (base + cnt b) (l1, d)) by (apply checked_i64_ok; unfold base; lia).
  rewrite Hc0. rewrite (io_bind_ok _ _ _ tt (set_latest (base + cnt b) l1, d)) by done.
  rewrite (io_bind_ok _ _ _ tt (set_offsets_ (mkPartitionOffsets (earliest (offsets_ l)) (base + cnt b) hw) l1, d)).
  2:{ unfold hw, when. by destruct (_ <=? _)%nat. }
  rewrite (io_bind_ok _ _ _ tt (l', d')); [by rewrite ?He|]. rewrite <- Hcommit, He. reflexivity.
Qed.

(** C9: [append] refuses, in this order, record sets over the frame limit,
    a full queue and an acks outside -1..1, with the matching error code and
    without touching the log or the disk.  A nonempty record set that is not
    refused and that the log has room for (no offset or counter wraps) is
    stored: on a disk without faults the call succeeds, the response carries
    the old end offset as base and the new one, the log then holds its record
    sets followed by this one (frame and index entry are on disk, a full
    segment having been rolled over), the queue slot is given back, and the
    high watermark follows the end exactly when no other replica is in sync.
    An empty record set is accepted by the code too, and is not covered here:
    recovery stops at it. *)
Theorem append_spec l d L b acks :
  log_holds l d L →
  let response := mkProducePartitionResult (pc_topic (config_ l)) (pc_partition (config_ l)) in
  let base := latest (offsets_ l) in
  match append_refusal l b acks with
  | Some e => append b acks (l, d) = (Ok (response (error_code_value e) 0 0 0), (l, d))
  | None => room_for l L b →
      ∃ l' d', append b acks (l, d) = (Ok (response 0 base (base + cnt b) 0), (l', d')) ∧
        log_holds l' d' (L ++ [b]) ∧ latest (offsets_ l') = base + cnt b ∧
        high_watermark (offsets_ l')
          = (if (length (pc_isr (config_ l)) <=? 1)%nat then base + cnt b else high_watermark (offsets_ l)) ∧
        same_place l l' ∧ queue_depth_ l' = queue_depth_ l
  end.
Proof.
  intros Hh response base. destruct (append_refusal l b acks) as [e|] eqn:Hr; [|intros Hroom; by apply append_accepted].
  pose proof Hh as (_ & He & _). unfold append_refusal in Hr. unfold append.
  rewrite (io_bind_ok _ _ _ l (l, d)) by done. rewrite He.
  repeat match type of Hr with (if ?c then _ else _) = _ => destruct c; [by injection Hr as <-|] end. done.
Qed.

(** The refusals of [append_replica], in the order of its tests. *)
Definition append_replica_refusal (l : PartitionLogShard) (r : ReplicaAppendRequest) : option ErrorCode :=
  if zlen (raq_records r) >? pc_max_frame_bytes (config_ l) then Some RecordListTooLarge
  else if negb (raq_base_offset r =? latest (offsets_ l)) then Some OffsetOutOfRange
  else if queue_depth_ l >=? pc_queue_limit (config_ l) then Some RequestTimedOut
  else None.

(** [append_replica] on every branch. *)
Lemma append_replica_cases l d L r :
  log_holds l d L → room_for l L (raq_records r) → 0 <= raq_leader_high_watermark r →
  let response := mkProducePartitionResult (raq_topic r) (raq_partition r) in
  let base := raq_base_offset r in
  let end_offset := base + cnt (raq_records r) in
  let hw := Z.min end_offset (raq_leader_high_watermark r) in
  match append_replica_refusal l r with
  | Some e => append_replica r (l, d) = (Ok (response (error_code_value e) base 0 0), (l, d))
  | None =>
      base = latest (offsets_ l) ∧
      ∃ l' d', append_replica r (l, d) = (Ok (response 0 base end_offset 0), (l', d')) ∧
        log_holds l' d' (L ++ [raq_records r]) ∧ offsets_ l' = mkPartitionOffsets 0 end_offset hw ∧
        replica_lag_ l' = Z.max 0 (raq_leader_high_watermark r - hw) ∧
        same_place l l' ∧ queue_depth_ l' = queue_depth_ l
  end.
Proof.
  intros Hh Hroom Hlead response base end_offset hw. pose proof Hh as (_ & He & _ & Hhw & Hq).
  destruct (record_count_ok l L _ Hroom) as (Hc & Hc1 & Hc0). pose proof (latest_nonneg l d L Hh) as Hl0.
  pose proof Hroom as (_ & _ & Hnext & _).
  unfold append_replica_refusal, append_replica. rewrite (io_bind_ok _ _ _ l (l, d)) by done. rewrite He.
  destruct (_ >? _); [done|]. destruct (negb _) eqn:Hbase; [done|].
  apply negb_false_iff, Z.eqb_eq in Hbase.
  destruct (queue_depth_ l >=? _) eqn:Hql; [done|]. rewrite Z.geb_leb in Hql. apply Z.leb_gt in Hql.
  split; [done|]. set (lag := Z.max 0 (raq_leader_high_watermark r - hw)).
  set (l1 := set_queue_depth_ (u32 (queue_depth_ l + 1)) l).
  destruct (commit_at_end l d L (raq_records r) (mkPartitionOffsets 0 end_offset hw) lag Hh Hroom Hql)
    as (l' & d' & Hcommit & Hh' & Ho & Hcfg & Hq' & _ & Hlag);
    [done|cbn [latest]; unfold end_offset, base; lia
    |cbn [high_watermark latest]; unfold hw, end_offset, base; lia|].
  exists l', d'. split; [|split_and!; done].
  rewrite (io_bind_ok _ _ _ tt (l1, d)) by done.
  rewrite (io_bind_ok _ _ _ (cnt (raq_records r)) (l1, d)) by (unfold lift; by rewrite Hc).
  rewrite (io_bind_ok _ _ _ end_offset (l1, d)) by (apply checked_i64_ok; unfold end_offset, base; lia).
  rewrite Hc0. rewrite (io_bind_ok _ _ _ tt (set_latest end_offset l1, d)) by done.
  rewrite (io_bind_ok _ _ _ tt (set_offsets_ (mkPartitionOffsets (earliest (offsets_ l)) end_offset hw) l1, d))
    by done.
  rewrite (io_bind_ok _ _ _ tt (set_replica_lag_ lag
    (set_offsets_ (mkPartitionOffsets (earliest (offsets_ l)) end_offset hw) l1), d)) by done.
  rewrite (io_bind_ok _ _ _ tt (l', d')); [by rewrite ?He|].
  rewrite <- Hcommit, He. unfold end_offset, base in *. rewrite <- Hbase. reflexivity.
Qed.

(** C23: [append_replica] takes a leader's record set only at the follower's
    own end offset (so a follower never has a gap or an overlap), refusing
    oversized sets, other base offsets and a full queue without touching the
    log.  An accepted set is stored at the end of the log and acknowledged
    with the new end offset; the follower's high watermark becomes the
    leader's, capped by what the follower has, and the lag is what is
    missing. *)
Theorem append_replica_spec l d L r :
  log_holds l d L → room_for l L (raq_records r) → 0 <= raq_leader_high_watermark r →
  let response := mkProducePartitionResult (raq_topic r) (raq_partition r) in
  let base := raq_base_offset r in
  let end_offset := base + cnt (raq_records r) in
  let hw := Z.min end_offset (raq_leader_high_watermark r) in
  match append_replica_refusal l r with
  | Some e => append_replica r (l, d) = (Ok (response (error_code_value e) base 0 0), (l, d))
  | None =>
      base = latest (offsets_ l) ∧
      ∃ l' d', append_replica r (l, d) = (Ok (response 0 base end_offset 0), (l', d')) ∧
        log_holds l' d' (L ++ [raq_records r]) ∧ offsets_ l' = mkPartitionOffsets 0 end_offset hw ∧
        replica_lag_ l' = Z.max 0 (raq_leader_high_watermark r - hw) ∧
        same_place l l' ∧ queue_depth_ l' = queue_depth_ l
  end.
Proof. apply append_replica_cases. Qed.

(** ** Synchronous operations *)

(** The synchronous operations. *)
Lemma log_updates_hold l d L offset config :
  log_holds l d L →
  let r := mark_replicated_through offset l in
  let g := mark_degraded l in
  (log_holds r d L ∧
   high_watermark (offsets_ r)
     = (if offset <=? high_watermark (offsets_ l) then high_watermark (offsets_ l)
        else if latest (offsets_ l) <=? offset then latest (offsets_ l) else offset) ∧
   degraded_ r = false ∧ replica_lag_ r = latest (offsets_ l) - high_watermark (offsets_ r)) ∧
  (log_holds g d L ∧ degraded_ g = true ∧ offsets_ g = offsets_ l ∧
   replica_lag_ g = latest (offsets_ l) - high_watermark (offsets_ l)) ∧
  (pc_topic config = pc_topic (config_ l) → pc_partition config = pc_partition (config_ l) →
   log_holds (update_config config l) d L).
Proof.
  intros (Hst & He & Hl & Hhw & Hq) r g.
  assert (∀ hw, hw = Z.min (latest (offsets_ l)) (Z.max (high_watermark (offsets_ l)) offset) →
    hw = (if offset <=? high_watermark (offsets_ l) then high_watermark (offsets_ l)
        else if latest (offsets_ l) <=? offset then latest (offsets_ l) else offset)) as Hcase
    by (intros hw ->; bcase; lia).
  split; [|split].
  - split_and!; [|by apply Hcase|done|cbn; lia]. unfold log_holds.
    split; [by apply (store_frame l _ d)|]. cbn. split_and!; [exact He|exact Hl|lia|lia|exact Hq].
  - split_and!; [|done|done|cbn; lia]. unfold log_holds.
    split; [by apply (store_frame l _ d)|]. split_and!; [exact He|exact Hl|apply Hhw|apply Hhw|exact Hq].
  - intros Ht Hp. split; [|split_and!; [exact He|exact Hl|apply Hhw|apply Hhw|exact Hq]].
    assert (∀ s, segment_path (update_config config l) s = segment_path l s) as Hs.
    { intros s. unfold segment_path, segment_name, segment_prefix. simpl. by rewrite Ht, Hp. }
    assert (index_path (update_config config l) = index_path l) as Hi.
    { unfold index_path. simpl. by rewrite Ht, Hp. }
    destruct Hst as ((H1 & H2 & H3 & H4 & H5 & H6 & H7 & H8 & H9 & H10 & H11 & H12) & (H13 & H14 & H15 & H17) & H16).
    split; [|split; [|exact H16]].
    + unfold store_state. rewrite Hi. split_and!; try assumption; [by rewrite Hs|].
      eapply Forall_impl; [exact H12|]. intros e. by rewrite Hs.
    + unfold store_disk. rewrite Hi. split_and!; [exact H13| | |].
      * intros s. rewrite Hs. apply H14.
      * intros s. rewrite Hs. apply H15.
      * unfold names_ok, segment_base_offset_from_name, segment_name, segment_prefix in *. simpl. rewrite Ht, Hp.
        exact H17.
Qed.

(** [mark_replicated_through], [mark_degraded] and [update_config] keep
    the log and its invariant.  The first moves the high watermark up to the
    replicated offset, never down and never past the end, clears the
    degraded flag and sets the lag to what is not replicated; the second
    leaves the watermark alone.  A reload may change every setting of the
    partition but its topic and number, from which the file names come. *)
Theorem log_updates_ok l d L offset config :
  log_holds l d L →
  let r := mark_replicated_through offset l in
  let g := mark_degraded l in
  (log_holds r d L ∧
   high_watermark (offsets_ r)
     = (if offset <=? high_watermark (offsets_ l) then high_watermark (offsets_ l)
        else if latest (offsets_ l) <=? offset then latest (offsets_ l) else offset) ∧
   degraded_ r = false ∧ replica_lag_ r = latest (offsets_ l) - high_watermark (offsets_ r)) ∧
  (log_holds g d L ∧ degraded_ g = true ∧ offsets_ g = offsets_ l ∧
   replica_lag_ g = latest (offsets_ l) - high_watermark (offsets_ l)) ∧
  (pc_topic config = pc_topic (config_ l) → pc_partition config = pc_partition (config_ l) →
   log_holds (update_config config l) d L).
Proof. apply log_updates_hold. Qed.
End append.
