(* ===== verification/LogRead.v ===== *)
(** * Reading a partition log

    [read_records_from_index] reads whole runs of adjacent frames with one
    DMA read each; here it is shown to return what reading the record sets
    one by one would, and [fetch] and [fetch_for_replica] are specified by
    the record sets they return. *)

From Stdlib Require Import ZArith Lia.
From stdpp Require Import base tactics numbers option sorting gmap list.
From S2P Require Import Prelude Protocol Config RecordBatch Detail Storage LogFormat PartitionLog.
From S2P Require Import LogLayout LogRep LogAppend.

Local Open Scope Z_scope.

(** ** The reference: one record set at a time *)

(** Record sets from [P] until one ends at or past [visible], or would take
    the [have] bytes already read over [limit]; the first set is returned
    whatever its size. *)
Fixpoint read_ref (visible limit have : Z) (P : list (IndexEntry * bytes)) : list bytes :=
  match P with
  | [] => []
  | (e, b) :: P' =>
      if ie_last_offset e <? visible then
        if (have =? 0) || (have + zlen b <=? limit)
        then b :: read_ref visible limit (have + zlen b) P'
        else []
      else []
  end.

(** Offsets used by a sequence of record sets. *)
Fixpoint log_end (L : list bytes) : Z :=
  match L with [] => 0 | b :: L' => cnt b + log_end L' end.

(** What a read from [offset] returns of the log [L]: the record sets [M],
    from the one holding [offset], as many as end at or below [visible] and
    fit in [limit] bytes, the first one whatever its size; they stop because
    the log ends, or the next set is not wholly visible or does not fit. *)
Definition selects (L M : list bytes) (offset visible limit : Z) : Prop :=
  ∃ L1 L2, L = L1 ++ M ++ L2 ∧ log_end L1 <= offset ∧
    (∀ b rest, M ++ L2 = b :: rest → offset < log_end L1 + cnt b) ∧
    (M = [] ∨ log_end (L1 ++ M) <= visible) ∧
    (zlen (concat M) <= limit ∨ (length M <= 1)%nat) ∧
    (∀ b rest, L2 = b :: rest →
      visible < log_end (L1 ++ M) + cnt b ∨ (M ≠ [] ∧ limit < zlen (concat M) + zlen b)).

Lemma log_end_app L1 L2 : log_end (L1 ++ L2) = log_end L1 + log_end L2.
Proof. induction L1 as [|b L1 IH]; [done|]. simpl. lia. Qed.

Lemma log_end_nonneg L : Forall rs_ok L → 0 <= log_end L.
Proof. induction 1 as [|b L Hb _ IH]; simpl; [done|]. pose proof (cnt_pos b Hb). lia. Qed.

Lemma cu_next_log_end A S c L : cu_next (cursor_after A S c L) = cu_next c + log_end L.
Proof.
  revert c. induction L as [|b L IH]; intros c; simpl; [lia|].
  fold (cursor_after A S (next_cursor A S c b) L). rewrite IH. simpl. lia.
Qed.

Lemma cu_next_log_end0 A S L : cu_next (cursor_after A S cursor0 L) = log_end L.
Proof. by rewrite cu_next_log_end. Qed.

Lemma placed_lookup A S c L i e b :
  placed A S c L !! i = Some (e, b) →
  L !! i = Some b ∧ ie_last_offset e = cu_next c + log_end (take (Datatypes.S i) L) - 1.
Proof.
  revert c i. induction L as [|b' L IH]; intros c [|i] E; cbn [placed lookup list_lookup] in E; try done.
  - injection E as <- <-. simpl. split; [done|lia].
  - destruct (IH _ _ E) as [? ->]. split; [done|]. simpl. lia.
Qed.

Lemma log_end_take_mono i j L : Forall rs_ok L → (i <= j)%nat → log_end (take i L) <= log_end (take j L).
Proof.
  intros HL Hij. replace (take i L) with (take i (take j L)) by (rewrite take_take; f_equal; lia).
  rewrite <- (take_drop i (take j L)) at 2. rewrite log_end_app.
  pose proof (log_end_nonneg (drop i (take j L)) ltac:(by apply Forall_drop, Forall_take)). lia.
Qed.

(** The reference in terms of the record sets. *)
Lemma read_ref_selects A S visible limit have c L :
  Forall rs_ok L → 0 <= have → let M := read_ref visible limit have (placed A S c L) in
  ∃ L2, L = M ++ L2 ∧ (M = [] ∨ cu_next c + log_end M <= visible) ∧
    (have + zlen (concat M) <= limit ∨ M = [] ∨ (have = 0 ∧ length M = 1%nat)) ∧
    (∀ b rest, L2 = b :: rest → visible < cu_next c + log_end M + cnt b ∨
       (0 < have + zlen (concat M) ∧ limit < have + zlen (concat M) + zlen b)).
Proof.
  intros HL. revert have c. induction HL as [|b L Hb HL IH]; intros have c Hh M.
  { exists []. split_and!; (done || auto). }
  unfold M. cbn [placed read_ref entry_for ie_last_offset]. clear M.
  assert (1 <= zlen b) as Hb1 by (destruct Hb as [Hb _]; destruct b; [done|]; rewrite zlen_cons; pose proof (zlen_nonneg b0); lia).
  destruct (Z.ltb_spec (cu_next c + cnt b - 1) visible) as [Hv|Hv].
  2:{ exists (b :: L). split_and!; try done; auto. intros b' rest [= <- <-]. left. simpl. lia. }
  destruct ((have =? 0) || (have + zlen b <=? limit)) eqn:Hfit.
  2:{ apply orb_false_iff in Hfit as [H1%Z.eqb_neq H2%Z.leb_gt].
      exists (b :: L). split_and!; try done; auto. intros b' rest [= <- <-]. right. unfold zlen in *. simpl. lia. }
  destruct (IH (have + zlen b) (next_cursor A S c b) ltac:(lia)) as (L2 & EL & Hvis & Hsz & Hstop).
  set (M := read_ref _ _ _ _) in *. exists L2. cbn [app concat log_end next_cursor cu_next] in *. rewrite zlen_app.
  split_and!.
  - by rewrite EL at 1.
  - right. destruct Hvis as [->|?]; simpl; lia.
  - apply orb_true_iff in Hfit. destruct Hsz as [?|[->|[? _]]]; [left; lia| |lia].
    destruct Hfit as [?%Z.eqb_eq|?%Z.leb_le]; [right; right; by split|left]. unfold zlen in *. simpl. lia.
  - intros b' rest E. destruct (Hstop b' rest E) as [?|?]; [left|right]; lia.
Qed.

(** ** Runs of frames *)

Section runs.
Context (A S : Z).
Hypothesis A_range : 512 <= A <= 2 ^ 16.
Abbreviation P_of L := (placed A S cursor0 L).

Lemma run_position L P1 run e b P2 :
  Forall rs_ok L → P_of L = P1 ++ run ++ (e, b) :: P2 → Forall (in_segment (ie_segment_base e)) run →
  ie_segment_position e
  = zlen (frames A (filter (in_segment (ie_segment_base e)) P1)) + zlen (frames A run).
Proof.
  intros HL E Hrun. rewrite (app_assoc P1) in E.
  rewrite (entry_position A S A_range L (P1 ++ run) e b P2 HL E).
  by rewrite filter_app, (filter_all _ run), frames_app, zlen_app.
Qed.

Lemma placed_ok L eb :
  log_ok A S L → eb ∈ P_of L →
  rs_ok eb.2 ∧ ie_record_bytes eb.1 = zlen eb.2 ∧
  0 <= ie_base_offset eb.1 <= ie_last_offset eb.1 ∧ ie_last_offset eb.1 < 2 ^ 63 ∧
  0 <= ie_segment_base eb.1 < 2 ^ 63 ∧ 0 <= ie_segment_position eb.1 < 2 ^ 63.
Proof.
  intros (HL & Hn & Hnext) Hin.
  destruct (placed_bounds A S A_range cursor0 L eb cursor0_wf HL Hin) as (Hb & Hs & Hbl & Hl & Hsb & Hp).
  simpl in *. destruct (placed_elem A S cursor0 L eb Hin) as (L1 & L2 & -> & He).
  apply Forall_app in HL as [HL1 _]. rewrite zlen_app, zlen_cons in Hn.
  pose proof (cursor_pos_bound A S A_range cursor0 L1 HL1 ltac:(done)) as Hpos. simpl in Hpos.
  pose proof (zlen_nonneg L2). assert (ie_segment_position eb.1 < 2 ^ 63).
  { rewrite He. simpl. unfold pos_for. destruct (rolls _ _ _ _); lia. }
  split_and!; try done; try lia. by rewrite He.
Qed.

Abbreviation size_of run := (zlen (concat (map snd run))).

Lemma size_of_app (r1 r2 : list (IndexEntry * bytes)) : size_of (r1 ++ r2) = size_of r1 + size_of r2.
Proof. by rewrite map_app, concat_app, zlen_app. Qed.

Lemma size_of_pos L run : log_ok A S L → run ⊆ P_of L → run ≠ [] → 1 <= size_of run.
Proof.
  intros HL Hsub Hne. destruct run as [|eb run]; [done|].
  destruct (placed_ok L eb HL) as ([Hb _] & _); [apply Hsub; left|].
  cbn [map concat]. rewrite zlen_app. destruct eb.2 as [|x b]; [done|]. rewrite zlen_cons.
  pose proof (zlen_nonneg b). pose proof (zlen_nonneg (concat (map snd run))). lia.
Qed.

(** One round of the inner loop, with its 64-bit arithmetic computed. *)
Lemma extend_run_round L visible limit have s P1 run e b rest :
  log_ok A S L → P_of L = P1 ++ run ++ (e, b) :: rest → Forall (in_segment s) run →
  0 <= have → 0 <= limit < 2 ^ 32 → have + size_of run <= 2 ^ 32 →
  let start := zlen (frames A (filter (in_segment s) P1)) in
  let run' := run ++ [(e, b)] in
  extend_run (e :: map fst rest) A visible limit have s start (length run) (size_of run) (zlen (frames A run))
  = if (ie_last_offset e <? visible) && (ie_segment_base e =? s) && (have + size_of run + zlen b <=? limit)
    then extend_run (map fst rest) A visible limit have s start (length run') (size_of run') (zlen (frames A run'))
    else (length run, zlen (frames A run)).
Proof.
  intros HL E Hrun Hh Hlim Hle start run'.
  assert ((e, b) ∈ P_of L) as Hin.
  { rewrite E. apply elem_of_app. right. apply elem_of_app. right. left. }
  destruct (placed_ok L _ HL Hin) as ([_ Hb] & Hrb & Hbl & _ & _ & Hp). cbn [fst snd] in *.
  pose proof (fsz_range A A_range b Hb). pose proof (zlen_nonneg b).
  cbn [extend_run]. rewrite !Z.geb_leb.
  destruct (Z.ltb_spec (ie_last_offset e) visible), (Z.leb_spec visible (ie_last_offset e)); try lia;
    [|by rewrite orb_true_r].
  destruct (Z.leb_spec visible (ie_base_offset e)); [lia|].
  destruct (Z.eqb_spec (ie_segment_base e) s) as [<-|]; [|done]. cbn [orb negb andb].
  pose proof (zlen_nonneg (concat (map snd run))).
  rewrite Hrb, (frame_size_of_fsz A b), (wrap_u_id 64 (zlen b)), (wrap_u_id 64 (have + _)),
    (wrap_u_id 64 (have + _ + _)), (wrap_u_id 64 (_ + zlen b)), Z.gtb_ltb by (done || unfold in_u; lia).
  destruct (Z.ltb_spec limit (have + size_of run + zlen b)), (Z.leb_spec (have + size_of run + zlen b) limit); try lia; [done|].
  pose proof (run_position L P1 run e b rest ltac:(apply HL) E Hrun) as Hposn.
  pose proof (zlen_nonneg (frames A (filter (in_segment (ie_segment_base e)) P1))). fold start in Hposn |- *. pose proof (zlen_nonneg (frames A run)).
  rewrite (wrap_u_id 64 (_ - _)), (wrap_u_id 64 (_ + fsz A b)) by (unfold in_u; lia).
  unfold run'. rewrite length_app, size_of_app, frames_app, zlen_app. cbn [map concat snd length].
  change (frames A [(e, b)]) with (frame_of A (e, b) ++ []).
  rewrite !app_nil_r, Nat.add_1_r, zlen_frame_of by done. cbn [snd]. f_equal. lia.
Qed.

(** The inner loop takes exactly the record sets of this segment the
    reference would take next, and the bytes of the run are their frames. *)
Lemma extend_run_spec L visible limit have s P1 run rest n total :
  log_ok A S L → P_of L = P1 ++ run ++ rest → run ≠ [] → Forall (in_segment s) run →
  0 <= have → 0 <= limit < 2 ^ 32 → have + size_of run <= 2 ^ 32 →
  extend_run (map fst rest) A visible limit have s (zlen (frames A (filter (in_segment s) P1)))
    (length run) (size_of run) (zlen (frames A run)) = (n, total) →
  ∃ run2 rest2, rest = run2 ++ rest2 ∧ n = length (run ++ run2) ∧ total = zlen (frames A (run ++ run2)) ∧
    Forall (in_segment s) run2 ∧ have + size_of (run ++ run2) <= 2 ^ 32 ∧
    read_ref visible limit (have + size_of run) rest
    = map snd run2 ++ read_ref visible limit (have + size_of (run ++ run2)) rest2.
Proof.
  intros HL. revert run n total. induction rest as [|[e b] rest IH]; intros run n total E Hne Hrun Hh Hlim Hle Hext.
  { injection Hext as <- <-. exists [], []. rewrite !app_nil_r. split_and!; (done || constructor). }
  assert ((e, b) ∈ P_of L) as Hin.
  { rewrite E. apply elem_of_app. right. apply elem_of_app. right. left. }
  destruct (placed_ok L _ HL Hin) as ([Hb0 Hb] & _). cbn [snd] in Hb0, Hb. pose proof (zlen_nonneg b).
  assert (1 <= size_of run) as Hpos.
  { apply (size_of_pos L); [done| |done]. intros x Hx. rewrite E. apply elem_of_app. right. apply elem_of_app. by left. }
  cbn [map fst] in Hext. rewrite (extend_run_round L visible limit have s P1 run e b rest) in Hext by done.
  destruct (_ && _) eqn:Hgo in Hext.
  2:{ injection Hext as <- <-. exists [], ((e, b) :: rest). rewrite !app_nil_r. split_and!; (done || constructor). }
  apply andb_true_iff in Hgo as [[Hv Hseg%Z.eqb_eq]%andb_true_iff Hfit].
  cbn [read_ref]. rewrite Hv, Hfit, orb_true_r. apply Z.leb_le in Hfit.
  assert (size_of (run ++ [(e, b)]) = size_of run + zlen b) as Hsz.
  { rewrite size_of_app. cbn [map concat snd]. by rewrite app_nil_r. }
  destruct (IH (run ++ [(e, b)]) n total) as (run2 & rest2 & -> & Hn & Ht & Hseg2 & Hle2 & Href).
  - rewrite E, <- !app_assoc. done.
  - by destruct run.
  - apply Forall_app. split; [done|]. by repeat constructor.
  - done.
  - done.
  - lia.
  - exact Hext.
  - exists ((e, b) :: run2), rest2. rewrite <- (app_assoc run) in *. cbn [app] in *.
    split_and!; try done; [by constructor|]. cbn [map snd app]. f_equal. rewrite <- Href. f_equal. lia.
Qed.

(** The frames of a run parse to its record sets. *)
Lemma parse_run_spec L s P1 run0 run P2 records :
  log_ok A S L → P_of L = P1 ++ (run0 ++ run) ++ P2 → Forall (in_segment s) (run0 ++ run) →
  zlen (frames A (run0 ++ run)) < 2 ^ 63 →
  parse_run (frames A (run0 ++ run)) (zlen (frames A (filter (in_segment s) P1))) (map fst run) records
  = Ok (records ++ concat (map snd run)).
Proof.
  intros HL. revert run0 records. induction run as [|[e b] run IH]; intros run0 records E Hseg H63.
  { cbn [map parse_run concat]. by rewrite app_nil_r. }
  assert ((e, b) ∈ P_of L) as Hin.
  { rewrite E, <- (app_assoc run0). apply elem_of_app. right. apply elem_of_app. right. left. }
  destruct (placed_ok L _ HL Hin) as (Hb & Hrb & Hbl & Hl63 & _ & _). cbn [fst snd] in *.
  pose proof Hseg as Hs'. apply Forall_app in Hs' as [Hseg0 Hs']. apply Forall_cons in Hs' as [Hs _].
  unfold in_segment in Hs. cbn [fst] in Hs. subst s.
  assert (P_of L = P1 ++ run0 ++ (e, b) :: run ++ P2) as E' by (rewrite E, <- (app_assoc run0); done).
  pose proof (run_position L P1 run0 e b (run ++ P2) ltac:(apply HL) E' Hseg0) as Hposn.
  assert (frames A (run0 ++ (e, b) :: run) = frames A run0 ++ frame_of A (e, b) ++ frames A run) as Hfr.
  { by rewrite frames_app. }
  pose proof (fsz_range A A_range b (proj2 Hb)) as Hfs. pose proof (zlen_nonneg b).
  pose proof (zlen_nonneg (frames A run0)). pose proof (zlen_nonneg (frames A run)).
  pose proof (zlen_frame_of A A_range (e, b) (proj2 Hb)) as Hzf. cbn [snd] in Hzf. destruct Hb as [Hb0 Hb31].
  pose proof H63 as H63'. rewrite Hfr, !zlen_app, Hzf in H63'.
  cbn [map fst parse_run]. rewrite Hrb, Hposn.
  rewrite (wrap_u_id 64 (zlen b)), (wrap_u_id 64 (_ - _)) by (unfold in_u; lia).
  rewrite Z.add_simpl_l. rewrite Z.gtb_ltb. destruct (Z.ltb_spec (zlen (frames A (run0 ++ (e, b) :: run)))
    (zlen (frames A run0) + header_size + zlen b)) as [Hbad|_].
  { exfalso. rewrite Hfr, !zlen_app, Hzf in Hbad. unfold header_size in Hbad. lia. }
  assert (drop (Z.to_nat (zlen (frames A run0))) (frames A (run0 ++ (e, b) :: run))
    = frame_of A (e, b) ++ frames A run) as ->.
  { unfold zlen. by rewrite Hfr, Nat2Z.id, drop_app_length. }
  destruct (log_frame_fields A (mkRecordSet (ie_base_offset e) (ie_last_offset e) b) (frames A run) A_range Hb31)
    as (F1 & F2 & F3 & F4); [unfold in_s; simpl; lia|].
  change (log_frame A _) with (frame_of A (e, b)) in F1, F2, F3, F4.
  cbn [rs_bytes rs_base_offset] in F2, F3, F4. unfold frame_matches.
  rewrite F1, F2, F3, Hrb, !Z.eqb_refl. cbn [andb negb].
  replace (Z.to_nat (zlen b)) with (length b) by (unfold zlen; lia). rewrite F4.
  assert (run0 ++ (e, b) :: run = (run0 ++ [(e, b)]) ++ run) as Happ by (by rewrite <- app_assoc).
  rewrite Happ in E, Hseg, H63 |- *. rewrite (IH (run0 ++ [(e, b)])) by done.
  cbn [map snd concat]. by rewrite app_assoc.
Qed.

Lemma frames_bound L run : log_ok A S L → run ⊆ P_of L → zlen (frames A run) <= 2 ^ 32 * zlen run.
Proof.
  intros HL. induction run as [|eb run IH]; intros Hsub; [done|].
  destruct (placed_ok L eb HL) as ([_ Hb] & _); [apply Hsub; left|].
  pose proof (fsz_range A A_range eb.2 Hb). pose proof (zlen_nonneg eb.2).
  rewrite zlen_frames_cons, zlen_cons by done. assert (run ⊆ P_of L) as Hsub' by (intros x Hx; apply Hsub; by right).
  specialize (IH Hsub'). lia.
Qed.

Lemma read_ref_full L visible limit have P :
  log_ok A S L → P ⊆ P_of L → 0 < have → limit <= have → read_ref visible limit have P = [].
Proof.
  intros HL Hsub Hh Hl. destruct P as [|[e b] P]; [done|]. cbn [read_ref].
  destruct (placed_ok L (e, b) HL) as ([Hb _] & _); [apply Hsub; left|]. cbn [snd] in Hb.
  destruct b as [|x b]; [done|]. pose proof (zlen_nonneg b). rewrite zlen_cons. bcase; simpl; (done || lia).
Qed.
End runs.

(** ** The loop *)

Section read.
Context {St : Storage} {Laws : StorageLaws}.
Abbreviation in_store l L := (seg_exists alignment (segment_bytes_ l) L).

Lemma store_cache l d d' L c :
  store l d L → files d' = files d →
  Forall (λ e, e.2 = segment_path l e.1 ∧ in_store l L e.1) c → store (set_segment_cache_ c l) d' L.
Proof.
  intros ((H1 & H2 & H3 & H4 & H5 & H6 & H7 & H8 & H9 & H10 & H11 & H12) & (H13 & H14 & H15 & H17) & H16) Hf Hc.
  split; [|split; [|exact H16]].
  - split_and!; assumption.
  - unfold store_disk. rewrite Hf. split_and!; assumption.
Qed.

Lemma set_cache_id l : set_segment_cache_ (segment_cache_ l) l = l.
Proof. by destruct l. Qed.

(** A segment in use is open, cached or can be opened; only the cache
    changes. *)
Lemma get_segment_file_ok l d L s :
  store l d L → in_store l L s →
  ∃ c d', get_segment_file_for_read s (l, d) = (Ok (segment_path l s), (set_segment_cache_ c l, d')) ∧
    store (set_segment_cache_ c l) d' L.
Proof.
  intros Hst Hs. pose proof Hst as ((_ & _ & _ & _ & _ & Hact & _ & Hfile & _ & _ & _ & Hcache) & (_ & Hds & _) & _).
  unfold get_segment_file_for_read. rewrite (io_bind_ok _ _ _ l (l, d)) by done.
  destruct (Z.eqb_spec s (active_segment_base_offset_ l)) as [Heq|_].
  { rewrite Hfile, <- Hact, <- Heq. exists (segment_cache_ l), d. by rewrite set_cache_id. }
  unfold cache_hit. destruct (list_find _ _) as [[i e]|] eqn:Efind.
  - apply list_find_Some in Efind as (Hi & He & _).
    rewrite Forall_forall in Hcache. destruct (Hcache e) as [Hp Hin]; [by eapply list_elem_of_lookup_2|].
    exists (e :: take i (segment_cache_ l) ++ drop (S i) (segment_cache_ l)), d. split.
    + rewrite Hp, <- He. done.
    + apply (store_cache l d); [done|done|]. apply Forall_forall. intros x Hx. apply Hcache.
      apply elem_of_cons in Hx as [->|Hx]; [by eapply list_elem_of_lookup_2|].
      rewrite <- (take_drop i (segment_cache_ l)), (drop_S _ e i) by done.
      set_solver.
  - destruct (open_ro_ok _ d _ (Hds s Hs)) as (d' & Ho & Hf).
    exists (cache_push (s, segment_path l s) (segment_cache_ l)), d'. split.
    + rewrite (io_bind_ok _ _ _ tt (l, d')) by (by apply on_disk_ok). done.
    + apply (store_cache l d); [done|done|]. unfold cache_push. constructor; [done|]. by apply Forall_take.
Qed.

Abbreviation P_of l L := (placed alignment (segment_bytes_ l) cursor0 L).

(** One DMA read returns the frames of a run. *)
Lemma read_run_ok l d L P1 run P2 s :
  store l d L → P_of l L = P1 ++ run ++ P2 → Forall (in_segment s) run → in_store l L s →
  dma_read (segment_path l s) (zlen (frames alignment (filter (in_segment s) P1)))
    (zlen (frames alignment run)) d = Ok (frames alignment run).
Proof.
  intros (((HL & _) & _) & (_ & Hds & _) & _) E Hrun Hs.
  rewrite (dma_read_ok _ _ _ _ _ (Hds s Hs)) by apply zlen_nonneg. f_equal.
  rewrite (image_split alignment (segment_bytes_ l) L P1 run P2 s HL E Hrun).
  unfold read_at, zlen. rewrite !Nat2Z.id, drop_app_length. by rewrite take_app_length.
Qed.

(** One round of the loop that reads: the run starting at an entry. *)
Lemma run_step l d L P1 e b P2 visible limit (records : bytes) n total :
  store l d L → P_of l L = P1 ++ (e, b) :: P2 → 0 <= limit < 2 ^ 32 → zlen records + zlen b <= 2 ^ 32 →
  extend_run (map fst P2) alignment visible limit (zlen records) (ie_segment_base e) (ie_segment_position e)
    1 (zlen b) (frame_size_of (zlen b) alignment) = (n, total) →
  ∃ run rest c d', let run' := (e, b) :: run in let records' := records ++ concat (map snd run') in
    P2 = run ++ rest ∧ n = length run' ∧ total = zlen (frames alignment run') ∧
    get_segment_file_for_read (ie_segment_base e) (l, d)
    = (Ok (segment_path l (ie_segment_base e)), (set_segment_cache_ c l, d')) ∧
    store (set_segment_cache_ c l) d' L ∧
    dma_read (segment_path l (ie_segment_base e)) (ie_segment_position e) total d' = Ok (frames alignment run') ∧
    parse_run (frames alignment run') (ie_segment_position e) (map fst run') records = Ok records' ∧
    zlen records' <= 2 ^ 32 ∧
    read_ref visible limit (zlen records + zlen b) P2 = map snd run ++ read_ref visible limit (zlen records') rest.
Proof.
  intros Hst E Hlim Hle Hext. pose proof Hst as ((Hok & _) & _). pose proof alignment_range as HA.
  assert ((e, b) ∈ P_of l L) as Hin by (rewrite E; apply elem_of_app; right; left).
  destruct (placed_ok alignment (segment_bytes_ l) HA L _ Hok Hin) as ([Hb0 Hb31] & _). cbn [snd] in *.
  pose proof (run_position alignment (segment_bytes_ l) HA L P1 [] e b P2 ltac:(apply Hok) E ltac:(constructor)) as Hpos.
  change (zlen (frames alignment [])) with 0 in Hpos. rewrite Z.add_0_r in Hpos.
  assert (zlen (concat (map snd [(e, b)])) = zlen b) as Hsz by (cbn [map snd concat]; by rewrite app_nil_r).
  assert (in_store l L (ie_segment_base e)) as Hseg by (right; by exists (e, b)).
  destruct (get_segment_file_ok l d L _ Hst Hseg) as (c & d' & Hget & Hst').
  rewrite Hpos in Hext |- *. rewrite frame_size_of_fsz in Hext by done.
  destruct (extend_run_spec alignment (segment_bytes_ l) HA L visible limit (zlen records) (ie_segment_base e) P1 [(e, b)] P2 n total)
    as (run & rest & -> & Hn & Ht & Hrun & Hle2 & Href); try done.
  - by repeat constructor.
  - apply zlen_nonneg.
  - by rewrite Hsz.
  - rewrite Hsz, zlen_frames_cons by done. change (zlen (frames alignment [])) with 0. by rewrite Z.add_0_r.
  - rewrite Hsz in Href. cbn [app] in *. assert (Forall (in_segment (ie_segment_base e)) ((e, b) :: run)) as Hrun'
      by (by constructor).
    assert (zlen (frames alignment ((e, b) :: run)) < 2 ^ 63) as H63.
    { assert ((e, b) :: run ⊆ P_of l L) as Hsub by (rewrite E; set_solver).
      pose proof (frames_bound alignment (segment_bytes_ l) HA L _ Hok Hsub). pose proof Hok as (_ & Hn31 & _).
      assert (zlen ((e, b) :: run) <= zlen L); [|lia]. unfold zlen. apply inj_le.
      rewrite <- (length_placed alignment (segment_bytes_ l) cursor0 L), E.
      rewrite length_app. cbn [length]. rewrite length_app. lia. }
    exists run, rest, c, d'. cbv zeta. split_and!; try done.
    + rewrite Ht. by apply (read_run_ok _ _ _ _ _ rest _ Hst').
    + by apply (parse_run_spec alignment (segment_bytes_ l) HA L _ P1 [] ((e, b) :: run) rest).
    + rewrite zlen_app. done.
    + by rewrite zlen_app.
Qed.

Lemma zlen_zero {A} (x : list A) : (zlen x =? 0) = true ↔ x = [].
Proof. rewrite Z.eqb_eq. unfold zlen. split; [|by intros ->]. destruct x; simpl; [done|lia]. Qed.

Lemma zlen_eqb_nil (x : bytes) : bool_decide (x = []) = (zlen x =? 0).
Proof. case_bool_decide as Hx; symmetry; [by apply zlen_zero|]. apply not_true_iff_false. by rewrite zlen_zero. Qed.

(** One round of the loop: it stops where the reference stops, or takes a
    run of record sets the reference takes and goes on behind it. *)
Lemma read_loop_round fuel offset visible limit l d L P1 P2 (records : bytes) :
  store l d L → P_of l L = P1 ++ P2 → Forall (λ eb, offset <= ie_last_offset eb.1) P2 →
  0 <= limit < 2 ^ 32 → zlen records <= 2 ^ 32 →
  let loop := read_loop (S fuel) offset visible limit (length P1) records (l, d) in
  (loop = (Ok records, (l, d)) ∧ read_ref visible limit (zlen records) P2 = []) ∨
  ∃ run rest c d1, let l1 := set_segment_cache_ c l in let records' := records ++ concat (map snd run) in
    P2 = run ++ rest ∧ run ≠ [] ∧ store l1 d1 L ∧ zlen records' <= 2 ^ 32 ∧
    read_ref visible limit (zlen records) P2 = map snd run ++ read_ref visible limit (zlen records') rest ∧
    loop = (if zlen records' >=? limit then mret records'
            else read_loop fuel offset visible limit (length (P1 ++ run)) records') (l1, d1).
Proof.
  intros Hst E Hoff Hlim Hrec loop. pose proof Hst as ((Hok & Ha & _ & Hent & _) & _). pose proof alignment_range as HA.
  unfold loop. cbn [read_loop]. rewrite (io_bind_ok _ _ _ l (l, d)) by done. clear loop.
  assert (drop (length P1) (index_entries_ l) = map fst P2) as Hdrop.
  { rewrite Hent. unfold entries. rewrite E, map_app, <- (length_map fst P1). apply drop_app_length. }
  assert (index_entries_ l !! length P1 = map fst P2 !! 0%nat) as -> by (rewrite <- Hdrop, lookup_drop; f_equal; lia).
  destruct P2 as [|[e b] P2]; [by left|].
  assert ((e, b) ∈ P_of l L) as Hin by (rewrite E; apply elem_of_app; right; left).
  destruct (placed_ok _ _ HA L _ Hok Hin) as ([Hb0 Hb31] & Hrb & Hbl & Hl63 & _ & Hp). cbn [fst snd] in *.
  pose proof (zlen_nonneg b). pose proof (zlen_nonneg records).
  apply Forall_cons in Hoff as [Hoff _]. cbn [fst] in Hoff. cbn [map fst lookup list_lookup].
  destruct (Z.ltb_spec (ie_last_offset e) offset); [lia|]. cbn [read_ref]. rewrite !Z.geb_leb.
  destruct (Z.ltb_spec (ie_last_offset e) visible), (Z.leb_spec visible (ie_last_offset e)); try lia;
    [|rewrite orb_true_r; by left].
  destruct (Z.leb_spec visible (ie_base_offset e)); [lia|]. cbn [orb].
  rewrite Hrb, (wrap_u_id 64 (zlen b)), (wrap_u_id 64 (zlen records + _)), zlen_eqb_nil, Z.gtb_ltb, Z.ltb_antisym,
    <- negb_orb by (unfold in_u; lia).
  destruct ((zlen records =? 0) || (zlen records + zlen b <=? limit)) eqn:Hfit; cbn [negb]; [|by left]. right.
  assert (zlen records + zlen b <= 2 ^ 32) as Hle.
  { apply orb_true_iff in Hfit as [Hz%Z.eqb_eq|Hz%Z.leb_le]; lia. }
  rewrite Ha. assert (drop (S (length P1)) (index_entries_ l) = map fst P2) as ->.
  { rewrite <- Nat.add_1_r, <- drop_drop, Hdrop. done. }
  destruct (extend_run _ _ _ _ _ _ _ _ _ _) as [n total] eqn:Hext.
  destruct (run_step l d L P1 e b P2 visible limit records n total Hst E Hlim Hle Hext)
    as (run & rest & c & d1 & -> & -> & -> & Hget & Hst1 & Hread & Hparse & Hle' & Href).
  exists ((e, b) :: run), rest, c, d1. cbv zeta. split_and!; try done; [cbn [map snd app]; by rewrite Href|].
  rewrite (io_bind_ok _ _ _ _ _ Hget), (io_bind_ok _ _ _ (frames alignment ((e, b) :: run)) (set_segment_cache_ c l, d1))
    by (unfold from_disk; cbn [snd]; by rewrite Hread).
  rewrite Z.eqb_refl. cbn [negb]. rewrite Hdrop, (app_comm_cons run rest (e, b)), map_app, take_app_length'
    by (by rewrite length_map).
  rewrite (io_bind_ok _ _ _ (records ++ concat (map snd ((e, b) :: run))) (set_segment_cache_ c l, d1))
    by (unfold lift; by rewrite Hparse).
  by rewrite <- length_app.
Qed.

(** The loop returns what the reference does, and changes the cache only. *)
Lemma read_loop_ok fuel offset visible limit l d L P1 P2 (records : bytes) :
  store l d L → P_of l L = P1 ++ P2 → Forall (λ eb, offset <= ie_last_offset eb.1) P2 →
  (length P2 < fuel)%nat → 0 <= limit < 2 ^ 32 → zlen records <= 2 ^ 32 →
  ∃ c d', read_loop fuel offset visible limit (length P1) records (l, d)
    = (Ok (records ++ concat (read_ref visible limit (zlen records) P2)), (set_segment_cache_ c l, d')) ∧
    store (set_segment_cache_ c l) d' L.
Proof.
  revert l d P1 P2 records.
  induction fuel as [|fuel IH]; intros l d P1 P2 records Hst E Hoff Hfuel Hlim Hrec; [lia|].
  destruct (read_loop_round fuel offset visible limit l d L P1 P2 records Hst E Hoff Hlim Hrec)
    as [[-> ->]|(run & rest & c & d1 & -> & Hne & Hst1 & Hle & -> & ->)].
  { exists (segment_cache_ l), d. by rewrite set_cache_id, app_nil_r. }
  rewrite concat_app, app_assoc. set (records' := records ++ concat (map snd run)) in *.
  assert (run ⊆ P_of l L ∧ rest ⊆ P_of l L) as [Hsub1 Hsub2] by (rewrite E; set_solver).
  pose proof Hst as ((Hok & _) & _). pose proof alignment_range as HA.
  rewrite Z.geb_leb. destruct (Z.leb_spec limit (zlen records')) as [Hfull|_].
  - exists c, d1. split; [|exact Hst1].
    rewrite (read_ref_full alignment (segment_bytes_ l) HA L); [by rewrite app_nil_r|done|done| |done].
    pose proof (size_of_pos alignment (segment_bytes_ l) HA L run Hok Hsub1 Hne).
    unfold records'. rewrite zlen_app. pose proof (zlen_nonneg records). lia.
  - destruct (IH (set_segment_cache_ c l) d1 (P1 ++ run) rest records') as (c2 & d2 & Hloop & Hst2); try done.
    + rewrite <- app_assoc. exact E.
    + by apply Forall_app in Hoff as [_ ?].
    + destruct run; [done|]. cbn [length app] in Hfuel. rewrite length_app in Hfuel. lia.
    + by exists c2, d2.
Qed.

(** The binary search finds the record set holding the offset. *)
Lemma find_index_ok A S L offset :
  Forall rs_ok L → 0 <= offset →
  let k := find_index_for_offset (entries A S L) offset in
  (k <= length L)%nat ∧ log_end (take k L) <= offset ∧
  (∀ b rest, drop k L = b :: rest → offset < log_end (take k L) + cnt b) ∧
  Forall (λ eb, offset <= ie_last_offset eb.1) (drop k (placed A S cursor0 L)).
Proof.
  intros HL Ho k.
  assert (∀ i e, entries A S L !! i = Some e →
    ie_last_offset e = log_end (take (Datatypes.S i) L) - 1 ∧ (i < length L)%nat) as Hlast.
  { intros i e Hi. unfold entries in Hi. apply list_lookup_fmap_Some_1 in Hi as ([e' b] & -> & Hi).
    destruct (placed_lookup A S cursor0 L i e' b Hi) as [Hb Hl]. cbn [fst]. rewrite Hl.
    split; [simpl; lia|]. by eapply lookup_lt_Some. }
  destruct (lower_bound_spec (λ entry, ie_last_offset entry <? offset) (entries A S L)) as (Hk & Hlt & Hge).
  { intros i j x y Hij Hx Hy. destruct (Hlast i x Hx) as [-> _]. destruct (Hlast j y Hy) as [-> _].
    pose proof (log_end_take_mono (Datatypes.S i) (Datatypes.S j) L HL ltac:(lia)). rewrite !Z.ltb_lt. lia. }
  fold (find_index_for_offset (entries A S L) offset) in Hk, Hlt, Hge. fold k in Hk, Hlt, Hge.
  assert (length (entries A S L) = length L) as Hlen by (unfold entries; by rewrite length_map, length_placed).
  rewrite Hlen in Hk. split_and!; [done| | |].
  - destruct k as [|k']; [done|]. destruct (entries A S L !! k') as [e|] eqn:Ee.
    2:{ apply lookup_ge_None in Ee. lia. }
    specialize (Hlt k' e ltac:(lia) Ee). destruct (Hlast k' e Ee) as [He _]. apply Z.ltb_lt in Hlt. lia.
  - intros b rest Hd. assert (L !! k = Some b) as Hb.
    { rewrite <- (Nat.add_0_r k), <- lookup_drop, Hd. done. }
    destruct (entries A S L !! k) as [e|] eqn:Ee.
    2:{ apply lookup_ge_None in Ee. apply lookup_lt_Some in Hb. lia. }
    specialize (Hge k e ltac:(lia) Ee). destruct (Hlast k e Ee) as [He _]. apply Z.ltb_ge in Hge.
    rewrite (take_S_r _ _ b), log_end_app in He by done. simpl in He. lia.
  - apply Forall_forall. intros eb Hin. apply list_elem_of_lookup in Hin as [i Hi]. rewrite lookup_drop in Hi.
    specialize (Hge (k + i)%nat eb.1 ltac:(lia)). rewrite Z.ltb_ge in Hge. apply Hge.
    unfold entries. change (map fst) with (fmap (M := list) (@fst IndexEntry bytes)). by rewrite list_lookup_fmap, Hi.
Qed.

Lemma read_records_ok l d L offset visible limit :
  store l d L → 0 <= offset → 0 <= limit < 2 ^ 32 →
  ∃ M c d', read_records_from_index offset visible limit (l, d)
    = (Ok (concat M), (set_segment_cache_ c l, d')) ∧
    store (set_segment_cache_ c l) d' L ∧ selects L M offset visible limit.
Proof.
  intros Hst Ho Hlim. pose proof Hst as ((Hok & _ & _ & Hent & _) & _). pose proof Hok as (HL & _ & _).
  unfold read_records_from_index. rewrite (io_bind_ok _ _ _ l (l, d)) by done. rewrite Hent.
  set (A := alignment). set (S' := segment_bytes_ l).
  destruct (find_index_ok A S' L offset HL Ho) as (Hk & Hbefore & Hat & Hfrom).
  set (k := find_index_for_offset _ _) in *.
  assert (placed A S' cursor0 L
    = placed A S' cursor0 (take k L) ++ placed A S' (cursor_after A S' cursor0 (take k L)) (drop k L)) as E.
  { rewrite <- (take_drop k L) at 1. apply placed_app. }
  assert (length (placed A S' cursor0 (take k L)) = k) as Hk' by (rewrite length_placed, length_take; lia).
  rewrite E, drop_app_ge, Hk', Nat.sub_diag, drop_0 in Hfrom by lia.
  set (c2 := cursor_after A S' cursor0 (take k L)) in *.
  destruct (read_loop_ok (S (length (entries A S' L))) offset visible limit l d L
    (placed A S' cursor0 (take k L)) (placed A S' c2 (drop k L)) []) as (c & d' & Hloop & Hst'); try done.
  { unfold entries. rewrite length_map, !length_placed, length_drop. lia. }
  rewrite Hk' in Hloop.
  destruct (read_ref_selects A S' visible limit 0 c2 (drop k L) ltac:(by apply Forall_drop) ltac:(done))
    as (L2 & EL & Hvis & Hsz & Hstop).
  change (zlen []) with 0 in Hloop. set (M := read_ref _ _ _ _) in *.
  exists M, c, d'. split_and!; [exact Hloop|done|].
  assert (cu_next c2 = log_end (take k L)) as Hc2 by (unfold c2; rewrite cu_next_log_end; simpl; lia).
  rewrite Hc2 in *. exists (take k L), L2. split_and!.
  - by rewrite <- EL, take_drop.
  - done.
  - intros b rest Eb. apply (Hat b rest). by rewrite EL.
  - by rewrite log_end_app.
  - destruct Hsz as [?|[->|[_ ->]]]; [left; lia|right; simpl; lia|right; lia].
  - intros b rest Eb. rewrite log_end_app. destruct (Hstop b rest Eb) as [?|[Hp ?]]; [by left|right].
    split; [|lia]. intros HM. rewrite HM in Hp. unfold zlen in Hp. simpl in Hp. lia.
Qed.

Lemma fetch_limit_range l max_bytes :
  in_u 32 (pc_max_frame_bytes (config_ l)) → in_s 32 max_bytes → 0 <= fetch_limit l max_bytes < 2 ^ 32.
Proof. unfold in_u, in_s, fetch_limit. simpl. bcase; lia. Qed.

Lemma log_holds_cache l d d' L c :
  log_holds l d L → store (set_segment_cache_ c l) d' L → log_holds (set_segment_cache_ c l) d' L.
Proof. intros (_ & H) Hst. exact (conj Hst H). Qed.

Lemma fetch_in_range l d L offset max_bytes :
  log_holds l d L → in_u 32 (pc_max_frame_bytes (config_ l)) → in_s 32 max_bytes → 0 <= offset <= log_end L →
  ∃ M c d', fetch offset max_bytes (l, d)
      = (Ok (mkFetchPartitionResult 0 (visible_end_of l) 0 (log_end L) (concat M)), (set_segment_cache_ c l, d')) ∧
    log_holds (set_segment_cache_ c l) d' L ∧ selects L M offset (visible_end_of l) (fetch_limit l max_bytes).
Proof.
  intros Hh Hmax Hmb Ho. pose proof Hh as (Hst & He & Hl & _). rewrite cu_next_log_end0 in Hl.
  unfold fetch. rewrite !(io_bind_ok _ _ _ l (l, d)) by done. rewrite He, Hl.
  rewrite Z.gtb_ltb. destruct (Z.ltb_spec offset 0), (Z.ltb_spec (log_end L) offset); try lia. cbn [orb].
  destruct (read_records_ok l d L offset (visible_end_of l) (fetch_limit l max_bytes) Hst ltac:(lia)
    (fetch_limit_range l max_bytes Hmax Hmb)) as (M & c & d' & Hread & Hst' & Hsel).
  exists M, c, d'. split_and!; [|by apply (log_holds_cache l d)|done].
  by rewrite (io_bind_ok _ _ _ (concat M) (set_segment_cache_ c l, d')) by exact Hread.
Qed.

(** C10: [fetch] on a log that holds the record sets [L].  An offset outside
    the log is refused with OffsetOutOfRange and nothing is read.  Otherwise
    the fetch succeeds and returns, byte for byte, the record sets from the
    one holding the offset on, as far as they are visible (below the high
    watermark, or the log end, as the partition is configured) and as fit in
    the byte limit; the first is returned even if it alone is over the limit,
    so a reader always makes progress.  Reading whole runs of frames at once
    through the segment cache is not observable, and only the cache
    changes. *)
Theorem fetch_spec l d L offset max_bytes :
  log_holds l d L → in_u 32 (pc_max_frame_bytes (config_ l)) → in_s 32 max_bytes →
  let visible := match pc_fetch_visibility (config_ l) with
    | HighWatermark => high_watermark (offsets_ l) | LeaderLocalEnd => latest (offsets_ l) end in
  let limit := if max_bytes <=? 0 then pc_max_frame_bytes (config_ l) else max_bytes in
  let result error_code := mkFetchPartitionResult error_code visible 0 (log_end L) in
  (offset < 0 ∨ log_end L < offset →
   fetch offset max_bytes (l, d) = (Ok (result (error_code_value OffsetOutOfRange) []), (l, d))) ∧
  (0 <= offset <= log_end L →
   ∃ M c d', fetch offset max_bytes (l, d) = (Ok (result 0 (concat M)), (set_segment_cache_ c l, d')) ∧
     log_holds (set_segment_cache_ c l) d' L ∧ selects L M offset visible limit).
Proof.
  intros Hh Hmax Hmb visible limit result. split; [intros Ho|by apply fetch_in_range].
  pose proof Hh as (Hst & He & Hl & _). rewrite cu_next_log_end0 in Hl.
  unfold fetch. rewrite !(io_bind_ok _ _ _ l (l, d)) by done. rewrite He, Hl, Z.gtb_ltb.
  destruct (Z.ltb_spec offset 0), (Z.ltb_spec (log_end L) offset); done || lia.
Qed.

(** [fetch_for_replica] on both branches. *)
Lemma fetch_for_replica_cases l d L offset max_bytes :
  log_holds l d L → in_u 32 (pc_max_frame_bytes (config_ l)) → in_s 32 max_bytes →
  let limit := if max_bytes <=? 0 then pc_max_frame_bytes (config_ l) else max_bytes in
  let result error_code := mkReplicaFetchResult error_code (high_watermark (offsets_ l)) (log_end L) in
  (offset < 0 ∨ log_end L < offset →
   fetch_for_replica offset max_bytes (l, d) = (Ok (result (error_code_value OffsetOutOfRange) []), (l, d))) ∧
  (0 <= offset <= log_end L →
   ∃ M c d', fetch_for_replica offset max_bytes (l, d)
       = (Ok (result 0 (concat M)), (set_segment_cache_ c l, d')) ∧
     log_holds (set_segment_cache_ c l) d' L ∧ selects L M offset (log_end L) limit ∧
     (M = [] ↔ offset = log_end L)).
Proof.
  intros Hh Hmax Hmb limit result. pose proof Hh as (Hst & He & Hl & _).
  rewrite cu_next_log_end0 in Hl.
  unfold fetch_for_replica. rewrite !(io_bind_ok _ _ _ l (l, d)) by done. rewrite He, Hl. split; intros Ho.
  - rewrite Z.gtb_ltb. destruct (Z.ltb_spec offset 0), (Z.ltb_spec (log_end L) offset); done || lia.
  - rewrite Z.gtb_ltb. destruct (Z.ltb_spec offset 0), (Z.ltb_spec (log_end L) offset); try lia. cbn [orb].
    destruct (read_records_ok l d L offset (log_end L) limit Hst ltac:(lia) (fetch_limit_range l max_bytes Hmax Hmb))
      as (M & c & d' & Hread & Hst' & Hsel).
    exists M, c, d'. split_and!; [|by apply (log_holds_cache l d)|done|].
    { by rewrite (io_bind_ok _ _ _ (concat M) (set_segment_cache_ c l, d')) by exact Hread. }
    pose proof Hst as (((HL & _) & _) & _). destruct Hsel as (L1 & L2 & EL & Hb & Hat & _ & _ & Hstop).
    rewrite EL, !Forall_app in HL. destruct HL as (HL1 & HM & HL2). subst L. rewrite !log_end_app in *. split.
    + intros ->. simpl in *. destruct L2 as [|b L2]; [simpl in *; lia|]. exfalso.
      specialize (Hstop b L2 eq_refl). apply Forall_cons in HL2 as [_ HL2]. pose proof (log_end_nonneg L2 HL2).
      destruct Hstop as [?|[? _]]; [cbn [log_end] in *; lia|done].
    + intros ->. destruct M as [|b M]; [done|]. exfalso. specialize (Hat b (M ++ L2) eq_refl).
      apply Forall_cons in HM as [_ HM]. pose proof (log_end_nonneg M HM). pose proof (log_end_nonneg L2 HL2).
      simpl in *. lia.
Qed.

(** C24: [fetch_for_replica] reads the same way but up to the log end
    whatever the visibility, and reports the leader's high watermark and log
    end: a follower at the log end gets an empty result, one behind it gets
    the next record sets. *)
Theorem fetch_for_replica_spec l d L offset max_bytes :
  log_holds l d L → in_u 32 (pc_max_frame_bytes (config_ l)) → in_s 32 max_bytes →
  let limit := if max_bytes <=? 0 then pc_max_frame_bytes (config_ l) else max_bytes in
  let result error_code := mkReplicaFetchResult error_code (high_watermark (offsets_ l)) (log_end L) in
  (offset < 0 ∨ log_end L < offset →
   fetch_for_replica offset max_bytes (l, d) = (Ok (result (error_code_value OffsetOutOfRange) []), (l, d))) ∧
  (0 <= offset <= log_end L →
   ∃ M c d', fetch_for_replica offset max_bytes (l, d)
       = (Ok (result 0 (concat M)), (set_segment_cache_ c l, d')) ∧
     log_holds (set_segment_cache_ c l) d' L ∧ selects L M offset (log_end L) limit ∧
     (M = [] ↔ offset = log_end L)).
Proof. apply fetch_for_replica_cases. Qed.
End read.
