(* ===== verification/LogRecovery.v ===== *)
(** * Recovery of a partition log

    [start] on a disk that holds a log: from its index when the index
    accounts for every segment, from the segments when it does not or is
    gone.  Either way the log that comes up holds the record sets that were
    appended. *)

From Stdlib Require Import ZArith Lia.
From stdpp Require Import base tactics numbers option sorting gmap list.
From S2P Require Import Prelude Protocol Config RecordBatch Detail Storage LogFormat PartitionLog.
From S2P Require Import LogLayout LogRep LogAppend LogRead.

Local Open Scope Z_scope.

Section recovery.
Context {St : Storage} {Laws : StorageLaws}.
Abbreviation A := alignment.

Lemma alignment_48 : 48 <= A.
Proof. pose proof alignment_range. lia. Qed.

(** ** The state while recovery scans *)

(** [l] after the entries of the record sets [L] have been noted. *)
Definition scanned (l : PartitionLogShard) (L : list bytes) : PartitionLogShard :=
  set_index_position_ (A * zlen L) (set_offsets_ (mkPartitionOffsets 0 (log_end L) (log_end L))
    (set_segments_ (segments_of A (segment_bytes_ l) L)
      (set_index_entries_ (entries A (segment_bytes_ l) L) l))).

Definition aligned (m : Z) (l : PartitionLogShard) : PartitionLogShard :=
  set_memory_dma_alignment_ m (set_index_entry_size_ A (set_log_frame_alignment_ A l)).

Lemma update_dma_alignment_ok p l d :
  ∃ m, update_dma_alignment p (l, d) = (Ok tt, (aligned m l, d)).
Proof.
  eexists. unfold update_dma_alignment. cbn [fst snd]. rewrite write_dma_alignment.
  rewrite (Z.max_r 1 A) by (pose proof alignment_range; lia). by rewrite round_up_entry.
Qed.

Lemma aligned_scanned m l L : aligned m (scanned l L) = scanned (aligned m l) L.
Proof. done. Qed.
Lemma aligned_aligned m m' l : aligned m (aligned m' l) = aligned m l.
Proof. done. Qed.

Lemma reset_scanned l : reset_recovery l = scanned (reset_recovery l) [].
Proof. unfold scanned. rewrite zlen_nil, Z.mul_0_r. done. Qed.

(** Noting the entry of the next record set. *)
Lemma scanned_snoc l L b :
  log_frame_alignment_ l = A → index_entry_size_ l = A → log_ok A (segment_bytes_ l) (L ++ [b]) →
  let e := entry_for A (segment_bytes_ l) (cursor_after A (segment_bytes_ l) cursor0 L) b in
  set_index_position_ (u64 (A * zlen L + A)) (set_offsets_ (mkPartitionOffsets 0 (ie_last_offset e + 1) (ie_last_offset e + 1))
    (note_index_entry e (scanned l L))) = scanned l (L ++ [b]) ∧
  ie_last_offset e + 1 = log_end (L ++ [b]) ∧ log_end L < log_end (L ++ [b]).
Proof.
  intros Ha Hi (HL & Hn & _) e. pose proof alignment_range as HA.
  assert (ie_last_offset e + 1 = log_end (L ++ [b])) as He.
  { unfold e. cbn [entry_for ie_last_offset]. rewrite cu_next_log_end0, log_end_app. cbn [log_end]. lia. }
  apply Forall_app in HL as [HL Hb]. apply Forall_cons in Hb as [Hb _]. pose proof (cnt_pos b Hb).
  split_and!; [|done|rewrite log_end_app; cbn [log_end]; lia].
  rewrite He. rewrite zlen_app in Hn. change (zlen [b]) with 1 in Hn. pose proof (zlen_nonneg L).
  rewrite wrap_u_id by (unfold in_u; nia).
  unfold scanned at 2. rewrite entries_snoc, segments_of_snoc, zlen_app. change (zlen [b]) with 1. fold e.
  transitivity (set_index_position_ (A * zlen L + A)
    (set_offsets_ (mkPartitionOffsets 0 (log_end (L ++ [b])) (log_end (L ++ [b])))
      (set_segments_ (note_segment (log_frame_alignment_ l) (segments_of A (segment_bytes_ l) L) e)
        (set_index_entries_ (entries A (segment_bytes_ l) L ++ [e]) l)))); [reflexivity|].
  rewrite Ha. f_equal. lia.
Qed.

(** ** Scanning the index *)

Lemma entries_at S L1 b L2 :
  entries A S (L1 ++ b :: L2)
  = entries A S L1 ++ entry_for A S (cursor_after A S cursor0 L1) b
      :: map fst (placed A S (cursor_after A S cursor0 (L1 ++ [b])) L2).
Proof. unfold entries. rewrite placed_app, cursor_after_snoc, map_app. done. Qed.

Lemma index_read S L1 b L2 :
  read_at (Z.to_nat (A * zlen L1)) (Z.to_nat A) (index_image A S (L1 ++ b :: L2))
  = encode_index_entry A (entry_for A S (cursor_after A S cursor0 L1) b).
Proof.
  pose proof (zlen_index_image A S L1 alignment_48) as H1.
  unfold index_image in *. rewrite entries_at, map_app, concat_app. cbn [map concat].
  unfold read_at. rewrite drop_app_length' by (rewrite <- H1; unfold zlen; by rewrite Nat2Z.id).
  apply take_app_length'. pose proof (zlen_encode_index_entry A
    (entry_for A S (cursor_after A S cursor0 L1) b) alignment_48) as H2.
  unfold zlen in H2. lia.
Qed.

Lemma placed_entry_ok S L eb : log_ok A S L → eb ∈ placed A S cursor0 L → entry_ok eb.1.
Proof.
  intros HL Hin. destruct (placed_ok A S alignment_range L eb HL Hin) as ([Hb0 Hb] & Hrb & ? & ? & ? & ?).
  unfold entry_ok, in_s, in_u. rewrite Hrb. assert (0 < zlen eb.2); [|split_and!; simpl; lia].
  destruct eb.2 as [|x b]; [done|]. rewrite zlen_cons. pose proof (zlen_nonneg b). lia.
Qed.

Lemma elem_at S L1 b L2 :
  (entry_for A S (cursor_after A S cursor0 L1) b, b) ∈ placed A S cursor0 (L1 ++ b :: L2).
Proof. rewrite placed_app. apply elem_of_app. right. cbn [placed]. left. Qed.

Lemma log_ok_app S L1 L2 : log_ok A S (L1 ++ L2) → log_ok A S L1.
Proof.
  intros (HL & Hn & Hx). apply Forall_app in HL as [H1 H2]. rewrite zlen_app in Hn. pose proof (zlen_nonneg L2).
  rewrite cu_next_log_end0, log_end_app in Hx. pose proof (log_end_nonneg L2 H2).
  split; [done|]. rewrite cu_next_log_end0. split; lia.
Qed.

Lemma log_ok_end S L : log_ok A S L → - 2 ^ 63 <= log_end L < 2 ^ 63.
Proof. intros (HL & _ & Hx). rewrite cu_next_log_end0 in Hx. pose proof (log_end_nonneg L HL). lia. Qed.

Lemma recover_index_loop_ok fuel l d p L1 L2 recovered :
  log_frame_alignment_ l = A → index_entry_size_ l = A → log_ok A (segment_bytes_ l) (L1 ++ L2) →
  files d !! p = Some (index_image A (segment_bytes_ l) (L1 ++ L2)) → (length L2 < fuel)%nat →
  recover_index_loop fuel p (A * zlen (L1 ++ L2)) (A * zlen L1) recovered (scanned l L1, d)
  = (Ok (recovered || bool_decide (L2 ≠ [])), (scanned l (L1 ++ L2), d)).
Proof.
  intros Ha Hi. pose proof alignment_range as HA. revert fuel L1 recovered.
  induction L2 as [|b L2 IH]; intros [|fuel] L1 recovered HL Hf Hfuel; [simpl in Hfuel; lia| |simpl in Hfuel; lia|].
  all: cbn [recover_index_loop]; rewrite (io_bind_ok _ _ _ (scanned l L1) (scanned l L1, d)) by done;
    change (index_entry_size_ (scanned l L1)) with (index_entry_size_ l); rewrite Hi.
  - pose proof HL as (_ & Hn & _). rewrite app_nil_r in *. pose proof (zlen_nonneg L1).
    rewrite wrap_u_id by (unfold in_u; nia). destruct (Z.leb_spec (A * zlen L1 + A) (A * zlen L1)); [lia|].
    by rewrite bool_decide_false, orb_false_r by (by intros ?).
  - assert (log_ok A (segment_bytes_ l) (L1 ++ [b])) as HL1.
    { apply (log_ok_app _ _ L2). by rewrite <- app_assoc. }
    pose proof HL as (_ & Hn & _). rewrite zlen_app, zlen_cons in *.
    pose proof (zlen_nonneg L1). pose proof (zlen_nonneg L2).
    rewrite !wrap_u_id by (unfold in_u; nia).
    destruct (Z.leb_spec (A * zlen L1 + A) (A * (zlen L1 + (1 + zlen L2)))); [|nia].
    set (e := entry_for A (segment_bytes_ l) (cursor_after A (segment_bytes_ l) cursor0 L1) b).
    rewrite (io_bind_ok _ _ _ (encode_index_entry A e) (scanned l L1, d)).
    2:{ unfold from_disk. cbn [snd]. rewrite (dma_read_ok _ _ _ _ _ Hf) by nia. by rewrite index_read. }
    rewrite zlen_encode_index_entry, Z.eqb_refl by lia. cbn [negb].
    rewrite <- (app_nil_r (encode_index_entry A e)), index_entry_roundtrip; [|lia|].
    2:{ apply (placed_entry_ok (segment_bytes_ l) (L1 ++ b :: L2) (e, b) HL). apply elem_at. }
    destruct (scanned_snoc l L1 b Ha Hi HL1) as (Hsn & Hend & Hlt). fold e in Hsn, Hend.
    rewrite (io_bind_ok _ _ _ tt (note_index_entry e (scanned l L1), d)) by done.
    rewrite (io_bind_ok _ _ _ (ie_last_offset e + 1) (note_index_entry e (scanned l L1), d)).
    2:{ apply checked_i64_ok. rewrite Hend. by apply (log_ok_end (segment_bytes_ l)). }
    rewrite (io_bind_ok _ _ _ tt (set_offsets_ (mkPartitionOffsets 0 (ie_last_offset e + 1) (log_end L1))
      (note_index_entry e (scanned l L1)), d)).
    2:{ unfold upd, set_latest. cbn [fst snd]. do 2 f_equal.
        change (offsets_ (note_index_entry e (scanned l L1))) with (mkPartitionOffsets 0 (log_end L1) (log_end L1)).
        cbn [earliest latest high_watermark]. by rewrite Z.max_r by lia. }
    rewrite (io_bind_ok _ _ _ tt (set_offsets_ (mkPartitionOffsets 0 (ie_last_offset e + 1) (ie_last_offset e + 1))
      (note_index_entry e (scanned l L1)), d)) by done.
    rewrite (io_bind_ok _ _ _ tt (scanned l (L1 ++ [b]), d)) by (rewrite <- Hsn; done).
    specialize (IH fuel (L1 ++ [b]) true). rewrite <- app_assoc in IH. cbn [app] in IH.
    rewrite zlen_app, !zlen_app, zlen_cons in IH. change (zlen [b]) with 1 in IH.
    replace (A * zlen L1 + A) with (A * (zlen L1 + 1)) by lia.
    rewrite IH; [|done|done|simpl in Hfuel; lia]. by rewrite (bool_decide_true (b :: L2 ≠ [])), orb_true_r.
Qed.

Lemma recover_from_index_ok l d L :
  log_ok A (segment_bytes_ l) L → files d !! index_path l = Some (index_image A (segment_bytes_ l) L) →
  ∃ m d', recover_from_index (scanned l [], d)
    = (Ok (bool_decide (L ≠ [])), (activate_last (scanned (aligned m l) L), d')) ∧ files d' = files d.
Proof.
  intros HL Hidx. destruct (open_ro_ok _ d _ Hidx) as (d' & Ho & Hf).
  destruct (update_dma_alignment_ok (index_path l) (scanned l []) d') as (m & Hu).
  exists m, d'. split; [|done]. unfold recover_from_index.
  rewrite (io_bind_ok _ _ _ (index_path l) (scanned l [], d)) by done.
  rewrite (io_bind_ok _ _ _ true (scanned (aligned m l) [], d')).
  2:{ unfold catch. rewrite (io_bind_ok _ _ _ tt (scanned l [], d')) by (by apply on_disk_ok).
      by rewrite (io_bind_ok _ _ _ tt (aligned m (scanned l []), d')) by exact Hu. }
  cbn [negb]. set (size := A * zlen ([] ++ L)).
  rewrite (io_bind_ok _ _ _ size (scanned (aligned m l) [], d')).
  2:{ unfold from_disk. cbn [snd]. rewrite (file_size_ok _ _ (index_image A (segment_bytes_ l) L)) by (by rewrite Hf).
      by rewrite zlen_index_image by apply alignment_48. }
  pose proof (recover_index_loop_ok (S (Z.to_nat size)) (aligned m l) d' (index_path l) [] L false eq_refl eq_refl) as Hloop.
  rewrite zlen_nil, Z.mul_0_r in Hloop.
  rewrite (io_bind_ok _ _ _ (bool_decide (L ≠ [])) (scanned (aligned m l) L, d')).
  - destruct L as [|b L]; [done|]. rewrite (bool_decide_true (b :: L ≠ [])) by done. done.
  - apply Hloop; [done|by rewrite Hf|]. unfold size. cbn [app]. pose proof alignment_range. unfold zlen. nia.
Qed.

Lemma recover_from_index_missing l d :
  files d !! index_path l = None → recover_from_index (l, d) = (Ok false, (l, d)).
Proof.
  intros Hn. destruct (open_ro_missing _ d Hn) as [err He]. unfold recover_from_index.
  rewrite (io_bind_ok _ _ _ (index_path l) (l, d)) by done.
  rewrite (io_bind_ok _ _ _ false (l, d)); [done|].
  unfold catch, mbind, IO_bind, on_disk. cbn [snd]. by rewrite He.
Qed.

(** ** Listing the segments *)

(** The segments on disk, in order. *)
Definition seg_list (S : Z) (L : list bytes) : list Z :=
  match L with [] => [0] | _ => map si_base_offset (segments_of A S L) end.

Lemma seg_list_ok S L :
  Forall rs_ok L → zlen L < 2 ^ 31 →
  StronglySorted Z.lt (seg_list S L) ∧ ∀ s, s ∈ seg_list S L ↔ seg_exists A S L s.
Proof.
  intros HL Hn. pose proof (segments_of_ok A S alignment_range L HL Hn) as (Hsort & Hmem & _).
  destruct L as [|b L].
  - split; [repeat constructor|]. intros s. cbn [seg_list]. rewrite list_elem_of_singleton. split; [by left|].
    intros [?|(eb & Hin & _)]; [done|]. by apply elem_of_nil in Hin.
  - split; [exact Hsort|]. intros s. cbn [seg_list]. rewrite Hmem. split; [by right|].
    intros [->|?]; [|done]. exists (entry_for A S cursor0 b, b). split; [left|]. done.
Qed.

(** Two increasing lists with the same elements are equal. *)
Lemma sorted_lt_unique (k1 k2 : list Z) :
  StronglySorted Z.lt k1 → StronglySorted Z.lt k2 → (∀ x, x ∈ k1 ↔ x ∈ k2) → k1 = k2.
Proof.
  intros H1 H2 Hmem.
  assert (∀ k, StronglySorted Z.lt k → NoDup k ∧ StronglySorted Z.le k) as Hk.
  { intros k. induction 1 as [|x k Hs [IHn IHs] Hx]; [split; constructor|]. rewrite Forall_forall in Hx.
    split; constructor; try done; [intros Hin; specialize (Hx x Hin); lia|].
    apply Forall_forall. intros y Hy. specialize (Hx y Hy). lia. }
  destruct (Hk k1 H1) as [N1 S1], (Hk k2 H2) as [N2 S2].
  apply (StronglySorted_unique Z.le); [done|done|]. by apply NoDup_Permutation.
Qed.

Lemma is_digit_not_slash ds : forallb is_digit ds = true → Byte.x2f ∉ ds.
Proof. rewrite forallb_forall. intros Hd Hin. apply list_elem_of_In in Hin. by apply Hd in Hin. Qed.

Lemma segment_name_no_slash config s :
  0 <= pc_partition config → 0 <= s < 2 ^ 63 → no_slash (segment_name config s).
Proof.
  intros Hp Hs. unfold no_slash, segment_name, segment_prefix.
  destruct (setw20_digits s Hs) as (Hd & _). rewrite !elem_of_app. intros [[Hx|[Hx|[Hx|Hx]]]|[Hx|Hx]].
  - unfold sanitized_topic_name in Hx. apply list_elem_of_fmap in Hx as (ch & E & _). repeat case_bool_decide; done.
  - apply list_elem_of_In in Hx. simpl in Hx. naive_solver.
  - by apply is_digit_not_slash in Hx; [|by apply to_string_digits].
  - apply list_elem_of_In in Hx. simpl in Hx. naive_solver.
  - by apply is_digit_not_slash in Hx.
  - apply list_elem_of_In in Hx. simpl in Hx. naive_solver.
Qed.

(** The directory scan keeps the regular entries that parse. *)
Lemma collect_segments_ok l entries :
  Forall (λ e, e.2 ≠ Some OtherEntry → segment_base_offset_from_name (config_ l) e.1 = Ok None ∨
    ∃ s, 0 <= s < 2 ^ 63 ∧ e.1 = segment_name (config_ l) s) entries →
  NoDup (map fst entries) →
  ∃ segs, collect_segments l entries = Ok (map (λ s, (s, segment_path l s)) segs) ∧ NoDup segs ∧
    ∀ s, s ∈ segs ↔ 0 <= s < 2 ^ 63 ∧
      ∃ ty, (segment_name (config_ l) s, ty) ∈ entries ∧ ty ≠ Some OtherEntry.
Proof.
  induction 1 as [|[name ty] entries Hname Hall IH]; intros Hnd.
  { exists []. split_and!; [done|constructor|]. intros s. split; [by intros ?%elem_of_nil|].
    intros (_ & ty & Hin & _). by apply elem_of_nil in Hin. }
  cbn [map fst] in Hnd. apply NoDup_cons in Hnd as [Hnot Hnd]. destruct (IH Hnd) as (segs & Hc & Hns & Hmem).
  cbn [collect_segments fst snd] in *. case_bool_decide as Hty.
  { exists segs. split_and!; [done|done|]. intros s. rewrite Hmem. setoid_rewrite elem_of_cons. naive_solver. }
  destruct (Hname Hty) as [Hnone|(s & Hs & ->)].
  - exists segs. rewrite Hnone. simpl. rewrite Hc. split_and!; [done|done|]. intros s. rewrite Hmem.
    setoid_rewrite elem_of_cons. split; [naive_solver|]. intros (Hs & ty' & [[= <- ->]|Hin] & Hty'); [|eauto].
    by rewrite segment_name_own in Hnone.
  - exists (s :: segs). rewrite segment_name_own by done. simpl. rewrite Hc. split_and!; [done| |].
    + constructor; [|done]. rewrite Hmem. intros (_ & ty' & Hin & _). apply Hnot.
      change (segment_name (config_ l) s) with (segment_name (config_ l) s, ty').1. by apply list_elem_of_fmap_2.
    + intros s'. rewrite elem_of_cons, Hmem. setoid_rewrite elem_of_cons. split.
      * intros [->|(? & ty' & ? & ?)]; [split; [done|]; exists ty; auto|split; [done|]; exists ty'; auto].
      * intros (Hs' & ty' & [[= E ->]|Hin] & Hty'); [left|right; eauto]. by apply segment_name_inj in E.
Qed.

#[local] Instance by_base_trans : Transitive by_base.
Proof. intros x y z. unfold by_base. lia. Qed.
#[local] Instance by_base_total : Total by_base.
Proof. intros x y. unfold by_base. lia. Qed.

(** [list_segment_files] lists the partition's segment files by base. *)
Lemma list_segment_files_ok l d segs :
  0 <= pc_partition (config_ l) → names_ok l (files d) → StronglySorted Z.lt segs →
  (∀ s, s ∈ segs ↔ 0 <= s < 2 ^ 63 ∧ is_Some (files d !! segment_path l s)) →
  list_segment_files (l, d) = (Ok (map (λ s, (s, segment_path l s)) segs), (l, d)).
Proof.
  intros Hp Hn Hsort Hsegs. destruct (list_directory_ok (root_ l) d) as (entries & Hl & Hnd & Hns & Hent).
  destruct (collect_segments_ok l entries) as (segs' & Hc & Hnd' & Hmem); [|done|].
  { apply Forall_forall. intros [name ty] Hin Hty. cbn [fst snd] in *.
    assert (no_slash name) as Hslash.
    { rewrite Forall_forall in Hns. apply Hns. change name with (name, ty).1. by apply list_elem_of_fmap_2. }
    apply (Hn name Hslash). apply Hent; [done|]. eauto. }
  unfold list_segment_files. rewrite (io_bind_ok _ _ _ l (l, d)) by done.
  rewrite (io_bind_ok _ _ _ true (l, d)).
  2:{ unfold catch, mbind, IO_bind, from_disk. cbn [snd]. by rewrite open_directory_ok. }
  cbn [negb]. rewrite (io_bind_ok _ _ _ entries (l, d)) by (unfold from_disk; cbn [snd]; by rewrite Hl).
  rewrite (io_bind_ok _ _ _ (map (λ s, (s, segment_path l s)) segs') (l, d)) by (unfold lift; by rewrite Hc).
  unfold mret, IO_ret. do 2 f_equal. set (f := λ s : Z, (s, segment_path l s)).
  pose proof (StronglySorted_merge_sort by_base (map f segs')) as Hms.
  pose proof (merge_sort_Permutation by_base (map f segs')) as Hperm.
  set (k := merge_sort by_base (map f segs')) in *.
  assert (k = map f (map fst k)) as Hk.
  { rewrite map_map. rewrite <- (map_id k) at 1. apply map_ext_in. intros [b p] Hin. apply list_elem_of_In in Hin.
    rewrite Hperm in Hin. apply list_elem_of_fmap in Hin as (s & [= -> ->] & _). done. }
  rewrite Hk. f_equal. apply sorted_lt_unique; [|done|].
  - assert (NoDup (map fst k)) as Hndk.
    { rewrite Hperm, map_map. cbn [fst f]. by rewrite map_id. }
    clear -Hms Hndk. induction Hms as [|x k' Hs IH Hx]; [constructor|]. cbn [map] in *.
    apply NoDup_cons in Hndk as [Hni Hnd]. constructor; [by apply IH|]. apply Forall_forall. intros y Hy.
    assert (y ≠ x.1) by (intros ->; done). apply list_elem_of_fmap in Hy as (z & -> & Hz).
    rewrite Forall_forall in Hx. specialize (Hx z Hz). unfold by_base in Hx. lia.
  - intros s. rewrite Hperm, map_map. cbn [fst f]. rewrite map_id, Hmem, Hsegs. split.
    + intros (Hs & ty & Hin & Hty). split; [done|]. apply Hent; [by apply segment_name_no_slash|eauto].
    + intros (Hs & Hex). split; [done|]. apply Hent in Hex; [done|by apply segment_name_no_slash].
Qed.

(** ** Does the index account for the segments? *)

Lemma segments_cover_ok l d segs infos content :
  (∀ s, s ∈ segs → files d !! segment_path l s = Some (content s)) → length segs = length infos →
  ∃ b d', segments_cover (map (λ s, (s, segment_path l s)) segs) infos (l, d) = (Ok b, (l, d')) ∧
    files d' = files d ∧
    (b = true ↔ Forall2 (λ s info, s = si_base_offset info ∧ zlen (content s) = si_write_position info) segs infos).
Proof.
  revert infos d. induction segs as [|s segs IH]; intros [|info infos] d Hf Hlen; try done.
  { exists true, d. split_and!; [done|done|]. split; [by constructor|done]. }
  cbn [map segments_cover]. destruct (Z.eqb_spec s (si_base_offset info)) as [Hs|Hs]; cbn [negb].
  2:{ exists false, d. split_and!; [done|done|]. split; [done|]. intros HF. apply Forall2_cons in HF. naive_solver. }
  pose proof (Hf s ltac:(left)) as Hc. destruct (open_ro_ok _ d _ Hc) as (d1 & Ho & Hf1).
  rewrite (io_bind_ok _ _ _ tt (l, d1)) by (by apply on_disk_ok).
  rewrite (io_bind_ok _ _ _ (zlen (content s)) (l, d1)).
  2:{ unfold from_disk. cbn [snd]. by rewrite (file_size_ok _ _ (content s)) by (by rewrite Hf1). }
  destruct (Z.eqb_spec (zlen (content s)) (si_write_position info)) as [Hz|Hz]; cbn [negb].
  2:{ exists false, d1. split_and!; [done|done|]. split; [done|]. intros HF. apply Forall2_cons in HF. naive_solver. }
  destruct (IH infos d1) as (b & d2 & Hr & Hf2 & Hb).
  { intros s' Hs'. rewrite Hf1. apply Hf. by right. }
  { by injection Hlen. }
  exists b, d2. split_and!; [exact Hr|by rewrite Hf2|]. rewrite Hb, Forall2_cons. naive_solver.
Qed.

(** The segments a log has grown past a prefix of it show in their sizes. *)
Lemma prefix_covers S L1 L2 :
  log_ok A S (L1 ++ L2) → L1 ≠ [] → length (seg_list S (L1 ++ L2)) = length (segments_of A S L1) →
  (Forall2 (λ s info, s = si_base_offset info ∧ zlen (image A S (L1 ++ L2) s) = si_write_position info)
     (seg_list S (L1 ++ L2)) (segments_of A S L1) ↔ L2 = []).
Proof.
  intros HL Hne Hlen. pose proof alignment_range as HA. pose proof (log_ok_app S L1 L2 HL) as (H1 & Hn1 & _).
  pose proof (segments_of_ok A S HA L1 H1 Hn1) as (Hsort1 & Hmem1 & Hwp & Hlast & Hnil). split.
  - intros HF. destruct L2 as [|b L2]; [done|]. exfalso.
    assert (seg_list S (L1 ++ b :: L2) = map si_base_offset (segments_of A S L1)) as Hbases.
    { clear -HF. induction HF as [|s info k k' [-> _] _ IH]; [done|]. cbn [map]. by rewrite IH. }
    pose proof HL as (HLall & Hnall & _). destruct (seg_list_ok S (L1 ++ b :: L2) HLall Hnall) as [_ Hmem].
    set (c := cursor_after A S cursor0 L1). set (s' := seg_for A S c b).
    apply Forall_app in HLall as [_ Hb]. apply Forall_cons in Hb as [Hb _].
    destruct (cursor_after_wf A S HA cursor0 L1 cursor0_wf H1) as (Hcw & _). fold c in Hcw.
    destruct (next_cursor_wf A S HA c b Hcw Hb) as (_ & _ & _ & _ & Hroll).
    assert (s' ∈ map si_base_offset (segments_of A S L1)) as Hs'.
    { rewrite <- Hbases, Hmem. right. eexists. split; [apply elem_at|]. done. }
    assert (seg_for A S c b = cu_seg c) as Hseg.
    { apply Hmem1 in Hs' as (eb & Hin & Heq). unfold in_segment in Heq.
      destruct (placed_bounds A S HA cursor0 L1 eb cursor0_wf H1 Hin) as (_ & Hle & _). fold c in Hle.
      unfold s', seg_for in *. destruct (rolls A S c b); [specialize (Hroll eq_refl); lia|done]. }
    apply list_elem_of_fmap in Hs' as (info & Hinfo & Hin).
    assert (zlen (image A S (L1 ++ b :: L2) s') = zlen (image A S L1 s')) as Hsz.
    { rewrite Forall_forall in Hwp. rewrite Hinfo at 2. rewrite <- (Hwp info Hin).
      apply list_elem_of_lookup in Hin as [i Hi]. destruct (Forall2_lookup_r _ _ _ i info HF Hi) as (s & Hs & -> & Hz).
      by rewrite Hinfo. }
    unfold image in Hsz. rewrite placed_app, filter_app, frames_app, zlen_app in Hsz. fold c in Hsz.
    cbn [placed] in Hsz. rewrite filter_segment_cons in Hsz. cbn [fst entry_for ie_segment_base] in Hsz.
    fold s' in Hsz. rewrite Z.eqb_refl, zlen_frames_cons in Hsz by (done || apply Hb). cbn [snd] in Hsz.
    pose proof (fsz_range A HA b (proj2 Hb)). pose proof (zlen_nonneg (frames A (filter (in_segment s')
      (placed A S (next_cursor A S c b) L2)))). lia.
  - intros ->. rewrite app_nil_r in *. destruct L1 as [|b0 L1]; [done|]. cbn [seg_list].
    apply Forall2_fmap_l. rewrite Forall_forall in Hwp. apply Forall2_same_length_lookup. split; [done|].
    intros i x y Hx Hy. rewrite Hx in Hy. injection Hy as <-. split; [done|].
    symmetry. apply Hwp. by eapply list_elem_of_lookup_2.
Qed.

(** ** Scanning a segment *)

Lemma slice_take off n m (buf : bytes) : (off + n <= m)%nat → slice off n (take m buf) = slice off n buf.
Proof.
  intros Hm. unfold slice. rewrite skipn_firstn_comm, take_take. f_equal. lia.
Qed.

(** What the scan reads of a frame, from its first [n] bytes. *)
Lemma header_fields e (b tail : bytes) n :
  zlen b < 2 ^ 31 → in_s 64 (ie_base_offset e) → (20 <= n)%nat →
  let h := take n (frame_of A (e, b) ++ tail) in
  memcmp_eq h 0 kLogMagic = true ∧ get_i64 8 h = ie_base_offset e ∧ get_i32 16 h = zlen b ∧
  ((20 + length b <= n)%nat → slice 20 (length b) h = b).
Proof.
  intros Hb He Hn h.
  destruct (log_frame_fields A (mkRecordSet (ie_base_offset e) (ie_last_offset e) b) tail alignment_range Hb He)
    as (F1 & F2 & F3 & F4). change (log_frame A _) with (frame_of A (e, b)) in F1, F2, F3, F4.
  unfold memcmp_eq, get_i64, get_i32, h in *. cbn [rs_bytes rs_base_offset] in *.
  rewrite !slice_take by (change (length kLogMagic) with 8%nat; lia). split_and!; try done.
  intros Hl. by rewrite slice_take by lia.
Qed.

(** A frame of the segment under the scan. *)
Lemma scan_frame e b (pre tail : bytes) p d :
  zlen b < 2 ^ 31 → in_s 64 (ie_base_offset e) →
  files d !! p = Some (pre ++ frame_of A (e, b) ++ tail) →
  (∃ h, dma_read p (zlen pre) A d = Ok h ∧ zlen h = A ∧ memcmp_eq h 0 kLogMagic = true ∧
     get_i64 8 h = ie_base_offset e ∧ get_i32 16 h = zlen b ∧
     (fsz A b = A → slice 20 (Z.to_nat (zlen b)) h = b)) ∧
  (∃ f, dma_read p (zlen pre) (fsz A b) d = Ok f ∧ zlen f = fsz A b ∧ memcmp_eq f 0 kLogMagic = true ∧
     get_i64 8 f = ie_base_offset e ∧ get_i32 16 f = zlen b ∧ slice 20 (Z.to_nat (zlen b)) f = b).
Proof.
  intros Hb He Hf. pose proof alignment_range as HA. pose proof (fsz_range A HA b Hb) as (Hfs & HfA & _).
  pose proof (zlen_frame_of A HA (e, b) Hb) as Hzf. cbn [snd] in Hzf. pose proof (zlen_nonneg b).
  assert (∀ n, A <= n <= fsz A b → dma_read p (zlen pre) n d = Ok (take (Z.to_nat n) (frame_of A (e, b) ++ tail))) as Hread.
  { intros n Hn. rewrite (dma_read_ok _ _ _ _ _ Hf) by (pose proof (zlen_nonneg pre); lia). unfold read_at, zlen.
    by rewrite Nat2Z.id, drop_app_length. }
  assert (Z.to_nat (zlen b) = length b) as -> by (unfold zlen; lia).
  assert (∀ n, A <= n <= fsz A b → zlen (take (Z.to_nat n) (frame_of A (e, b) ++ tail)) = n) as Hlen.
  { intros n Hn. unfold zlen in *. rewrite length_take, length_app. lia. }
  split.
  - eexists. split; [apply Hread; lia|]. split; [apply Hlen; lia|].
    destruct (header_fields e b tail (Z.to_nat A) Hb He ltac:(lia)) as (F1 & F2 & F3 & F4). split_and!; try done.
    intros E. apply F4. unfold zlen in *. lia.
  - eexists. split; [apply Hread; lia|]. split; [apply Hlen; lia|].
    destruct (header_fields e b tail (Z.to_nat (fsz A b)) Hb He ltac:(lia)) as (F1 & F2 & F3 & F4). split_and!; try done.
    apply F4. unfold zlen in *. lia.
Qed.

(** The scan's bookkeeping for a frame it accepts: the entry is noted and
    rewritten to the index, and the end offsets move past it. *)
Lemma rebuild_entry l d d' idx L b (k : IO World Z) :
  log_frame_alignment_ l = A → index_entry_size_ l = A → log_ok A (segment_bytes_ l) (L ++ [b]) →
  let e := entry_for A (segment_bytes_ l) (cursor_after A (segment_bytes_ l) cursor0 L) b in
  dma_write idx (A * zlen L) (encode_index_entry A e) d = Ok d' →
  (upd (note_index_entry e);;
   write_rebuilt_index_entry idx e (A * zlen L);;
   upd (λ l, set_index_position_ (u64 (index_position_ l + index_entry_size_ l)) l);;
   upd (set_latest (ie_last_offset e + 1));;
   upd (set_high_watermark (ie_last_offset e + 1));; k) (scanned l L, d)
  = k (scanned l (L ++ [b]), d').
Proof.
  intros Ha Hi HL e Hw. destruct (scanned_snoc l L b Ha Hi HL) as (Hsn & Hend & _). fold e in Hsn, Hend.
  set (l1 := note_index_entry e (scanned l L)). assert (index_entry_size_ l1 = A) as Hi1 by exact Hi.
  rewrite (io_bind_ok _ _ _ tt (l1, d)) by done.
  rewrite (io_bind_ok _ _ _ tt (l1, d')).
  2:{ unfold write_rebuilt_index_entry. rewrite (io_bind_ok _ _ _ l1 (l1, d)) by done.
      apply on_disk_ok. by rewrite Hi1. }
  set (l2 := set_index_position_ (u64 (A * zlen L + A)) l1).
  rewrite (io_bind_ok _ _ _ tt (l2, d')) by (unfold l2, upd; cbn [fst snd]; by rewrite Hi1).
  rewrite (io_bind_ok _ _ _ tt (set_offsets_ (mkPartitionOffsets 0 (ie_last_offset e + 1) (log_end L)) l2, d')) by done.
  by rewrite (io_bind_ok _ _ _ tt (scanned l (L ++ [b]), d')) by (rewrite <- Hsn; done).
Qed.

(** One round of the scan notes the frame's entry and rewrites it to the
    index. *)
Lemma scan_step fuel l d p idx s L b (pre tail : bytes) :
  log_frame_alignment_ l = A → index_entry_size_ l = A → log_ok A (segment_bytes_ l) (L ++ [b]) →
  let e := entry_for A (segment_bytes_ l) (cursor_after A (segment_bytes_ l) cursor0 L) b in
  let content := pre ++ frame_of A (e, b) ++ tail in
  ie_segment_base e = s → ie_segment_position e = zlen pre → zlen content < 2 ^ 63 →
  files d !! p = Some content → files d !! idx = Some (index_image A (segment_bytes_ l) L) →
  ∃ d', recover_segment_loop (S fuel) s p idx (zlen content) (zlen pre) (A * zlen L) (scanned l L, d)
    = recover_segment_loop fuel s p idx (zlen content) (zlen (pre ++ frame_of A (e, b)))
        (A * zlen (L ++ [b])) (scanned l (L ++ [b]), d') ∧
    files d' = <[idx := index_image A (segment_bytes_ l) (L ++ [b])]> (files d).
Proof.
  intros Ha Hi HL e content <- Hpos Hsz Hf Hidx. pose proof alignment_range as HA.
  pose proof HL as (HLr & Hn & Hnext). apply Forall_app in HLr as [HL0 Hb]. apply Forall_cons in Hb as [Hb _].
  destruct (placed_ok A (segment_bytes_ l) HA (L ++ [b]) (e, b) HL (elem_at _ L b [])) as (_ & Hrb & Hbl & Hl63 & _).
  cbn [fst snd] in Hrb, Hbl, Hl63. pose proof (cnt_pos b Hb) as Hcnt.
  assert (ie_last_offset e = ie_base_offset e + cnt b - 1) as Hlo by done.
  destruct (scan_frame e b pre tail p d (proj2 Hb) ltac:(unfold in_s; lia) Hf) as
    ((h & Hh & Hhl & Hh1 & Hh2 & Hh3 & Hh4) & (f & Hfr & Hfl & Hf1 & Hf2 & Hf3 & Hf4)).
  pose proof (fsz_range A HA b (proj2 Hb)) as (Hfs & HfA & _). pose proof (zlen_nonneg pre). pose proof (zlen_nonneg tail).
  pose proof (zlen_frame_of A HA (e, b) (proj2 Hb)) as Hzf. cbn [snd] in Hzf. pose proof (zlen_nonneg b).
  assert (1 <= zlen b) as Hb1.
  { destruct Hb as [Hb0 _]. destruct b as [|x b']; [done|]. rewrite zlen_cons. pose proof (zlen_nonneg b'). lia. }
  assert (zlen content = zlen pre + fsz A b + zlen tail) as Hcl by (unfold content; rewrite !zlen_app, Hzf; lia).
  destruct (scanned_snoc l L b Ha Hi HL) as (_ & Hend & _). fold e in Hend.
  rewrite cu_next_log_end0 in Hnext.
  pose proof (zlen_nonneg L). assert (0 <= A * zlen L) as HAL by nia.
  destruct (dma_write_ok idx (A * zlen L) (encode_index_entry A e) d _ Hidx HAL)
    as (d' & Hw & Hfw). rewrite write_at_zlen in Hfw by (by apply zlen_index_image, alignment_48).
  unfold e in Hfw. rewrite <- index_image_snoc in Hfw.
  exists d'. split; [|exact Hfw]. cbn [recover_segment_loop].
  rewrite (io_bind_ok _ _ _ (scanned l L) (scanned l L, d)) by done.
  change (log_frame_alignment_ (scanned l L)) with (log_frame_alignment_ l). rewrite Ha.
  rewrite (wrap_u_id 64 (zlen pre + A)) by (unfold in_u; lia).
  destruct (Z.leb_spec (zlen pre + A) (zlen content)); [|lia].
  rewrite (io_bind_ok _ _ _ h (scanned l L, d)) by (unfold from_disk; cbn [snd]; by rewrite Hh).
  rewrite Hhl, Z.eqb_refl, Hh1. cbn [negb orb]. rewrite Hh2, Hh3. destruct (Z.leb_spec (zlen b) 0); [lia|].
  rewrite (frame_size_of_fsz A b (proj2 Hb)), (wrap_u_id 64 (zlen pre + fsz A b)) by (unfold in_u; lia).
  rewrite Z.gtb_ltb. destruct (Z.ltb_spec (zlen content) (zlen pre + fsz A b)); [lia|].
  rewrite (io_bind_ok _ _ _ (Some b) (scanned l L, d)).
  2:{ destruct (Z.eqb_spec (fsz A b) A) as [E|_]; [unfold mret, IO_ret; by rewrite Hh4|].
      rewrite (io_bind_ok _ _ _ f (scanned l L, d)) by (unfold from_disk; cbn [snd]; by rewrite Hfr).
      rewrite Hfl, Hf1, Hf2, Hf3, !Z.eqb_refl, Hf4. done. }
  cbv beta iota. rewrite (io_bind_ok _ _ _ (cnt b) (scanned l L, d)) by (unfold lift; by rewrite (proj1 (cnt_ok b (proj2 Hb)))).
  rewrite (io_bind_ok _ _ _ (ie_base_offset e + cnt b) (scanned l L, d)) by (apply checked_i64_ok; lia).
  assert (mkIndexEntry (ie_base_offset e) (ie_base_offset e + cnt b - 1) (ie_segment_base e) (zlen pre) (zlen b) = e) as ->.
  { rewrite <- Hpos. done. }
  replace (ie_base_offset e + cnt b) with (ie_last_offset e + 1) by lia.
  rewrite (rebuild_entry l d d' idx L b _ Ha Hi HL Hw).
  change (index_entry_size_ (scanned l L)) with (index_entry_size_ l). rewrite Hi, !zlen_app, Hzf.
  rewrite zlen_app in Hn. change (zlen [b]) with 1 in *.
  rewrite wrap_u_id by (unfold in_u; nia). do 2 f_equal. lia.
Qed.

Lemma image_bound S L s : log_ok A S L → zlen (image A S L s) < 2 ^ 63.
Proof.
  intros HL. pose proof HL as (_ & Hn & _).
  pose proof (frames_bound A S alignment_range L (filter (in_segment s) (placed A S cursor0 L)) HL) as Hb.
  assert (zlen (filter (in_segment s) (placed A S cursor0 L)) <= zlen L).
  { unfold zlen. rewrite <- (length_placed A S cursor0 L). apply inj_le, length_filter. }
  unfold image. enough (zlen (frames A (filter (in_segment s) (placed A S cursor0 L)))
    <= 2 ^ 32 * zlen (filter (in_segment s) (placed A S cursor0 L))) by lia.
  apply Hb. intros x Hx. by apply list_elem_of_filter in Hx as [_ ?].
Qed.

Lemma image_app S L1 M s :
  image A S (L1 ++ M) s
  = image A S L1 s ++ frames A (filter (in_segment s) (placed A S (cursor_after A S cursor0 L1) M)).
Proof. unfold image. by rewrite placed_app, filter_app, frames_app. Qed.

(** The scan of one segment. *)
Lemma scan_segment fuel l d p idx s L1 M :
  log_frame_alignment_ l = A → index_entry_size_ l = A → log_ok A (segment_bytes_ l) (L1 ++ M) →
  Forall (in_segment s) (placed A (segment_bytes_ l) (cursor_after A (segment_bytes_ l) cursor0 L1) M) →
  files d !! p = Some (image A (segment_bytes_ l) (L1 ++ M) s) → p ≠ idx →
  files d !! idx = Some (index_image A (segment_bytes_ l) L1) → (length M < fuel)%nat →
  ∃ d', recover_segment_loop fuel s p idx (zlen (image A (segment_bytes_ l) (L1 ++ M) s))
      (zlen (image A (segment_bytes_ l) L1 s)) (A * zlen L1) (scanned l L1, d)
    = (Ok (A * zlen (L1 ++ M)), (scanned l (L1 ++ M), d')) ∧
    files d' = <[idx := index_image A (segment_bytes_ l) (L1 ++ M)]> (files d).
Proof.
  intros Ha Hi. revert fuel d L1. induction M as [|b M IH]; intros [|fuel] d L1 HL Hseg Hf Hne Hidx Hfuel;
    [simpl in Hfuel; lia| |simpl in Hfuel; lia|]; set (S := segment_bytes_ l) in *.
  - rewrite app_nil_r in *. exists d. split; [|by rewrite insert_id]. cbn [recover_segment_loop].
    rewrite (io_bind_ok _ _ _ (scanned l L1) (scanned l L1, d)) by done.
    change (log_frame_alignment_ (scanned l L1)) with (log_frame_alignment_ l). rewrite Ha.
    pose proof (image_bound S L1 s HL). pose proof (zlen_nonneg (image A S L1 s)). pose proof alignment_range.
    rewrite wrap_u_id by (unfold in_u; lia).
    by destruct (Z.leb_spec (zlen (image A S L1 s) + A) (zlen (image A S L1 s))); [lia|].
  - set (c := cursor_after A S cursor0 L1) in *. cbn [placed] in Hseg. apply Forall_cons in Hseg as [Hs Hseg].
    set (e := entry_for A S c b) in *. unfold in_segment in Hs. cbn [fst] in Hs.
    assert (log_ok A S (L1 ++ [b])) as HL1 by (apply (log_ok_app S _ M); by rewrite <- app_assoc).
    assert (image A S (L1 ++ b :: M) s
      = image A S L1 s ++ frame_of A (e, b) ++ frames A (placed A S (next_cursor A S c b) M)) as Himg.
    { rewrite image_app. fold c. cbn [placed]. rewrite filter_all by (by constructor). done. }
    assert (ie_segment_position e = zlen (image A S L1 s)) as Hpos.
    { rewrite (entry_position A S alignment_range (L1 ++ b :: M) (placed A S cursor0 L1) e b
        (placed A S (next_cursor A S c b) M) (proj1 HL)); [by rewrite Hs|]. rewrite placed_app. done. }
    pose proof (image_bound S _ s HL) as Hbound. rewrite Himg in Hbound, Hf |- *.
    destruct (scan_step fuel l d p idx s L1 b _ _ Ha Hi HL1 Hs Hpos Hbound Hf Hidx) as (d1 & Hstep & Hf1).
    fold S c e in Hstep, Hf1. rewrite Hstep.
    destruct (IH fuel d1 (L1 ++ [b])) as (d2 & Hloop & Hf2).
    + by rewrite <- app_assoc.
    + rewrite cursor_after_snoc. exact Hseg.
    + rewrite <- app_assoc. cbn [app]. rewrite Hf1, lookup_insert_ne, Himg by done. exact Hf.
    + done.
    + by rewrite Hf1, lookup_insert_eq.
    + simpl in Hfuel. lia.
    + exists d2. rewrite <- !app_assoc in Hloop, Hf2. cbn [app] in Hloop, Hf2. split.
      * rewrite <- Hloop. fold S. rewrite Himg, image_snoc. fold c.
        change (seg_for A S c b) with (ie_segment_base e). rewrite Hs, Z.eqb_refl. done.
      * rewrite Hf2, Hf1. by rewrite insert_insert_eq.
Qed.

(** Record sets fill the segments in order. *)
Lemma split_segment S s c M :
  cursor_wf c → Forall rs_ok M → (∀ eb, eb ∈ placed A S c M → s <= ie_segment_base eb.1) →
  ∃ M1 M2, M = M1 ++ M2 ∧ Forall (in_segment s) (placed A S c M1) ∧
    ∀ eb, eb ∈ placed A S (cursor_after A S c M1) M2 → s < ie_segment_base eb.1.
Proof.
  pose proof alignment_range as HA. intros Hc HM. revert c Hc. induction HM as [|b M Hb HM IH]; intros c Hc Hle.
  { exists [], []. split_and!; [done|constructor|]. intros eb Hin. by apply elem_of_nil in Hin. }
  destruct (next_cursor_wf A S HA c b Hc Hb) as (Hc' & _). cbn [placed] in Hle.
  destruct (decide (ie_segment_base (entry_for A S c b) = s)) as [Hs|Hs].
  - destruct (IH _ Hc') as (M1 & M2 & -> & H1 & H2); [intros eb Hin; apply Hle; by right|].
    exists (b :: M1), M2. split_and!; [done| |done]. cbn [placed]. by constructor.
  - exists [], (b :: M). split_and!; [done|constructor|]. intros eb Hin. cbn [cursor_after fold_left placed] in Hin.
    specialize (Hle (entry_for A S c b, b) ltac:(left)) as Hlt. cbn [fst] in Hlt.
    apply elem_of_cons in Hin as [->|Hin]; [cbn [fst]; lia|].
    destruct (placed_bounds A S HA _ M eb Hc' HM Hin) as (_ & Hseg & _). cbn [next_cursor cu_seg] in Hseg.
    change (seg_for A S c b) with (ie_segment_base (entry_for A S c b)) in Hseg. lia.
Qed.

(** [l], with the alignments set if a file was opened. *)
Definition realigned (l l' : PartitionLogShard) : Prop := l' = l ∨ ∃ m, l' = aligned m l.

Lemma realigned_trans m l l' : realigned (aligned m l) l' → ∃ m', l' = aligned m' l.
Proof. intros [->|[m' ->]]; eauto. Qed.

Lemma recover_segment_file_ok l d idx s L1 M :
  log_ok A (segment_bytes_ l) (L1 ++ M) → image A (segment_bytes_ l) L1 s = [] →
  Forall (in_segment s) (placed A (segment_bytes_ l) (cursor_after A (segment_bytes_ l) cursor0 L1) M) →
  files d !! segment_path l s = Some (image A (segment_bytes_ l) (L1 ++ M) s) → segment_path l s ≠ idx →
  files d !! idx = Some (index_image A (segment_bytes_ l) L1) →
  ∃ m d', recover_segment_file s (segment_path l s) idx (A * zlen L1) (scanned l L1, d)
    = (Ok (A * zlen (L1 ++ M)), (scanned (aligned m l) (L1 ++ M), d')) ∧
    files d' = <[idx := index_image A (segment_bytes_ l) (L1 ++ M)]> (files d).
Proof.
  intros HL Hnil Hseg Hf Hne Hidx. destruct (open_ro_ok _ d _ Hf) as (d1 & Ho & Hf1).
  destruct (update_dma_alignment_ok (segment_path l s) (scanned l L1) d1) as (m & Hu).
  set (content := image A (segment_bytes_ l) (L1 ++ M) s) in *.
  destruct (scan_segment (S (Z.to_nat (zlen content))) (aligned m l) d1 (segment_path l s) idx s L1 M)
    as (d2 & Hscan & Hf2); try done.
  - by rewrite Hf1.
  - by rewrite Hf1.
  - unfold content. rewrite image_app, Hnil. cbn [app]. rewrite filter_all by done.
    pose proof HL as (HLr & _ & _). apply Forall_app in HLr as [_ HM].
    assert (∀ c, (length M <= length (frames A (placed A (segment_bytes_ l) c M)))%nat) as Hlen.
    { clear -HM. induction HM as [|b M Hb _ IH]; intros c; [simpl; lia|]. cbn [placed].
      pose proof (zlen_frames_cons A alignment_range (entry_for A (segment_bytes_ l) c b, b)
        (placed A (segment_bytes_ l) (next_cursor A (segment_bytes_ l) c b) M) (proj2 Hb)) as E.
      pose proof (fsz_range A alignment_range b (proj2 Hb)) as (? & _). pose proof (zlen_nonneg b).
      cbn [snd] in E. specialize (IH (next_cursor A (segment_bytes_ l) c b)). unfold zlen in *. simpl length at 1. lia. }
    specialize (Hlen (cursor_after A (segment_bytes_ l) cursor0 L1)). unfold zlen. lia.
  - exists m, d2. split; [|by rewrite Hf2, Hf1]. unfold recover_segment_file.
    rewrite (io_bind_ok _ _ _ tt (scanned l L1, d1)) by (by apply on_disk_ok).
    rewrite (io_bind_ok _ _ _ tt (aligned m (scanned l L1), d1)) by exact Hu.
    rewrite (io_bind_ok _ _ _ (zlen content) (scanned (aligned m l) L1, d1)).
    2:{ unfold from_disk. cbn [snd]. by rewrite (file_size_ok _ _ content) by (by rewrite Hf1). }
    change (segment_bytes_ (aligned m l)) with (segment_bytes_ l) in Hscan. rewrite Hnil in Hscan. exact Hscan.
Qed.

Lemma recover_segment_files_ok l d idx segs L1 M :
  log_ok A (segment_bytes_ l) (L1 ++ M) → StronglySorted Z.lt segs → (∀ s, segment_path l s ≠ idx) →
  (∀ s eb, s ∈ segs → eb ∈ placed A (segment_bytes_ l) cursor0 L1 → ie_segment_base eb.1 < s) →
  (∀ eb, eb ∈ placed A (segment_bytes_ l) (cursor_after A (segment_bytes_ l) cursor0 L1) M →
     ie_segment_base eb.1 ∈ segs) →
  (∀ s, s ∈ segs → files d !! segment_path l s = Some (image A (segment_bytes_ l) (L1 ++ M) s)) →
  files d !! idx = Some (index_image A (segment_bytes_ l) L1) →
  ∃ l' d', recover_segment_files (map (λ s, (s, segment_path l s)) segs) idx (A * zlen L1) (scanned l L1, d)
    = (Ok (A * zlen (L1 ++ M)), (scanned l' (L1 ++ M), d')) ∧ realigned l l' ∧
    files d' = <[idx := index_image A (segment_bytes_ l) (L1 ++ M)]> (files d).
Proof.
  intros HL Hsort Hne. revert l d L1 M HL Hne.
  induction Hsort as [|s segs Hsort IH Hlt]; intros l d L1 M HL Hne Hbefore Hin Hf Hidx.
  { destruct M as [|b M].
    - exists l, d. rewrite app_nil_r. split_and!; [done|by left|]. by rewrite insert_id.
    - specialize (Hin (entry_for A (segment_bytes_ l) (cursor_after A (segment_bytes_ l) cursor0 L1) b, b) ltac:(left)).
      by apply elem_of_nil in Hin. }
  set (S := segment_bytes_ l) in *. rewrite Forall_forall in Hlt. pose proof HL as (HLr & _ & _).
  apply Forall_app in HLr as [HL1 HM].
  destruct (cursor_after_wf A S alignment_range cursor0 L1 cursor0_wf HL1) as (Hcw & _).
  destruct (split_segment S s (cursor_after A S cursor0 L1) M Hcw HM) as (M1 & M2 & -> & Hs1 & Hs2).
  { intros eb Heb. apply Hin, elem_of_cons in Heb as [->|Heb]; [lia|]. specialize (Hlt _ Heb). lia. }
  rewrite <- cursor_after_app in Hs2. rewrite app_assoc in *.
  assert (∀ s', s' ∈ s :: segs → ∀ eb, eb ∈ placed A S cursor0 (L1 ++ M1) → ie_segment_base eb.1 = s' → s' = s) as Hcur.
  { intros s' Hs' eb Heb E. rewrite placed_app in Heb. apply elem_of_app in Heb as [Heb|Heb].
    - specialize (Hbefore s' eb Hs' Heb). lia.
    - rewrite Forall_forall in Hs1. specialize (Hs1 eb Heb). unfold in_segment in Hs1. lia. }
  assert (image A S ((L1 ++ M1) ++ M2) s = image A S (L1 ++ M1) s) as Himg.
  { rewrite image_app, filter_none; [by rewrite app_nil_r|]. intros eb Heb. specialize (Hs2 eb Heb). lia. }
  destruct (recover_segment_file_ok l d idx s L1 M1) as (m & d1 & Hfile & Hf1); fold S.
  - by apply (log_ok_app S _ M2).
  - apply image_empty. intros eb Heb. specialize (Hbefore s eb ltac:(left) Heb). lia.
  - done.
  - rewrite (Hf s ltac:(left)), Himg. done.
  - apply Hne.
  - done.
  - destruct (IH (aligned m l) d1 (L1 ++ M1) M2) as (l' & d2 & Hrest & Hl' & Hf2); fold S; try done.
    + intros s' eb Hs' Heb. destruct (decide (ie_segment_base eb.1 = s)) as [->|Hns]; [by apply Hlt|].
      rewrite placed_app in Heb. apply elem_of_app in Heb as [Heb|Heb]; [apply (Hbefore s'); [by right|done]|].
      rewrite Forall_forall in Hs1. by specialize (Hs1 eb Heb).
    + intros eb Heb. assert (ie_segment_base eb.1 ∈ s :: segs) as Hx.
      { apply Hin. rewrite placed_app. apply elem_of_app. right. by rewrite <- cursor_after_app. }
      apply elem_of_cons in Hx as [Hx|Hx]; [|done]. specialize (Hs2 eb Heb). lia.
    + intros s' Hs'. rewrite Hf1, lookup_insert_ne by (intros E; by apply (Hne s')). apply Hf. by right.
    + by rewrite Hf1, lookup_insert_eq.
    + exists l', d2. apply realigned_trans in Hl' as [m' ->]. split_and!; [|right; eauto|].
      * cbn [map recover_segment_files].
        rewrite (io_bind_ok _ _ _ (A * zlen (L1 ++ M1)) (scanned (aligned m l) (L1 ++ M1), d1)) by exact Hfile.
        exact Hrest.
      * change (segment_bytes_ (aligned m l)) with S in Hf2. by rewrite Hf2, Hf1, insert_insert_eq.
Qed.

(** ** Recovery as a whole *)

(** The disk holds the record sets [L]: every segment is complete, and the
    index is missing or accounts for the first of them only.  A partition
    that was never started may have no file at all. *)
Definition disk_holds (l : PartitionLogShard) (d : Disk) (L : list bytes) : Prop :=
  (files d !! index_path l = None ∨
   ∃ L1 L2, L = L1 ++ L2 ∧ files d !! index_path l = Some (index_image A (segment_bytes_ l) L1)) ∧
  (∀ s, seg_exists A (segment_bytes_ l) L s →
     files d !! segment_path l s = Some (image A (segment_bytes_ l) L s) ∨
     (L = [] ∧ files d !! segment_path l s = None)) ∧
  (∀ s, 0 <= s < 2 ^ 63 → ¬ seg_exists A (segment_bytes_ l) L s → files d !! segment_path l s = None) ∧
  names_ok l (files d).

(** The segment files there are. *)
Lemma disk_segments l d L :
  log_ok A (segment_bytes_ l) L → disk_holds l d L →
  ∃ segs, StronglySorted Z.lt segs ∧
    (∀ s, s ∈ segs ↔ 0 <= s < 2 ^ 63 ∧ is_Some (files d !! segment_path l s)) ∧
    (∀ s, s ∈ segs → files d !! segment_path l s = Some (image A (segment_bytes_ l) L s)) ∧
    (L ≠ [] → segs = seg_list (segment_bytes_ l) L) ∧ (segs = [] → L = []).
Proof.
  intros HL (_ & Hseg & Hno & _). pose proof HL as (HLr & Hn & _). set (S := segment_bytes_ l) in *.
  destruct (seg_list_ok S L HLr Hn) as [Hsort Hmem].
  assert (∀ s, seg_exists A S L s → 0 <= s < 2 ^ 63) as Hrange.
  { intros s Hs. pose proof (seg_exists_range A S L s alignment_range HL Hs). lia. }
  assert ((∀ s, seg_exists A S L s → files d !! segment_path l s = Some (image A S L s)) ∨
    (L = [] ∧ files d !! segment_path l 0 = None)) as [Hall|[-> H0]].
  { destruct L as [|b L]; [|left; intros s Hs; destruct (Hseg s Hs) as [?|[? _]]; done].
    destruct (Hseg 0 ltac:(by left)) as [H0|[_ H0]]; [left|by right].
    intros s [->|(eb & Hin & _)]; [done|]. by apply elem_of_nil in Hin. }
  - exists (seg_list S L). split_and!; [done| |by intros s Hs%Hmem; apply Hall|done|].
    + intros s. rewrite Hmem. split; [intros Hs; split; [by apply Hrange|by rewrite Hall]|].
      intros [Hs Hex]. destruct (decide (s ∈ seg_list S L)) as [Hin|Hin]; rewrite Hmem in Hin; [done|].
      rewrite Hno in Hex by done. by destruct Hex.
    + intros E. destruct L as [|b L]; [done|]. assert (0 ∈ seg_list S (b :: L)) as H0 by (apply Hmem; by left).
      rewrite E in H0. by apply elem_of_nil in H0.
  - exists []. split_and!; [constructor| |intros s Hs; by apply elem_of_nil in Hs|done|done].
    intros s. split; [intros Hs; by apply elem_of_nil in Hs|]. intros [Hs Hex]. exfalso.
    destruct (decide (s = 0)) as [->|Hs0]; [rewrite H0 in Hex; by destruct Hex|].
    rewrite Hno in Hex; [by destruct Hex|done|]. intros [?|(eb & Hin & _)]; [done|]. by apply elem_of_nil in Hin.
Qed.

Lemma activate_scanned l L :
  log_ok A (segment_bytes_ l) L → active_segment_base_offset_ l = 0 → write_position_ l = 0 →
  let c := cursor_after A (segment_bytes_ l) cursor0 L in
  activate_last (scanned l L) = set_write_position_ (cu_pos c) (set_active_segment_base_offset_ (cu_seg c) (scanned l L)).
Proof.
  intros (HL & Hn & _) Ha Hw c.
  destruct (segments_of_ok A (segment_bytes_ l) alignment_range L HL Hn) as (_ & _ & Hwp & Hlast & Hnil).
  unfold activate_last. change (segments_ (scanned l L)) with (segments_of A (segment_bytes_ l) L).
  destruct (last (segments_of A (segment_bytes_ l) L)) as [info|] eqn:E.
  - specialize (Hlast info eq_refl). fold c in Hlast. rewrite Hlast. f_equal.
    rewrite Forall_forall in Hwp. rewrite (Hwp info), Hlast.
    + symmetry. unfold c. apply cursor_pos0; [apply alignment_range|done].
    + apply last_Some in E as [k ->]. apply elem_of_app. right. by left.
  - apply last_None in E. specialize (Hnil E) as ->. simpl. destruct l. simpl in *. by subst.
Qed.

Lemma recover_from_segments_ok l d L :
  log_ok A (segment_bytes_ l) L → disk_holds l d L → 0 <= pc_partition (config_ l) →
  active_segment_base_offset_ l = 0 → write_position_ l = 0 →
  ∃ l' d', recover_from_segments (scanned l [], d) = (Ok tt, (activate_last (scanned l' L), d')) ∧
    realigned l l' ∧ files d' = <[index_path l := index_image A (segment_bytes_ l) L]> (files d).
Proof.
  intros HL Hd Hp Ha Hw. destruct (disk_segments l d L HL Hd) as (segs & Hsort & Hmem & Hf & Heq & Hnil).
  pose proof Hd as (_ & _ & _ & Hnames).
  destruct (open_truncate (index_path l) d) as (d1 & Ho & Hf1).
  destruct (recover_segment_files_ok l d1 (index_path l) segs [] L) as (l' & d2 & Hrec & Hl' & Hf2); try done.
  - intros s. apply segment_path_not_index.
  - intros s eb _ Hin. by apply elem_of_nil in Hin.
  - intros eb Hin. destruct L as [|b L]; [by apply elem_of_nil in Hin|]. rewrite Heq by done.
    pose proof HL as (HLr & Hn & _). destruct (seg_list_ok (segment_bytes_ l) (b :: L) HLr Hn) as [_ Hm].
    apply Hm. right. by exists eb.
  - intros s Hs. rewrite Hf1, lookup_insert_ne by (apply not_eq_sym, segment_path_not_index). by apply Hf.
  - by rewrite Hf1, lookup_insert_eq.
  - exists l', d2. split_and!; [|done|by rewrite Hf2, Hf1, insert_insert_eq].
    unfold recover_from_segments.
    rewrite (io_bind_ok _ _ _ (map (λ s, (s, segment_path l s)) segs) (scanned l [], d)).
    2:{ exact (list_segment_files_ok (scanned l []) d segs Hp Hnames Hsort Hmem). }
    rewrite (io_bind_ok _ _ _ (index_path l) (scanned l [], d)) by done.
    rewrite (io_bind_ok _ _ _ tt (scanned l [], d1)) by (by apply on_disk_ok).
    rewrite zlen_nil, Z.mul_0_r in Hrec.
    rewrite (io_bind_ok _ _ _ (A * zlen L) (scanned l' L, d2)) by exact Hrec.
    case_bool_decide as E; [|done]. apply map_eq_nil in E. specialize (Hnil E) as ->.
    unfold upd. cbn [fst snd]. do 2 f_equal. simpl. destruct Hl' as [->|[m ->]]; destruct l; simpl in *; by subst.
Qed.

(** The check of the index against the segments. *)
Lemma recovered_index_covers_ok l d L1 L2 :
  log_ok A (segment_bytes_ l) (L1 ++ L2) → disk_holds l d (L1 ++ L2) → 0 <= pc_partition (config_ l) →
  segments_ l = segments_of A (segment_bytes_ l) L1 → L1 ≠ [] →
  ∃ d', recovered_index_covers_segments (l, d) = (Ok (bool_decide (L2 = [])), (l, d')) ∧ files d' = files d.
Proof.
  intros HL Hd Hp Hsegs Hne. destruct (disk_segments l d _ HL Hd) as (segs & Hsort & Hmem & Hf & Heq & _).
  rewrite Heq in * by (by destruct L1). pose proof Hd as (_ & _ & _ & Hnames). set (S := segment_bytes_ l) in *.
  pose proof (log_ok_app S L1 L2 HL) as (H1 & Hn1 & _).
  pose proof (segments_of_ok A S alignment_range L1 H1 Hn1) as (_ & _ & _ & _ & Hnil).
  unfold recovered_index_covers_segments. rewrite (io_bind_ok _ _ _ l (l, d)) by done.
  rewrite bool_decide_false by (rewrite Hsegs; auto).
  rewrite (io_bind_ok _ _ _ (map (λ s, (s, segment_path l s)) (seg_list S (L1 ++ L2))) (l, d)).
  2:{ by apply list_segment_files_ok. }
  rewrite Hsegs. unfold zlen. rewrite length_map.
  destruct (Z.eqb_spec (Z.of_nat (length (seg_list S (L1 ++ L2)))) (Z.of_nat (length (segments_of A S L1)))) as [E|E];
    cbn [negb].
  - apply Nat2Z.inj in E.
    destruct (segments_cover_ok l d (seg_list S (L1 ++ L2)) (segments_of A S L1) (image A S (L1 ++ L2)) Hf E)
      as (b & d' & Hr & Hf' & Hb).
    exists d'. split; [|done]. rewrite Hr. do 2 f_equal. rewrite (prefix_covers S L1 L2 HL Hne E) in Hb.
    case_bool_decide as H2; [by apply Hb|]. apply not_true_is_false. by rewrite Hb.
  - exists d. split; [|done]. rewrite bool_decide_false; [done|]. intros ->. rewrite app_nil_r in E.
    destruct L1 as [|b0 L1]; [done|]. cbn [seg_list] in E. by rewrite length_map in E.
Qed.

Lemma reset_activate m l L : reset_recovery (activate_last (scanned (aligned m l) L)) = aligned m (reset_recovery l).
Proof. unfold activate_last. by destruct (last _). Qed.

Lemma reset_idem l : reset_recovery (reset_recovery l) = reset_recovery l.
Proof. destruct l. vm_compute. reflexivity. Qed.

Lemma reset_again m l L :
  reset_recovery (activate_last (scanned (aligned m (reset_recovery l)) L)) = scanned (aligned m (reset_recovery l)) [].
Proof.
  rewrite reset_activate, reset_idem.
  rewrite <- aligned_scanned, <- reset_scanned. reflexivity.
Qed.

Lemma upd_ok f l l' d : f l = l' → upd f (l, d) = (Ok tt, (l', d)).
Proof. by intros <-. Qed.

Lemma disk_holds_same l l' d d' L :
  disk_holds l d L → config_ l' = config_ l → root_ l' = root_ l → segment_bytes_ l' = segment_bytes_ l →
  files d' = files d → disk_holds l' d' L.
Proof.
  unfold disk_holds, names_ok, segment_path, index_path. intros Hd E1 E2 E3 E4. by rewrite E1, E2, E3, E4.
Qed.

(** [recover] finds the whole log, whatever the index accounts for, and
    leaves a complete index. *)
Lemma recover_ok l d L :
  log_ok A (segment_bytes_ l) L → disk_holds l d L → 0 <= pc_partition (config_ l) →
  ∃ l' d', recover (l, d) = (Ok tt, (activate_last (scanned l' L), d')) ∧ realigned (reset_recovery l) l' ∧
    (files d' = <[index_path l := index_image A (segment_bytes_ l) L]> (files d)).
Proof.
  intros HL Hd Hp. unfold recover. set (r := reset_recovery l).
  rewrite (io_bind_ok _ _ _ tt (scanned r [], d)) by (apply upd_ok, reset_scanned).
  pose proof Hd as ([Hnone|(L1 & L2 & -> & Hidx)] & _).
  - rewrite (io_bind_ok _ _ _ false (scanned r [], d)) by (by apply recover_from_index_missing).
    by apply (recover_from_segments_ok r d L).
  - pose proof (log_ok_app _ L1 L2 HL) as HL1.
    destruct (recover_from_index_ok r d L1 HL1 Hidx) as (m & d1 & Hrec & Hf1).
    rewrite (io_bind_ok _ _ _ _ _ Hrec).
    assert (disk_holds (aligned m r) d1 (L1 ++ L2)) as Hd1 by (by apply (disk_holds_same l _ d)).
    assert (files d !! index_path l = files d1 !! index_path l) as Hsame by (by rewrite Hf1).
    destruct L1 as [|b L1].
    + rewrite bool_decide_false by (by intros ?).
      change (activate_last (scanned (aligned m r) [])) with (scanned (aligned m r) []).
      destruct (recover_from_segments_ok (aligned m r) d1 L2) as (l' & d2 & Hseg & Hl' & Hf2); try done.
      exists l', d2. split_and!; [exact Hseg|right; by apply realigned_trans in Hl'|]. by rewrite Hf2, Hf1.
    + rewrite bool_decide_true by done. set (la := activate_last (scanned (aligned m r) (b :: L1))).
      assert (config_ la = config_ l ∧ root_ la = root_ l ∧ segment_bytes_ la = segment_bytes_ l ∧
        segments_ la = segments_of A (segment_bytes_ l) (b :: L1)) as (E1 & E2 & E3 & E4).
      { unfold la, activate_last. by destruct (last _). }
      destruct (recovered_index_covers_ok la d1 (b :: L1) L2) as (d2 & Hcov & Hf2).
      * by rewrite E3.
      * by apply (disk_holds_same (aligned m r) _ d1).
      * by rewrite E1.
      * by rewrite E3, E4.
      * done.
      * rewrite (io_bind_ok _ _ _ _ _ Hcov). case_bool_decide as H2.
        -- subst L2. exists (aligned m r), d2. rewrite app_nil_r in *. split_and!; [done|right; eauto|].
           rewrite Hf2, Hf1. by rewrite insert_id.
        -- rewrite (io_bind_ok _ _ _ tt (scanned (aligned m r) [], d2)).
           2:{ apply upd_ok, reset_again. }
           assert (disk_holds (aligned m r) d2 ((b :: L1) ++ L2)) as Hd2 by (by apply (disk_holds_same (aligned m r) _ d1)).
           destruct (recover_from_segments_ok (aligned m r) d2 ((b :: L1) ++ L2)) as (l' & d3 & Hseg & Hl' & Hf3); try done.
           exists l', d3. split_and!; [exact Hseg|right; by apply realigned_trans in Hl'|].
           by rewrite Hf3, Hf2, Hf1.
Qed.

(** ** Starting *)

(** A log object before its first [start]. *)
Definition fresh (l : PartitionLogShard) : Prop :=
  segment_cache_ l = [] ∧ index_write_gate_closed_ l = false ∧ 0 <= queue_depth_ l.

(** The state [start] recovers in. *)
Definition configured (config : PartitionConfig) (root : cstring) (segment_bytes : Z) (l : PartitionLogShard)
    : PartitionLogShard :=
  set_flush_scheduled_ false (set_index_write_error_ None (set_index_entries_ []
    (set_segment_bytes_ segment_bytes (set_root_ root (set_config_ config l))))).

Lemma open_file_ok (setter : option cstring → PartitionLogShard → PartitionLogShard) p l d :
  ∃ m d', (on_disk (open_file_dma p OpenRwCreate);; update_dma_alignment p;; upd (setter (Some p))) (l, d)
    = (Ok tt, (setter (Some p) (aligned m l), d')) ∧ files d' = <[p := default [] (files d !! p)]> (files d).
Proof.
  destruct (open_create p d) as (d' & Ho & Hf). destruct (update_dma_alignment_ok p l d') as (m & Hu).
  exists m, d'. split; [|done]. rewrite (io_bind_ok _ _ _ tt (l, d')) by (by apply on_disk_ok).
  by rewrite (io_bind_ok _ _ _ tt (aligned m l, d')) by exact Hu.
Qed.

(** The state [start] ends in. *)
Definition opened (m1 m2 : Z) (l : PartitionLogShard) (L : list bytes) : PartitionLogShard :=
  let c := cursor_after A (segment_bytes_ l) cursor0 L in
  set_index_file_ (Some (index_path l)) (aligned m2 (set_file_ (Some (segment_path l (cu_seg c)))
    (aligned m1 (set_write_position_ (cu_pos c) (set_active_segment_base_offset_ (cu_seg c) (scanned l L)))))).

Lemma opened_fields m1 m2 l L :
  let l' := opened m1 m2 l L in
  let c := cursor_after A (segment_bytes_ l) cursor0 L in
  config_ l' = config_ l ∧ root_ l' = root_ l ∧ segment_bytes_ l' = segment_bytes_ l ∧
  log_frame_alignment_ l' = A ∧ index_entry_size_ l' = A ∧
  index_entries_ l' = entries A (segment_bytes_ l) L ∧ segments_ l' = segments_of A (segment_bytes_ l) L ∧
  active_segment_base_offset_ l' = cu_seg c ∧ write_position_ l' = cu_pos c ∧
  file_ l' = Some (segment_path l (cu_seg c)) ∧ index_file_ l' = Some (index_path l) ∧
  index_position_ l' = A * zlen L ∧ index_write_gate_closed_ l' = index_write_gate_closed_ l ∧
  segment_cache_ l' = segment_cache_ l ∧ queue_depth_ l' = queue_depth_ l ∧
  offsets_ l' = mkPartitionOffsets 0 (log_end L) (log_end L).
Proof. split_and!; reflexivity. Qed.

Lemma opened_disk l d d1 L :
  log_ok A (segment_bytes_ l) L → disk_holds l d L →
  let p := segment_path l (cu_seg (cursor_after A (segment_bytes_ l) cursor0 L)) in
  files d1 = <[p := default [] (files d !! p)]> (<[index_path l := index_image A (segment_bytes_ l) L]> (files d)) →
  store_disk l d1 L.
Proof.
  intros HL (_ & Hseg & Hno & Hnames) p Hf. set (S := segment_bytes_ l) in *.
  set (c := cursor_after A S cursor0 L) in *. pose proof HL as (HLr & Hn & _).
  pose proof (seg_exists_active A S L alignment_range HLr Hn) as Hact. fold c in Hact.
  pose proof (seg_exists_range A S L _ alignment_range HL Hact) as Hr.
  assert (∀ s, segment_path l s ≠ index_path l) as Hni by (intros s; apply segment_path_not_index).
  unfold store_disk. fold S. rewrite Hf. split_and!.
  - rewrite lookup_insert_ne by apply Hni. by rewrite lookup_insert_eq.
  - intros s Hs. pose proof (seg_exists_range A S L _ alignment_range HL Hs) as Hsr.
    destruct (decide (s = cu_seg c)) as [->|Hne].
    + fold p. rewrite lookup_insert_eq. destruct (Hseg _ Hs) as [E|[-> E]]; unfold p; fold c; rewrite E; done.
    + rewrite !lookup_insert_ne; [|by apply not_eq_sym|intros E; apply segment_path_inj in E; [by apply Hne|lia|lia]].
      destruct (Hseg s Hs) as [E|[-> E]]; [exact E|]. exfalso. apply Hne.
      destruct Hs as [->|(eb & Hin & _)]; [done|]. by apply elem_of_nil in Hin.
  - intros s Hs Hns. rewrite !lookup_insert_ne; [by apply Hno|by apply not_eq_sym|].
    intros E. apply segment_path_inj in E; [by subst s|lia|done].
  - apply names_ok_segment; [|lia]. by apply names_ok_index.
Qed.

Lemma opened_holds m1 m2 l d1 L :
  log_ok A (segment_bytes_ l) L → store_disk l d1 L → segment_cache_ l = [] →
  index_write_gate_closed_ l = false → 0 <= queue_depth_ l → 0 < segment_bytes_ l →
  log_holds (opened m1 m2 l L) d1 L.
Proof.
  intros HL Hdisk Hcache Hgate Hq Hsb. pose proof HL as (HLr & _).
  pose proof (opened_fields m1 m2 l L)
    as (F1 & F2 & F3 & F4 & F5 & F6 & F7 & F8 & F9 & F10 & F11 & F12 & F13 & F14 & F15 & F16).
  generalize dependent (opened m1 m2 l L).
  intros l' F1 F2 F3 F4 F5 F6 F7 F8 F9 F10 F11 F12 F13 F14 F15 F16.
  assert (∀ s, segment_path l' s = segment_path l s) as Hp by (intros s; unfold segment_path; by rewrite F1, F2).
  assert (index_path l' = index_path l) as Hip by (unfold index_path; by rewrite F1, F2).
  unfold log_holds, store, store_state. rewrite F3, F4, F5, F6, F7, F8, F9, F10, F11, F12, F13, F14, F15, F16, Hp, Hip.
  rewrite Hcache, Hgate, cu_next_log_end0. cbn [earliest latest high_watermark].
  pose proof (log_end_nonneg L HLr). split_and!; try done; try lia.
  unfold store_disk, names_ok, index_path, segment_path in *. rewrite F1, F2, F3. exact Hdisk.
Qed.

Lemma start_ok config root segment_bytes l d L :
  fresh l → 0 < segment_bytes → 0 <= pc_partition config → log_ok A segment_bytes L →
  disk_holds (configured config root segment_bytes l) d L →
  ∃ l' d', start config root segment_bytes (l, d) = (Ok tt, (l', d')) ∧ log_holds l' d' L ∧
    offsets_ l' = mkPartitionOffsets 0 (log_end L) (log_end L) ∧ config_ l' = config ∧ root_ l' = root ∧
    segment_bytes_ l' = segment_bytes ∧ queue_depth_ l' = queue_depth_ l.
Proof.
  intros (Hcache & Hgate & Hq) Hsb Hp HL Hd. set (l1 := configured config root segment_bytes l) in *.
  destruct (touch_directory_ok root d) as (d1 & Ht & Hf1).
  assert (disk_holds l1 d1 L) as Hd1 by (by apply (disk_holds_same l1 _ d)).
  destruct (recover_ok l1 d1 L HL Hd1 Hp) as (l2 & d2 & Hrec & Hl2 & Hf2).
  assert (∃ lr, realigned lr l2 ∧ lr = reset_recovery l1) as (lr & Hlr & Elr) by eauto.
  assert (config_ l2 = config ∧ root_ l2 = root ∧ segment_bytes_ l2 = segment_bytes ∧ segment_cache_ l2 = [] ∧
    index_write_gate_closed_ l2 = false ∧ queue_depth_ l2 = queue_depth_ l ∧
    active_segment_base_offset_ l2 = 0 ∧ write_position_ l2 = 0) as (E1 & E2 & E3 & E4 & E5 & E6 & E7 & E8).
  { subst lr. destruct Hlr as [->|[m ->]]; split_and!; done. }
  rewrite <- E3 in HL. rewrite (activate_scanned l2 L HL E7 E8) in Hrec.
  set (c := cursor_after A (segment_bytes_ l2) cursor0 L) in *.
  set (l3 := set_write_position_ (cu_pos c) (set_active_segment_base_offset_ (cu_seg c) (scanned l2 L))) in *.
  destruct (open_file_ok set_file_ (segment_path l2 (cu_seg c)) l3 d2) as (m1 & d3 & Ho1 & Hf3).
  set (l4 := set_file_ (Some (segment_path l2 (cu_seg c))) (aligned m1 l3)) in *.
  destruct (open_file_ok set_index_file_ (index_path l2) l4 d3) as (m2 & d4 & Ho2 & Hf4).
  assert (∀ s, segment_path l1 s = segment_path l2 s) as Hseg by (intros s; unfold segment_path; by rewrite E1, E2).
  assert (index_path l1 = index_path l2) as Hip by (unfold index_path; by rewrite E1, E2).
  exists (opened m1 m2 l2 L), d4. split_and!; try done.
  - unfold start. rewrite (io_bind_ok _ _ _ tt (l1, d)) by done.
    rewrite (io_bind_ok _ _ _ tt (l1, d1)) by (by apply on_disk_ok).
    rewrite (io_bind_ok _ _ _ tt (l3, d2)) by exact Hrec.
    rewrite (io_bind_ok _ _ _ tt (l4, d3)) by exact Ho1. exact Ho2.
  - apply opened_holds; try done; [|by rewrite E6|by rewrite E3].
    apply (opened_disk l2 d1); [done|by apply (disk_holds_same l1 _ d1)|]. fold c.
    rewrite Hf2, Hip, lookup_insert_ne in Hf3 by (apply not_eq_sym, segment_path_not_index).
    assert (files d3 !! index_path l2 = Some (index_image A (segment_bytes_ l1) L)) as Hidx.
    { rewrite Hf3, lookup_insert_ne by apply segment_path_not_index. apply lookup_insert_eq. }
    rewrite Hf4, insert_id by (by rewrite Hidx). rewrite Hf3. by rewrite E3.
Qed.

(** C8: starting a partition restores its log.  If the segments on disk hold
    the record sets [L], then whether the index is complete, lost, or behind
    (it lists only a prefix of the record sets, as after a crash between a
    segment write and its index write), [start] succeeds, the log holds
    exactly [L] again, all of it visible, and the index on disk is complete;
    a directory with no file of the partition gives an empty log. *)
Theorem start_restores config root segment_bytes l d L :
  fresh l → 0 < segment_bytes → 0 <= pc_partition config → log_ok A segment_bytes L →
  disk_holds (configured config root segment_bytes l) d L →
  ∃ l' d', start config root segment_bytes (l, d) = (Ok tt, (l', d')) ∧ log_holds l' d' L ∧
    offsets_ l' = mkPartitionOffsets 0 (log_end L) (log_end L) ∧ config_ l' = config.
Proof.
  intros Hfr Hsb Hp HL Hd. destruct (start_ok _ _ _ _ _ _ Hfr Hsb Hp HL Hd) as (l' & d' & H1 & H2 & H3 & H4 & _).
  exists l', d'. split_and!; done.
Qed.
End recovery.
