(* ===== verification/LogDurable.v ===== *)
(** * What a partition log keeps

    The end-to-end guarantee: record sets appended to a partition are fetched
    back after a restart, byte for byte and in order.  The file also runs the
    log on the disk in memory, as concrete instances of the theorems, and
    records what happens to an empty record set. *)

From Stdlib Require Import ZArith Lia.
From stdpp Require Import base tactics numbers option sorting gmap list.
From S2P Require Import Prelude Protocol Config RecordBatch Detail Storage LogFormat PartitionLog.
From S2P Require Import LogLayout LogRep LogAppend LogRead LogRecovery.

Local Open Scope Z_scope.

(** A producer's sequence of appends. *)
Fixpoint append_all {St : Storage} (sets : list bytes) (acks : Z) : IO World (list ProducePartitionResult) :=
  match sets with
  | [] => mret []
  | b :: sets' =>
      r ← append b acks;
      rs ← append_all sets' acks;
      mret (r :: rs)
  end.

Section durable.
Context {St : Storage} {Laws : StorageLaws}.

(** Record sets a partition with this configuration accepts. *)
Definition acceptable (config : PartitionConfig) (sets : list bytes) : Prop :=
  Forall (λ b, rs_ok b ∧ zlen b <= pc_max_frame_bytes config) sets ∧
  zlen sets < 2 ^ 31 ∧ log_end sets < 2 ^ 63.

(** The offsets the record sets get, from [base]. *)
Fixpoint base_offsets (base : Z) (sets : list bytes) : list Z :=
  match sets with [] => [] | b :: sets' => base :: base_offsets (base + cnt b) sets' end.

Lemma append_all_ok l d L sets acks :
  log_holds l d L → acceptable (config_ l) (L ++ sets) → -1 <= acks <= 1 →
  queue_depth_ l < pc_queue_limit (config_ l) < 2 ^ 32 →
  ∃ rs l' d', append_all sets acks (l, d) = (Ok rs, (l', d')) ∧ log_holds l' d' (L ++ sets) ∧ same_place l l' ∧
    map ppr_base_offset rs = base_offsets (log_end L) sets ∧ Forall (λ r, ppr_error_code r = 0) rs.
Proof.
  revert l d L. induction sets as [|b sets IH]; intros l d L Hh Hacc Hacks Hq.
  { exists [], l, d. rewrite app_nil_r. split_and!; (done || constructor). }
  pose proof Hacc as (Hall & Hn & Hend). apply Forall_app in Hall as [_ Hb]. apply Forall_cons in Hb as [[Hb Hmax] Hrest].
  rewrite zlen_app, zlen_cons in Hn. rewrite log_end_app in Hend. cbn [log_end] in Hend.
  pose proof (zlen_nonneg sets). pose proof Hh as (_ & _ & Hl & _). rewrite cu_next_log_end0 in Hl.
  assert (0 <= log_end sets). { apply log_end_nonneg. eapply Forall_impl; [exact Hrest|]. by intros x [? _]. }
  destruct (append_accepted l d L b acks Hh) as (l1 & d1 & Happ & Hh1 & _ & _ & (E1 & E2 & E3) & Eq).
  { split_and!; [apply Hb..|lia|lia|lia]. }
  { unfold append_refusal. bcase; simpl; (done || lia). }
  destruct (IH l1 d1 (L ++ [b]) Hh1) as (rs & l2 & d2 & Hall2 & Hh2 & (F1 & F2 & F3) & Hoff & Herr).
  { rewrite E1, <- app_assoc. exact Hacc. }
  { done. }
  { by rewrite E1, Eq. }
  eexists _, l2, d2. split_and!.
  - cbn [append_all]. rewrite (io_bind_ok _ _ _ _ _ Happ), (io_bind_ok _ _ _ _ _ Hall2). reflexivity.
  - by rewrite <- app_assoc in Hh2.
  - split_and!; congruence.
  - cbn [map ppr_base_offset base_offsets]. rewrite Hoff, Hl, log_end_app. cbn [log_end]. by rewrite Z.add_0_r.
  - by constructor.
Qed.

(** The files of a log that holds [L] after a restart: as they were, or
    with the index file lost, or with an index of the first [n] record sets. *)
Definition index_at_restart (l : PartitionLogShard) (L : list bytes) (before after : gmap cstring bytes) : Prop :=
  after = before ∨ after = delete (index_path l) before ∨
  ∃ n, after = <[index_path l := index_image alignment (segment_bytes_ l) (take n L)]> before.

Lemma index_at_restart_other l L before after path :
  index_at_restart l L before after → path ≠ index_path l → after !! path = before !! path.
Proof. intros [->|[->|[n ->]]] Hne; [done|by apply lookup_delete_ne, not_eq_sym|by apply lookup_insert_ne, not_eq_sym]. Qed.

(** A stored log is found again on its disk, whatever the index. *)
Lemma stored_disk l d L l0 d' :
  log_holds l d L → index_at_restart l L (files d) (files d') →
  disk_holds (configured (config_ l) (root_ l) (segment_bytes_ l) l0) d' L.
Proof.
  intros (((HL & _) & (Hidx & Hseg & Hno & Hnm) & _) & _) Hf.
  assert (∀ s, files d' !! segment_path l s = files d !! segment_path l s) as Hs.
  { intros s. apply (index_at_restart_other _ _ _ _ _ Hf), segment_path_not_index. }
  apply (disk_holds_same l _ d'); try done. split_and!.
  - destruct Hf as [->|[->|[n ->]]]; [right; exists L, []; by rewrite app_nil_r|left; apply lookup_delete_eq|right].
    exists (take n L), (drop n L). rewrite take_drop. split; [done|apply lookup_insert_eq].
  - intros s Hex. left. rewrite Hs. by apply Hseg.
  - intros s Hr Hex. rewrite Hs. by apply Hno.
  - intros name Hname Hin. apply Hnm; [done|]. destruct (decide (path_join (root_ l) name = index_path l)) as [E|E].
    + rewrite E, Hidx. by eexists.
    + by rewrite (index_at_restart_other _ _ _ _ _ Hf E) in Hin.
Qed.

(** A read from the start with room for everything returns everything. *)
Lemma selects_all L M limit : Forall rs_ok L → selects L M 0 (log_end L) limit → zlen (concat L) <= limit → M = L.
Proof.
  intros HL (L1 & L2 & EL & Hb & _ & _ & _ & Hstop) Hlim. subst L.
  rewrite !Forall_app in HL. destruct HL as (HL1 & HM & HL2).
  assert (L1 = []) as ->.
  { destruct L1 as [|b L1]; [done|]. apply Forall_cons in HL1 as [Hb1 HL1]. pose proof (cnt_pos b Hb1).
    pose proof (log_end_nonneg L1 HL1). cbn [log_end] in Hb. lia. }
  cbn [app] in *. destruct L2 as [|b L2]; [by rewrite app_nil_r|]. exfalso.
  apply Forall_cons in HL2 as [_ HL2]. pose proof (log_end_nonneg L2 HL2).
  rewrite concat_app, zlen_app in Hlim. cbn [concat] in Hlim. rewrite zlen_app in Hlim.
  pose proof (zlen_nonneg (concat L2)).
  destruct (Hstop b L2 eq_refl) as [Hv|[_ Hv]]; [rewrite log_end_app in Hv; cbn [log_end] in Hv|]; lia.
Qed.

(** C1: what is produced is durable.  Start a partition on an empty
    directory and append record sets to it, none of them empty (see
    [empty_record_set_lost]), each at most [max_frame_bytes] long and all
    together too; then start a new log object on the disk left behind, with
    its index, with the index file lost, or with an index that lists only the
    first record sets.  Every append reported success at consecutive offsets,
    the restart succeeds, and a fetch from offset 0 returns the concatenation
    of exactly the appended record sets, all of them below the high
    watermark. *)
Theorem durable_log config root segment_bytes acks l0 d sets :
  fresh l0 → 0 < segment_bytes → 0 <= pc_partition config → -1 <= acks <= 1 →
  queue_depth_ l0 < pc_queue_limit config < 2 ^ 32 → in_u 32 (pc_max_frame_bytes config) →
  acceptable config sets → zlen (concat sets) <= pc_max_frame_bytes config →
  disk_holds (configured config root segment_bytes l0) d [] →
  ∃ rs l d1, (start config root segment_bytes;; append_all sets acks) (l0, d) = (Ok rs, (l, d1)) ∧
    map ppr_base_offset rs = base_offsets 0 sets ∧ Forall (λ r, ppr_error_code r = 0) rs ∧
    ∀ l1 d2, fresh l1 → index_at_restart l sets (files d1) (files d2) →
      ∃ l' d3 w, start config root segment_bytes (l1, d2) = (Ok tt, (l', d3)) ∧
        fetch 0 0 (l', d3) = (Ok (mkFetchPartitionResult 0 (log_end sets) 0 (log_end sets) (concat sets)), w).
Proof.
  intros Hfr Hsb Hp Hacks Hq Hmax Hacc Hlim Hd.
  assert (log_ok alignment segment_bytes []) as Hok0 by (split_and!; (done || constructor)).
  destruct (start_ok config root segment_bytes l0 d [] Hfr Hsb Hp Hok0 Hd)
    as (ls & ds & Hstart & Hh & _ & E1 & E2 & E3 & E4).
  destruct (append_all_ok ls ds [] sets acks Hh) as (rs & l & d1 & Happ & Hh1 & (F1 & F2 & F3) & Hoff & Herr);
    [by rewrite E1|done|by rewrite E1, E4|].
  exists rs, l, d1. split_and!; [by rewrite (io_bind_ok _ _ _ _ _ Hstart)|done|done|].
  intros l1 d2 Hfr1 Hf. rewrite E1 in F1. rewrite E2 in F2. rewrite E3 in F3.
  pose proof (stored_disk l d1 sets l1 d2 Hh1 Hf) as Hd2. rewrite F1, F2, F3 in Hd2.
  pose proof Hh1 as (((Hok & _) & _) & _). rewrite F3 in Hok. pose proof Hok as (HLr & _).
  destruct (start_ok config root segment_bytes l1 d2 sets Hfr1 Hsb Hp Hok Hd2)
    as (l' & d3 & Hstart2 & Hh2 & Ho & G1 & _).
  destruct (fetch_in_range l' d3 sets 0 0 Hh2) as (M & c & d4 & Hfetch & _ & Hsel).
  { by rewrite G1. }
  { unfold in_s. simpl. lia. }
  { pose proof (log_end_nonneg sets HLr). lia. }
  assert (visible_end_of l' = log_end sets) as Hvis.
  { unfold visible_end_of. rewrite Ho. by destruct (pc_fetch_visibility _). }
  rewrite Hvis in *. unfold fetch_limit in Hsel. simpl Z.leb in Hsel. rewrite G1 in Hsel.
  apply selects_all in Hsel as ->; [|done|done]. eauto 10.
Qed.
End durable.

(** ** On the disk in memory *)

Definition sample_root : cstring := str "data".
Definition empty_disk : @Disk memory_disk := (∅ : gmap cstring bytes).
Definition sample_world : World :=
  (start sample_partition sample_root 1024 (PartitionLogShard_init, empty_disk)).2.
Definition sample_sets : list bytes := [sample_batch 3; sample_batch 2; sample_batch 2].

Lemma empty_disk_holds l : disk_holds l empty_disk [].
Proof.
  split_and!; [by left| |done|].
  - intros s _. right. done.
  - intros name _ [c Hc]. done.
Qed.

Lemma init_fresh : fresh PartitionLogShard_init.
Proof. split_and!; done. Qed.

Lemma empty_log_ok segment_bytes : log_ok alignment segment_bytes [].
Proof. split_and!; (done || constructor). Qed.

(** A partition started on the empty disk. *)
Lemma started_holds config :
  0 <= pc_partition config →
  let w := (start config sample_root 1024 (PartitionLogShard_init, empty_disk)).2 in
  log_holds w.1 w.2 [] ∧ config_ w.1 = config ∧ offsets_ w.1 = mkPartitionOffsets 0 0 0 ∧ queue_depth_ w.1 = 0.
Proof.
  intros Hp. destruct (start_ok config sample_root 1024 PartitionLogShard_init empty_disk [] init_fresh
    ltac:(lia) Hp (empty_log_ok _) (empty_disk_holds _)) as (l' & d' & Hs & Hh & Ho & Hc & _ & _ & Hq).
  rewrite Hs. split_and!; done.
Qed.

Lemma sample_holds : log_holds sample_world.1 sample_world.2 [] ∧ config_ sample_world.1 = sample_partition.
Proof. destruct (started_holds sample_partition ltac:(done)) as (Hh & Hc & _). done. Qed.

Lemma sample_room n : n = 3 → room_for sample_world.1 [] (sample_batch n).
Proof.
  intros ->. unfold room_for. rewrite (proj2 sample_holds). split_and!; [done|vm_compute; reflexivity..].
Qed.

(** Three record sets in two segments, whose index lists the first two. *)
Definition stored_sets : list bytes := [sample_batch 3; sample_batch 2; sample_batch 2].
Definition stored_world : World := (append_all stored_sets 1 sample_world).2.
Definition stale_disk : @Disk memory_disk :=
  <[index_path stored_world.1 := index_image alignment 1024 (take 2 stored_sets)]> (files stored_world.2).

Lemma stored_holds :
  log_holds stored_world.1 stored_world.2 stored_sets ∧ same_place sample_world.1 stored_world.1.
Proof.
  destruct (append_all_ok sample_world.1 sample_world.2 [] stored_sets 1 (proj1 sample_holds))
    as (rs & l & d & H & Hh & Hs & _); [|lia|rewrite (proj2 sample_holds); vm_compute; done|].
  - rewrite (proj2 sample_holds). split_and!; [repeat constructor; vm_compute; congruence|vm_compute; reflexivity..].
  - unfold stored_world. rewrite <- surjective_pairing in H. rewrite H. by split.
Qed.

Lemma start_restores_witness :
  ∃ l' d', start sample_partition sample_root 1024 (PartitionLogShard_init, stale_disk) = (Ok tt, (l', d')) ∧
    log_holds l' d' stored_sets ∧ offsets_ l' = mkPartitionOffsets 0 7 7 ∧ config_ l' = sample_partition ∧
    size (files stale_disk) = 3%nat ∧ files d' !! index_path l' ≠ files stale_disk !! index_path l'.
Proof.
  destruct stored_holds as [Hh (E1 & E2 & E3)].
  destruct (start_restores sample_partition sample_root 1024 PartitionLogShard_init stale_disk stored_sets init_fresh
    ltac:(lia) ltac:(done)) as (l' & d' & Hs & Hl & Ho & Hc).
  - destruct Hh as (((HL & _) & _) & _). exact HL.
  - apply (stored_disk stored_world.1 stored_world.2); [exact Hh|]. right. right. exists 2%nat. reflexivity.
  - exists l', d'. split_and!; [exact Hs|exact Hl|exact Ho|exact Hc|vm_compute; reflexivity|].
    enough (files (start sample_partition sample_root 1024 (PartitionLogShard_init, stale_disk)).2.2
      !! index_path (start sample_partition sample_root 1024 (PartitionLogShard_init, stale_disk)).2.1 ≠
      files stale_disk !! index_path (start sample_partition sample_root 1024 (PartitionLogShard_init, stale_disk)).2.1) as Hne
      by (rewrite Hs in Hne; exact Hne).
    vm_compute. congruence.
Defined.

Lemma durable_log_witness :
  ∃ rs l d1, (start sample_partition sample_root 1024;; append_all sample_sets 1) (PartitionLogShard_init, empty_disk)
      = (Ok rs, (l, d1)) ∧
    map ppr_base_offset rs = [0; 3; 5].
Proof.
  destruct (durable_log sample_partition sample_root 1024 1 PartitionLogShard_init empty_disk sample_sets)
    as (rs & l & d1 & H & Ho & _).
  - exact init_fresh.
  - lia.
  - done.
  - lia.
  - vm_compute. done.
  - vm_compute. done.
  - split_and!; [repeat constructor; vm_compute; congruence|vm_compute; reflexivity..].
  - vm_compute. congruence.
  - apply empty_disk_holds.
  - exists rs, l, d1. split; [exact H|]. rewrite Ho. vm_compute. reflexivity.
Defined.

Lemma append_spec_witness :
  ∃ l' d', append (sample_batch 3) 1 (sample_world.1, sample_world.2)
      = (Ok (mkProducePartitionResult (str "orders") 0 0 0 3 0), (l', d')) ∧
    log_holds l' d' [sample_batch 3].
Proof.
  pose proof (append_spec sample_world.1 sample_world.2 [] (sample_batch 3) 1 (proj1 sample_holds)) as H.
  assert (append_refusal sample_world.1 (sample_batch 3) 1 = None) as E by (vm_compute; reflexivity).
  rewrite E in H. destruct (H (sample_room 3 eq_refl)) as (l' & d' & H' & Hh & _). exists l', d'. split; [|exact Hh].
  rewrite H'. vm_compute. reflexivity.
Defined.

Definition sample_replica_request : ReplicaAppendRequest :=
  mkReplicaAppendRequest (str "orders") 0 0 2 (sample_batch 3).

Lemma append_replica_spec_witness :
  ∃ l' d', append_replica sample_replica_request (sample_world.1, sample_world.2)
      = (Ok (mkProducePartitionResult (str "orders") 0 0 0 3 0), (l', d')) ∧
    offsets_ l' = mkPartitionOffsets 0 3 2.
Proof.
  pose proof (append_replica_spec sample_world.1 sample_world.2 [] sample_replica_request (proj1 sample_holds)
    (sample_room 3 eq_refl) ltac:(done)) as H.
  assert (append_replica_refusal sample_world.1 sample_replica_request = None) as E by (vm_compute; reflexivity).
  rewrite E in H. destruct H as (_ & l' & d' & H & _ & Ho & _). exists l', d'. rewrite H, Ho. split; vm_compute; reflexivity.
Defined.

(** The log after the first append. *)
Definition sample_world1 : World := (append (sample_batch 3) 1 (sample_world.1, sample_world.2)).2.

Lemma sample_holds1 :
  log_holds sample_world1.1 sample_world1.2 [sample_batch 3] ∧ config_ sample_world1.1 = sample_partition.
Proof.
  destruct (append_accepted sample_world.1 sample_world.2 [] (sample_batch 3) 1 (proj1 sample_holds)
    (sample_room 3 eq_refl)) as (l' & d' & H & Hh & _ & _ & (Hc & _) & _); [vm_compute; reflexivity|].
  unfold sample_world1. rewrite H. split; [exact Hh|]. cbn [snd fst]. rewrite Hc. apply sample_holds.
Qed.

Lemma log_updates_ok_witness :
  log_holds (mark_replicated_through 2 sample_world1.1) sample_world1.2 [sample_batch 3] ∧
  log_holds (mark_degraded sample_world1.1) sample_world1.2 [sample_batch 3].
Proof.
  destruct (log_updates_ok sample_world1.1 sample_world1.2 [sample_batch 3] 2 sample_partition (proj1 sample_holds1))
    as ((H1 & _) & (H2 & _) & _). exact (conj H1 H2).
Defined.

Lemma fetch_spec_witness :
  ∃ M c d', fetch 1 0 (sample_world1.1, sample_world1.2)
      = (Ok (mkFetchPartitionResult 0 3 0 3 (concat M)), (set_segment_cache_ c sample_world1.1, d')) ∧
    selects [sample_batch 3] M 1 3 4096.
Proof.
  destruct (fetch_spec sample_world1.1 sample_world1.2 [sample_batch 3] 1 0 (proj1 sample_holds1)) as [_ H];
    [vm_compute; split; congruence..|].
  destruct H as (M & c & d' & H & _ & Hs); [vm_compute; split; congruence|].
  exists M, c, d'. split; [rewrite H; vm_compute; reflexivity|exact Hs].
Defined.

Lemma fetch_for_replica_spec_witness :
  ∃ M c d', fetch_for_replica 3 0 (sample_world1.1, sample_world1.2)
      = (Ok (mkReplicaFetchResult 0 3 3 (concat M)), (set_segment_cache_ c sample_world1.1, d')) ∧ M = [].
Proof.
  destruct (fetch_for_replica_spec sample_world1.1 sample_world1.2 [sample_batch 3] 3 0 (proj1 sample_holds1)) as [_ H];
    [vm_compute; split; congruence..|].
  destruct H as (M & c & d' & H & _ & _ & Hs); [vm_compute; split; congruence|].
  exists M, c, d'. split; [rewrite H; vm_compute; reflexivity|by apply Hs].
Defined.

(** ** An empty record set *)

(** An empty record set is accepted and acknowledged, but recovery stops
    at its frame: of an empty set followed by a batch of three records, both
    acknowledged, a restart keeps neither, so the three records are lost and
    their offsets are given out again.  (Produce requests may carry null
    records, which reach [append] as an empty set.) *)
Theorem empty_record_set_lost :
  let run := (start sample_partition sample_root 1024;; append_all [[]; sample_batch 3] 1)
    (PartitionLogShard_init, empty_disk) in
  let again := start sample_partition sample_root 1024 (PartitionLogShard_init, run.2.2) in
  (∃ r1 r2, run.1 = Ok [r1; r2] ∧ ppr_error_code r1 = 0 ∧ ppr_error_code r2 = 0 ∧ ppr_log_end_offset r2 = 3) ∧
  again.1 = Ok tt ∧ latest (offsets_ again.2.1) = 0 ∧ index_entries_ again.2.1 = [].
Proof.
  split; [|vm_compute; done].
  eexists _, _. split; [vm_compute; reflexivity|]. vm_compute. done.
Qed.
