(* ===== verification/LogConcurrent.v ===== *)
(** * Concurrent appends to a partition log

    PartitionLog.v runs an append to its end.  Here it is cut where its
    futures wait: an append that was called waits for a flush or for a new
    segment file, for its turn to reserve a position, for its write, or for
    the shared flush, and other appends run meanwhile.  A [LogEvent] is a call,
    the continuation of one append, or a step of a flush; every sequence of
    events that is enabled is a schedule.

    The theorems: an append that nothing interrupts is [append]; appends that
    reserve and complete in the order of their calls, within a segment, do
    what they would do one after the other; and two schedules of two appends
    that lose data which was acknowledged. *)

From Stdlib Require Import ZArith Lia.
From stdpp Require Import base tactics numbers option sorting gmap list.
From S2P Require Import Prelude Protocol Config RecordBatch Detail Storage LogFormat PartitionLog.
From S2P Require Import LogLayout LogRep LogAppend LogRead LogRecovery LogDurable.

Local Open Scope Z_scope.

(** ** The parts of an append *)

(** What an append waits for: to roll the segment over (after a flush, when
    one is scheduled), [open_file_dma], its continuation once the segment is
    there, [dma_write], or a flush. *)
Inductive Stage :=
  | Rolling (flush : option nat)
  | Opening (p : cstring)
  | Ensured
  | Writing (p : cstring) (position segment_base : Z)
  | Flushing (flush : nat).

Record Append := mkAppend {
  ap_id : nat;
  ap_set : RecordSet;
  ap_frame_size : Z;
  ap_buffer : bytes;
  ap_response : ProducePartitionResult;
  ap_stage : Stage;
}.
Definition set_ap_stage (stage : Stage) (t : Append) : Append :=
  mkAppend (ap_id t) (ap_set t) (ap_frame_size t) (ap_buffer t) (ap_response t) stage.

(** What a continuation ends with: it waits, it needs a flush (and armed
    one), or the append is done. *)
Inductive Progress :=
  | Waits (stage : Stage)
  | NeedsFlush (armed : bool)
  | Finished.

(** A flush: it has yielded, it syncs a file, or it is done. *)
Inductive FlushStage :=
  | Yielding
  | Syncing (p : cstring)
  | Flushed (r : result unit).

Section concurrent.
Context {St : Storage}.

(** The path of the segment that [open_active_segment] opens. *)
Definition opening : IO World Stage :=
  p ← asks (λ l, segment_path l (active_segment_base_offset_ l));
  mret (Opening p).

(** [ensure_segment_for_write] up to its first future; a roll-over waits for
    the last of [flushes] when one is scheduled. *)
Definition ensure_begin (base_offset frame_size : Z) (flushes : nat) : IO World Stage :=
  l ← asks id;
  match file_ l with
  | None =>
      upd (set_active_segment_base_offset_ base_offset);;
      upd (set_write_position_ 0);;
      opening
  | Some _ =>
      if (write_position_ l =? 0) || (u64 (write_position_ l + frame_size) <=? segment_bytes_ l)
      then mret Ensured
      else mret (Rolling (if flush_scheduled_ l then Some (flushes - 1)%nat else None))
  end.

(** The continuation of the flush barrier. *)
Definition roll_over (base_offset : Z) : IO World Stage :=
  l ← asks id;
  match file_ l with
  | None => mret Ensured
  | Some old_file =>
      if write_position_ l =? 0 then mret Ensured
      else
        upd (set_file_ None);;
        upd (λ l, set_segment_cache_
          (cache_push (active_segment_base_offset_ l, old_file) (segment_cache_ l)) l);;
        upd (set_active_segment_base_offset_ base_offset);;
        upd (set_write_position_ 0);;
        opening
  end.

(** The continuation of [open_file_dma] in [open_active_segment]. *)
Definition segment_opened (p : cstring) : IO World Stage :=
  on_disk (open_file_dma p OpenRwCreate);;
  update_dma_alignment p;;
  upd (set_file_ (Some p));;
  mret Ensured.

(** The continuation of [ensure_segment_for_write] in [write_record_set]. *)
Definition reserve (frame_size : Z) : IO World Stage :=
  position ← asks write_position_;
  segment_base ← asks active_segment_base_offset_;
  upd (set_write_position_ (u64 (position + frame_size)));;
  file ← asks file_;
  match file with
  | None => fail not_open_error
  | Some p => mret (Writing p position segment_base)
  end.

(** The continuation of [dma_write]. *)
Definition frame_written (t : Append) (p : cstring) (position segment_base : Z) : IO World unit :=
  on_disk (dma_write p position (ap_buffer t));;
  upd (λ l, set_disk_writes_ (u64 (disk_writes_ l + 1)) l);;
  schedule_index_entry_write (rs_base_offset (ap_set t)) (rs_last_offset (ap_set t))
    (i32 (zlen (rs_bytes (ap_set t)))) segment_base position.

(** [maybe_flush] up to its future. *)
Definition flush_begin : IO World Progress :=
  l ← asks id;
  match pc_durability (config_ l), file_ l with
  | Write, _ => mret Finished
  | Fsync, None => fail not_open_error
  | Fsync, Some _ =>
      if flush_scheduled_ l then mret (NeedsFlush false)
      else upd (set_flush_scheduled_ true);; mret (NeedsFlush true)
  end.

(** [append] up to its first future: an answer, or an append under way. *)
Definition call (id : nat) (records : bytes) (acks : Z) (flushes : nat)
    : IO World (ProducePartitionResult + Append) :=
  l ← asks (λ l, l);
  let config := config_ l in
  let response error_code := mkProducePartitionResult (pc_topic config) (pc_partition config)
    (error_code_value error_code) 0 0 (earliest (offsets_ l)) in
  if zlen records >? pc_max_frame_bytes config then mret (inl (response RecordListTooLarge))
  else if queue_depth_ l >=? pc_queue_limit config then mret (inl (response RequestTimedOut))
  else if (acks <? -1) || (acks >? 1) then mret (inl (response InvalidRequest))
  else
    upd (set_queue_depth_ (u32 (queue_depth_ l + 1)));;
    let base_offset := latest (offsets_ l) in
    count ← lift (record_count records);
    new_latest ← checked_i64 (base_offset + count);
    let last_offset := if count =? 0 then base_offset - 1 else base_offset + count - 1 in
    upd (set_latest new_latest);;
    when (length (pc_isr config) <=? 1)%nat (upd (set_high_watermark new_latest));;
    align ← asks log_frame_alignment_;
    let record_set := mkRecordSet base_offset last_offset records in
    let frame_size := round_up (header_size + zlen records) align in
    stage ← ensure_begin base_offset frame_size flushes;
    mret (inr (mkAppend id record_set frame_size (log_frame align record_set)
      (mkProducePartitionResult (pc_topic config) (pc_partition config) 0 base_offset new_latest
        (earliest (offsets_ l))) stage)).

(** What the flush [n] gives to those who wait for it. *)
Definition flushed (flushes : list FlushStage) (n : nat) : option (result unit) :=
  match flushes !! n with Some (Flushed r) => Some r | _ => None end.

(** The continuation of an append; [None] when what it waits for is not
    there yet. *)
Definition resume (flushes : list FlushStage) (t : Append) : option (IO World Progress) :=
  let base_offset := rs_base_offset (ap_set t) in
  match ap_stage t with
  | Rolling None => Some (stage ← roll_over base_offset; mret (Waits stage))
  | Rolling (Some n) =>
      r ← flushed flushes n;
      Some (lift r;; stage ← roll_over base_offset; mret (Waits stage))
  | Opening p => Some (stage ← segment_opened p; mret (Waits stage))
  | Ensured => Some (stage ← reserve (ap_frame_size t); mret (Waits stage))
  | Writing p position segment_base => Some (frame_written t p position segment_base;; flush_begin)
  | Flushing n => r ← flushed flushes n; Some (lift r;; mret Finished)
  end.

(** [finally([this] { --queue_depth_; })]. *)
Definition leave_queue (w : World) : World := (set_queue_depth_ (u32 (queue_depth_ w.1 - 1)) w.1, w.2).

(** The two continuations of [maybe_flush]. *)
Definition flush_step (stage : FlushStage) (w : World) : option (FlushStage * World) :=
  match stage with
  | Yielding =>
      let w' := (set_flush_scheduled_ false w.1, w.2) in
      Some (match file_ w.1 with None => Flushed (Ok tt) | Some p => Syncing p end, w')
  | Syncing p =>
      let '(r, w') := (on_disk (file_flush p);;
        upd (λ l, set_disk_fsyncs_ (u64 (disk_fsyncs_ l + 1)) l)) w in
      Some (Flushed r, w')
  | Flushed _ => None
  end.

(** ** Schedules *)

(** The log, the appends under way in the order of their calls, the flushes
    so far, and the answers given. *)
Record Conc := mkConc {
  c_world : World;
  c_appends : list Append;
  c_flushes : list FlushStage;
  c_calls : nat;
  c_answers : list (nat * result ProducePartitionResult);
}.
Definition idle (w : World) : Conc := mkConc w [] [] 0 [].

Inductive LogEvent :=
  | Call (records : bytes) (acks : Z)
  | Resume (i : nat)
  | Flush (n : nat).

Definition on_call (records : bytes) (acks : Z) (c : Conc) : Conc :=
  let n := c_calls c in
  let '(r, w) := call n records acks (length (c_flushes c)) (c_world c) in
  match r with
  | Ok (inr t) => mkConc w (c_appends c ++ [t]) (c_flushes c) (S n) (c_answers c)
  | Ok (inl response) => mkConc w (c_appends c) (c_flushes c) (S n) (c_answers c ++ [(n, Ok response)])
  | Err e => mkConc w (c_appends c) (c_flushes c) (S n) (c_answers c ++ [(n, Err e)])
  end.

Definition on_resume (i : nat) (c : Conc) : option Conc :=
  t ← c_appends c !! i;
  continuation ← resume (c_flushes c) t;
  let '(r, w) := continuation (c_world c) in
  let answered r := mkConc (leave_queue w) (delete i (c_appends c)) (c_flushes c) (c_calls c)
    (c_answers c ++ [(ap_id t, r)]) in
  let waits stage flushes := mkConc w (<[i := set_ap_stage stage t]> (c_appends c)) flushes (c_calls c)
    (c_answers c) in
  Some (match r with
  | Err e => answered (Err e)
  | Ok Finished => answered (Ok (ap_response t))
  | Ok (Waits stage) => waits stage (c_flushes c)
  | Ok (NeedsFlush true) => waits (Flushing (length (c_flushes c))) (c_flushes c ++ [Yielding])
  | Ok (NeedsFlush false) => waits (Flushing (length (c_flushes c) - 1)) (c_flushes c)
  end).

Definition on_flush (n : nat) (c : Conc) : option Conc :=
  stage ← c_flushes c !! n;
  '(stage', w) ← flush_step stage (c_world c);
  Some (mkConc w (c_appends c) (<[n := stage']> (c_flushes c)) (c_calls c) (c_answers c)).

Definition log_event (e : LogEvent) (c : Conc) : option Conc :=
  match e with
  | Call records acks => Some (on_call records acks c)
  | Resume i => on_resume i c
  | Flush n => on_flush n c
  end.
Fixpoint run_events (es : list LogEvent) (c : Conc) : option Conc :=
  match es with
  | [] => Some c
  | e :: es' => log_event e c ≫= run_events es'
  end.

(** ** An append alone *)

Definition is_call (e : LogEvent) : bool := match e with Call _ _ => true | _ => false end.

(** Events other than calls lead from [c], where one append is under way, to
    its answer. *)
Definition answers (c : Conc) (r : result ProducePartitionResult) (w : World) : Prop :=
  ∃ es flushes, Forall (λ e, is_call e = false) es ∧ run_events es c = Some (mkConc w [] flushes 1 [(0%nat, r)]).

Lemma answers_step e c c' r w : is_call e = false → log_event e c = Some c' → answers c' r w → answers c r w.
Proof. intros He Hc (es & fl & Hes & Hrun). exists (e :: es), fl. split; [by constructor|]. cbn [run_events]. by rewrite Hc. Qed.

Lemma answers_end r w flushes : answers (mkConc w [] flushes 1 [(0%nat, r)]) r w.
Proof. by exists [], flushes. Qed.

(** An append under way and nothing else. *)
Definition solo (t : Append) (w : World) : Conc := mkConc w [t] [] 1 [].

(** What is left to do, stage by stage. *)
Definition from_writing (t : Append) (p : cstring) (position segment_base : Z) : IO World unit :=
  frame_written t p position segment_base;; maybe_flush.
Definition from_ensured (t : Append) : IO World unit :=
  position ← asks write_position_;
  segment_base ← asks active_segment_base_offset_;
  upd (set_write_position_ (u64 (position + ap_frame_size t)));;
  file ← asks file_;
  match file with
  | None => fail not_open_error
  | Some p => from_writing t p position segment_base
  end.
Definition from_opening (t : Append) (p : cstring) : IO World unit :=
  on_disk (open_file_dma p OpenRwCreate);; update_dma_alignment p;; upd (set_file_ (Some p));; from_ensured t.

(** The append [t] ends as [m] and [finally] do. *)
Definition ends_as (t : Append) (w : World) (m : IO World unit) : Prop :=
  let '(r, w') := finally m leave_queue w in
  answers (solo t w) (match r with Ok _ => Ok (ap_response t) | Err e => Err e end) w'.

(** What a write leaves alone. *)
Definition write_keeps (l l' : PartitionLogShard) : Prop :=
  config_ l' = config_ l ∧ segment_bytes_ l' = segment_bytes_ l ∧ offsets_ l' = offsets_ l ∧
  queue_depth_ l' = queue_depth_ l ∧ active_segment_base_offset_ l' = active_segment_base_offset_ l ∧
  write_position_ l' = write_position_ l ∧ log_frame_alignment_ l' = log_frame_alignment_ l ∧ file_ l' = file_ l ∧
  flush_scheduled_ l' = flush_scheduled_ l.

Lemma frame_written_keeps t w p position segment_base : write_keeps w.1 (frame_written t p position segment_base w).2.1.
Proof.
  unfold frame_written, mbind, IO_bind, on_disk. destruct w as [l d]. cbn. destruct (dma_write p position (ap_buffer t) d); [|done]. cbn.
  unfold schedule_index_entry_write, asks, upd, mbind, IO_bind. cbn. destruct (index_file_ l) as [q|] eqn:Hq; [|done]. cbn.
  destruct (index_write_gate_closed_ l); [done|]. unfold catch, write_index_entry_at, asks, mbind, IO_bind, on_disk. cbn.
  rewrite Hq. cbn. destruct (dma_write q _ _ _); [done|]. cbn. by destruct (index_write_error_ l).
Qed.

Lemma writing_alone t w p position segment_base :
  ap_id t = 0%nat → flush_scheduled_ w.1 = false → ap_stage t = Writing p position segment_base →
  ends_as t w (from_writing t p position segment_base).
Proof.
  intros Hid Hf Hs. pose proof (frame_written_keeps t w p position segment_base) as Hk.
  assert (∀ c, on_resume 0 (solo t w) = Some c → ∀ r w', answers c r w' → answers (solo t w) r w') as Hstep.
  { intros c Hc r w'. by apply (answers_step (Resume 0)). }
  unfold on_resume, solo in Hstep. cbn in Hstep. unfold resume in Hstep. rewrite Hs in Hstep. cbn in Hstep.
  unfold ends_as, finally, from_writing, mbind, IO_bind in *.
  destruct (frame_written t p position segment_base w) as [[[]|e] [l d]]; [|eapply Hstep; [done|]; rewrite Hid; apply answers_end].
  cbn [snd fst] in Hk. destruct Hk as (_ & _ & _ & _ & _ & _ & _ & _ & Hfs). rewrite Hf in Hfs.
  unfold flush_begin, maybe_flush, asks, upd, mbind, IO_bind in *. cbn in Hstep |- *.
  destruct (pc_durability (config_ l)); cbn in Hstep |- *; [eapply Hstep; [done|]; rewrite Hid; apply answers_end|].
  destruct (file_ l) as [q|] eqn:Hfile; cbn in Hstep |- *; [|eapply Hstep; [done|]; rewrite Hid; apply answers_end].
  rewrite Hfs in Hstep. cbn in Hstep. unfold on_disk. cbn.
  assert (∀ r w', answers (mkConc (match file_flush q d with
      | Ok d' => (set_disk_fsyncs_ (u64 (disk_fsyncs_ l + 1)) (set_flush_scheduled_ false (set_flush_scheduled_ true l)), d')
      | Err _ => (set_flush_scheduled_ false (set_flush_scheduled_ true l), d) end)
      [set_ap_stage (Flushing 0) t] [Flushed (match file_flush q d with Ok _ => Ok tt | Err e => Err e end)] 1 []) r w' →
    answers (solo t w) r w') as Hwait.
  { intros r w' Ha. eapply Hstep; [done|]. eapply (answers_step (Flush 0)); [done|reflexivity|].
    cbn. rewrite Hfile. eapply (answers_step (Flush 0)); [done| |exact Ha]. cbn. unfold on_flush, on_disk, upd, mbind, IO_bind. cbn.
    by destruct (file_flush q d). }
  destruct (file_flush q d) as [d'|e]; cbn; apply Hwait; (eapply (answers_step (Resume 0)); [done|reflexivity|]); cbn;
    rewrite Hid; apply answers_end.
Qed.

(** A continuation that leads to stage [stage], or throws. *)
Lemma ends_waits t w stage w' m m' :
  on_resume 0 (solo t w) = Some (solo (set_ap_stage stage t) w') → m w = m' w' → ends_as (set_ap_stage stage t) w' m' → ends_as t w m.
Proof.
  intros Hc Hm. unfold ends_as, finally. rewrite Hm. destruct (m' w') as [r w2]. by apply (answers_step (Resume 0)).
Qed.
Lemma ends_throws t w e w' m :
  ap_id t = 0%nat → on_resume 0 (solo t w) = Some (mkConc (leave_queue w') [] [] 1 [(ap_id t, Err e)]) → m w = (Err e, w') →
  ends_as t w m.
Proof.
  intros Hid Hc Hm. unfold ends_as, finally. rewrite Hm. eapply (answers_step (Resume 0)); [done|exact Hc|]. rewrite Hid.
  apply answers_end.
Qed.

Ltac resumes Hs :=
  unfold on_resume, solo; cbn; unfold resume; rewrite Hs; cbn;
  unfold reserve, segment_opened, roll_over, opening, on_disk, asks, upd, mbind, IO_bind; cbn.

Lemma ensured_alone t w :
  ap_id t = 0%nat → flush_scheduled_ w.1 = false → ap_stage t = Ensured → ends_as t w (from_ensured t).
Proof.
  intros Hid Hf Hs. destruct w as [l d]. destruct (file_ l) as [p|] eqn:Hfile.
  - eapply (ends_waits t (l, d) (Writing p (write_position_ l) (active_segment_base_offset_ l))
      (set_write_position_ (u64 (write_position_ l + ap_frame_size t)) l, d)); [| |by apply writing_alone].
    + resumes Hs. by rewrite Hfile.
    + unfold from_ensured, asks, upd, mbind, IO_bind. cbn. by rewrite Hfile.
  - apply (ends_throws t (l, d) not_open_error (set_write_position_ (u64 (write_position_ l + ap_frame_size t)) l, d)); [done| |].
    + resumes Hs. by rewrite Hfile.
    + unfold from_ensured, asks, upd, mbind, IO_bind. cbn. by rewrite Hfile.
Qed.

Lemma opening_alone t w p :
  ap_id t = 0%nat → flush_scheduled_ w.1 = false → ap_stage t = Opening p → ends_as t w (from_opening t p).
Proof.
  intros Hid Hf Hs. destruct w as [l d]. destruct (open_file_dma p OpenRwCreate d) as [d'|e] eqn:Ho.
  - apply (ends_waits t (l, d) Ensured ((update_dma_alignment p;; upd (set_file_ (Some p))) (l, d')).2
      _ (from_ensured (set_ap_stage Ensured t))); [| |by apply ensured_alone].
    + resumes Hs. by rewrite Ho.
    + unfold from_opening, on_disk, mbind, IO_bind. cbn. by rewrite Ho.
  - apply (ends_throws t (l, d) e (l, d)); [done| |].
    + resumes Hs. by rewrite Ho.
    + unfold from_opening, on_disk, mbind, IO_bind. cbn. by rewrite Ho.
Qed.

Lemma write_split t record_set w :
  let align := log_frame_alignment_ w.1 in
  ap_set t = record_set → ap_frame_size t = round_up (header_size + zlen (rs_bytes record_set)) align →
  ap_buffer t = log_frame align record_set →
  (write_record_set record_set;; maybe_flush) w =
  (ensure_segment_for_write (rs_base_offset record_set) (ap_frame_size t);; from_ensured t) w.
Proof.
  intros align Hset Hfs Hbuf. unfold write_record_set, from_ensured, from_writing, frame_written. rewrite Hset, Hfs, Hbuf.
  unfold asks, upd, mbind, IO_bind. fold align.
  destruct (ensure_segment_for_write _ _ w) as [[[]|e] w1]; [|done]. cbn. destruct (file_ w1.1); [|done].
  destruct (on_disk _ _) as [[[]|e] w2]; done.
Qed.

#[local] Arguments segment_path : simpl never.

Lemma ensure_at base_offset frame_size (k : IO World unit) l d :
  (ensure_segment_for_write base_offset frame_size;; k) (l, d) =
  match file_ l with
  | None => (open_active_segment;; k) (set_write_position_ 0 (set_active_segment_base_offset_ base_offset l), d)
  | Some old_file =>
      if (write_position_ l =? 0) || (u64 (write_position_ l + frame_size) <=? segment_bytes_ l) then k (l, d)
      else (open_active_segment;; k) (set_write_position_ 0 (set_active_segment_base_offset_ base_offset (set_segment_cache_
        (cache_push (active_segment_base_offset_ l, old_file) (segment_cache_ l)) (set_file_ None l))), d)
  end.
Proof.
  unfold ensure_segment_for_write, mbind, IO_bind, asks, upd. cbn [fst snd]. unfold id. destruct (file_ l); [|done].
  by destruct (_ || _).
Qed.
Lemma open_at t l d :
  (open_active_segment;; from_ensured t) (l, d) = from_opening t (segment_path l (active_segment_base_offset_ l)) (l, d).
Proof.
  unfold open_active_segment, from_opening, on_disk, asks, upd, mbind, IO_bind. cbn [fst snd].
  by destruct (open_file_dma _ OpenRwCreate d).
Qed.

(** From its call on, an append does what [write_split] says is left. *)
Lemma ensure_alone t base_offset l d :
  ap_id (t Ensured) = 0%nat → (∀ s s', t s' = set_ap_stage s' (t s)) → rs_base_offset (ap_set (t Ensured)) = base_offset →
  flush_scheduled_ l = false →
  ∃ stage w1 m, ensure_begin base_offset (ap_frame_size (t Ensured)) 0 (l, d) = (Ok stage, w1) ∧
    (ensure_segment_for_write base_offset (ap_frame_size (t Ensured));; from_ensured (t Ensured)) (l, d) = m w1 ∧
    ends_as (t stage) w1 m.
Proof.
  intros Hid Ht Hbase Hf.
  assert (∀ s, ap_id (t s) = 0%nat ∧ ap_stage (t s) = s ∧ from_ensured (t s) = from_ensured (t Ensured)) as Hs
    by (intros s; by rewrite (Ht Ensured s)).
  unfold ensure_begin. rewrite (io_bind_ok (asks id) _ _ l (l, d)) by done. rewrite ensure_at.
  destruct (file_ l) as [p|] eqn:Hfile.
  - destruct ((write_position_ l =? 0) || _) eqn:Hroom.
    { exists Ensured, (l, d), (from_ensured (t Ensured)). split; [done|]. split; [done|]. by apply ensured_alone; try apply Hs. }
    rewrite Hf, open_at. apply orb_false_iff in Hroom as [Hw _]. set (l1 := set_write_position_ 0 _).
    set (q := segment_path l1 (active_segment_base_offset_ l1)).
    exists (Rolling None), (l, d), (λ _, from_opening (t Ensured) q (l1, d)). split; [done|]. split; [done|].
    apply (ends_waits _ (l, d) (Opening q) (l1, d) _ (from_opening (t (Opening q)) q)); rewrite <- ?Ht.
    + unfold on_resume, solo. cbn. unfold resume. rewrite (proj1 (proj2 (Hs _))). rewrite (Ht Ensured (Rolling None)). cbn.
      unfold roll_over, opening, asks, upd, mbind, IO_bind. cbn. rewrite Hfile, Hw. cbn. by rewrite Hbase, (Ht Ensured (Opening q)).
    + unfold from_opening. by rewrite (proj2 (proj2 (Hs (Opening q)))).
    + by apply opening_alone; try apply Hs.
  - rewrite open_at. set (l1 := set_write_position_ 0 _). set (q := segment_path l1 (active_segment_base_offset_ l1)).
    exists (Opening q), (l1, d), (from_opening (t (Opening q)) q). split; [done|]. split; [|by apply opening_alone; try apply Hs].
    unfold from_opening. by rewrite (proj2 (proj2 (Hs (Opening q)))).
Qed.

(** The append as [call] leaves it. *)
Lemma commit_alone record_set response l d :
  flush_scheduled_ l = false →
  let align := log_frame_alignment_ l in
  let frame_size := round_up (header_size + zlen (rs_bytes record_set)) align in
  let '(r, w') := commit record_set (l, d) in
  ∃ stage w1, ensure_begin (rs_base_offset record_set) frame_size 0 (l, d) = (Ok stage, w1) ∧
    answers (solo (mkAppend 0 record_set frame_size (log_frame align record_set) response stage) w1)
      (match r with Ok _ => Ok response | Err e => Err e end) w'.
Proof.
  intros Hf align frame_size. set (t stage := mkAppend 0 record_set frame_size (log_frame align record_set) response stage).
  destruct (ensure_alone t (rs_base_offset record_set) l d) as (stage & w1 & m & He & Hm & Hends); [done..|].
  rewrite <- (write_split (t Ensured) record_set (l, d)) in Hm by done. unfold ends_as, finally in Hends.
  unfold commit, finally. rewrite Hm. destruct (m w1) as [r w2]. by exists stage, w1.
Qed.

(** An append alone.  An append that no other append interrupts, whatever
    it meets (a refusal, a segment to open or to roll over, a disk error, the
    shared flush), is run to its answer by continuations and flushes only,
    and answer, log and disk are those of [append]. *)
Theorem append_alone records acks w :
  flush_scheduled_ w.1 = false →
  ∃ es c, Forall (λ e, is_call e = false) es ∧ run_events (Call records acks :: es) (idle w) = Some c ∧ c_appends c = [] ∧
    c_world c = (append records acks w).2 ∧ c_answers c = [(0%nat, (append records acks w).1)].
Proof.
  intros Hf. destruct w as [l d]. cbn in Hf.
  assert (∀ r w', append records acks (l, d) = (r, w') → answers (on_call records acks (idle (l, d))) r w') as Hend.
  2:{ destruct (append records acks (l, d)) as [r w']. destruct (Hend r w' eq_refl) as (es & fl & Hes & Hrun).
      exists es. eexists. split; [done|]. cbn [run_events log_event mbind option_bind]. rewrite Hrun. done. }
  intros r w'. unfold append, on_call, call, idle. cbn [c_calls c_flushes c_world c_appends c_answers length].
  rewrite (io_bind_ok (asks id) _ _ l (l, d)), (io_bind_ok (asks (λ l, l)) _ _ l (l, d)) by done. cbv zeta.
  destruct (zlen records >? _); [intros [= <- <-]; apply answers_end|].
  destruct (queue_depth_ l >=? _); [intros [= <- <-]; apply answers_end|].
  destruct (_ || _); [intros [= <- <-]; apply answers_end|].
  unfold mbind, IO_bind, upd, lift, asks. cbn [fst snd].
  destruct (record_count records) as [count|e]; [|intros [= <- <-]; apply answers_end].
  unfold checked_i64. destruct (_ && _); [|intros [= <- <-]; apply answers_end]. unfold mret, IO_ret, when.
  set (raise := if (length (pc_isr (config_ l)) <=? 1)%nat then _ else _). cbn [fst snd]. set (w1 := (set_latest _ _, d)).
  assert (∃ l1, raise w1 = (Ok tt, (l1, d)) ∧ flush_scheduled_ l1 = false) as (l1 & -> & Hf1).
  { unfold raise. destruct (_ <=? _)%nat; by eexists. }
  set (response := mkProducePartitionResult _ _ 0 _ _ _). set (record_set := mkRecordSet _ _ records).
  pose proof (commit_alone record_set response l1 d Hf1) as Hc. cbv zeta in Hc. cbn [rs_base_offset rs_bytes record_set] in Hc.
  fold record_set in Hc. destruct (commit record_set (l1, d)) as [r1 w2]. destruct Hc as (stage & w3 & He & Ha). cbn [fst].
  rewrite He. destruct r1 as [[]|e]; intros [= <- <-]; exact Ha.
Qed.

(** ** Appends in order *)

(** [m] neither reads nor writes what [f] changes. *)
Definition ignores {A} (f : PartitionLogShard → PartitionLogShard) (m : IO World A) : Prop :=
  ∀ l d, m (f l, d) = ((m (l, d)).1, (f (m (l, d)).2.1, (m (l, d)).2.2)).

Lemma ignores_bind {A B} f (m : IO World A) (k : A → IO World B) :
  ignores f m → (∀ a, ignores f (k a)) → ignores f (m ≫= k).
Proof.
  intros Hm Hk l d. unfold mbind, IO_bind. rewrite (Hm l d). destruct (m (l, d)) as [[a|e] [l' d']]; [apply Hk|done].
Qed.
Lemma ignores_asks_id {A} f (k : PartitionLogShard → IO World A) :
  (∀ l, ignores f (k l)) → (∀ l, k (f l) = k l) → ignores f (asks id ≫= k).
Proof. intros Hk He l d. unfold mbind, IO_bind, asks. cbn [fst]. unfold id. by rewrite He, Hk. Qed.
Lemma ignores_asks {A} f (g : PartitionLogShard → A) : (∀ l, g (f l) = g l) → ignores f (asks g).
Proof. intros Hg l d. unfold asks. cbn. by rewrite Hg. Qed.
Lemma ignores_upd f g : (∀ l, g (f l) = f (g l)) → ignores f (upd g).
Proof. intros Hg l d. unfold upd. cbn. by rewrite Hg. Qed.
Lemma ignores_on_disk f m : ignores f (on_disk m).
Proof. intros l d. unfold on_disk. cbn. by destruct (m d). Qed.
Lemma ignores_ret {A} f (a : A) : ignores f (mret a).
Proof. done. Qed.
Lemma ignores_fail {A} f e : ignores f (fail e : IO World A).
Proof. done. Qed.
Lemma ignores_catch {A} f (m : IO World A) h : ignores f m → (∀ e, ignores f (h e)) → ignores f (catch m h).
Proof.
  intros Hm Hh l d. unfold catch. rewrite (Hm l d). destruct (m (l, d)) as [[a|e] [l' d']]; [done|apply Hh].
Qed.
Lemma ignores_finally {A} f (m : IO World A) g :
  ignores f m → (∀ l d, g (f l, d) = (f (g (l, d)).1, (g (l, d)).2)) → ignores f (finally m g).
Proof. intros Hm Hg l d. unfold finally. rewrite (Hm l d). destruct (m (l, d)) as [r [l' d']]. cbn. by rewrite Hg. Qed.

Ltac ignores :=
  repeat first
    [ apply ignores_asks_id; [intros ?|done] | apply ignores_bind; [|intros ?] | apply ignores_upd; first [done|intros ?; cbn; by case_match]
    | apply ignores_asks; done | apply ignores_on_disk | apply ignores_ret | apply ignores_fail
    | apply ignores_catch; [|intros ?] | case_match ].

(** What the call of an append changes, and the reservation of one. *)
Definition queued (o : PartitionOffsets) (l : PartitionLogShard) : PartitionLogShard :=
  set_offsets_ o (set_queue_depth_ (u32 (queue_depth_ l + 1)) l).

Lemma queue_swap q : u32 (u32 (q + 1) - 1) = u32 (u32 (q - 1) + 1).
Proof. unfold wrap_u. rewrite Zminus_mod_idemp_l, Zplus_mod_idemp_l. f_equal. lia. Qed.

Definition is_writing (t : Append) : bool := match ap_stage t with Writing _ _ _ => true | _ => false end.

(** An append run to its end from its stage (of a partition that does not
    fsync, an append within a segment). *)
Definition complete (t : Append) (w : World) : result ProducePartitionResult * World :=
  let m := match ap_stage t with
    | Writing p position segment_base => from_writing t p position segment_base
    | _ => from_ensured t
    end in
  finally (m;; mret (ap_response t)) leave_queue w.

Lemma writing_ignores f t p position segment_base :
  (∃ o, f = queued o) ∨ (∃ v, f = set_write_position_ v) → ignores f (from_writing t p position segment_base).
Proof.
  intros [[o ->]|[v ->]];
    unfold from_writing, frame_written, schedule_index_entry_write, write_index_entry_at, maybe_flush, queued; ignores.
Qed.

Lemma complete_ignores_queued o t : ignores (queued o) (complete t).
Proof.
  apply ignores_finally.
  - apply ignores_bind; [|intros; apply ignores_ret]. destruct (ap_stage t) as [| | |p position segment_base|];
      [| | |by apply writing_ignores; left; eexists|]; unfold from_ensured; ignores; apply writing_ignores; left; by eexists.
  - intros l d. unfold leave_queue, queued. cbn. by rewrite queue_swap.
Qed.
Lemma complete_ignores_position v t : is_writing t = true → ignores (set_write_position_ v) (complete t).
Proof.
  intros Ht. unfold is_writing in Ht. apply ignores_finally; [|done]. apply ignores_bind; [|intros; apply ignores_ret].
  destruct (ap_stage t); try done. apply writing_ignores. right. by eexists.
Qed.

(** What completing an append does to the fields that others read. *)
Definition settled (t : Append) (l l' : PartitionLogShard) : Prop :=
  config_ l' = config_ l ∧ segment_bytes_ l' = segment_bytes_ l ∧ offsets_ l' = offsets_ l ∧
  queue_depth_ l' = u32 (queue_depth_ l - 1) ∧ active_segment_base_offset_ l' = active_segment_base_offset_ l ∧
  log_frame_alignment_ l' = log_frame_alignment_ l ∧ file_ l' = file_ l ∧
  write_position_ l' = if is_writing t then write_position_ l else u64 (write_position_ l + ap_frame_size t).

Lemma from_writing_keeps t p position segment_base l d :
  pc_durability (config_ l) = Write → write_keeps l (from_writing t p position segment_base (l, d)).2.1.
Proof.
  intros Hd. pose proof (frame_written_keeps t (l, d) p position segment_base) as Hk. unfold from_writing, mbind, IO_bind.
  destruct (frame_written t p position segment_base (l, d)) as [[[]|e] [l' d']]; [|done]. cbn [fst snd] in Hk.
  unfold maybe_flush, asks, mbind, IO_bind. cbn. destruct Hk as (Hc & Hk). rewrite Hc, Hd. by split.
Qed.

Lemma complete_settled t l d : pc_durability (config_ l) = Write → settled t l (complete t (l, d)).2.1.
Proof.
  intros Hd. unfold complete, finally. unfold mbind at 1, IO_bind at 1.
  assert (∀ p position segment_base l1, config_ l1 = config_ l →
    write_keeps l1 (from_writing t p position segment_base (l1, d)).2.1) as Hk by (intros; apply from_writing_keeps; congruence).
  destruct (ap_stage t) as [fl|path| |p position segment_base|fl] eqn:Hs.
  4:{ specialize (Hk p position segment_base l eq_refl). destruct (from_writing _ _ _ _ _) as [[[]|e] [l' d']]; unfold settled, is_writing;
      rewrite Hs; cbn in *; destruct Hk as (? & ? & ? & ? & ? & ? & ? & ? & _); split_and!; congruence. }
  all: unfold from_ensured, asks, upd, mbind, IO_bind; cbn [fst snd]; set (l1 := set_write_position_ _ l);
    destruct (file_ l1) as [p|] eqn:Hf; [|by unfold settled, is_writing; rewrite Hs]; specialize (Hk p (write_position_ l) (active_segment_base_offset_ l) l1 eq_refl);
    destruct (from_writing _ _ _ _ _) as [[[]|e] [l' d']]; unfold settled, is_writing; rewrite Hs; subst l1;
    destruct Hk as (? & ? & ? & ? & ? & ? & ? & ? & _); cbn in *; split_and!; congruence.
Qed.

(** The appends under way, run to their end one after the other. *)
Fixpoint drain (ts : list Append) (w : World) : list (result ProducePartitionResult) * World :=
  match ts with
  | [] => ([], w)
  | t :: ts' =>
      let '(r, w1) := complete t w in
      let '(rs, w2) := drain ts' w1 in
      (r :: rs, w2)
  end.

(** The reference: the appends one after the other. *)
Fixpoint one_by_one (calls : list (bytes * Z)) (w : World) : list (result ProducePartitionResult) * World :=
  match calls with
  | [] => ([], w)
  | (records, acks) :: calls' =>
      let '(r, w1) := append records acks w in
      let '(rs, w2) := one_by_one calls' w1 in
      (r :: rs, w2)
  end.

Lemma drain_app ts ts' w :
  drain (ts ++ ts') w = ((drain ts w).1 ++ (drain ts' (drain ts w).2).1, (drain ts' (drain ts w).2).2).
Proof.
  revert w. induction ts as [|t ts IH]; intros w; cbn [app drain fst snd]; [by destruct (drain ts' w)|].
  destruct (complete t w) as [r w1]. rewrite IH. by destruct (drain ts w1).
Qed.
Lemma one_by_one_snoc calls records acks w :
  one_by_one (calls ++ [(records, acks)]) w =
  ((one_by_one calls w).1 ++ [(append records acks (one_by_one calls w).2).1], (append records acks (one_by_one calls w).2).2).
Proof.
  revert w. induction calls as [|[b a] calls IH]; intros w; cbn [app one_by_one fst snd]; [by destruct (append records acks w)|].
  destruct (append b a w) as [r w1]. rewrite IH. by destruct (one_by_one calls w1).
Qed.

Lemma drain_ignores f ts l d :
  Forall (λ t, ignores f (complete t)) ts →
  drain ts (f l, d) = ((drain ts (l, d)).1, (f (drain ts (l, d)).2.1, (drain ts (l, d)).2.2)).
Proof.
  intros Hts. revert l d. induction Hts as [|t ts Ht _ IH]; intros l d; [done|]. cbn [drain]. rewrite (Ht l d).
  destruct (complete t (l, d)) as [r [l1 d1]]. cbn [fst snd]. rewrite IH. by destruct (drain ts (l1, d1)) as [rs [l2 d2]].
Qed.

(** Bytes that the appends under way have still to reserve. *)
Definition pending_bytes (ts : list Append) : Z :=
  foldr (λ t n, (if is_writing t then 0 else ap_frame_size t) + n) 0 ts.

Lemma pending_bytes_app ts ts' : pending_bytes (ts ++ ts') = pending_bytes ts + pending_bytes ts'.
Proof. induction ts as [|t ts IH]; cbn; [done|]. unfold pending_bytes in *. lia. Qed.
Lemma pending_bytes_nonneg ts : Forall (λ t, 0 <= ap_frame_size t) ts → 0 <= pending_bytes ts.
Proof. induction 1 as [|t ts Ht _ IH]; cbn; [lia|]. unfold pending_bytes in IH. destruct (is_writing t); lia. Qed.

Lemma drain_settled ts l d :
  pc_durability (config_ l) = Write → Forall (λ t, 0 <= ap_frame_size t) ts →
  0 <= write_position_ l → write_position_ l + pending_bytes ts < 2 ^ 64 → zlen ts <= queue_depth_ l < 2 ^ 32 →
  let l' := (drain ts (l, d)).2.1 in
  config_ l' = config_ l ∧ segment_bytes_ l' = segment_bytes_ l ∧ offsets_ l' = offsets_ l ∧
  queue_depth_ l' = queue_depth_ l - zlen ts ∧ log_frame_alignment_ l' = log_frame_alignment_ l ∧ file_ l' = file_ l ∧
  write_position_ l' = write_position_ l + pending_bytes ts.
Proof.
  intros Hd Hts. revert l d Hd. induction Hts as [|t ts Ht Hts IH]; intros l d Hd Hw Hp Hq; cbn [drain].
  { unfold zlen in *. cbn in *. split_and!; try done; lia. }
  pose proof (complete_settled t l d Hd) as (E1 & E2 & E3 & E4 & _ & E5 & E6 & E7).
  destruct (complete t (l, d)) as [r [l1 d1]]. cbn [fst snd] in *. rewrite zlen_cons in *. pose proof (zlen_nonneg ts).
  pose proof (pending_bytes_nonneg ts Hts). change (pending_bytes (t :: ts)) with
    ((if is_writing t then 0 else ap_frame_size t) + pending_bytes ts) in *.
  assert (queue_depth_ l1 = queue_depth_ l - 1) as Eq by (rewrite E4; apply wrap_u_id; unfold in_u; lia).
  assert (write_position_ l1 = write_position_ l + (if is_writing t then 0 else ap_frame_size t)) as Ew.
  { rewrite E7. destruct (is_writing t); [lia|]. apply wrap_u_id. unfold in_u. lia. }
  specialize (IH l1 d1). destruct (drain ts (l1, d1)) as [rs [l2 d2]]. cbn [fst snd] in *.
  destruct IH as (F1 & F2 & F3 & F4 & F5 & F6 & F7); [congruence|destruct (is_writing t); lia|lia|lia|].
  split_and!; try congruence; lia.
Qed.

(** The frame of a record set. *)
Definition frame_bytes (l : PartitionLogShard) (records : bytes) : Z :=
  round_up (header_size + zlen records) (log_frame_alignment_ l).

(** The append that a call in state [l] starts, when its record set fits. *)
Definition started (id : nat) (l : PartitionLogShard) (records : bytes) : Append :=
  let base_offset := latest (offsets_ l) in
  let record_set := mkRecordSet base_offset (base_offset + cnt records - 1) records in
  mkAppend id record_set (frame_bytes l records) (log_frame (log_frame_alignment_ l) record_set)
    (mkProducePartitionResult (pc_topic (config_ l)) (pc_partition (config_ l)) 0 base_offset
      (base_offset + cnt records) (earliest (offsets_ l))) Ensured.
Definition offsets_after (l : PartitionLogShard) (records : bytes) : PartitionOffsets :=
  let new_latest := latest (offsets_ l) + cnt records in
  mkPartitionOffsets (earliest (offsets_ l)) new_latest
    (if (length (pc_isr (config_ l)) <=? 1)%nat then new_latest else high_watermark (offsets_ l)).

(** A call that is accepted and finds room in the open segment. *)
Definition accepted (l : PartitionLogShard) (records : bytes) (acks : Z) : Prop :=
  rs_ok records ∧ zlen records <= pc_max_frame_bytes (config_ l) ∧ -1 <= acks <= 1 ∧
  queue_depth_ l < pc_queue_limit (config_ l) ∧ 0 <= latest (offsets_ l) ∧ latest (offsets_ l) + cnt records < 2 ^ 63 ∧
  is_Some (file_ l) ∧ 0 <= write_position_ l + frame_bytes l records <= segment_bytes_ l ∧ segment_bytes_ l < 2 ^ 64.

(** The state a call that is accepted leaves, and the offsets it computed. *)
Lemma call_prefix {A} l d records acks (refuse : ErrorCode → IO World A) (k : Z → Z → IO World A) :
  accepted l records acks →
  (if zlen records >? pc_max_frame_bytes (config_ l) then refuse RecordListTooLarge
   else if queue_depth_ l >=? pc_queue_limit (config_ l) then refuse RequestTimedOut
   else if (acks <? -1) || (acks >? 1) then refuse InvalidRequest
   else
     upd (set_queue_depth_ (u32 (queue_depth_ l + 1)));;
     count ← lift (record_count records);
     new_latest ← checked_i64 (latest (offsets_ l) + count);
     upd (set_latest new_latest);;
     when (length (pc_isr (config_ l)) <=? 1)%nat (upd (set_high_watermark new_latest));;
     k (if count =? 0 then latest (offsets_ l) - 1 else latest (offsets_ l) + count - 1) new_latest) (l, d)
  = k (latest (offsets_ l) + cnt records - 1) (latest (offsets_ l) + cnt records) (queued (offsets_after l records) l, d).
Proof.
  intros (Hb & Hmax & Hacks & Hq & Hl & Hend & _). pose proof (cnt_pos records Hb). destruct (cnt_ok records (proj2 Hb)) as (Hc & _).
  rewrite Z.gtb_ltb, Z.geb_leb, (proj2 (Z.ltb_ge _ _) Hmax), (proj2 (Z.leb_gt _ _) Hq).
  rewrite Z.gtb_ltb, (proj2 (Z.ltb_ge acks (-1))), (proj2 (Z.ltb_ge 1 acks)) by lia. cbn [orb].
  unfold mbind, IO_bind, upd, lift. rewrite Hc, checked_i64_ok by lia. cbn [fst snd].
  destruct (Z.eqb_spec (cnt records) 0); [lia|]. unfold when, offsets_after, queued. by destruct (_ <=? _)%nat.
Qed.

Lemma fits_here l frame_size :
  0 <= write_position_ l + frame_size <= segment_bytes_ l → segment_bytes_ l < 2 ^ 64 →
  (write_position_ l =? 0) || (u64 (write_position_ l + frame_size) <=? segment_bytes_ l) = true.
Proof. intros Hw Hs. rewrite wrap_u_id by (unfold in_u; lia). apply orb_true_iff. right. lia. Qed.

Lemma call_started id flushes l d records acks :
  accepted l records acks →
  call id records acks flushes (l, d) = (Ok (inr (started id l records)), (queued (offsets_after l records) l, d)).
Proof.
  intros Ha. pose proof Ha as (_ & _ & _ & _ & _ & _ & [p Hf] & Hw & Hs). unfold call.
  rewrite (io_bind_ok (asks (λ l, l)) _ _ l (l, d)) by done. cbv zeta.
  set (refusal e := mkProducePartitionResult (pc_topic (config_ l)) (pc_partition (config_ l)) (error_code_value e) 0 0
    (earliest (offsets_ l))).
  rewrite (call_prefix l d records acks (λ e, mret (inl (refusal e))) (λ last_offset new_latest,
    align ← asks log_frame_alignment_;
    stage ← ensure_begin (latest (offsets_ l)) (round_up (header_size + zlen records) align) flushes;
    mret (inr (mkAppend id (mkRecordSet (latest (offsets_ l)) last_offset records) (round_up (header_size + zlen records) align)
      (log_frame align (mkRecordSet (latest (offsets_ l)) last_offset records))
      (mkProducePartitionResult (pc_topic (config_ l)) (pc_partition (config_ l)) 0 (latest (offsets_ l)) new_latest
        (earliest (offsets_ l))) stage))) Ha).
  set (l1 := queued _ l). rewrite (io_bind_ok _ _ _ (log_frame_alignment_ l) (l1, d)) by done.
  rewrite (io_bind_ok _ _ _ Ensured (l1, d)); [done|]. unfold ensure_begin.
  rewrite (io_bind_ok (asks Datatypes.id) _ _ l1 (l1, d)) by done. unfold l1 at 1. cbn [file_ queued set_offsets_ set_queue_depth_].
  rewrite Hf. by rewrite (fits_here l1).
Qed.

Lemma append_started id l d records acks :
  accepted l records acks →
  append records acks (l, d) = complete (started id l records) (queued (offsets_after l records) l, d).
Proof.
  intros Ha. pose proof Ha as (_ & _ & _ & _ & _ & _ & [p Hf] & Hw & Hs). unfold append.
  rewrite (io_bind_ok (asks Datatypes.id) _ _ l (l, d)) by done. cbv zeta.
  set (refusal e := mkProducePartitionResult (pc_topic (config_ l)) (pc_partition (config_ l)) (error_code_value e) 0 0
    (earliest (offsets_ l))).
  rewrite (call_prefix l d records acks (λ e, mret (refusal e)) (λ last_offset new_latest,
    commit (mkRecordSet (latest (offsets_ l)) last_offset records);;
    mret (mkProducePartitionResult (pc_topic (config_ l)) (pc_partition (config_ l)) 0 (latest (offsets_ l)) new_latest
        (earliest (offsets_ l)))) Ha).
  set (l1 := queued _ l). set (record_set := mkRecordSet _ _ records). unfold commit, complete, finally, mbind at 1, IO_bind at 1.
  rewrite (write_split (started id l records) record_set (l1, d)) by done. rewrite ensure_at. unfold l1 at 1.
  cbn [file_ queued set_offsets_ set_queue_depth_]. rewrite Hf, (fits_here l1) by done. cbn [ap_stage started].
  unfold mbind, IO_bind. by destruct (from_ensured _ (l1, d)) as [[[]|e] w].
Qed.

(** A schedule in which appends reserve and complete in the order of their
    calls. *)
Definition in_order (e : LogEvent) (c : Conc) : bool :=
  match e with
  | Resume i =>
      match c_appends c !! i with
      | Some t =>
          match ap_stage t with
          | Ensured => forallb is_writing (take i (c_appends c))
          | Writing _ _ _ => (i =? 0)%nat
          | _ => true
          end
      | None => true
      end
  | _ => true
  end.
Fixpoint run_in_order (es : list LogEvent) (c : Conc) : option Conc :=
  match es with
  | [] => Some c
  | e :: es' => if in_order e c then log_event e c ≫= run_in_order es' else None
  end.

Fixpoint calls_of (es : list LogEvent) : list (bytes * Z) :=
  match es with
  | [] => []
  | Call records acks :: es' => (records, acks) :: calls_of es'
  | _ :: es' => calls_of es'
  end.

Definition calls_bytes (l : PartitionLogShard) (calls : list (bytes * Z)) : Z :=
  foldr (λ c n, frame_bytes l c.1 + n) 0 calls.

(** The open segment, the queue and the offsets have room for these calls. *)
Definition room_for_calls (l : PartitionLogShard) (under_way : list Append) (calls : list (bytes * Z)) : Prop :=
  pc_durability (config_ l) = Write ∧ is_Some (file_ l) ∧
  Forall (λ c, rs_ok c.1 ∧ zlen c.1 <= pc_max_frame_bytes (config_ l) ∧ -1 <= c.2 <= 1) calls ∧
  0 <= latest (offsets_ l) ∧ latest (offsets_ l) + log_end (map fst calls) < 2 ^ 63 ∧
  0 <= write_position_ l ∧
  write_position_ l + pending_bytes under_way + calls_bytes l calls <= segment_bytes_ l ∧
  segment_bytes_ l < 2 ^ 64 ∧
  zlen under_way <= queue_depth_ l ∧ queue_depth_ l + zlen calls <= pc_queue_limit (config_ l) ∧
  pc_queue_limit (config_ l) < 2 ^ 32.

(** A state between calls: what is under way, run to its end, gives what the
    calls one by one would. *)
Record consistent (w0 : World) (called : list (bytes * Z)) (c : Conc) : Prop := {
  con_stages : Forall (λ t, (ap_stage t = Ensured ∨ is_writing t = true) ∧ 0 <= ap_frame_size t) (c_appends c);
  con_result : one_by_one called w0 =
    (map snd (c_answers c) ++ (drain (c_appends c) (c_world c)).1, (drain (c_appends c) (c_world c)).2);
  con_ids : map fst (c_answers c) ++ map ap_id (c_appends c) = seq 0 (c_calls c);
  con_calls : c_calls c = length called;
  con_flushes : c_flushes c = [];
}.

Lemma frame_bytes_nonneg l records : 0 <= frame_bytes l records.
Proof. apply wrap_u_range. lia. Qed.
Lemma frames_nonneg l calls : 0 <= calls_bytes l calls.
Proof. induction calls as [|[b a] calls IH]; cbn; [lia|]. pose proof (frame_bytes_nonneg l b). unfold calls_bytes in IH. lia. Qed.
Lemma calls_bytes_cons l records acks calls :
  calls_bytes l ((records, acks) :: calls) = frame_bytes l records + calls_bytes l calls.
Proof. done. Qed.

Lemma drain_world w0 called c rest :
  consistent w0 called c → room_for_calls (c_world c).1 (c_appends c) rest →
  let l := (c_world c).1 in let l' := (drain (c_appends c) (c_world c)).2.1 in
  config_ l' = config_ l ∧ segment_bytes_ l' = segment_bytes_ l ∧ offsets_ l' = offsets_ l ∧
  queue_depth_ l' = queue_depth_ l - zlen (c_appends c) ∧ log_frame_alignment_ l' = log_frame_alignment_ l ∧
  file_ l' = file_ l ∧ write_position_ l' = write_position_ l + pending_bytes (c_appends c).
Proof.
  intros [Hst _ _ _ _] (Hd & _ & _ & _ & _ & Hw & Hroom & Hs & Hq & Hql & Hlim). destruct (c_world c) as [l d]. cbn [fst] in *.
  pose proof (frames_nonneg l rest). pose proof (zlen_nonneg rest).
  apply drain_settled; [done|by eapply Forall_impl; [exact Hst|intros ? []]|lia..].
Qed.

(** A call of which the open segment and the queue can take even more. *)
Lemma room_accepted l ts records acks rest :
  room_for_calls l ts ((records, acks) :: rest) → 0 <= pending_bytes ts → accepted l records acks.
Proof.
  intros (Hd & Hf & Hall & Hl & Hend & Hw & Hroom & Hs & Hq & Hql & Hlim) Hp.
  apply Forall_cons in Hall as [(Hb & Hmax & Hacks) Hrest]. rewrite calls_bytes_cons in Hroom. cbn [fst snd] in *.
  pose proof (frames_nonneg l rest). pose proof (frame_bytes_nonneg l records). rewrite zlen_cons in Hql. pose proof (zlen_nonneg rest).
  assert (0 <= log_end (map fst rest)).
  { apply log_end_nonneg. rewrite Forall_map. eapply Forall_impl; [exact Hrest|]. by intros x [? _]. }
  cbn [map fst log_end] in Hend. unfold accepted. split_and!; try done; try apply Hb; lia.
Qed.

Lemma accepted_later l l1 ts records acks rest :
  room_for_calls l ts ((records, acks) :: rest) → 0 <= pending_bytes ts →
  config_ l1 = config_ l → segment_bytes_ l1 = segment_bytes_ l → offsets_ l1 = offsets_ l →
  queue_depth_ l1 = queue_depth_ l - zlen ts → log_frame_alignment_ l1 = log_frame_alignment_ l → file_ l1 = file_ l →
  write_position_ l1 = write_position_ l + pending_bytes ts → accepted l1 records acks.
Proof.
  intros Hroom Hp E1 E2 E3 E4 E5 E6 E7. pose proof (room_accepted l ts records acks rest Hroom Hp) as (Hb & ? & ? & ? & ? & ? & ? & ? & ?).
  destruct Hroom as (_ & _ & _ & _ & _ & Hw & Hroom & _). rewrite calls_bytes_cons in Hroom.
  pose proof (frames_nonneg l rest). pose proof (frame_bytes_nonneg l records). pose proof (zlen_nonneg ts).
  unfold accepted, frame_bytes in *. rewrite E1, E2, E3, E4, E5, E6, E7. split_and!; try done; try apply Hb; lia.
Qed.

Lemma room_queued n l ts records acks rest :
  room_for_calls l ts ((records, acks) :: rest) →
  room_for_calls (queued (offsets_after l records) l) (ts ++ [started n l records]) rest.
Proof.
  intros (Hd & Hf & Hall & Hl & Hend & Hw & Hroom & Hs & Hq & Hql & Hlim). apply Forall_cons in Hall as [(Hb & _) Hrest].
  rewrite calls_bytes_cons in Hroom. cbn [map fst log_end] in *. rewrite zlen_cons in Hql. pose proof (zlen_nonneg rest). pose proof (zlen_nonneg ts).
  pose proof (cnt_pos records Hb). assert (u32 (queue_depth_ l + 1) = queue_depth_ l + 1) as Eq by (apply wrap_u_id; unfold in_u; lia).
  unfold room_for_calls. rewrite pending_bytes_app, zlen_app. change (zlen [started n l records]) with 1.
  change (calls_bytes (queued _ l) rest) with (calls_bytes l rest).
  unfold queued, offsets_after. cbn. rewrite Eq. split_and!; try done; lia.
Qed.

Lemma consistent_call w0 called c records acks rest :
  consistent w0 called c → room_for_calls (c_world c).1 (c_appends c) ((records, acks) :: rest) →
  consistent w0 (called ++ [(records, acks)]) (on_call records acks c) ∧
  room_for_calls (c_world (on_call records acks c)).1 (c_appends (on_call records acks c)) rest.
Proof.
  intros Hc Hroom. pose proof (drain_world _ _ _ _ Hc Hroom) as (E1 & E2 & E3 & E4 & E5 & E6 & E7).
  destruct Hc as [Hst Hres Hids Hn Hfl]. destruct c as [[l d] ts fl n ans]. cbn [c_world c_appends c_flushes c_calls c_answers fst] in *.
  assert (0 <= pending_bytes ts) as Hp by (apply pending_bytes_nonneg; eapply Forall_impl; [exact Hst|by intros ? []]).
  pose proof (room_accepted l ts records acks rest Hroom Hp) as Ha.
  unfold on_call. cbn [c_world c_appends c_flushes c_calls c_answers]. rewrite (call_started n (length fl) l d records acks Ha).
  split.
  - split; cbn [c_world c_appends c_flushes c_calls c_answers].
    + apply Forall_app. split; [done|]. constructor; [|done]. split; [by left|]. apply frame_bytes_nonneg.
    + rewrite one_by_one_snoc, Hres. cbn [fst snd].
      rewrite drain_app, (drain_ignores (queued _)) by (apply Forall_true; intros; apply complete_ignores_queued).
      destruct (drain ts (l, d)) as [rs [l1 d1]]. cbn [fst snd] in *. cbn [drain].
      rewrite (append_started n l1 d1 records acks) by (by apply (accepted_later l l1 ts records acks rest)).
      unfold started, offsets_after, frame_bytes. rewrite E1, E3, E5.
      destruct (complete _ _) as [r w1]. cbn [fst snd]. by rewrite app_assoc.
    + by rewrite map_app, app_assoc, Hids, seq_S.
    + rewrite length_app, <- Hn. simpl. lia.
    + done.
  - cbn [c_world c_appends fst]. by apply (room_queued n l ts records acks rest).
Qed.

Lemma calls_bytes_same l l' calls : log_frame_alignment_ l' = log_frame_alignment_ l → calls_bytes l' calls = calls_bytes l calls.
Proof. intros E. induction calls as [|[b a] calls IH]; [done|]. rewrite !calls_bytes_cons, IH. unfold frame_bytes. by rewrite E. Qed.

(** A write completes. *)
Lemma resume_writing t l d p position segment_base :
  pc_durability (config_ l) = Write → ap_stage t = Writing p position segment_base →
  ∃ r w, (frame_written t p position segment_base;; flush_begin) (l, d) = (r, w) ∧
    ((∃ e, r = Err e ∧ complete t (l, d) = (Err e, leave_queue w)) ∨
     (r = Ok Finished ∧ complete t (l, d) = (Ok (ap_response t), leave_queue w))).
Proof.
  intros Hd Hs. pose proof (frame_written_keeps t (l, d) p position segment_base) as (Hc & _).
  unfold complete, finally, from_writing. rewrite Hs. unfold mbind, IO_bind.
  destruct (frame_written t p position segment_base (l, d)) as [[[]|e] [l1 d1]]; cbn [fst snd] in Hc; [|eauto 10].
  unfold flush_begin, maybe_flush, asks, mbind, IO_bind. cbn. rewrite Hc, Hd. cbn. eauto 10.
Qed.

Lemma room_completed l ts t rest (w' : World) :
  room_for_calls l (t :: ts) rest → is_writing t = true → settled t l w'.1 → room_for_calls w'.1 ts rest.
Proof.
  intros (Hd & Hf & Hall & Hl & Hend & Hw & Hroom & Hs & Hq & Hql & Hlim) Ht (E1 & E2 & E3 & E4 & _ & E5 & E6 & E7).
  rewrite Ht in E7. rewrite zlen_cons in Hq. pose proof (zlen_nonneg ts). pose proof (zlen_nonneg rest).
  change (pending_bytes (t :: ts)) with ((if is_writing t then 0 else ap_frame_size t) + pending_bytes ts) in Hroom. rewrite Ht in Hroom.
  rewrite wrap_u_id in E4 by (unfold in_u; lia).
  unfold room_for_calls. rewrite (calls_bytes_same l w'.1) by done. rewrite E1, E2, E3, E4, E6, E7. split_and!; try done; lia.
Qed.

(** Writes that complete do not move the position. *)
Lemma drain_writing ts l d :
  pc_durability (config_ l) = Write → forallb is_writing ts = true →
  let l' := (drain ts (l, d)).2.1 in
  write_position_ l' = write_position_ l ∧ active_segment_base_offset_ l' = active_segment_base_offset_ l ∧ file_ l' = file_ l.
Proof.
  revert l d. induction ts as [|t ts IH]; intros l d Hd; [done|]. cbn [forallb drain]. intros [Ht Hts]%andb_true_iff.
  pose proof (complete_settled t l d Hd) as (E1 & _ & _ & _ & E2 & _ & E3 & E4). rewrite Ht in E4.
  destruct (complete t (l, d)) as [r [l1 d1]]. cbn [fst snd] in *. specialize (IH l1 d1).
  destruct (drain ts (l1, d1)) as [rs [l2 d2]]. cbn [fst snd] in *. destruct IH as (? & ? & ?); [congruence|done|]. split_and!; congruence.
Qed.

(** A reservation, when all the appends before wait for their writes. *)
Lemma drain_reserved ts t ts' l d p :
  pc_durability (config_ l) = Write → forallb is_writing ts = true → ap_stage t = Ensured → file_ l = Some p →
  drain (ts ++ set_ap_stage (Writing p (write_position_ l) (active_segment_base_offset_ l)) t :: ts')
    (set_write_position_ (u64 (write_position_ l + ap_frame_size t)) l, d) = drain (ts ++ t :: ts') (l, d).
Proof.
  intros Hd Hts Ht Hf. rewrite !drain_app. rewrite (drain_ignores (set_write_position_ _)).
  2:{ rewrite Forall_forall. intros x Hx. apply complete_ignores_position. rewrite forallb_forall in Hts. by apply Hts, list_elem_of_In. }
  pose proof (drain_writing ts l d Hd Hts) as (E1 & E2 & E3). destruct (drain ts (l, d)) as [rs [l1 d1]]. cbn [fst snd] in *.
  cbn [drain]. assert (complete (set_ap_stage (Writing p (write_position_ l) (active_segment_base_offset_ l)) t)
    (set_write_position_ (u64 (write_position_ l + ap_frame_size t)) l1, d1) = complete t (l1, d1)) as ->; [|done].
  unfold complete. rewrite Ht. unfold from_ensured, finally, asks, upd, mbind, IO_bind. cbn. rewrite E3, Hf, E1, E2. done.
Qed.

Lemma room_reserved l ts1 t ts2 rest p position segment_base :
  room_for_calls l (ts1 ++ t :: ts2) rest → is_writing t = false → Forall (λ t, 0 <= ap_frame_size t) (ts1 ++ t :: ts2) →
  room_for_calls (set_write_position_ (u64 (write_position_ l + ap_frame_size t)) l)
    (ts1 ++ set_ap_stage (Writing p position segment_base) t :: ts2) rest.
Proof.
  intros (Hd & Hf & Hall & Hl & Hend & Hw & Hroom & Hs & Hq & Hql & Hlim) Ht [H1 [H2 H3]%Forall_cons]%Forall_app.
  pose proof (pending_bytes_nonneg ts1 H1). pose proof (pending_bytes_nonneg ts2 H3). pose proof (frames_nonneg l rest).
  rewrite pending_bytes_app in Hroom. change (pending_bytes (t :: ts2)) with
    ((if is_writing t then 0 else ap_frame_size t) + pending_bytes ts2) in Hroom. rewrite Ht in Hroom.
  unfold room_for_calls. rewrite pending_bytes_app. change (pending_bytes (set_ap_stage _ t :: ts2)) with (0 + pending_bytes ts2).
  change (calls_bytes (set_write_position_ _ l) rest) with (calls_bytes l rest). rewrite zlen_app, zlen_cons in *.
  cbn [write_position_ set_write_position_]. rewrite wrap_u_id by (unfold in_u; lia).
  cbn. split_and!; try done; lia.
Qed.

Lemma consistent_resume w0 called c i c' rest :
  consistent w0 called c → room_for_calls (c_world c).1 (c_appends c) rest → in_order (Resume i) c = true →
  on_resume i c = Some c' → consistent w0 called c' ∧ room_for_calls (c_world c').1 (c_appends c') rest.
Proof.
  intros [Hst Hres Hids Hn Hfl] Hroom. destruct c as [[l d] ts fl n ans]. cbn [c_world c_appends c_flushes c_calls c_answers fst] in *.
  subst fl. unfold in_order, on_resume. cbn [c_world c_appends c_flushes c_calls c_answers].
  destruct (ts !! i) as [t|] eqn:Hi; [|done]. pose proof (proj1 (Forall_lookup _ _) Hst i t Hi) as [Hstage _].
  pose proof Hroom as (Hd & [p Hf] & _).
  apply list_elem_of_split_length in Hi as (ts1 & ts2 & -> & ->). cbn [mbind option_bind].
  unfold resume, is_writing in *. destruct (ap_stage t) as [| | |q position segment_base|] eqn:Hs; try (by destruct Hstage).
  - rewrite take_app_length. intros Hw. unfold reserve, asks, upd, mbind, IO_bind. cbn. rewrite Hf. cbn. intros [= <-].
    rewrite insert_app_r_alt, Nat.sub_diag by done. cbn [insert list_insert]. set (t' := set_ap_stage _ t).
    assert (map ap_id (ts1 ++ t' :: ts2) = map ap_id (ts1 ++ t :: ts2)) as Hid by (by rewrite !map_app).
    assert (is_writing t = false) as Ht by (unfold is_writing; by rewrite Hs).
    split; [split; cbn [c_world c_appends c_flushes c_calls c_answers]|].
    + apply Forall_app in Hst as [H1 [[_ H2] H3]%Forall_cons]. apply Forall_app. split; [done|]. constructor; [|done].
      split; [by right|done].
    + unfold t'. by rewrite drain_reserved.
    + by rewrite Hid.
    + done.
    + done.
    + cbn [c_world c_appends fst]. apply room_reserved; [done|done|]. eapply Forall_impl; [exact Hst|by intros ? []].
  - intros Hi0. assert (ts1 = []) as -> by (by destruct ts1). cbn [app length] in *.
    destruct (resume_writing t l d q position segment_base Hd Hs) as (r & w & Hrun & Hr).
    match goal with |- context [Some ?m ≫= ?f] => change (Some m ≫= f) with (f m) end. cbv beta. rewrite Hrun.
    assert (is_writing t = true) as Ht by (unfold is_writing; by rewrite Hs).
    pose proof (complete_settled t l d Hd) as Hset. cbn [drain] in Hres.
    assert (∀ r', complete t (l, d) = (r', leave_queue w) →
      let c := mkConc (leave_queue w) ts2 [] n (ans ++ [(ap_id t, r')]) in
      consistent w0 called c ∧ room_for_calls (c_world c).1 (c_appends c) rest) as Hfin.
    { intros r' Hc. rewrite Hc in Hres, Hset. split; [split; cbn [c_world c_appends c_flushes c_calls c_answers]|].
      - by apply Forall_cons in Hst as [_ ?].
      - rewrite Hres, map_app. destruct (drain ts2 (leave_queue w)) as [rs w2]. cbn. by rewrite <- app_assoc.
      - rewrite map_app, <- app_assoc. done.
      - done.
      - done.
      - by apply (room_completed l ts2 t rest (leave_queue w)). }
    destruct Hr as [(e & -> & Hc)|[-> Hc]]; intros [= <-]; exact (Hfin _ Hc).
Qed.

Lemma run_consistent es w0 called c c' :
  consistent w0 called c → room_for_calls (c_world c).1 (c_appends c) (calls_of es) → run_in_order es c = Some c' →
  consistent w0 (called ++ calls_of es) c'.
Proof.
  revert called c. induction es as [|e es IH]; intros called c Hc Hroom; cbn [run_in_order calls_of].
  { intros [= <-]. by rewrite app_nil_r. }
  destruct (in_order e c) eqn:Ho; [|done]. destruct e as [records acks|i|n]; cbn [log_event calls_of] in *.
  - destruct (consistent_call w0 called c records acks (calls_of es) Hc Hroom) as [Hc' Hroom']. intros Hrun.
    rewrite (cons_middle (records, acks) called). rewrite app_assoc. by apply (IH _ (on_call records acks c)).
  - destruct (on_resume i c) as [c1|] eqn:Hr; [|done].
    destruct (consistent_resume w0 called c i c1 (calls_of es) Hc Hroom Ho Hr) as [Hc' Hroom']. by apply IH.
  - unfold on_flush. rewrite (con_flushes _ _ _ Hc). done.
Qed.

Lemma one_by_one_holds {Laws : StorageLaws} calls l d L :
  log_holds l d L → zlen L + zlen calls < 2 ^ 31 → latest (offsets_ l) + log_end (map fst calls) < 2 ^ 63 →
  Forall (λ c, rs_ok c.1 ∧ zlen c.1 <= pc_max_frame_bytes (config_ l) ∧ -1 <= c.2 <= 1) calls →
  queue_depth_ l < pc_queue_limit (config_ l) < 2 ^ 32 →
  log_holds (one_by_one calls (l, d)).2.1 (one_by_one calls (l, d)).2.2 (L ++ map fst calls).
Proof.
  revert l d L. induction calls as [|[b acks] calls IH]; intros l d L Hh Hn Hend Hall Hq; cbn [one_by_one map fst].
  { by rewrite app_nil_r. }
  apply Forall_cons in Hall as [(Hb & Hmax & Hacks) Hall]. cbn [fst snd] in *. rewrite zlen_cons in Hn. cbn [map fst log_end] in Hend.
  assert (0 <= log_end (map fst calls)).
  { apply log_end_nonneg. rewrite Forall_map. eapply Forall_impl; [exact Hall|]. by intros x [? _]. }
  pose proof (zlen_nonneg calls).
  destruct (append_accepted l d L b acks Hh) as (l1 & d1 & -> & Hh1 & Hlat & _ & (E1 & E2 & E3) & Eq).
  { split_and!; [apply Hb..|lia|lia|lia]. }
  { unfold append_refusal. bcase; simpl; (done || lia). }
  specialize (IH l1 d1 (L ++ [b]) Hh1). destruct (one_by_one calls (l1, d1)) as [rs [l2 d2]]. cbn [fst snd] in *.
  rewrite <- app_assoc in IH. apply IH.
  - rewrite zlen_app. change (zlen [b]) with 1. lia.
  - lia.
  - by rewrite E1.
  - by rewrite E1, Eq.
Qed.

End concurrent.

(** ** On the disk in memory *)

Definition write_partition : PartitionConfig :=
  mkPartitionConfig (str "orders") 0 0 [1] [1] Write 16 4096 HighWatermark false 1 0 0 (-1).
(** A log with [n] record sets of one record, two in each segment. *)
Definition write_world (n : nat) : World :=
  (append_all (replicate n (sample_batch 1)) 1
    (start write_partition sample_root 1024 (PartitionLogShard_init, empty_disk)).2).2.

Lemma write_world_holds : log_holds (write_world 0).1 (write_world 0).2 [].
Proof. exact (proj1 (started_holds write_partition ltac:(done))). Qed.

Lemma append_alone_witness :
  ∃ es c, run_events (Call (sample_batch 3) 1 :: es) (idle sample_world) = Some c ∧ c_appends c = [] ∧
    c_answers c = [(0%nat, Ok (mkProducePartitionResult (str "orders") 0 0 0 3 0))].
Proof.
  destruct (append_alone (sample_batch 3) 1 sample_world) as (es & c & _ & Hrun & Hend & _ & Ha); [vm_compute; reflexivity|].
  exists es, c. split; [exact Hrun|]. split; [exact Hend|]. rewrite Ha. vm_compute. reflexivity.
Defined.

(** Two appends that overlap, in order. *)
Definition overlap : list LogEvent :=
  [Call (sample_batch 3) 1; Call (sample_batch 2) 1; Resume 0; Resume 1; Resume 0; Resume 0].

Definition overlap_end : Conc :=
  match run_in_order overlap (idle (write_world 0)) with Some c => c | None => idle (write_world 0) end.

Lemma overlap_runs : run_in_order overlap (idle (write_world 0)) = Some overlap_end.
Proof.
  assert (bool_decide (is_Some (run_in_order overlap (idle (write_world 0)))) = true) as E by (vm_compute; reflexivity).
  unfold overlap_end. revert E. generalize (run_in_order overlap (idle (write_world 0))). intros [c|]; [done|discriminate].
Qed.

Lemma overlap_room : room_for_calls (write_world 0).1 [] (calls_of overlap).
Proof.
  destruct (started_holds write_partition ltac:(done)) as (_ & Hc & Ho & Hq). change (start _ _ _ _).2 with (write_world 0) in *.
  unfold room_for_calls. rewrite Hc, Ho, Hq. split; [done|]. split; [apply (bool_decide_eq_true_1 _); vm_compute; reflexivity|].
  split; [repeat constructor; vm_compute; congruence|].
  split_and!; first [vm_compute; reflexivity|vm_compute; congruence].
Qed.


(** The second append calls while the first rolls the segment over. *)
Definition race_rollover : list LogEvent :=
  [Call (sample_batch 1) 1; Resume 0; Call (sample_batch 1) 1; Resume 0; Resume 0; Resume 0; Resume 0; Resume 0; Resume 0].
(** The write of the second append completes first. *)
Definition race_completion : list LogEvent :=
  [Call (sample_batch 3) 1; Call (sample_batch 2) 1; Resume 0; Resume 1; Resume 1; Resume 0].

Definition outcome_of (n : nat) (es : list LogEvent) (offset : Z) : option (list Z * nat * option error) :=
  c ← run_events es (idle (write_world n));
  Some (map (λ a, match a.2 with Ok r => ppr_error_code r | Err _ => -2 end) (c_answers c), length (c_appends c),
    match (fetch offset 0 (c_world c)).1 with Ok _ => None | Err e => Some e end).

(** Appends that race lose data.  When a second append is called while
    the first opens a new segment, both are acknowledged, but the index gives
    the first record set a place in the segment of the second, and fetching
    it fails for good.  When the write of a second append completes first,
    both are acknowledged, but the index is out of order, and a fetch reads
    outside its buffer. *)
Theorem append_races :
  outcome_of 2 race_rollover 2 = Some ([0; 0], 0%nat, Some (RuntimeError (str "partition segment frame is corrupt"))) ∧
  outcome_of 0 race_completion 0
    = Some ([0; 0], 0%nat, Some (UndefinedBehavior (str "frame outside the read buffer"))).
Proof. split; vm_compute; reflexivity. Qed.
