(* ===== verification/SegmentCache.v ===== *)
(** * Shared handles of segment files

    In PartitionLog.v a file is its path and a read ends before anything else
    happens.  Here reads overlap: a fetch keeps the handle it got from
    [get_segment_file_for_read] until its reads are done, and meanwhile
    segments are sealed, opened and evicted from [segment_cache_].  What
    decides when a file is closed is the reference count of the handle and its
    destructor.

    Models [CachedSegmentFile], [get_segment_file_for_read],
    [ensure_segment_for_write], [open_active_segment] and [stop] of
    src/partition_log_shard.cpp as far as they handle files; the conditions on
    [write_position_] are left to the sequence of events.  A file is a
    number, a handle (the object that [CachedSegmentPtr] points to) the file
    and whether its destructor closes it ([close_gate != nullptr]); its
    references are its occurrences in the cache and among the readers. *)

From Stdlib Require Import ZArith Lia.
From stdpp Require Import base tactics numbers option sorting sets gmap functions list.
From S2P Require Import Prelude Wire Protocol Codec Crc32c RecordBatch Config Detail Storage LogFormat PartitionLog.

Local Open Scope Z_scope.

(** ** State and operations *)

Record CachedSegmentFile := mkCachedSegmentFile { cf_file : nat; cf_gated : bool }.

(** [sf_base]: [active_segment_base_offset_]; [sf_active]: [file_];
    [sf_opening]: the segments that are being opened for a read;
    [sf_activating]: opens by [open_active_segment] under way; [sf_closed]: the
    files that [close] was called on; [sf_dropped]: the files that were in
    [file_] when another was put there; [sf_files]: files opened so far. *)
Record SegmentFiles := mkSegmentFiles {
  sf_base : Z;
  sf_active : option nat;
  sf_handles : list CachedSegmentFile;
  sf_cache : list (Z * nat);
  sf_readers : list nat;
  sf_opening : list Z;
  sf_activating : nat;
  sf_closed : list nat;
  sf_dropped : list nat;
  sf_gate_closed : bool;
  sf_files : nat;
}.
Definition SegmentFiles_init : SegmentFiles := mkSegmentFiles 0 None [] [] [] [] 0 [] [] false 0.

Definition set_base v s := mkSegmentFiles v (sf_active s) (sf_handles s) (sf_cache s) (sf_readers s) (sf_opening s) (sf_activating s) (sf_closed s) (sf_dropped s) (sf_gate_closed s) (sf_files s).
Definition set_active v s := mkSegmentFiles (sf_base s) v (sf_handles s) (sf_cache s) (sf_readers s) (sf_opening s) (sf_activating s) (sf_closed s) (sf_dropped s) (sf_gate_closed s) (sf_files s).
Definition set_cache v s := mkSegmentFiles (sf_base s) (sf_active s) (sf_handles s) v (sf_readers s) (sf_opening s) (sf_activating s) (sf_closed s) (sf_dropped s) (sf_gate_closed s) (sf_files s).
Definition set_readers v s := mkSegmentFiles (sf_base s) (sf_active s) (sf_handles s) (sf_cache s) v (sf_opening s) (sf_activating s) (sf_closed s) (sf_dropped s) (sf_gate_closed s) (sf_files s).
Definition set_opening v s := mkSegmentFiles (sf_base s) (sf_active s) (sf_handles s) (sf_cache s) (sf_readers s) v (sf_activating s) (sf_closed s) (sf_dropped s) (sf_gate_closed s) (sf_files s).
Definition set_activating v s := mkSegmentFiles (sf_base s) (sf_active s) (sf_handles s) (sf_cache s) (sf_readers s) (sf_opening s) v (sf_closed s) (sf_dropped s) (sf_gate_closed s) (sf_files s).
Definition set_dropped v s := mkSegmentFiles (sf_base s) (sf_active s) (sf_handles s) (sf_cache s) (sf_readers s) (sf_opening s) (sf_activating s) (sf_closed s) v (sf_gate_closed s) (sf_files s).
Definition set_gate_closed v s := mkSegmentFiles (sf_base s) (sf_active s) (sf_handles s) (sf_cache s) (sf_readers s) (sf_opening s) (sf_activating s) (sf_closed s) (sf_dropped s) v (sf_files s).

Definition close_file (file : nat) (s : SegmentFiles) : SegmentFiles :=
  mkSegmentFiles (sf_base s) (sf_active s) (sf_handles s) (sf_cache s) (sf_readers s) (sf_opening s) (sf_activating s) (sf_closed s ++ [file]) (sf_dropped s) (sf_gate_closed s) (sf_files s).
Definition open_file (s : SegmentFiles) : nat * SegmentFiles :=
  (sf_files s, mkSegmentFiles (sf_base s) (sf_active s) (sf_handles s) (sf_cache s) (sf_readers s) (sf_opening s) (sf_activating s) (sf_closed s) (sf_dropped s) (sf_gate_closed s) (S (sf_files s))).
(** [make_lw_shared<CachedSegmentFile>(file, gate)]. *)
Definition make_handle (file : nat) (gated : bool) (s : SegmentFiles) : nat * SegmentFiles :=
  (length (sf_handles s), mkSegmentFiles (sf_base s) (sf_active s) (sf_handles s ++ [mkCachedSegmentFile file gated]) (sf_cache s) (sf_readers s) (sf_opening s) (sf_activating s) (sf_closed s) (sf_dropped s) (sf_gate_closed s) (sf_files s)).

(** [~CachedSegmentFile]: when the gate is closed the file is not. *)
Definition destroy (h : nat) (s : SegmentFiles) : SegmentFiles :=
  match sf_handles s !! h with
  | Some (mkCachedSegmentFile file true) => if sf_gate_closed s then s else close_file file s
  | _ => s
  end.

(** A reference to [h] was dropped: the last one destroys it. *)
Definition referenced (s : SegmentFiles) (h : nat) : bool :=
  bool_decide (h ∈ (sf_cache s).*2) || bool_decide (h ∈ sf_readers s).
Definition release (h : nat) (s : SegmentFiles) : SegmentFiles := if referenced s h then s else destroy h s.

(** [segment_cache_.pop_back()], and the loop around it. *)
Definition pop_back (s : SegmentFiles) : SegmentFiles :=
  match last (sf_cache s) with
  | Some (_, h) => release h (set_cache (removelast (sf_cache s)) s)
  | None => s
  end.
Fixpoint evict (n : nat) (s : SegmentFiles) : SegmentFiles :=
  match n with
  | O => s
  | S n' => if (kSegmentCacheMax <=? length (sf_cache s))%nat then evict n' (pop_back s) else s
  end.
Definition cache_handle (base : Z) (h : nat) (s : SegmentFiles) : SegmentFiles :=
  let s := evict (length (sf_cache s)) s in set_cache ((base, h) :: sf_cache s) s.

(** [get_segment_file_for_read] up to the open of a segment that is neither
    active nor cached. *)
Definition get_file (base : Z) (s : SegmentFiles) : SegmentFiles :=
  match (if base =? sf_base s then sf_active s else None) with
  | Some file => let '(h, s) := make_handle file false s in set_readers (sf_readers s ++ [h]) s
  | None =>
      match list_find (λ e : Z * nat, e.1 = base) (sf_cache s) with
      | Some (i, e) => set_readers (sf_readers s ++ [e.2]) (set_cache (e :: take i (sf_cache s) ++ drop (S i) (sf_cache s)) s)
      | None => set_opening (sf_opening s ++ [base]) s
      end
  end.
(** ... and from its completion on. *)
Definition file_opened (base : Z) (s : SegmentFiles) : SegmentFiles :=
  let '(file, s) := open_file s in
  let '(h, s) := make_handle file true s in
  let s := cache_handle base h s in
  set_readers (sf_readers s ++ [h]) s.

(** [open_active_segment] for the segment [base], up to the open, and when
    it completes: [file_.emplace], whatever [file_] holds. *)
Definition open_active_segment (base : Z) (s : SegmentFiles) : SegmentFiles :=
  set_activating (S (sf_activating s)) (set_base base s).
Definition activate (s : SegmentFiles) : SegmentFiles :=
  let '(file, s) := open_file s in
  set_active (Some file) (set_dropped (sf_dropped s ++ option_list (sf_active s)) s).

(** [ensure_segment_for_write]: when there is no active file, and when the
    active segment is full: its file goes to the cache. *)
Definition first_segment (base : Z) (s : SegmentFiles) : SegmentFiles :=
  match sf_active s with
  | None => open_active_segment base s
  | Some _ => s
  end.
Definition roll_over (base : Z) (s : SegmentFiles) : SegmentFiles :=
  match sf_active s with
  | None => s
  | Some old_file =>
      let sealed_base := sf_base s in
      let '(h, s) := make_handle old_file true (set_active None s) in
      open_active_segment base (cache_handle sealed_base h s)
  end.

(** [stop]: the cache is cleared, then the gate closed; in the end [file_]. *)
Definition clear_cache (s : SegmentFiles) : SegmentFiles := foldl (λ s h, release h s) (set_cache [] s) (sf_cache s).*2.
Definition stop_cache (s : SegmentFiles) : SegmentFiles := set_gate_closed true (clear_cache s).
Definition stop_active (s : SegmentFiles) : SegmentFiles :=
  if sf_gate_closed s then
    match sf_active s with
    | Some file => close_file file (set_active None s)
    | None => s
    end
  else s.

(** What happens: a read asks for a segment, an open completes or fails, the
    [k]-th reader is done, an append finds no active file or a full one, the
    open of an active segment completes or fails, and the log stops. *)
Inductive file_event :=
| Get (base : Z)
| Opened (k : nat)
| OpenFailed (k : nat)
| ReadDone (k : nat)
| FirstSegment (base : Z)
| RollOver (base : Z)
| Activated
| ActivateFailed
| StopCache
| StopActive.

Definition file_step (e : file_event) (s : SegmentFiles) : SegmentFiles :=
  match e with
  | Get base => get_file base s
  | Opened k =>
      match sf_opening s !! k with
      | Some base => file_opened base (set_opening (delete k (sf_opening s)) s)
      | None => s
      end
  | OpenFailed k => set_opening (delete k (sf_opening s)) s
  | ReadDone k =>
      match sf_readers s !! k with
      | Some h => release h (set_readers (delete k (sf_readers s)) s)
      | None => s
      end
  | FirstSegment base => first_segment base s
  | RollOver base => roll_over base s
  | Activated =>
      match sf_activating s with
      | S n => activate (set_activating n s)
      | O => s
      end
  | ActivateFailed => set_activating (pred (sf_activating s)) s
  | StopCache => stop_cache s
  | StopActive => stop_active s
  end.
Definition file_run (es : list file_event) (s : SegmentFiles) : SegmentFiles := foldl (λ s e, file_step e s) s es.

(** No append finds [file_] empty while an open of an active segment is under
    way. *)
Fixpoint opens_apart (es : list file_event) (s : SegmentFiles) : bool :=
  match es with
  | [] => true
  | e :: es' =>
      match e with
      | FirstSegment _ => bool_decide (is_Some (sf_active s)) || (sf_activating s =? 0)%nat
      | _ => true
      end && opens_apart es' (file_step e s)
  end.

(** ** The invariant *)

(** [h] has a reference: in the cache, with a reader, or one of the local
    variables [held]. *)
Definition live (s : SegmentFiles) (held : list nat) (h : nat) : Prop := h ∈ (sf_cache s).*2 ∨ h ∈ sf_readers s ∨ h ∈ held.
Definition owns (s : SegmentFiles) (h file : nat) : Prop := sf_handles s !! h = Some (mkCachedSegmentFile file true).

Record files_ok (s : SegmentFiles) (held : list nat) : Prop := {
  fo_handles h : live s held h → (h < length (sf_handles s))%nat;
  fo_files h c : sf_handles s !! h = Some c → (cf_file c < sf_files s)%nat;
  fo_active file : sf_active s = Some file → (file < sf_files s)%nat ∧ file ∉ sf_closed s ∧ file ∉ sf_dropped s ∧ ∀ h, ¬ owns s h file;
  fo_dropped file : file ∈ sf_dropped s → (file < sf_files s)%nat ∧ file ∉ sf_closed s ∧ ∀ h, ¬ owns s h file;
  fo_closed file : file ∈ sf_closed s → (file < sf_files s)%nat;
  fo_once : NoDup (sf_closed s);
  fo_owner h h' file : owns s h file → owns s h' file → h = h';
  fo_open h file : owns s h file → live s held h → file ∉ sf_closed s;
  fo_cache : NoDup (sf_cache s).*2;
  fo_kept file : sf_gate_closed s = false → (file < sf_files s)%nat →
    file ∈ sf_closed s ∨ sf_active s = Some file ∨ file ∈ sf_dropped s ∨ ∃ h, owns s h file ∧ live s held h;
}.

(** References may be given and taken as long as the set of live handles is
    the same. *)
Lemma files_ok_live s s' held held' :
  files_ok s held → NoDup (sf_cache s').*2 → (∀ h, live s' held' h ↔ live s held h) →
  sf_active s' = sf_active s → sf_handles s' = sf_handles s → sf_closed s' = sf_closed s → sf_dropped s' = sf_dropped s →
  sf_gate_closed s' = sf_gate_closed s → sf_files s' = sf_files s → files_ok s' held'.
Proof.
  intros [H1 H2 H3 Hd H4 H5 H6 H7 H8 H9] Hnd Hl Ha Hh Hc Ed Hg Hf. unfold owns in *.
  split; unfold owns; rewrite ?Ha, ?Hh, ?Hc, ?Ed, ?Hg, ?Hf; try done.
  - intros h Hlive. by apply H1, Hl.
  - intros h file Ho Hlive. by apply (H7 h file Ho), Hl.
  - intros file Hgate Hfile. destruct (H9 file Hgate Hfile) as [?|[?|[?|(h & Ho & Hlive)]]]; [auto..|].
    right. right. right. exists h. split; [done|]. by apply Hl.
Qed.

(** Dropping a reference. *)
Lemma release_ok s held h : files_ok s (h :: held) → h ∉ held → files_ok (release h s) held.
Proof.
  intros Hok Hnot. unfold release, referenced.
  destruct (bool_decide_reflect (h ∈ (sf_cache s).*2)) as [Hc|Hc]; cbn [orb]; [|destruct (bool_decide_reflect (h ∈ sf_readers s)) as [Hr|Hr]].
  1,2: apply (files_ok_live s s (h :: held) held Hok); [apply Hok|intros x; unfold live; set_solver|done..].
  pose proof Hok as [H1 H2 H3 Hd H4 H5 H6 H7 H8 H9]. unfold destroy.
  assert (∀ x, live s held x → live s (h :: held) x ∧ x ≠ h) as Hlive by (unfold live; set_solver).
  assert (∀ x, live s (h :: held) x → x = h ∨ live s held x) as Hback by (unfold live; set_solver).
  destruct (sf_handles s !! h) as [[file gated]|] eqn:Eh.
  2:{ exfalso. apply lookup_ge_None_1 in Eh. pose proof (H1 h ltac:(unfold live; set_solver)). lia. }
  assert (∀ s', sf_gate_closed s = true ∨ gated = false → s' = s → files_ok s' held) as Hsame.
  { intros s' Hwhy ->. split; try done; [intros x [Hx _]%Hlive; by apply H1|intros x f Ho [Hx _]%Hlive; by apply (H7 x)|].
    intros f Hgate Hf. destruct Hwhy as [?| ->]; [congruence|]. destruct (H9 f Hgate Hf) as [?|[?|[?|(x & Ho & Hx)]]]; [auto..|].
    right. right. right. exists x. split; [done|]. destruct (Hback x Hx) as [->|]; [|done]. unfold owns in Ho. congruence. }
  destruct gated; [|apply Hsame; [by right|done]]. destruct (sf_gate_closed s) eqn:Eg; [apply Hsame; [by left|done]|].
  assert (file ∉ sf_closed s) as Hopen by (apply (H7 h file Eh); unfold live; set_solver).
  split; cbn [close_file sf_handles sf_files sf_active sf_closed sf_dropped sf_cache sf_gate_closed]; try done.
  - intros x Hx. apply H1, Hlive. exact Hx.
  - intros f Ha. destruct (H3 f Ha) as (Hlt & Hnc & Hnd & Hno). split_and!; [done| |done|done].
    intros [?|Hin]%elem_of_app; [done|]. apply list_elem_of_singleton in Hin as ->. by apply (Hno h).
  - intros f Hf. destruct (Hd f Hf) as (Hlt & Hnc & Hno). split_and!; [done| |done].
    intros [?|Hin]%elem_of_app; [done|]. apply list_elem_of_singleton in Hin as ->. by apply (Hno h).
  - intros f [Hin|Hin]%elem_of_app; [by apply H4|]. apply list_elem_of_singleton in Hin as ->. exact (H2 h _ Eh).
  - apply NoDup_app. split_and!; [done| |apply NoDup_singleton]. intros f Hf Hin. apply list_elem_of_singleton in Hin as ->. done.
  - intros x f Ho Hx. destruct (Hlive x Hx) as [Hx' Hne]. intros [Hin|Hin]%elem_of_app; [by apply (H7 x f Ho Hx')|].
    apply list_elem_of_singleton in Hin as ->. apply Hne. by apply (H6 x h file).
  - intros f Hgate Hf. destruct (H9 f eq_refl Hf) as [?|[?|[?|(x & Ho & Hx)]]]; [left; apply elem_of_app; by left|auto..|].
    destruct (Hback x Hx) as [->|Hx']; [|right; right; right; by exists x]. left. apply elem_of_app. right.
    apply list_elem_of_singleton. unfold owns in Ho. congruence.
Qed.

(** A new handle; its number is not in use. *)
Lemma fresh_not_live s held : files_ok s held → ¬ live s held (length (sf_handles s)).
Proof. intros Hok Hl. pose proof (fo_handles _ _ Hok _ Hl). lia. Qed.

Lemma alias_ok s held file :
  files_ok s held → sf_active s = Some file → files_ok (make_handle file false s).2 (length (sf_handles s) :: held).
Proof.
  intros Hok Ha. pose proof Hok as [H1 H2 H3 Hd H4 H5 H6 H7 H8 H9]. cbn [make_handle snd]. unfold owns in *.
  assert (∀ h c, (sf_handles s ++ [mkCachedSegmentFile file false]) !! h = Some c → sf_handles s !! h = Some c ∨
    (h = length (sf_handles s) ∧ c = mkCachedSegmentFile file false)) as Hh.
  { intros h c [?|[? Hc]]%lookup_app_Some; [by left|]. apply list_lookup_singleton_Some in Hc as [? <-]. right. split; [lia|done]. }
  assert (∀ h f, (sf_handles s ++ [mkCachedSegmentFile file false]) !! h = Some (mkCachedSegmentFile f true) ↔
    sf_handles s !! h = Some (mkCachedSegmentFile f true)) as Ho.
  { intros h f. split; [intros [?|[_ [=]]]%Hh; done|intros Hx; by apply lookup_app_l_Some]. }
  split; unfold owns; cbn [sf_handles sf_files sf_active sf_closed sf_dropped sf_cache sf_gate_closed]; try done.
  - intros h [Hl|[Hl|Hl]]; rewrite length_app; cbn [length]; [| |apply elem_of_cons in Hl as [->|Hl]; [lia|]];
      match goal with H : _ |- _ => assert (live s held h) as Hlive by (unfold live; cbn in *; auto) end; apply H1 in Hlive; lia.
  - intros h c [Hc|[_ ->]]%Hh; [by eapply H2|]. by apply H3.
  - intros f Ha'. destruct (H3 f Ha') as (? & ? & ? & Hno). split_and!; [done..|]. intros h. rewrite Ho. apply Hno.
  - intros f Hf. destruct (Hd f Hf) as (? & ? & Hno). split_and!; [done..|]. intros h. rewrite Ho. apply Hno.
  - intros h h' f. rewrite !Ho. apply H6.
  - intros h f. rewrite Ho. intros Hx Hl. apply (H7 h f Hx). destruct Hl as [Hl|[Hl|Hl]]; [by left|by right; left|].
    apply elem_of_cons in Hl as [->|Hl]; [|by right; right]. apply lookup_lt_Some in Hx. lia.
  - intros f Hg Hf. destruct (H9 f Hg Hf) as [?|[?|[?|(h & Hx & Hl)]]]; [auto..|]. right. right. right. exists h.
    rewrite Ho. split; [done|]. unfold live in *. cbn. set_solver.
Qed.

(** A handle that owns its file: a file that was just opened, or that was the
    active one. *)
Lemma adopt_ok s s' held file :
  files_ok s held → sf_handles s' = sf_handles s ++ [mkCachedSegmentFile file true] → sf_cache s' = sf_cache s →
  sf_readers s' = sf_readers s → sf_closed s' = sf_closed s → sf_dropped s' = sf_dropped s → sf_gate_closed s' = sf_gate_closed s →
  (file < sf_files s')%nat → (sf_files s <= sf_files s')%nat → file ∉ sf_closed s → file ∉ sf_dropped s → (∀ h, ¬ owns s h file) →
  (∀ f, sf_active s' = Some f → sf_active s = Some f ∧ f ≠ file) →
  (∀ f, sf_active s = Some f → sf_active s' = Some f ∨ f = file) →
  (∀ f, (f < sf_files s')%nat → (f < sf_files s)%nat ∨ f = file) →
  files_ok s' (length (sf_handles s) :: held).
Proof.
  intros Hok Eh Ec Er Ecl Ed Eg Hlt Hle Hopen Hundropped Hno Ha Ha' Hf. pose proof Hok as [H1 H2 H3 Hd H4 H5 H6 H7 H8 H9].
  assert (∀ h c, sf_handles s' !! h = Some c → sf_handles s !! h = Some c ∨
    (h = length (sf_handles s) ∧ c = mkCachedSegmentFile file true)) as Hh.
  { intros h c. rewrite Eh. intros [?|[? Hc]]%lookup_app_Some; [by left|]. apply list_lookup_singleton_Some in Hc as [? <-]. right. split; [lia|done]. }
  assert (∀ h f, owns s' h f → owns s h f ∨ (h = length (sf_handles s) ∧ f = file)) as Ho
    by (intros h f [?|[-> [= ->]]]%Hh; auto).
  assert (∀ h f, owns s h f → owns s' h f) as Ho' by (intros h f Hx; unfold owns; rewrite Eh; by apply lookup_app_l_Some).
  assert (owns s' (length (sf_handles s)) file) as Hnew by (unfold owns; rewrite Eh; by apply list_lookup_middle).
  assert (∀ h, live s' (length (sf_handles s) :: held) h ↔ h = length (sf_handles s) ∨ live s held h) as Hl
    by (intros h; unfold live; rewrite Ec, Er; set_solver).
  split; rewrite ?Ec, ?Er, ?Ecl, ?Ed, ?Eg; try done.
  - intros h [->|Hx]%Hl; rewrite Eh, length_app; cbn [length]; [lia|]. apply H1 in Hx. lia.
  - intros h c [Hc|[_ ->]]%Hh; [apply H2 in Hc; lia|done].
  - intros f Hx. destruct (Ha f Hx) as [Hy Hne]. destruct (H3 f Hy) as (? & ? & ? & Hnone). split_and!; [lia|done..|].
    intros h [?|[_ ->]]%Ho; [by apply (Hnone h)|done].
  - intros f Hx. destruct (Hd f Hx) as (? & ? & Hnone). split_and!; [lia|done..|].
    intros h [?|[_ ->]]%Ho; [by apply (Hnone h)|done].
  - intros f Hc. apply H4 in Hc. lia.
  - intros h h' f [Hx|[-> ->]]%Ho [Hy|[-> ?]]%Ho; [by apply (H6 h h' f)|subst; by destruct (Hno h)|by destruct (Hno h')|done].
  - intros h f Hx Hy. apply Ho in Hx as [Hx|[_ ->]]; [|done]. apply Hl in Hy as [->|Hy]; [|by apply (H7 h f)]. apply lookup_lt_Some in Hx. lia.
  - intros f Hg Hx. destruct (Hf f Hx) as [Hy| ->]; [|right; right; right; exists (length (sf_handles s)); split; [done|apply Hl; by left]].
    destruct (H9 f Hg Hy) as [?|[Hb|[?|(h & Hw & Hlive)]]]; [auto| |auto|].
    + destruct (Ha' f Hb) as [?| ->]; [auto|]. right. right. right. exists (length (sf_handles s)). split; [done|apply Hl; by left].
    + right. right. right. exists h. split; [by apply Ho'|]. apply Hl. by right.
Qed.

(** What a release leaves alone. *)
Lemma release_frame h s :
  sf_cache (release h s) = sf_cache s ∧ sf_readers (release h s) = sf_readers s ∧ sf_active (release h s) = sf_active s ∧
  sf_gate_closed (release h s) = sf_gate_closed s ∧ sf_handles (release h s) = sf_handles s.
Proof.
  unfold release. destruct (referenced s h); [done|]. unfold destroy. destruct (sf_handles s !! h) as [[file []]|]; [|done..].
  by destruct (sf_gate_closed s) eqn:E; [|cbn; rewrite E].
Qed.

(** The last entry of the cache. *)
Lemma pop_back_ok s x :
  files_ok s [x] → x ∉ (sf_cache s).*2 → sf_cache s ≠ [] →
  files_ok (pop_back s) [x] ∧ x ∉ (sf_cache (pop_back s)).*2 ∧ length (sf_cache (pop_back s)) = (length (sf_cache s) - 1)%nat.
Proof.
  intros Hok Hx Hne. destruct (exists_last Hne) as (cache & [b h] & Ec). unfold pop_back. rewrite Ec, last_snoc, removelast_last.
  assert (h ∉ cache.*2 ∧ h ≠ x ∧ x ∉ cache.*2) as (Hh & Hhx & Hxc).
  { pose proof (fo_cache _ _ Hok) as Hnd. rewrite Ec in Hnd, Hx. rewrite fmap_app in Hnd, Hx. apply NoDup_app in Hnd as (_ & Hd & _).
    split; [intros Hin; apply (Hd h Hin); cbn; set_solver|]. cbn in Hx. set_solver. }
  destruct (release_frame h (set_cache cache s)) as (Hc & _). rewrite Hc. split_and!.
  - apply release_ok; [|set_solver]. apply (files_ok_live s _ [x]); try done.
    + cbn. pose proof (fo_cache _ _ Hok) as Hnd. rewrite Ec, fmap_app in Hnd. by apply NoDup_app in Hnd as (? & _).
    + intros y. unfold live. rewrite Ec, fmap_app. cbn. set_solver.
  - done.
  - cbn. rewrite length_app. cbn. lia.
Qed.

Lemma evict_ok n s x :
  files_ok s [x] → x ∉ (sf_cache s).*2 → (length (sf_cache s) <= n)%nat →
  let s' := evict n s in files_ok s' [x] ∧ x ∉ (sf_cache s').*2 ∧ (length (sf_cache s') < kSegmentCacheMax)%nat.
Proof.
  revert s. induction n as [|n IH]; intros s Hok Hx Hn; cbn [evict].
  { split_and!; [done|done|]. unfold kSegmentCacheMax. lia. }
  destruct (Nat.leb_spec kSegmentCacheMax (length (sf_cache s))) as [Hle|]; [|by split_and!].
  assert (sf_cache s ≠ []) as Hne by (intros E; rewrite E in Hle; unfold kSegmentCacheMax in Hle; simpl in Hle; lia).
  destruct (pop_back_ok s x Hok Hx Hne) as (Hok' & Hx' & Hl). apply IH; [done|done|lia].
Qed.

(** The state is in order and the cache within its bound. *)
Definition cache_ok (s : SegmentFiles) : Prop := files_ok s [] ∧ (length (sf_cache s) <= kSegmentCacheMax)%nat.

Lemma cache_handle_ok base s x :
  files_ok s [x] → x ∉ (sf_cache s).*2 → let s' := cache_handle base x s in cache_ok s' ∧ x ∈ (sf_cache s').*2.
Proof.
  intros Hok Hx. unfold cache_handle. destruct (evict_ok _ s x Hok Hx (le_n _)) as (Hok' & Hx' & Hl). cbv zeta in *.
  set (s1 := evict _ s) in *. split; [|cbn; set_solver]. split; [|cbn; lia].
  apply (files_ok_live s1 _ [x]); try done.
  - cbn. apply NoDup_cons. split; [done|apply Hok'].
  - intros y. unfold live. cbn. set_solver.
Qed.

(** ** Every operation keeps it *)

Lemma add_reader_ok s h : cache_ok s → h ∈ (sf_cache s).*2 → cache_ok (set_readers (sf_readers s ++ [h]) s).
Proof.
  intros [Hok Hl] Hh. split; [|done]. apply (files_ok_live s _ []); try done; [apply Hok|]. intros y. unfold live. cbn. set_solver.
Qed.

Lemma get_file_ok base s : cache_ok s → cache_ok (get_file base s).
Proof.
  intros [Hok Hl]. unfold get_file.
  destruct (if base =? sf_base s then sf_active s else None) as [file|] eqn:Ea.
  - destruct (base =? sf_base s); [|done].
    pose proof (alias_ok s [] file Hok Ea) as Hal. cbn [make_handle snd] in Hal. cbn [make_handle]. split; [|done].
    eapply files_ok_live; [exact Hal|apply Hok|intros y; unfold live; cbn; set_solver|done..].
  - destruct (list_find _ (sf_cache s)) as [[i e]|] eqn:Ef.
    + apply list_find_Some in Ef as (Hi & _ & _). pose proof (take_drop_middle _ _ _ Hi) as Ec.
      assert (e :: take i (sf_cache s) ++ drop (S i) (sf_cache s) ≡ₚ sf_cache s) as Hp by (rewrite <- Ec at 3; by rewrite Permutation_middle).
      apply (add_reader_ok (set_cache (e :: take i (sf_cache s) ++ drop (S i) (sf_cache s)) s)); [|cbn; set_solver]. split; [|cbn [set_cache sf_cache]; by rewrite Hp].
      apply (files_ok_live s _ []); try done; [cbn [set_cache sf_cache]; rewrite Hp; apply Hok|]. intros y. unfold live. cbn [set_cache sf_cache sf_readers]. by rewrite Hp.
    + split; [|done]. by apply (files_ok_live s _ []); [|apply Hok|..].
Qed.

Lemma file_opened_ok base s : cache_ok s → cache_ok (file_opened base s).
Proof.
  intros [Hok Hl]. unfold file_opened. cbn [open_file make_handle sf_handles sf_active sf_cache sf_readers sf_opening sf_activating sf_closed sf_dropped sf_gate_closed sf_files sf_base].
  set (s2 := mkSegmentFiles _ _ _ _ _ _ _ _ _ _ _). pose proof (fresh_not_live _ _ Hok) as Hfresh.
  assert (files_ok s2 [length (sf_handles s)]) as Hok2.
  { apply (adopt_ok s s2 [] (sf_files s)); try done; cbn; try lia; intros.
    - intros Hin. apply (fo_closed _ _ Hok) in Hin. lia.
    - intros Hin. apply (fo_dropped _ _ Hok) in Hin. lia.
    - intros Ho. apply (fo_files _ _ Hok) in Ho. cbn in Ho. lia.
    - split; [done|]. pose proof (fo_active _ _ Hok f H). lia.
    - by left. }
  destruct (cache_handle_ok base s2 (length (sf_handles s)) Hok2) as [Hc Hin]; [intros Hin; apply Hfresh; by left|].
  by apply add_reader_ok.
Qed.

(** Fields that the invariant does not mention. *)
Lemma active_opening_ok base s : cache_ok s → cache_ok (open_active_segment base s).
Proof. intros [Hok Hl]. split; [|done]. by apply (files_ok_live s _ []); [|apply Hok|..]. Qed.

Lemma first_segment_ok base s : cache_ok s → cache_ok (first_segment base s).
Proof. unfold first_segment. destruct (sf_active s); [done|apply active_opening_ok]. Qed.

Lemma roll_over_ok base s : cache_ok s → cache_ok (roll_over base s).
Proof.
  intros [Hok Hl]. unfold roll_over. destruct (sf_active s) as [file|] eqn:Ea; [|done].
  cbn [make_handle set_active sf_handles sf_active sf_cache sf_readers sf_opening sf_activating sf_closed sf_dropped sf_gate_closed sf_files sf_base].
  set (s2 := mkSegmentFiles _ _ _ _ _ _ _ _ _ _ _). pose proof (fresh_not_live _ _ Hok) as Hfresh.
  destruct (fo_active _ _ Hok file Ea) as (Hlt & Hopen & Hnd & Hno). apply active_opening_ok.
  apply (cache_handle_ok _ s2); [|intros Hin; apply Hfresh; by left]. apply (adopt_ok s s2 [] file); try done; cbn; intros.
  - right. congruence.
  - by left.
Qed.

Lemma activate_ok s : cache_ok s → cache_ok (activate s).
Proof.
  intros [Hok Hl]. unfold activate. split; [|done]. pose proof Hok as [H1 H2 H3 Hd H4 H5 H6 H7 H8 H9].
  assert (∀ f, f ∈ option_list (sf_active s) → sf_active s = Some f) as Hold.
  { intros f. destruct (sf_active s); cbn; set_solver. }
  split; cbn [open_file set_active set_dropped sf_handles sf_files sf_active sf_closed sf_dropped sf_cache sf_gate_closed]; unfold owns in *; cbn; try done.
  - intros h c Hc. apply H2 in Hc. lia.
  - intros f [= <-]. split_and!; [lia|intros Hin; apply H4 in Hin; lia| |intros h Ho; apply H2 in Ho; cbn in Ho; lia].
    intros [Hin|Hin]%elem_of_app; [apply Hd in Hin|apply Hold, H3 in Hin]; lia.
  - intros f [Hin|Hin]%elem_of_app; [apply Hd in Hin as (? & ? & ?)|apply Hold, H3 in Hin as (? & ? & _ & ?)]; split_and!; (done || lia).
  - intros f Hc. apply H4 in Hc. lia.
  - intros f Hg Hf. destruct (decide (f = sf_files s)) as [->|]; [auto|].
    destruct (H9 f Hg ltac:(lia)) as [?|[Hb|[?|?]]]; [by left| | |by right; right; right]; right; right; left; apply elem_of_app; [right|by left].
    rewrite Hb. cbn. set_solver.
Qed.

Lemma release_all_ok hs s : files_ok s hs → NoDup hs → files_ok (foldl (λ s h, release h s) s hs) [] ∧
  sf_cache (foldl (λ s h, release h s) s hs) = sf_cache s.
Proof.
  intros Hok Hnd. revert s Hok. induction Hnd as [|h hs Hh _ IH]; intros s Hok; [done|]. cbn [foldl].
  destruct (IH (release h s)) as [Hok' Hc]; [by apply release_ok|]. split; [done|]. rewrite Hc. apply release_frame.
Qed.

Lemma clear_cache_ok s : cache_ok s → files_ok (clear_cache s) [] ∧ sf_cache (clear_cache s) = [].
Proof.
  intros [Hok _]. unfold clear_cache. apply (release_all_ok (sf_cache s).*2 (set_cache [] s)); [|apply Hok].
  apply (files_ok_live s _ []); try done; [constructor|]. intros y. unfold live. cbn. set_solver.
Qed.

Lemma stop_cache_ok s : cache_ok s → cache_ok (stop_cache s).
Proof.
  intros Hs. destruct (clear_cache_ok s Hs) as [[H1 H2 H3 Hd H4 H5 H6 H7 H8 H9] Hc]. split; [|cbn; rewrite Hc; cbn; lia].
  split; unfold owns in *; cbn; try done.
Qed.

Lemma stop_active_ok s : cache_ok s → cache_ok (stop_active s).
Proof.
  intros [Hok Hl]. unfold stop_active. destruct (sf_gate_closed s) eqn:Eg; [|done]. destruct (sf_active s) as [file|] eqn:Ea; [|done].
  pose proof Hok as [H1 H2 H3 Hd H4 H5 H6 H7 H8 H9]. destruct (H3 file Ea) as (Hlt & Hopen & Hnd & Hno). split; [|done].
  split; unfold owns in *; cbn; try done; cbn in *; try congruence.
  - intros f Hf. destruct (Hd f Hf) as (? & ? & ?). split_and!; [done| |done]. intros [?|Hin]%elem_of_app; [done|].
    apply list_elem_of_singleton in Hin as ->. done.
  - intros f [Hin|Hin]%elem_of_app; [by apply H4|]. apply list_elem_of_singleton in Hin as ->. done.
  - apply NoDup_app. split_and!; [done| |apply NoDup_singleton]. intros f Hf Hin. apply list_elem_of_singleton in Hin as ->. done.
  - intros h f Ho Hx [Hin|Hin]%elem_of_app; [by apply (H7 h f Ho Hx)|]. apply list_elem_of_singleton in Hin as ->. by apply (Hno h).
Qed.

Lemma file_step_ok e s : cache_ok s → cache_ok (file_step e s).
Proof.
  intros Hs. assert (∀ v, cache_ok (set_opening v s)) as Hopening.
  { intros v. destruct Hs as [Hok Hl]. split; [|done]. by apply (files_ok_live s _ []); [|apply Hok|..]. }
  assert (∀ v, cache_ok (set_activating v s)) as Hactivating.
  { intros v. destruct Hs as [Hok Hl]. split; [|done]. by apply (files_ok_live s _ []); [|apply Hok|..]. }
  destruct e as [base|k|k|k|base|base| | | |]; cbn [file_step].
  - by apply get_file_ok.
  - destruct (sf_opening s !! k); [by apply file_opened_ok|done].
  - done.
  - destruct (sf_readers s !! k) as [h|] eqn:Ek; [|done]. destruct Hs as [Hok Hl].
    destruct (release_frame h (set_readers (delete k (sf_readers s)) s)) as (Hc & _). split; [|by rewrite Hc].
    apply release_ok; [|apply not_elem_of_nil]. apply (files_ok_live s _ []); try done; [apply Hok|]. intros y. unfold live. cbn.
    rewrite <- (take_drop_middle _ _ _ Ek) at 2. rewrite delete_take_drop. set_solver.
  - by apply first_segment_ok.
  - by apply roll_over_ok.
  - destruct (sf_activating s); [done|by apply activate_ok].
  - done.
  - by apply stop_cache_ok.
  - by apply stop_active_ok.
Qed.

Lemma file_run_ok es s : cache_ok s → cache_ok (file_run es s).
Proof. revert s. induction es as [|e es IH]; intros s Hs; [done|]. by apply IH, file_step_ok. Qed.

Lemma init_ok : cache_ok SegmentFiles_init.
Proof. split; [|cbn; lia]. split; cbn; try done; try (intros; lia); try constructor; unfold live; set_solver. Qed.

(** *** Opens one after the other *)

(** An active segment is being opened only while [file_] is empty. *)
Definition apart (s : SegmentFiles) : Prop := sf_dropped s = [] ∧ (sf_activating s <= 1)%nat ∧ (sf_activating s = 1%nat → sf_active s = None).

Lemma apart_same s s' :
  apart s → sf_dropped s' = sf_dropped s → sf_activating s' = sf_activating s → sf_active s' = sf_active s ∨ sf_active s' = None → apart s'.
Proof. intros (? & ? & Ha) Ed En Hf. unfold apart. rewrite Ed, En. split_and!; [done..|]. intros E. destruct Hf as [->| ->]; [auto|done]. Qed.

(** Dropping references changes neither. *)
Definition same_active (s s' : SegmentFiles) : Prop :=
  sf_dropped s' = sf_dropped s ∧ sf_activating s' = sf_activating s ∧ sf_active s' = sf_active s.
#[local] Instance same_active_preorder : PreOrder same_active.
Proof. split; [done|]. intros x y z (? & ? & ?) (? & ? & ?). split_and!; congruence. Qed.

Lemma release_active h s : same_active s (release h s).
Proof.
  unfold release. destruct (referenced s h); [done|]. unfold destroy. destruct (sf_handles s !! h) as [[file []]|]; [|done..].
  by destruct (sf_gate_closed s).
Qed.

Lemma evict_active n s : same_active s (evict n s).
Proof.
  revert s. induction n as [|n IH]; intros s; cbn [evict]; [done|]. destruct (_ <=? _)%nat; [|done].
  transitivity (pop_back s); [|apply IH]. unfold pop_back. destruct (last (sf_cache s)) as [[b h]|]; [|done].
  exact (release_active h (set_cache _ s)).
Qed.

Lemma cache_handle_active base h s : same_active s (cache_handle base h s).
Proof. exact (evict_active _ s). Qed.

Lemma clear_active s : same_active s (clear_cache s).
Proof.
  unfold clear_cache. generalize ((sf_cache s).*2). intros hs. assert (same_active s (set_cache [] s)) as Hs by done.
  revert Hs. generalize (set_cache [] s). induction hs as [|h hs IH]; intros s0 Hs; [done|]. cbn [foldl]. apply IH.
  transitivity s0; [done|apply release_active].
Qed.

Lemma file_step_apart e es s : apart s → opens_apart (e :: es) s = true → apart (file_step e s) ∧ opens_apart es (file_step e s) = true.
Proof.
  intros Hs. cbn [opens_apart]. intros [He Hes]%andb_true_iff. split; [|done]. clear Hes es. pose proof Hs as (Hd & Hn & Ha).
  destruct e as [base|k|k|k|base|base| | | |]; cbn [file_step].
  - unfold get_file. destruct (if base =? sf_base s then _ else _); [apply (apart_same s); auto|].
    destruct (list_find _ _) as [[i e]|]; apply (apart_same s); auto.
  - destruct (sf_opening s !! k); [|done]. unfold file_opened. cbn [open_file make_handle].
    match goal with |- context [cache_handle ?b ?h ?s1] => destruct (cache_handle_active b h s1) as (E1 & E2 & E3) end.
    apply (apart_same s); [done|exact E1|exact E2|left; exact E3].
  - apply (apart_same s); auto.
  - destruct (sf_readers s !! k) as [h|]; [|done].
    destruct (release_active h (set_readers (delete k (sf_readers s)) s)) as (E1 & E2 & E3). apply (apart_same s); auto.
  - unfold first_segment. destruct (sf_active s) as [file|] eqn:Ea; [done|]. cbn in He. apply Nat.eqb_eq in He.
    split_and!; cbn; [done|lia|done].
  - unfold roll_over. destruct (sf_active s) as [file|] eqn:Ea; [|done].
    assert (sf_activating s = 0%nat) as E0 by (destruct (sf_activating s) as [|[|n]] eqn:En; [done|by specialize (Ha eq_refl)|lia]).
    cbn [make_handle].
    match goal with |- context [cache_handle ?b ?h ?s1] => destruct (cache_handle_active b h s1) as (E1 & E2 & E3) end.
    unfold apart, open_active_segment. cbn [set_activating set_base sf_dropped sf_activating sf_active]. rewrite E1, E2, E3.
    split_and!; cbn; [done|lia|done].
  - destruct (sf_activating s) as [|n] eqn:En; [done|]. assert (n = 0)%nat as -> by lia.
    unfold activate. split_and!; cbn; [by rewrite Hd, Ha|lia|done].
  - split_and!; cbn; [done|lia|]. intros E. lia.
  - destruct (clear_active s) as (E1 & E2 & E3). apply (apart_same s); auto.
  - unfold stop_active. destruct (sf_gate_closed s); [|done]. destruct (sf_active s); apply (apart_same s); auto.
Qed.

Lemma file_run_apart es s : apart s → opens_apart es s = true → sf_dropped (file_run es s) = [].
Proof.
  revert s. induction es as [|e es IH]; intros s Hs Hes; [apply Hs|]. destruct (file_step_apart e es s Hs Hes). by apply IH.
Qed.

(** ** Theorems *)

(** C22: segment files that are read while the log rolls over.  Whatever reads
    ask for segments, finish, and overlap with opens, roll-overs, evictions
    and a stop: the cache keeps at most 32 handles; no file is closed twice; a
    file is not closed while the cache or a reader has the handle that owns
    it; and until the log stops each file is the active one, owned by a handle
    in use, or closed, unless it was dropped: it was the active one when the
    open of another active segment completed.  A dropped file is never closed;
    there is none when no append finds [file_] empty while such an open is
    under way. *)
Theorem segment_files_safe es :
  let s := file_run es SegmentFiles_init in
  (length (sf_cache s) <= kSegmentCacheMax)%nat ∧ NoDup (sf_closed s) ∧
  (∀ h file, owns s h file → h ∈ (sf_cache s).*2 ∨ h ∈ sf_readers s → file ∉ sf_closed s) ∧
  (sf_gate_closed s = false → ∀ file, (file < sf_files s)%nat →
     file ∈ sf_closed s ∨ sf_active s = Some file ∨ file ∈ sf_dropped s ∨
     ∃ h, owns s h file ∧ (h ∈ (sf_cache s).*2 ∨ h ∈ sf_readers s)) ∧
  (sf_gate_closed s = false → ∀ h file, owns s h file → h ∉ (sf_cache s).*2 → h ∉ sf_readers s → file ∈ sf_closed s) ∧
  (∀ file, file ∈ sf_dropped s → file ∉ sf_closed s) ∧
  (opens_apart es SegmentFiles_init = true → sf_dropped s = []).
Proof.
  intros s. destruct (file_run_ok es _ init_ok) as [Hok Hl]. fold s in Hok, Hl. pose proof Hok as [H1 H2 H3 Hd H4 H5 H6 H7 H8 H9].
  assert (∀ h, live s [] h ↔ h ∈ (sf_cache s).*2 ∨ h ∈ sf_readers s) as Hlive by (intros h; unfold live; set_solver).
  split_and!; [done|done| | | | |].
  - intros h file Ho Hx. apply (H7 h file Ho). by apply Hlive.
  - intros Hg file Hf. destruct (H9 file Hg Hf) as [?|[?|[?|(h & Ho & Hx)]]]; [auto..|]. right. right. right. exists h.
    split; [done|]. by apply Hlive.
  - intros Hg h file Ho Hc Hr. destruct (H9 file Hg) as [?|[Hb|[Hb|(h' & Ho' & Hx)]]]; [exact (H2 h _ Ho)|done| | |].
    + destruct (H3 file Hb) as (_ & _ & _ & Hno). by destruct (Hno h).
    + destruct (Hd file Hb) as (_ & _ & Hno). by destruct (Hno h).
    + assert (h' = h) as -> by (by apply (H6 h' h file)). apply Hlive in Hx as [?|?]; done.
  - intros file Hf. by apply Hd.
  - apply file_run_apart. split_and!; cbn; [done|lia|done].
Qed.

(** The handle of the active segment does not own its file, and a reader that
    holds one does not keep the file open: when the segment was sealed and 32
    others have gone through the cache since, the file is closed under the
    reader. *)
Theorem alias_closed_under_reader :
  let s := file_run (FirstSegment 0 :: Activated :: Get 0 :: concat (map (λ k, [RollOver (Z.of_nat k); Activated]) (seq 1 33))) SegmentFiles_init in
  sf_readers s = [0%nat] ∧ sf_handles s !! 0%nat = Some (mkCachedSegmentFile 0 false) ∧ sf_closed s = [0%nat] ∧ sf_gate_closed s = false.
Proof. vm_compute. done. Qed.

(** A roll-over and an append that comes while the new segment is opened: the
    second open replaces the file of the first, which nobody closes. *)
Theorem active_file_dropped :
  let s := file_run [FirstSegment 0; Activated; RollOver 3; FirstSegment 5; Activated; Activated; StopCache; StopActive] SegmentFiles_init in
  sf_dropped s = [1%nat] ∧ sf_closed s = [0%nat; 2%nat].
Proof. vm_compute. done. Qed.
