(* ===== verification/PartitionTable.v ===== *)
(** * The partition table of a broker shard

    Models [partitions_] of [BrokerShard] (include/mkmq/broker_shard.hpp and
    the partition table helpers of src/broker_shard.cpp): a vector of
    entries sorted by topic and partition, searched by [std::lower_bound]
    behind the one-slot cache [hot_partition_].

    A [PartitionEntry*] into the vector is valid until the next insertion,
    which may move the entries: it is an index together with the number of
    insertions when it was taken, and following it later is undefined.  A
    [PartitionLogShard*] stays valid, since the entries own their logs through
    a [unique_ptr]; entries are never removed and have distinct keys, so that
    it is the key of its entry.

    The theorems say that the table is a finite map: a lookup through the
    cache agrees with the map and follows no dangling pointer, and an
    insertion extends the map. *)

From Stdlib Require Import ZArith Lia.
From stdpp Require Import base tactics numbers option sorting sets gmap list.
From S2P Require Import Prelude Config Detail Storage PartitionLog.

Local Open Scope Z_scope.

(** ** Data *)

Record TopicPartition := mkTopicPartition {
  tp_topic : cstring;
  tp_partition : Z;
}.
#[global] Instance TopicPartition_eq_dec : EqDecision TopicPartition.
Proof. solve_decision. Defined.
#[global] Instance TopicPartition_countable : Countable TopicPartition.
Proof. apply (inj_countable' (λ k, (tp_topic k, tp_partition k)) (λ k, mkTopicPartition k.1 k.2)). by intros []. Defined.

Record PartitionEntry := mkPartitionEntry {
  pe_key : TopicPartition;
  pe_log : PartitionLogShard;
}.

(** A [PartitionEntry*]. *)
Record EntryPointer := mkEntryPointer {
  ep_insertions : nat;
  ep_index : nat;
}.

(** The vector, how often something was inserted into it, and the pointer
    cache. *)
Record PartitionTable := mkPartitionTable {
  partitions_ : list PartitionEntry;
  insertions_ : nat;
  hot_partition_ : option EntryPointer;
}.
Definition PartitionTable_init : PartitionTable := mkPartitionTable [] 0 None.

(** [*pointer]. *)
Definition dangling_entry : error := UndefinedBehavior (str "dangling partition entry").
Definition entry_of (pointer : EntryPointer) (t : PartitionTable) : result PartitionEntry :=
  if (ep_insertions pointer =? insertions_ t)%nat
  then match partitions_ t !! ep_index pointer with Some entry => Ok entry | None => Err dangling_entry end
  else Err dangling_entry.

(** ** Operations *)

(** The comparison of [find_partition_log] and [emplace_partition_log]:
    [entry < key]. *)
Definition key_ltb (a b : TopicPartition) : bool :=
  if negb (cstring_eqb (tp_topic a) (tp_topic b)) then cstring_ltb (tp_topic a) (tp_topic b)
  else tp_partition a <? tp_partition b.

Definition find_position (key : TopicPartition) (entries : list PartitionEntry) : nat :=
  lower_bound (λ entry, key_ltb (pe_key entry) key) entries.

(** [it != partitions_.end() && it->key == key], and the entry. *)
Definition entry_at (i : nat) (key : TopicPartition) (entries : list PartitionEntry) : option PartitionEntry :=
  match entries !! i with
  | Some entry => if bool_decide (pe_key entry = key) then Some entry else None
  | None => None
  end.

(** [hot_partition_ != nullptr && hot_partition_->key == key], and the
    entry. *)
Definition hot_entry (key : TopicPartition) (t : PartitionTable) : result (option PartitionEntry) :=
  match hot_partition_ t with
  | None => Ok None
  | Some pointer =>
      entry ← entry_of pointer t;
      Ok (if bool_decide (pe_key entry = key) then Some entry else None)
  end.

Definition find_partition_log (key : TopicPartition) (t : PartitionTable)
    : result (option TopicPartition * PartitionTable) :=
  hot ← hot_entry key t;
  match hot with
  | Some entry => Ok (Some (pe_key entry), t)
  | None =>
      let it := find_position key (partitions_ t) in
      match entry_at it key (partitions_ t) with
      | Some entry =>
          Ok (Some (pe_key entry), mkPartitionTable (partitions_ t) (insertions_ t) (Some (mkEntryPointer (insertions_ t) it)))
      | None => Ok (None, t)
      end
  end.

Definition emplace_partition_log (key : TopicPartition) (t : PartitionTable) : PartitionTable :=
  let it := find_position key (partitions_ t) in
  match entry_at it key (partitions_ t) with
  | Some _ => t
  | None =>
      mkPartitionTable (take it (partitions_ t) ++ mkPartitionEntry key PartitionLogShard_init :: drop it (partitions_ t))
        (S (insertions_ t)) None
  end.

(** Following a [PartitionLogShard*]. *)
Definition log_of (key : TopicPartition) (t : PartitionTable) : option PartitionLogShard :=
  match list_find (λ e, pe_key e = key) (partitions_ t) with
  | Some (_, e) => Some (pe_log e)
  | None => None
  end.
Definition set_log (key : TopicPartition) (log : PartitionLogShard) (t : PartitionTable) : PartitionTable :=
  match list_find (λ e, pe_key e = key) (partitions_ t) with
  | Some (i, _) => mkPartitionTable (<[i := mkPartitionEntry key log]> (partitions_ t)) (insertions_ t) (hot_partition_ t)
  | None => t
  end.

(** ** The order on keys *)

Definition key_lt (a b : TopicPartition) : Prop := key_ltb a b = true.

Lemma key_ltb_iff a b :
  key_ltb a b = true ↔ cstring_ltb (tp_topic a) (tp_topic b) = true ∨
    (tp_topic a = tp_topic b ∧ tp_partition a < tp_partition b).
Proof.
  unfold key_ltb, cstring_eqb. case_bool_decide as E; simpl.
  - rewrite E, cstring_ltb_irrefl, Z.ltb_lt. naive_solver.
  - naive_solver.
Qed.

#[global] Instance key_lt_trans : Transitive key_lt.
Proof.
  intros a b c. unfold key_lt. rewrite !key_ltb_iff. intros [Hab|[Eab Hab]] [Hbc|[Ebc Hbc]].
  - left. by eapply cstring_ltb_trans.
  - rewrite <- Ebc. by left.
  - rewrite Eab. by left.
  - right. split; [congruence|lia].
Qed.
#[global] Instance key_lt_irrefl : Irreflexive key_lt.
Proof. intros a. unfold complement, key_lt. rewrite key_ltb_iff, cstring_ltb_irrefl. naive_solver lia. Qed.

Lemma key_lt_total a b : a ≠ b → key_lt a b ∨ key_lt b a.
Proof.
  intros Hne. unfold key_lt. rewrite !key_ltb_iff. destruct (decide (tp_topic a = tp_topic b)) as [E|E].
  - assert (tp_partition a ≠ tp_partition b); [|rewrite E; assert (tp_partition a < tp_partition b ∨ tp_partition b < tp_partition a) by lia; naive_solver].
    destruct a, b; simpl in *; congruence.
  - apply cstring_ltb_total in E as [?|?]; auto.
Qed.

(** ** The table as a finite map *)

Definition keys (t : PartitionTable) : list TopicPartition := map pe_key (partitions_ t).

(** The vector is sorted and the cached pointer can be followed. *)
Definition sorted_table (t : PartitionTable) : Prop :=
  StronglySorted key_lt (keys t) ∧
  match hot_partition_ t with
  | Some pointer => ep_insertions pointer = insertions_ t ∧ (ep_index pointer < length (partitions_ t))%nat
  | None => True
  end.

Definition table_map (t : PartitionTable) : gmap TopicPartition PartitionLogShard :=
  list_to_map (map (λ e, (pe_key e, pe_log e)) (partitions_ t)).

Lemma StronglySorted_lookup {A} (R : A → A → Prop) l i j x y :
  StronglySorted R l → l !! i = Some x → l !! j = Some y → (i < j)%nat → R x y.
Proof.
  intros Hs. revert i j. induction Hs as [|z l Hs IH Hz]; intros i j Hi Hj Hij; [done|].
  destruct j as [|j]; [lia|]. destruct i as [|i].
  - injection Hi as ->. rewrite Forall_forall in Hz. apply Hz. by eapply list_elem_of_lookup_2.
  - simpl in Hi, Hj. apply (IH i j); auto. lia.
Qed.

Lemma sorted_NoDup l : StronglySorted key_lt l → NoDup l.
Proof.
  induction 1 as [|x l _ IH Hx]; constructor; [|done]. intros Hin. rewrite Forall_forall in Hx.
  by apply (key_lt_irrefl x), Hx.
Qed.

Lemma keys_lookup t i : keys t !! i = pe_key <$> partitions_ t !! i.
Proof. unfold keys. by rewrite list_lookup_fmap. Qed.

Section table.
Variable t : PartitionTable.
Hypothesis Hok : sorted_table t.

Lemma keys_NoDup : NoDup (keys t).
Proof. apply sorted_NoDup, Hok. Qed.

Lemma position_spec key :
  let k := find_position key (partitions_ t) in
  (k <= length (partitions_ t))%nat ∧
  (∀ i e, (i < k)%nat → partitions_ t !! i = Some e → key_lt (pe_key e) key) ∧
  (∀ i e, (k <= i)%nat → partitions_ t !! i = Some e → ¬ key_lt (pe_key e) key).
Proof.
  destruct Hok as [Hs _].
  destruct (lower_bound_spec (λ entry, key_ltb (pe_key entry) key) (partitions_ t)) as (Hk & Hlt & Hge).
  { intros i j x y Hij Hx Hy. destruct (decide (i = j)) as [->|Hne]; [congruence|].
    change (key_lt (pe_key y) key → key_lt (pe_key x) key). intros Hyk. transitivity (pe_key y); [|done].
    eapply (StronglySorted_lookup _ (keys t) i j); [done|by rewrite keys_lookup, Hx|by rewrite keys_lookup, Hy|lia]. }
  split_and!; [exact Hk|exact Hlt|]. intros i e Hi He. unfold key_lt. by rewrite (Hge i e Hi He).
Qed.

Lemma entry_at_Some i key e : entry_at i key (partitions_ t) = Some e → partitions_ t !! i = Some e ∧ pe_key e = key.
Proof. unfold entry_at. destruct (partitions_ t !! i) as [e'|]; [|done]. case_bool_decide; naive_solver. Qed.

Lemma entry_at_iff i key : is_Some (entry_at i key (partitions_ t)) ↔ keys t !! i = Some key.
Proof.
  unfold entry_at. rewrite keys_lookup. destruct (partitions_ t !! i) as [e|]; simpl.
  - case_bool_decide; [naive_solver|]. split; [by intros []|naive_solver].
  - split; [by intros []|done].
Qed.

Lemma position_found key : is_Some (entry_at (find_position key (partitions_ t)) key (partitions_ t)) ↔ key ∈ keys t.
Proof.
  rewrite entry_at_iff. split; [apply list_elem_of_lookup_2|]. intros [i Hi]%list_elem_of_lookup_1.
  destruct (position_spec key) as (Hk & Hlt & Hge). set (k := find_position key (partitions_ t)) in *.
  rewrite keys_lookup in Hi. apply fmap_Some in Hi as (e & He & ->).
  destruct (decide (i < k)%nat) as [Hik|Hik]; [by apply (Hlt i e) in Hik; [apply key_lt_irrefl in Hik|]|].
  destruct (decide (i = k)) as [<-|Hne]; [by rewrite keys_lookup, He|].
  destruct (lookup_lt_is_Some_2 (partitions_ t) k) as [e' He']; [apply lookup_lt_Some in He; lia|].
  exfalso. apply (Hge k e'); [lia|done|]. destruct Hok as [Hs _].
  eapply (StronglySorted_lookup _ (keys t) k i); [done|by rewrite keys_lookup, He'|by rewrite keys_lookup, He|lia].
Qed.

Lemma table_map_Some key log : table_map t !! key = Some log ↔ mkPartitionEntry key log ∈ partitions_ t.
Proof.
  unfold table_map. rewrite <- elem_of_list_to_map.
  - rewrite list_elem_of_fmap. split; [intros ([] & [= -> ->] & Hin); done|intros Hin; by exists (mkPartitionEntry key log)].
  - change (NoDup (map fst (map (λ e, (pe_key e, pe_log e)) (partitions_ t)))). rewrite map_map. apply keys_NoDup.
Qed.

Lemma table_map_None key : table_map t !! key = None ↔ key ∉ keys t.
Proof.
  unfold table_map. rewrite <- not_elem_of_list_to_map. unfold keys.
  change (list_fmap ?A ?B ?f ?l) with (map f l). by rewrite map_map.
Qed.

Lemma keys_table_map key : key ∈ keys t ↔ is_Some (table_map t !! key).
Proof.
  rewrite <- not_eq_None_Some, table_map_None. split; [auto|]. intros H. by apply dec_stable.
Qed.

(** The position of a key that is present. *)
Lemma list_find_key key log :
  table_map t !! key = Some log →
  ∃ i, list_find (λ e, pe_key e = key) (partitions_ t) = Some (i, mkPartitionEntry key log) ∧
    partitions_ t !! i = Some (mkPartitionEntry key log).
Proof.
  rewrite table_map_Some. intros [i Hi]%list_elem_of_lookup_1. exists i. split; [|done].
  apply list_find_Some. split_and!; [done|done|]. intros j e Hj Hij He.
  pose proof (NoDup_lookup (keys t) j i key keys_NoDup) as Hji. rewrite !keys_lookup, Hj, Hi in Hji. simpl in Hji.
  specialize (Hji ltac:(by f_equal) eq_refl). lia.
Qed.

Lemma log_of_map key : log_of key t = table_map t !! key.
Proof.
  unfold log_of. destruct (table_map t !! key) as [log|] eqn:E.
  - destruct (list_find_key _ _ E) as (i & -> & _). done.
  - apply table_map_None in E. destruct (list_find _ _) as [[i e]|] eqn:F; [|done].
    apply list_find_Some in F as (Hi & He & _). exfalso. apply E. subst key. unfold keys. apply list_elem_of_fmap_2.
    by eapply list_elem_of_lookup_2.
Qed.
End table.

(** ** The operations on the map *)

(** The cached entry is one of the table. *)
Lemma hot_entry_ok key t :
  sorted_table t → ∃ hot, hot_entry key t = Ok hot ∧ (∀ e, hot = Some e → pe_key e = key ∧ key ∈ keys t).
Proof.
  intros [_ Hhot]. unfold hot_entry. destruct (hot_partition_ t) as [[n i]|]; [|by exists None]. destruct Hhot as [Hn Hi].
  cbn in Hn, Hi. unfold entry_of. cbn [ep_insertions ep_index]. rewrite Hn, Nat.eqb_refl.
  destruct (lookup_lt_is_Some_2 _ _ Hi) as [e He]. rewrite He. eexists. split; [done|]. intros e'. case_bool_decide as Hk; [|done].
  intros [= <-]. split; [done|]. rewrite <- Hk. unfold keys. apply list_elem_of_fmap_2. by eapply list_elem_of_lookup_2.
Qed.

Lemma find_partition_log_refines key t :
  sorted_table t →
  ∃ t', find_partition_log key t = Ok ((λ _, key) <$> table_map t !! key, t') ∧ partitions_ t' = partitions_ t ∧
    sorted_table t' ∧ (table_map t !! key = None → t' = t).
Proof.
  intros Hok. unfold find_partition_log.
  assert (key ∈ keys t → (λ _, key) <$> table_map t !! key = Some key ∧ table_map t !! key ≠ None) as Hfound.
  { intros Hi. apply (keys_table_map t) in Hi as [log ->]. done. }
  destruct (hot_entry_ok key t Hok) as (hot & -> & Hhot). cbn [mbind result_bind].
  destruct hot as [e|].
  { destruct (Hhot e eq_refl) as [-> Hin]. destruct (Hfound Hin) as [-> ?]. exists t. by split_and!. }
  destruct (entry_at (find_position key (partitions_ t)) key (partitions_ t)) as [e|] eqn:E.
  - pose proof (entry_at_Some t _ _ _ E) as [Hi He]. rewrite He.
    destruct Hfound as [-> ?]; [by apply (position_found t Hok); rewrite E; eexists|]. eexists. split_and!; [done|done| |done].
    split; [apply Hok|]. cbn. split; [done|]. by eapply lookup_lt_Some.
  - assert (table_map t !! key = None) as ->; [|by exists t; split_and!].
    apply (table_map_None t). rewrite <- (position_found t Hok), E. by intros [].
Qed.

Lemma emplace_partition_log_refines key t :
  sorted_table t →
  sorted_table (emplace_partition_log key t) ∧
  table_map (emplace_partition_log key t) =
    <[key := default PartitionLogShard_init (table_map t !! key)]> (table_map t).
Proof.
  intros Hok. unfold emplace_partition_log. set (k := find_position key (partitions_ t)).
  pose proof (position_found t Hok key) as Hfound. fold k in Hfound.
  destruct (entry_at k key (partitions_ t)) as [e|] eqn:E.
  { split; [done|]. assert (key ∈ keys t) as Hin by (by apply Hfound; eexists).
    apply (keys_table_map t) in Hin as [log Hl]. rewrite Hl. simpl. by rewrite insert_id. }
  clear E. assert (key ∉ keys t) as E by (rewrite <- Hfound; by intros []).
  assert (table_map t !! key = None) as HN by by apply (table_map_None t). rewrite HN. simpl.
  destruct (position_spec t Hok key) as (Hk & Hlt & Hge). fold k in Hk, Hlt, Hge.
  assert (StronglySorted key_lt (map pe_key (take k (partitions_ t) ++
    mkPartitionEntry key PartitionLogShard_init :: drop k (partitions_ t)))) as Hs.
  { destruct Hok as [Hs _]. rewrite map_app. cbn [map pe_key].
    assert (keys t = map pe_key (take k (partitions_ t)) ++ map pe_key (drop k (partitions_ t))) as Hk2
      by (unfold keys; by rewrite <- map_app, take_drop).
    rewrite Hk2 in Hs. apply StronglySorted_app in Hs as (Hab & Ha & Hb).
    assert (∀ x, x ∈ map pe_key (take k (partitions_ t)) → key_lt x key) as HA.
    { intros x Hx. apply list_elem_of_fmap in Hx as (e & -> & He).
      apply list_elem_of_lookup_1 in He as [i Hi]. apply lookup_take_Some in Hi as [Hi Hik]. by apply (Hlt i). }
    assert (∀ x, x ∈ map pe_key (drop k (partitions_ t)) → key_lt key x) as HB.
    { intros x Hx. apply list_elem_of_fmap in Hx as (e & -> & He). pose proof He as He'.
      apply list_elem_of_lookup_1 in He as [i Hi]. rewrite lookup_drop in Hi.
      destruct (key_lt_total key (pe_key e)) as [?|Hc]; [|done|by apply (Hge (k + i)%nat e) in Hc; [| lia|]].
      intros ->. apply E. unfold keys. apply list_elem_of_fmap_2. by eapply list_elem_of_lookup_2. }
    apply StronglySorted_app. split_and!; [|done|].
    - intros x y Hx [->|Hy]%elem_of_cons; [by apply HA|]. transitivity key; [by apply HA|by apply HB].
    - constructor; [done|]. by apply Forall_forall. }
  split; [split; [exact Hs|done]|].
  unfold table_map. cbn [partitions_]. rewrite map_app, list_to_map_app. cbn [map list_to_map foldr pe_key pe_log fst snd uncurry].
  rewrite <- insert_union_r.
  - rewrite <- list_to_map_app, <- map_app, take_drop. done.
  - apply not_elem_of_list_to_map_1. change (list_fmap ?A ?B ?f ?l) with (map f l). rewrite map_map. intros Hin.
    apply E. apply list_elem_of_fmap in Hin as (e & -> & He). unfold keys. cbn [fst].
    apply (list_elem_of_fmap_2 pe_key). by eapply (subseteq_take k).
Qed.

Lemma set_log_refines key log t :
  sorted_table t → is_Some (table_map t !! key) →
  sorted_table (set_log key log t) ∧ table_map (set_log key log t) = <[key := log]> (table_map t).
Proof.
  intros Hok [old Hold]. destruct (list_find_key t Hok key old Hold) as (i & Hf & Hi). unfold set_log. rewrite Hf.
  assert (keys (mkPartitionTable (<[i := mkPartitionEntry key log]> (partitions_ t)) (insertions_ t) (hot_partition_ t)) = keys t) as Hkeys.
  { unfold keys. cbn [partitions_]. change (map ?f ?l) with (f <$> l). rewrite list_fmap_insert.
    apply list_insert_id. by rewrite list_lookup_fmap, Hi. }
  assert (sorted_table (mkPartitionTable (<[i := mkPartitionEntry key log]> (partitions_ t)) (insertions_ t) (hot_partition_ t))) as Hok'.
  { split; [rewrite Hkeys; apply Hok|]. cbn [hot_partition_ partitions_]. rewrite length_insert. apply Hok. }
  split; [done|]. apply map_eq. intros k. apply option_eq. intros l.
  rewrite (table_map_Some _ Hok'). cbn [partitions_]. rewrite list_elem_of_lookup.
  pose proof (keys_NoDup t Hok) as Hnd.
  destruct (decide (k = key)) as [->|Hne].
  - rewrite lookup_insert_eq. split.
    + intros [j Hj]. destruct (decide (j = i)) as [->|Hji].
      * rewrite list_lookup_insert_eq in Hj by (by eapply lookup_lt_Some). by injection Hj as <-.
      * rewrite list_lookup_insert_ne in Hj by done. exfalso. apply Hji.
        eapply NoDup_lookup; [exact Hnd|by rewrite keys_lookup, Hj|by rewrite keys_lookup, Hi].
    + intros [= <-]. exists i. apply list_lookup_insert_eq. by eapply lookup_lt_Some.
  - rewrite lookup_insert_ne by done. rewrite (table_map_Some _ Hok), list_elem_of_lookup. split; intros [j Hj].
    + destruct (decide (j = i)) as [->|Hji].
      * rewrite list_lookup_insert_eq in Hj by (by eapply lookup_lt_Some). by injection Hj as <-.
      * rewrite list_lookup_insert_ne in Hj by done. by exists j.
    + exists j. rewrite list_lookup_insert_ne; [done|]. intros ->. rewrite Hi in Hj. by injection Hj.
Qed.

(** ** Theorems *)

(** The abstract table: a finite map from keys to logs. *)
Module Spec.
Definition find (key : TopicPartition) (m : gmap TopicPartition PartitionLogShard) : option TopicPartition :=
  if m !! key then Some key else None.
Definition emplace (key : TopicPartition) (m : gmap TopicPartition PartitionLogShard)
    : gmap TopicPartition PartitionLogShard :=
  if m !! key then m else <[key := PartitionLogShard_init]> m.
End Spec.

(** C25: the sorted vector with its one-slot cache implements a finite map
    from (topic, partition) to logs.  Whatever the cache holds, a lookup
    follows a pointer to an entry that is still there, answers as the map
    does and changes no entry; [emplace_partition_log] adds a fresh log for a
    key that is absent and nothing else; and both keep the vector strictly
    sorted and the cached pointer valid, although an insertion invalidates
    the pointers that were taken before. *)
Theorem partition_table_refines_map key t :
  sorted_table t →
  (∃ t', find_partition_log key t = Ok (Spec.find key (table_map t), t') ∧ table_map t' = table_map t ∧ sorted_table t') ∧
  (table_map (emplace_partition_log key t) = Spec.emplace key (table_map t) ∧
   sorted_table (emplace_partition_log key t)).
Proof.
  intros Hok. destruct (find_partition_log_refines key t Hok) as (t' & Hf & Hp & Hok' & _).
  destruct (emplace_partition_log_refines key t Hok) as [Hoke Hme]. split.
  - exists t'. rewrite Hf. unfold Spec.find, table_map. rewrite Hp. split_and!; try done.
  - split; [|done]. rewrite Hme. unfold Spec.emplace. destruct (table_map t !! key) eqn:Ek; [|done]. simpl. by rewrite insert_id.
Qed.

(** A lookup, an insertion that moves the entries, and a lookup again. *)
Lemma partition_table_refines_map_witness :
  let t := mkPartitionTable [mkPartitionEntry (mkTopicPartition (str "a") 0) PartitionLogShard_init;
                             mkPartitionEntry (mkTopicPartition (str "b") 2) PartitionLogShard_init] 2 (Some (mkEntryPointer 2 1)) in
  let t1 := emplace_partition_log (mkTopicPartition (str "b") 1) t in
  (∃ t', find_partition_log (mkTopicPartition (str "b") 2) t = Ok (Some (mkTopicPartition (str "b") 2), t')) ∧
  (∃ t', find_partition_log (mkTopicPartition (str "b") 2) t1 = Ok (Some (mkTopicPartition (str "b") 2), t') ∧ sorted_table t').
Proof.
  intros t t1. assert (sorted_table t) as Hok.
  { split; [|simpl; lia]. repeat constructor. }
  destruct (partition_table_refines_map (mkTopicPartition (str "b") 1) t Hok) as [_ [_ Hok1]]. fold t1 in Hok1. split.
  - destruct (partition_table_refines_map (mkTopicPartition (str "b") 2) t Hok) as [(t' & -> & _) _]. exists t'. vm_compute. reflexivity.
  - destruct (partition_table_refines_map (mkTopicPartition (str "b") 2) t1 Hok1) as [(t' & -> & _ & Hs) _].
    exists t'. split; [vm_compute; reflexivity|exact Hs].
Defined.
