(* ===== verification/KafkaProtocol.v ===== *)
(** * The Kafka protocol handler

    Models src/kafka_protocol.cpp: the conversions between wire messages and
    the broker's requests and results, the grouping of results by topic, and
    [handle_frame], which dispatches a request frame.

    The broker it calls is the interface [BrokerApi]; BrokerShard implements
    it.  [handle_frame] runs in two steps, as the C++ does: what it does
    before returning a future (an exception there is thrown to the caller),
    and the future it returns. *)

From Stdlib Require Import ZArith Lia.
From stdpp Require Import base tactics numbers option sorting sets list.
From S2P Require Import Prelude Wire Protocol Codec RecordBatch Config Detail Storage PartitionLog.

Local Open Scope Z_scope.

(** ** Requests *)

Record ProducePartitionRequest := mkProducePartitionRequest {
  ppq_topic : cstring;
  ppq_partition : Z;
  ppq_records : bytes;
}.

Record ProduceRequest := mkProduceRequest {
  bpr_acks : Z;
  bpr_timeout_ms : Z;
  bpr_rejected_error_code : Z;
  bpr_partitions : list ProducePartitionRequest;
}.

Record FetchPartitionRequest := mkFetchPartitionRequest {
  fpq_topic : cstring;
  fpq_partition : Z;
  fpq_offset : Z;
  fpq_max_wait_ms : Z;
  fpq_min_bytes : Z;
  fpq_max_bytes : Z;
}.

Record ListOffsetPartitionRequest := mkListOffsetPartitionRequest {
  lpq_topic : cstring;
  lpq_partition : Z;
  lpq_timestamp : Z;
}.

(** ** The broker *)

(** What the protocol handler uses of the broker. *)
Class BrokerApi := {
  Broker : Type;
  broker_config : Broker → BrokerConfig;
  broker_append : ProducePartitionRequest → Z → Z → IO Broker ProducePartitionResult;
  broker_fetch : FetchPartitionRequest → IO Broker FetchPartitionResult;
  broker_list_offsets : ListOffsetPartitionRequest → IO Broker ListOffsetPartitionResult;
}.

(** ** Responses *)

Definition kNoAuthorizedOps : Z := -2147483648.

Definition api_versions_response (error : ErrorCode) : ApiVersionsResponse :=
  mkApiVersionsResponse (error_code_value error)
    (map (λ api, mkApiVersionsResponseApi (fka_api_key api) (fka_min_version api) (fka_max_version api))
      fixed_kafka_apis) 0.

(** The topics a metadata request asks for: a topic that is not configured
    has no partitions. *)
Definition requested_topics (topics : list TopicConfig) (request : MetadataRequest) : list TopicConfig :=
  if mdq_all_topics request then topics
  else map (λ requested,
    match list_find (λ configured, tc_name configured = mdqt_name requested) topics with
    | Some (_, configured) => configured
    | None => mkTopicConfig (mdqt_name requested) []
    end) (mdq_topics request).

Definition metadata_response_topic (topic : TopicConfig) : MetadataResponseTopic :=
  let missing := bool_decide (tc_partitions topic = []) in
  let error_code := if missing then error_code_value UnknownTopicOrPartition else 0 in
  mkMetadataResponseTopic error_code (tc_name topic) false
    (map (λ partition, mkMetadataResponsePartition error_code (pc_partition partition)
       (if missing then -1 else pc_leader partition) 0 (pc_replicas partition) (pc_isr partition) [])
     (tc_partitions topic)) kNoAuthorizedOps.

Definition metadata_response (config : BrokerConfig) (request : MetadataRequest) : MetadataResponse :=
  mkMetadataResponse 0
    (map (λ node, mkMetadataResponseBroker (be_id node) (be_kafka_host node) (be_kafka_port node) None)
      (bc_brokers config))
    (Some (str "mkmq-cluster")) (bc_node_id config)
    (map metadata_response_topic (requested_topics (bc_topics config) request)) kNoAuthorizedOps.

(** [std::map<std::string, std::vector<A>>]: [grouped[key].push_back(x)]. *)
Fixpoint group_insert {A} (key : cstring) (x : A) (grouped : list (cstring * list A))
    : list (cstring * list A) :=
  match grouped with
  | [] => [(key, [x])]
  | (k, xs) :: grouped' =>
      if cstring_ltb key k then (key, [x]) :: grouped
      else if cstring_ltb k key then (k, xs) :: group_insert key x grouped'
      else (k, xs ++ [x]) :: grouped'
  end.
Definition group_by {A} (topic : A → cstring) (l : list A) : list (cstring * list A) :=
  fold_left (λ grouped x, group_insert (topic x) x grouped) l [].

Definition produce_response (responses : list ProducePartitionResult) : ProduceResponse :=
  mkProduceResponse
    (map (λ g, mkProduceResponseTopic g.1
       (map (λ p, mkProduceResponsePartition (ppr_partition p) (ppr_error_code p) (ppr_base_offset p) (-1)
          (ppr_log_start_offset p) [] None) g.2))
     (group_by ppr_topic responses)) 0.

Definition fetch_response (responses : list (FetchPartitionRequest * FetchPartitionResult)) : FetchResponse :=
  mkFetchResponse 0 0 0
    (map (λ g, mkFetchResponseTopic g.1
       (map (λ qr, mkFetchResponsePartition (fpq_partition qr.1) (fpr_error_code qr.2) (fpr_high_watermark qr.2)
          (fpr_high_watermark qr.2) (fpr_log_start_offset qr.2) None (-1) (fpr_records qr.2)) g.2))
     (group_by (λ qr, fpq_topic qr.1) responses)).

Definition list_offsets_response (responses : list ListOffsetPartitionResult) : ListOffsetsResponse :=
  mkListOffsetsResponse 0
    (map (λ g, mkListOffsetsResponseTopic g.1
       (map (λ p, mkListOffsetsResponsePartition (lopr_partition p) (lopr_error_code p) (-1) (lopr_selected p) 0) g.2))
     (group_by lopr_topic responses)).

(** ** Requests from the wire *)

Definition idempotent (records : bytes) : result bool :=
  match has_idempotent_record_batch records with Ok (b, _) => Ok b | Err e => Err e end.

(** The loop over the partitions of a topic; [rejected] is
    [request.rejected_error_code]. *)
Fixpoint to_broker_produce_partitions (topic : cstring) (wire : list ProduceRequestPartition) (rejected : Z)
    : result (Z * list ProducePartitionRequest) :=
  match wire with
  | [] => Ok (rejected, [])
  | p :: wire' =>
      found ← (if rejected =? 0 then idempotent (pqp_records p) else Ok false);
      let rejected' := if found : bool then error_code_value InvalidRequest else rejected in
      '(rejected'', ps) ← to_broker_produce_partitions topic wire' rejected';
      Ok (rejected'', mkProducePartitionRequest topic (pqp_partition_index p) (pqp_records p) :: ps)
  end.
Fixpoint to_broker_produce_topics (wire : list ProduceRequestTopic) (rejected : Z)
    : result (Z * list ProducePartitionRequest) :=
  match wire with
  | [] => Ok (rejected, [])
  | t :: wire' =>
      '(rejected', ps) ← to_broker_produce_partitions (pqt_name t) (pqt_partitions t) rejected;
      '(rejected'', ps') ← to_broker_produce_topics wire' rejected';
      Ok (rejected'', ps ++ ps')
  end.
Definition to_broker_produce_request (wire : WireProduceRequest) : result ProduceRequest :=
  let rejected := match pq_transactional_id wire with
    | Some _ => error_code_value InvalidRequest
    | None => 0
    end in
  '(rejected', ps) ← to_broker_produce_topics (pq_topics wire) rejected;
  Ok (mkProduceRequest (pq_acks wire) (pq_timeout_ms wire) rejected' ps).

Definition rejected_produce_results (request : ProduceRequest) : list ProducePartitionResult :=
  map (λ p, mkProducePartitionResult (ppq_topic p) (ppq_partition p) (bpr_rejected_error_code request) 0 0 0)
    (bpr_partitions request).

Definition to_broker_fetch_request (wire : FetchRequest) : list FetchPartitionRequest :=
  concat (map (λ topic, map (λ p, mkFetchPartitionRequest (fqt_topic topic) (fqp_partition p) (fqp_fetch_offset p)
      (fq_max_wait_ms wire) (fq_min_bytes wire)
      (if fqp_partition_max_bytes p <=? 0 then fq_max_bytes wire else fqp_partition_max_bytes p))
    (fqt_partitions topic)) (fq_topics wire)).

Definition to_broker_list_offsets_request (wire : ListOffsetsRequest) : list ListOffsetPartitionRequest :=
  concat (map (λ topic, map (λ p, mkListOffsetPartitionRequest (lqt_name topic) (lqp_partition_index p) (lqp_timestamp p))
    (lqt_partitions topic)) (lq_topics wire)).

(** ** Dispatch *)

(** [seastar::do_for_each(items, body)], collecting the results. *)
Fixpoint do_for_each {σ A B} (items : list A) (body : A → IO σ B) : IO σ (list B) :=
  match items with
  | [] => mret []
  | x :: items' =>
      r ← body x;
      rs ← do_for_each items' body;
      mret (r :: rs)
  end.

(** A response body in its frame. *)
Definition respond (header : RequestHeader) (body : result bytes) : result bytes :=
  body ← body; make_response_frame header body.

(** The value of a reader, without what it leaves. *)
Definition run_reader {A} (m : Reader A) (reader : WireReader) : result A :=
  match m reader with Ok (a, _) => Ok a | Err e => Err e end.

Section dispatch.
Context `{BrokerApi}.
Abbreviation Future A := (IO Broker A).

Definition handle_produce (header : RequestHeader) (request : ProduceRequest) : result (Future (option bytes)) :=
  if negb (bpr_rejected_error_code request =? 0) then
    if bpr_acks request =? 0 then Ok (mret None)
    else
      frame ← respond header (encode_produce_response (produce_response (rejected_produce_results request)));
      Ok (mret (Some frame))
  else Ok (
    results ← do_for_each (bpr_partitions request) (λ partition,
      broker_append partition (bpr_acks request) (bpr_timeout_ms request));
    if bpr_acks request =? 0 then mret None
    else
      frame ← lift (respond header (encode_produce_response (produce_response results)));
      mret (Some frame)).

Definition handle_fetch (header : RequestHeader) (partitions : list FetchPartitionRequest) : Future (option bytes) :=
  results ← do_for_each partitions (λ partition,
    result ← broker_fetch partition; mret (partition, result));
  frame ← lift (respond header (encode_fetch_response (fetch_response results)));
  mret (Some frame).

Definition handle_list_offsets (header : RequestHeader) (partitions : list ListOffsetPartitionRequest)
    : Future (option bytes) :=
  results ← do_for_each partitions broker_list_offsets;
  frame ← lift (respond header (encode_list_offsets_response (list_offsets_response results)));
  mret (Some frame).

(** [handle_frame]: [Err] is an exception thrown before a future exists. *)
Definition handle_frame (payload : bytes) (broker : Broker) : result (Future (option bytes)) :=
  match parse_request_header (WireReader_of payload) with
  | Err e => Err e
  | Ok (header, reader) =>
      if bool_decide (api_key header = ApiVersions) then
        let supported := is_supported ApiVersions (api_version header) in
        frame ← respond header (encode_api_versions_response
          (api_versions_response (if supported then NoError else UnsupportedVersion)));
        Ok (mret (Some frame))
      else if negb (is_supported (api_key header) (api_version header))
      then Err (ProtocolError (str "unsupported fixed Kafka API version for " ++ api_name (api_key header)))
      else match api_key header with
      | Metadata =>
          request ← run_reader decode_metadata_request reader;
          frame ← respond header (encode_metadata_response (metadata_response (broker_config broker) request));
          Ok (mret (Some frame))
      | Produce =>
          wire ← run_reader decode_produce_request reader;
          request ← to_broker_produce_request wire;
          handle_produce header request
      | Fetch =>
          wire ← run_reader decode_fetch_request reader;
          Ok (handle_fetch header (to_broker_fetch_request wire))
      | ListOffsets =>
          wire ← run_reader decode_list_offsets_request reader;
          Ok (handle_list_offsets header (to_broker_list_offsets_request wire))
      | _ => Err (ProtocolError (str "Kafka API is outside the fixed first release scope"))
      end
  end.
End dispatch.

(** ** Lemmas: grouping *)

Definition cstring_lt (a b : cstring) : Prop := cstring_ltb a b = true.

#[local] Instance cstring_lt_trans : Transitive cstring_lt.
Proof. intros a b c. apply cstring_ltb_trans. Qed.

Lemma cstring_lt_irrefl a : ¬ cstring_lt a a.
Proof. unfold cstring_lt. by rewrite cstring_ltb_irrefl. Qed.

(** The groups of [l]: by increasing topic, each with its elements in order. *)
Definition groups_of {A} (topic : A → cstring) (l : list A) (m : list (cstring * list A)) : Prop :=
  StronglySorted cstring_lt (map fst m) ∧
  ∀ k xs, (k, xs) ∈ m ↔ xs = filter (λ x, topic x = k) l ∧ xs ≠ [].

Lemma group_insert_keys {A} key (x : A) m k :
  k ∈ map fst (group_insert key x m) ↔ k = key ∨ k ∈ map fst m.
Proof.
  induction m as [|[k' xs] m IH]; cbn [group_insert map fst]; [set_solver|].
  destruct (cstring_ltb key k') eqn:E1; [set_solver|].
  destruct (cstring_ltb k' key) eqn:E2; cbn [map fst]; rewrite !elem_of_cons; [rewrite IH; tauto|].
  destruct (decide (key = k')) as [->|Hne]; [tauto|].
  apply cstring_ltb_total in Hne as [?|?]; congruence.
Qed.

Lemma group_insert_sorted {A} key (x : A) m :
  StronglySorted cstring_lt (map fst m) → StronglySorted cstring_lt (map fst (group_insert key x m)).
Proof.
  induction m as [|[k xs] m IH]; cbn [group_insert map fst]; intros Hs; [repeat constructor|].
  apply StronglySorted_inv in Hs as [Hs Hk].
  destruct (cstring_ltb key k) eqn:E1; cbn [map fst].
  { constructor; [by constructor|]. constructor; [exact E1|]. eapply Forall_impl; [exact Hk|].
    intros y Hy. by transitivity k. }
  destruct (cstring_ltb k key) eqn:E2; cbn [map fst]; [|by constructor].
  constructor; [by apply IH|]. apply Forall_forall. intros y Hy. apply group_insert_keys in Hy as [->|Hy]; [exact E2|].
  rewrite Forall_forall in Hk. by apply Hk.
Qed.

(** Only the group of the key changes. *)
Lemma group_insert_elem {A} key (x : A) m k ys :
  StronglySorted cstring_lt (map fst m) →
  (k, ys) ∈ group_insert key x m ↔
  (k = key ∧ ((∃ xs, (key, xs) ∈ m ∧ ys = xs ++ [x]) ∨ (key ∉ map fst m ∧ ys = [x]))) ∨ (k ≠ key ∧ (k, ys) ∈ m).
Proof.
  induction m as [|[k' xs] m IH]; cbn [group_insert map fst]; intros Hs.
  { rewrite list_elem_of_singleton. split; [intros [= -> ->]; left; split; [done|right; split; [by apply not_elem_of_nil|done]]|].
    intros [(-> & [(xs & Hin & _)|(_ & ->)])|(_ & Hin)]; [by apply elem_of_nil in Hin|done|by apply elem_of_nil in Hin]. }
  apply StronglySorted_inv in Hs as [Hs Hk]. rewrite Forall_forall in Hk.
  assert (∀ q zs, (q, zs) ∈ m → cstring_lt k' q) as Hlt.
  { intros q zs Hq. apply Hk. change q with (q, zs).1. by apply list_elem_of_fmap_2. }
  destruct (cstring_ltb key k') eqn:E1.
  - assert (key ∉ k' :: map fst m) as Hnot.
    { intros [->|Hin]%elem_of_cons; [by apply (cstring_lt_irrefl k')|]. apply (cstring_lt_irrefl key).
      transitivity k'; [exact E1|]. by apply Hk. }
    rewrite elem_of_cons. split.
    + intros [[= -> ->]|Hin]; [left; auto|]. right. split; [|done]. intros ->. apply Hnot.
      change (k' :: map fst m) with (map fst ((k', xs) :: m)). change key with (key, ys).1. by apply list_elem_of_fmap_2.
    + intros [(-> & [(zs & Hin & _)|(_ & ->)])|(Hne & Hin)]; [|by left|by right]. exfalso. apply Hnot.
      change (k' :: map fst m) with (map fst ((k', xs) :: m)). change key with (key, zs).1. by apply list_elem_of_fmap_2.
  - destruct (cstring_ltb k' key) eqn:E2.
    + assert (k' ≠ key) as Hne by (intros ->; by apply (cstring_lt_irrefl key)).
      rewrite elem_of_cons, IH by done. setoid_rewrite elem_of_cons. split.
      * intros [[= -> ->]|[(-> & [(zs & Hin & ->)|(Hn & ->)])|(Hk0 & Hin)]]; [right; auto|left; eauto 10| |right; auto].
        left. split; [done|right]. split; [|done]. intros [?|?]; [congruence|done].
      * intros [(-> & [(zs & [[= -> ->]|Hin] & ->)|(Hn & ->)])|(Hk0 & [[= -> ->]|Hin])]; [done|eauto 10| |auto|auto].
        right. left. split; [done|right]. split; [|done]. auto.
    + assert (key = k') as <-.
      { destruct (decide (key = k')) as [|Hne]; [done|]. apply cstring_ltb_total in Hne as [?|?]; congruence. }
      assert (∀ zs, (key, zs) ∉ m) as Hnm by (intros zs Hin; by apply (cstring_lt_irrefl key), (Hlt key zs)).
      rewrite elem_of_cons. setoid_rewrite elem_of_cons. split.
      * intros [[= -> ->]|Hin]; [left; split; [done|left; eauto]|]. right. split; [|auto]. intros ->. by apply Hnm in Hin.
      * intros [(-> & [(zs & [[= ->]|Hin] & ->)|(Hn & ->)])|(Hk0 & [[= -> ->]|Hin])];
          [by left|by apply Hnm in Hin|exfalso; apply Hn; auto|done|by right].
Qed.

Lemma group_by_ok {A} (topic : A → cstring) (l : list A) : groups_of topic l (group_by topic l).
Proof.
  induction l as [|x l [Hs Hm]] using rev_ind.
  { split; [constructor|]. intros k xs. split; [by intros ?%elem_of_nil|]. intros [-> []]. done. }
  unfold group_by. rewrite fold_left_app. cbn [fold_left]. fold (group_by topic l). split; [by apply group_insert_sorted|].
  intros k ys. rewrite group_insert_elem by done. rewrite filter_app.
  assert (∀ P : Prop, P → ¬ P → False) as Habs by tauto.
  destruct (decide (k = topic x)) as [->|Hne].
  - rewrite filter_cons_True, filter_nil by done. setoid_rewrite Hm. split.
    + intros [(_ & [(xs & [-> _] & ->)|(Hn & ->)])|[? _]]; [split; [done|by destruct (filter _ l)]| |done].
      destruct (filter (λ y, topic y = topic x) l) as [|y ys] eqn:E; [done|]. exfalso. apply Hn.
      change (topic x) with (topic x, y :: ys).1. apply list_elem_of_fmap_2, Hm. by rewrite E.
    + intros [-> _]. left. split; [done|]. destruct (filter (λ y, topic y = topic x) l) as [|y ys] eqn:E.
      * right. split; [|done]. intros Hin. apply list_elem_of_fmap in Hin as ([q zs] & Hq & Hin). cbn [fst] in Hq. subst q.
        apply Hm in Hin as [-> Hz]. by rewrite E in Hz.
      * left. exists (y :: ys). done.
  - rewrite filter_cons_False, filter_nil, app_nil_r by (intros ?; congruence). rewrite <- Hm. naive_solver.
Qed.

(** ** Lemmas: requests from the wire *)

Definition idem (records : bytes) : bool := match idempotent records with Ok b => b | Err _ => false end.

Lemma idempotent_ok records : idempotent records = Ok (idem records).
Proof.
  unfold idem, idempotent, has_idempotent_record_batch.
  rewrite (st_bind_ok (gets _) _ _ _ _ eq_refl).
  destruct (idempotent_loop_any (S (length records)) [] records) as [b Hb]; [lia|].
  change (zlen []) with 0 in Hb. rewrite app_nil_l in Hb. by rewrite Hb.
Qed.

(** The partitions of a produce request, in order. *)
Definition produce_partitions (wire : WireProduceRequest) : list ProducePartitionRequest :=
  concat (map (λ t, map (λ p, mkProducePartitionRequest (pqt_name t) (pqp_partition_index p) (pqp_records p))
    (pqt_partitions t)) (pq_topics wire)).

(** A transactional request, or one with an idempotent batch. *)
Definition rejected (wire : WireProduceRequest) : bool :=
  bool_decide (is_Some (pq_transactional_id wire)) || existsb (λ p, idem (ppq_records p)) (produce_partitions wire).

Lemma to_broker_produce_partitions_ok topic wire code :
  to_broker_produce_partitions topic wire code
  = Ok (if (code =? 0) && existsb (λ p, idem (pqp_records p)) wire then error_code_value InvalidRequest else code,
        map (λ p, mkProducePartitionRequest topic (pqp_partition_index p) (pqp_records p)) wire).
Proof.
  revert code. induction wire as [|p wire IH]; intros code; cbn [to_broker_produce_partitions existsb map].
  { by rewrite andb_false_r. }
  rewrite idempotent_ok. destruct (Z.eqb_spec code 0) as [->|Hc]; simpl.
  - destruct (idem (pqp_records p)); simpl; rewrite IH; simpl; [done|]. done.
  - rewrite IH. destruct (Z.eqb_spec code 0); [done|]. done.
Qed.

Lemma to_broker_produce_topics_ok wire code :
  to_broker_produce_topics wire code
  = Ok (if (code =? 0) && existsb (λ t, existsb (λ p, idem (pqp_records p)) (pqt_partitions t)) wire
        then error_code_value InvalidRequest else code,
        concat (map (λ t, map (λ p, mkProducePartitionRequest (pqt_name t) (pqp_partition_index p) (pqp_records p))
          (pqt_partitions t)) wire)).
Proof.
  revert code. induction wire as [|t wire IH]; intros code; cbn [to_broker_produce_topics existsb map concat].
  { by rewrite andb_false_r. }
  rewrite to_broker_produce_partitions_ok. simpl. rewrite IH. simpl. do 2 f_equal.
  destruct (Z.eqb_spec code 0) as [->|Hc]; simpl.
  - destruct (existsb _ (pqt_partitions t)); simpl; [done|]. done.
  - destruct (Z.eqb_spec code 0); [done|]. done.
Qed.

Lemma existsb_produce_partitions (f : bytes → bool) topics :
  existsb (λ p, f (ppq_records p)) (concat (map (λ t, map (λ p, mkProducePartitionRequest (pqt_name t)
    (pqp_partition_index p) (pqp_records p)) (pqt_partitions t)) topics))
  = existsb (λ t, existsb (λ p, f (pqp_records p)) (pqt_partitions t)) topics.
Proof.
  induction topics as [|t topics IH]; [done|]. cbn [map concat existsb]. rewrite existsb_app, IH. f_equal.
  induction (pqt_partitions t) as [|p ps IHp]; [done|]. cbn [map existsb]. by rewrite IHp.
Qed.

Lemma to_broker_produce_request_ok wire :
  to_broker_produce_request wire
  = Ok (mkProduceRequest (pq_acks wire) (pq_timeout_ms wire)
      (if rejected wire then error_code_value InvalidRequest else 0) (produce_partitions wire)).
Proof.
  unfold to_broker_produce_request, rejected, produce_partitions. rewrite existsb_produce_partitions.
  destruct (pq_transactional_id wire) as [id|]; rewrite to_broker_produce_topics_ok; simpl.
  - done.
  - done.
Qed.

(** ** Lemmas: dispatch *)

Section dispatch_lemmas.
Context `{BrokerApi}.

(** A frame of header [h] (with this client id) and body [body]. *)
Definition request_frame (h : RequestHeader) (client : option cstring) (body : bytes) : bytes :=
  enc_request_header h client ++ body.

Definition header_of (key : ApiKey) (version corr : Z) (client : option cstring) : RequestHeader :=
  mkRequestHeader key version corr (default [] client) (request_header_version key version).

Definition client_ok (client : option cstring) : Prop := ∀ c, client = Some c → fits16 c.

Lemma parse_frame key version corr client body :
  is_Some (find_info key) → in_s 16 version → in_s 32 corr → client_ok client →
  zlen (request_frame (header_of key version corr client) client body) < 2 ^ 64 →
  ∃ r, parse_request_header (WireReader_of (request_frame (header_of key version corr client) client body))
    = Ok (header_of key version corr client, r) ∧ reader_wf r ∧ rest r = body.
Proof.
  intros Hk Hv Hc Hcl Hlen. pose proof (reads_request_header key version corr client Hk Hv Hc Hcl) as Hr.
  pose proof (reads_buffer _ _ _ body Hr Hlen) as Hp. cbv zeta in Hp. eexists. split; [exact Hp|].
  assert (rest (WireReader_of (request_frame (header_of key version corr client) client body))
    = enc_request_header (header_of key version corr client) client ++ body) as Hrest by apply WireReader_of_rest.
  split; [eapply moved_wf|eapply moved_rest]; try done; by apply WireReader_of_wf.
Qed.

Lemma run_reads {A} (m : Reader A) r enc v :
  reads m enc v → reader_wf r → rest r = enc → run_reader m r = Ok v.
Proof. intros Hm Hr Hrest. unfold run_reader. rewrite (Hm r []); [done|done|by rewrite app_nil_r]. Qed.

(** One lemma for each kind of request frame. *)
(** ApiVersions of any version is answered, whatever its body: without error
    for versions 0 to 3, with UnsupportedVersion otherwise, and with the list
    of APIs either way.  (The documentation has version 3 only, and every
    other version rejected before dispatch.) *)
Lemma handle_versions_frame version corr client body broker :
  in_s 16 version → in_s 32 corr → client_ok client →
  let h := header_of ApiVersions version corr client in
  zlen (request_frame h client body) < 2 ^ 64 →
  ∃ response, handle_frame (request_frame h client body) broker = Ok (mret (Some response)) ∧
    respond h (encode_api_versions_response (api_versions_response
      (if (0 <=? version) && (version <=? 3) then NoError else UnsupportedVersion))) = Ok response.
Proof.
  intros Hv Hc Hcl h Hlen. destruct (parse_frame ApiVersions version corr client body) as (r & Hp & _);
    [by eexists|done|done|done|done|].
  unfold handle_frame. fold h in Hp. rewrite Hp. cbn [api_key api_version h header_of].
  rewrite bool_decide_true by done.
  assert (is_supported ApiVersions version = (0 <=? version) && (version <=? 3)) as ->.
  { apply eq_true_iff_eq. rewrite is_supported_cases, andb_true_iff, !Z.leb_le. naive_solver lia. }
  set (e := if _ && _ then NoError else UnsupportedVersion).
  assert (∃ body, encode_api_versions_response (api_versions_response e) = Ok body ∧ zlen body < 2 ^ 31 - 5) as (b & Hb & Hz).
  { destruct e; eexists; (split; [vm_compute; reflexivity|vm_compute; reflexivity]). }
  eexists. rewrite Hb. unfold respond. simpl mbind. by rewrite make_response_frame_enc.
Qed.

(** A frame of the one supported version of its API reaches its decoder. *)
Ltac supported_frame key version corr client body r Hp Hr Hrest :=
  destruct (parse_frame key version corr client body) as (r & Hp & Hr & Hrest); [by eexists|done|done|done|done|];
  match goal with h := header_of _ _ _ _ |- _ => fold h in Hp end;
  unfold handle_frame; rewrite Hp; cbn [api_key api_version header_of];
  match goal with h := header_of _ _ _ _ |- _ =>
    change (api_key h) with key; change (api_version h) with version end;
  rewrite bool_decide_false by done; change (is_supported key version) with true; cbn [negb].

Lemma handle_produce_frame corr client wire broker :
  in_s 32 corr → client_ok client → produce_request_wf wire →
  let h := header_of Produce 9 corr client in
  let frame := request_frame h client (enc_produce_request wire) in
  zlen frame < 2 ^ 64 →
  handle_frame frame broker = handle_produce h (mkProduceRequest (pq_acks wire) (pq_timeout_ms wire)
    (if rejected wire then error_code_value InvalidRequest else 0) (produce_partitions wire)).
Proof.
  intros Hc Hcl Hwf h frame Hlen. unfold frame. supported_frame Produce 9 corr client (enc_produce_request wire) r Hp Hr Hrest.
  rewrite (run_reads _ r _ _ (reads_produce_request wire Hwf) Hr Hrest). simpl mbind.
  by rewrite to_broker_produce_request_ok.
Qed.

Lemma handle_fetch_frame corr client wire forgotten broker :
  in_s 32 corr → client_ok client → fetch_request_wf wire → fits32 forgotten → Forall forgotten_topic_wf forgotten →
  let h := header_of Fetch 12 corr client in
  let frame := request_frame h client (enc_fetch_request wire forgotten) in
  zlen frame < 2 ^ 64 → handle_frame frame broker = Ok (handle_fetch h (to_broker_fetch_request wire)).
Proof.
  intros Hc Hcl Hwf Hf Hff h frame Hlen. unfold frame.
  supported_frame Fetch 12 corr client (enc_fetch_request wire forgotten) r Hp Hr Hrest.
  by rewrite (run_reads _ r _ _ (reads_fetch_request wire forgotten Hwf Hf Hff) Hr Hrest).
Qed.

Lemma handle_list_offsets_frame corr client wire broker :
  in_s 32 corr → client_ok client → list_offsets_request_wf wire →
  let h := header_of ListOffsets 6 corr client in
  let frame := request_frame h client (enc_list_offsets_request wire) in
  zlen frame < 2 ^ 64 → handle_frame frame broker = Ok (handle_list_offsets h (to_broker_list_offsets_request wire)).
Proof.
  intros Hc Hcl Hwf h frame Hlen. unfold frame.
  supported_frame ListOffsets 6 corr client (enc_list_offsets_request wire) r Hp Hr Hrest.
  by rewrite (run_reads _ r _ _ (reads_list_offsets_request wire Hwf) Hr Hrest).
Qed.

Lemma handle_metadata_frame corr client wire broker :
  in_s 32 corr → client_ok client → metadata_request_wf wire →
  let h := header_of Metadata 9 corr client in
  let frame := request_frame h client (enc_metadata_request wire) in
  zlen frame < 2 ^ 64 → handle_frame frame broker
    = (response ← respond h (encode_metadata_response (metadata_response (broker_config broker) wire));
       Ok (mret (Some response))).
Proof.
  intros Hc Hcl Hwf h frame Hlen. unfold frame. supported_frame Metadata 9 corr client (enc_metadata_request wire) r Hp Hr Hrest.
  by rewrite (run_reads _ r _ _ (reads_metadata_request wire Hwf) Hr Hrest).
Qed.
End dispatch_lemmas.

(** ** Theorems *)

(** C30: the responses regroup the per-partition results without losing,
    inventing or reordering any: topics come once each in increasing order,
    exactly those with a result, and under each topic stand its results in
    the order the broker gave them, with their partition, error code and
    offsets. *)
Theorem responses_grouped rs fs ls :
  (∃ m, groups_of ppr_topic rs m ∧ pr_topics (produce_response rs)
     = map (λ g, mkProduceResponseTopic g.1 (map (λ p, mkProduceResponsePartition (ppr_partition p) (ppr_error_code p)
         (ppr_base_offset p) (-1) (ppr_log_start_offset p) [] None) g.2)) m) ∧
  (∃ m, groups_of (λ qr : FetchPartitionRequest * FetchPartitionResult, fpq_topic qr.1) fs m ∧ fr_topics (fetch_response fs)
     = map (λ g, mkFetchResponseTopic g.1 (map (λ qr, mkFetchResponsePartition (fpq_partition qr.1) (fpr_error_code qr.2)
         (fpr_high_watermark qr.2) (fpr_high_watermark qr.2) (fpr_log_start_offset qr.2) None (-1) (fpr_records qr.2)) g.2)) m) ∧
  (∃ m, groups_of lopr_topic ls m ∧ lr_topics (list_offsets_response ls)
     = map (λ g, mkListOffsetsResponseTopic g.1 (map (λ p, mkListOffsetsResponsePartition (lopr_partition p)
         (lopr_error_code p) (-1) (lopr_selected p) 0) g.2)) m).
Proof.
  split_and!; eexists; (split; [apply group_by_ok|reflexivity]).
Qed.

Section theorems.
Context `{BrokerApi}.

(** C14: a Produce v9 frame.  A transactional request, or one in which any
    record set has an idempotent batch, is refused as a whole: every
    partition is answered InvalidRequest and the broker is not called.
    Otherwise the broker appends the partitions one after the other in
    request order, with the request's acks and timeout, and the answer
    carries their results.  With acks 0 there is no answer at all. *)
Theorem produce_frame_dispatch corr client wire broker :
  in_s 32 corr → client_ok client → produce_request_wf wire →
  let h := header_of Produce 9 corr client in
  let frame := request_frame h client (enc_produce_request wire) in
  zlen frame < 2 ^ 64 →
  handle_frame frame broker =
    if rejected wire then
      if pq_acks wire =? 0 then Ok (mret None)
      else
        response ← respond h (encode_produce_response (produce_response (map (λ p, mkProducePartitionResult
          (ppq_topic p) (ppq_partition p) (error_code_value InvalidRequest) 0 0 0) (produce_partitions wire))));
        Ok (mret (Some response))
    else Ok (
      results ← do_for_each (produce_partitions wire) (λ p, broker_append p (pq_acks wire) (pq_timeout_ms wire));
      if pq_acks wire =? 0 then mret None
      else
        response ← lift (respond h (encode_produce_response (produce_response results)));
        mret (Some response)).
Proof.
  intros Hc Hcl Hwf h frame Hlen. unfold frame, h. rewrite handle_produce_frame by done.
  unfold handle_produce. simpl. by destruct (rejected wire).
Qed.

(** C15: the other frames, in the versions that the documentation lists.  An
    ApiVersions v3 frame is answered with the list of APIs and no error; a
    Fetch v12, ListOffsets v6 or Metadata v9 frame reaches its handler with
    the request it encodes; and a Produce, Fetch, ListOffsets or Metadata
    frame of any other version is refused by an exception before the broker
    is called. *)
Theorem other_frames_dispatch corr client broker :
  in_s 32 corr → client_ok client →
  (∀ body, let h := header_of ApiVersions 3 corr client in
     zlen (request_frame h client body) < 2 ^ 64 →
     ∃ response, handle_frame (request_frame h client body) broker = Ok (mret (Some response)) ∧
       respond h (encode_api_versions_response (api_versions_response NoError)) = Ok response) ∧
  (∀ wire forgotten, fetch_request_wf wire → fits32 forgotten → Forall forgotten_topic_wf forgotten →
     let h := header_of Fetch 12 corr client in
     let frame := request_frame h client (enc_fetch_request wire forgotten) in
     zlen frame < 2 ^ 64 → handle_frame frame broker = Ok (handle_fetch h (to_broker_fetch_request wire))) ∧
  (∀ wire, list_offsets_request_wf wire →
     let h := header_of ListOffsets 6 corr client in
     let frame := request_frame h client (enc_list_offsets_request wire) in
     zlen frame < 2 ^ 64 → handle_frame frame broker = Ok (handle_list_offsets h (to_broker_list_offsets_request wire))) ∧
  (∀ wire, metadata_request_wf wire →
     let h := header_of Metadata 9 corr client in
     let frame := request_frame h client (enc_metadata_request wire) in
     zlen frame < 2 ^ 64 → handle_frame frame broker
       = (response ← respond h (encode_metadata_response (metadata_response (broker_config broker) wire));
          Ok (mret (Some response)))) ∧
  (∀ key version body, key = Produce ∨ key = Fetch ∨ key = ListOffsets ∨ key = Metadata → in_s 16 version →
     is_supported key version = false →
     let h := header_of key version corr client in
     zlen (request_frame h client body) < 2 ^ 64 →
     ∃ msg, handle_frame (request_frame h client body) broker = Err (ProtocolError msg)).
Proof.
  intros Hc Hcl. split_and!.
  - intros body. by apply (handle_versions_frame 3).
  - intros wire forgotten Hwf Hf Hff. by apply handle_fetch_frame.
  - intros wire Hwf. by apply handle_list_offsets_frame.
  - intros wire Hwf. by apply handle_metadata_frame.
  - intros key version body Hk Hv Hs h Hlen. destruct (parse_frame key version corr client body) as (r & Hp & _);
      [by destruct Hk as [->|[->|[->| ->]]]; eexists|done|done|done|done|].
    unfold handle_frame. fold h in Hp. rewrite Hp. cbn [api_key api_version h header_of].
    rewrite bool_decide_false by (by destruct Hk as [->|[->|[->| ->]]]). rewrite Hs. cbn [negb]. eauto.
Qed.
End theorems.

(** A broker that gives canned results. *)
#[local] Instance canned_broker : BrokerApi := {|
  Broker := BrokerConfig;
  broker_config c := c;
  broker_append p _ _ := mret (mkProducePartitionResult (ppq_topic p) (ppq_partition p) 0 7 8 0);
  broker_fetch _ := mret (mkFetchPartitionResult 0 0 0 0 []);
  broker_list_offsets p := mret (mkListOffsetPartitionResult (lpq_topic p) (lpq_partition p) 0 0 0 0);
|}.
Definition canned_produce (id : option cstring) : WireProduceRequest :=
  mkWireProduceRequest id 1 100 [mkProduceRequestTopic (str "orders") [mkProduceRequestPartition 0 (str "rr")]].

Lemma canned_produce_wf id : id = None ∨ id = Some (str "tx") → produce_request_wf (canned_produce id).
Proof.
  intros Hid. unfold produce_request_wf. cbn [canned_produce pq_transactional_id pq_acks pq_timeout_ms pq_topics].
  split; [intros x ->; destruct Hid as [[=]|[= ->]]; vm_compute; reflexivity|].
  split; [split; vm_compute; congruence|]. split; [split; vm_compute; congruence|]. split; [vm_compute; reflexivity|].
  constructor; [|constructor]. split; [vm_compute; reflexivity|]. split; [vm_compute; reflexivity|].
  constructor; [|constructor]. split; [split; vm_compute; congruence|intros x [= <-]; vm_compute; reflexivity].
Qed.

Lemma produce_frame_dispatch_witness :
  let frame id := request_frame (header_of Produce 9 5 None) None (enc_produce_request (canned_produce id)) in
  let answer code offset :=
    body ← respond (header_of Produce 9 5 None) (encode_produce_response (produce_response
      [mkProducePartitionResult (str "orders") 0 code offset 8 0]));
    Ok (Some body) in
  (∃ f, handle_frame (frame None) sample_config = Ok f ∧
     f sample_config = (answer 0 7, sample_config)) ∧
  ∃ f, handle_frame (frame (Some (str "tx"))) sample_config = Ok f ∧
     f sample_config = (answer (error_code_value InvalidRequest) 0, sample_config).
Proof.
  split; (eexists; split; [refine (produce_frame_dispatch 5 None (canned_produce _) sample_config _ _ _ _)|]);
    first [apply canned_produce_wf; auto|intros c [=]|vm_compute; reflexivity|split; vm_compute; congruence].
Defined.

Lemma other_frames_dispatch_witness :
  let frame key version := request_frame (header_of key version 5 None) None [] in
  (∃ response, handle_frame (frame ApiVersions 3) sample_config = Ok (mret (Some response)) ∧
     respond (header_of ApiVersions 3 5 None) (encode_api_versions_response (api_versions_response NoError)) = Ok response) ∧
  ∃ msg, handle_frame (frame Fetch 11) sample_config = Err (ProtocolError msg).
Proof.
  destruct (other_frames_dispatch (H := canned_broker) 5 None sample_config) as (Hversions & _ & _ & _ & Hother);
    [split; vm_compute; congruence|intros c [=]|].
  split; [apply (Hversions [])|apply (Hother Fetch 11 [])];
    first [vm_compute; reflexivity|split; vm_compute; congruence|auto].
Defined.
