(* ===== verification/BrokerShard.v ===== *)
(** * The broker shard

    Models [BrokerShard] of include/mkmq/broker_shard.hpp and
    src/broker_shard.cpp: routing of the partition operations to the shard
    that owns the partition, leadership checks, replication to the in-sync
    replicas, the Mercury handlers of a follower, follower catch-up and
    health checks, start, reload and stop, and the Kafka connection loop.

    The state is a [Node]: the shards of one broker process (the shard id is
    the position), its disk, and [Net], the rest of the world.  What the code
    calls outside it, the Mercury client, the listening socket, timers and
    deadlines, is the interface [Reactor]: each call is an action on the node
    that may do anything another task could do meanwhile.  The latency
    histograms are left out.

    Futures are run where they are created.  [IO] keeps the effects of what
    throws; a future that is kept for later is its [result].  The exception
    is the replication that a request with acks 0 or 1 leaves behind: it
    stays in [replications_], its messages on their way, and
    [finish_replication] ends it at some later time. *)

From Stdlib Require Import ZArith Lia.
From stdpp Require Import base tactics numbers option sorting sets gmap functions list.
From S2P Require Import Prelude Wire Protocol Codec Crc32c RecordBatch Config Detail Storage PartitionLog KafkaProtocol PartitionTable.

Local Open Scope Z_scope.

(** ** Data *)

Inductive Counter :=
  | kafka_requests_ | kafka_errors_ | produce_errors_ | fetch_errors_
  | replica_appends_ | replica_errors_ | health_checks_ | health_failures_
  | catchup_attempts_ | catchup_errors_ | catchup_records_.
#[global] Instance Counter_eq_dec : EqDecision Counter.
Proof. solve_decision. Defined.

(** A [replicate_to_isr] under way: its partition, whether an in-sync member
    is not configured, the followers it was sent to, and what was sent. *)
Record Replication := mkReplication {
  rp_partition : PartitionConfig;
  rp_unknown : bool;
  rp_followers : list cstring;
  rp_payload : bytes;
}.

(** [peers_set_]: [peers_] is not null.  [listening_]: [listener_] accepts.
    [gate_closed_]: [gate_.close()] was called.  [rpcs_registered_]: the
    Mercury handlers are installed.  [replications_]: the replications that
    run in the background, behind the gate. *)
Record BrokerShard := mkBrokerShard {
  bs_config_ : BrokerConfig;
  peers_set_ : bool;
  table_ : PartitionTable;
  stopping_ : bool;
  listening_ : bool;
  maintenance_armed_ : bool;
  gate_closed_ : bool;
  rpcs_registered_ : bool;
  counters_ : Counter → Z;
  replications_ : list Replication;
}.

Definition default_broker_config : BrokerConfig :=
  mkBrokerConfig 0 0 (str "mkmq-data") 9642 100 100 (1024 * 1024 * 1024) [] [].
Definition BrokerShard_init : BrokerShard :=
  mkBrokerShard default_broker_config false PartitionTable_init false false false false false (λ _, 0) [].

(** Assignments. *)
Definition set_bs_config_ (v : BrokerConfig) (b : BrokerShard) : BrokerShard :=
  mkBrokerShard v (peers_set_ b) (table_ b) (stopping_ b) (listening_ b) (maintenance_armed_ b)
    (gate_closed_ b) (rpcs_registered_ b) (counters_ b) (replications_ b).
Definition set_peers (b : BrokerShard) : BrokerShard :=
  mkBrokerShard (bs_config_ b) true (table_ b) (stopping_ b) (listening_ b) (maintenance_armed_ b)
    (gate_closed_ b) (rpcs_registered_ b) (counters_ b) (replications_ b).
Definition set_table_ (v : PartitionTable) (b : BrokerShard) : BrokerShard :=
  mkBrokerShard (bs_config_ b) (peers_set_ b) v (stopping_ b) (listening_ b) (maintenance_armed_ b)
    (gate_closed_ b) (rpcs_registered_ b) (counters_ b) (replications_ b).
Definition set_stopping_ (v : bool) (b : BrokerShard) : BrokerShard :=
  mkBrokerShard (bs_config_ b) (peers_set_ b) (table_ b) v (listening_ b) (maintenance_armed_ b)
    (gate_closed_ b) (rpcs_registered_ b) (counters_ b) (replications_ b).
Definition set_listening_ (v : bool) (b : BrokerShard) : BrokerShard :=
  mkBrokerShard (bs_config_ b) (peers_set_ b) (table_ b) (stopping_ b) v (maintenance_armed_ b)
    (gate_closed_ b) (rpcs_registered_ b) (counters_ b) (replications_ b).
Definition set_maintenance_armed_ (v : bool) (b : BrokerShard) : BrokerShard :=
  mkBrokerShard (bs_config_ b) (peers_set_ b) (table_ b) (stopping_ b) (listening_ b) v
    (gate_closed_ b) (rpcs_registered_ b) (counters_ b) (replications_ b).
Definition set_gate_closed_ (v : bool) (b : BrokerShard) : BrokerShard :=
  mkBrokerShard (bs_config_ b) (peers_set_ b) (table_ b) (stopping_ b) (listening_ b)
    (maintenance_armed_ b) v (rpcs_registered_ b) (counters_ b) (replications_ b).
Definition set_rpcs_registered_ (v : bool) (b : BrokerShard) : BrokerShard :=
  mkBrokerShard (bs_config_ b) (peers_set_ b) (table_ b) (stopping_ b) (listening_ b)
    (maintenance_armed_ b) (gate_closed_ b) v (counters_ b) (replications_ b).
Definition set_counters_ (v : Counter → Z) (b : BrokerShard) : BrokerShard :=
  mkBrokerShard (bs_config_ b) (peers_set_ b) (table_ b) (stopping_ b) (listening_ b)
    (maintenance_armed_ b) (gate_closed_ b) (rpcs_registered_ b) v (replications_ b).
Definition set_replications_ (v : list Replication) (b : BrokerShard) : BrokerShard :=
  mkBrokerShard (bs_config_ b) (peers_set_ b) (table_ b) (stopping_ b) (listening_ b)
    (maintenance_armed_ b) (gate_closed_ b) (rpcs_registered_ b) (counters_ b) v.

(** ** The node and its surroundings *)

Record Node {St : Storage} (Net : Type) := mkNode {
  shards : list BrokerShard;
  disk : Disk;
  net : Net;
}.
#[global] Arguments mkNode {_ _} _ _ _.
#[global] Arguments shards {_ _} _.
#[global] Arguments disk {_ _} _.
#[global] Arguments net {_ _} _.

(** What the broker uses of Mercury, of sockets and of time.
    [deadline_passed me ms]: the operation just run took longer than [ms]. *)
Class Reactor `{Storage} := {
  Net : Type;
  mercury_start : nat → cstring → bool → IO (Node Net) unit;
  mercury_stop : nat → IO (Node Net) unit;
  mercury_forward : nat → cstring → cstring → bytes → IO (Node Net) bytes;
  listen : nat → cstring → Z → IO (Node Net) unit;
  sleep_ms : nat → Z → IO (Node Net) unit;
  deadline_passed : nat → Z → IO (Node Net) bool;
  socket_write : nat → bytes → IO (Node Net) unit;
}.

(** ** Lookups in the configuration *)

Definition kMaxKafkaFrameBytes : Z := 100 * 1024 * 1024.

Fixpoint owner_shard_in (topics : list TopicConfig) (topic : cstring) (partition : Z) : option Z :=
  match topics with
  | [] => None
  | topic_config :: topics' =>
      if negb (cstring_eqb (tc_name topic_config) topic) then owner_shard_in topics' topic partition
      else match List.find (λ p, pc_partition p =? partition) (tc_partitions topic_config) with
      | Some p => Some (pc_shard p)
      | None => None
      end
  end.
Definition owner_shard (topic : cstring) (partition : Z) (b : BrokerShard) : option Z :=
  owner_shard_in (bc_topics (bs_config_ b)) topic partition.

Definition topics (b : BrokerShard) : list TopicConfig := bc_topics (bs_config_ b).
Definition partition_config (topic : cstring) (partition : Z) (b : BrokerShard) : option PartitionConfig :=
  find_partition (bs_config_ b) topic partition.

Definition missing_produce_result (topic : cstring) (partition : Z) : ProducePartitionResult :=
  mkProducePartitionResult topic partition partition_missing 0 0 0.
Definition missing_list_offsets_result (topic : cstring) (partition : Z) : ListOffsetPartitionResult :=
  mkListOffsetPartitionResult topic partition partition_missing 0 0 0.

(** ** Effects *)

(** A future that is kept: the computation runs, its outcome is a value. *)
Definition attempt {σ A} (m : IO σ A) : IO σ (result A) := λ s, let '(r, s') := m s in (Ok r, s').

(** [when_all_succeed(...)]: all of them run, the first failure is the
    result. *)
Fixpoint when_all_succeed {σ} (futures : list (IO σ unit)) : IO σ unit :=
  match futures with
  | [] => mret tt
  | m :: futures' =>
      r ← attempt m;
      rest ← attempt (when_all_succeed futures');
      lift (match r with Ok _ => rest | Err e => Err e end)
  end.

Section broker.
Context `{Crc32Intrinsics} `{Storage} {Reactor0 : Reactor}.
Abbreviation Broker_ := (IO (Node Net)).

(** The state of shard [me]; a shard id out of range has no shard. *)
Definition no_such_shard : error := UndefinedBehavior (str "no such shard").
Definition ask {A} (me : nat) (f : BrokerShard → A) : Broker_ A := λ w,
  match shards w !! me with
  | Some b => (Ok (f b), w)
  | None => (Err no_such_shard, w)
  end.
Definition update (me : nat) (f : BrokerShard → BrokerShard) : Broker_ unit := λ w,
  match shards w !! me with
  | Some b => (Ok tt, mkNode (<[me := f b]> (shards w)) (disk w) (net w))
  | None => (Err no_such_shard, w)
  end.

(** [++counter]. *)
Definition bump (c : Counter) (n : Z) (b : BrokerShard) : BrokerShard :=
  set_counters_ (<[c := u64 (counters_ b c + n)]> (counters_ b)) b.
Definition count (me : nat) (c : Counter) : Broker_ unit := update me (bump c 1).

(** [find_partition_log(topic, partition)]. *)
Definition find_log (me : nat) (key : TopicPartition) : Broker_ (option TopicPartition) :=
  b ← ask me id;
  '(r, t) ← lift (find_partition_log key (table_ b));
  update me (set_table_ t);;
  mret r.

(** An operation of the log that [p] points to. *)
Definition dangling : error := UndefinedBehavior (str "no such partition log").
Definition on_log {A} (me : nat) (p : TopicPartition) (m : IO World A) : Broker_ A := λ w,
  match shards w !! me with
  | None => (Err no_such_shard, w)
  | Some b =>
      match log_of p (table_ b) with
      | None => (Err dangling, w)
      | Some log =>
          let '(r, (log', disk')) := m (log, disk w) in
          (r, mkNode (<[me := set_table_ (set_log p log' (table_ b)) b]> (shards w)) disk' (net w))
      end
  end.

(** [with_gate(gate_, f)]. *)
Definition gate_closed_exception : error := RuntimeError (str "gate closed").
Definition with_gate {A} (me : nat) (m : Broker_ A) : Broker_ A :=
  closed ← ask me gate_closed_;
  if closed : bool then fail gate_closed_exception else m.

(** [peers_->invoke_on(shard, f)]. *)
Definition invoke_on {A} (me : nat) (shard : Z) (m : nat → Broker_ A) : Broker_ A :=
  peers ← ask me peers_set_;
  if peers : bool then m (Z.to_nat shard) else fail (UndefinedBehavior (str "peers_ is null")).

(** Forwarding from shard to shard that does not end. *)
Definition out_of_hops {A} : Broker_ A := fail (UndefinedBehavior (str "out of hops")).

(** ** Replication, on the leader *)

(** The ISR members other than this broker: the Mercury addresses of those
    that are configured, and whether one is not. *)
Fixpoint isr_followers (config : BrokerConfig) (isr : list Z) : bool * list cstring :=
  match isr with
  | [] => (false, [])
  | broker_id :: isr' =>
      let '(unknown, followers) := isr_followers config isr' in
      if broker_id =? bc_node_id config then (unknown, followers)
      else match find_broker config broker_id with
      | None => (true, followers)
      | Some broker => (unknown, be_mercury_address broker :: followers)
      end
  end.

Definition not_configured : error := RuntimeError (str "replica broker is not configured").

Definition send_replica_append (me : nat) (encoded : bytes) (address : cstring) : Broker_ unit :=
  response_payload ← mercury_forward me address (str "replica_append") encoded;
  error_code ← lift (decode_payload read_int16 response_payload);
  if negb (error_code =? 0) then fail (RuntimeError (str "replica append failed")) else mret tt.

(** The part of [replicate_to_isr] that runs when it is called... *)
Definition begin_replication (me : nat) (partition : PartitionConfig) (local_result : ProducePartitionResult)
    (records : bytes) : Broker_ Replication :=
  config ← ask me bs_config_;
  let '(unknown, followers) := isr_followers config (pc_isr partition) in
  match followers with
  | [] => mret (mkReplication partition unknown [] [])
  | _ =>
      encoded ← lift (encode_replica_append (mkReplicaAppendRequest (pc_topic partition) (pc_partition partition)
        (ppr_base_offset local_result) (ppr_log_end_offset local_result) records));
      mret (mkReplication partition unknown followers encoded)
  end.

(** ... and the future that it returns. *)
Definition replication_future (me : nat) (replication : Replication) : Broker_ unit :=
  when_all_succeed ((if rp_unknown replication then [fail not_configured] else []) ++
    map (send_replica_append me (rp_payload replication)) (rp_followers replication)).

(** [replicate_to_isr], awaited.  The error of [IO] is what it throws before
    it returns a future; the value is the outcome of the future. *)
Definition replicate_to_isr (me : nat) (partition : PartitionConfig) (local_result : ProducePartitionResult)
    (records : bytes) : Broker_ (result unit) :=
  replication ← begin_replication me partition local_result records;
  attempt (replication_future me replication).

(** What both continuations of the replication future do with the log. *)
Definition after_replication (me : nat) (partition : PartitionConfig) (f : PartitionLogShard → PartitionLogShard)
    : Broker_ unit :=
  log ← find_log me (mkTopicPartition (pc_topic partition) (pc_partition partition));
  match log with
  | Some p => on_log me p (upd f)
  | None => mret tt
  end.
Definition replicated (me : nat) (partition : PartitionConfig) : Broker_ unit :=
  after_replication me partition (λ log, mark_replicated_through (latest (offsets_ log)) log).
Definition replication_failed (me : nat) (partition : PartitionConfig) : Broker_ unit :=
  count me replica_errors_;;
  after_replication me partition mark_degraded.

Definition with_error (e : ErrorCode) (r : ProducePartitionResult) : ProducePartitionResult :=
  mkProducePartitionResult (ppr_topic r) (ppr_partition r) (error_code_value e) (ppr_base_offset r)
    (ppr_log_end_offset r) (ppr_log_start_offset r).

(** The continuations of the replication future. *)
Definition replication_done (me : nat) (partition : PartitionConfig) (outcome : result unit) : Broker_ unit :=
  match outcome with
  | Ok _ => replicated me partition
  | Err _ => replication_failed me partition
  end.

(** [(void) with_gate(gate_, ...)]: the future is not waited for.  Without
    followers it is ready, and its continuation runs at once. *)
Definition leave_replication (me : nat) (replication : Replication) : Broker_ unit :=
  match rp_followers replication with
  | [] => outcome ← attempt (replication_future me replication); replication_done me (rp_partition replication) outcome
  | _ => update me (λ b, set_replications_ (replications_ b ++ [replication]) b)
  end.

(** A replication of the background comes to its end; this happens at any
    time after the request that left it was answered, and in any order. *)
Definition finish_replication (me i : nat) : Broker_ unit :=
  found ← ask me (λ b, replications_ b !! i);
  match found with
  | None => mret tt
  | Some replication =>
      update me (λ b, set_replications_ (delete i (replications_ b)) b);;
      outcome ← attempt (replication_future me replication);
      replication_done me (rp_partition replication) outcome
  end.

(** The gated part of [append].  Replication is dispatched, then the local
    write.  When [acks] is -1 the replication future is awaited; otherwise it
    is left to the background, and the answer is that of the write. *)
Definition append_operation (me : nat) (p : TopicPartition) (partition : PartitionConfig) (records : bytes)
    (acks : Z) (replica_stub : ProducePartitionResult) : Broker_ ProducePartitionResult :=
  if acks =? -1 then
    replicate_fut ← (if (1 <? length (pc_isr partition))%nat
      then replicate_to_isr me partition replica_stub records else mret (Ok tt));
    write_fut ← attempt (on_log me p (append records acks));
    result ← lift write_fut;
    if negb (ppr_error_code result =? 0) then mret result
    else match replicate_fut with
    | Ok _ => replicated me partition;; mret result
    | Err _ => replication_failed me partition;; mret (with_error NotEnoughReplicas result)
    end
  else
    replication ← (if (1 <? length (pc_isr partition))%nat
      then begin_replication me partition replica_stub records else mret (mkReplication partition false [] []));
    write_fut ← attempt (on_log me p (append records acks));
    leave_replication me replication;;
    lift write_fut.

(** [with_timeout(now + wait_ms, m)], [late] when the deadline passes first. *)
Definition with_timeout {A} (me : nat) (wait_ms : Z) (m : Broker_ A) (late : Broker_ A) : Broker_ A :=
  r ← attempt m;
  passed ← deadline_passed me wait_ms;
  if passed : bool then late else lift r.

(** How long a produce request may take; 0 or less is forever. *)
Definition produce_wait_ms (config : BrokerConfig) (timeout_ms : Z) : Z :=
  let cap_ms := i32 (bc_produce_wait_ms_cap config) in
  if timeout_ms <=? 0 then cap_ms else Z.min timeout_ms cap_ms.

(** From the leadership check on, on the shard that owns the partition. *)
Definition append_local (me : nat) (request : ProducePartitionRequest) (acks timeout_ms : Z) (p : TopicPartition)
    : Broker_ ProducePartitionResult :=
  partition ← on_log me p (asks config_);
  config ← ask me bs_config_;
  if negb (pc_leader partition =? bc_node_id config) then
    mret (mkProducePartitionResult (ppq_topic request) (ppq_partition request)
      (error_code_value NotLeaderOrFollower) 0 0 0)
  else
    planned_base ← on_log me p (asks (λ log, latest (offsets_ log)));
    records ← lift (rewrite_record_batch_offsets (ppq_records request) planned_base);
    planned_count ← lift (record_count records);
    planned_log_end ← checked_i64 (planned_base + planned_count);
    let replica_stub := mkProducePartitionResult (pc_topic partition) (pc_partition partition) 0
      planned_base planned_log_end 0 in
    let operation := with_gate me (append_operation me p partition records acks replica_stub) in
    let wait_ms := produce_wait_ms config timeout_ms in
    if wait_ms <=? 0 then operation
    else with_timeout me wait_ms operation (
      count me produce_errors_;;
      mret (mkProducePartitionResult (pc_topic partition) (pc_partition partition)
        (error_code_value RequestTimedOut) 0 0 0)).

Fixpoint BrokerShard_append (hops : nat) (me : nat) (request : ProducePartitionRequest) (acks timeout_ms : Z)
    : Broker_ ProducePartitionResult :=
  let missing := count me produce_errors_;; mret (missing_produce_result (ppq_topic request) (ppq_partition request)) in
  match hops with
  | O => out_of_hops
  | S hops' =>
      owner ← ask me (owner_shard (ppq_topic request) (ppq_partition request));
      match owner with
      | None => missing
      | Some owner =>
          if negb (owner =? Z.of_nat me)
          then invoke_on me owner (λ shard, BrokerShard_append hops' shard request acks timeout_ms)
          else
            partition_log ← find_log me (mkTopicPartition (ppq_topic request) (ppq_partition request));
            match partition_log with
            | None => missing
            | Some p => append_local me request acks timeout_ms p
            end
      end
  end.

(** ** Fetch and list offsets *)

Definition fetch_error (e : Z) : FetchPartitionResult := mkFetchPartitionResult e 0 0 0 [].

Definition local_is_replica (config : BrokerConfig) (partition : PartitionConfig) : bool :=
  list_contains (pc_replicas partition) (bc_node_id config).

Definition fetch_local (me : nat) (request : FetchPartitionRequest) (p : TopicPartition)
    : Broker_ FetchPartitionResult :=
  partition ← on_log me p (asks config_);
  config ← ask me bs_config_;
  if negb (local_is_replica config partition) ||
     (negb (pc_leader partition =? bc_node_id config) && negb (pc_allow_follower_fetch partition))
  then mret (fetch_error (error_code_value NotLeaderOrFollower))
  else
    result ← on_log me p (fetch (fpq_offset request) (fpq_max_bytes request));
    config ← ask me bs_config_;
    let wait_ms := Z.min (Z.max 0 (fpq_max_wait_ms request)) (i32 (bc_fetch_max_wait_ms_cap config)) in
    if negb (fpr_error_code result =? 0) || negb (bool_decide (fpr_records result = [])) || (wait_ms <=? 0) ||
       (fpq_min_bytes request <=? 0) || (fpq_offset request <? fpr_log_end_offset result)
    then mret result
    else
      sleep_ms me wait_ms;;
      on_log me p (fetch (fpq_offset request) (fpq_max_bytes request)).

Fixpoint BrokerShard_fetch (hops : nat) (me : nat) (request : FetchPartitionRequest) : Broker_ FetchPartitionResult :=
  let missing := count me fetch_errors_;; mret (fetch_error partition_missing) in
  match hops with
  | O => out_of_hops
  | S hops' =>
      owner ← ask me (owner_shard (fpq_topic request) (fpq_partition request));
      match owner with
      | None => missing
      | Some owner =>
          if negb (owner =? Z.of_nat me)
          then invoke_on me owner (λ shard, BrokerShard_fetch hops' shard request)
          else
            partition_log ← find_log me (mkTopicPartition (fpq_topic request) (fpq_partition request));
            match partition_log with
            | None => missing
            | Some p => fetch_local me request p
            end
      end
  end.

Fixpoint BrokerShard_list_offsets (hops : nat) (me : nat) (request : ListOffsetPartitionRequest)
    : Broker_ ListOffsetPartitionResult :=
  let missing := mret (missing_list_offsets_result (lpq_topic request) (lpq_partition request)) in
  match hops with
  | O => out_of_hops
  | S hops' =>
      owner ← ask me (owner_shard (lpq_topic request) (lpq_partition request));
      match owner with
      | None => missing
      | Some owner =>
          if negb (owner =? Z.of_nat me)
          then invoke_on me owner (λ shard, BrokerShard_list_offsets hops' shard request)
          else
            partition_log ← find_log me (mkTopicPartition (lpq_topic request) (lpq_partition request));
            match partition_log with
            | None => missing
            | Some p => on_log me p (asks (λ log, list_offsets log (lpq_timestamp request)))
            end
      end
  end.

(** ** Replication, on the follower *)

Fixpoint BrokerShard_append_replica (hops : nat) (me : nat) (request : ReplicaAppendRequest)
    : Broker_ ProducePartitionResult :=
  let missing := count me replica_errors_;; mret (missing_produce_result (raq_topic request) (raq_partition request)) in
  match hops with
  | O => out_of_hops
  | S hops' =>
      count me replica_appends_;;
      owner ← ask me (owner_shard (raq_topic request) (raq_partition request));
      match owner with
      | None => missing
      | Some owner =>
          if negb (owner =? Z.of_nat me)
          then invoke_on me owner (λ shard, BrokerShard_append_replica hops' shard request)
          else
            partition_log ← find_log me (mkTopicPartition (raq_topic request) (raq_partition request));
            match partition_log with
            | None => missing
            | Some p =>
                partition ← on_log me p (asks config_);
                config ← ask me bs_config_;
                if negb (local_is_replica config partition) then
                  count me replica_errors_;;
                  mret (mkProducePartitionResult (raq_topic request) (raq_partition request)
                    (error_code_value NotLeaderOrFollower) 0 0 0)
                else on_log me p (append_replica request)
            end
      end
  end.

Definition replica_fetch_error (e : Z) : ReplicaFetchResult := mkReplicaFetchResult e 0 0 [].

Fixpoint BrokerShard_fetch_for_replica (hops : nat) (me : nat) (request : ReplicaFetchRequest)
    : Broker_ ReplicaFetchResult :=
  let missing := mret (replica_fetch_error partition_missing) in
  match hops with
  | O => out_of_hops
  | S hops' =>
      owner ← ask me (owner_shard (rfq_topic request) (rfq_partition request));
      match owner with
      | None => missing
      | Some owner =>
          if negb (owner =? Z.of_nat me)
          then invoke_on me owner (λ shard, BrokerShard_fetch_for_replica hops' shard request)
          else
            partition_log ← find_log me (mkTopicPartition (rfq_topic request) (rfq_partition request));
            match partition_log with
            | None => missing
            | Some p =>
                partition ← on_log me p (asks config_);
                config ← ask me bs_config_;
                if negb (pc_leader partition =? bc_node_id config)
                then mret (replica_fetch_error (error_code_value NotLeaderOrFollower))
                else on_log me p (fetch_for_replica (rfq_offset request) (rfq_max_bytes request))
            end
      end
  end.

(** Enough hops: see [dispatch_ok] in BrokerRouting.v. *)
Definition kHops : nat := 2.

(** ** The Mercury handlers *)

Definition on_replica_append (me : nat) (payload : bytes) : Broker_ bytes :=
  request ← lift (decode_replica_append payload);
  result ← BrokerShard_append_replica kHops me request;
  lift (encode_replica_append_response (ppr_error_code result)
    (if ppr_error_code result =? 0 then ppr_log_end_offset result else raq_base_offset request)).

Definition on_replica_fetch (me : nat) (payload : bytes) : Broker_ bytes :=
  request ← lift (decode_replica_fetch payload);
  result ← BrokerShard_fetch_for_replica kHops me request;
  lift (encode_replica_fetch_response result).

Definition on_health_ping (me : nat) (payload : bytes) : Broker_ bytes := mret [].

Definition rpc_handler (name : cstring) : option (nat → bytes → Broker_ bytes) :=
  if cstring_eqb name (str "replica_append") then Some on_replica_append
  else if cstring_eqb name (str "replica_fetch") then Some on_replica_fetch
  else if cstring_eqb name (str "health_ping") then Some on_health_ping
  else None.

Definition register_mercury_rpcs (me : nat) : Broker_ unit := update me (set_rpcs_registered_ true).

(** ** Maintenance *)

Definition send_replica_fetch (me : nat) (broker_id : Z) (request : ReplicaFetchRequest)
    : Broker_ (result ReplicaFetchResult) :=
  config ← ask me bs_config_;
  match find_broker config broker_id with
  | None => mret (Err not_configured)
  | Some broker =>
      encoded ← lift (encode_replica_fetch request);
      attempt (
        payload ← mercury_forward me (be_mercury_address broker) (str "replica_fetch") encoded;
        lift (decode_replica_fetch_response payload))
  end.

Definition check_peer_health (me : nat) (broker_id : Z) : Broker_ unit :=
  config ← ask me bs_config_;
  match find_broker config broker_id with
  | None => count me health_failures_
  | Some broker =>
      count me health_checks_;;
      catch (mercury_forward me (be_mercury_address broker) (str "health_ping") [];; mret tt)
        (λ _, count me health_failures_)
  end.

(** The continuation of the fetch. *)
Definition catch_up_append (me : nat) (partition : PartitionConfig) (local_end : Z) (result : ReplicaFetchResult)
    : Broker_ unit :=
  if negb (rfr_error_code result =? 0) || bool_decide (rfr_records result = []) then mret tt
  else
    append_result ← BrokerShard_append_replica kHops me (mkReplicaAppendRequest (pc_topic partition)
      (pc_partition partition) local_end (rfr_leader_high_watermark result) (rfr_records result));
    if negb (ppr_error_code append_result =? 0) then count me catchup_errors_
    else
      update me (bump catchup_records_ (Z.max 0 (ppr_log_end_offset append_result - local_end)));;
      log ← find_log me (mkTopicPartition (pc_topic partition) (pc_partition partition));
      match log with
      | None => mret tt
      | Some p => on_log me p (upd (λ log,
          if latest (offsets_ log) >=? ppr_log_end_offset append_result
          then mark_replicated_through (latest (offsets_ log)) log else log))
      end.

Definition catch_up_follower_partition (me : nat) (partition : PartitionConfig) : Broker_ unit :=
  log ← find_log me (mkTopicPartition (pc_topic partition) (pc_partition partition));
  match log with
  | None => mret tt
  | Some p =>
      local_end ← on_log me p (asks (λ log, latest (offsets_ log)));
      count me catchup_attempts_;;
      fetched ← send_replica_fetch me (pc_leader partition) (mkReplicaFetchRequest (pc_topic partition)
        (pc_partition partition) local_end kReplicaCatchupMaxBytes);
      catch (result ← lift fetched; catch_up_append me partition local_end result)
        (λ _, count me catchup_errors_)
  end.

Definition maintenance_once (me : nat) : Broker_ unit :=
  b ← ask me id;
  let config := bs_config_ b in
  let peers := filter (λ broker, be_id broker ≠ bc_node_id config) (bc_brokers config) in
  let followed := filter (λ partition, local_is_replica config partition = true ∧
    pc_leader partition ≠ bc_node_id config) (map (λ entry, config_ (pe_log entry)) (partitions_ (table_ b))) in
  when_all_succeed (map (λ broker, check_peer_health me (be_id broker)) peers ++
    map (catch_up_follower_partition me) followed).

Definition arm_maintenance_timer (me : nat) : Broker_ unit :=
  update me (λ b, if stopping_ b then b else set_maintenance_armed_ true b).

(** The callback of the maintenance timer. *)
Definition maintenance_tick (me : nat) : Broker_ unit :=
  update me (set_maintenance_armed_ false);;
  catch (with_gate me (maintenance_once me)) (λ _, mret tt);;
  arm_maintenance_timer me.

(** ** Life cycle *)

(** [data_dir / ("shard-" + id)]. *)
Definition shard_root (config : BrokerConfig) (me : nat) : cstring :=
  path_join (bc_data_dir config) (str "shard-" ++ to_string (Z.of_nat me)).

Definition partition_key_of (partition : PartitionConfig) : TopicPartition :=
  mkTopicPartition (pc_topic partition) (pc_partition partition).

Definition local_partitions (config : BrokerConfig) (me : nat) : list PartitionConfig :=
  filter (λ partition, pc_shard partition = Z.of_nat me) (all_partitions config).

Definition start_partition (me : nat) (config : BrokerConfig) (partition : PartitionConfig) : Broker_ unit :=
  update me (λ b, set_table_ (emplace_partition_log (partition_key_of partition) (table_ b)) b);;
  on_log me (partition_key_of partition) (start partition (shard_root config me) (bc_segment_bytes config)).

Definition BrokerShard_start (me : nat) (config : BrokerConfig) : Broker_ unit :=
  update me (set_bs_config_ config);;
  starts ← attempt (when_all_succeed (map (start_partition me config) (local_partitions config me)));
  match find_broker config (bc_node_id config) with
  | None => fail (RuntimeError (str "local broker is missing from config"))
  | Some broker =>
      lift starts;;
      mercury_start me (be_mercury_address broker) true;;
      register_mercury_rpcs me;;
      listen me (be_kafka_host broker) (be_kafka_port broker);;
      update me (set_listening_ true);;
      arm_maintenance_timer me
  end.

Definition BrokerShard_stop (me : nat) : Broker_ unit :=
  update me (set_stopping_ true);;
  update me (set_maintenance_armed_ false);;
  update me (set_listening_ false);;
  update me (set_gate_closed_ true);;
  pending ← ask me replications_;
  io_each pending (λ _, finish_replication me 0);;
  b ← ask me id;
  when_all_succeed (map (λ entry, on_log me (pe_key entry) stop) (partitions_ (table_ b)));;
  mercury_stop me.

Definition apply_partition (me : nat) (config : BrokerConfig) (partition : PartitionConfig) : Broker_ unit :=
  existing ← find_log me (partition_key_of partition);
  match existing with
  | Some p => on_log me p (upd (update_config partition))
  | None => start_partition me config partition
  end.

Definition apply_config (me : nat) (config : BrokerConfig) : Broker_ unit :=
  old ← ask me bs_config_;
  lift (validate_reload old config);;
  when_all_succeed (map (apply_partition me config) (local_partitions config me));;
  update me (set_bs_config_ config).

(** ** Kafka connections *)

(** The broker as the protocol handler of shard [me] sees it. *)
#[export] Instance shard_api (me : nat) : BrokerApi := {|
  Broker := Node Net;
  broker_config w := match shards w !! me with Some b => bs_config_ b | None => default_broker_config end;
  broker_append := BrokerShard_append kHops me;
  broker_fetch := BrokerShard_fetch kHops me;
  broker_list_offsets := BrokerShard_list_offsets kHops me;
|}.

Definition handle_kafka_frame (me : nat) (payload : bytes) : Broker_ (option bytes) :=
  count me kafka_requests_;;
  w ← get;
  future ← lift (@handle_frame (shard_api me) payload w);
  catch future (λ e, count me kafka_errors_;; fail e).

(** [handle_connection]: [input] is what the client sends.  Every round but
    the last takes a frame of at least five bytes, so that
    [length input + 1] rounds are enough. *)
Fixpoint handle_connection (rounds : nat) (me : nat) (input : bytes) : Broker_ unit :=
  match rounds with
  | O => fail (UndefinedBehavior (str "out of rounds"))
  | S rounds' =>
      stopping ← ask me stopping_;
      if stopping : bool then mret tt
      else match input with
      | b0 :: b1 :: b2 :: b3 :: input' =>
          let frame_size := decode_frame_size b0 b1 b2 b3 in
          if (frame_size <=? 0) || (frame_size >? kMaxKafkaFrameBytes) then mret tt
          else
            let frame := take (Z.to_nat frame_size) input' in
            if negb (zlen frame =? frame_size) then mret tt
            else
              continue ← catch (
                response ← handle_kafka_frame me frame;
                match response with
                | None => mret true
                | Some response => socket_write me response;; mret true
                end) (λ _, mret false);
              if continue : bool then handle_connection rounds' me (drop (Z.to_nat frame_size) input')
              else mret tt
      | _ => mret tt
      end
  end.

(** What [listener_->accept()] gives: a connection with what the client will
    send on it, the [std::system_error] of an aborted or failed accept, or
    another exception. *)
Inductive accept_result :=
| Accepted (input : bytes)
| SystemError
| AcceptFailed (e : error).

(** [accept_loop] on the results to come; at their end it waits.  The future
    of a connection is discarded, and so is its exception. *)
Fixpoint accept_loop (me : nat) (results : list accept_result) : Broker_ unit :=
  match results with
  | [] => mret tt
  | Accepted input :: results' =>
      attempt (with_gate me (handle_connection (S (length input)) me input));;
      accept_loop me results'
  | SystemError :: _ => mret tt
  | AcceptFailed e :: _ => fail e
  end.
End broker.
