(* ===== verification/BrokerRep.v ===== *)
(** * Reasoning about broker shards

    Predicates that describe a node through one of its partition logs, and
    the rules of the effects of BrokerShard.v in terms of them: what an
    operation on a log, a lookup or a counter does to the node. *)

From Stdlib Require Import ZArith Lia.
From stdpp Require Import base tactics numbers option sorting sets gmap functions list.
From S2P Require Import Prelude Wire Protocol Codec Crc32c RecordBatch Config Detail Storage PartitionLog KafkaProtocol PartitionTable BrokerShard.
From S2P Require Import LogRep.

Local Open Scope Z_scope.

(** Two states of a shard that differ in tables, counters and what runs in
    the background only. *)
Definition same_flags (b b' : BrokerShard) : Prop :=
  bs_config_ b' = bs_config_ b ∧ peers_set_ b' = peers_set_ b ∧ stopping_ b' = stopping_ b ∧
  listening_ b' = listening_ b ∧ maintenance_armed_ b' = maintenance_armed_ b ∧
  gate_closed_ b' = gate_closed_ b ∧ rpcs_registered_ b' = rpcs_registered_ b.

(** Two states of a shard that differ in tables and counters only. *)
Definition same_shard (b b' : BrokerShard) : Prop :=
  bs_config_ b' = bs_config_ b ∧ peers_set_ b' = peers_set_ b ∧ stopping_ b' = stopping_ b ∧
  listening_ b' = listening_ b ∧ maintenance_armed_ b' = maintenance_armed_ b ∧
  gate_closed_ b' = gate_closed_ b ∧ rpcs_registered_ b' = rpcs_registered_ b ∧ replications_ b' = replications_ b.

#[global] Instance same_flags_preorder : PreOrder same_flags.
Proof.
  split; [done|]. intros a b c (H1 & H2 & H3 & H4 & H5 & H6 & H7) (G1 & G2 & G3 & G4 & G5 & G6 & G7).
  repeat split; congruence.
Qed.
#[global] Instance same_shard_preorder : PreOrder same_shard.
Proof.
  split; [done|]. intros a b c (H1 & H2 & H3 & H4 & H5 & H6 & H7 & H8) (G1 & G2 & G3 & G4 & G5 & G6 & G7 & G8).
  repeat split; congruence.
Qed.
Lemma same_shard_flags b b' : same_shard b b' → same_flags b b'.
Proof. intros (H1 & H2 & H3 & H4 & H5 & H6 & H7 & _). by split_and!. Qed.

Section rep.
Context `{Crc32Intrinsics} {St : Storage} {Reactor0 : Reactor}.

(** Shard [me] is in state [b], with a table that is in order. *)
Definition shard_at (w : Node Net) (me : nat) (b : BrokerShard) : Prop :=
  shards w !! me = Some b ∧ sorted_table (table_ b).

(** Shard [me] has the log [log] under [p]. *)
Definition log_at (w : Node Net) (me : nat) (p : TopicPartition) (log : PartitionLogShard) : Prop :=
  ∃ b, shard_at w me b ∧ table_map (table_ b) !! p = Some log.

(** From [w] to [w'] only counters, caches and the log [p] of shard [me]
    (and the disk and the surroundings) changed. *)
Definition kept (me : nat) (p : TopicPartition) (w w' : Node Net) : Prop :=
  ∃ b b', shard_at w me b ∧ shard_at w' me b' ∧ shards w' = <[me := b']> (shards w) ∧ same_shard b b' ∧
    ∀ k, k ≠ p → table_map (table_ b') !! k = table_map (table_ b) !! k.

Lemma kept_refl me p w b : shard_at w me b → kept me p w w.
Proof. intros Hb. exists b, b. split_and!; try done. symmetry. apply list_insert_id, Hb. Qed.

Lemma kept_trans me p w1 w2 w3 : kept me p w1 w2 → kept me p w2 w3 → kept me p w1 w3.
Proof.
  intros (b1 & b2 & H1 & H2 & Hs & Hsame & Hk) (b2' & b3 & H2' & H3 & Hs' & Hsame' & Hk').
  assert (b2' = b2) as -> by (destruct H2 as [E _], H2' as [E' _]; congruence).
  exists b1, b3. split_and!; [done|done| |by transitivity b2|].
  - by rewrite Hs', Hs, list_insert_insert_eq.
  - intros k Hne. by rewrite Hk', Hk.
Qed.

Lemma kept_shard me p w w' b :
  kept me p w w' → shards w !! me = Some b → ∃ b', shard_at w' me b' ∧ same_shard b b'.
Proof. intros (b1 & b' & [H1 _] & H2 & _ & Hsame & _) Hb. assert (b1 = b) as -> by congruence. by exists b'. Qed.

Lemma kept_other me p w w' i : kept me p w w' → i ≠ me → shards w' !! i = shards w !! i.
Proof. intros (b & b' & _ & _ & -> & _) Hi. by apply list_lookup_insert_ne. Qed.

(** ** Rules *)

Lemma ask_ok {A} me (f : BrokerShard → A) w b : shards w !! me = Some b → ask me f w = (Ok (f b), w).
Proof. intros Hb. unfold ask. by rewrite Hb. Qed.

(** Any update that leaves the table alone and keeps the rest of the shard. *)
Lemma update_counters me p (f : BrokerShard → BrokerShard) w b :
  (∀ b, same_shard b (f b) ∧ table_ (f b) = table_ b) → shard_at w me b →
  ∃ w', update me f w = (Ok tt, w') ∧ kept me p w w' ∧ disk w' = disk w ∧ net w' = net w ∧
    shards w' !! me = Some (f b) ∧ ∀ log, log_at w me p log → log_at w' me p log.
Proof.
  intros Hf [Hb Ht]. unfold update. rewrite Hb. eexists. split; [done|]. destruct (Hf b) as [Hs Htab].
  assert (shards (mkNode (<[me:=f b]> (shards w)) (disk w) (net w)) !! me = Some (f b)) as Hl.
  { cbn [shards]. apply list_lookup_insert_eq. by eapply lookup_lt_Some. }
  split_and!; try done.
  - exists b, (f b). unfold shard_at. rewrite Htab. split_and!; try done.
  - intros log (b1 & [Hb1 _] & Hlog). assert (b1 = b) as -> by congruence. exists (f b). unfold shard_at.
    rewrite Htab. split_and!; try done.
Qed.

Lemma count_ok me p c w b :
  shard_at w me b →
  ∃ w', count me c w = (Ok tt, w') ∧ kept me p w w' ∧ disk w' = disk w ∧ net w' = net w ∧
    shards w' !! me = Some (bump c 1 b) ∧ ∀ log, log_at w me p log → log_at w' me p log.
Proof. apply update_counters. intros b'. done. Qed.

Lemma find_log_ok me p w log :
  log_at w me p log →
  ∃ w', find_log me p w = (Ok (Some p), w') ∧ kept me p w w' ∧ disk w' = disk w ∧ net w' = net w ∧ log_at w' me p log.
Proof.
  intros (b & [Hb Ht] & Hlog). unfold find_log. rewrite (io_bind_ok _ _ _ b w) by (exact (ask_ok me id w b Hb)).
  destruct (find_partition_log_refines p (table_ b) Ht) as (t & Hf & Hp & Hok & _). rewrite Hlog in Hf.
  rewrite (io_bind_ok _ _ _ (Some p, t) w) by (unfold lift; by rewrite Hf).
  assert (table_map t = table_map (table_ b)) as Hm by (unfold table_map; by rewrite Hp).
  set (w' := mkNode (<[me := set_table_ t b]> (shards w)) (disk w) (net w)).
  rewrite (io_bind_ok _ _ _ tt w') by (unfold update; by rewrite Hb).
  assert (shard_at w' me (set_table_ t b)) as Hs.
  { split; [|done]. cbn [shards w']. apply list_lookup_insert_eq. by eapply lookup_lt_Some. }
  exists w'. split_and!; try done.
  - exists b, (set_table_ t b). split_and!; try done. intros k _. cbn [table_ set_table_]. by rewrite Hm.
  - exists (set_table_ t b). split; [done|]. cbn [table_ set_table_]. by rewrite Hm.
Qed.

(** A partition this shard does not have. *)
Lemma find_log_none me p w b :
  shard_at w me b → table_map (table_ b) !! p = None → find_log me p w = (Ok None, w).
Proof.
  intros [Hb Ht] Hn. unfold find_log. rewrite (io_bind_ok _ _ _ b w) by (exact (ask_ok me id w b Hb)).
  destruct (find_partition_log_refines p (table_ b) Ht) as (t & Hf & _ & _ & Hsame). rewrite (Hsame Hn), Hn in Hf.
  rewrite (io_bind_ok _ _ _ (None, table_ b) w) by (unfold lift; by rewrite Hf). unfold update, mbind, IO_bind. rewrite Hb. f_equal.
  destruct w as [ss d n]. simpl. f_equal. rewrite list_insert_id; [done|]. simpl in Hb. rewrite Hb. by destruct b.
Qed.

Lemma on_log_ok {A} me p (m : IO World A) w log r log' d' :
  log_at w me p log → m (log, disk w) = (r, (log', d')) →
  ∃ w', on_log me p m w = (r, w') ∧ kept me p w w' ∧ disk w' = d' ∧ net w' = net w ∧ log_at w' me p log'.
Proof.
  intros (b & [Hb Ht] & Hlog) Hm. unfold on_log. rewrite Hb, log_of_map by done. rewrite Hlog, Hm.
  destruct (set_log_refines p log' (table_ b) Ht) as [Ht' Hm']; [by eexists|].
  eexists. split; [done|].
  set (b' := set_table_ (set_log p log' (table_ b)) b).
  assert (shards (mkNode (<[me:=b']> (shards w)) d' (net w)) !! me = Some b') as Hl.
  { cbn [shards]. apply list_lookup_insert_eq. by eapply lookup_lt_Some. }
  split_and!; try done.
  - exists b, b'. split_and!; try done. intros k Hk. cbn [b' table_ set_table_]. rewrite Hm'. by rewrite lookup_insert_ne.
  - exists b'. split; [done|]. cbn [b' table_ set_table_]. rewrite Hm'. apply lookup_insert_eq.
Qed.

(** Reading a log changes nothing but, in the model, the node it returns. *)
Lemma on_log_asks {A} me p (f : PartitionLogShard → A) w log :
  log_at w me p log → on_log me p (asks f) w = (Ok (f log), w).
Proof.
  intros (b & [Hb Ht] & Hlog). unfold on_log. rewrite Hb, log_of_map by done. rewrite Hlog. unfold asks. simpl.
  f_equal. destruct w as [ss d n]. simpl in *. f_equal. apply list_insert_id. rewrite Hb. f_equal.
  destruct (list_find_key _ Ht p log Hlog) as (i & Hf & Hi). unfold set_log. rewrite Hf, list_insert_id by done.
  destruct b as [? ? []]. done.
Qed.

(** ** Quiet steps: only counters and caches change *)

Definition quiet (w w' : Node Net) : Prop :=
  disk w' = disk w ∧ net w' = net w ∧ length (shards w') = length (shards w) ∧
  ∀ i b, shards w !! i = Some b → ∃ b', shards w' !! i = Some b' ∧ same_shard b b' ∧
    (sorted_table (table_ b) → sorted_table (table_ b') ∧ table_map (table_ b') = table_map (table_ b)).

#[global] Instance quiet_preorder : PreOrder quiet.
Proof.
  split.
  - intros w. split_and!; try done. intros i b Hb. exists b. by split_and!.
  - intros w1 w2 w3 (D1 & N1 & L1 & H1) (D2 & N2 & L2 & H2). split_and!; try congruence.
    intros i b1 Hb1. destruct (H1 i b1 Hb1) as (b2 & Hb2 & S2 & T2). destruct (H2 i b2 Hb2) as (b3 & Hb3 & S3 & T3).
    exists b3. split_and!; [done|by transitivity b2|]. intros Ht. destruct (T2 Ht) as [Ht2 E2].
    destruct (T3 Ht2) as [Ht3 E3]. split; [done|congruence].
Qed.

Lemma quiet_shard_at w w' me b :
  quiet w w' → shard_at w me b →
  ∃ b', shard_at w' me b' ∧ same_shard b b' ∧ table_map (table_ b') = table_map (table_ b).
Proof.
  intros (_ & _ & _ & Hq) [Hb Ht]. destruct (Hq me b Hb) as (b' & Hb' & Hs & Htab). destruct (Htab Ht) as [Ht' Hm].
  by exists b'.
Qed.

Lemma quiet_log_at w w' me p log : quiet w w' → log_at w me p log → log_at w' me p log.
Proof.
  intros Hq (b & Hb & Hlog). destruct (quiet_shard_at w w' me b Hq Hb) as (b' & Hb' & _ & Hm).
  exists b'. split; [done|]. by rewrite Hm.
Qed.

(** An update of one shard that keeps its logs. *)
Lemma update_quiet me (f : BrokerShard → BrokerShard) w b :
  shards w !! me = Some b → same_shard b (f b) →
  (sorted_table (table_ b) → sorted_table (table_ (f b)) ∧ table_map (table_ (f b)) = table_map (table_ b)) →
  ∃ w', update me f w = (Ok tt, w') ∧ quiet w w' ∧ shards w' !! me = Some (f b).
Proof.
  intros Hb Hs Ht. unfold update. rewrite Hb. eexists. split; [done|].
  assert (me < length (shards w))%nat as Hlt by (by eapply lookup_lt_Some). cbn [shards]. split.
  - split_and!; try done; cbn [shards]; [apply length_insert|]. intros i b1 Hb1. destruct (decide (i = me)) as [->|Hne].
    + assert (b1 = b) as -> by congruence. exists (f b). split_and!; [by apply list_lookup_insert_eq|done|done].
    + exists b1. rewrite list_lookup_insert_ne by done. by split_and!.
  - by apply list_lookup_insert_eq.
Qed.

Lemma count_quiet me c w b :
  shards w !! me = Some b → ∃ w', count me c w = (Ok tt, w') ∧ quiet w w' ∧ shards w' !! me = Some (bump c 1 b).
Proof. intros Hb. by apply update_quiet. Qed.

Lemma find_log_quiet me key w b :
  shard_at w me b →
  ∃ w', find_log me key w = (Ok ((λ _, key) <$> table_map (table_ b) !! key), w') ∧ quiet w w'.
Proof.
  intros [Hb Ht]. unfold find_log. rewrite (io_bind_ok _ _ _ b w) by (exact (ask_ok me id w b Hb)).
  destruct (find_partition_log_refines key (table_ b) Ht) as (t & Hf & Hp & Hok & _).
  rewrite (io_bind_ok _ _ _ ((λ _, key) <$> table_map (table_ b) !! key, t) w) by (unfold lift; by rewrite Hf).
  destruct (update_quiet me (set_table_ t) w b Hb) as (w' & Hu & Hq & _); [done| |].
  { intros _. split; [done|]. unfold table_map. simpl. by rewrite Hp. }
  exists w'. by rewrite (io_bind_ok _ _ _ tt w').
Qed.

(** ** Nodes that are alike: configurations and flags are the same *)

Definition alike (w w' : Node Net) : Prop :=
  length (shards w') = length (shards w) ∧
  ∀ i b, shards w !! i = Some b → ∃ b', shards w' !! i = Some b' ∧ same_flags b b' ∧
    (sorted_table (table_ b) → sorted_table (table_ b')).

Lemma alike_trans w1 w2 w3 : alike w1 w2 → alike w2 w3 → alike w1 w3.
Proof.
  intros [L1 H1] [L2 H2]. split; [congruence|]. intros i b1 Hb1.
  destruct (H1 i b1 Hb1) as (b2 & Hb2 & S2 & T2). destruct (H2 i b2 Hb2) as (b3 & Hb3 & S3 & T3).
  exists b3. split_and!; [done|by transitivity b2|auto].
Qed.

Lemma quiet_alike w w' : quiet w w' → alike w w'.
Proof.
  intros (_ & _ & Hl & Hq). split; [done|]. intros i b Hb. destruct (Hq i b Hb) as (b' & Hb' & Hs & Ht).
  exists b'. split_and!; [done|by apply same_shard_flags|]. intros Hsort. by destruct (Ht Hsort).
Qed.

Lemma kept_alike me p w w' : kept me p w w' → alike w w'.
Proof.
  intros (b & b' & [Hb Ht] & [Hb' Ht'] & Hs & Hsame & _). split; [by rewrite Hs, length_insert|].
  intros i bi Hbi. destruct (decide (i = me)) as [->|Hne].
  - assert (bi = b) as -> by congruence. exists b'. split_and!; [done|by apply same_shard_flags|done].
  - exists bi. rewrite Hs, list_lookup_insert_ne by done. by split_and!.
Qed.

Lemma alike_shard w w' i b : alike w w' → shards w !! i = Some b → ∃ b', shards w' !! i = Some b' ∧ same_flags b b'.
Proof. intros [_ Ha] Hb. destruct (Ha i b Hb) as (b' & ? & ? & _). by exists b'. Qed.

(** Something goes to the background, or comes back from there. *)
Lemma update_background me (f : BrokerShard → list Replication) w b :
  shard_at w me b →
  ∃ w', update me (λ b, set_replications_ (f b) b) w = (Ok tt, w') ∧ alike w w' ∧ disk w' = disk w ∧ net w' = net w ∧
    shards w' !! me = Some (set_replications_ (f b) b) ∧ ∀ p log, log_at w me p log → log_at w' me p log.
Proof.
  intros [Hb Ht]. unfold update. rewrite Hb. eexists. split; [done|]. assert (me < length (shards w))%nat as Hlt by (by eapply lookup_lt_Some).
  cbn [shards disk net]. assert (<[me := set_replications_ (f b) b]> (shards w) !! me = Some (set_replications_ (f b) b)) as Hl
    by (by apply list_lookup_insert_eq). split_and!; try done.
  - split; [apply length_insert|]. intros i bi Hbi. cbn [shards]. destruct (decide (i = me)) as [->|Hne].
    + assert (bi = b) as -> by congruence. eexists. by split_and!.
    + exists bi. rewrite list_lookup_insert_ne by done. by split_and!.
  - intros p log (b1 & [Hb1 _] & Hm). assert (b1 = b) as -> by congruence. eexists. by split.
Qed.

Lemma leave_ok me replication w b :
  shard_at w me b → rp_followers replication ≠ [] →
  ∃ w', leave_replication me replication w = (Ok tt, w') ∧ alike w w' ∧ disk w' = disk w ∧ net w' = net w ∧
    shards w' !! me = Some (set_replications_ (replications_ b ++ [replication]) b) ∧ ∀ p log, log_at w me p log → log_at w' me p log.
Proof.
  intros Hb Hne. unfold leave_replication. destruct (rp_followers replication) as [|a followers]; [done|]. by apply (update_background me (λ b, replications_ b ++ [replication])).
Qed.

(** The log update that follows a replication. *)
Lemma after_replication_ok me partition f w log :
  let p := mkTopicPartition (pc_topic partition) (pc_partition partition) in
  log_at w me p log →
  ∃ w', after_replication me partition f w = (Ok tt, w') ∧ kept me p w w' ∧ disk w' = disk w ∧ net w' = net w ∧
    log_at w' me p (f log).
Proof.
  intros p Hlog. destruct (find_log_ok me p w log Hlog) as (w1 & Hf & Hk1 & Hd1 & Hn1 & Hlog1).
  destruct (on_log_ok me p (upd f) w1 log (Ok tt) (f log) (disk w1) Hlog1 eq_refl) as (w2 & Ho & Hk2 & Hd2 & Hn2 & Hlog2).
  exists w2. unfold after_replication. fold p. rewrite (io_bind_ok _ _ _ _ w1 Hf). split_and!; try congruence; try done.
  by eapply kept_trans.
Qed.
End rep.
