(* ===== verification/BrokerRouting.v ===== *)
(** * Routing of the partition operations

    Every partition operation of the broker starts with the same dispatch:
    the shard that the configuration names as owner serves the request, any
    other shard hands it on.  The theorems say that one hand-over is enough,
    and on which log each operation then runs. *)

From Stdlib Require Import ZArith Lia.
From stdpp Require Import base tactics numbers option sorting sets gmap functions list.
From S2P Require Import Prelude Wire Protocol Codec Crc32c RecordBatch Config Detail Storage PartitionLog KafkaProtocol PartitionTable BrokerShard.
From S2P Require Import LogRep BrokerRep.

Local Open Scope Z_scope.

Section routing.
Context `{Crc32Intrinsics} {St : Storage} {Reactor0 : Reactor}.

(** The shards agree on the owner [o] of the partition, but for shards that
    do not know the partition (a reload reaches the shards one by one), and
    can reach each other. *)
Definition agreed (w : Node Net) (topic : cstring) (partition : Z) (o : nat) : Prop :=
  (o < length (shards w))%nat ∧
  ∀ i b, shards w !! i = Some b → peers_set_ b = true ∧ sorted_table (table_ b) ∧
    (owner_shard topic partition b = None ∨ owner_shard topic partition b = Some (Z.of_nat o)).

(** The shard a request ends at, and whether it has the log there. *)
Definition knows (w : Node Net) (i : nat) (topic : cstring) (partition : Z) : bool :=
  match shards w !! i with
  | Some b => bool_decide (is_Some (owner_shard topic partition b))
  | None => false
  end.
Definition destination (w : Node Net) (me : nat) (topic : cstring) (partition : Z) (o : nat) : nat :=
  if knows w me topic partition then o else me.
Definition served (w : Node Net) (i : nat) (topic : cstring) (partition : Z) : bool :=
  knows w i topic partition &&
  match shards w !! i with
  | Some b => bool_decide (is_Some (table_map (table_ b) !! mkTopicPartition topic partition))
  | None => false
  end.

Lemma agreed_alike w w' topic partition o : alike w w' → agreed w topic partition o → agreed w' topic partition o.
Proof.
  intros [Hlen Hq] [Ho Ha]. split; [lia|]. intros i b' Hb'.
  destruct (lookup_lt_is_Some_2 (shards w) i) as [b Hb]; [rewrite <- Hlen; by eapply lookup_lt_Some|].
  destruct (Hq i b Hb) as (b1 & Hb1 & Hs & Ht). assert (b1 = b') as -> by congruence.
  destruct (Ha i b Hb) as (Hp & Hsorted & Hown). destruct Hs as (Hc & Hp' & _). unfold owner_shard in *. rewrite Hc, Hp'.
  auto.
Qed.

Lemma knows_alike w w' i topic partition : alike w w' → knows w i topic partition = true → knows w' i topic partition = true.
Proof.
  intros [Hlen Hq]. unfold knows. destruct (shards w !! i) as [b|] eqn:Hb; [|done].
  destruct (Hq i b Hb) as (b' & -> & (Hc & _) & _). unfold owner_shard. by rewrite Hc.
Qed.

(** The dispatch that the operations share. *)
Section dispatch.
Context {A : Type} (topic : cstring) (partition : Z).
Context (op : nat → nat → IO (Node Net) A) (pre : nat → IO (Node Net) unit) (missing : nat → IO (Node Net) A)
  (local : nat → TopicPartition → IO (Node Net) A).
Hypothesis op_eq : ∀ hops me, op (S hops) me =
  (pre me;;
   owner ← ask me (owner_shard topic partition);
   match owner with
   | None => missing me
   | Some owner =>
       if negb (owner =? Z.of_nat me) then invoke_on me owner (op hops)
       else
         partition_log ← find_log me (mkTopicPartition topic partition);
         match partition_log with
         | None => missing me
         | Some p => local me p
         end
   end).
Hypothesis pre_quiet : ∀ me w b, shards w !! me = Some b → ∃ w', pre me w = (Ok tt, w') ∧ quiet w w'.

Lemma served_quiet w w' i : quiet w w' → agreed w topic partition i → served w' i topic partition = served w i topic partition.
Proof.
  intros (_ & _ & Hlen & Hq) [Ho Ha]. destruct (lookup_lt_is_Some_2 (shards w) i Ho) as [b Hb].
  destruct (Hq i b Hb) as (b' & Hb' & (Hc & _) & Ht). unfold served, knows, owner_shard. rewrite Hb, Hb', Hc.
  destruct (Ha i b Hb) as (_ & Hs & _). by destruct (Ht Hs) as [_ ->].
Qed.

(** At the shard [i] that serves the request or does not know the partition. *)
Lemma dispatch_here hops w i b :
  shard_at w i b → owner_shard topic partition b = None ∨ owner_shard topic partition b = Some (Z.of_nat i) →
  ∃ w', quiet w w' ∧ op (S hops) i w =
    (if served w i topic partition then local i (mkTopicPartition topic partition) w' else missing i w').
Proof.
  intros Hb Hown. rewrite op_eq. destruct (pre_quiet i w b (proj1 Hb)) as (w1 & Hpre & Hq1).
  destruct (quiet_shard_at w w1 i b Hq1 Hb) as (b1 & Hb1 & Hs1 & Hm1).
  rewrite (io_bind_ok _ _ _ tt w1 Hpre).
  assert (owner_shard topic partition b1 = owner_shard topic partition b) as Ho by (unfold owner_shard; by rewrite (proj1 Hs1)).
  rewrite (io_bind_ok _ _ _ (owner_shard topic partition b) w1) by (rewrite <- Ho; by apply ask_ok, Hb1).
  unfold served, knows. rewrite (proj1 Hb). destruct Hown as [->| ->].
  - exists w1. split; [done|]. rewrite bool_decide_false by (by intros []). done.
  - rewrite Z.eqb_refl. cbn [negb]. rewrite bool_decide_true by done. cbn [andb].
    destruct (find_log_quiet i (mkTopicPartition topic partition) w1 b1 Hb1) as (w2 & Hf & Hq2).
    exists w2. split; [by transitivity w1|]. rewrite (io_bind_ok _ _ _ _ w2 Hf), Hm1.
    by destruct (table_map (table_ b) !! _).
Qed.

(** Two hops are enough, and the request ends at the owner. *)
Lemma dispatch_ok n w me b o :
  agreed w topic partition o → shards w !! me = Some b →
  let i := destination w me topic partition o in
  ∃ w', quiet w w' ∧ op (S (S n)) me w =
    (if served w i topic partition then local i (mkTopicPartition topic partition) w' else missing i w').
Proof.
  intros Ha Hb i. pose proof Ha as [Ho Hall]. destruct (Hall me b Hb) as (Hp & Ht & Hown). unfold i, destination, knows.
  rewrite Hb. destruct Hown as [Hn|Hn].
  { rewrite Hn, bool_decide_false by (by intros []). apply (dispatch_here (S n) w me b); [done|auto]. }
  rewrite Hn, bool_decide_true by done. destruct (decide (o = me)) as [->|Hne].
  { apply (dispatch_here (S n) w me b); [done|auto]. }
  rewrite op_eq. destruct (pre_quiet me w b Hb) as (w1 & Hpre & Hq1).
  destruct (quiet_shard_at w w1 me b Hq1 (conj Hb Ht)) as (b1 & [Hb1 _] & (Hc1 & Hp1 & _) & _).
  rewrite (io_bind_ok _ _ _ tt w1 Hpre).
  rewrite (io_bind_ok _ _ _ (owner_shard topic partition b) w1)
    by (unfold owner_shard; rewrite <- Hc1; by apply (ask_ok me (owner_shard topic partition))).
  rewrite Hn. destruct (Z.eqb_spec (Z.of_nat o) (Z.of_nat me)); [lia|]. cbn [negb]. unfold invoke_on.
  rewrite (io_bind_ok _ _ _ true w1) by (rewrite (ask_ok _ _ _ b1 Hb1); by rewrite Hp1, Hp).
  rewrite Nat2Z.id. pose proof (agreed_alike w w1 topic partition o (quiet_alike w w1 Hq1) Ha) as Ha1.
  destruct (lookup_lt_is_Some_2 (shards w1) o) as [bo Hbo]; [apply Ha1|].
  destruct (proj2 Ha1 o bo Hbo) as (_ & Hto & Howno).
  destruct (dispatch_here n w1 o bo (conj Hbo Hto) Howno) as (w2 & Hq2 & Hop).
  exists w2. split; [by transitivity w1|]. rewrite Hop. by rewrite (served_quiet w w1 o Hq1 Ha).
Qed.
End dispatch.

Lemma nothing_quiet me w b : shards w !! me = Some b → ∃ w', (mret tt : IO (Node Net) unit) w = (Ok tt, w') ∧ quiet w w'.
Proof. intros _. by exists w. Qed.

(** The operations of clients. *)
Lemma append_routed n me o w b r acks timeout_ms :
  shards w !! me = Some b → agreed w (ppq_topic r) (ppq_partition r) o →
  let i := destination w me (ppq_topic r) (ppq_partition r) o in
  ∃ w', quiet w w' ∧ BrokerShard_append (S (S n)) me r acks timeout_ms w =
    if served w i (ppq_topic r) (ppq_partition r)
    then append_local i r acks timeout_ms (mkTopicPartition (ppq_topic r) (ppq_partition r)) w'
    else (count i produce_errors_;; mret (missing_produce_result (ppq_topic r) (ppq_partition r))) w'.
Proof.
  intros Hb Ha i. apply (dispatch_ok (ppq_topic r) (ppq_partition r) (λ hops me, BrokerShard_append hops me r acks timeout_ms)
    (λ _, mret tt) (λ me, count me produce_errors_;; mret (missing_produce_result (ppq_topic r) (ppq_partition r)))
    (λ me, append_local me r acks timeout_ms)) with (b := b); [done|by intros; eapply nothing_quiet|done|done].
Qed.

Lemma fetch_routed n me o w b r :
  shards w !! me = Some b → agreed w (fpq_topic r) (fpq_partition r) o →
  let i := destination w me (fpq_topic r) (fpq_partition r) o in
  ∃ w', quiet w w' ∧ BrokerShard_fetch (S (S n)) me r w =
    if served w i (fpq_topic r) (fpq_partition r)
    then fetch_local i r (mkTopicPartition (fpq_topic r) (fpq_partition r)) w'
    else (count i fetch_errors_;; mret (fetch_error partition_missing)) w'.
Proof.
  intros Hb Ha i. apply (dispatch_ok (fpq_topic r) (fpq_partition r) (λ hops me, BrokerShard_fetch hops me r)
    (λ _, mret tt) (λ me, count me fetch_errors_;; mret (fetch_error partition_missing)) (λ me, fetch_local me r))
    with (b := b); [done|by intros; eapply nothing_quiet|done|done].
Qed.

Lemma list_offsets_routed n me o w b r :
  shards w !! me = Some b → agreed w (lpq_topic r) (lpq_partition r) o →
  let i := destination w me (lpq_topic r) (lpq_partition r) o in
  ∃ w', quiet w w' ∧ BrokerShard_list_offsets (S (S n)) me r w =
    if served w i (lpq_topic r) (lpq_partition r)
    then on_log i (mkTopicPartition (lpq_topic r) (lpq_partition r)) (asks (λ log, list_offsets log (lpq_timestamp r))) w'
    else mret (M := IO (Node Net)) (missing_list_offsets_result (lpq_topic r) (lpq_partition r)) w'.
Proof.
  intros Hb Ha i. apply (dispatch_ok (lpq_topic r) (lpq_partition r) (λ hops me, BrokerShard_list_offsets hops me r)
    (λ _, mret tt) (λ me, mret (missing_list_offsets_result (lpq_topic r) (lpq_partition r)))
    (λ me p, on_log me p (asks (λ log, list_offsets log (lpq_timestamp r))))) with (b := b);
    [done|by intros; eapply nothing_quiet|done|done].
Qed.

(** ** Theorems *)

(** C4: every partition operation is served by the shard that owns the
    partition, when the shards agree on the owner (but for shards that do not
    know the partition) and the owner's number is below the number of shards,
    which [validate_config] does not check.  From whichever shard the
    operation is called, after at most one hand-over it runs on the owner's
    log of that partition, in a state that differs in counters and caches
    only; a partition that is not configured, or has no log there, gets the
    "unknown partition" answer of the shard that found out.  More hops than two are never used. *)
Theorem requests_reach_owner n me o w b :
  shards w !! me = Some b →
  (∀ r acks timeout_ms, agreed w (ppq_topic r) (ppq_partition r) o →
     let i := destination w me (ppq_topic r) (ppq_partition r) o in
     ∃ w', quiet w w' ∧ BrokerShard_append (S (S n)) me r acks timeout_ms w =
       if served w i (ppq_topic r) (ppq_partition r)
       then append_local i r acks timeout_ms (mkTopicPartition (ppq_topic r) (ppq_partition r)) w'
       else (count i produce_errors_;; mret (missing_produce_result (ppq_topic r) (ppq_partition r))) w') ∧
  (∀ r, agreed w (fpq_topic r) (fpq_partition r) o →
     let i := destination w me (fpq_topic r) (fpq_partition r) o in
     ∃ w', quiet w w' ∧ BrokerShard_fetch (S (S n)) me r w =
       if served w i (fpq_topic r) (fpq_partition r)
       then fetch_local i r (mkTopicPartition (fpq_topic r) (fpq_partition r)) w'
       else (count i fetch_errors_;; mret (fetch_error partition_missing)) w') ∧
  (∀ r, agreed w (lpq_topic r) (lpq_partition r) o →
     let i := destination w me (lpq_topic r) (lpq_partition r) o in
     ∃ w', quiet w w' ∧ BrokerShard_list_offsets (S (S n)) me r w =
       if served w i (lpq_topic r) (lpq_partition r)
       then on_log i (mkTopicPartition (lpq_topic r) (lpq_partition r)) (asks (λ log, list_offsets log (lpq_timestamp r))) w'
       else mret (M := IO (Node Net)) (missing_list_offsets_result (lpq_topic r) (lpq_partition r)) w').
Proof.
  intros Hb. split_and!; intros r; [intros acks timeout_ms|..]; intros Ha i.
  - by apply (append_routed n me o w b).
  - by apply (fetch_routed n me o w b).
  - by apply (list_offsets_routed n me o w b).
Qed.

(** The replication handlers take the same way. *)
Definition append_replica_local (me : nat) (r : ReplicaAppendRequest) (p : TopicPartition)
    : IO (Node Net) ProducePartitionResult :=
  partition ← on_log me p (asks config_);
  config ← ask me bs_config_;
  if negb (local_is_replica config partition) then
    count me replica_errors_;;
    mret (mkProducePartitionResult (raq_topic r) (raq_partition r) (error_code_value NotLeaderOrFollower) 0 0 0)
  else on_log me p (append_replica r).
Definition fetch_for_replica_local (me : nat) (r : ReplicaFetchRequest) (p : TopicPartition)
    : IO (Node Net) ReplicaFetchResult :=
  partition ← on_log me p (asks config_);
  config ← ask me bs_config_;
  if negb (pc_leader partition =? bc_node_id config)
  then mret (replica_fetch_error (error_code_value NotLeaderOrFollower))
  else on_log me p (fetch_for_replica (rfq_offset r) (rfq_max_bytes r)).

Lemma append_replica_routed n me o w b r :
  shards w !! me = Some b → agreed w (raq_topic r) (raq_partition r) o →
  let i := destination w me (raq_topic r) (raq_partition r) o in
  ∃ w', quiet w w' ∧ BrokerShard_append_replica (S (S n)) me r w =
    if served w i (raq_topic r) (raq_partition r)
    then append_replica_local i r (mkTopicPartition (raq_topic r) (raq_partition r)) w'
    else (count i replica_errors_;; mret (missing_produce_result (raq_topic r) (raq_partition r))) w'.
Proof.
  intros Hb Ha i. apply (dispatch_ok (raq_topic r) (raq_partition r) (λ hops me, BrokerShard_append_replica hops me r)
    (λ me, count me replica_appends_)
    (λ me, count me replica_errors_;; mret (missing_produce_result (raq_topic r) (raq_partition r)))
    (λ me, append_replica_local me r)) with (b := b); [done| |done|done].
  intros me' w' b' Hb'. destruct (count_quiet me' replica_appends_ w' b' Hb') as (w'' & ? & ? & _). eauto.
Qed.

Lemma fetch_for_replica_routed n me o w b r :
  shards w !! me = Some b → agreed w (rfq_topic r) (rfq_partition r) o →
  let i := destination w me (rfq_topic r) (rfq_partition r) o in
  ∃ w', quiet w w' ∧ BrokerShard_fetch_for_replica (S (S n)) me r w =
    if served w i (rfq_topic r) (rfq_partition r)
    then fetch_for_replica_local i r (mkTopicPartition (rfq_topic r) (rfq_partition r)) w'
    else mret (M := IO (Node Net)) (replica_fetch_error partition_missing) w'.
Proof.
  intros Hb Ha i. apply (dispatch_ok (rfq_topic r) (rfq_partition r) (λ hops me, BrokerShard_fetch_for_replica hops me r)
    (λ _, mret tt) (λ me, mret (replica_fetch_error partition_missing))
    (λ me, fetch_for_replica_local me r)) with (b := b); [done|by intros; eapply nothing_quiet|done|done].
Qed.
End routing.

(** The direct scan agrees with [find_partition] when topics are distinct. *)
Lemma owner_shard_find b topic partition :
  NoDup (map tc_name (bc_topics (bs_config_ b))) →
  owner_shard topic partition b = pc_shard <$> find_partition (bs_config_ b) topic partition.
Proof.
  unfold owner_shard, find_partition.
  induction (bc_topics (bs_config_ b)) as [|t ts IH]; [done|]. cbn [map owner_shard_in]. intros Hnd.
  apply NoDup_cons in Hnd as [Hnot Hnd]. destruct (cstring_eqb (tc_name t) topic) eqn:E; cbn [negb]; [|by apply IH].
  destruct (List.find _ (tc_partitions t)) as [p|]; [done|]. apply bool_decide_eq_true in E as <-.
  clear IH Hnd. induction ts as [|t' ts IH]; [done|]. cbn [map] in Hnot. apply not_elem_of_cons in Hnot as [Hne Hnot].
  assert (cstring_eqb (tc_name t') (tc_name t) = false) as -> by (apply bool_decide_eq_false; congruence).
  cbn [negb]. by apply IH.
Qed.

(** [owner_shard] and [find_partition] are two readings of the same
    configuration.  They agree when no topic is listed twice; a
    configuration that lists a topic twice passes validation, and then a
    partition of the second entry is found by [find_partition] (and served
    in metadata) while [owner_shard] does not know it. *)
Theorem owner_shard_vs_find_partition :
  (∀ b topic partition, NoDup (map tc_name (bc_topics (bs_config_ b))) →
     owner_shard topic partition b = pc_shard <$> find_partition (bs_config_ b) topic partition) ∧
  let part k := mkPartitionConfig (str "t") k 0 [1] [1] Write 8192 (1024 * 1024) HighWatermark false 1 0 0 (-1) in
  let config := mkBrokerConfig 1 0 (str "data") 9642 100 100 (1024 * 1024) [mkBrokerEndpoint 1 (str "h") 9092 (str "m")]
    [mkTopicConfig (str "t") [part 0]; mkTopicConfig (str "t") [part 1]] in
  validate_config config = Ok tt ∧ find_partition config (str "t") 1 = Some (part 1) ∧
  owner_shard (str "t") 1 (set_bs_config_ config BrokerShard_init) = None.
Proof. split; [intros; by apply owner_shard_find|vm_compute; done]. Qed.
