(* ===== verification/Replication.v ===== *)
(** * Replication between brokers

    A leader and its followers together.  [cluster] is the surroundings of
    the leader: the peers by Mercury address, each a broker node of its own;
    a forwarded call runs the peer's registered handler, and an address
    without a peer is unreachable.  Deadlines pass or not by the parameter
    [late].

    The theorems: with acks -1 a record set is acknowledged when every in-sync
    replica holds it; with acks 0 or 1 it is acknowledged before any follower
    has it, and the replication left in the background brings it there; and a
    follower that is down is reported. *)

From Stdlib Require Import ZArith Lia.
From stdpp Require Import base tactics numbers option sorting sets gmap functions list.
From S2P Require Import Prelude Wire Protocol Codec Crc32c RecordBatch Config Detail Storage PartitionLog KafkaProtocol PartitionTable BrokerShard.
From S2P Require Import LogLayout LogRep LogAppend LogRead LogRecovery LogDurable BrokerRep BrokerRouting.

Local Open Scope Z_scope.

Section cluster.
Context `{Crc32Intrinsics} {St : Storage}.

(** A broker whose own calls outside fail: enough for the handlers. *)
#[local] Instance isolated : Reactor := {|
  Net := unit;
  mercury_start _ _ _ := mret tt;
  mercury_stop _ := mret tt;
  mercury_forward _ _ _ _ := fail (RuntimeError (str "unreachable"));
  listen _ _ _ := mret tt;
  sleep_ms _ _ := mret tt;
  deadline_passed _ _ := mret false;
  socket_write _ _ := mret tt;
|}.

Definition Peer : Type := Node (@Net _ isolated).

(** What the caller sees of a handler's outcome. *)
Definition rpc_reply (r : result bytes) : result bytes :=
  match r with Ok payload => Ok payload | Err _ => Err (RuntimeError (str "remote Mercury RPC handler failed")) end.

Definition deliver (address rpc : cstring) (payload : bytes) : IO (Node (gmap cstring Peer)) bytes := λ w,
  match net w !! address, rpc_handler rpc with
  | Some peer, Some handler =>
      let '(r, peer') := handler 0%nat payload peer in
      (rpc_reply r, mkNode (shards w) (disk w) (<[address := peer']> (net w)))
  | _, _ => (Err (RuntimeError (str "Mercury RPC failed")), w)
  end.

Lemma deliver_ok (address rpc : cstring) (payload : bytes) (w : Node (gmap cstring Peer)) (peer : Peer) handler r peer' :
  net w !! address = Some peer → rpc_handler rpc = Some handler → handler 0%nat payload peer = (r, peer') →
  deliver address rpc payload w = (rpc_reply r, mkNode (shards w) (disk w) (<[address := peer']> (net w))).
Proof. intros Hp Hh Hr. unfold deliver, Peer in *. by rewrite Hp, Hh, Hr. Qed.

Lemma deliver_unreachable (address rpc : cstring) (payload : bytes) (w : Node (gmap cstring Peer)) :
  net w !! address = None → deliver address rpc payload w = (Err (RuntimeError (str "Mercury RPC failed")), w).
Proof. intros Hp. unfold deliver, Peer in *. by rewrite Hp. Qed.

Definition cluster (late : bool) : Reactor := {|
  Net := gmap cstring Peer;
  mercury_start _ _ _ := mret tt;
  mercury_stop _ := mret tt;
  mercury_forward _ address rpc payload := deliver address rpc payload;
  listen _ _ _ := mret tt;
  sleep_ms _ _ := mret tt;
  deadline_passed _ _ := mret late;
  socket_write _ _ := mret tt;
|}.
End cluster.

(** ** A replica *)

Section replica.
Context `{Crc32Intrinsics} {St : Storage} {Laws : StorageLaws} {Reactor0 : Reactor}.

(** The node [w] replicates the partition with the record sets [L]: the shard
    [o] owns it, reached from shard [me], and [lf] is its log. *)
Definition replicates (w : Node Net) (me : nat) (topic : cstring) (partition : Z) (o : nat) (lf : PartitionLogShard)
    (L : list bytes) : Prop :=
  agreed w topic partition o ∧ knows w me topic partition = true ∧ knows w o topic partition = true ∧
  log_at w o (mkTopicPartition topic partition) lf ∧ log_holds lf (disk w) L ∧
  ∃ b, shards w !! o = Some b ∧ local_is_replica (bs_config_ b) (config_ lf) = true.

(** What routing needs to find a log. *)
Lemma knows_shard w me topic partition : knows w me topic partition = true → ∃ b, shards w !! me = Some b.
Proof. unfold knows. destruct (shards w !! me) as [b|]; [by exists b|done]. Qed.
Lemma log_at_served w o topic partition lf :
  knows w o topic partition = true → log_at w o (mkTopicPartition topic partition) lf → served w o topic partition = true.
Proof.
  intros Hk (b & [Hb _] & Hm). unfold served. rewrite Hk, Hb. apply bool_decide_eq_true_2. rewrite Hm. by eexists.
Qed.

(** A change of the node that ends with a new state of the log. *)
Lemma replicates_step w w' me topic partition o lf lf' L L' :
  replicates w me topic partition o lf L → alike w w' → config_ lf' = config_ lf →
  log_at w' o (mkTopicPartition topic partition) lf' → log_holds lf' (disk w') L' →
  replicates w' me topic partition o lf' L'.
Proof.
  intros (Ha & Hk0 & Hko & _ & _ & b & Hb & Hr) Hal Hc Hlog Hh.
  destruct (alike_shard w w' o b Hal Hb) as (b' & Hb' & (Hcfg & _)).
  split_and!; [by eapply agreed_alike|by eapply knows_alike|by eapply knows_alike|done|done|].
  exists b'. by rewrite Hcfg, Hc.
Qed.

(** The replica takes a record set at its end. *)
Lemma append_replica_taken w me o lf L q :
  replicates w me (raq_topic q) (raq_partition q) o lf L →
  room_for lf L (raq_records q) → append_replica_refusal lf q = None → 0 <= raq_leader_high_watermark q →
  let end_offset := raq_base_offset q + cnt (raq_records q) in
  ∃ w' lf', BrokerShard_append_replica kHops me q w
      = (Ok (mkProducePartitionResult (raq_topic q) (raq_partition q) 0 (raq_base_offset q) end_offset 0), w') ∧
    replicates w' me (raq_topic q) (raq_partition q) o lf' (L ++ [raq_records q]) ∧ alike w w' ∧ net w' = net w ∧
    offsets_ lf' = mkPartitionOffsets 0 end_offset (Z.min end_offset (raq_leader_high_watermark q)) ∧
    same_place lf lf' ∧ queue_depth_ lf' = queue_depth_ lf ∧ raq_base_offset q = latest (offsets_ lf).
Proof.
  intros Hf Hroom Hok Hlead end_offset. pose proof Hf as (Ha & Hkm & Hko & Hlog & Hh & b & Hb & Hrep).
  destruct (knows_shard _ _ _ _ Hkm) as [b0 Hb0]. pose proof (log_at_served _ _ _ _ _ Hko Hlog) as Hserved.
  destruct (append_replica_routed 0 me o w b0 q Hb0 Ha) as (p1 & Hq1 & Hop). unfold destination in Hop. rewrite Hkm, Hserved in Hop.
  pose proof (quiet_log_at _ _ _ _ _ Hq1 Hlog) as Hlog1.
  destruct (alike_shard _ _ o b (quiet_alike _ _ Hq1) Hb) as (b1 & Hb1 & (Hc1 & _)).
  pose proof (append_replica_cases lf (disk w) L q Hh Hroom Hlead) as Hcase. rewrite Hok in Hcase.
  destruct Hcase as (Hbase & lf' & d' & Happ & Hh' & Ho' & _ & Hplace & Hqd).
  pose proof Hq1 as (Hd1 & Hn1 & _). rewrite <- Hd1 in Happ.
  destruct (on_log_ok o _ (append_replica q) p1 lf _ lf' d' Hlog1 Happ) as (p2 & Hon & Hkept & Hd2 & Hn2 & Hlog2).
  pose proof (alike_trans _ _ _ (quiet_alike _ _ Hq1) (kept_alike _ _ _ _ Hkept)) as Hal.
  exists p2, lf'. split_and!; try done; [| |congruence].
  - unfold kHops. rewrite Hop. unfold append_replica_local. rewrite (io_bind_ok _ _ _ (config_ lf) p1) by (by apply on_log_asks).
    rewrite (io_bind_ok _ _ _ (bs_config_ b1) p1) by (by apply ask_ok). by rewrite Hc1, Hrep.
  - eapply replicates_step; [exact Hf|exact Hal|apply Hplace|exact Hlog2|by rewrite Hd2].
Qed.
End replica.

(** ** The follower *)

Section follower.
Context `{Crc32Intrinsics} {St : Storage} {Laws : StorageLaws}.
#[local] Existing Instance isolated.

(** The peer, called through the shard that listens, is a replica. *)
Definition follows (peer : Peer) : cstring → Z → nat → PartitionLogShard → list bytes → Prop := replicates peer 0.

Lemma on_replica_append_ok peer o lf L q :
  follows peer (raq_topic q) (raq_partition q) o lf L → replica_append_wf q →
  room_for lf L (raq_records q) → append_replica_refusal lf q = None → 0 <= raq_leader_high_watermark q →
  let end_offset := raq_base_offset q + cnt (raq_records q) in
  ∃ peer' lf', on_replica_append 0 (enc_replica_append q) peer = (Ok (be_bytes 2 0 ++ be_bytes 8 end_offset), peer') ∧
    follows peer' (raq_topic q) (raq_partition q) o lf' (L ++ [raq_records q]) ∧
    offsets_ lf' = mkPartitionOffsets 0 end_offset (Z.min end_offset (raq_leader_high_watermark q)) ∧
    same_place lf lf' ∧ queue_depth_ lf' = queue_depth_ lf.
Proof.
  intros Hf Hwf Hroom Hok Hlead end_offset. unfold on_replica_append.
  destruct (replica_append_roundtrip q Hwf) as [_ Hdec].
  rewrite (io_bind_ok _ _ _ q peer) by (unfold lift; by rewrite Hdec).
  destruct (append_replica_taken peer 0 o lf L q Hf Hroom Hok Hlead)
    as (peer' & lf' & Hrun & Hf' & _ & _ & Ho & Hplace & Hqd & Hbase).
  rewrite (io_bind_ok _ _ _ _ peer' Hrun). cbn [ppr_error_code ppr_log_end_offset]. change (0 =? 0) with true.
  exists peer', lf'. split_and!; try done. unfold lift. f_equal.
  apply (replica_append_response_roundtrip q); [done|].
  destruct Hf as (_ & _ & _ & _ & Hh & _). destruct Hroom as (Hrs & _ & Hbound & _).
  pose proof (latest_nonneg lf (disk peer) L Hh). pose proof (cnt_pos _ Hrs).
  unfold in_s. subst end_offset. simpl. lia.
Qed.

Lemma handler_replica_append : rpc_handler (str "replica_append") = Some on_replica_append.
Proof. reflexivity. Qed.
Lemma handler_replica_fetch : rpc_handler (str "replica_fetch") = Some on_replica_fetch.
Proof. reflexivity. Qed.
End follower.

(** ** The leader *)

Section leader.
Context `{Crc32Intrinsics} {St : Storage} {Laws : StorageLaws} (late : bool).
#[local] Instance leader_reactor : Reactor := cluster late.

(** The peer at [address] can take the record set of [q] after [L]. *)
Definition can_take (n : gmap cstring Peer) (q : ReplicaAppendRequest) (L : list bytes) (address : cstring) : Prop :=
  ∃ peer o lf, n !! address = Some peer ∧ follows peer (raq_topic q) (raq_partition q) o lf L ∧
    room_for lf L (raq_records q) ∧ append_replica_refusal lf q = None.

(** It has taken it, and its high watermark is the end of its log. *)
Definition has_taken (n : gmap cstring Peer) (q : ReplicaAppendRequest) (L : list bytes) (address : cstring) : Prop :=
  ∃ peer o lf, n !! address = Some peer ∧ follows peer (raq_topic q) (raq_partition q) o lf (L ++ [raq_records q]) ∧
    offsets_ lf = mkPartitionOffsets 0 (raq_base_offset q + cnt (raq_records q))
      (Z.min (raq_base_offset q + cnt (raq_records q)) (raq_leader_high_watermark q)).

Lemma send_one me q L address (w : Node Net) :
  replica_append_wf q → 0 <= raq_leader_high_watermark q → can_take (net w) q L address →
  ∃ w', send_replica_append me (enc_replica_append q) address w = (Ok tt, w') ∧
    shards w' = shards w ∧ disk w' = disk w ∧ has_taken (net w') q L address ∧
    ∀ a, a ≠ address → net w' !! a = net w !! a.
Proof.
  intros Hwf Hlead (peer & o & lf & Hpeer & Hf & Hroom & Hok).
  destruct (on_replica_append_ok peer o lf L q Hf Hwf Hroom Hok Hlead) as (peer' & lf' & Hrun & Hf' & Ho & _).
  unfold send_replica_append. set (w' := mkNode (shards w) (disk w) (<[address := peer']> (net w)) : Node Net).
  rewrite (io_bind_ok _ _ _ (be_bytes 2 0 ++ be_bytes 8 (raq_base_offset q + cnt (raq_records q))) w').
  2:{ pose proof (deliver_ok address (str "replica_append") (enc_replica_append q) w peer _ _ peer' Hpeer handler_replica_append Hrun) as D.
      exact D. }
  exists w'. split_and!; try done.
  - exists peer', o, lf'. split_and!; [|done|done]. exact (lookup_insert_eq (M := gmap cstring) (net w) address peer').
  - intros a Ha. exact (lookup_insert_ne (M := gmap cstring) (net w) address a peer' (not_eq_sym Ha)).
Qed.

(** The leader's own state is not touched by what it sends. *)
Definition elsewhere (w w' : Node Net) : Prop := shards w' = shards w ∧ disk w' = disk w.

Lemma deliver_elsewhere (address rpc : cstring) (payload : bytes) (w : Node (gmap cstring Peer)) :
  let w' := (deliver address rpc payload w).2 in
  shards w' = shards w ∧ disk w' = disk w ∧ ∀ a, net w !! a = None → net w' !! a = None.
Proof.
  unfold deliver, Peer in *. destruct (net w !! address) as [peer|] eqn:E; [|by split_and!].
  destruct (rpc_handler rpc) as [h|]; [|by split_and!]. destruct (h 0%nat payload peer) as [r peer'].
  split_and!; try done. intros a Ha. simpl. rewrite lookup_insert_ne; [done|]. intros ->. by rewrite E in Ha.
Qed.

Lemma send_elsewhere me encoded address (w : Node Net) :
  ∃ r w', send_replica_append me encoded address w = (r, w') ∧ elsewhere w w' ∧
    (∀ a, net w !! a = None → net w' !! a = None) ∧
    (net w !! address = None → ∃ e, r = Err e).
Proof.
  unfold send_replica_append, mbind, IO_bind.
  change (mercury_forward me address (str "replica_append") encoded w) with (deliver address (str "replica_append") encoded w).
  pose proof (deliver_elsewhere address (str "replica_append") encoded w) as (Hs & Hd & Hn).
  pose proof (deliver_unreachable address (str "replica_append") encoded w) as Hu.
  destruct (deliver address (str "replica_append") encoded w) as [[payload|e] w1]; simpl in Hs, Hd, Hn.
  - assert (∃ r, (let '(r, s') := lift (decode_payload read_int16 payload) w1 in
      match r with
      | Ok error_code => (if negb (error_code =? 0) then fail (RuntimeError (str "replica append failed")) else mret tt) s'
      | Err e => (Err e, s')
      end) = (r, w1)) as [r Hr].
    { unfold lift. destruct (decode_payload _ _) as [n|e]; [|by eexists]. destruct (negb _); by eexists. }
    exists r, w1. split_and!; [|done|exact Hn|intros Hnone; by specialize (Hu Hnone)].
    revert Hr. unfold lift. by destruct (decode_payload _ _).
  - exists (Err e), w1. split_and!; [done|done|exact Hn|eauto].
Qed.

(** Sending to all in-sync followers that can take the record set. *)
Lemma send_all me q L addresses (w : Node Net) :
  replica_append_wf q → 0 <= raq_leader_high_watermark q → NoDup addresses →
  Forall (can_take (net w) q L) addresses →
  ∃ w', when_all_succeed (map (send_replica_append me (enc_replica_append q)) addresses) w = (Ok tt, w') ∧
    elsewhere w w' ∧ Forall (has_taken (net w') q L) addresses ∧
    ∀ a, a ∉ addresses → net w' !! a = net w !! a.
Proof.
  intros Hwf Hlead. revert w. induction addresses as [|a addresses IH]; intros w Hnd Hcan.
  { exists w. by split_and!. }
  apply NoDup_cons in Hnd as [Ha Hnd]. apply Forall_cons in Hcan as [Hcan Hrest].
  destruct (send_one me q L a w Hwf Hlead Hcan) as (w1 & Hsend & Hs1 & Hd1 & Htaken & Hother).
  destruct (IH w1 Hnd) as (w2 & Hall & [Hs2 Hd2] & Htaken2 & Hother2).
  { rewrite Forall_forall in Hrest |- *. intros x Hx. destruct (Hrest x Hx) as (peer & o & lf & Hp & ?). exists peer, o, lf.
    split; [|done]. rewrite <- Hp. apply Hother. by intros ->. }
  exists w2. cbn [map when_all_succeed]. unfold attempt, mbind, IO_bind, lift. rewrite Hsend, Hall. split_and!; [done| | |].
  - split; congruence.
  - constructor; [|done]. destruct Htaken as (peer & o & lf & Hp & ?). exists peer, o, lf. split; [|done].
    rewrite <- Hp. by apply Hother2.
  - intros x Hx. apply not_elem_of_cons in Hx as [Hne Hx]. rewrite (Hother2 x Hx). by apply Hother.
Qed.

(** Sending to all: the leader is not touched, and one unreachable follower
    is a failure. *)
Lemma send_all_elsewhere me encoded addresses (w : Node Net) :
  ∃ r w', when_all_succeed (map (send_replica_append me encoded) addresses) w = (r, w') ∧ elsewhere w w' ∧
    (∀ x, net w !! x = None → net w' !! x = None) ∧ (∀ x, x ∈ addresses → net w !! x = None → ∃ e, r = Err e).
Proof.
  revert w. induction addresses as [|x addresses IH]; intros w0.
  { exists (Ok tt), w0. split_and!; try done. by intros x ?%elem_of_nil. }
  destruct (send_elsewhere me encoded x w0) as (r & w1 & Hsend & [Hs1 Hd1] & Hn1 & He1).
  destruct (IH w1) as (r2 & w2 & Hall & [Hs2 Hd2] & Hn2 & He2).
  exists (match r with Ok _ => r2 | Err e => Err e end), w2. cbn [map when_all_succeed].
  unfold attempt, mbind, IO_bind, lift. rewrite Hsend, Hall. split_and!; [done|split; congruence|by auto|].
  intros y [->|Hy]%elem_of_cons Hnone; [by destruct (He1 Hnone) as [e ->]; eauto|].
  destruct r; [|by eauto]. apply (He2 y Hy). by apply Hn1.
Qed.

(** The request the leader of [l] sends for [records]. *)
Definition replica_request (l : PartitionLogShard) (records : bytes) : ReplicaAppendRequest :=
  mkReplicaAppendRequest (pc_topic (config_ l)) (pc_partition (config_ l)) (latest (offsets_ l))
    (latest (offsets_ l) + cnt records) records.

(** What a produce relies on at the leader: shard [o] is open and has the log
    [l] of the partition, which holds [L] and can take [records]. *)
Definition leads (w : Node Net) (o : nat) (l : PartitionLogShard) (L : list bytes) (records : bytes) (acks : Z) : Prop :=
  let p := mkTopicPartition (pc_topic (config_ l)) (pc_partition (config_ l)) in
  log_at w o p l ∧ log_holds l (disk w) L ∧ room_for l L records ∧ append_refusal l records acks = None ∧
  replica_append_wf (replica_request l records).

Definition planned (l : PartitionLogShard) (records : bytes) : ProducePartitionResult :=
  mkProducePartitionResult (pc_topic (config_ l)) (pc_partition (config_ l)) 0 (latest (offsets_ l))
    (latest (offsets_ l) + cnt records) 0.

(** The local write. *)
Lemma local_write w o l L records acks :
  leads w o l L records acks →
  let p := mkTopicPartition (pc_topic (config_ l)) (pc_partition (config_ l)) in
  ∃ w1 l', on_log o p (append records acks) w = (Ok (planned l records), w1) ∧
    kept o p w w1 ∧ net w1 = net w ∧ log_at w1 o p l' ∧ log_holds l' (disk w1) (L ++ [records]) ∧
    latest (offsets_ l') = latest (offsets_ l) + cnt records ∧
    high_watermark (offsets_ l')
      = (if (length (pc_isr (config_ l)) <=? 1)%nat then latest (offsets_ l) + cnt records else high_watermark (offsets_ l)) ∧
    config_ l' = config_ l.
Proof.
  intros (Hlog & Hh & Hroom & Hok & Hwf) p.
  destruct (append_accepted l (disk w) L records acks Hh Hroom Hok) as (l' & d' & Happ & Hh' & Hl' & Hhw' & Hplace & _).
  destruct (on_log_ok o p (append records acks) w l _ l' d' Hlog Happ) as (w1 & Hon & Hk1 & Hd1 & Hn1 & Hlog1).
  exists w1, l'. split_and!; try done; [by rewrite Hd1|apply Hplace].
Qed.

(** What the replication future does to the log when it is resolved. *)
Lemma replicated_ok w o partition l L :
  let p := mkTopicPartition (pc_topic partition) (pc_partition partition) in
  log_at w o p l → log_holds l (disk w) L →
  ∃ w' l', replicated o partition w = (Ok tt, w') ∧ kept o p w w' ∧ net w' = net w ∧ log_at w' o p l' ∧
    log_holds l' (disk w') L ∧ latest (offsets_ l') = latest (offsets_ l) ∧
    high_watermark (offsets_ l') = latest (offsets_ l) ∧ degraded_ l' = false ∧ config_ l' = config_ l.
Proof.
  intros p Hlog Hh. destruct (after_replication_ok o partition (λ log, mark_replicated_through (latest (offsets_ log)) log) w l Hlog)
    as (w' & Hafter & Hk & Hd & Hn & Hlog').
  destruct (log_updates_hold l (disk w) L (latest (offsets_ l)) (config_ l) Hh) as ((Hr & Hhw & Hdeg & _) & _).
  eexists w', _. split_and!; [exact Hafter|done|done|exact Hlog'|by rewrite Hd|done| |done|done].
  destruct Hh as (_ & _ & _ & Hrange & _). cbn. lia.
Qed.

Lemma replication_failed_ok w o partition l L :
  let p := mkTopicPartition (pc_topic partition) (pc_partition partition) in
  log_at w o p l → log_holds l (disk w) L →
  ∃ w' l', replication_failed o partition w = (Ok tt, w') ∧ kept o p w w' ∧ net w' = net w ∧ log_at w' o p l' ∧
    log_holds l' (disk w') L ∧ offsets_ l' = offsets_ l ∧ degraded_ l' = true ∧ config_ l' = config_ l.
Proof.
  intros p Hlog Hh. pose proof Hlog as (b & Hb & _).
  destruct (count_ok o p replica_errors_ w b Hb) as (w1 & Hc & Hk1 & Hd1 & Hn1 & _ & Hlog1).
  destruct (after_replication_ok o partition mark_degraded w1 l (Hlog1 l Hlog)) as (w2 & Hafter & Hk2 & Hd2 & Hn2 & Hlog2).
  destruct (log_updates_hold l (disk w) L 0 (config_ l) Hh) as (_ & (Hg & _) & _).
  eexists w2, _. split_and!; [|by eapply kept_trans|congruence|exact Hlog2| |done|done|done].
  - unfold replication_failed. by rewrite (io_bind_ok _ _ _ tt w1 Hc).
  - by rewrite Hd2, Hd1.
Qed.

Lemma leads_elsewhere w w' o l L records acks : elsewhere w w' → leads w o l L records acks → leads w' o l L records acks.
Proof.
  intros [Hs Hd] (Hlog & Hh & Hrest). split_and!; try apply Hrest; [|by rewrite Hd].
  destruct Hlog as (b0 & [Hb0 ?] & ?). exists b0. split; [|done]. split; [|done]. by rewrite Hs.
Qed.

Lemma elsewhere_alike w w1 w2 : elsewhere w w1 → alike w1 w2 → alike w w2.
Proof. intros [Hs _] [Hl Ha]. unfold alike. by rewrite <- Hs. Qed.

(** Every follower of the in-sync set takes the records; a partition without
    followers is not replicated. *)
Definition followed (w : Node Net) (b : BrokerShard) (l : PartitionLogShard) (L : list bytes) (records : bytes) (addresses : list cstring) : Prop :=
  isr_followers (bs_config_ b) (pc_isr (config_ l)) = (false, addresses) ∧ NoDup addresses ∧
  ((1 < length (pc_isr (config_ l)))%nat ∨ addresses = []) ∧ Forall (can_take (net w) (replica_request l records) L) addresses.

(** The surroundings of a cluster are the peers. *)
Ltac same_net E := let F := fresh in pose proof E as F;
  match type of F with net ?a = net ?b => change (@net _ (gmap cstring Peer) a = @net _ (gmap cstring Peer) b) in F end;
  first [rewrite F | change (Net) with (gmap cstring Peer); rewrite F].

(** What [begin_replication] prepares. *)
Definition prepared (o : nat) (l : PartitionLogShard) (records : bytes) (unknown : bool) (addresses : list cstring)
    (replication : Replication) : Prop :=
  rp_partition replication = config_ l ∧ rp_followers replication = addresses ∧
  replication_future o replication = when_all_succeed ((if unknown then [fail not_configured] else []) ++
    map (send_replica_append o (enc_replica_append (replica_request l records))) addresses).

Lemma begin_ok w o l L records acks unknown addresses b :
  leads w o l L records acks → shards w !! o = Some b →
  isr_followers (bs_config_ b) (pc_isr (config_ l)) = (unknown, addresses) →
  ∃ replication, begin_replication o (config_ l) (planned l records) records w = (Ok replication, w) ∧
    prepared o l records unknown addresses replication.
Proof.
  intros (_ & _ & _ & _ & Hwf) Hb Hisr. unfold begin_replication. rewrite (io_bind_ok _ _ _ (bs_config_ b) w) by (by apply ask_ok).
  rewrite Hisr. destruct addresses as [|a addresses]; [eexists; by split|].
  rewrite (io_bind_ok _ _ _ (enc_replica_append (replica_request l records)) w)
    by (unfold lift; by rewrite <- (encode_replica_append_enc _ Hwf)). eexists. by split.
Qed.

(** How the replication comes out. *)
Lemma future_ok w o l L records acks addresses replication :
  leads w o l L records acks → prepared o l records false addresses replication → NoDup addresses →
  ∀ w0, Forall (can_take (net w0) (replica_request l records) L) addresses →
  ∃ w1, replication_future o replication w0 = (Ok tt, w1) ∧ elsewhere w0 w1 ∧
    Forall (has_taken (net w1) (replica_request l records) L) addresses.
Proof.
  intros (_ & Hh & Hroom & _ & Hwf) (_ & _ & ->) Hnd w0 Hcan.
  pose proof (latest_nonneg l (disk w) L Hh) as Hnn. pose proof (cnt_pos records (proj1 Hroom)) as Hc1.
  destruct (send_all o (replica_request l records) L addresses w0 Hwf) as (w1 & Hall & Hel & Ht & _); [cbn; lia|done|done|].
  exists w1. cbn [app]. by split_and!.
Qed.

Lemma future_failed o l records unknown addresses replication :
  prepared o l records unknown addresses replication →
  ∀ w0, unknown = true ∨ Exists (λ a, net w0 !! a = None) addresses →
  ∃ e w1, replication_future o replication w0 = (Err e, w1) ∧ elsewhere w0 w1.
Proof.
  intros (_ & _ & ->) w0 Hdown.
  destruct (send_all_elsewhere o (enc_replica_append (replica_request l records)) addresses w0) as (r & w1 & Hall & Hel & _ & He).
  destruct unknown; cbn [app].
  - exists not_configured, w1. split; [|done]. cbn [when_all_succeed]. unfold attempt, mbind, IO_bind, lift, fail. by rewrite Hall.
  - destruct Hdown as [?|(a & Ha & Hnone)%Exists_exists]; [done|]. destruct (He a Ha Hnone) as [e ->]. by exists e, w1.
Qed.

Lemma replicate_ok w o l L records acks addresses b :
  leads w o l L records acks → shards w !! o = Some b → followed w b l L records addresses →
  ∃ w1, (if (1 <? length (pc_isr (config_ l)))%nat then replicate_to_isr o (config_ l) (planned l records) records else mret (Ok tt)) w
      = (Ok (Ok tt), w1) ∧ elsewhere w w1 ∧ Forall (has_taken (net w1) (replica_request l records) L) addresses.
Proof.
  intros Hl Hb (Hisr & Hnd & Hlen & Hcan).
  destruct (Nat.ltb_spec 1 (length (pc_isr (config_ l)))); [|destruct Hlen as [?| ->]; [lia|by exists w]].
  destruct (begin_ok w o l L records acks false addresses b Hl Hb Hisr) as (replication & Hbegin & Hprep).
  destruct (future_ok w o l L records acks addresses replication Hl Hprep Hnd w Hcan) as (w1 & Hfut & Hel & Ht).
  exists w1. split_and!; [|apply Hel..|done]. unfold replicate_to_isr. rewrite (io_bind_ok _ _ _ replication w Hbegin). unfold attempt. by rewrite Hfut.
Qed.

(** What the log of the partition is after the write: the old one with the
    records. *)
Definition stored (w : Node Net) (o : nat) (l l' : PartitionLogShard) (L : list bytes) (records : bytes) : Prop :=
  log_at w o (mkTopicPartition (pc_topic (config_ l)) (pc_partition (config_ l))) l' ∧
  log_holds l' (disk w) (L ++ [records]) ∧ latest (offsets_ l') = latest (offsets_ l) + cnt records ∧ config_ l' = config_ l.

Lemma stored_quiet w w' o l l' L records : quiet w w' → stored w o l l' L records → stored w' o l l' L records.
Proof.
  intros Hq (Hlog & Hh & Hrest). pose proof Hq as (Hd & _). split_and!; try apply Hrest; [by eapply quiet_log_at|by rewrite Hd].
Qed.

(** The client waits for the followers. *)
Lemma append_operation_replicated w o l L records addresses b :
  leads w o l L records (-1) → shards w !! o = Some b → followed w b l L records addresses →
  let p := mkTopicPartition (pc_topic (config_ l)) (pc_partition (config_ l)) in
  ∃ w' l', append_operation o p (config_ l) records (-1) (planned l records) w = (Ok (planned l records), w') ∧
    alike w w' ∧ stored w' o l l' L records ∧ high_watermark (offsets_ l') = latest (offsets_ l') ∧
    degraded_ l' = false ∧ Forall (has_taken (net w') (replica_request l records) L) addresses.
Proof.
  intros Hl Hb Hfol p. destruct (replicate_ok w o l L records (-1) addresses b Hl Hb Hfol) as (w1 & Hrep & [Hs1 Hd1] & Htaken).
  destruct (local_write w1 o l L records (-1) (leads_elsewhere _ _ _ _ _ _ _ (conj Hs1 Hd1) Hl))
    as (w2 & l2 & Hon & Hk2 & Hn2 & Hlog2 & Hh2 & Hlat2 & _ & Hc2).
  destruct (replicated_ok w2 o (config_ l) l2 (L ++ [records]) Hlog2 Hh2)
    as (w3 & l3 & Hdone & Hk3 & Hn3 & Hlog3 & Hh3 & Hlat3 & Hhw3 & Hdeg3 & Hc3).
  exists w3, l3. split_and!; try done; [| |split_and!; try done; congruence|congruence|by rewrite Hn3, Hn2].
  - unfold append_operation. change (-1 =? -1) with true. cbv iota. rewrite (io_bind_ok _ _ _ (Ok tt) w1 Hrep).
    rewrite (io_bind_ok _ _ _ (Ok (planned l records)) w2) by (unfold attempt, p; by rewrite Hon).
    rewrite (io_bind_ok _ _ _ (planned l records) w2) by done. cbn [planned ppr_error_code]. change (negb (0 =? 0)) with false.
    cbv iota. by rewrite (io_bind_ok _ _ _ tt w3 Hdone).
  - eapply elsewhere_alike; [by split|]. eapply alike_trans; by eapply kept_alike.
Qed.

Lemma append_operation_failed w o l L records unknown addresses b :
  leads w o l L records (-1) → shards w !! o = Some b →
  isr_followers (bs_config_ b) (pc_isr (config_ l)) = (unknown, addresses) → (1 < length (pc_isr (config_ l)))%nat →
  unknown = true ∨ Exists (λ a, net w !! a = None) addresses →
  let p := mkTopicPartition (pc_topic (config_ l)) (pc_partition (config_ l)) in
  ∃ w' l', append_operation o p (config_ l) records (-1) (planned l records) w
      = (Ok (with_error NotEnoughReplicas (planned l records)), w') ∧ alike w w' ∧ stored w' o l l' L records ∧
    high_watermark (offsets_ l') = high_watermark (offsets_ l) ∧ degraded_ l' = true ∧
    ∃ b', shards w' !! o = Some b' ∧ replications_ b' = replications_ b.
Proof.
  intros Hl Hb Hisr Hlen Hdown p. destruct (begin_ok w o l L records (-1) unknown addresses b Hl Hb Hisr) as (replication & Hbegin & Hprep).
  destruct (future_failed o l records unknown addresses replication Hprep w Hdown) as (e & w1 & Hfut & Hel).
  destruct (local_write w1 o l L records (-1) (leads_elsewhere _ _ _ _ _ _ _ Hel Hl))
    as (w2 & l2 & Hon & Hk2 & Hn2 & Hlog2 & Hh2 & Hlat2 & Hhw2 & Hc2).
  destruct (replication_failed_ok w2 o (config_ l) l2 (L ++ [records]) Hlog2 Hh2)
    as (w3 & l3 & Hdone & Hk3 & Hn3 & Hlog3 & Hh3 & Hoff3 & Hdeg3 & Hc3).
  destruct (Nat.leb_spec (length (pc_isr (config_ l))) 1); [lia|].
  exists w3, l3. rewrite Hoff3. split_and!; try done; [| |split_and!; try done; congruence|].
  - unfold append_operation. change (-1 =? -1) with true. cbv iota. destruct (Nat.ltb_spec 1 (length (pc_isr (config_ l)))); [|lia].
    rewrite (io_bind_ok _ _ _ (Err e) w1).
    2:{ unfold replicate_to_isr. rewrite (io_bind_ok _ _ _ replication w Hbegin). unfold attempt. by rewrite Hfut. }
    rewrite (io_bind_ok _ _ _ (Ok (planned l records)) w2) by (unfold attempt, p; by rewrite Hon).
    rewrite (io_bind_ok _ _ _ (planned l records) w2) by done. cbn [planned ppr_error_code]. change (negb (0 =? 0)) with false.
    cbv iota. by rewrite (io_bind_ok _ _ _ tt w3 Hdone).
  - eapply elsewhere_alike; [done|]. eapply alike_trans; by eapply kept_alike.
  - destruct Hel as [Hs _]. destruct (kept_shard _ _ _ _ b (kept_trans _ _ _ _ _ Hk2 Hk3)) as (b' & [Hb' _] & (_ & _ & _ & _ & _ & _ & _ & Hr));
      [by rewrite Hs|]. by exists b'.
Qed.

(** The client does not wait.  Followers are left to the background; without
    any, the partition is settled at once. *)
Lemma append_operation_left w o l L records acks unknown addresses b :
  leads w o l L records acks → acks ≠ -1 → shards w !! o = Some b →
  isr_followers (bs_config_ b) (pc_isr (config_ l)) = (unknown, addresses) → (1 < length (pc_isr (config_ l)))%nat → addresses ≠ [] →
  let p := mkTopicPartition (pc_topic (config_ l)) (pc_partition (config_ l)) in
  ∃ w' l' b' replication, append_operation o p (config_ l) records acks (planned l records) w = (Ok (planned l records), w') ∧
    alike w w' ∧ net w' = net w ∧ stored w' o l l' L records ∧ high_watermark (offsets_ l') = high_watermark (offsets_ l) ∧
    shards w' !! o = Some b' ∧ replications_ b' = replications_ b ++ [replication] ∧
    prepared o l records unknown addresses replication.
Proof.
  intros Hl Hacks Hb Hisr Hlen Hne p. destruct (begin_ok w o l L records acks unknown addresses b Hl Hb Hisr) as (replication & Hbegin & Hprep).
  destruct (local_write w o l L records acks Hl) as (w2 & l2 & Hon & Hk2 & Hn2 & Hlog2 & Hh2 & Hlat2 & Hhw2 & Hc2).
  destruct (Nat.leb_spec (length (pc_isr (config_ l))) 1); [lia|].
  destruct (kept_shard _ _ _ _ b Hk2 Hb) as (b2 & Hb2 & Hsame). pose proof Hsame as (_ & _ & _ & _ & _ & _ & _ & Hr2).
  destruct (leave_ok o replication w2 b2 Hb2) as (w3 & Hleave & Hal3 & Hd3 & Hn3 & Hb3 & Hlog3).
  { destruct Hprep as (_ & Hf & _). by rewrite Hf. }
  exists w3, l2, (set_replications_ (replications_ b2 ++ [replication]) b2), replication. split_and!; try done.
  - unfold append_operation. rewrite (proj2 (Z.eqb_neq acks (-1)) Hacks). destruct (Nat.ltb_spec 1 (length (pc_isr (config_ l)))); [|lia].
    rewrite (io_bind_ok _ _ _ replication w Hbegin).
    rewrite (io_bind_ok _ _ _ (Ok (planned l records)) w2) by (unfold attempt, p; by rewrite Hon).
    by rewrite (io_bind_ok _ _ _ tt w3 Hleave).
  - eapply alike_trans; [by eapply kept_alike|done].
  - congruence.
  - split_and!; [by apply Hlog3|by rewrite Hd3|done|done].
  - cbn. by rewrite Hr2.
Qed.

(** A partition without followers that can be reached. *)
Lemma append_operation_alone w o l L records acks unknown b :
  leads w o l L records acks → acks ≠ -1 → shards w !! o = Some b →
  isr_followers (bs_config_ b) (pc_isr (config_ l)) = (unknown, []) → (1 < length (pc_isr (config_ l)))%nat →
  let p := mkTopicPartition (pc_topic (config_ l)) (pc_partition (config_ l)) in
  ∃ w' l', append_operation o p (config_ l) records acks (planned l records) w = (Ok (planned l records), w') ∧
    alike w w' ∧ stored w' o l l' L records ∧
    high_watermark (offsets_ l') = (if unknown then high_watermark (offsets_ l) else latest (offsets_ l')) ∧ degraded_ l' = unknown ∧
    ∃ b', shards w' !! o = Some b' ∧ replications_ b' = replications_ b.
Proof.
  intros Hl Hacks Hb Hisr Hlen p. destruct (begin_ok w o l L records acks unknown [] b Hl Hb Hisr) as (replication & Hbegin & (Hpart & Hfol & Hfut)).
  destruct (local_write w o l L records acks Hl) as (w2 & l2 & Hon & Hk2 & Hn2 & Hlog2 & Hh2 & Hlat2 & Hhw2 & Hc2).
  destruct (Nat.leb_spec (length (pc_isr (config_ l))) 1); [lia|].
  assert (∃ w3 l3, replication_done o (config_ l) (if unknown then Err not_configured else Ok tt) w2 = (Ok tt, w3) ∧ kept o p w2 w3 ∧
    stored w3 o l l3 L records ∧ high_watermark (offsets_ l3) = (if unknown then high_watermark (offsets_ l) else latest (offsets_ l3)) ∧
    degraded_ l3 = unknown) as (w3 & l3 & Hdone & Hk3 & Hst & Hhw3 & Hdeg3).
  { destruct unknown; cbn [replication_done].
    - destruct (replication_failed_ok w2 o (config_ l) l2 (L ++ [records]) Hlog2 Hh2) as (w3 & l3 & ? & ? & ? & ? & ? & Ho & ? & ?).
      exists w3, l3. rewrite Ho. split_and!; try done; [split_and!; try done; congruence].
    - destruct (replicated_ok w2 o (config_ l) l2 (L ++ [records]) Hlog2 Hh2) as (w3 & l3 & ? & ? & ? & ? & ? & ? & Hw & ? & ?).
      exists w3, l3. split_and!; try done; [split_and!; try done; congruence|congruence]. }
  exists w3, l3. split_and!; try done.
  - unfold append_operation. rewrite (proj2 (Z.eqb_neq acks (-1)) Hacks). destruct (Nat.ltb_spec 1 (length (pc_isr (config_ l)))); [|lia].
    rewrite (io_bind_ok _ _ _ replication w Hbegin).
    rewrite (io_bind_ok _ _ _ (Ok (planned l records)) w2) by (unfold attempt, p; by rewrite Hon).
    rewrite (io_bind_ok _ _ _ tt w3); [done|]. unfold leave_replication. rewrite Hfol, Hfut, Hpart.
    rewrite (io_bind_ok _ _ _ (if unknown then Err not_configured else Ok tt) w2) by (by destruct unknown). exact Hdone.
  - eapply alike_trans; by eapply kept_alike.
  - destruct (kept_shard _ _ _ _ b (kept_trans _ _ _ _ _ Hk2 Hk3) Hb) as (b' & [Hb' _] & (_ & _ & _ & _ & _ & _ & _ & Hr)). by exists b'.
Qed.

(** The replication that was left behind ends. *)
Lemma finish_begins w o b i replication :
  shard_at w o b → replications_ b !! i = Some replication →
  ∃ w0, alike w w0 ∧ disk w0 = disk w ∧ net w0 = net w ∧ (∀ p log, log_at w o p log → log_at w0 o p log) ∧
    ∀ outcome w2, replication_future o replication w0 = (outcome, w2) →
      finish_replication o i w = replication_done o (rp_partition replication) outcome w2.
Proof.
  intros Hb Hi. destruct (update_background o (λ b, delete i (replications_ b)) w b Hb) as (w0 & Hu & Hal & Hd & Hn & _ & Hlog).
  exists w0. split_and!; try done. intros outcome w2 Hf. unfold finish_replication.
  rewrite (io_bind_ok _ _ _ (Some replication) w) by (destruct Hb as [Hb _]; rewrite <- Hi; by apply (ask_ok o (λ b, replications_ b !! i))).
  rewrite (io_bind_ok _ _ _ tt w0 Hu). by rewrite (io_bind_ok _ _ _ outcome w2) by (unfold attempt; by rewrite Hf).
Qed.

(** Nothing was left behind. *)
Lemma finish_nothing w o b i :
  shards w !! o = Some b → replications_ b !! i = None → finish_replication o i w = (Ok tt, w).
Proof.
  intros Hb Hi. unfold finish_replication.
  by rewrite (io_bind_ok _ _ _ None w) by (rewrite <- Hi; by apply (ask_ok o (λ b, replications_ b !! i))).
Qed.

Lemma elsewhere_log_at w w' o p log : elsewhere w w' → log_at w o p log → log_at w' o p log.
Proof. intros [Hs _] (b & [Hb Ht] & Hm). exists b. split; [|done]. split; [by rewrite Hs|done]. Qed.

Lemma finish_replicated w o b i l l1 L records acks addresses replication w0 :
  leads w0 o l L records acks → shard_at w o b → replications_ b !! i = Some replication →
  prepared o l records false addresses replication → NoDup addresses →
  Forall (can_take (net w) (replica_request l records) L) addresses → stored w o l l1 L records →
  ∃ w' l', finish_replication o i w = (Ok tt, w') ∧ stored w' o l l' L records ∧
    high_watermark (offsets_ l') = latest (offsets_ l') ∧ degraded_ l' = false ∧
    Forall (has_taken (net w') (replica_request l records) L) addresses.
Proof.
  intros Hl Hb Hi Hprep Hnd Hcan (Hlog & Hh & Hlat & Hc). destruct (finish_begins w o b i replication Hb Hi) as (w1 & _ & Hd1 & Hn1 & Hlog1 & Hfin).
  destruct (future_ok w0 o l L records acks addresses replication Hl Hprep Hnd w1) as (w2 & Hfut & Hel & Htaken); [by same_net Hn1|].
  rewrite (Hfin _ _ Hfut). destruct Hprep as (Hpart & _). rewrite Hpart. cbn [replication_done].
  destruct (replicated_ok w2 o (config_ l) l1 (L ++ [records])) as (w3 & l3 & Hdone & _ & Hn3 & Hlog3 & Hh3 & Hlat3 & Hhw3 & Hdeg3 & Hc3).
  { by eapply elsewhere_log_at, Hlog1. }
  { destruct Hel as [_ Hd2]. by rewrite Hd2, Hd1. }
  exists w3, l3. split_and!; try done; [split_and!; try done; congruence|congruence|by rewrite Hn3].
Qed.

Lemma finish_failed w o b i l l1 L records unknown addresses replication :
  shard_at w o b → replications_ b !! i = Some replication → prepared o l records unknown addresses replication →
  unknown = true ∨ Exists (λ a, net w !! a = None) addresses → stored w o l l1 L records →
  ∃ w' l', finish_replication o i w = (Ok tt, w') ∧ stored w' o l l' L records ∧
    high_watermark (offsets_ l') = high_watermark (offsets_ l1) ∧ degraded_ l' = true.
Proof.
  intros Hb Hi Hprep Hdown (Hlog & Hh & Hlat & Hc). destruct (finish_begins w o b i replication Hb Hi) as (w1 & _ & Hd1 & Hn1 & Hlog1 & Hfin).
  destruct (future_failed o l records unknown addresses replication Hprep w1) as (e & w2 & Hfut & Hel); [by same_net Hn1|].
  rewrite (Hfin _ _ Hfut). destruct Hprep as (Hpart & _). rewrite Hpart. cbn [replication_done].
  destruct (replication_failed_ok w2 o (config_ l) l1 (L ++ [records])) as (w3 & l3 & Hdone & _ & Hn3 & Hlog3 & Hh3 & Ho3 & Hdeg3 & Hc3).
  { by eapply elsewhere_log_at, Hlog1. }
  { destruct Hel as [_ Hd2]. by rewrite Hd2, Hd1. }
  exists w3, l3. rewrite Ho3. split_and!; try done. split_and!; try done; congruence.
Qed.

(** ** A produce request from any shard *)

(** The answer when the deadline passes first. *)
Definition timed_out (l : PartitionLogShard) : ProducePartitionResult :=
  mkProducePartitionResult (pc_topic (config_ l)) (pc_partition (config_ l)) (error_code_value RequestTimedOut) 0 0 0.

Definition answer (config : BrokerConfig) (timeout_ms : Z) (l : PartitionLogShard) (r : ProducePartitionResult)
    : ProducePartitionResult :=
  if late && (0 <? produce_wait_ms config timeout_ms) then timed_out l else r.

(** The request [r], received on shard [me], for the partition that shard [o]
    leads with the log [l]; [records] is what is stored. *)
Definition produces (w : Node Net) (me o : nat) (b : BrokerShard) (l : PartitionLogShard) (L : list bytes)
    (r : ProducePartitionRequest) (records : bytes) (acks : Z) : Prop :=
  (∃ b0, shards w !! me = Some b0) ∧ agreed w (ppq_topic r) (ppq_partition r) o ∧
  knows w me (ppq_topic r) (ppq_partition r) = true ∧ knows w o (ppq_topic r) (ppq_partition r) = true ∧
  ppq_topic r = pc_topic (config_ l) ∧ ppq_partition r = pc_partition (config_ l) ∧
  shards w !! o = Some b ∧ pc_leader (config_ l) = bc_node_id (bs_config_ b) ∧ gate_closed_ b = false ∧
  rewrite_record_batch_offsets (ppq_records r) (latest (offsets_ l)) = Ok records ∧
  leads w o l L records acks.

(** The synchronous part of the request, up to the operation. *)
Lemma append_local_ok w o b l L r records acks timeout_ms result w2 :
  let p := mkTopicPartition (pc_topic (config_ l)) (pc_partition (config_ l)) in
  shards w !! o = Some b → pc_leader (config_ l) = bc_node_id (bs_config_ b) → gate_closed_ b = false →
  rewrite_record_batch_offsets (ppq_records r) (latest (offsets_ l)) = Ok records →
  leads w o l L records acks → alike w w2 →
  append_operation o p (config_ l) records acks (planned l records) w = (Ok result, w2) →
  ∃ w3, append_local o r acks timeout_ms p w = (Ok (answer (bs_config_ b) timeout_ms l result), w3) ∧ quiet w2 w3.
Proof.
  intros p Hb Hleader Hgate Hrw Hl Hal Hop. pose proof Hl as (Hlog & Hh & Hroom & _).
  destruct (record_count_ok l L records Hroom) as (Hc & Hc1 & _). pose proof (latest_nonneg l _ _ Hh) as Hnn.
  pose proof Hroom as (_ & _ & Hbound & _). destruct (alike_shard _ _ _ _ Hal Hb) as (b2 & Hb2 & _).
  unfold append_local. rewrite (io_bind_ok _ _ _ (config_ l) w) by (by apply on_log_asks).
  rewrite (io_bind_ok _ _ _ (bs_config_ b) w) by (by apply ask_ok).
  rewrite <- Hleader, Z.eqb_refl. cbn [negb].
  rewrite (io_bind_ok _ _ _ (latest (offsets_ l)) w) by (by apply (on_log_asks o p (λ log, latest (offsets_ log)))).
  rewrite (io_bind_ok _ _ _ records w) by (unfold lift; by rewrite Hrw).
  rewrite (io_bind_ok _ _ _ (cnt records) w) by (unfold lift; by rewrite Hc).
  rewrite (io_bind_ok _ _ _ (latest (offsets_ l) + cnt records) w) by (apply checked_i64_ok; lia).
  change (mkProducePartitionResult (pc_topic (config_ l)) (pc_partition (config_ l)) 0 (latest (offsets_ l))
    (latest (offsets_ l) + cnt records) 0) with (planned l records). cbv zeta.
  assert (with_gate o (append_operation o p (config_ l) records acks (planned l records)) w = (Ok result, w2)) as Hgated.
  { unfold with_gate. rewrite (io_bind_ok _ _ _ false w) by (rewrite <- Hgate; by apply ask_ok). exact Hop. }
  unfold answer. destruct (Z.leb_spec (produce_wait_ms (bs_config_ b) timeout_ms) 0) as [Hw|Hw].
  { exists w2. rewrite Hgated. destruct (Z.ltb_spec 0 (produce_wait_ms (bs_config_ b) timeout_ms)); [lia|].
    by rewrite andb_false_r. }
  destruct (Z.ltb_spec 0 (produce_wait_ms (bs_config_ b) timeout_ms)); [|lia]. rewrite andb_true_r. unfold with_timeout.
  rewrite (io_bind_ok _ _ _ (Ok result) w2) by (unfold attempt; by rewrite Hgated).
  rewrite (io_bind_ok _ _ _ late w2) by done. destruct late; [|by exists w2].
  destruct (count_quiet o produce_errors_ w2 b2 Hb2) as (w3 & Hcount & Hq & _). exists w3.
  by rewrite (io_bind_ok _ _ _ tt w3 Hcount).
Qed.

Lemma leads_quiet w w' o l L records acks : quiet w w' → leads w o l L records acks → leads w' o l L records acks.
Proof.
  intros Hq (Hlog & Hh & Hrest). split_and!; try apply Hrest; [by eapply quiet_log_at|].
  destruct Hq as (Hd & _). by rewrite Hd.
Qed.

Lemma produces_quiet w w' me o b l L r records acks addresses :
  quiet w w' → produces w me o b l L r records acks → followed w b l L records addresses →
  ∃ b', produces w' me o b' l L r records acks ∧ followed w' b' l L records addresses.
Proof.
  intros Hq ((b0 & Hb0) & Ha & Hkm & Hko & Ht & Hp & Hb & Hleader & Hgate & Hrw & Hl) Hfol.
  pose proof (quiet_alike _ _ Hq) as Hal. destruct (alike_shard _ _ _ _ Hal Hb) as (b' & Hb' & (Hc & _ & _ & _ & _ & Hg & _)).
  destruct (alike_shard _ _ _ _ Hal Hb0) as (b0' & Hb0' & _). exists b'. split.
  - split_and!; [by exists b0'|by eapply agreed_alike|by eapply knows_alike|by eapply knows_alike|done|done|done|by rewrite Hc|
      by rewrite Hg|done|by eapply leads_quiet].
  - unfold followed in *. rewrite Hc. destruct Hq as (_ & Hn & _). by rewrite Hn.
Qed.

(** From the receiving shard to the operation and back. *)
Lemma produce_ok w me o b l L r records acks timeout_ms (Q : Node Net → Prop) result :
  let p := mkTopicPartition (pc_topic (config_ l)) (pc_partition (config_ l)) in
  produces w me o b l L r records acks →
  (∀ w1 b1, quiet w w1 → leads w1 o l L records acks → shards w1 !! o = Some b1 → bs_config_ b1 = bs_config_ b →
     replications_ b1 = replications_ b → ∃ w2, append_operation o p (config_ l) records acks (planned l records) w1 = (Ok result, w2) ∧ alike w1 w2 ∧ Q w2) →
  ∃ w2 w3, BrokerShard_append kHops me r acks timeout_ms w = (Ok (answer (bs_config_ b) timeout_ms l result), w3) ∧
    Q w2 ∧ quiet w2 w3.
Proof.
  intros p ((b0 & Hb0) & Ha & Hkm & Hko & Ht & Hp & Hb & Hleader & Hgate & Hrw & Hl) Hop.
  destruct (append_routed 0 me o w b0 r acks timeout_ms Hb0 Ha) as (w1 & Hq1 & Hrun).
  assert (served w o (ppq_topic r) (ppq_partition r) = true) as Hserved.
  { unfold served. rewrite Hko, Hb. pose proof Hl as ((b' & [Hb' _] & Hlog) & _). assert (b' = b) as -> by congruence.
    apply bool_decide_eq_true_2. rewrite Ht, Hp, Hlog. by eexists. }
  unfold destination in Hrun. rewrite Hkm, Hserved, Ht, Hp in Hrun. fold p in Hrun. unfold kHops.
  assert (∃ b1, shards w1 !! o = Some b1 ∧ same_shard b b1) as (b1 & Hb1 & (Hc1 & _ & _ & _ & _ & Hg1 & _ & Hr1)).
  { pose proof Hq1 as (_ & _ & _ & Hall). destruct (Hall o b Hb) as (b1 & ? & ? & _). by exists b1. }
  pose proof (leads_quiet _ _ _ _ _ _ _ Hq1 Hl) as Hl1.
  destruct (Hop w1 b1 Hq1 Hl1 Hb1 Hc1 Hr1) as (w2 & Hrun2 & Hal & HQ).
  destruct (append_local_ok w1 o b1 l L r records acks timeout_ms result w2) as (w3 & Hrun3 & Hq3); try done; [by rewrite Hc1|by rewrite Hg1|].
  fold p in Hrun3.
  exists w2, w3. split_and!; [|done|done]. rewrite Hrun, Hrun3. by rewrite Hc1.
Qed.

(** Followers that took the records agree with the leader. *)
Lemma followers_agree n l l' L records addresses :
  latest (offsets_ l') = latest (offsets_ l) + cnt records → Forall (has_taken n (replica_request l records) L) addresses →
  Forall (λ a, ∃ peer f lf, n !! a = Some peer ∧
    follows peer (pc_topic (config_ l)) (pc_partition (config_ l)) f lf (L ++ [records]) ∧
    offsets_ lf = mkPartitionOffsets 0 (latest (offsets_ l')) (latest (offsets_ l'))) addresses.
Proof.
  intros Hlat Htaken. eapply Forall_impl; [exact Htaken|]. intros a (peer & f & lf & Hpeer & Hf & Hoff). exists peer, f, lf.
  split_and!; [done|done|]. rewrite Hoff, Hlat. cbn [replica_request raq_base_offset raq_records raq_leader_high_watermark].
  by rewrite Z.min_id.
Qed.

(** A produce request that waits for every in-sync replica. *)
Lemma produce_stored w me o b l L r records timeout_ms addresses :
  produces w me o b l L r records (-1) → followed w b l L records addresses →
  ∃ w' l', BrokerShard_append kHops me r (-1) timeout_ms w
      = (Ok (answer (bs_config_ b) timeout_ms l (planned l records)), w') ∧ alike w w' ∧ stored w' o l l' L records ∧
    high_watermark (offsets_ l') = latest (offsets_ l') ∧ degraded_ l' = false ∧
    Forall (has_taken (net w') (replica_request l records) L) addresses.
Proof.
  intros Hp Hfol.
  destruct (produce_ok w me o b l L r records (-1) timeout_ms (λ w', alike w w' ∧ ∃ l', stored w' o l l' L records ∧
    high_watermark (offsets_ l') = latest (offsets_ l') ∧ degraded_ l' = false ∧
    Forall (has_taken (net w') (replica_request l records) L) addresses) (planned l records) Hp)
    as (w2 & w3 & Hrun & (Hal & l' & Hst & Hrest) & Hq).
  { intros w1 b1 Hq1 Hl1 Hb1 Hc1 _. destruct (append_operation_replicated w1 o l L records addresses b1 Hl1 Hb1)
      as (w2 & l' & Hrun & Hal & Hrest).
    - unfold followed. rewrite Hc1. destruct Hq1 as (_ & Hn1 & _). by rewrite Hn1.
    - exists w2. split_and!; [done|done|by eapply alike_trans; [eapply quiet_alike|]|by exists l']. }
  exists w3, l'. pose proof Hq as (_ & Hn & _). rewrite Hn. split_and!; try done; try apply Hrest.
  - by eapply alike_trans, quiet_alike.
  - by eapply stored_quiet.
Qed.

(** A produce request that leaves the followers to the background. *)
Lemma produce_left w me o b l L r records acks timeout_ms unknown addresses :
  produces w me o b l L r records acks → acks ≠ -1 →
  isr_followers (bs_config_ b) (pc_isr (config_ l)) = (unknown, addresses) → (1 < length (pc_isr (config_ l)))%nat → addresses ≠ [] →
  ∃ w1 l1 b1 replication, BrokerShard_append kHops me r acks timeout_ms w
      = (Ok (answer (bs_config_ b) timeout_ms l (planned l records)), w1) ∧ net w1 = net w ∧ stored w1 o l l1 L records ∧
    high_watermark (offsets_ l1) = high_watermark (offsets_ l) ∧
    shard_at w1 o b1 ∧ replications_ b1 = replications_ b ++ [replication] ∧ prepared o l records unknown addresses replication.
Proof.
  intros Hp Hacks Hisr Hlen Hne.
  destruct (produce_ok w me o b l L r records acks timeout_ms (λ w', net w' = net w ∧ ∃ l1 b1 replication, stored w' o l l1 L records ∧
    high_watermark (offsets_ l1) = high_watermark (offsets_ l) ∧ shards w' !! o = Some b1 ∧
    replications_ b1 = replications_ b ++ [replication] ∧ prepared o l records unknown addresses replication) (planned l records) Hp)
    as (w2 & w3 & Hrun & (Hn2 & l1 & b1 & replication & Hst & Hhw & Hb1 & Hr1 & Hprep) & Hq).
  { intros w1 b1 Hq1 Hl1 Hb1 Hc1 Hr1. destruct (append_operation_left w1 o l L records acks unknown addresses b1)
      as (w2 & l' & b2 & replication & Hrun & Hal & Hn2 & Hst & Hhw & Hb2 & Hr2 & Hprep); try done; [by rewrite Hc1|].
    exists w2. destruct Hq1 as (_ & Hn1 & _). split_and!; [done|done|congruence|]. exists l', b2, replication. rewrite Hr1 in Hr2. by split_and!. }
  pose proof Hst as ((b2 & [Hb2 Ht2] & _) & _). assert (b2 = b1) as -> by congruence.
  destruct (quiet_shard_at w2 w3 o b1 Hq (conj Hb1 Ht2)) as (b3 & Hb3 & (_ & _ & _ & _ & _ & _ & _ & Hr3) & _).
  exists w3, l1, b3, replication. pose proof Hq as (_ & Hn3 & _). split_and!; try done; [congruence|by eapply stored_quiet|congruence].
Qed.

(** ** Theorems *)



End leader.

(** ** A cluster of two brokers *)

Definition pair_partition : PartitionConfig :=
  mkPartitionConfig (str "orders") 0 0 [1; 2] [1; 2] Fsync 16 4096 HighWatermark false 1 0 0 (-1).
Definition pair_config (node_id : Z) : BrokerConfig :=
  mkBrokerConfig node_id 1 (str "data") 9642 100 100 1024
    [mkBrokerEndpoint 1 (str "host1") 9092 (str "m1"); mkBrokerEndpoint 2 (str "host2") 9092 (str "m2")]
    [mkTopicConfig (str "orders") [pair_partition]].
Definition pair_key : TopicPartition := mkTopicPartition (str "orders") 0.
Definition pair_log : PartitionLogShard := (start pair_partition sample_root 1024 (PartitionLogShard_init, empty_disk)).2.1.
Definition pair_disk : @Disk memory_disk := (start pair_partition sample_root 1024 (PartitionLogShard_init, empty_disk)).2.2.

(** The one shard of a broker that has the partition. *)
Definition pair_shard (node_id : Z) : BrokerShard :=
  mkBrokerShard (pair_config node_id) true (mkPartitionTable [mkPartitionEntry pair_key pair_log] 1 None)
    false true true false true (λ _, 0) [].
Definition pair_peer : Peer := mkNode [pair_shard 2] pair_disk tt.
Definition pair_leader (late : bool) : @Node memory_disk (@Net _ (cluster late)) :=
  mkNode [pair_shard 1] pair_disk {[str "m2" := pair_peer]}.
Definition pair_records : bytes :=
  match rewrite_record_batch_offsets (sample_batch 3) 0 with Ok records => records | Err _ => [] end.
Definition pair_request : ProducePartitionRequest := mkProducePartitionRequest (str "orders") 0 (sample_batch 3).

Lemma pair_table n : sorted_table (table_ (pair_shard n)).
Proof. split; [|done]. repeat constructor. Qed.

Lemma pair_holds : log_holds pair_log pair_disk [] ∧ config_ pair_log = pair_partition ∧
  offsets_ pair_log = mkPartitionOffsets 0 0 0 ∧ queue_depth_ pair_log = 0.
Proof. exact (started_holds pair_partition ltac:(done)). Qed.

Lemma pair_count : cnt pair_records = 3.
Proof. vm_compute. reflexivity. Qed.

Lemma pair_room : room_for pair_log [] pair_records.
Proof.
  unfold room_for. destruct pair_holds as (_ & -> & -> & _).
  split_and!; [split; [vm_compute; congruence|vm_compute; reflexivity]|vm_compute; reflexivity..].
Qed.

(** A node of one shard that has the log. *)
Lemma single_shard {Re : Reactor} (w : Node Net) n :
  shards w = [pair_shard n] →
  agreed w (str "orders") 0 0 ∧ knows w 0 (str "orders") 0 = true ∧ log_at w 0 pair_key pair_log.
Proof.
  intros Hs. split_and!.
  - split; [rewrite Hs; simpl; lia|]. intros i b Hb. rewrite Hs in Hb. apply list_lookup_singleton_Some in Hb as [-> <-].
    split_and!; [done|apply pair_table|]. right. reflexivity.
  - unfold knows. rewrite Hs. reflexivity.
  - exists (pair_shard n). split; [split; [by rewrite Hs|apply pair_table]|]. reflexivity.
Qed.

(** A broker of two shards: shard 1 has no partition of its own. *)
Definition idle_shard : BrokerShard :=
  mkBrokerShard (pair_config 1) true PartitionTable_init false true true false true (λ _, 0) [].
Definition two_shards : @Node memory_disk (@Net _ (cluster false)) :=
  mkNode [pair_shard 1; idle_shard] pair_disk {[str "m2" := pair_peer]}.

(** A request that comes in at shard 1 runs on shard 0; one for a partition
    nobody has stays there. *)
Lemma requests_reach_owner_witness :
  (∃ w', quiet two_shards w' ∧
    BrokerShard_append (Reactor0 := cluster false) 2 1 pair_request 1 0 two_shards
    = append_local (Reactor0 := cluster false) 0 pair_request 1 0 pair_key w') ∧
  ∃ w', quiet two_shards w' ∧
    BrokerShard_fetch (Reactor0 := cluster false) 2 1 (mkFetchPartitionRequest (str "orders") 7 0 0 1 100) two_shards
    = (count (Reactor0 := cluster false) 1 fetch_errors_;; mret (fetch_error partition_missing)) w'.
Proof.
  assert (∀ p, p = 0 ∨ p = 7 → agreed (Reactor0 := cluster false) two_shards (str "orders") p 0) as Ha.
  { intros p Hp. split; [simpl; lia|]. intros i b Hb.
    destruct i as [|[|i]]; [| |done]; injection Hb as <-; (split; [done|]); (split; [(apply pair_table || by split; [constructor|])|]).
    all: destruct Hp as [->| ->]; [right|left]; reflexivity. }
  destruct (requests_reach_owner (Reactor0 := cluster false) 0 1 0 two_shards idle_shard eq_refl)
    as (Happend & Hfetch & _). split.
  - destruct (Happend pair_request 1 0 (Ha 0 (or_introl eq_refl))) as (w' & Hq & Hrun). exists w'. split; [exact Hq|exact Hrun].
  - destruct (Hfetch (mkFetchPartitionRequest (str "orders") 7 0 0 1 100) (Ha 7 (or_intror eq_refl))) as (w' & Hq & Hrun).
    exists w'. split; [exact Hq|exact Hrun].
Defined.

Lemma pair_follows : follows pair_peer (str "orders") 0 0 pair_log [].
Proof.
  destruct (single_shard (Re := isolated) pair_peer 2 eq_refl) as (Ha & Hk & Hl).
  refine (conj Ha (conj Hk (conj Hk (conj Hl (conj (proj1 pair_holds) _))))). exists (pair_shard 2). split; [reflexivity|].
  destruct pair_holds as (_ & -> & _). reflexivity.
Qed.

(** Records the two brokers can take. *)
Definition pair_takes (r : ProducePartitionRequest) (records : bytes) : Prop :=
  ppq_topic r = str "orders" ∧ ppq_partition r = 0 ∧ rewrite_record_batch_offsets (ppq_records r) 0 = Ok records ∧
  room_for pair_log [] records ∧ zlen records <= 4096 ∧ replica_append_wf (mkReplicaAppendRequest (str "orders") 0 0 (cnt records) records).

Lemma pair_takes_request : pair_takes pair_request pair_records.
Proof.
  split; [done|]. split; [done|]. split; [vm_compute; reflexivity|]. split; [apply pair_room|]. split; [vm_compute; congruence|].
  vm_compute. split_and!; try reflexivity; congruence.
Qed.

Lemma pair_can_produce late acks r records (w : @Node memory_disk (@Net _ (leader_reactor late))) :
  -1 <= acks <= 1 → pair_takes r records → shards w = [pair_shard 1] → disk w = pair_disk →
  produces late w 0 0 (pair_shard 1) pair_log [] r records acks.
Proof.
  intros Hacks (Ht & Hp & Hrw & Hroom & Hsize & Hwf) Hs Hd.
  destruct (single_shard (Re := leader_reactor late) w 1 Hs) as (Ha & Hk & Hl).
  destruct pair_holds as (Hh & Hc & Ho & Hq). unfold produces, leads, replica_request. rewrite Hc, Ho, Ht, Hp, Hs, Hd.
  refine (conj (ex_intro _ (pair_shard 1) eq_refl) (conj Ha (conj Hk (conj Hk (conj eq_refl (conj eq_refl (conj eq_refl
    (conj eq_refl (conj eq_refl (conj Hrw (conj Hl (conj Hh (conj Hroom (conj _ Hwf)))))))))))))).
  unfold append_refusal. rewrite Hc, Hq. change (0 >=? _) with false. rewrite Z.gtb_ltb. cbn [pair_partition pc_max_frame_bytes].
  destruct (Z.ltb_spec 4096 (zlen records)); [lia|].
  destruct (Z.ltb_spec acks (-1)); [lia|]. rewrite Z.gtb_ltb. by destruct (Z.ltb_spec 1 acks); [lia|].
Qed.

(** The follower is up. *)
Lemma pair_followed late r records :
  pair_takes r records → followed late (pair_leader late) (pair_shard 1) pair_log [] records [str "m2"].
Proof.
  intros (_ & _ & _ & Hroom & Hsize & _). destruct pair_holds as (Hh & Hc & Ho & Hq). split_and!.
  - rewrite Hc. reflexivity.
  - repeat constructor. apply not_elem_of_nil.
  - left. rewrite Hc. simpl. lia.
  - constructor; [|done]. exists pair_peer, 0%nat, pair_log. split_and!; [done| |exact Hroom|].
    + unfold replica_request. rewrite Hc. apply pair_follows.
    + unfold append_replica_refusal, replica_request. rewrite Hc, Ho, Hq. cbn [raq_records raq_topic raq_partition raq_base_offset].
      rewrite Z.gtb_ltb. cbn [pair_partition pc_max_frame_bytes]. by destruct (Z.ltb_spec 4096 (zlen records)); [lia|].
Qed.



(** The same leader with its follower down. *)
Definition alone_leader : @Node memory_disk (@Net _ (cluster false)) := mkNode [pair_shard 1] pair_disk ∅.

