(* ===== verification/Acknowledged.v ===== *)
(** * What an acknowledgement means

    A produce request with acks -1 that succeeds, whatever the surroundings do:
    any [Reactor], whose calls may fail, answer anything, time out and change
    the whole node, and any [Storage].  [recording] is a reactor that keeps
    what was forwarded and answered, so that a statement can say what has
    happened on the way to an answer. *)

From Stdlib Require Import ZArith Lia.
From stdpp Require Import base tactics numbers option sorting sets gmap functions list.
From S2P Require Import Prelude Wire Protocol Codec Crc32c RecordBatch Config Detail Storage PartitionLog KafkaProtocol PartitionTable BrokerShard.
From S2P Require Import LogDurable BrokerRep Replication.

Local Open Scope Z_scope.

Lemma io_bind_inv {σ A B} (m : IO σ A) (k : A → IO σ B) s b s' :
  (m ≫= k) s = (Ok b, s') → ∃ a s1, m s = (Ok a, s1) ∧ k a s1 = (Ok b, s').
Proof. unfold mbind, IO_bind. destruct (m s) as [[a|e] s1]; [|done]. by exists a, s1. Qed.

Tactic Notation "step" hyp(H) "as" simple_intropattern(a) simple_intropattern(w) simple_intropattern(E) :=
  apply io_bind_inv in H as (a & w & E & H).

(** ** Operations that only look *)

Section looking.
Context `{Crc32Intrinsics} `{Storage} {Reactor0 : Reactor}.

Lemma ask_inv {A} me (f : BrokerShard → A) w a w' :
  ask me f w = (Ok a, w') → w' = w ∧ ∃ b, shards w !! me = Some b ∧ a = f b.
Proof. unfold ask. destruct (shards w !! me) as [b|]; intros [= <- <-]. split; [done|]. by exists b. Qed.

Lemma on_log_asks_inv {A} me p (f : PartitionLogShard → A) w a w' :
  on_log me p (asks f) w = (Ok a, w') →
  w' = w ∧ ∃ b log, shards w !! me = Some b ∧ log_of p (table_ b) = Some log ∧ a = f log.
Proof.
  unfold on_log. destruct (shards w !! me) as [b|] eqn:Hb; [|done]. unfold log_of.
  destruct (list_find _ _) as [[i e]|] eqn:Hf; [|done]. cbn. intros [= <- <-]. split; [|by exists b, (pe_log e); rewrite Hf].
  unfold set_log. rewrite Hf. apply list_find_Some in Hf as (Hi & <- & _).
  rewrite (list_insert_id (partitions_ (table_ b)) i (mkPartitionEntry (pe_key e) (pe_log e))) by (rewrite Hi; by destruct e).
  destruct w as [ss d n], b as [? ? []]. cbn in *. by rewrite list_insert_id.
Qed.

(** Looking for a log moves the cached position at most. *)
Lemma find_partition_log_inv key t r t' :
  find_partition_log key t = Ok (r, t') → (∀ p, r = Some p → p = key) ∧ partitions_ t' = partitions_ t.
Proof.
  unfold find_partition_log, hot_entry. intros Hf. apply result_bind_inv in Hf as (hot & Hh & Hf).
  assert (∀ e, hot = Some e → pe_key e = key) as Hkey.
  { intros e ->. destruct (hot_partition_ t) as [pointer|]; [|done]. apply result_bind_inv in Hh as (e' & _ & Hh).
    case_bool_decide; by simplify_eq. }
  destruct hot as [e|]; [injection Hf as <- <-; split; [intros p [= <-]; by apply Hkey|done]|].
  destruct (entry_at _ _ _) as [e|] eqn:He; injection Hf as <- <-; [|done]. apply entry_at_Some in He as [_ <-].
  split; [by intros p [= <-]|done].
Qed.

Lemma find_log_inv me key w r w' :
  find_log me key w = (Ok r, w') →
  net w' = net w ∧ (∀ p, r = Some p → p = key) ∧ ∃ b t, shards w !! me = Some b ∧ shards w' !! me = Some (set_table_ t b) ∧
    partitions_ t = partitions_ (table_ b).
Proof.
  intros Hf. unfold find_log in Hf. step Hf as b w1 Ha. apply ask_inv in Ha as (-> & b0 & Hb & ->). cbn [id] in Hf.
  step Hf as [r0 t] w3 Ht. injection Ht as Ht <-. step Hf as u w2 Hu. injection Hf as <- <-.
  unfold update in Hu. rewrite Hb in Hu. injection Hu as <- <-. split; [done|].
  apply find_partition_log_inv in Ht as [Hr Hp].
  split; [done|]. exists b0, t. split_and!; [done| |done]. cbn. by rewrite list_lookup_insert_eq by (by eapply lookup_lt_Some).
Qed.

Lemma on_log_net {A} me p (m : IO World A) w r w' : on_log me p m w = (r, w') → net w' = net w.
Proof.
  unfold on_log. destruct (shards w !! me) as [b|]; [|by intros [= <- <-]]. destruct (log_of p (table_ b)) as [log|]; [|by intros [= <- <-]].
  destruct (m (log, disk w)) as [r' [log' d']]. by intros [= <- <-].
Qed.

Lemma after_replication_net me partition f w w' : after_replication me partition f w = (Ok tt, w') → net w' = net w.
Proof.
  intros Hr. unfold after_replication in Hr. step Hr as log w1 Hl. apply find_log_inv in Hl as (<- & _).
  destruct log; [by eapply on_log_net|]. by injection Hr as <-.
Qed.
End looking.

(** ** What the followers have been told *)

(** [Told me address request w]: a fact about the surroundings in [w] that a
    successful answer to a replica append establishes, and that nothing
    undoes. *)
Section told.
Context `{Crc32Intrinsics} `{Storage} {Reactor0 : Reactor}.
Context (Told : nat → cstring → bytes → Node Net → Prop).
Hypothesis told_net : ∀ o a request w w', net w' = net w → Told o a request w → Told o a request w'.
Hypothesis told_forward : ∀ o a request o' a' rpc payload w,
  Told o a request w → Told o a request (snd (mercury_forward o' a' rpc payload w)).
Hypothesis told_deadline : ∀ o a request o' ms w, Told o a request w → Told o a request (snd (deadline_passed o' ms w)).
Hypothesis told_answer : ∀ o a request response w w',
  mercury_forward o a (str "replica_append") request w = (Ok response, w') → decode_payload read_int16 response = Ok 0 →
  Told o a request w'.

Lemma send_inv o request a w r w' :
  send_replica_append o request a w = (r, w') → w' = snd (mercury_forward o a (str "replica_append") request w) ∧
    (r = Ok tt → Told o a request w').
Proof.
  unfold send_replica_append, mbind at 1, IO_bind at 1.
  destruct (mercury_forward o a (str "replica_append") request w) as [[response|e] w1] eqn:Hf; [|by intros [= <- <-]].
  unfold mbind, IO_bind, lift. destruct (decode_payload read_int16 response) as [code|e] eqn:Hd; [|by intros [= <- <-]].
  destruct (Z.eqb_spec code 0) as [->|]; cbn; intros [= <- <-]; [|done]. split; [done|]. intros _. by eapply told_answer.
Qed.

Lemma told_others o a request o' request' followers w :
  Told o a request w → Told o a request (snd (when_all_succeed (map (send_replica_append o' request') followers) w)).
Proof.
  revert w. induction followers as [|f followers IH]; intros w Ht; [done|]. cbn [map when_all_succeed]. unfold mbind, IO_bind, attempt.
  destruct (send_replica_append o' request' f w) as [r w1] eqn:Hs. apply send_inv in Hs as [-> _].
  specialize (IH _ (told_forward _ _ _ o' f (str "replica_append") request' w Ht)).
  by destruct (when_all_succeed _ _) as [r2 w2].
Qed.

Lemma all_told o request followers w w' :
  when_all_succeed (map (send_replica_append o request) followers) w = (Ok tt, w') → Forall (λ a, Told o a request w') followers.
Proof.
  revert w. induction followers as [|f followers IH]; intros w Ha; [done|]. cbn [map when_all_succeed] in Ha.
  unfold mbind, IO_bind, attempt in Ha. destruct (send_replica_append o request f w) as [r w1] eqn:Hs.
  pose proof (told_others o f request o request followers w1) as Hkeep.
  destruct (when_all_succeed _ w1) as [r2 w2] eqn:Hw. destruct r as [[]|]; [|done]. injection Ha as -> ->.
  apply send_inv in Hs as [_ Ht]. constructor; [by apply Hkeep, Ht|by eapply IH].
Qed.

(** Who has to be told that [records] are at [base] of a partition. *)
Definition all_followers_told (o : nat) (config : BrokerConfig) (partition : PartitionConfig) (base end_ : Z)
    (records : bytes) (w : Node Net) : Prop :=
  (1 < length (pc_isr partition))%nat → ∃ addresses, isr_followers config (pc_isr partition) = (false, addresses) ∧
    Forall (λ a, ∃ request, encode_replica_append (mkReplicaAppendRequest (pc_topic partition) (pc_partition partition)
      base end_ records) = Ok request ∧ Told o a request w) addresses.

Lemma all_followers_net o config partition base end_ records w w' :
  net w' = net w → all_followers_told o config partition base end_ records w →
  all_followers_told o config partition base end_ records w'.
Proof.
  intros Hn Ht Hl. destruct (Ht Hl) as (addresses & Hi & Ha). exists addresses. split; [done|].
  eapply Forall_impl; [exact Ha|]. intros a (request & He & Hr). exists request. eauto.
Qed.

Lemma replicate_told o partition stub records w w' b :
  shards w !! o = Some b → replicate_to_isr o partition stub records w = (Ok (Ok tt), w') →
  all_followers_told o (bs_config_ b) partition (ppr_base_offset stub) (ppr_log_end_offset stub) records w'.
Proof.
  intros Hb Hr _. unfold replicate_to_isr in Hr. step Hr as replication w1 Hbegin. unfold begin_replication in Hbegin.
  rewrite (io_bind_ok _ _ _ (bs_config_ b) w) in Hbegin by (by apply ask_ok).
  destruct (isr_followers _ _) as [unknown followers] eqn:Hi. exists followers.
  assert (rp_unknown replication = unknown ∧ rp_followers replication = followers ∧
    (followers = [] ∨ encode_replica_append (mkReplicaAppendRequest (pc_topic partition) (pc_partition partition)
      (ppr_base_offset stub) (ppr_log_end_offset stub) records) = Ok (rp_payload replication))) as (Hu & Hf & He).
  { destruct followers as [|f followers]; [injection Hbegin as <- <-; by auto|]. step Hbegin as request w2 He. injection He as He <-.
    injection Hbegin as <- <-. by auto. }
  unfold attempt, replication_future in Hr. rewrite Hu, Hf in Hr. destruct (when_all_succeed _ _) as [r w2] eqn:Hw. injection Hr as -> ->.
  destruct unknown.
  { exfalso. cbn [app when_all_succeed] in Hw. unfold mbind, IO_bind, attempt, fail in Hw. by destruct (when_all_succeed _ _). }
  split; [done|]. cbn [app] in Hw. destruct He as [->|He]; [done|].
  eapply Forall_impl; [by eapply all_told|]. intros a Ha. by exists (rp_payload replication).
Qed.

(** The steps of an append that succeeds: the followers, the own log, the
    high watermark. *)
Definition appended (o : nat) (p : TopicPartition) (partition : PartitionConfig) (records : bytes)
    (stub r : ProducePartitionResult) (w w' : Node Net) : Prop :=
  ∃ w1 w2, (if (1 <? length (pc_isr partition))%nat then replicate_to_isr o partition stub records else mret (Ok tt)) w
      = (Ok (Ok tt), w1) ∧ on_log o p (append records (-1)) w1 = (Ok r, w2) ∧ replicated o partition w2 = (Ok tt, w').

Lemma operation_told o p partition records stub r w w' b :
  shards w !! o = Some b → append_operation o p partition records (-1) stub w = (Ok r, w') → ppr_error_code r = 0 →
  all_followers_told o (bs_config_ b) partition (ppr_base_offset stub) (ppr_log_end_offset stub) records w' ∧
  appended o p partition records stub r w w'.
Proof.
  intros Hb Ha Hr. unfold append_operation in Ha. change (-1 =? -1) with true in Ha. cbv iota in Ha. step Ha as fut w1 Hrep. step Ha as write w2 Hw.
  unfold attempt in Hw. destruct (on_log o p (append records (-1)) w1) as [write0 w2'] eqn:Hon. injection Hw as -> ->.
  step Ha as result w3 Hl. injection Hl as -> <-.
  destruct (Z.eqb_spec (ppr_error_code result) 0) as [Hz|]; cbn [negb] in Ha; [|injection Ha as <- <-; done].
  destruct fut as [[]|e].
  - step Ha as u w4 Hd. injection Ha as <- <-. destruct u. split; [|by exists w1, w2]. apply after_replication_net in Hd. apply on_log_net in Hon as Hn.
    apply (all_followers_net _ _ _ _ _ _ w1); [by rewrite Hd, Hn|].
    destruct (Nat.ltb_spec 1 (length (pc_isr partition))); [by eapply replicate_told|]. intros ?. lia.
  - step Ha as u w4 Hd. injection Ha as <- <-. done.
Qed.

Definition key_of (request : ProducePartitionRequest) : TopicPartition :=
  mkTopicPartition (ppq_topic request) (ppq_partition request).
Definition planned_result (log : PartitionLogShard) (count : Z) : ProducePartitionResult :=
  mkProducePartitionResult (pc_topic (config_ log)) (pc_partition (config_ log)) 0
    (latest (offsets_ log)) (latest (offsets_ log) + count) 0.

(** The shard [o] of [w] serves the request, from [w0] on: the followers are
    told, the log takes the records and answers [r], and the deadline has
    not passed. *)
Definition acknowledged (o : nat) (request : ProducePartitionRequest) (r : ProducePartitionResult) (w w0 w' : Node Net) : Prop :=
  ∃ b log records count, shards w !! o = Some b ∧
    log_of (key_of request) (table_ b) = Some log ∧
    pc_leader (config_ log) = bc_node_id (bs_config_ b) ∧
    rewrite_record_batch_offsets (ppq_records request) (latest (offsets_ log)) = Ok records ∧
    record_count records = Ok count ∧
    all_followers_told o (bs_config_ b) (config_ log) (latest (offsets_ log)) (latest (offsets_ log) + count) records w' ∧
    ∃ w1, appended o (key_of request) (config_ log) records (planned_result log count) r w0 w1 ∧
      (w' = w1 ∨ ∃ wait_ms, deadline_passed o wait_ms w1 = (Ok false, w')).

Lemma append_local_told o request timeout_ms r w w' :
  append_local o request (-1) timeout_ms (key_of request) w = (Ok r, w') →
  ppr_error_code r = 0 → acknowledged o request r w w w'.
Proof.
  intros Ha Hr. unfold append_local in Ha. step Ha as partition w1 Hp. apply on_log_asks_inv in Hp as (-> & b & log & Hb & Hlog & ->).
  step Ha as config w2 Hc. apply ask_inv in Hc as (-> & b' & Hb' & ->). rewrite Hb in Hb'. injection Hb' as <-.
  destruct (Z.eqb_spec (pc_leader (config_ log)) (bc_node_id (bs_config_ b))) as [Hlead|]; cbn [negb] in Ha; [|by injection Ha as <- <-].
  step Ha as base w3 Hbase. apply on_log_asks_inv in Hbase as (-> & b' & log' & Hb' & Hlog' & ->).
  rewrite Hb in Hb'. injection Hb' as <-. rewrite Hlog in Hlog'. injection Hlog' as <-.
  step Ha as records w4 Hrec. injection Hrec as Hrec <-. step Ha as count w5 Hcnt. injection Hcnt as Hcnt <-.
  step Ha as end_ w6 Hend. unfold checked_i64 in Hend. destruct (_ && _); [|done]. injection Hend as <- <-.
  set (stub := mkProducePartitionResult _ _ _ _ _ _) in Ha.
  assert (∀ w7, with_gate o (append_operation o (key_of request) (config_ log) records (-1) stub) w = (Ok r, w7) →
    all_followers_told o (bs_config_ b) (config_ log) (latest (offsets_ log)) (latest (offsets_ log) + count) records w7 ∧
    appended o (key_of request) (config_ log) records stub r w w7) as Hop.
  { intros w7 Hg. unfold with_gate in Hg. step Hg as closed w8 Hcl. apply ask_inv in Hcl as (-> & _).
    destruct closed; [done|]. by apply (operation_told _ _ _ _ _ _ _ _ _ Hb) in Hg. }
  exists b, log, records, count. destruct (_ <=? 0).
  { apply Hop in Ha as [Ht Hw]. split_and!; try done. exists w'. split; [done|by left]. }
  unfold with_timeout in Ha. step Ha as res w7 Hres. unfold attempt in Hres.
  destruct (with_gate _ _ w) as [res0 w7'] eqn:Hg. injection Hres as -> ->. step Ha as passed w8 Hd.
  destruct passed; [step Ha as u w9 Hu; by injection Ha as <- <-|]. injection Ha as -> ->. destruct (Hop w7 eq_refl) as [Ht Hw].
  split_and!; try done; [|exists w7; split; [done|right; by eexists]]. intros Hlen. destruct (Ht Hlen) as (addresses & Hi & Hall).
  exists addresses. split; [done|]. eapply Forall_impl; [exact Hall|]. intros a (q & He & Hq). exists q. split; [done|].
  apply (told_deadline _ _ _ o (produce_wait_ms (bs_config_ b) timeout_ms)) in Hq. by rewrite Hd in Hq.
Qed.

Lemma append_told hops me request timeout_ms r w w' :
  BrokerShard_append hops me request (-1) timeout_ms w = (Ok r, w') → ppr_error_code r = 0 →
  ∃ o w0, find_log o (key_of request) w = (Ok (Some (key_of request)), w0) ∧ acknowledged o request r w w0 w'.
Proof.
  revert me. induction hops as [|hops IH]; intros me Ha Hr; [done|]. cbn [BrokerShard_append] in Ha. step Ha as owner w1 Ho.
  apply ask_inv in Ho as (-> & b & Hb & _).
  assert (∀ w0, (count me produce_errors_;; mret (missing_produce_result (ppq_topic request) (ppq_partition request))) w0 ≠ (Ok r, w')) as Hmiss.
  { intros w0 Hm. step Hm as u w1 Hu. by injection Hm as <- <-. }
  destruct owner as [owner|]; [|by apply Hmiss in Ha]. destruct (negb _).
  - unfold invoke_on in Ha. step Ha as peers w1 Hp. apply ask_inv in Hp as (-> & _). destruct peers; [|done]. by eapply IH.
  - step Ha as log w1 Hf. destruct log as [p|]; [|by apply Hmiss in Ha].
    apply find_log_inv in Hf as Hi. destruct Hi as (Hn & Hp & b0 & t & Hb0 & Hb1 & Ht).
    rewrite (Hp p eq_refl) in Ha, Hf. exists me, w1. split; [done|].
    apply append_local_told in Ha as (b' & log & records & count & Hb' & Hlog & H1 & H2 & H3 & H4 & H5); [|done].
    rewrite Hb1 in Hb'. injection Hb' as <-. exists b0, log, records, count. split_and!; try done.
    revert Hlog. unfold log_of. cbn. by rewrite Ht.
Qed.
End told.

(** ** Surroundings that keep a record *)

(** A call of [mercury_forward] and its answer. *)
Record Forwarded := mkForwarded {
  fw_shard : nat;
  fw_address : cstring;
  fw_rpc : cstring;
  fw_payload : bytes;
  fw_answer : result bytes;
}.

Section recording.
Context `{Crc32Intrinsics} `{Storage} (Around : Reactor).
Abbreviation record w := (snd (net w)).

Definition inside {A} (m : IO (Node (@Net _ Around)) A) : IO (Node (@Net _ Around * list Forwarded)) A := λ w,
  let '(r, n) := m (mkNode (shards w) (disk w) (fst (net w))) in (r, mkNode (shards n) (disk n) (net n, record w)).
Definition recorded (me : nat) (address rpc : cstring) (payload : bytes) : IO (Node (@Net _ Around * list Forwarded)) bytes := λ w,
  let '(answer, n) := inside (mercury_forward me address rpc payload) w in
  (answer, mkNode (shards n) (disk n) (fst (net n), record n ++ [mkForwarded me address rpc payload answer])).

Definition recording : Reactor := {|
  Net := @Net _ Around * list Forwarded;
  mercury_start me address listens := inside (mercury_start me address listens);
  mercury_stop me := inside (mercury_stop me);
  mercury_forward := recorded;
  listen me address port := inside (listen me address port);
  sleep_ms me ms := inside (sleep_ms me ms);
  deadline_passed me ms := inside (deadline_passed me ms);
  socket_write me frame := inside (socket_write me frame);
|}.
#[local] Existing Instance recording.

Lemma inside_record {A} (m : IO (Node (@Net _ Around)) A) w : record (snd (inside m w)) = record w.
Proof. unfold inside. by destruct (m _). Qed.

(** The follower at [address] has acknowledged [request]. *)
Definition confirmed (me : nat) (address : cstring) (request : bytes) (w : Node (@Net _ recording)) : Prop :=
  ∃ response, mkForwarded me address (str "replica_append") request (Ok response) ∈ record w ∧
    decode_payload read_int16 response = Ok 0.

(** C3: an acknowledgement is never ahead of the replicas.  Whatever the
    surroundings of the broker do -- any network, clock and disk, calls that
    fail, answer anything or change the whole node meanwhile -- when a
    produce request with acks -1 succeeds, then it was served by a shard whose
    log leads the partition; every member of the in-sync set is configured;
    each follower among them was sent, during this very request, a replica
    append of exactly the rewritten record set at the leader's log end, and has
    answered it with error code 0; the leader's own log took the record set
    and gave the offsets of the answer; the high watermark was advanced after
    all of this; and the deadline had not passed. *)
Theorem acks_all_honest hops me request timeout_ms r ss d n w' :
  let w := mkNode ss d (n, []) in
  BrokerShard_append hops me request (-1) timeout_ms w = (Ok r, w') → ppr_error_code r = 0 →
  ∃ o w0, find_log o (key_of request) w = (Ok (Some (key_of request)), w0) ∧ acknowledged confirmed o request r w w0 w'.
Proof.
  intros w Ha Hr. eapply append_told; [..|exact Ha|exact Hr]; unfold confirmed.
  - intros o a q w1 w2 ->. done.
  - intros o a q o' a' rpc payload w1 (response & Hin & Hd). exists response. split; [|done]. cbn. unfold recorded.
    pose proof (inside_record (mercury_forward o' a' rpc payload) w1) as Hrec. destruct (inside _ w1) as [answer n1]. cbn in *.
    rewrite Hrec, elem_of_app. by left.
  - intros o a q o' ms w1 (response & Hin & Hd). exists response. split; [|done]. cbn. by rewrite inside_record.
  - intros o a q response w1 w2 Hf Hd. exists response. split; [|done]. cbn in Hf. unfold recorded in Hf.
    destruct (inside _ w1) as [answer n1]. injection Hf as -> <-. cbn. rewrite elem_of_app. right. by apply list_elem_of_singleton.
Qed.
End recording.

(** The leader of the pair, with its follower. *)
Definition recorded_pair : @Node memory_disk (@Net _ (recording (cluster false))) :=
  mkNode [pair_shard 1] pair_disk ({[str "m2" := pair_peer]}, []).
Definition recorded_run := BrokerShard_append (Reactor0 := recording (cluster false)) kHops 0 pair_request (-1) 0 recorded_pair.
Definition pair_answer : ProducePartitionResult := mkProducePartitionResult (str "orders") 0 0 0 3 0.

Lemma acks_all_honest_witness :
  fst recorded_run = Ok pair_answer ∧
  ∃ o w0, find_log (Reactor0 := recording (cluster false)) o (key_of pair_request) recorded_pair = (Ok (Some (key_of pair_request)), w0) ∧
    acknowledged (Reactor0 := recording (cluster false)) (confirmed (cluster false)) o pair_request pair_answer recorded_pair w0 (snd recorded_run).
Proof.
  assert (fst recorded_run = Ok pair_answer) as Hr by (vm_compute; reflexivity). split; [exact Hr|].
  apply (acks_all_honest (cluster false) kHops 0 pair_request 0 pair_answer [pair_shard 1] pair_disk {[str "m2" := pair_peer]} (snd recorded_run)).
  - change (recorded_run = (Ok pair_answer, snd recorded_run)). rewrite <- Hr. apply surjective_pairing.
  - reflexivity.
Defined.
