(* ===== verification/CatchUp.v ===== *)
(** * Follower catch-up

    A follower that fell behind fetches from the leader what it lacks and
    appends it.  One round fetches several record sets of the leader and
    appends their bytes as one, so follower and leader agree on bytes and
    offsets but not on the division into record sets; [replica_of] is that
    relation.

    The theorems: a round keeps the relation, never touches the leader, and
    makes progress; rounds reach the leader's end; and the relation is lost
    on record sets that are not batches. *)

From Stdlib Require Import ZArith Lia.
From stdpp Require Import base tactics numbers option sorting sets gmap functions list.
From S2P Require Import Prelude Wire Protocol Codec Crc32c RecordBatch Config Detail Storage PartitionLog KafkaProtocol PartitionTable BrokerShard.
From S2P Require Import LogLayout LogRep LogAppend LogRead LogRecovery LogDurable BrokerRep BrokerRouting Replication.

Local Open Scope Z_scope.

(** ** Record sets of whole batches *)

(** A record set as producers send it: whole batches, at least one. *)
Definition batches (b : bytes) : Prop :=
  ∃ bs, b = concat bs ∧ bs ≠ [] ∧ Forall batch_ok bs ∧ zlen b < 2 ^ 31.

Lemma batches_rs_ok b : batches b → rs_ok b.
Proof.
  intros (bs & -> & Hne & Hok & Hlen). split; [|done]. destruct bs as [|b bs]; [done|]. cbn [concat].
  apply Forall_cons in Hok as [[Hb _] _]. intros E. apply (f_equal zlen) in E. rewrite zlen_app in E.
  pose proof (zlen_nonneg (concat bs)). change (zlen (@nil byte)) with 0 in E. lia.
Qed.

Lemma total_count_pos bs : bs ≠ [] → 1 <= total_count bs.
Proof.
  destruct bs as [|b bs]; [done|]. intros _. pose proof (total_count_nonneg bs). unfold total_count in *. cbn [foldr].
  pose proof (Z.le_max_l 1 (last_offset_delta b + 1)). unfold batch_count at 1. lia.
Qed.

Lemma cnt_batches bs : bs ≠ [] → Forall batch_ok bs → zlen (concat bs) < 2 ^ 31 → cnt (concat bs) = total_count bs.
Proof.
  intros Hne Hok Hl. pose proof (total_count_pos bs Hne) as Hpos.
  assert (concat bs ≠ []) as Hc by (apply (batches_rs_ok (concat bs)); by exists bs).
  pose proof (estimate_batches bs [] Hok ltac:(by left) ltac:(by rewrite app_nil_r)) as He. rewrite app_nil_r in He.
  unfold cnt, record_count. rewrite He. destruct (concat bs) as [|x r] eqn:E; [done|]. simpl Nat.eqb. cbv iota.
  by destruct (Z.eqb_spec (total_count bs) 0); [lia|].
Qed.

Lemma total_count_app bs1 bs2 : total_count (bs1 ++ bs2) = total_count bs1 + total_count bs2.
Proof. induction bs1 as [|b bs1 IH]; [done|]. unfold total_count in *. cbn [app foldr]. rewrite IH. lia. Qed.

(** Record sets of batches count the same one by one and together. *)
Lemma cnt_concat M :
  M ≠ [] → Forall batches M → zlen (concat M) < 2 ^ 31 → cnt (concat M) = log_end M ∧ batches (concat M).
Proof.
  intros Hne HM Hl.
  assert (∃ bs, concat M = concat bs ∧ bs ≠ [] ∧ Forall batch_ok bs ∧ log_end M = total_count bs) as (bs & E & Hb & Hok & Ht).
  { clear Hl. revert Hne. induction HM as [|b M (bs & -> & Hb & Hok & Hl) HM IH]; [done|]. intros _.
    destruct M as [|b' M].
    - exists bs. cbn [concat log_end]. rewrite app_nil_r, cnt_batches by done. split_and!; [done..|lia].
    - destruct IH as (bs' & E & Hb' & Hok' & Ht); [done|]. exists (bs ++ bs'). split_and!.
      + rewrite concat_app, <- E. done.
      + by destruct bs.
      + by apply Forall_app.
      + cbn [log_end] in *. rewrite Ht, total_count_app, cnt_batches by done. done. }
  rewrite E in Hl. rewrite E, Ht. split; [by apply cnt_batches|]. by exists bs.
Qed.

(** ** The relation between follower and leader *)

(** The follower's log [Lf] is a prefix [L1] of the leader's, up to the
    division into record sets; [L2] is what it lacks. *)
Definition replica_of (Lf L1 : list bytes) : Prop :=
  concat Lf = concat L1 ∧ log_end Lf = log_end L1 ∧ (length Lf <= length L1)%nat.

(** What a fetch at the end of [L1] selects comes right after it. *)
Lemma selects_after L1 L2 M limit :
  Forall rs_ok (L1 ++ L2) → selects (L1 ++ L2) M (log_end L1) (log_end (L1 ++ L2)) limit →
  ∃ rest, L2 = M ++ rest.
Proof.
  intros Hok (K1 & K2 & E & Hle & Hat & _).
  assert (Forall rs_ok K1 ∧ Forall rs_ok (M ++ K2)) as [HK1 HMK] by (rewrite E in Hok; by apply Forall_app in Hok).
  apply Forall_app in Hok as [HL1 HL2].
  assert (K1 = L1 ∧ M ++ K2 = L2) as [-> <-]; [|by exists K2].
  revert K1 E Hle Hat HK1. induction HL1 as [|b L1 Hb HL1 IH]; intros K1 E Hle Hat HK1.
  - destruct K1 as [|k K1]; [done|]. apply Forall_cons in HK1 as [Hk HK1]. pose proof (cnt_pos k Hk).
    pose proof (log_end_nonneg K1 HK1). cbn [log_end] in Hle. lia.
  - destruct K1 as [|k K1].
    + cbn [app] in E. specialize (Hat b (L1 ++ L2) (eq_sym E)). pose proof (log_end_nonneg L1 HL1). cbn [log_end] in *. lia.
    + cbn [app] in E. injection E as <- E. apply Forall_cons in HK1 as [_ HK1]. cbn [log_end] in *.
      destruct (IH K1 E) as [-> ?]; [lia|intros x rest Hx; specialize (Hat x rest Hx); lia|done|]. done.
Qed.

Lemma replica_of_step Lf L1 M :
  replica_of Lf L1 → M ≠ [] → Forall batches M → zlen (concat M) < 2 ^ 31 → replica_of (Lf ++ [concat M]) (L1 ++ M).
Proof.
  intros (Hc & He & Hl) Hne HM Hlen. destruct (cnt_concat M Hne HM Hlen) as [Hcnt _].
  split_and!.
  - rewrite !concat_app, Hc. cbn [concat]. by rewrite app_nil_r.
  - rewrite !log_end_app, He. cbn [log_end]. rewrite Hcnt. lia.
  - rewrite !length_app. simpl. destruct M; [done|]. simpl. lia.
Qed.

(** ** The leader, as a peer *)

Section leader_peer.
Context `{Crc32Intrinsics} {St : Storage} {Laws : StorageLaws}.
#[local] Existing Instance isolated.

(** [peer] leads the partition with the log [ll] that holds [L]. *)
Definition peer_leads (peer : Peer) (topic : cstring) (partition : Z) (o : nat) (ll : PartitionLogShard)
    (L : list bytes) : Prop :=
  agreed peer topic partition o ∧ knows peer 0 topic partition = true ∧ knows peer o topic partition = true ∧
  log_at peer o (mkTopicPartition topic partition) ll ∧ log_holds ll (disk peer) L ∧
  in_u 32 (pc_max_frame_bytes (config_ ll)) ∧
  ∃ b, shards peer !! o = Some b ∧ pc_leader (config_ ll) = bc_node_id (bs_config_ b).

Lemma concat_selected L M offset visible limit :
  Forall rs_ok L → selects L M offset visible limit → limit < 2 ^ 31 → zlen (concat M) < 2 ^ 31.
Proof.
  intros Hok (K1 & K2 & -> & _ & _ & _ & Hsz & _) Hlim. apply Forall_app in Hok as [_ [HM _]%Forall_app].
  destruct Hsz as [?|Hlen]; [lia|]. destruct M as [|b [|b' M]]; [done| |simpl in Hlen; lia].
  cbn [concat]. rewrite app_nil_r. apply Forall_cons in HM as [[_ ?] _]. done.
Qed.

Lemma on_replica_fetch_ok peer o ll L q :
  peer_leads peer (rfq_topic q) (rfq_partition q) o ll L → replica_fetch_wf q → 0 < rfq_max_bytes q →
  0 <= rfq_offset q <= log_end L →
  ∃ peer' ll' M, on_replica_fetch 0 (enc_replica_fetch q) peer
      = (Ok (enc_replica_fetch_result (mkReplicaFetchResult 0 (high_watermark (offsets_ ll)) (log_end L) (concat M))), peer') ∧
    replica_fetch_result_wf (mkReplicaFetchResult 0 (high_watermark (offsets_ ll)) (log_end L) (concat M)) ∧
    peer_leads peer' (rfq_topic q) (rfq_partition q) o ll' L ∧
    offsets_ ll' = offsets_ ll ∧
    selects L M (rfq_offset q) (log_end L) (rfq_max_bytes q) ∧ (M = [] ↔ rfq_offset q = log_end L).
Proof.
  intros (Ha & Hk0 & Hko & Hlog & Hh & Hmax & b & Hb & Hlead) Hwf Hpos Hoff.
  pose proof Hh as ((((HLok & HLz & HLend) & _) & _) & _ & Hlat & Hhw & _). rewrite cu_next_log_end0 in HLend, Hlat.
  unfold on_replica_fetch. destruct (replica_fetch_roundtrip q Hwf) as [_ Hdec].
  rewrite (io_bind_ok _ _ _ q peer) by (unfold lift; by rewrite Hdec).
  assert (∃ b0, shards peer !! 0%nat = Some b0) as [b0 Hb0].
  { unfold knows in Hk0. destruct (shards peer !! 0%nat) as [b0|]; [by exists b0|done]. }
  destruct (fetch_for_replica_routed 0 0 o peer b0 q Hb0 Ha) as (p1 & Hq1 & Hop).
  assert (served peer o (rfq_topic q) (rfq_partition q) = true) as Hserved.
  { unfold served. rewrite Hko. destruct Hlog as (b' & [-> _] & Hm). apply bool_decide_eq_true_2. rewrite Hm. by eexists. }
  unfold destination in Hop. rewrite Hk0, Hserved in Hop. pose proof (quiet_log_at _ _ _ _ _ Hq1 Hlog) as Hlog1.
  destruct (alike_shard _ _ o b (quiet_alike _ _ Hq1) Hb) as (b1 & Hb1 & (Hc1 & _)).
  destruct Hwf as (Hw1 & Hw2 & Hw3 & Hw4).
  destruct (fetch_for_replica_cases ll (disk peer) L (rfq_offset q) (rfq_max_bytes q) Hh Hmax Hw4) as [_ Hfetch].
  destruct (Hfetch Hoff) as (M & c & d' & Hrun & Hh' & Hsel & HM).
  destruct (Z.leb_spec (rfq_max_bytes q) 0); [lia|]. pose proof Hq1 as (Hd1 & _). rewrite <- Hd1 in Hrun.
  destruct (on_log_ok o _ _ p1 ll _ _ d' Hlog1 Hrun) as (p2 & Hon & Hk2 & Hd2 & _ & Hlog2).
  exists p2, (set_segment_cache_ c ll), M.
  assert (replica_fetch_result_wf (mkReplicaFetchResult 0 (high_watermark (offsets_ ll)) (log_end L) (concat M))) as Hres.
  { split_and!; cbn; [done|unfold in_s; lia..|]. eapply concat_selected; [exact HLok|exact Hsel|]. unfold in_s in Hw4. simpl in Hw4. lia. }
  pose proof (alike_trans _ _ _ (quiet_alike _ _ Hq1) (kept_alike _ _ _ _ Hk2)) as Hal.
  split_and!; try done.
  - rewrite (io_bind_ok _ _ _ (mkReplicaFetchResult 0 (high_watermark (offsets_ ll)) (log_end L) (concat M)) p2).
    + unfold lift. by rewrite (proj1 (replica_fetch_response_roundtrip _ Hres)).
    + unfold kHops. rewrite Hop. unfold fetch_for_replica_local.
      rewrite (io_bind_ok _ _ _ (config_ ll) p1) by (by apply on_log_asks).
      rewrite (io_bind_ok _ _ _ (bs_config_ b1) p1) by (by apply ask_ok). rewrite Hc1, <- Hlead, Z.eqb_refl. exact Hon.
  - split_and!; [by eapply agreed_alike|by eapply knows_alike|by eapply knows_alike|exact Hlog2|by rewrite Hd2|exact Hmax|].
    destruct (alike_shard _ _ o b Hal Hb) as (b2 & Hb2 & (Hc2 & _)). exists b2. by rewrite Hc2.
Qed.
End leader_peer.

(** ** The follower *)

Section follower_node.
Context `{Crc32Intrinsics} {St : Storage} {Laws : StorageLaws} (late : bool).
#[local] Instance follower_reactor : Reactor := cluster late.

(** Shard [me] of the node [w] follows the partition of [lf].  Its log [Lf]
    replicates [L1], the leader (a peer that is up) holds [L1 ++ L2], and the
    leader's record sets fit the follower's limits. *)
Definition catching (w : Node Net) (me : nat) (lf : PartitionLogShard) (Lf L1 L2 : list bytes) : Prop :=
  let topic := pc_topic (config_ lf) in
  let partition := pc_partition (config_ lf) in
  replicates w me topic partition me lf Lf ∧ replica_of Lf L1 ∧ Forall batches (L1 ++ L2) ∧ Forall (λ r, zlen r <= kReplicaCatchupMaxBytes) (L1 ++ L2) ∧
  kReplicaCatchupMaxBytes <= pc_max_frame_bytes (config_ lf) ∧
  queue_depth_ lf < pc_queue_limit (config_ lf) < 2 ^ 32 ∧ fits16 topic ∧ in_s 32 partition ∧
  ∃ b broker peer o ll, shards w !! me = Some b ∧
    find_broker (bs_config_ b) (pc_leader (config_ lf)) = Some broker ∧
    (net w : gmap cstring Peer) !! be_mercury_address broker = Some peer ∧ peer_leads peer topic partition o ll (L1 ++ L2).

(** The fetch of a round. *)
Lemma fetch_from_leader w me lf Lf L1 L2 :
  catching w me lf Lf L1 L2 →
  let topic := pc_topic (config_ lf) in
  let partition := pc_partition (config_ lf) in
  ∃ w' M rest hw, send_replica_fetch me (pc_leader (config_ lf)) (mkReplicaFetchRequest topic partition
      (latest (offsets_ lf)) kReplicaCatchupMaxBytes) w
      = (Ok (Ok (mkReplicaFetchResult 0 hw (log_end (L1 ++ L2)) (concat M))), w') ∧
    shards w' = shards w ∧ disk w' = disk w ∧ L2 = M ++ rest ∧ (M = [] → L2 = []) ∧
    0 <= hw <= log_end (L1 ++ L2) ∧ log_end (L1 ++ L2) < 2 ^ 63 ∧ zlen (L1 ++ L2) < 2 ^ 31 ∧
    zlen (concat M) <= kReplicaCatchupMaxBytes ∧ catching w' me lf Lf L1 L2.
Proof.
  intros (Hrepl & Hrep & Hbat & Hsz & Hmax & Hq & Ht & Hp & b & broker & peer & o & ll & Hb & Hfind & Hpeer & Hleads)
    topic partition. pose proof Hrepl as (_ & _ & _ & _ & Hh & _).
  pose proof Hleads as (_ & _ & _ & _ & Hhl & _). pose proof Hhl as ((((HLok & HLz & HLend) & _) & _) & _ & Hlat & Hhw & _).
  rewrite cu_next_log_end0 in HLend, Hlat. pose proof Hh as (_ & _ & Hlatf & _). rewrite cu_next_log_end0 in Hlatf.
  destruct Hrep as (Hcat & Hend & Hlen). pose proof HLok as [HL1 HL2]%Forall_app.
  pose proof (log_end_nonneg L1 HL1) as Hn1. pose proof (log_end_nonneg L2 HL2) as Hn2.
  set (q := mkReplicaFetchRequest topic partition (latest (offsets_ lf)) kReplicaCatchupMaxBytes).
  assert (rfq_offset q = log_end L1) as Hoff by (cbn; lia).
  assert (replica_fetch_wf q) as Hwf.
  { split_and!; try done. rewrite Hoff. rewrite log_end_app in HLend. unfold in_s. simpl. lia. }
  destruct (on_replica_fetch_ok peer o ll (L1 ++ L2) q Hleads Hwf ltac:(done)) as (peer' & ll' & M & Hrun & Hres & Hleads' & Hoff' & Hsel & HM).
  { rewrite Hoff, log_end_app. lia. }
  rewrite Hoff in Hsel, HM. destruct (selects_after L1 L2 M _ HLok Hsel) as [rest Hrest].
  pose proof (deliver_ok (be_mercury_address broker) (str "replica_fetch") (enc_replica_fetch q) w peer _ _ peer' Hpeer
    handler_replica_fetch Hrun) as Hdel.
  set (w' := mkNode (shards w) (disk w) (<[be_mercury_address broker := peer']> (net w)) : Node Net).
  exists w', M, rest, (high_watermark (offsets_ ll)). split_and!; try done; try lia.
  - unfold send_replica_fetch. rewrite (io_bind_ok _ _ _ (bs_config_ b) w) by (by apply ask_ok). rewrite Hfind.
    rewrite (io_bind_ok _ _ _ (enc_replica_fetch q) w) by (unfold lift; by rewrite (encode_replica_fetch_enc q Hwf)).
    unfold attempt. rewrite (io_bind_ok _ _ _ (enc_replica_fetch_result (mkReplicaFetchResult 0
      (high_watermark (offsets_ ll)) (log_end (L1 ++ L2)) (concat M))) w') by exact Hdel.
    unfold lift. by rewrite (proj2 (replica_fetch_response_roundtrip _ Hres)).
  - intros ->. assert (log_end L1 = log_end (L1 ++ L2)) as E by by apply HM. rewrite log_end_app in E.
    destruct L2 as [|r L2]; [done|]. apply Forall_cons in HL2 as [Hr HL2]. pose proof (cnt_pos r Hr).
    pose proof (log_end_nonneg L2 HL2). cbn [log_end] in E. lia.
  - destruct Hsel as (K1 & K2 & E & _ & _ & _ & [?|Hone] & _); [done|].
    destruct M as [|r [|r' M]]; [vm_compute; congruence| |simpl in Hone; lia]. cbn [concat]. rewrite app_nil_r.
    apply Forall_app in Hsz as [_ Hsz]. rewrite Hrest in Hsz. by apply Forall_cons in Hsz as [? _].
  - refine (conj Hrepl (conj (conj Hcat (conj Hend Hlen)) (conj Hbat (conj Hsz (conj Hmax (conj Hq (conj Ht (conj Hp _)))))))).
    exists b, broker, peer', o, ll'. split_and!; try done. apply (lookup_insert_eq (M := gmap cstring)).
Qed.

(** The state after any change of the follower's own log. *)
Lemma catching_step w w' me lf lf' Lf Lf' L1 M rest :
  catching w me lf Lf L1 (M ++ rest) → alike w w' → net w' = net w → config_ lf' = config_ lf →
  queue_depth_ lf' = queue_depth_ lf →
  replicates w' me (pc_topic (config_ lf)) (pc_partition (config_ lf)) me lf' Lf' → replica_of Lf' (L1 ++ M) →
  catching w' me lf' Lf' (L1 ++ M) rest.
Proof.
  intros (_ & _ & Hbat & Hsz & Hmax & Hq & Ht & Hp & b & broker & peer & o & ll & Hb & Hfind & Hpeer & Hleads)
    Hal Hn Hc Hqd Hr Hrep. destruct (alike_shard _ _ _ _ Hal Hb) as (b' & Hb' & (Hcfg & _)).
  unfold catching. cbv zeta. rewrite Hc, Hqd, <- app_assoc.
  refine (conj Hr (conj Hrep (conj Hbat (conj Hsz (conj Hmax (conj Hq (conj Ht (conj Hp _)))))))).
  exists b', broker, peer, o, ll. rewrite Hcfg, Hn. by split_and!.
Qed.

(** The fetched bytes can be appended. *)
Lemma fetched_fits w me lf Lf L1 M rest hw :
  catching w me lf Lf L1 (M ++ rest) → M ≠ [] → zlen (concat M) <= kReplicaCatchupMaxBytes →
  log_end (L1 ++ M ++ rest) < 2 ^ 63 → zlen (L1 ++ M ++ rest) < 2 ^ 31 →
  let q := mkReplicaAppendRequest (pc_topic (config_ lf)) (pc_partition (config_ lf)) (latest (offsets_ lf)) hw (concat M) in
  room_for lf Lf (concat M) ∧ append_replica_refusal lf q = None ∧ concat M ≠ [] ∧ cnt (concat M) = log_end M ∧
  replica_of (Lf ++ [concat M]) (L1 ++ M).
Proof.
  intros ((_ & _ & _ & _ & Hh & _) & Hrep & Hbat & _ & Hmax & [Hq1 Hq2] & _) HM Hsz Hend Hlen q.
  apply Forall_app in Hbat as [HbL1 [HbM HbR]%Forall_app].
  assert (zlen (concat M) < 2 ^ 31) as Hsz31 by (unfold kReplicaCatchupMaxBytes in Hsz; lia).
  destruct (cnt_concat M HM HbM Hsz31) as [Hcnt HbatM]. pose proof (batches_rs_ok _ HbatM) as Hrs.
  assert (0 <= log_end rest) as Hrest0 by (apply log_end_nonneg; eapply Forall_impl; [exact HbR|apply batches_rs_ok]).
  pose proof Hrep as (_ & Hle & Hll). pose proof Hh as (_ & _ & Hlat & _). rewrite cu_next_log_end0 in Hlat.
  rewrite !log_end_app in Hend. rewrite !zlen_app in Hlen. split_and!; [| |apply Hrs|done|by apply replica_of_step].
  - split_and!; [exact Hrs| |lia|done]. pose proof (zlen_nonneg rest). unfold zlen in *. destruct M; [done|]. simpl in Hlen. lia.
  - unfold append_replica_refusal. cbn [raq_records raq_base_offset q]. rewrite Z.eqb_refl. cbn [negb].
    rewrite Z.gtb_ltb, Z.geb_leb. destruct (Z.ltb_spec (pc_max_frame_bytes (config_ lf)) (zlen (concat M))); [lia|].
    by destruct (Z.leb_spec (pc_queue_limit (config_ lf)) (queue_depth_ lf)); [lia|].
Qed.

(** The append of a round that fetched something. *)
Lemma append_fetched w me lf Lf L1 M rest hw end_offset :
  catching w me lf Lf L1 (M ++ rest) → M ≠ [] → zlen (concat M) <= kReplicaCatchupMaxBytes →
  0 <= hw → log_end (L1 ++ M ++ rest) < 2 ^ 63 → zlen (L1 ++ M ++ rest) < 2 ^ 31 →
  ∃ w' lf', catch_up_append me (config_ lf) (latest (offsets_ lf)) (mkReplicaFetchResult 0 hw end_offset (concat M)) w = (Ok tt, w') ∧
    catching w' me lf' (Lf ++ [concat M]) (L1 ++ M) rest ∧
    config_ lf' = config_ lf ∧ high_watermark (offsets_ lf') = latest (offsets_ lf').
Proof.
  intros Hcatch HM Hsz Hhw Hend Hlen.
  destruct (fetched_fits w me lf Lf L1 M rest hw Hcatch HM Hsz Hend Hlen) as (Hroom & Hok & Hne & Hcnt & Hrep).
  set (q := mkReplicaAppendRequest (pc_topic (config_ lf)) (pc_partition (config_ lf)) (latest (offsets_ lf)) hw (concat M)) in *.
  destruct (append_replica_taken w me me lf Lf q (proj1 Hcatch) Hroom Hok Hhw)
    as (w2 & l1 & Happ & Hr2 & Hal2 & Hn2 & Ho1 & (Hpl1 & _) & Hqd1 & _).
  pose proof Hr2 as (_ & _ & _ & Hlog2 & Hh2 & _). pose proof Hlog2 as (b2 & Hb2 & _).
  set (end_ := raq_base_offset q + cnt (raq_records q)) in *. set (key := mkTopicPartition (raq_topic q) (raq_partition q)) in *.
  destruct (update_counters me key (bump catchup_records_ (Z.max 0 (end_ - latest (offsets_ lf)))) w2 b2 ltac:(done) Hb2)
    as (w3 & Hbump & Hk3 & Hd3 & Hn3 & _ & Hlog3).
  destruct (after_replication_ok me (config_ lf) (λ log, if latest (offsets_ log) >=? end_
    then mark_replicated_through (latest (offsets_ log)) log else log) w3 l1 (Hlog3 _ Hlog2)) as (w4 & Hafter & Hk4 & Hd4 & Hn4 & Hlog4).
  assert ((latest (offsets_ l1) >=? end_) = true) as Hge by (apply Z.geb_le; rewrite Ho1; cbn; lia).
  cbv beta in Hlog4. rewrite Hge in Hlog4.
  destruct (log_updates_hold l1 (disk w2) (Lf ++ [raq_records q]) (latest (offsets_ l1)) (config_ lf) Hh2) as ((Hmark & _) & _).
  assert (alike w2 w4) as Hal4 by (eapply alike_trans; by eapply kept_alike).
  exists w4, (mark_replicated_through (latest (offsets_ l1)) l1). split_and!; [| |exact Hpl1|].
  - unfold catch_up_append. cbn [rfr_error_code rfr_records rfr_leader_high_watermark].
    rewrite bool_decide_false by exact Hne. change (negb (0 =? 0) || false) with false. cbv iota. fold q.
    rewrite (io_bind_ok _ _ _ _ w2 Happ).
    cbn [ppr_error_code ppr_log_end_offset]. change (negb (0 =? 0)) with false. cbv iota.
    rewrite (io_bind_ok _ _ _ tt w3 Hbump). exact Hafter.
  - eapply (catching_step w w4 me lf); [exact Hcatch|by eapply alike_trans|congruence|exact Hpl1|exact Hqd1| |exact Hrep].
    eapply replicates_step; [exact Hr2|exact Hal4|done|exact Hlog4|]. rewrite Hd4, Hd3. exact Hmark.
  - destruct Hh2 as (_ & _ & _ & Hr & _). cbn. lia.
Qed.

(** A whole round. *)
Lemma catch_up_round w me lf Lf L1 L2 :
  catching w me lf Lf L1 L2 →
  ∃ w' lf' Lf' M rest, catch_up_follower_partition me (config_ lf) w = (Ok tt, w') ∧ L2 = M ++ rest ∧ (M = [] → L2 = []) ∧
    catching w' me lf' Lf' (L1 ++ M) rest ∧ config_ lf' = config_ lf ∧
    (M ≠ [] → high_watermark (offsets_ lf') = latest (offsets_ lf')).
Proof.
  intros Hcatch. pose proof Hcatch as ((Ha & Hk & _ & Hlog & Hh & _) & _).
  destruct (find_log_ok me _ w lf Hlog) as (w1 & Hfind & Hk1 & Hd1 & Hn1 & Hlog1). pose proof Hlog1 as (b1 & Hb1 & _).
  destruct (count_ok me (mkTopicPartition (pc_topic (config_ lf)) (pc_partition (config_ lf))) catchup_attempts_ w1 b1 Hb1)
    as (w2 & Hcount & Hk2 & Hd2 & Hn2 & _ & Hlog2).
  assert (catching w2 me lf Lf L1 L2) as Hc2.
  { rewrite <- (app_nil_r L1). eapply (catching_step w w2 me lf lf Lf Lf L1 [] L2 Hcatch); try done; [| congruence| |].
    - eapply alike_trans; by eapply kept_alike.
    - eapply replicates_step; [exact (proj1 Hcatch)|eapply alike_trans; by eapply kept_alike|done|by apply Hlog2|by rewrite Hd2, Hd1].
    - rewrite app_nil_r. apply Hcatch. }
  destruct (fetch_from_leader w2 me lf Lf L1 L2 Hc2) as (w3 & M & rest & hw & Hfetch & Hs3 & Hd3 & Hrest & HM & Hhw & Hend & Hlen & Hsz & Hc3).
  assert (∀ k, catch_up_follower_partition me (config_ lf) w = k ↔
    catch (catch_up_append me (config_ lf) (latest (offsets_ lf)) (mkReplicaFetchResult 0 hw (log_end (L1 ++ L2)) (concat M)))
      (λ _, count me catchup_errors_) w3 = k) as Hrun.
  { intros k. unfold catch_up_follower_partition. rewrite (io_bind_ok _ _ _ _ w1 Hfind).
    rewrite (io_bind_ok _ _ _ (latest (offsets_ lf)) w1) by (by apply (on_log_asks me _ (λ log, latest (offsets_ log)))).
    rewrite (io_bind_ok _ _ _ tt w2 Hcount), (io_bind_ok _ _ _ _ w3 Hfetch). done. }
  destruct (decide (M = [])) as [->|Hne].
  - exists w3, lf, Lf, [], rest. rewrite app_nil_r. split_and!; try done; [by apply Hrun|]. rewrite (HM eq_refl) in *.
    cbn [app] in Hrest. by rewrite <- Hrest.
  - rewrite Hrest in Hc3, Hend, Hlen.
    destruct (append_fetched w3 me lf Lf L1 M rest hw (log_end (L1 ++ L2)) Hc3 Hne Hsz ltac:(lia) Hend Hlen) as (w4 & lf' & Happ & Hc4 & Hcfg & Hhw4).
    exists w4, lf', (Lf ++ [concat M]), M, rest. split_and!; try done. apply Hrun. unfold catch. by rewrite Happ.
Qed.

(** Successive ticks of the maintenance timer, as far as this partition goes. *)
Fixpoint catch_up_rounds (n : nat) (me : nat) (partition : PartitionConfig) : IO (Node Net) unit :=
  match n with
  | O => mret tt
  | S n' => catch_up_follower_partition me partition;; catch_up_rounds n' me partition
  end.

Lemma catch_up_rounds_ok n w me lf Lf L1 L2 :
  catching w me lf Lf L1 L2 → (length L2 <= n)%nat →
  ∃ w' lf' Lf', catch_up_rounds n me (config_ lf) w = (Ok tt, w') ∧ catching w' me lf' Lf' (L1 ++ L2) [] ∧ config_ lf' = config_ lf.
Proof.
  revert w lf Lf L1 L2. induction n as [|n IH]; intros w lf Lf L1 L2 Hc Hn.
  { destruct L2; [|simpl in Hn; lia]. exists w, lf, Lf. by rewrite app_nil_r. }
  destruct (catch_up_round w me lf Lf L1 L2 Hc) as (w1 & lf1 & Lf1 & M & rest & Hrun & -> & HM & Hc1 & Hcfg1 & _).
  destruct (IH w1 lf1 Lf1 (L1 ++ M) rest Hc1) as (w2 & lf2 & Lf2 & Hrun2 & Hc2 & Hcfg2).
  { destruct M as [|b M]; [specialize (HM eq_refl); cbn [app] in HM; subst rest; simpl; lia|].
    rewrite length_app in Hn. simpl in Hn. lia. }
  exists w2, lf2, Lf2. rewrite <- app_assoc in Hc2. cbn [catch_up_rounds]. rewrite (io_bind_ok _ _ _ tt w1 Hrun), <- Hcfg1.
  split_and!; [done|done|congruence].
Qed.

(** ** Theorems *)

(** C12: catch-up reaches the leader.  A follower whose log is, byte for byte
    and offset for offset, the prefix [L1] of the leader's log [L1 ++ L2] has
    after as many rounds as the leader has record sets left the same bytes
    and the same end offset as the leader, whatever the division into
    fetches; no round fails, none disturbs the leader, and the relation holds
    again, so that later records are caught up the same way.  The leader is up
    and reachable; its record sets are well-formed batches of at most 1 MiB
    each ([kReplicaCatchupMaxBytes]); the follower's [max_frame_bytes] is at
    least that, and its queue has room.  Other record sets are not covered:
    see [catch_up_duplicates]. *)
Theorem catch_up_converges n w me lf Lf L1 L2 :
  catching w me lf Lf L1 L2 → (length L2 <= n)%nat →
  ∃ w' lf' Lf', catch_up_rounds n me (config_ lf) w = (Ok tt, w') ∧
    log_at w' me (mkTopicPartition (pc_topic (config_ lf)) (pc_partition (config_ lf))) lf' ∧
    log_holds lf' (disk w') Lf' ∧ concat Lf' = concat (L1 ++ L2) ∧ latest (offsets_ lf') = log_end (L1 ++ L2) ∧
    catching w' me lf' Lf' (L1 ++ L2) [].
Proof.
  intros Hc Hn. destruct (catch_up_rounds_ok n w me lf Lf L1 L2 Hc Hn) as (w' & lf' & Lf' & Hrun & Hc' & Hcfg).
  pose proof Hc' as ((_ & _ & _ & Hlog & Hh & _) & (Hcat & Hend & _) & _). rewrite Hcfg in Hlog.
  exists w', lf', Lf'. split_and!; try done. pose proof Hh as (_ & _ & Hlat & _). rewrite cu_next_log_end0 in Hlat. congruence.
Qed.

(** One round.  It takes record sets that follow the follower's end on
    the leader, at least one when there are any; afterwards the follower's
    high watermark is its own end, whatever the leader's is. *)
Theorem catch_up_round_progress w me lf Lf L1 L2 :
  catching w me lf Lf L1 L2 → L2 ≠ [] →
  ∃ w' lf' Lf' M rest, catch_up_follower_partition me (config_ lf) w = (Ok tt, w') ∧ L2 = M ++ rest ∧ M ≠ [] ∧
    catching w' me lf' Lf' (L1 ++ M) rest ∧ high_watermark (offsets_ lf') = latest (offsets_ lf').
Proof.
  intros Hc Hne. destruct (catch_up_round w me lf Lf L1 L2 Hc) as (w' & lf' & Lf' & M & rest & Hrun & E & HM & Hc' & _ & Hhw).
  assert (M ≠ []) as HM' by (intros ->; by apply Hne, HM). exists w', lf', Lf', M, rest. split_and!; auto.
Qed.
End follower_node.

(** ** A follower of one leader *)

Definition wide_partition : PartitionConfig :=
  mkPartitionConfig (str "orders") 0 0 [1; 2] [1; 2] Fsync 16 (1024 * 1024) HighWatermark false 1 0 0 (-1).
Definition wide_config (node_id : Z) : BrokerConfig :=
  mkBrokerConfig node_id 1 (str "data") 9642 100 100 1024 (bc_brokers (pair_config 1)) [mkTopicConfig (str "orders") [wide_partition]].
Definition shard_with (node_id : Z) (log : PartitionLogShard) : BrokerShard :=
  mkBrokerShard (wide_config node_id) true (mkPartitionTable [mkPartitionEntry pair_key log] 1 None)
    false true true false true (λ _, 0) [].

(** The partition after its start, and after these appends. *)
Definition wide_world : World := (start wide_partition sample_root 1024 (PartitionLogShard_init, empty_disk)).2.
Fixpoint appended (sets : list bytes) (w : World) : World :=
  match sets with [] => w | b :: sets' => appended sets' (append b 1 w).2 end.

(** A follower without the leader's record sets, and the leader it can
    reach. *)
Definition behind (sets : list bytes) : @Node memory_disk (@Net _ (cluster false)) :=
  let leader := appended sets wide_world in
  mkNode [shard_with 2 wide_world.1] wide_world.2 {[str "m1" := mkNode [shard_with 1 leader.1] leader.2 tt : Peer]}.

Lemma one_shard {Re : Reactor} (w : Node Net) n log :
  shards w = [shard_with n log] →
  agreed w (str "orders") 0 0 ∧ knows w 0 (str "orders") 0 = true ∧ log_at w 0 pair_key log.
Proof.
  intros Hs. assert (sorted_table (table_ (shard_with n log))) as Hsort by (split; [repeat constructor|done]). split_and!.
  - split; [rewrite Hs; simpl; lia|]. intros i b Hb. rewrite Hs in Hb. apply list_lookup_singleton_Some in Hb as [-> <-].
    split_and!; [done|done|]. right. reflexivity.
  - unfold knows. rewrite Hs. reflexivity.
  - exists (shard_with n log). split; [split; [by rewrite Hs|done]|]. reflexivity.
Qed.

Lemma wide_holds : log_holds wide_world.1 wide_world.2 [] ∧ config_ wide_world.1 = wide_partition ∧
  offsets_ wide_world.1 = mkPartitionOffsets 0 0 0 ∧ queue_depth_ wide_world.1 = 0.
Proof. exact (started_holds wide_partition ltac:(done)). Qed.

Lemma wide_append : let leader := appended [pair_records] wide_world in
  log_holds leader.1 leader.2 [pair_records] ∧ config_ leader.1 = wide_partition.
Proof.
  destruct wide_holds as (Hh & Hc & Ho & Hq). cbn [appended]. destruct wide_world as [l d] eqn:Ew. cbn [fst snd] in *.
  destruct (append_accepted l d [] pair_records 1 Hh) as (l' & d' & -> & Hh' & _ & _ & (Hc' & _) & _).
  - unfold room_for. rewrite Hc, Ho. split_and!; [split; [vm_compute; congruence|vm_compute; reflexivity]|vm_compute; reflexivity..].
  - unfold append_refusal. rewrite Hc, Hq. vm_compute. reflexivity.
  - split; [exact Hh'|]. cbn [fst snd]. by rewrite Hc'.
Qed.

Lemma pair_records_batches : batches pair_records.
Proof.
  exists [pair_records]. split_and!; [by rewrite concat_cons, app_nil_r|done| |vm_compute; reflexivity].
  constructor; [|done]. split; [vm_compute; split; congruence|vm_compute; reflexivity].
Qed.

Lemma behind_catching : catching false (behind [pair_records]) 0 wide_world.1 [] [] [pair_records].
Proof.
  destruct wide_holds as (Hh & Hc & Ho & Hq). destruct wide_append as (Hhl & Hcl).
  destruct (one_shard (Re := cluster false) (behind [pair_records]) 2 wide_world.1 eq_refl) as (Ha & Hk & Hlog).
  unfold catching. rewrite Hc, Hq. cbv zeta.
  refine (conj (conj Ha (conj Hk (conj Hk (conj Hlog (conj Hh _))))) (conj _ (conj _ (conj _ (conj _ (conj _ (conj _ (conj _ _)))))))).
  - exists (shard_with 2 wide_world.1). rewrite Hc. split; reflexivity.
  - by split_and!.
  - constructor; [apply pair_records_batches|done].
  - constructor; [vm_compute; congruence|done].
  - vm_compute. congruence.
  - vm_compute. split; congruence.
  - vm_compute. congruence.
  - vm_compute. split; congruence.
  - exists (shard_with 2 wide_world.1), (mkBrokerEndpoint 1 (str "host1") 9092 (str "m1")),
      (mkNode [shard_with 1 (appended [pair_records] wide_world).1] (appended [pair_records] wide_world).2 tt),
      0%nat, (appended [pair_records] wide_world).1.
    destruct (one_shard (Re := isolated) (mkNode [shard_with 1 (appended [pair_records] wide_world).1]
      (appended [pair_records] wide_world).2 tt) 1 _ eq_refl) as (Ha' & Hk' & Hlog').
    refine (conj eq_refl (conj eq_refl (conj eq_refl (conj Ha' (conj Hk' (conj Hk' (conj Hlog' (conj Hhl (conj _ _))))))))).
    + rewrite Hcl. vm_compute. split; congruence.
    + eexists. rewrite Hcl. split; reflexivity.
Qed.

Lemma catch_up_converges_witness :
  ∃ w' lf' Lf', catch_up_rounds false 1 0 wide_partition (behind [pair_records]) = (Ok tt, w') ∧
    log_holds lf' (disk w') Lf' ∧ concat Lf' = pair_records ∧ latest (offsets_ lf') = 3.
Proof.
  destruct (catch_up_converges false 1 _ 0 _ _ _ _ behind_catching ltac:(simpl; lia)) as (w' & lf' & Lf' & Hrun & _ & Hh & Hcat & Hlat & _).
  exists w', lf', Lf'. rewrite (proj1 (proj2 wide_holds)) in Hrun. split_and!; [exact Hrun|exact Hh| |].
  - rewrite Hcat. cbn [app concat]. by rewrite app_nil_r.
  - rewrite Hlat. cbn [app log_end]. rewrite pair_count. reflexivity.
Defined.

Lemma catch_up_round_progress_witness :
  ∃ w' lf', catch_up_follower_partition (Reactor0 := cluster false) 0 wide_partition (behind [pair_records]) = (Ok tt, w') ∧
    high_watermark (offsets_ lf') = latest (offsets_ lf').
Proof.
  destruct (catch_up_round_progress false _ 0 _ _ _ _ behind_catching ltac:(done)) as (w' & lf' & Lf' & M & rest & Hrun & _ & _ & _ & Hhw).
  exists w', lf'. rewrite (proj1 (proj2 wide_holds)) in Hrun. split; [exact Hrun|exact Hhw].
Defined.

(** On record sets that are not batches the relation is lost.  A leader
    accepts two one-byte record sets, counted as one record each; the
    follower fetches both at once, appends the two bytes as one record set
    and counts one record, so that its next round fetches the second set
    again: after two rounds its log ends where the leader's does with one
    byte too many. *)
Theorem catch_up_duplicates :
  let node := behind [[Byte.x01]; [Byte.x02]] in
  let after n := (catch_up_rounds false n 0 wide_partition node).2 in
  let log n := match shards (after n) !! 0%nat with Some b => log_of pair_key (table_ b) | None => None end in
  let records n := match log n with
    | Some l => match fetch 0 0 (l, disk (after n)) with (Ok r, _) => fpr_records r | _ => [] end
    | None => []
    end in
  (latest (offsets_ (appended [[Byte.x01]; [Byte.x02]] wide_world).1) = 2) ∧
  (latest ∘ offsets_ <$> log 1%nat = Some 1 ∧ records 1%nat = [Byte.x01; Byte.x02]) ∧
  (latest ∘ offsets_ <$> log 2%nat = Some 2 ∧ records 2%nat = [Byte.x01; Byte.x02; Byte.x02]).
Proof. vm_compute. repeat split; reflexivity. Qed.
