(* ===== verification/Connection.v ===== *)
(** * The Kafka connection loop

    [handle_connection] against a reference: the input is cut into frames by
    their length prefixes ([framed]), and the requests are served one after
    the other ([serve]).  The loop ends with the connection, at the first
    length that is not acceptable, at the first request that throws, or when
    the shard stops. *)

From Stdlib Require Import ZArith Lia.
From stdpp Require Import base tactics numbers option sorting sets gmap functions list.
From S2P Require Import Prelude Wire Protocol Codec Crc32c RecordBatch Config Detail Storage PartitionLog KafkaProtocol PartitionTable BrokerShard.
From S2P Require Import LogRep BrokerRep.

Local Open Scope Z_scope.

(** ** Reference *)

(** What no frame starts with: too few bytes, a length out of range, or less
    than a whole frame. *)
Inductive ends : bytes → Prop :=
  | ends_short input : (length input < 4)%nat → ends input
  | ends_length b0 b1 b2 b3 input :
      decode_frame_size b0 b1 b2 b3 <= 0 ∨ kMaxKafkaFrameBytes < decode_frame_size b0 b1 b2 b3 →
      ends (b0 :: b1 :: b2 :: b3 :: input)
  | ends_truncated b0 b1 b2 b3 input :
      zlen input < decode_frame_size b0 b1 b2 b3 → ends (b0 :: b1 :: b2 :: b3 :: input).

Inductive framed : bytes → list bytes → Prop :=
  | framed_end input : ends input → framed input []
  | framed_frame b0 b1 b2 b3 payload input payloads :
      decode_frame_size b0 b1 b2 b3 = zlen payload → 0 < zlen payload <= kMaxKafkaFrameBytes →
      framed input payloads → framed (b0 :: b1 :: b2 :: b3 :: payload ++ input) (payload :: payloads).

(** A frame as a client sends it. *)
Definition client_frame (payload : bytes) : bytes := be_bytes 4 (zlen payload) ++ payload.

Section connection.
Context `{Crc32Intrinsics} {St : Storage} {Reactor0 : Reactor}.

(** One request: whether to go on. *)
Definition serve_one (me : nat) (payload : bytes) : IO (Node Net) bool :=
  catch (
    response ← handle_kafka_frame me payload;
    match response with
    | None => mret true
    | Some response => socket_write me response;; mret true
    end) (λ _, mret false).

Fixpoint serve (me : nat) (payloads : list bytes) : IO (Node Net) unit :=
  stopping ← ask me stopping_;
  match payloads with
  | payload :: payloads' =>
      if stopping : bool then mret tt
      else
        continue ← serve_one me payload;
        if continue : bool then serve me payloads' else mret tt
  | [] => mret tt
  end.

(** ** Lemmas *)

(** Every input is cut in one way, into at most as many frames as bytes. *)
Lemma framed_total input : ∃ payloads, framed input payloads ∧ (length payloads <= length input)%nat.
Proof.
  remember (length input) as n eqn:Hn. revert input Hn. induction (lt_wf n) as [n _ IH]. intros input ->.
  destruct input as [|b0 [|b1 [|b2 [|b3 input]]]]; try (exists []; split; [by apply framed_end, ends_short; simpl; lia|simpl; lia]).
  set (size := decode_frame_size b0 b1 b2 b3).
  destruct (decide (size <= 0 ∨ kMaxKafkaFrameBytes < size)) as [Hbad|Hsize].
  { exists []. split; [by apply framed_end, ends_length|simpl; lia]. }
  destruct (decide (zlen input < size)) as [Hshort|Hfull].
  { exists []. split; [by apply framed_end, ends_truncated|simpl; lia]. }
  assert (zlen (take (Z.to_nat size) input) = size) as Hlen.
  { unfold zlen in *. rewrite length_take. lia. }
  destruct (IH (length (drop (Z.to_nat size) input))) with (input := drop (Z.to_nat size) input) as (ps & Hps & Hl); [|done|].
  { rewrite length_drop. simpl. lia. }
  exists (take (Z.to_nat size) input :: ps). split; [|rewrite length_drop in Hl; simpl; lia].
  rewrite <- (take_drop (Z.to_nat size) input) at 1. apply framed_frame; [by rewrite Hlen|rewrite Hlen; lia|done].
Qed.

Lemma connection_ends n me input w : ends input → handle_connection (S n) me input w = serve me [] w.
Proof.
  intros He. cbn [handle_connection serve]. unfold mbind, IO_bind. destruct (ask me stopping_ w) as [[stopping|e] w']; [|done].
  destruct stopping; [done|]. destruct He as [input Hs|b0 b1 b2 b3 input Hs|b0 b1 b2 b3 input Hs].
  - by destruct input as [|b0 [|b1 [|b2 [|b3 input]]]]; simpl in Hs; try done; lia.
  - assert ((decode_frame_size b0 b1 b2 b3 <=? 0) || (decode_frame_size b0 b1 b2 b3 >? kMaxKafkaFrameBytes) = true) as ->; [|done].
    apply orb_true_iff. rewrite Z.leb_le, Z.gtb_ltb, Z.ltb_lt. exact Hs.
  - destruct (_ || _); [done|]. assert (zlen (take (Z.to_nat (decode_frame_size b0 b1 b2 b3)) input)
      <> decode_frame_size b0 b1 b2 b3) as Hne by (unfold zlen in *; rewrite length_take; lia).
    by destruct (Z.eqb_spec (zlen (take (Z.to_nat (decode_frame_size b0 b1 b2 b3)) input)) (decode_frame_size b0 b1 b2 b3)).
Qed.

(** One round on a whole frame. *)
Lemma connection_round n me b0 b1 b2 b3 payload input w :
  decode_frame_size b0 b1 b2 b3 = zlen payload → 0 < zlen payload <= kMaxKafkaFrameBytes →
  handle_connection (S n) me (b0 :: b1 :: b2 :: b3 :: payload ++ input) w =
  (stopping ← ask me stopping_;
   if stopping : bool then mret tt
   else
     continue ← serve_one me payload;
     if continue : bool then handle_connection n me input else mret tt) w.
Proof.
  intros Hd Hlen. unfold serve_one. cbn [handle_connection]. rewrite Hd, Z.gtb_ltb.
  destruct (Z.leb_spec (zlen payload) 0); [lia|]. destruct (Z.ltb_spec kMaxKafkaFrameBytes (zlen payload)); [lia|].
  cbn [orb]. replace (Z.to_nat (zlen payload)) with (length payload) by (unfold zlen; lia).
  by rewrite take_app_length, drop_app_length, Z.eqb_refl.
Qed.

(** Rounds enough for the frames give the reference. *)
Lemma connection_serves n me input payloads w :
  framed input payloads → (length payloads <= n)%nat → handle_connection (S n) me input w = serve me payloads w.
Proof.
  intros Hf. revert n w. induction Hf as [input He|b0 b1 b2 b3 payload input payloads Hd Hlen Hf IH]; intros n w Hn;
    [by apply connection_ends|].
  destruct n as [|n]; [simpl in Hn; lia|]. rewrite connection_round by done.
  change (serve me (payload :: payloads) w) with ((stopping ← ask me stopping_;
    if stopping : bool then mret tt
    else continue ← serve_one me payload; if continue : bool then serve me payloads else mret tt) w).
  unfold mbind, IO_bind. destruct (ask me stopping_ w) as [[[]|e] w']; [done| |done].
  destruct (serve_one me payload w') as [[[]|e] w2]; [|done..]. apply IH. simpl in Hn. lia.
Qed.

Lemma client_frames_framed payloads :
  Forall (λ p : bytes, 0 < zlen p <= kMaxKafkaFrameBytes) payloads → framed (concat (map client_frame payloads)) payloads.
Proof.
  induction 1 as [|p ps Hp _ IH]; [apply framed_end, ends_short; simpl; lia|]. cbn [map concat]. unfold client_frame at 1.
  assert (∃ b0 b1 b2 b3, be_bytes 4 (zlen p) = [b0; b1; b2; b3]) as (b0 & b1 & b2 & b3 & Hb).
  { do 4 eexists. reflexivity. }
  rewrite <- app_assoc, Hb. cbn [app]. apply (framed_frame b0 b1 b2 b3 p); [|done|done].
  rewrite decode_frame_size_be, <- Hb. apply (be_signed_roundtrip 4); [lia|]. unfold kMaxKafkaFrameBytes in Hp. unfold in_s. simpl. lia.
Qed.

Lemma frame_continues b0 b1 b2 b3 payload input :
  decode_frame_size b0 b1 b2 b3 = zlen payload → 0 < zlen payload <= kMaxKafkaFrameBytes →
  ¬ ends (b0 :: b1 :: b2 :: b3 :: payload ++ input).
Proof.
  intros Hd Hlen He. inversion He as [? Hs|? ? ? ? ? Hs|? ? ? ? ? Hs]; subst.
  - simpl in Hs. lia.
  - lia.
  - rewrite zlen_app in Hs. pose proof (zlen_nonneg input). lia.
Qed.

(** There is one way to cut the input. *)
Lemma framed_inj input payloads payloads' : framed input payloads → framed input payloads' → payloads = payloads'.
Proof.
  intros Hf. revert payloads'. induction Hf as [input He|b0 b1 b2 b3 payload input payloads Hd Hlen Hf IH]; intros payloads' Hf'.
  - destruct Hf' as [|b0 b1 b2 b3 payload input payloads Hd Hlen _]; [done|]. by eapply frame_continues in He.
  - remember (b0 :: b1 :: b2 :: b3 :: payload ++ input) as whole eqn:Ew.
    destruct Hf' as [? He|c0 c1 c2 c3 payload' input' payloads2 Hd' Hlen' Hf2]; [subst; by eapply frame_continues in He|].
    injection Ew as -> -> -> -> Ei. apply app_inj_1 in Ei as [-> ->]; [f_equal; by apply IH|]. unfold zlen in *. lia.
Qed.

(** What accepted connections do to the node, one after the other. *)
Fixpoint serve_connections (me : nat) (connections : list (list bytes)) (w : Node Net) : Node Net :=
  match connections with
  | [] => w
  | payloads :: connections' =>
      serve_connections me connections' (match ask me gate_closed_ w with (Ok false, _) => snd (serve me payloads w) | _ => w end)
  end.

Lemma ask_state {A} me (f : BrokerShard → A) w : snd (ask me f w) = w.
Proof. unfold ask. by destruct (shards w !! me). Qed.

Lemma accept_serves me inputs connections w results :
  Forall2 framed inputs connections →
  accept_loop me (map Accepted inputs ++ results) w = accept_loop me results (serve_connections me connections w).
Proof.
  intros Hf. revert w. induction Hf as [|input payloads inputs connections Hin Hf IH]; intros w; [done|].
  cbn [map app accept_loop serve_connections]. rewrite <- IH. unfold mbind, IO_bind at 1, attempt, with_gate.
  destruct (framed_total input) as (payloads' & Hin' & Hl). pose proof (framed_inj _ _ _ Hin Hin') as <-.
  unfold mbind, IO_bind. pose proof (ask_state me gate_closed_ w) as Hw. destruct (ask me gate_closed_ w) as [[[]|e] w1]; cbn in Hw; subst w1; [done| |done].
  rewrite (connection_serves (length input) me input payloads w Hin Hl). by destruct (serve me payloads w).
Qed.

(** ** Theorems *)

(** C16: the connection loop on an arbitrary byte stream.  [length input + 1]
    rounds are always enough: the stream is cut at its length prefixes, which
    is possible in every case, and the loop does what serving the requests
    one after the other does, each answered before the next is read, up to
    the first that throws.  What a client frames, the broker unframes.  The
    accept loop serves every connection that comes while the gate is open,
    whatever the ones before it did. *)
Theorem connection_serves_frames me :
  (∀ input w, ∃ payloads, framed input payloads ∧
     handle_connection (S (length input)) me input w = serve me payloads w) ∧
  (∀ payloads w, Forall (λ p : bytes, 0 < zlen p <= kMaxKafkaFrameBytes) payloads →
     let input := concat (map client_frame payloads) in
     framed input payloads ∧ ∀ n, (length payloads <= n)%nat → handle_connection (S n) me input w = serve me payloads w) ∧
  (∀ inputs w, ∃ connections, Forall2 framed inputs connections ∧
     ∀ results, accept_loop me (map Accepted inputs ++ results) w = accept_loop me results (serve_connections me connections w)).
Proof.
  split; [|split].
  - intros input w. destruct (framed_total input) as (ps & Hf & Hl). exists ps. split; [done|]. by apply connection_serves.
  - intros ps w Hps input. pose proof (client_frames_framed ps Hps) as Hf. split; [done|]. intros n Hn. by apply connection_serves.
  - intros inputs w.
    assert (∃ connections, Forall2 framed inputs connections) as [connections Hc].
    { induction inputs as [|input inputs [cs IH]]; [by exists []|]. destruct (framed_total input) as (ps & Hps & _).
      exists (ps :: cs). by constructor. }
    exists connections. split; [done|]. intros results. by apply accept_serves.
Qed.
End connection.
