(* ===== verification/MercuryProc.v ===== *)
(** * The Mercury envelope

    Models the [proc] callbacks of src/mercury_shard.cpp, which serialize the
    request and the reply of an RPC.  [hg_proc_t] and its primitives are
    Mercury's: they are the interface [HgProc]; [HgProcLaws] says what they do
    when nothing fails, and [memory_proc] is an instance. *)

From Stdlib Require Import ZArith Lia.
From stdpp Require Import base tactics numbers option list.
From S2P Require Import Prelude.

Local Open Scope Z_scope.

(** ** Data *)

Inductive hg_return_t :=
  | HG_SUCCESS | HG_INVALID_ARG | HG_NOMEM | HG_PROTOCOL_ERROR | HG_NOENTRY
  | HG_OTHER (code : Z).
#[global] Instance hg_return_t_eq_dec : EqDecision hg_return_t.
Proof. solve_decision. Defined.

Inductive hg_proc_op_t := HG_ENCODE | HG_DECODE | HG_FREE.

(** Handles, addresses, bulk descriptors: opaque, 0 is the null value. *)
Definition HG_NULL : Z := 0.

Definition HgTransferMode_Eager : Z := 0.
Definition HgTransferMode_Bulk : Z := 1.

(** [hb_data]: [None] is the null pointer. *)
Record HgBytes := mkHgBytes {
  hb_size : Z;
  hb_data : option bytes;
}.
Record HgRequest := mkHgRequest {
  hq_mode : Z;
  hq_eager : HgBytes;
  hq_bulk_size : Z;
  hq_bulk_handle : Z;
}.
Record HgReply := mkHgReply {
  hr_status : Z;
  hr_payload : HgBytes;
}.

Definition HgBytes_init : HgBytes := mkHgBytes 0 None.
Definition HgRequest_init : HgRequest := mkHgRequest HgTransferMode_Eager HgBytes_init 0 HG_NULL.
Definition HgReply_init : HgReply := mkHgReply 0 HgBytes_init.

(** ** The interface *)

(** Each primitive takes the value in memory and gives the value that is
    there afterwards.  [malloc n] tells whether [n] bytes can be had. *)
Class HgProc := {
  hg_proc_t : Type;
  hg_proc_get_op : hg_proc_t → hg_proc_op_t;
  hg_proc_hg_size_t : Z → hg_proc_t → hg_return_t * Z * hg_proc_t;
  hg_proc_int32_t : Z → hg_proc_t → hg_return_t * Z * hg_proc_t;
  hg_proc_hg_bulk_t : Z → hg_proc_t → hg_return_t * Z * hg_proc_t;
  hg_proc_raw : bytes → hg_proc_t → hg_return_t * bytes * hg_proc_t;
  malloc : Z → bool;
}.

(** A buffer that was just allocated. *)
Definition fresh_buffer (n : Z) : bytes := replicate (Z.to_nat n) Byte.x00.

Section proc.
Context `{HgProc}.

Definition proc_hg_bytes (b : HgBytes) (proc : hg_proc_t) : hg_return_t * HgBytes * hg_proc_t :=
  let '(ret, size, proc) := hg_proc_hg_size_t (hb_size b) proc in
  match ret with
  | HG_SUCCESS =>
      match hg_proc_get_op proc with
      | HG_ENCODE =>
          match hb_data b with
          | None => (if size >? 0 then HG_INVALID_ARG else HG_SUCCESS, mkHgBytes size None, proc)
          | Some data =>
              if size =? 0 then (HG_SUCCESS, mkHgBytes size (Some data), proc)
              else
                let '(ret, sent, proc) := hg_proc_raw (take (Z.to_nat size) data) proc in
                (ret, mkHgBytes size (Some (sent ++ drop (Z.to_nat size) data)), proc)
          end
      | HG_DECODE =>
          if size =? 0 then (HG_SUCCESS, mkHgBytes size None, proc)
          else if malloc size then
            let '(ret, data, proc) := hg_proc_raw (fresh_buffer size) proc in
            match ret with
            | HG_SUCCESS => (HG_SUCCESS, mkHgBytes size (Some data), proc)
            | _ => (ret, mkHgBytes 0 None, proc)
            end
          else (HG_NOMEM, mkHgBytes size None, proc)
      | HG_FREE => (HG_SUCCESS, mkHgBytes 0 None, proc)
      end
  | _ => (ret, mkHgBytes size (hb_data b), proc)
  end.

Definition proc_hg_reply (reply : HgReply) (proc : hg_proc_t) : hg_return_t * HgReply * hg_proc_t :=
  let '(ret, status, proc) := hg_proc_int32_t (hr_status reply) proc in
  match ret with
  | HG_SUCCESS =>
      let '(ret, payload, proc) := proc_hg_bytes (hr_payload reply) proc in
      (ret, mkHgReply status payload, proc)
  | _ => (ret, mkHgReply status (hr_payload reply), proc)
  end.

Definition proc_hg_request (request : HgRequest) (proc : hg_proc_t) : hg_return_t * HgRequest * hg_proc_t :=
  let '(ret, mode, proc) := hg_proc_int32_t (hq_mode request) proc in
  match ret with
  | HG_SUCCESS =>
      let '(ret, eager, proc) := proc_hg_bytes (hq_eager request) proc in
      match ret with
      | HG_SUCCESS =>
          let '(ret, bulk_size, proc) := hg_proc_hg_size_t (hq_bulk_size request) proc in
          match ret with
          | HG_SUCCESS =>
              if mode =? HgTransferMode_Bulk then
                let '(ret, bulk_handle, proc) := hg_proc_hg_bulk_t (hq_bulk_handle request) proc in
                (ret, mkHgRequest mode eager bulk_size bulk_handle, proc)
              else
                let bulk_handle := match hg_proc_get_op proc with
                  | HG_DECODE => HG_NULL
                  | _ => hq_bulk_handle request
                  end in
                (HG_SUCCESS, mkHgRequest mode eager bulk_size bulk_handle, proc)
          | _ => (ret, mkHgRequest mode eager bulk_size (hq_bulk_handle request), proc)
          end
      | _ => (ret, mkHgRequest mode eager (hq_bulk_size request) (hq_bulk_handle request), proc)
      end
  | _ => (ret, mkHgRequest mode (hq_eager request) (hq_bulk_size request) (hq_bulk_handle request), proc)
  end.
End proc.

(** ** Primitives that work *)

(** [stream p]: what an encoder has written, what a decoder has yet to
    read.  An encoder leaves the value alone. *)
Class HgProcLaws `{HgProc} := {
  stream : hg_proc_t → bytes;
  size_code : Z → bytes;
  int32_code : Z → bytes;
  bulk_code : Z → bytes;
  malloc_ok n : malloc n = true;
  size_encode v p : hg_proc_get_op p = HG_ENCODE → in_u 64 v → ∃ p',
    hg_proc_hg_size_t v p = (HG_SUCCESS, v, p') ∧ hg_proc_get_op p' = HG_ENCODE ∧ stream p' = stream p ++ size_code v;
  size_decode v0 v p rest : hg_proc_get_op p = HG_DECODE → in_u 64 v → stream p = size_code v ++ rest → ∃ p',
    hg_proc_hg_size_t v0 p = (HG_SUCCESS, v, p') ∧ hg_proc_get_op p' = HG_DECODE ∧ stream p' = rest;
  int32_encode v p : hg_proc_get_op p = HG_ENCODE → in_s 32 v → ∃ p',
    hg_proc_int32_t v p = (HG_SUCCESS, v, p') ∧ hg_proc_get_op p' = HG_ENCODE ∧ stream p' = stream p ++ int32_code v;
  int32_decode v0 v p rest : hg_proc_get_op p = HG_DECODE → in_s 32 v → stream p = int32_code v ++ rest → ∃ p',
    hg_proc_int32_t v0 p = (HG_SUCCESS, v, p') ∧ hg_proc_get_op p' = HG_DECODE ∧ stream p' = rest;
  bulk_encode v p : hg_proc_get_op p = HG_ENCODE → in_u 64 v → ∃ p',
    hg_proc_hg_bulk_t v p = (HG_SUCCESS, v, p') ∧ hg_proc_get_op p' = HG_ENCODE ∧ stream p' = stream p ++ bulk_code v;
  bulk_decode v0 v p rest : hg_proc_get_op p = HG_DECODE → in_u 64 v → stream p = bulk_code v ++ rest → ∃ p',
    hg_proc_hg_bulk_t v0 p = (HG_SUCCESS, v, p') ∧ hg_proc_get_op p' = HG_DECODE ∧ stream p' = rest;
  raw_encode d p : hg_proc_get_op p = HG_ENCODE → ∃ p',
    hg_proc_raw d p = (HG_SUCCESS, d, p') ∧ hg_proc_get_op p' = HG_ENCODE ∧ stream p' = stream p ++ d;
  raw_decode d0 d p rest : hg_proc_get_op p = HG_DECODE → length d0 = length d → stream p = d ++ rest → ∃ p',
    hg_proc_raw d0 p = (HG_SUCCESS, d, p') ∧ hg_proc_get_op p' = HG_DECODE ∧ stream p' = rest;
}.
#[global] Arguments HgProcLaws {_}.

(** Bytes as the code makes them: null when there are none. *)
Definition hg_bytes (d : bytes) : HgBytes :=
  mkHgBytes (zlen d) (match d with [] => None | _ => Some d end).

(** The payload the receiver takes out of [b]. *)
Definition bytes_of (b : HgBytes) : bytes :=
  match hb_data b with
  | Some data => if hb_size b >? 0 then take (Z.to_nat (hb_size b)) data else []
  | None => []
  end.

Lemma bytes_of_hg_bytes d : bytes_of (hg_bytes d) = d.
Proof.
  destruct d as [|x d]; [done|]. unfold bytes_of, hg_bytes. cbn [hb_data hb_size].
  pose proof (zlen_nonneg d). rewrite Z.gtb_ltb, (proj2 (Z.ltb_lt _ _)) by (rewrite zlen_cons; lia).
  unfold zlen. by rewrite Nat2Z.id, take_ge.
Qed.

Section roundtrip.
Context `{HgProcLaws}.

(** [run f v]: [v] can be written, and what is written can be read back into
    any variable, by the same [proc] callback [f]. *)
Definition encodes {A} (f : A → hg_proc_t → hg_return_t * A * hg_proc_t) (v : A) (code : bytes) : Prop :=
  ∀ p, hg_proc_get_op p = HG_ENCODE → ∃ p',
    f v p = (HG_SUCCESS, v, p') ∧ hg_proc_get_op p' = HG_ENCODE ∧ stream p' = stream p ++ code.
Definition decodes {A} (f : A → hg_proc_t → hg_return_t * A * hg_proc_t) (v : A) (code : bytes) : Prop :=
  ∀ v0 p rest, hg_proc_get_op p = HG_DECODE → stream p = code ++ rest → ∃ p',
    f v0 p = (HG_SUCCESS, v, p') ∧ hg_proc_get_op p' = HG_DECODE ∧ stream p' = rest.
Definition transfers {A} (f : A → hg_proc_t → hg_return_t * A * hg_proc_t) (v : A) : Prop :=
  ∃ code, encodes f v code ∧ decodes f v code.

Lemma hg_bytes_encodes d : in_u 64 (zlen d) → encodes proc_hg_bytes (hg_bytes d) (size_code (zlen d) ++ d).
Proof.
  intros Hd p Hp. destruct (size_encode (zlen d) p Hp Hd) as (p1 & E1 & Hp1 & S1).
  unfold proc_hg_bytes. cbn [hb_size hg_bytes]. rewrite E1, Hp1.
  destruct d as [|x d]; [exists p1; rewrite app_nil_r; done|]. cbn [hb_data hg_bytes].
  pose proof (zlen_nonneg d). rewrite zlen_cons in *. destruct (Z.eqb_spec (1 + zlen d) 0); [lia|].
  destruct (raw_encode (x :: d) p1 Hp1) as (p2 & E2 & Hp2 & S2).
  replace (Z.to_nat (1 + zlen d)) with (length (x :: d)) by (unfold zlen; cbn; lia).
  rewrite firstn_all, drop_all, E2. cbv beta iota. rewrite app_nil_r. exists p2.
  split_and!; [unfold hg_bytes; by rewrite zlen_cons|done|]. by rewrite S2, S1, app_assoc.
Qed.

Lemma hg_bytes_decodes d : in_u 64 (zlen d) → decodes proc_hg_bytes (hg_bytes d) (size_code (zlen d) ++ d).
Proof.
  intros Hd v0 p rest Hp Hs. rewrite <- app_assoc in Hs.
  destruct (size_decode (hb_size v0) (zlen d) p _ Hp Hd Hs) as (p1 & E1 & Hp1 & S1).
  unfold proc_hg_bytes. rewrite E1, Hp1. destruct d as [|x d]; [by exists p1|].
  pose proof (zlen_nonneg d). destruct (Z.eqb_spec (zlen (x :: d)) 0); [rewrite zlen_cons in *; lia|].
  rewrite malloc_ok.
  destruct (raw_decode (fresh_buffer (zlen (x :: d))) (x :: d) p1 rest Hp1) as (p2 & E2 & Hp2 & S2); [|done|].
  { unfold fresh_buffer, zlen. by rewrite length_replicate, Nat2Z.id. }
  rewrite E2. by exists p2.
Qed.

(** The requests [forward] builds: eager bytes, or a bulk descriptor. *)
Definition eager_request (d : bytes) : HgRequest := mkHgRequest HgTransferMode_Eager (hg_bytes d) 0 HG_NULL.
Definition bulk_request (size handle : Z) : HgRequest :=
  mkHgRequest HgTransferMode_Bulk HgBytes_init size handle.

Lemma request_transfers mode d size handle code :
  in_s 32 mode → in_u 64 (zlen d) → in_u 64 size →
  (if mode =? HgTransferMode_Bulk then in_u 64 handle ∧ code = bulk_code handle else handle = HG_NULL ∧ code = []) →
  transfers proc_hg_request (mkHgRequest mode (hg_bytes d) size handle).
Proof.
  intros Hm Hd Hsz Hh. exists (int32_code mode ++ (size_code (zlen d) ++ d) ++ size_code size ++ code). split.
  - intros p Hp. unfold proc_hg_request. cbn [hq_mode hq_eager hq_bulk_size hq_bulk_handle].
    destruct (int32_encode mode p Hp Hm) as (p1 & -> & Hp1 & S1).
    destruct (hg_bytes_encodes d Hd p1 Hp1) as (p2 & -> & Hp2 & S2).
    destruct (size_encode size p2 Hp2 Hsz) as (p3 & -> & Hp3 & S3).
    destruct (mode =? _); destruct Hh as [Hh ->].
    + destruct (bulk_encode handle p3 Hp3 Hh) as (p4 & -> & Hp4 & S4). exists p4.
      by rewrite S4, S3, S2, S1, <- !app_assoc.
    + rewrite Hp3. exists p3. by rewrite S3, S2, S1, app_nil_r, <- !app_assoc.
  - intros v0 p rest Hp Hs. rewrite <- !app_assoc in Hs. unfold proc_hg_request.
    destruct (int32_decode (hq_mode v0) mode p _ Hp Hm Hs) as (p1 & -> & Hp1 & S1). rewrite app_assoc in S1.
    destruct (hg_bytes_decodes d Hd (hq_eager v0) p1 _ Hp1 S1) as (p2 & -> & Hp2 & S2).
    destruct (size_decode (hq_bulk_size v0) size p2 _ Hp2 Hsz S2) as (p3 & -> & Hp3 & S3).
    destruct (mode =? _); destruct Hh as [Hh ->].
    + destruct (bulk_decode (hq_bulk_handle v0) handle p3 rest Hp3 Hh S3) as (p4 & -> & Hp4 & S4). by exists p4.
    + rewrite Hp3, Hh. by exists p3.
Qed.

Lemma reply_transfers status d :
  in_s 32 status → in_u 64 (zlen d) → transfers proc_hg_reply (mkHgReply status (hg_bytes d)).
Proof.
  intros Hs Hd. exists (int32_code status ++ size_code (zlen d) ++ d). split.
  - intros p Hp. unfold proc_hg_reply. cbn [hr_status hr_payload].
    destruct (int32_encode status p Hp Hs) as (p1 & -> & Hp1 & S1).
    destruct (hg_bytes_encodes d Hd p1 Hp1) as (p2 & -> & Hp2 & S2). exists p2. by rewrite S2, S1, <- app_assoc.
  - intros v0 p rest Hp Hst. rewrite <- app_assoc in Hst. unfold proc_hg_reply.
    destruct (int32_decode (hr_status v0) status p _ Hp Hs Hst) as (p1 & -> & Hp1 & S1).
    destruct (hg_bytes_decodes d Hd (hr_payload v0) p1 rest Hp1 S1) as (p2 & -> & Hp2 & S2). by exists p2.
Qed.

(** ** Theorem *)

(** C33: the envelope crosses the wire.  The eager and the bulk requests that
    [forward] builds and the replies that [respond_server] builds are encoded
    by their [proc] callback without changing them; the same callback decodes
    them, whatever the variable held and whatever follows on the wire, and the
    receiver takes the payload out of the bytes as it went in.  Releasing the
    decoded value leaves no buffer behind. *)
Theorem envelope_roundtrip d :
  in_u 64 (zlen d) →
  transfers proc_hg_request (eager_request d) ∧
  (∀ size handle, in_u 64 size → in_u 64 handle → transfers proc_hg_request (bulk_request size handle)) ∧
  (∀ status, in_s 32 status → transfers proc_hg_reply (mkHgReply status (hg_bytes d))) ∧
  bytes_of (hg_bytes d) = d ∧
  (∀ b proc, hg_proc_get_op proc = HG_FREE → (∀ v, hg_proc_hg_size_t v proc = (HG_SUCCESS, v, proc)) →
     proc_hg_bytes b proc = (HG_SUCCESS, HgBytes_init, proc)).
Proof.
  intros Hd. split_and!.
  - apply (request_transfers _ d 0 HG_NULL []); [done|done|done|done].
  - intros size handle Hs Hh. by apply (request_transfers HgTransferMode_Bulk [] size handle (bulk_code handle)).
  - intros status Hs. by apply reply_transfers.
  - apply bytes_of_hg_bytes.
  - intros b proc Hop Hsz. unfold proc_hg_bytes. by rewrite Hsz, Hop.
Qed.
End roundtrip.

(** ** An instance *)

Definition proc_word {A} (n : nat) (of_bytes : bytes → A) (to_bytes : A → bytes) (v : A) (p : hg_proc_op_t * bytes)
    : hg_return_t * A * (hg_proc_op_t * bytes) :=
  let '(op, s) := p in
  match op with
  | HG_ENCODE => (HG_SUCCESS, v, (op, s ++ to_bytes v))
  | HG_DECODE =>
      if (length s <? n)%nat then (HG_OTHER 1, v, p) else (HG_SUCCESS, of_bytes (take n s), (op, drop n s))
  | HG_FREE => (HG_SUCCESS, v, p)
  end.

#[local] Instance memory_proc : HgProc := {|
  hg_proc_t := hg_proc_op_t * bytes;
  hg_proc_get_op := fst;
  hg_proc_hg_size_t := proc_word 8 le_value (le_bytes 8);
  hg_proc_int32_t := proc_word 4 (λ b, wrap_s 32 (le_value b)) (λ v, le_bytes 4 v);
  hg_proc_hg_bulk_t := proc_word 8 le_value (le_bytes 8);
  hg_proc_raw d := proc_word (length d) id id d;
  malloc _ := true;
|}.

Lemma proc_word_encode {A} n (f : bytes → A) g v (p : hg_proc_op_t * bytes) :
  p.1 = HG_ENCODE → ∃ p', proc_word n f g v p = (HG_SUCCESS, v, p') ∧ p'.1 = HG_ENCODE ∧ p'.2 = p.2 ++ g v.
Proof. destruct p as [op s]. cbn. intros ->. by eexists. Qed.

Lemma proc_word_decode {A} n (f : bytes → A) (d : bytes) v0 v (p : hg_proc_op_t * bytes) rest g :
  p.1 = HG_DECODE → length d = n → f d = v → p.2 = d ++ rest →
  ∃ p', proc_word n f g v0 p = (HG_SUCCESS, v, p') ∧ p'.1 = HG_DECODE ∧ p'.2 = rest.
Proof.
  destruct p as [op s]. unfold proc_word. cbn [fst snd]. intros -> <- <- ->. rewrite length_app.
  destruct (Nat.ltb_spec (length d + length rest) (length d)); [lia|].
  rewrite take_app_length, drop_app_length. by eexists.
Qed.

Lemma le_value_u64 v : in_u 64 v → le_value (le_bytes 8 v) = v.
Proof. intros Hv. rewrite le_value_bytes. apply (wrap_u_id 64 v Hv). Qed.

#[local] Instance memory_proc_laws : @HgProcLaws memory_proc.
Proof.
  refine {| stream := snd : @hg_proc_t memory_proc → bytes; size_code := le_bytes 8; int32_code := le_bytes 4;
            bulk_code := le_bytes 8 |}.
  - done.
  - intros v p Hp _. by apply proc_word_encode.
  - intros v0 v p rest Hp Hv. apply proc_word_decode; [done|done|by apply le_value_u64].
  - intros v p Hp _. by apply proc_word_encode.
  - intros v0 v p rest Hp Hv. apply proc_word_decode; [done|done|]. apply (le_signed_roundtrip 4 v); [lia|done].
  - intros v p Hp _. by apply proc_word_encode.
  - intros v0 v p rest Hp Hv. apply proc_word_decode; [done|done|by apply le_value_u64].
  - intros d p Hp. by apply proc_word_encode.
  - intros d0 d p rest Hp Hl. by apply proc_word_decode.
Defined.

Lemma envelope_roundtrip_witness : transfers proc_hg_request (eager_request (str "ping")) ∧ zlen (str "ping") = 4.
Proof. split; [|reflexivity]. apply (envelope_roundtrip (str "ping")). vm_compute. split; [discriminate|reflexivity]. Defined.
