(* ===== verification/MercuryShard.v ===== *)
(** * The Mercury shard

    Models [MercuryShard] of include/mkmq/mercury_shard.hpp and
    src/mercury_shard.cpp: the registry of RPCs, the peers with their cached
    addresses and pools of handles, the address lookups that concurrent
    forwards share, the client and server side of an RPC, time-outs, and the
    progress loop.

    [Impl] is the state of the code.  What the code gives away between a call
    and its callback (a [unique_ptr] that is released, a continuation) is
    [InFlight]: the client and server states under way.  The Mercury library
    is the interface [Hg]: its answers may depend on the number of the call
    ([clock]) and on the resources in use, so that every sequence of answers
    is one of its instances.

    The ledger lists the resources that are held of Mercury and the promises
    not yet fulfilled.  Giving back what is not held, using it, and fulfilling
    a promise twice, is undefined behaviour.  [Library] has what Mercury knows
    of the calls into it: the lookups whose callback is due, what an address
    stands for, and the target and the RPC that a handle was created or reset
    for.  The latency histograms are left out. *)

From Stdlib Require Import ZArith Lia.
From stdpp Require Import base tactics numbers option gmap functions list.
From S2P Require Import Prelude Storage MercuryProc.

Local Open Scope Z_scope.

(** ** Data *)

Definition kBulkTransferThreshold : Z := 64 * 1024.
Definition kHandlePoolLimitPerPeerRpc : nat := 128.
Definition kMercuryIdleProgressInterval : Z := 5.
Definition kMercuryActiveProgressInterval : Z := 1.
Definition kMercuryTriggerBatch : nat := 64.
Definition kMercuryProgressRounds : nat := 8.

(** Calling a handler throws, or gives a future. *)
Definition RpcHandler : Type := bytes → result unit.

Record RpcEntry := mkRpcEntry {
  re_name : cstring;
  re_id : Z;
  re_handler : option RpcHandler;
}.

Record HandlePool := mkHandlePool {
  hp_rpc_id : Z;
  hp_handles : list Z;
}.

(** [cs_promise]: which promise it is.  [cs_timer]: [timeout_timer] is
    armed. *)
Record ClientRpcState := mkClientRpcState {
  cs_promise : nat;
  cs_timer : bool;
  cs_addr : Z;
  cs_handle : Z;
  cs_rpc_id : Z;
  cs_peer : cstring;
  cs_request : bytes;
  cs_input : HgRequest;
  cs_origin_bulk : Z;
  cs_promise_done : bool;
  cs_recycle_handle : bool;
  cs_drop_peer : bool;
}.

(** [ls_id]: the address of the record, which the callback gets. *)
Record LookupState := mkLookupState {
  ls_id : nat;
  ls_peer : cstring;
  ls_waiters : list ClientRpcState;
  ls_cancelled : bool;
}.

Record PeerState := mkPeerState {
  ps_addr : Z;
  ps_pools : list HandlePool;
  ps_pending_lookup : option LookupState;
}.
Definition PeerState_init : PeerState := mkPeerState HG_NULL [] None.

Record ServerRpcState := mkServerRpcState {
  ss_handle : Z;
  ss_rpc : cstring;
  ss_input : HgRequest;
  ss_input_loaded : bool;
  ss_local_bulk : Z;
  ss_request : bytes;
  ss_response : bytes;
  ss_status : Z;
}.

Inductive MercuryCounter :=
  | rpc_forwards | rpc_receives | rpc_errors | rpc_timeouts
  | bulk_transfers | bulk_bytes | bulk_errors.
#[global] Instance MercuryCounter_eq_dec : EqDecision MercuryCounter.
Proof. solve_decision. Defined.

(** The entries of [rpcs_by_name] are never erased, so that a pointer to one
    is its name.  [mi_progress_timer]: the interval, in
    microseconds, for which [progress_timer] is armed. *)
Record Impl := mkImpl {
  mi_running : bool;
  mi_address : cstring;
  mi_progress_timer : option Z;
  mi_hg_class : bool;
  mi_hg_context : bool;
  mi_rpcs_by_name : gmap cstring RpcEntry;
  mi_rpcs_by_id : list (Z * cstring);
  mi_last_rpc : option cstring;
  mi_peers : gmap cstring PeerState;
  mi_orphaned_lookups : list LookupState;
  mi_counters : MercuryCounter → Z;
}.
Definition Impl_init : Impl := mkImpl false [] None false false ∅ [] None ∅ [] (λ _, 0).

(** What is held of Mercury: handles, addresses, bulk descriptors, decoded
    inputs and outputs; and the promises that someone waits for. *)
Inductive Resource :=
  | RHandle (handle : Z) | RAddr (addr : Z) | RBulk (bulk : Z)
  | RInput (handle : Z) | ROutput (handle : Z) | RPromise (promise : nat).
#[global] Instance Resource_eq_dec : EqDecision Resource.
Proof. solve_decision. Defined.

(** A handler that runs: what it was called with, and the state that its
    continuation holds. *)
Record HandlerCall := mkHandlerCall {
  hc_payload : bytes;
  hc_state : ServerRpcState;
}.

(** Forwards waiting for their reply, bulk pulls, handlers that run, and
    replies on their way. *)
Record InFlight := mkInFlight {
  forwarding : gmap nat ClientRpcState;
  pulling : gmap nat ServerRpcState;
  handling : gmap nat HandlerCall;
  responding : gmap nat ServerRpcState;
}.
Definition InFlight_init : InFlight := mkInFlight ∅ ∅ ∅ ∅.

(** What Mercury was told and has given out.  [lookups]: the lookups whose
    callback is due, with the name that is looked up.  [resolved]: the name
    that an address was found for.  [bound]: what [HG_Create] or [HG_Reset]
    last gave a handle, the name behind the address (if Mercury has given out
    this address) and the id of the RPC.  [leaked]: the addresses that
    [lookup_cb] was given and has forgotten. *)
Record Library := mkLibrary {
  lookups : gmap nat cstring;
  resolved : gmap Z cstring;
  bound : gmap Z (option cstring * Z);
  leaked : list Z;
}.
Definition Library_init : Library := mkLibrary ∅ ∅ ∅ [].

Record Mercury := mkMercury {
  impl : Impl;
  in_flight : InFlight;
  ledger : list Resource;
  promises : gmap nat (result bytes);
  fresh : nat;
  clock : nat;
  library : Library;
}.
Definition Mercury_init : Mercury := mkMercury Impl_init InFlight_init [] ∅ 0 0 Library_init.

(** Callbacks that [HG_Trigger] runs. *)
Inductive Callback :=
  | LookupDone (raw : nat) (ret : hg_return_t) (addr : Z)
  | ForwardDone (promise : nat) (ret : hg_return_t)
  | Dispatched (handle : Z)
  | PullDone (server : nat) (ret : hg_return_t) (data : bytes)
  | RespondDone (server : nat).

(** ** The interface *)

Class Hg := {
  HG_Init : nat → cstring → bool → bool;
  HG_Context_create : nat → bool;
  HG_Register_name : nat → cstring → Z;
  HG_Register_data : nat → Z → hg_return_t;
  HG_Registered_data : nat → Z → bool;
  HG_Addr_lookup : nat → cstring → hg_return_t;
  HG_Create : nat → list Resource → Z → Z → hg_return_t * Z;
  HG_Reset : nat → Z → Z → Z → hg_return_t;
  HG_Forward : nat → Z → HgRequest → hg_return_t;
  HG_Respond : nat → Z → HgReply → hg_return_t;
  HG_Get_info : nat → Z → option Z;
  HG_Get_input : nat → Z → hg_return_t * HgRequest;
  HG_Get_output : nat → Z → hg_return_t * HgReply;
  HG_Bulk_create : nat → list Resource → Z → hg_return_t * Z;
  HG_Bulk_transfer : nat → Z → Z → Z → hg_return_t;
  HG_Progress : nat → hg_return_t;
  HG_Trigger : nat → nat → hg_return_t * list Callback;
}.

(** ** Assignments *)

Definition set_running (v : bool) (i : Impl) : Impl :=
  mkImpl v (mi_address i) (mi_progress_timer i) (mi_hg_class i) (mi_hg_context i) (mi_rpcs_by_name i)
    (mi_rpcs_by_id i) (mi_last_rpc i) (mi_peers i) (mi_orphaned_lookups i) (mi_counters i).
Definition set_address (v : cstring) (i : Impl) : Impl :=
  mkImpl (mi_running i) v (mi_progress_timer i) (mi_hg_class i) (mi_hg_context i) (mi_rpcs_by_name i)
    (mi_rpcs_by_id i) (mi_last_rpc i) (mi_peers i) (mi_orphaned_lookups i) (mi_counters i).
Definition set_progress_timer (v : option Z) (i : Impl) : Impl :=
  mkImpl (mi_running i) (mi_address i) v (mi_hg_class i) (mi_hg_context i) (mi_rpcs_by_name i)
    (mi_rpcs_by_id i) (mi_last_rpc i) (mi_peers i) (mi_orphaned_lookups i) (mi_counters i).
Definition set_hg_class (v : bool) (i : Impl) : Impl :=
  mkImpl (mi_running i) (mi_address i) (mi_progress_timer i) v (mi_hg_context i) (mi_rpcs_by_name i)
    (mi_rpcs_by_id i) (mi_last_rpc i) (mi_peers i) (mi_orphaned_lookups i) (mi_counters i).
Definition set_hg_context (v : bool) (i : Impl) : Impl :=
  mkImpl (mi_running i) (mi_address i) (mi_progress_timer i) (mi_hg_class i) v (mi_rpcs_by_name i)
    (mi_rpcs_by_id i) (mi_last_rpc i) (mi_peers i) (mi_orphaned_lookups i) (mi_counters i).
Definition set_rpcs_by_name (v : gmap cstring RpcEntry) (i : Impl) : Impl :=
  mkImpl (mi_running i) (mi_address i) (mi_progress_timer i) (mi_hg_class i) (mi_hg_context i) v
    (mi_rpcs_by_id i) (mi_last_rpc i) (mi_peers i) (mi_orphaned_lookups i) (mi_counters i).
Definition set_rpcs_by_id (v : list (Z * cstring)) (i : Impl) : Impl :=
  mkImpl (mi_running i) (mi_address i) (mi_progress_timer i) (mi_hg_class i) (mi_hg_context i) (mi_rpcs_by_name i)
    v (mi_last_rpc i) (mi_peers i) (mi_orphaned_lookups i) (mi_counters i).
Definition set_last_rpc (v : option cstring) (i : Impl) : Impl :=
  mkImpl (mi_running i) (mi_address i) (mi_progress_timer i) (mi_hg_class i) (mi_hg_context i) (mi_rpcs_by_name i)
    (mi_rpcs_by_id i) v (mi_peers i) (mi_orphaned_lookups i) (mi_counters i).
Definition set_mi_peers (v : gmap cstring PeerState) (i : Impl) : Impl :=
  mkImpl (mi_running i) (mi_address i) (mi_progress_timer i) (mi_hg_class i) (mi_hg_context i) (mi_rpcs_by_name i)
    (mi_rpcs_by_id i) (mi_last_rpc i) v (mi_orphaned_lookups i) (mi_counters i).
Definition set_orphaned_lookups (v : list LookupState) (i : Impl) : Impl :=
  mkImpl (mi_running i) (mi_address i) (mi_progress_timer i) (mi_hg_class i) (mi_hg_context i) (mi_rpcs_by_name i)
    (mi_rpcs_by_id i) (mi_last_rpc i) (mi_peers i) v (mi_counters i).
Definition set_mi_counters (v : MercuryCounter → Z) (i : Impl) : Impl :=
  mkImpl (mi_running i) (mi_address i) (mi_progress_timer i) (mi_hg_class i) (mi_hg_context i) (mi_rpcs_by_name i)
    (mi_rpcs_by_id i) (mi_last_rpc i) (mi_peers i) (mi_orphaned_lookups i) v.

Definition set_re_id (v : Z) (e : RpcEntry) : RpcEntry := mkRpcEntry (re_name e) v (re_handler e).
Definition set_re_handler (v : option RpcHandler) (e : RpcEntry) : RpcEntry := mkRpcEntry (re_name e) (re_id e) v.

Definition set_ps_addr (v : Z) (p : PeerState) : PeerState := mkPeerState v (ps_pools p) (ps_pending_lookup p).
Definition set_ps_pools (v : list HandlePool) (p : PeerState) : PeerState :=
  mkPeerState (ps_addr p) v (ps_pending_lookup p).
Definition set_ps_pending_lookup (v : option LookupState) (p : PeerState) : PeerState :=
  mkPeerState (ps_addr p) (ps_pools p) v.

Definition set_cs_timer (v : bool) (s : ClientRpcState) : ClientRpcState :=
  mkClientRpcState (cs_promise s) v (cs_addr s) (cs_handle s) (cs_rpc_id s) (cs_peer s) (cs_request s) (cs_input s)
    (cs_origin_bulk s) (cs_promise_done s) (cs_recycle_handle s) (cs_drop_peer s).
Definition set_cs_addr (v : Z) (s : ClientRpcState) : ClientRpcState :=
  mkClientRpcState (cs_promise s) (cs_timer s) v (cs_handle s) (cs_rpc_id s) (cs_peer s) (cs_request s) (cs_input s)
    (cs_origin_bulk s) (cs_promise_done s) (cs_recycle_handle s) (cs_drop_peer s).
Definition set_cs_handle (v : Z) (s : ClientRpcState) : ClientRpcState :=
  mkClientRpcState (cs_promise s) (cs_timer s) (cs_addr s) v (cs_rpc_id s) (cs_peer s) (cs_request s) (cs_input s)
    (cs_origin_bulk s) (cs_promise_done s) (cs_recycle_handle s) (cs_drop_peer s).
Definition set_cs_promise_done (v : bool) (s : ClientRpcState) : ClientRpcState :=
  mkClientRpcState (cs_promise s) (cs_timer s) (cs_addr s) (cs_handle s) (cs_rpc_id s) (cs_peer s) (cs_request s)
    (cs_input s) (cs_origin_bulk s) v (cs_recycle_handle s) (cs_drop_peer s).
Definition set_cs_recycle_handle (v : bool) (s : ClientRpcState) : ClientRpcState :=
  mkClientRpcState (cs_promise s) (cs_timer s) (cs_addr s) (cs_handle s) (cs_rpc_id s) (cs_peer s) (cs_request s)
    (cs_input s) (cs_origin_bulk s) (cs_promise_done s) v (cs_drop_peer s).
Definition set_cs_drop_peer (v : bool) (s : ClientRpcState) : ClientRpcState :=
  mkClientRpcState (cs_promise s) (cs_timer s) (cs_addr s) (cs_handle s) (cs_rpc_id s) (cs_peer s) (cs_request s)
    (cs_input s) (cs_origin_bulk s) (cs_promise_done s) (cs_recycle_handle s) v.

Definition set_ss_input (v : HgRequest) (loaded : bool) (s : ServerRpcState) : ServerRpcState :=
  mkServerRpcState (ss_handle s) (ss_rpc s) v loaded (ss_local_bulk s) (ss_request s) (ss_response s) (ss_status s).
Definition set_ss_local_bulk (v : Z) (s : ServerRpcState) : ServerRpcState :=
  mkServerRpcState (ss_handle s) (ss_rpc s) (ss_input s) (ss_input_loaded s) v (ss_request s) (ss_response s)
    (ss_status s).
Definition set_ss_request (v : bytes) (s : ServerRpcState) : ServerRpcState :=
  mkServerRpcState (ss_handle s) (ss_rpc s) (ss_input s) (ss_input_loaded s) (ss_local_bulk s) v (ss_response s)
    (ss_status s).
Definition set_ss_reply (response : bytes) (status : Z) (s : ServerRpcState) : ServerRpcState :=
  mkServerRpcState (ss_handle s) (ss_rpc s) (ss_input s) (ss_input_loaded s) (ss_local_bulk s) (ss_request s)
    response status.

(** ** Effects *)

Abbreviation Mercury_ := (IO Mercury).

Definition upd_impl (f : Impl → Impl) : Mercury_ unit :=
  modify (λ w, mkMercury (f (impl w)) (in_flight w) (ledger w) (promises w) (fresh w) (clock w) (library w)).
Definition upd_in_flight (f : InFlight → InFlight) : Mercury_ unit :=
  modify (λ w, mkMercury (impl w) (f (in_flight w)) (ledger w) (promises w) (fresh w) (clock w) (library w)).
Definition ask_flight {A} (f : InFlight → A) : Mercury_ A := λ w, (Ok (f (in_flight w)), w).
Definition ask_impl {A} (f : Impl → A) : Mercury_ A := λ w, (Ok (f (impl w)), w).

Definition upd_library (f : Library → Library) : Mercury_ unit :=
  modify (λ w, mkMercury (impl w) (in_flight w) (ledger w) (promises w) (fresh w) (clock w) (f (library w))).

(** A call into the library. *)
Definition hg {A} (f : nat → list Resource → A) : Mercury_ A := λ w,
  (Ok (f (clock w) (ledger w)), mkMercury (impl w) (in_flight w) (ledger w) (promises w) (fresh w) (S (clock w)) (library w)).

Definition not_held : error := UndefinedBehavior (str "resource is not held").
Definition acquire (r : Resource) : Mercury_ unit :=
  modify (λ w, mkMercury (impl w) (in_flight w) (r :: ledger w) (promises w) (fresh w) (clock w) (library w)).
Fixpoint strike (r : Resource) (l : list Resource) : option (list Resource) :=
  match l with
  | [] => None
  | r' :: l' => if bool_decide (r' = r) then Some l' else cons r' <$> strike r l'
  end.
Definition release (r : Resource) : Mercury_ unit := λ w,
  match strike r (ledger w) with
  | Some l => (Ok tt, mkMercury (impl w) (in_flight w) l (promises w) (fresh w) (clock w) (library w))
  | None => (Err not_held, w)
  end.
(** The call uses [r]. *)
Definition uses (r : Resource) : Mercury_ unit := λ w,
  (if bool_decide (r ∈ ledger w) then Ok tt else Err not_held, w).

(** The same for a bulk descriptor that may be null. *)
Definition uses_bulk (bulk : Z) : Mercury_ unit := if bulk =? HG_NULL then mret tt else uses (RBulk bulk).

(** What Mercury keeps of a successful [HG_Addr_lookup]; of a successful
    [HG_Create] or [HG_Reset]; and when a lookup is over. *)
Definition lookup_due (raw : nat) (name : cstring) : Mercury_ unit :=
  upd_library (λ b, mkLibrary (<[raw := name]> (lookups b)) (resolved b) (bound b) (leaked b)).
Definition bind_handle (handle addr rpc_id : Z) : Mercury_ unit :=
  upd_library (λ b, mkLibrary (lookups b) (resolved b) (<[handle := (resolved b !! addr, rpc_id)]> (bound b)) (leaked b)).
Definition lookup_over (raw : nat) (ret : hg_return_t) (addr : Z) : Mercury_ unit :=
  upd_library (λ b, mkLibrary (delete raw (lookups b))
    match ret, lookups b !! raw with HG_SUCCESS, Some name => <[addr := name]> (resolved b) | _, _ => resolved b end
    (bound b) (leaked b));;
  match ret with HG_SUCCESS => acquire (RAddr addr) | _ => mret tt end.
(** [lookup_cb] returns without the address that it was given. *)
Definition forget (ret : hg_return_t) (addr : Z) : Mercury_ unit :=
  match ret with
  | HG_SUCCESS => upd_library (λ b, mkLibrary (lookups b) (resolved b) (bound b) (addr :: leaked b))
  | _ => mret tt
  end.

Definition next_id : Mercury_ nat := λ w,
  (Ok (fresh w), mkMercury (impl w) (in_flight w) (ledger w) (promises w) (S (fresh w)) (clock w) (library w)).

(** [promise.set_value(v)], [promise.set_exception(e)]. *)
Definition set_promise (p : nat) (r : result bytes) : Mercury_ unit :=
  release (RPromise p);;
  modify (λ w, mkMercury (impl w) (in_flight w) (ledger w) (<[p := r]> (promises w)) (fresh w) (clock w) (library w)).

Definition mbump (c : MercuryCounter) (n : Z) : Mercury_ unit :=
  upd_impl (λ i, set_mi_counters (<[c := u64 (mi_counters i c + n)]> (mi_counters i)) i).
Definition on_rpc_forward : Mercury_ unit := mbump rpc_forwards 1.
Definition on_rpc_receive : Mercury_ unit := mbump rpc_receives 1.
Definition on_rpc_error : Mercury_ unit := mbump rpc_errors 1.
Definition on_rpc_timeout : Mercury_ unit := mbump rpc_timeouts 1.
Definition on_bulk_transfer (n : Z) : Mercury_ unit := mbump bulk_transfers 1;; mbump bulk_bytes n.
Definition on_bulk_error : Mercury_ unit := mbump bulk_errors 1.

Definition HG_Destroy (handle : Z) : Mercury_ unit := release (RHandle handle).
Definition HG_Addr_free (addr : Z) : Mercury_ unit := release (RAddr addr).
Definition HG_Bulk_free (bulk : Z) : Mercury_ unit := release (RBulk bulk).
Definition HG_Free_input (handle : Z) : Mercury_ unit := release (RInput handle).
Definition HG_Free_output (handle : Z) : Mercury_ unit := release (ROutput handle).

Definition hg_error (what : cstring) : error := RuntimeError what.

Section mercury.
Context {Hg0 : Hg}.

(** ** The registry *)

Definition find_rpc_by_name (name : cstring) : Mercury_ (option cstring) :=
  i ← ask_impl id;
  match mi_last_rpc i with
  | Some last =>
      if bool_decide (last = name) then mret (Some last)
      else match mi_rpcs_by_name i !! name with
      | None => mret None
      | Some e => upd_impl (set_last_rpc (Some name));; mret (Some name)
      end
  | None =>
      match mi_rpcs_by_name i !! name with
      | None => mret None
      | Some e => upd_impl (set_last_rpc (Some name));; mret (Some name)
      end
  end.

Definition find_rpc_by_id (id : Z) (i : Impl) : option cstring :=
  snd <$> List.find (λ e, fst e =? id) (mi_rpcs_by_id i).

(** Dereferences a pointer to an entry. *)
Definition no_entry : error := UndefinedBehavior (str "no such RPC entry").
Definition rpc_entry (name : cstring) : Mercury_ RpcEntry :=
  i ← ask_impl id;
  match mi_rpcs_by_name i !! name with
  | Some e => mret e
  | None => fail no_entry
  end.

Definition bind_rpc_to_mercury (name : cstring) : Mercury_ unit :=
  entry ← rpc_entry name;
  id ← hg (λ n _, HG_Register_name n (re_name entry));
  if id =? 0 then fail (hg_error (str "HG_Register_name failed"))
  else
    ret ← hg (λ n _, HG_Register_data n id);
    match ret with
    | HG_SUCCESS =>
        upd_impl (λ i, set_rpcs_by_name (<[name := set_re_id id entry]> (mi_rpcs_by_name i)) i);;
        upd_impl (λ i, set_rpcs_by_id (mi_rpcs_by_id i ++ [(id, name)]) i)
    | _ => fail (hg_error (str "HG_Register_data failed"))
    end.

Definition register_handler (name : cstring) (handler : option RpcHandler) : Mercury_ unit :=
  i ← ask_impl id;
  let entry := match mi_rpcs_by_name i !! name with Some e => e | None => mkRpcEntry name 0 None end in
  upd_impl (set_rpcs_by_name (<[name := set_re_handler handler entry]> (mi_rpcs_by_name i)));;
  if mi_hg_class i && (re_id entry =? 0) then bind_rpc_to_mercury name else mret tt.

Definition register_rpc (name : cstring) (handler : RpcHandler) : Mercury_ unit := register_handler name (Some handler).

(** ** Peers *)

Definition set_peer (peer : cstring) (p : PeerState) : Mercury_ unit :=
  upd_impl (λ i, set_mi_peers (<[peer := p]> (mi_peers i)) i).
Definition erase_peer (peer : cstring) : Mercury_ unit :=
  upd_impl (λ i, set_mi_peers (delete peer (mi_peers i)) i).

Definition peer_state (peer : cstring) : Mercury_ PeerState :=
  i ← ask_impl id;
  match mi_peers i !! peer with
  | Some p => mret p
  | None => set_peer peer PeerState_init;; mret PeerState_init
  end.

(** The last handle of the pool of [rpc_id], null when there is none. *)
Fixpoint take_cached_handle (pools : list HandlePool) (rpc_id : Z) : Z * list HandlePool :=
  match pools with
  | [] => (HG_NULL, [])
  | pool :: pools' =>
      if hp_rpc_id pool =? rpc_id then
        match last (hp_handles pool) with
        | None => (HG_NULL, pools)
        | Some handle => (handle, mkHandlePool rpc_id (removelast (hp_handles pool)) :: pools')
        end
      else
        let '(handle, pools') := take_cached_handle pools' rpc_id in (handle, pool :: pools')
  end.

(** [None]: the pool is full. *)
Fixpoint pool_handle (pools : list HandlePool) (rpc_id handle : Z) : option (list HandlePool) :=
  match pools with
  | [] => Some [mkHandlePool rpc_id [handle]]
  | pool :: pools' =>
      if hp_rpc_id pool =? rpc_id then
        if (kHandlePoolLimitPerPeerRpc <=? length (hp_handles pool))%nat then None
        else Some (mkHandlePool rpc_id (hp_handles pool ++ [handle]) :: pools')
      else cons pool <$> pool_handle pools' rpc_id handle
  end.

Definition recycle_handle (peer : cstring) (rpc_id handle : Z) : Mercury_ unit :=
  i ← ask_impl id;
  match mi_peers i !! peer with
  | None => HG_Destroy handle
  | Some p =>
      match pool_handle (ps_pools p) rpc_id handle with
      | None => HG_Destroy handle
      | Some pools => set_peer peer (set_ps_pools pools p)
      end
  end.

Definition destroy_pools (pools : list HandlePool) : Mercury_ unit :=
  io_each pools (λ pool, io_each (hp_handles pool) HG_Destroy).

Definition free_handle (handle : Z) : Mercury_ unit :=
  if handle =? HG_NULL then mret tt else HG_Destroy handle.
Definition free_addr (addr : Z) : Mercury_ unit :=
  if addr =? HG_NULL then mret tt else HG_Addr_free addr.

Definition drop_peer (peer : cstring) : Mercury_ unit :=
  i ← ask_impl id;
  match mi_peers i !! peer with
  | None => mret tt
  | Some p =>
      destroy_pools (ps_pools p);;
      free_addr (ps_addr p);;
      match ps_pending_lookup p with
      | Some lookup => set_peer peer (mkPeerState HG_NULL [] (Some lookup))
      | None => erase_peer peer
      end
  end.

Definition take_pending_lookup (peer : cstring) : Mercury_ (option LookupState) :=
  i ← ask_impl id;
  match mi_peers i !! peer with
  | None => mret None
  | Some p =>
      match ps_pending_lookup p with
      | None => mret None
      | Some lookup =>
          (if (ps_addr p =? HG_NULL) && bool_decide (ps_pools p = []) then erase_peer peer
           else set_peer peer (set_ps_pending_lookup None p));;
          mret (Some lookup)
      end
  end.

Definition take_orphaned_lookup (raw : nat) : Mercury_ (option LookupState) :=
  i ← ask_impl id;
  match list_find (λ lookup, ls_id lookup = raw) (mi_orphaned_lookups i) with
  | None => mret None
  | Some (n, lookup) => upd_impl (set_orphaned_lookups (delete n (mi_orphaned_lookups i)));; mret (Some lookup)
  end.

(** ** The client side of an RPC *)

Definition cleanup_client (state : ClientRpcState) : Mercury_ unit :=
  (if cs_origin_bulk state =? HG_NULL then mret tt else HG_Bulk_free (cs_origin_bulk state));;
  (if cs_handle state =? HG_NULL then mret tt
   else if cs_recycle_handle state then recycle_handle (cs_peer state) (cs_rpc_id state) (cs_handle state)
   else HG_Destroy (cs_handle state));;
  if cs_drop_peer state then drop_peer (cs_peer state) else mret tt.

Definition fail_promise (state : ClientRpcState) (e : error) : Mercury_ unit :=
  if cs_promise_done state then mret tt else set_promise (cs_promise state) (Err e).

Definition fail_client (state : ClientRpcState) (e : error) : Mercury_ unit :=
  fail_promise state e;;
  on_rpc_error;;
  cleanup_client (set_cs_promise_done true state).

Definition clear_peer (peer : PeerState) : Mercury_ unit :=
  match ps_pending_lookup peer with
  | None => mret tt
  | Some lookup =>
      io_each (ls_waiters lookup) (λ waiter,
        fail_promise waiter (RuntimeError (str "Mercury shard stopped during address lookup"));;
        cleanup_client (set_cs_promise_done true waiter));;
      upd_impl (λ i, set_orphaned_lookups
        (mi_orphaned_lookups i ++ [mkLookupState (ls_id lookup) (ls_peer lookup) [] true]) i)
  end;;
  destroy_pools (ps_pools peer);;
  free_addr (ps_addr peer).

(** [HG_Create], when no pooled handle could be reset. *)
Definition create_handle (state : ClientRpcState) : Mercury_ (hg_return_t * ClientRpcState) :=
  if negb (cs_handle state =? HG_NULL) then mret (HG_SUCCESS, state)
  else
    uses (RAddr (cs_addr state));;
    '(ret, handle) ← hg (λ n held, HG_Create n held (cs_addr state) (cs_rpc_id state));
    match ret with
    | HG_SUCCESS =>
        acquire (RHandle handle);;
        bind_handle handle (cs_addr state) (cs_rpc_id state);;
        mret (HG_SUCCESS, set_cs_handle handle state)
    | _ => mret (ret, state)
    end.

(** A pooled handle of the peer, reset for this call. *)
Definition cached_handle (state : ClientRpcState) : Mercury_ ClientRpcState :=
  peer ← peer_state (cs_peer state);
  let '(handle, pools) := take_cached_handle (ps_pools peer) (cs_rpc_id state) in
  set_peer (cs_peer state) (set_ps_pools pools peer);;
  if handle =? HG_NULL then mret (set_cs_handle HG_NULL state)
  else
    uses (RHandle handle);;
    uses (RAddr (cs_addr state));;
    ret ← hg (λ n _, HG_Reset n handle (cs_addr state) (cs_rpc_id state));
    match ret with
    | HG_SUCCESS => bind_handle handle (cs_addr state) (cs_rpc_id state);; mret (set_cs_handle handle state)
    | _ => HG_Destroy handle;; mret (set_cs_handle HG_NULL state)
    end.

(** [state.release()]: the record belongs to [forward_cb]. *)
Definition set_forwarding (promise : nat) (state : ClientRpcState) : Mercury_ unit :=
  upd_in_flight (λ f, mkInFlight (<[promise := state]> (forwarding f)) (pulling f) (handling f) (responding f)).
Definition start_client_forward (state : ClientRpcState) : Mercury_ unit :=
  if cs_promise_done state then cleanup_client state
  else
    state ← cached_handle state;
    '(ret, state) ← create_handle state;
    match ret with
    | HG_SUCCESS =>
        uses (RHandle (cs_handle state));;
        uses_bulk (cs_origin_bulk state);;
        ret ← hg (λ n _, HG_Forward n (cs_handle state) (cs_input state));
        match ret with
        | HG_SUCCESS =>
            set_forwarding (cs_promise state) (set_cs_timer true state);;
            hg (λ n _, HG_Progress n);; mret tt
        | _ => fail_client (set_cs_drop_peer true state) (hg_error (str "HG_Forward failed"))
        end
    | _ => fail_client (set_cs_drop_peer true state) (hg_error (str "HG_Create failed"))
    end.

(** What [forward] returns: a failed future, the future of a local handler,
    or that of a promise. *)
Inductive RpcFuture :=
  | FailedFuture (e : error)
  | HandlerFuture (rpc : cstring) (payload : bytes)
  | PromiseFuture (promise : nat).

Definition call_handler (rpc : cstring) (payload : bytes) : Mercury_ unit :=
  entry ← rpc_entry rpc;
  match re_handler entry with
  | Some handler => lift (handler payload)
  | None => fail no_entry
  end.

(** The peer is this shard. *)
Definition forward_local (rpc : cstring) (payload : bytes) : Mercury_ RpcFuture :=
  found ← find_rpc_by_name rpc;
  match found with
  | None => mret (FailedFuture (RuntimeError (str "Mercury RPC is not registered")))
  | Some name =>
      entry ← rpc_entry name;
      match re_handler entry with
      | None => mret (FailedFuture (RuntimeError (str "Mercury RPC is not registered")))
      | Some _ => call_handler name payload;; mret (HandlerFuture name payload)
      end
  end.

(** The id of [rpc], which is registered first when it is not known. *)
Definition forward_rpc_id (rpc : cstring) : Mercury_ Z :=
  found ← find_rpc_by_name rpc;
  (match found with
   | Some _ => mret tt
   | None => register_handler rpc None;; find_rpc_by_name rpc;; mret tt
   end);;
  entry ← rpc_entry rpc;
  (if re_id entry =? 0 then bind_rpc_to_mercury rpc else mret tt);;
  entry ← rpc_entry rpc;
  mret (re_id entry).

(** The bulk descriptor and the input of a request. *)
Definition forward_input (payload : bytes) : Mercury_ (hg_return_t * Z * HgRequest) :=
  if kBulkTransferThreshold <=? zlen payload then
    '(ret, bulk) ← hg (λ n held, HG_Bulk_create n held (zlen payload));
    match ret with
    | HG_SUCCESS => acquire (RBulk bulk);; mret (HG_SUCCESS, bulk, bulk_request (zlen payload) bulk)
    | _ => mret (ret, HG_NULL, HgRequest_init)
    end
  else mret (HG_SUCCESS, HG_NULL, eager_request payload).

Definition forward_to_peer (state : ClientRpcState) : Mercury_ unit :=
  let peer := cs_peer state in
  entry ← peer_state peer;
  if negb (ps_addr entry =? HG_NULL) then start_client_forward (set_cs_addr (ps_addr entry) state)
  else match ps_pending_lookup entry with
  | Some lookup =>
      set_peer peer (set_ps_pending_lookup (Some (mkLookupState (ls_id lookup) (ls_peer lookup)
        (ls_waiters lookup ++ [state]) (ls_cancelled lookup))) entry)
  | None =>
      raw ← next_id;
      set_peer peer (set_ps_pending_lookup (Some (mkLookupState raw peer [state] false)) entry);;
      ret ← hg (λ n _, HG_Addr_lookup n peer);
      match ret with
      | HG_SUCCESS => lookup_due raw peer
      | _ =>
          failed ← take_pending_lookup peer;
          match failed with
          | None => mret tt
          | Some lookup => io_each (ls_waiters lookup) (λ waiter, fail_client waiter (hg_error (str "HG_Addr_lookup failed")))
          end
      end
  end.

Definition forward (peer rpc : cstring) (payload : bytes) : Mercury_ RpcFuture :=
  i ← ask_impl id;
  if bool_decide (peer = mi_address i) then forward_local rpc payload
  else if negb (mi_running i) || negb (mi_hg_class i) || negb (mi_hg_context i)
  then mret (FailedFuture (RuntimeError (str "Mercury shard is not running")))
  else
    rpc_id ← forward_rpc_id rpc;
    on_rpc_forward;;
    '(ret, bulk, input) ← forward_input payload;
    match ret with
    | HG_SUCCESS =>
        promise ← next_id;
        acquire (RPromise promise);;
        forward_to_peer (mkClientRpcState promise false HG_NULL HG_NULL rpc_id peer payload input bulk
          false false false);;
        mret (PromiseFuture promise)
    | _ => on_rpc_error;; mret (FailedFuture (hg_error (str "HG_Bulk_create failed")))
    end.

(** The callback of [timeout_timer]. *)
Definition stale : error := RuntimeError (str "no such operation").
Definition timed_out (promise : nat) : Mercury_ unit :=
  found ← ask_flight (λ f, forwarding f !! promise);
  match found with
  | None => fail stale
  | Some state =>
      if cs_promise_done state then set_forwarding promise (set_cs_timer false state)
      else
        set_promise (cs_promise state) (Err (RuntimeError (str "Mercury RPC timed out")));;
        set_forwarding promise (set_cs_timer false (set_cs_promise_done true state));;
        on_rpc_error;;
        on_rpc_timeout
  end.

(** The reply of a forward that Mercury carried out. *)
Definition take_output (state : ClientRpcState) : Mercury_ unit :=
  '(ret, output) ← hg (λ n _, HG_Get_output n (cs_handle state));
  match ret with
  | HG_SUCCESS =>
      acquire (ROutput (cs_handle state));;
      (if negb (hr_status output =? 0) then
         set_promise (cs_promise state) (Err (RuntimeError (str "remote Mercury RPC handler failed")));;
         on_rpc_error
       else set_promise (cs_promise state) (Ok (bytes_of (hr_payload output))));;
      HG_Free_output (cs_handle state)
  | _ =>
      set_promise (cs_promise state) (Err (hg_error (str "HG_Get_output failed")));;
      on_rpc_error
  end.

(** Mercury has used the handle and the bulk descriptor up to the callback. *)
Definition forward_cb (promise : nat) (ret : hg_return_t) : Mercury_ unit :=
  found ← ask_flight (λ f, forwarding f !! promise);
  match found with
  | None => fail stale
  | Some state =>
      upd_in_flight (λ f, mkInFlight (delete promise (forwarding f)) (pulling f) (handling f) (responding f));;
      uses (RHandle (cs_handle state));;
      uses_bulk (cs_origin_bulk state);;
      match ret with
      | HG_SUCCESS =>
          (if cs_promise_done state then mret tt else take_output state);;
          cleanup_client (set_cs_recycle_handle true (set_cs_promise_done true state))
      | _ =>
          (if cs_promise_done state then mret tt
           else
             set_promise (cs_promise state) (Err (hg_error (str "HG_Forward failed")));;
             on_rpc_error);;
          cleanup_client (set_cs_drop_peer true (set_cs_promise_done true state))
      end
  end.

(** The waiters of a lookup, which go on with the address that was found.
    [peer] is a reference into [peers]: reading it after the peer was erased
    is undefined. *)
Definition dangling_peer : error := UndefinedBehavior (str "peer was erased").
Definition forward_waiter (peer : cstring) (waiter : ClientRpcState) : Mercury_ unit :=
  i ← ask_impl id;
  match mi_peers i !! peer with
  | None => fail dangling_peer
  | Some p => start_client_forward (set_cs_addr (ps_addr p) waiter)
  end.

(** [peer_of raw]: the peer of the lookup that [raw] points to. *)
Definition awaits (raw : nat) (p : PeerState) : bool :=
  match ps_pending_lookup p with Some l => bool_decide (ls_id l = raw) | None => false end.
Definition peer_of (raw : nat) (i : Impl) : option cstring :=
  match List.find (λ kp, awaits raw (snd kp)) (map_to_list (mi_peers i)) with
  | Some (peer, _) => Some peer
  | None => ls_peer <$> List.find (λ l, bool_decide (ls_id l = raw)) (mi_orphaned_lookups i)
  end.

(** [raw] points to a record that was freed. *)
Definition freed_lookup : error := UndefinedBehavior (str "lookup was freed").
Definition lookup_cb (raw : nat) (ret : hg_return_t) (addr : Z) : Mercury_ unit :=
  lookup_over raw ret addr;;
  i ← ask_impl id;
  match peer_of raw i with
  | None => fail freed_lookup
  | Some peer =>
      pending ← take_pending_lookup peer;
      lookup ← match pending with
        | Some lookup => mret (Some lookup)
        | None => take_orphaned_lookup raw
        end;
      match lookup with
      | None => forget ret addr
      | Some lookup =>
          if ls_cancelled lookup then forget ret addr
          else match ret with
          | HG_SUCCESS =>
              p ← peer_state (ls_peer lookup);
              (if ps_addr p =? HG_NULL then set_peer (ls_peer lookup) (set_ps_addr addr p)
               else if negb (addr =? ps_addr p) then HG_Addr_free addr else mret tt);;
              io_each (ls_waiters lookup) (forward_waiter (ls_peer lookup))
          | _ => io_each (ls_waiters lookup) (λ waiter, fail_client waiter (hg_error (str "HG_Addr_lookup failed")))
          end
      end
  end.

(** ** The server side of an RPC *)

Definition respond_server (state : ServerRpcState) : Mercury_ unit :=
  uses (RHandle (ss_handle state));;
  ret ← hg (λ n _, HG_Respond n (ss_handle state) (mkHgReply (ss_status state) (hg_bytes (ss_response state))));
  match ret with
  | HG_SUCCESS =>
      server ← next_id;
      upd_in_flight (λ f, mkInFlight (forwarding f) (pulling f) (handling f) (<[server := state]> (responding f)))
  | _ => free_handle (ss_handle state)
  end.

(** An exception that [handler] throws leaves through the C callback. *)
Definition thrown_in_callback : error := UndefinedBehavior (str "exception in a Mercury callback").
Definition run_server_handler (state : ServerRpcState) : Mercury_ unit :=
  entry ← rpc_entry (ss_rpc state);
  match re_handler entry with
  | None => fail thrown_in_callback
  | Some handler =>
      match handler (ss_request state) with
      | Err _ => fail thrown_in_callback
      | Ok _ =>
          server ← next_id;
          upd_in_flight (λ f, mkInFlight (forwarding f) (pulling f)
            (<[server := mkHandlerCall (ss_request state) (set_ss_request [] state)]> (handling f)) (responding f))
      end
  end.

(** The continuation of the handler's future. *)
Definition handler_done (server : nat) (fut : result bytes) : Mercury_ unit :=
  found ← ask_flight (λ f, handling f !! server);
  match found with
  | None => fail stale
  | Some call =>
      let state := hc_state call in
      upd_in_flight (λ f, mkInFlight (forwarding f) (pulling f) (delete server (handling f)) (responding f));;
      match fut with
      | Ok response => respond_server (set_ss_reply response 0 state)
      | Err _ => on_rpc_error;; respond_server (set_ss_reply [] (-1) state)
      end
  end.

Definition cleanup_server_bulk (state : ServerRpcState) : Mercury_ ServerRpcState :=
  (if ss_local_bulk state =? HG_NULL then mret tt else HG_Bulk_free (ss_local_bulk state));;
  (if ss_input_loaded state then HG_Free_input (ss_handle state) else mret tt);;
  mret (set_ss_local_bulk HG_NULL (set_ss_input (ss_input state) false state)).

Definition respond_cb (server : nat) : Mercury_ unit :=
  found ← ask_flight (λ f, responding f !! server);
  match found with
  | None => fail stale
  | Some state =>
      upd_in_flight (λ f, mkInFlight (forwarding f) (pulling f) (handling f) (delete server (responding f)));;
      uses (RHandle (ss_handle state));;
      free_handle (ss_handle state)
  end.

(** [data]: what the pull wrote into the buffer, through the descriptors of
    the input and of the buffer. *)
Definition pulled (n : nat) (data : bytes) : bytes := take n (data ++ replicate n Byte.x00).
Definition bulk_pull_cb (server : nat) (ret : hg_return_t) (data : bytes) : Mercury_ unit :=
  found ← ask_flight (λ f, pulling f !! server);
  match found with
  | None => fail stale
  | Some state =>
      upd_in_flight (λ f, mkInFlight (forwarding f) (delete server (pulling f)) (handling f) (responding f));;
      uses (RInput (ss_handle state));;
      uses (RBulk (ss_local_bulk state));;
      let state := set_ss_request (pulled (length (ss_request state)) data) state in
      match ret with
      | HG_SUCCESS =>
          on_bulk_transfer (zlen (ss_request state));;
          state ← cleanup_server_bulk state;
          entry ← rpc_entry (ss_rpc state);
          match re_handler entry with
          | Some _ => run_server_handler state
          | None => respond_server state
          end
      | _ =>
          on_rpc_error;;
          on_bulk_error;;
          state ← cleanup_server_bulk (set_ss_reply [] (-1) (set_ss_request [] state));
          respond_server state
      end
  end.

(** A bulk request that cannot be served. *)
Definition reject_bulk (state : ServerRpcState) : Mercury_ hg_return_t :=
  on_rpc_error;;
  on_bulk_error;;
  state ← cleanup_server_bulk state;
  respond_server (set_ss_reply (ss_response state) (-1) state);;
  mret HG_SUCCESS.

Definition start_bulk_pull (state : ServerRpcState) : Mercury_ hg_return_t :=
  let input := ss_input state in
  if (hq_bulk_size input =? 0) || (hq_bulk_handle input =? HG_NULL) then reject_bulk state
  else
    let size := hq_bulk_size input in
    let state := set_ss_request (fresh_buffer size) state in
    '(ret, bulk) ← hg (λ n held, HG_Bulk_create n held size);
    match ret with
    | HG_SUCCESS =>
        acquire (RBulk bulk);;
        let state := set_ss_local_bulk bulk state in
        uses (RHandle (ss_handle state));;
        uses (RInput (ss_handle state));;
        uses (RBulk bulk);;
        ret ← hg (λ n _, HG_Bulk_transfer n (hq_bulk_handle input) bulk size);
        match ret with
        | HG_SUCCESS =>
            server ← next_id;
            upd_in_flight (λ f, mkInFlight (forwarding f) (<[server := state]> (pulling f)) (handling f)
              (responding f));;
            mret HG_SUCCESS
        | _ => reject_bulk state
        end
    | _ => reject_bulk state
    end.

Definition handle_rpc (handle : Z) : Mercury_ hg_return_t :=
  on_rpc_receive;;
  uses (RHandle handle);;
  info ← hg (λ n _, HG_Get_info n handle);
  match info with
  | None => on_rpc_error;; HG_Destroy handle;; mret HG_INVALID_ARG
  | Some rpc_id =>
      found ← ask_impl (find_rpc_by_id rpc_id);
      handler ← match found with
        | None => mret None
        | Some name => entry ← rpc_entry name; mret (re_handler entry)
        end;
      match found, handler with
      | Some name, Some _ =>
          '(ret, input) ← hg (λ n _, HG_Get_input n handle);
          match ret with
          | HG_SUCCESS =>
              acquire (RInput handle);;
              let state := mkServerRpcState handle name input true HG_NULL [] [] 0 in
              if negb (hq_mode input =? HgTransferMode_Bulk) then
                state ← cleanup_server_bulk (set_ss_request (bytes_of (hq_eager input)) state);
                run_server_handler state;;
                mret HG_SUCCESS
              else start_bulk_pull state
          | _ => on_rpc_error;; HG_Destroy handle;; mret ret
          end
      | _, _ => on_rpc_error;; HG_Destroy handle;; mret HG_NOENTRY
      end
  end.

(** [handle] comes with the callback. *)
Definition dispatch_cb (handle : Z) : Mercury_ hg_return_t :=
  acquire (RHandle handle);;
  info ← hg (λ n _, HG_Get_info n handle);
  match info with
  | None => HG_Destroy handle;; mret HG_INVALID_ARG
  | Some rpc_id =>
      data ← hg (λ n _, HG_Registered_data n rpc_id);
      if negb data then HG_Destroy handle;; mret HG_NOENTRY else handle_rpc handle
  end.

(** ** Progress *)

(** What Mercury promises of a callback: it belongs to an operation that is
    under way, and what it brings is new. *)
Definition callback_ok (w : Mercury) (cb : Callback) : bool :=
  match cb with
  | LookupDone raw ret addr =>
      bool_decide (is_Some (lookups (library w) !! raw)) &&
      (bool_decide (ret ≠ HG_SUCCESS) || bool_decide (addr ≠ HG_NULL ∧ RAddr addr ∉ ledger w))
  | ForwardDone promise ret => bool_decide (is_Some (forwarding (in_flight w) !! promise))
  | Dispatched handle =>
      bool_decide (handle ≠ HG_NULL ∧ RHandle handle ∉ ledger w)
  | PullDone server ret data => bool_decide (is_Some (pulling (in_flight w) !! server))
  | RespondDone server => bool_decide (is_Some (responding (in_flight w) !! server))
  end.

Definition callback (cb : Callback) : Mercury_ unit :=
  match cb with
  | LookupDone raw ret addr => lookup_cb raw ret addr
  | ForwardDone promise ret => forward_cb promise ret
  | Dispatched handle => dispatch_cb handle;; mret tt
  | PullDone server ret data => bulk_pull_cb server ret data
  | RespondDone server => respond_cb server
  end.

(** [HG_Trigger]: runs callbacks; how many. *)
Definition run_callback (cb : Callback) : Mercury_ unit := λ w,
  if callback_ok w cb then callback cb w else (Err stale, w).
Definition trigger : Mercury_ nat :=
  '(ret, callbacks) ← hg (λ n _, HG_Trigger n kMercuryTriggerBatch);
  io_each callbacks run_callback;;
  match ret with
  | HG_SUCCESS => mret (length callbacks)
  | _ => mret 0%nat
  end.

(** The [do ... while] loop: whether something was triggered. *)
Fixpoint trigger_loop (fuel : nat) (triggered : bool) : Mercury_ bool :=
  match fuel with
  | O => fail (UndefinedBehavior (str "out of fuel"))
  | S fuel' =>
      actual_count ← trigger;
      match actual_count with
      | O => mret triggered
      | _ => trigger_loop fuel' true
      end
  end.

Fixpoint progress_rounds (fuel rounds : nat) (progressed : bool) : Mercury_ bool :=
  match rounds with
  | O => mret progressed
  | S rounds' =>
      triggered ← trigger_loop fuel false;
      ret ← hg (λ n _, HG_Progress n);
      match ret with
      | HG_SUCCESS => progress_rounds fuel rounds' true
      | _ => if triggered : bool then progress_rounds fuel rounds' true else mret progressed
      end
  end.

Definition progress_once (fuel : nat) : Mercury_ bool :=
  i ← ask_impl id;
  if negb (mi_running i) || negb (mi_hg_context i) then mret false
  else progress_rounds fuel kMercuryProgressRounds false.

Definition arm_progress_timer (recently_active : bool) : Mercury_ unit :=
  upd_impl (λ i, if mi_running i then
    set_progress_timer (Some (if recently_active then kMercuryActiveProgressInterval
                              else kMercuryIdleProgressInterval)) i
  else i).

(** The callback of [progress_timer]. *)
Definition progress_tick (fuel : nat) : Mercury_ unit :=
  upd_impl (set_progress_timer None);;
  progressed ← progress_once fuel;
  arm_progress_timer progressed.

(** ** Start and stop *)

Definition mercury_start_ (address : cstring) (listen : bool) : Mercury_ unit :=
  i ← ask_impl id;
  if mi_running i then mret tt
  else
    class ← hg (λ n _, HG_Init n address listen);
    upd_impl (set_hg_class class);;
    if negb class then fail (RuntimeError (str "HG_Init failed"))
    else
      context ← hg (λ n _, HG_Context_create n);
      upd_impl (set_hg_context context);;
      if negb context then
        upd_impl (set_hg_class false);;
        fail (RuntimeError (str "HG_Context_create failed"))
      else
        upd_impl (set_address address);;
        upd_impl (set_running true);;
        i ← ask_impl id;
        io_each (map_to_list (mi_rpcs_by_name i)) (λ entry,
          if re_id (snd entry) =? 0 then bind_rpc_to_mercury (fst entry) else mret tt);;
        arm_progress_timer false.

Definition clear_all_peers : Mercury_ unit :=
  i ← ask_impl id;
  io_each (map_to_list (mi_peers i)) (λ entry, clear_peer (snd entry));;
  upd_impl (set_mi_peers ∅).

Definition mercury_stop_ : Mercury_ unit :=
  i ← ask_impl id;
  if negb (mi_running i) then mret tt
  else
    upd_impl (set_running false);;
    upd_impl (set_progress_timer None);;
    (if mi_hg_class i then clear_all_peers else mret tt);;
    upd_impl (set_hg_context false);;
    upd_impl (set_hg_class false);;
    upd_impl (set_rpcs_by_id []);;
    upd_impl (set_last_rpc None);;
    upd_impl (λ i, set_rpcs_by_name (set_re_id 0 <$> mi_rpcs_by_name i) i).
End mercury.
