(* ===== verification/MercuryDisabled.v ===== *)
(** * The build without Mercury

    With [MKMQ_HAVE_MERCURY] off, src/mercury_shard.cpp compiles to a stub
    that keeps a state and refuses every call.  [without_mercury] puts it
    below the broker: an acknowledgement for all replicas is then only given
    for partitions that have none elsewhere. *)

From Stdlib Require Import ZArith Lia.
From stdpp Require Import base tactics numbers option gmap functions list.
From S2P Require Import Prelude Wire Protocol Crc32c RecordBatch Config Detail Storage PartitionLog KafkaProtocol PartitionTable BrokerShard.
From S2P Require Import MercuryShard Acknowledged.

Local Open Scope Z_scope.

(** The members of [Impl] in this build. *)
Record DisabledImpl := mkDisabledImpl {
  di_running : bool;
  di_address : cstring;
  di_counters : MercuryCounter → Z;
  di_deferred_handlers : gmap cstring RpcHandler;
}.
Definition DisabledImpl_init : DisabledImpl := mkDisabledImpl false [] (λ _, 0) ∅.

Definition disabled_start (address : cstring) (listen : bool) (impl : DisabledImpl) : DisabledImpl :=
  if di_running impl then impl else mkDisabledImpl true address (di_counters impl) (di_deferred_handlers impl).

Definition disabled_stop (impl : DisabledImpl) : DisabledImpl :=
  if negb (di_running impl) then impl else mkDisabledImpl false (di_address impl) (di_counters impl) (di_deferred_handlers impl).

(** [emplace] keeps a handler that is there. *)
Definition disabled_register_rpc (name : cstring) (handler : RpcHandler) (impl : DisabledImpl) : DisabledImpl :=
  match di_deferred_handlers impl !! name with
  | Some _ => impl
  | None => mkDisabledImpl (di_running impl) (di_address impl) (di_counters impl) (<[name := handler]> (di_deferred_handlers impl))
  end.

Definition disabled_forward (peer rpc : cstring) (payload : bytes) : result bytes :=
  Err (RuntimeError (str "Mercury support is disabled in this build")).

(** Registering twice: the first handler stays, where the build with Mercury
    takes the last. *)
Lemma register_first name handler handler' impl :
  di_deferred_handlers impl !! name = None →
  di_deferred_handlers (disabled_register_rpc name handler' (disabled_register_rpc name handler impl)) !! name = Some handler.
Proof. intros Hn. unfold disabled_register_rpc. rewrite Hn. cbn. rewrite lookup_insert_eq. cbn. by rewrite lookup_insert_eq. Qed.
Lemma register_last {Hg0 : Hg} name handler handler' w :
  mi_hg_class (impl w) = false →
  let w' := snd (register_rpc name handler' (snd (register_rpc name handler w))) in
  re_handler <$> mi_rpcs_by_name (impl w') !! name = Some (Some handler').
Proof.
  intros Hc. unfold register_rpc, register_handler, ask_impl, upd_impl, mbind, IO_bind. cbn.
  rewrite Hc. cbn. rewrite Hc. cbn. by rewrite !lookup_insert_eq.
Qed.

(** ** Below the broker *)

Section below.
Context `{Crc32Intrinsics} `{Storage} (Around : Reactor).
Abbreviation World := (Node (@Net _ Around * (nat → DisabledImpl))).

Definition besides {A} (m : IO (Node (@Net _ Around)) A) : IO World A := λ w,
  let '(r, n) := m (mkNode (shards w) (disk w) (fst (net w))) in (r, mkNode (shards n) (disk n) (net n, snd (net w))).
Definition on_disabled (me : nat) (f : DisabledImpl → DisabledImpl) : IO World unit := λ w,
  (Ok tt, mkNode (shards w) (disk w) (fst (net w), <[me := f (snd (net w) me)]> (snd (net w)))).

Definition without_mercury : Reactor := {|
  Net := @Net _ Around * (nat → DisabledImpl);
  mercury_start me address listens := on_disabled me (disabled_start address listens);
  mercury_stop me := on_disabled me disabled_stop;
  mercury_forward _ peer rpc payload := lift (disabled_forward peer rpc payload);
  listen me address port := besides (listen me address port);
  sleep_ms me ms := besides (sleep_ms me ms);
  deadline_passed me ms := besides (deadline_passed me ms);
  socket_write me frame := besides (socket_write me frame);
|}.

(** A broker built without Mercury never claims that a partition with another
    in-sync member is replicated. *)
Theorem never_replicated hops me request timeout_ms r w w' :
  BrokerShard_append (Reactor0 := without_mercury) hops me request (-1) timeout_ms w = (Ok r, w') → ppr_error_code r = 0 →
  ∃ o b log, shards w !! o = Some b ∧ log_of (key_of request) (table_ b) = Some log ∧
    ((length (pc_isr (config_ log)) ≤ 1)%nat ∨ Forall (λ broker_id, broker_id = bc_node_id (bs_config_ b)) (pc_isr (config_ log))).
Proof.
  intros Ha Hr. apply (append_told (Reactor0 := without_mercury) (λ _ _ _ _, False)) in Ha
    as (o & w0 & _ & b & log & records & count & Hb & Hlog & _ & _ & _ & Hall & _); try done.
  exists o, b, log. split_and!; try done. destruct (decide (1 < length (pc_isr (config_ log)))%nat) as [Hl|]; [right|left; lia].
  destruct (Hall Hl) as (addresses & Hi & Hf). destruct addresses as [|a addresses]; [|by apply Forall_cons in Hf as [(q & _ & []) _]].
  clear -Hi. induction (pc_isr (config_ log)) as [|x isr IH]; [done|]. cbn in Hi. destruct (isr_followers _ isr) as [unknown followers].
  destruct (Z.eqb_spec x (bc_node_id (bs_config_ b))); [by constructor; auto|]. by destruct (find_broker _ x).
Qed.
End below.
