(* ===== verification/MercuryRep.v ===== *)
(** * Ownership in the Mercury shard

    Every resource that is held of Mercury, and every promise that is not
    yet fulfilled, has one owner: a pool of handles, a peer, a waiter of a
    lookup, or an RPC under way.  [owned] counts what the state of the shard
    owns, and [inv w L] says that this and [L], what the running operation
    holds in local variables, is exactly what the ledger lists.  The rules
    below give each step of the code in these terms. *)

From Stdlib Require Import ZArith Lia.
From stdpp Require Import base tactics numbers option fin_maps gmap functions list.
From S2P Require Import Prelude Storage MercuryProc MercuryShard.

(** ** Counting *)

Definition one (r0 r : Resource) : nat := if decide (r0 = r) then 1 else 0.
Fixpoint held (l : list Resource) (r : Resource) : nat :=
  match l with
  | [] => 0
  | x :: l' => one x r + held l' r
  end.
(** A field that is null or names a resource. *)
Definition at_most (z : Z) (f : Z → Resource) (r : Resource) : nat :=
  if Z.eqb z HG_NULL then 0 else one (f z) r.
Definition nothing : Resource → nat := λ _, 0.

Definition total {A} (f : A → Resource → nat) (l : list A) (r : Resource) : nat := sum_list (map (λ x, f x r) l).
Definition msum {K A} `{Countable K} (f : A → Resource → nat) (m : gmap K A) (r : Resource) : nat :=
  map_fold (λ _ x acc, f x r + acc) 0 m.

Definition pools_own (pools : list HandlePool) : Resource → nat :=
  total (λ pool, total (λ h, one (RHandle h)) (hp_handles pool)) pools.
Definition client_owns (s : ClientRpcState) (r : Resource) : nat :=
  at_most (cs_handle s) RHandle r + at_most (cs_origin_bulk s) RBulk r +
  (if cs_promise_done s then 0 else one (RPromise (cs_promise s)) r).
Definition lookup_owns (l : LookupState) : Resource → nat := total client_owns (ls_waiters l).
Definition peer_owns (p : PeerState) (r : Resource) : nat :=
  at_most (ps_addr p) RAddr r + pools_own (ps_pools p) r +
  match ps_pending_lookup p with Some l => lookup_owns l r | None => 0 end.
Definition server_owns (s : ServerRpcState) (r : Resource) : nat :=
  at_most (ss_handle s) RHandle r + at_most (ss_local_bulk s) RBulk r +
  (if ss_input_loaded s then one (RInput (ss_handle s)) r else 0).

Definition call_owns (c : HandlerCall) : Resource → nat := server_owns (hc_state c).

Definition flight_owns (f : InFlight) (r : Resource) : nat :=
  msum client_owns (forwarding f) r + msum server_owns (pulling f) r +
  msum call_owns (handling f) r + msum server_owns (responding f) r.
Definition owned (w : Mercury) (r : Resource) : nat :=
  msum peer_owns (mi_peers (impl w)) r + flight_owns (in_flight w) r.
(** The addresses that were forgotten. *)
Definition lost (b : Library) : Resource → nat := total (λ addr, one (RAddr addr)) (leaked b).

(** ** The invariant *)

Definition resource_ok (n : nat) (r : Resource) : Prop :=
  match r with
  | RHandle z | RAddr z | RBulk z => z ≠ HG_NULL
  | RPromise p => p < n
  | RInput _ | ROutput _ => True
  end.

(** A waiter has not been forwarded yet. *)
Definition waiter_ok (peer : cstring) (s : ClientRpcState) : Prop :=
  cs_peer s = peer ∧ cs_handle s = HG_NULL ∧ cs_promise_done s = false ∧ cs_recycle_handle s = false ∧
  cs_drop_peer s = false.
Definition pool_ok (pool : HandlePool) : Prop := length (hp_handles pool) ≤ kHandlePoolLimitPerPeerRpc.
(** A lookup that is due looks up the peer of its record. *)
Definition lookup_named (b : Library) (l : LookupState) : Prop := ∀ name, lookups b !! ls_id l = Some name → name = ls_peer l.
(** The address of a peer is one that Mercury has found for it. *)
Definition peer_ok (n : nat) (b : Library) (peer : cstring) (p : PeerState) : Prop :=
  Forall pool_ok (ps_pools p) ∧ NoDup (map hp_rpc_id (ps_pools p)) ∧
  (ps_addr p ≠ HG_NULL → resolved b !! ps_addr p = Some peer) ∧
  match ps_pending_lookup p with
  | Some l => (ls_id l < n ∧ lookup_named b l) ∧ ls_peer l = peer ∧ ls_cancelled l = false ∧ Forall (waiter_ok peer) (ls_waiters l)
  | None => True
  end.
Definition orphan_ok (n : nat) (b : Library) (l : LookupState) : Prop :=
  (ls_id l < n ∧ lookup_named b l) ∧ ls_waiters l = [] ∧ ls_cancelled l = true.

(** The handle of a forward is bound to its peer and its RPC. *)
Definition bound_to (b : Library) (s : ClientRpcState) : Prop :=
  bound b !! cs_handle s = Some (Some (cs_peer s), cs_rpc_id s).

(** The timer of a forward that nobody has answered is armed. *)
Definition forward_ok (n : nat) (held : list Resource) (p : nat) (s : ClientRpcState) : Prop :=
  p < n ∧ cs_promise s = p ∧ cs_handle s ≠ HG_NULL ∧ cs_drop_peer s = false ∧ cs_recycle_handle s = false ∧
  if cs_promise_done s then RPromise p ∉ held else cs_timer s = true.
Definition registered (i : Impl) (name : cstring) : Prop := is_Some (mi_rpcs_by_name i !! name).
Definition pull_ok (n : nat) (i : Impl) (k : nat) (s : ServerRpcState) : Prop :=
  k < n ∧ ss_handle s ≠ HG_NULL ∧ registered i (ss_rpc s) ∧ ss_local_bulk s ≠ HG_NULL ∧ ss_input_loaded s = true.
Definition settled (s : ServerRpcState) : Prop :=
  ss_handle s ≠ HG_NULL ∧ ss_local_bulk s = HG_NULL ∧ ss_input_loaded s = false.
Definition reply_ok (n : nat) (k : nat) (s : ServerRpcState) : Prop := k < n ∧ settled s.
Definition call_ok (n : nat) (k : nat) (c : HandlerCall) : Prop := reply_ok n k (hc_state c).

Record inv (w : Mercury) (L : Resource → nat) : Prop := mkInv {
  inv_balance : ∀ r, owned w r + lost (library w) r + L r = held (ledger w) r;
  inv_once : ∀ r, held (ledger w) r ≤ 1;
  inv_valid : ∀ r, r ∈ ledger w → resource_ok (fresh w) r;
  inv_peers : map_Forall (peer_ok (fresh w) (library w)) (mi_peers (impl w));
  inv_orphans : Forall (orphan_ok (fresh w) (library w)) (mi_orphaned_lookups (impl w));
  inv_lookups : map_Forall (λ raw _, raw < fresh w) (lookups (library w));
  inv_bound : map_Forall (λ _, bound_to (library w)) (forwarding (in_flight w));
  inv_open : ∀ p, is_Some (promises w !! p) → p < fresh w ∧ RPromise p ∉ ledger w;
  inv_forwarding : map_Forall (forward_ok (fresh w) (ledger w)) (forwarding (in_flight w));
  inv_pulling : map_Forall (pull_ok (fresh w) (impl w)) (pulling (in_flight w));
  inv_handling : map_Forall (call_ok (fresh w)) (handling (in_flight w));
  inv_responding : map_Forall (reply_ok (fresh w)) (responding (in_flight w));
  inv_registry : Forall (λ e, registered (impl w) (snd e)) (mi_rpcs_by_id (impl w)) ∧
    match mi_last_rpc (impl w) with Some name => registered (impl w) name | None => True end;
}.

(** ** Lemmas on counting *)

Lemma one_refl r : one r r = 1.
Proof. unfold one. by rewrite decide_True. Qed.

Lemma held_app l k r : held (l ++ k) r = held l r + held k r.
Proof. induction l as [|x l IH]; cbn; lia. Qed.

Lemma held_in l r : r ∈ l ↔ 1 ≤ held l r.
Proof.
  induction l as [|x l IH]; cbn; [rewrite elem_of_nil; lia|]. rewrite elem_of_cons, IH. unfold one.
  destruct (decide (x = r)); naive_solver lia.
Qed.

Lemma held_out l r : r ∉ l → held l r = 0.
Proof. rewrite held_in. lia. Qed.

Lemma strike_held r l : r ∈ l → ∃ k, strike r l = Some k ∧ ∀ x, held l x = one r x + held k x.
Proof.
  induction l as [|y l IH]; [by rewrite elem_of_nil|]. rewrite elem_of_cons. intros Hin. cbn.
  destruct (decide (y = r)) as [->|Hne].
  - rewrite bool_decide_true by done. by exists l.
  - rewrite bool_decide_false by done. destruct IH as (k & -> & Hk); [naive_solver|].
    exists (y :: k). split; [done|]. intros x. cbn. rewrite Hk. lia.
Qed.

Lemma total_app {A} (f : A → Resource → nat) l k r : total f (l ++ k) r = total f l r + total f k r.
Proof. unfold total. rewrite map_app. induction (map (λ x, f x r) l) as [|x xs IH]; cbn; lia. Qed.

Section msum.
Context {K A : Type} `{Countable K} (f : A → Resource → nat).

Lemma msum_empty r : msum f (∅ : gmap K A) r = 0.
Proof. apply map_fold_empty. Qed.

Lemma msum_new (m : gmap K A) k x r : m !! k = None → msum f (<[k := x]> m) r = f x r + msum f m r.
Proof. intros Hk. unfold msum. rewrite map_fold_insert_L; [done| |done]. intros; lia. Qed.

Lemma msum_delete (m : gmap K A) k x r : m !! k = Some x → msum f m r = f x r + msum f (delete k m) r.
Proof. intros Hk. unfold msum. rewrite (map_fold_delete_L _ _ k x m); [done| |done]. intros; lia. Qed.

Lemma msum_insert (m : gmap K A) k x y r : m !! k = Some x → msum f (<[k := y]> m) r + f x r = f y r + msum f m r.
Proof.
  intros Hk. rewrite <- insert_delete_eq, msum_new by apply lookup_delete_eq. rewrite (msum_delete m k x r Hk). lia.
Qed.

Lemma msum_none (m : gmap K A) r : (∀ x, f x r = 0) → msum f m r = 0.
Proof.
  intros Hf. induction m as [|k x m Hk IH] using map_ind; [apply msum_empty|]. rewrite msum_new, Hf by done. done.
Qed.

Lemma msum_list (m : gmap K A) r : msum f m r = total f (map_to_list m).*2 r.
Proof.
  unfold msum, total. rewrite map_fold_foldr. induction (map_to_list m) as [|[k x] l IH]; [done|]. cbn. by rewrite IH.
Qed.
End msum.

(** ** Steps *)

(** [m] ends in a state and with a value that satisfy [Q], or throws as [E]
    allows. *)
Definition wp {A} (E : error → Mercury → Prop) (m : Mercury_ A) (Q : A → Mercury → Prop) (w : Mercury) : Prop :=
  match m w with
  | (Ok a, w') => Q a w'
  | (Err e, w') => E e w'
  end.
Definition never : error → Mercury → Prop := λ _ _, False.

Lemma wp_ret {A} E (a : A) Q w : Q a w → wp E (mret a) Q w.
Proof. done. Qed.

Lemma wp_bind {A B} E (m : Mercury_ A) (k : A → Mercury_ B) Q w :
  wp E m (λ a, wp E (k a) Q) w → wp E (m ≫= k) Q w.
Proof. unfold wp. cbn. unfold mbind, IO_bind. by destruct (m w) as [[a|e] w']. Qed.

Lemma wp_mono {A} E (m : Mercury_ A) (Q Q' : A → Mercury → Prop) w :
  wp E m Q w → (∀ a w', Q a w' → Q' a w') → wp E m Q' w.
Proof. unfold wp. destruct (m w) as [[a|e] w']; auto. Qed.

Lemma wp_never {A} E (m : Mercury_ A) Q w : wp never m Q w → wp E m Q w.
Proof. unfold wp. by destruct (m w) as [[a|e] w']. Qed.

(** A step that does not throw, then the rest. *)
Lemma wp_seq {A B} E (m : Mercury_ A) (k : A → Mercury_ B) (Q : B → Mercury → Prop) (R : A → Mercury → Prop) w :
  wp never m R w → (∀ a w', R a w' → wp E (k a) Q w') → wp E (m ≫= k) Q w.
Proof. intros Hm Hk. apply wp_bind. eapply wp_mono; [by apply wp_never|done]. Qed.

Lemma wp_each {A} E (body : A → Mercury_ unit) (I : list A → Mercury → Prop) l w :
  I l w → (∀ x l' w', I (x :: l') w' → wp E (body x) (λ _, I l') w') → wp E (io_each l body) (λ _, I []) w.
Proof.
  intros HI Hstep. revert w HI. induction l as [|x l IH]; intros w HI; [done|]. cbn. apply wp_bind.
  eapply wp_mono; [by apply Hstep|]. intros [] w' Hw'. by apply IH.
Qed.

(** From [w] to [w'] only the ledger, the promises, the clock and the
    counters changed. *)
Definition same (w w' : Mercury) : Prop :=
  (∃ c, impl w' = set_mi_counters c (impl w)) ∧ in_flight w' = in_flight w ∧ fresh w' = fresh w ∧ library w' = library w.

#[global] Instance same_preorder : PreOrder same.
Proof.
  split.
  - intros w. split; [|done]. exists (mi_counters (impl w)). by destruct (impl w).
  - intros a b c ([c1 H1] & H2 & H3 & H4) ([c2 G1] & G2 & G3 & G4). split; [|by rewrite G2, G3, G4].
    exists c2. by rewrite G1, H1.
Qed.

Lemma same_ledger w l ps n : same w (mkMercury (impl w) (in_flight w) l ps (fresh w) n (library w)).
Proof. split; [|done]. exists (mi_counters (impl w)). by destruct (impl w). Qed.

Lemma same_peers w w' : same w w' → mi_peers (impl w') = mi_peers (impl w).
Proof. by intros ([c ->] & _). Qed.
Lemma same_rpcs w w' : same w w' → mi_rpcs_by_name (impl w') = mi_rpcs_by_name (impl w).
Proof. by intros ([c ->] & _). Qed.
Lemma same_flight w w' : same w w' → in_flight w' = in_flight w.
Proof. by intros (_ & -> & _). Qed.
Lemma same_library w w' : same w w' → library w' = library w.
Proof. by intros (_ & _ & _ & ->). Qed.

Lemma inv_ext w L L' : inv w L → (∀ r, L' r = L r) → inv w L'.
Proof. intros [] HL. split; try done. intros r. by rewrite HL. Qed.

(** The ledger changes with what is in the hands of the operation. *)
Lemma inv_ledger w w' L L' :
  inv w L → same w w' →
  (∀ r, held (ledger w') r + L r = held (ledger w) r + L' r) → (∀ r, held (ledger w') r ≤ 1) →
  (∀ r, r ∈ ledger w' → r ∈ ledger w ∨
     resource_ok (fresh w) r ∧ ∀ p, r = RPromise p → forwarding (in_flight w) !! p = None ∧ promises w' !! p = None) →
  (∀ p, is_Some (promises w' !! p) → is_Some (promises w !! p) ∨ p < fresh w ∧ RPromise p ∉ ledger w') →
  inv w' L'.
Proof.
  intros [Hb Ho Hv Hp Hor Hlk Hbd Hop Hf Hpu Hh Hr Hreg] ([c Hi] & Hfl & Hn & Hlib) Hl Ho' Hin Hpr.
  split; rewrite ?Hi, ?Hfl, ?Hn, ?Hlib; try done.
  - intros r. specialize (Hb r). specialize (Hl r). unfold owned in *. rewrite Hi, Hfl. cbn [mi_peers set_mi_counters]. lia.
  - intros r [?|[? _]]%Hin; auto.
  - intros p Hsome. destruct (Hpr p Hsome) as [Hold|[??]]; [|done]. destruct (Hop p Hold) as [? Hout]. split; [done|].
    intros [?|[_ Hnone]]%Hin; [done|]. destruct (Hnone p eq_refl) as [_ Hnp]. rewrite Hnp in Hsome. by destruct Hsome.
  - intros p s Hs. destruct (Hf p s Hs) as (H1 & H2 & H2' & H3 & H4 & H5). split_and!; try done.
    destruct (cs_promise_done s); [|done]. intros [?|[_ Hnone]]%Hin; [done|]. destruct (Hnone p eq_refl). congruence.
Qed.

(** *** Primitives *)

Lemma inv_holds w L r : inv w L → 1 ≤ L r → r ∈ ledger w.
Proof. intros Hi HL. apply held_in. rewrite <- (inv_balance w L Hi). lia. Qed.

Lemma release_wp r w L :
  inv w (λ x, one r x + L x) → wp never (release r) (λ _ w', inv w' L ∧ same w w') w.
Proof.
  intros Hi. unfold wp, release. assert (r ∈ ledger w) as Hin by (apply (inv_holds _ _ r Hi); rewrite one_refl; lia).
  destruct (strike_held r (ledger w) Hin) as (k & -> & Hk).
  set (w' := mkMercury _ _ _ _ _ _ _). assert (same w w') as Hs by apply same_ledger.
  split; [|done]. pose proof (inv_once _ _ Hi) as Ho. eapply (inv_ledger w w'); [done|done|..].
  - intros x. rewrite (Hk x). cbn [w' ledger]. lia.
  - intros x. specialize (Ho x). rewrite Hk in Ho. cbn [w' ledger]. lia.
  - intros x Hx. left. apply held_in. rewrite Hk. apply held_in in Hx. cbn [w' ledger] in Hx. lia.
  - by left.
Qed.

Lemma acquire_wp r w L :
  inv w L → r ∉ ledger w → resource_ok (fresh w) r →
  (∀ p, r = RPromise p → forwarding (in_flight w) !! p = None ∧ promises w !! p = None) →
  wp never (acquire r) (λ _ w', inv w' (λ x, one r x + L x) ∧ same w w') w.
Proof.
  intros Hi Hr Hok Hp. unfold wp, acquire, modify.
  set (w' := mkMercury _ _ _ _ _ _ _). assert (same w w') as Hs by apply same_ledger.
  split; [|done]. pose proof (inv_once _ _ Hi) as Ho. eapply (inv_ledger w w'); [done|done|..].
  - intros x. cbn. lia.
  - intros x. specialize (Ho x). cbn. unfold one. destruct (decide (r = x)) as [<-|]; [|lia].
    rewrite held_out by done. lia.
  - intros x. cbn. rewrite elem_of_cons. intros [->|?]; [right|by left]. done.
  - by left.
Qed.

Lemma uses_wp r w L : inv w L → 1 ≤ L r → wp never (uses r) (λ _ w', inv w' L ∧ same w w') w.
Proof. intros Hi Hr. unfold wp, uses. rewrite bool_decide_true by by eapply inv_holds. done. Qed.

Lemma hg_wp {A} (f : nat → list Resource → A) w L :
  inv w L → wp never (hg f) (λ a w', a = f (clock w) (ledger w) ∧ inv w' L ∧ same w w' ∧ ledger w' = ledger w) w.
Proof.
  intros Hi. unfold wp, hg. pose proof (same_ledger w (ledger w) (promises w) (S (clock w))) as Hs.
  split_and!; try done. eapply inv_ledger; [done|done|done| |by left|by left]. apply Hi.
Qed.

Lemma mbump_wp c n w L : inv w L → wp never (mbump c n) (λ _ w', inv w' L ∧ same w w') w.
Proof.
  intros Hi. unfold wp, mbump, upd_impl, modify. set (w' := mkMercury _ _ _ _ _ _ _).
  assert (same w w') as Hs by (split; [by eexists|done]). split; [|done].
  eapply inv_ledger; [done|done|done| |by left|by left]. apply Hi.
Qed.

Lemma set_promise_wp p r w L :
  inv w (λ x, one (RPromise p) x + L x) → wp never (set_promise p r) (λ _ w', inv w' L ∧ same w w') w.
Proof.
  intros Hi. assert (RPromise p ∈ ledger w) as Hin by (apply (inv_holds _ _ _ Hi); rewrite one_refl; lia).
  pose proof (inv_once _ _ Hi (RPromise p)) as Ho. apply (inv_valid _ _ Hi) in Hin as Hlt. cbn in Hlt.
  destruct (strike_held _ _ Hin) as (k & Hk & Hheld). specialize (Hheld (RPromise p)). rewrite one_refl in Hheld.
  pose proof (release_wp (RPromise p) w L Hi) as Hrel. unfold set_promise. apply wp_bind.
  unfold wp, release in Hrel |- *. rewrite Hk in Hrel |- *. destruct Hrel as [Hi1 Hs1]. unfold modify.
  set (w1 := mkMercury _ _ k _ _ _ _) in Hi1, Hs1.
  set (w' := mkMercury _ _ _ _ _ _ _).
  assert (same w1 w') as Hs by apply same_ledger.
  split; [|by transitivity w1]. eapply (inv_ledger w1 w'); [done|done|done|apply Hi1|by left|]. cbn.
  intros q Hq. destruct (decide (q = p)) as [->|Hne]; [right; split; [done|]; rewrite held_in; lia|].
  left. by rewrite lookup_insert_ne in Hq.
Qed.

(** *** Peers and RPCs under way *)

Lemma peers_wp (f : gmap cstring PeerState → gmap cstring PeerState) w L L' :
  inv w L → map_Forall (peer_ok (fresh w) (library w)) (f (mi_peers (impl w))) →
  (∀ r, msum peer_owns (f (mi_peers (impl w))) r + L' r = msum peer_owns (mi_peers (impl w)) r + L r) →
  wp never (upd_impl (λ i, set_mi_peers (f (mi_peers i)) i))
    (λ _ w', inv w' L' ∧ in_flight w' = in_flight w ∧ ledger w' = ledger w ∧ fresh w' = fresh w ∧
       impl w' = set_mi_peers (f (mi_peers (impl w))) (impl w) ∧ library w' = library w ∧ promises w' = promises w) w.
Proof.
  intros [] Hok Hr. unfold wp, upd_impl, modify. split; [|done]. split; cbn; try done.
  intros r. specialize (Hr r). specialize (inv_balance0 r). unfold owned in *. cbn. lia.
Qed.

Lemma set_peer_wp peer p w L L' :
  inv w L → peer_ok (fresh w) (library w) peer p →
  (∀ r, peer_owns p r + L' r =
     match mi_peers (impl w) !! peer with Some p0 => peer_owns p0 r | None => 0 end + L r) →
  wp never (set_peer peer p) (λ _ w', inv w' L' ∧ in_flight w' = in_flight w ∧ ledger w' = ledger w ∧ fresh w' = fresh w ∧
     impl w' = set_mi_peers (<[peer := p]> (mi_peers (impl w))) (impl w) ∧ library w' = library w ∧ promises w' = promises w) w.
Proof.
  intros Hi Hok Hr. apply (peers_wp (<[peer := p]>) w L L'); [done|by apply map_Forall_insert_2; [|apply Hi]|].
  intros r. specialize (Hr r). destruct (mi_peers (impl w) !! peer) as [p0|] eqn:Hp.
  - pose proof (msum_insert peer_owns (mi_peers (impl w)) peer p0 p r Hp). lia.
  - rewrite msum_new by done. lia.
Qed.

Lemma erase_peer_wp peer p w L :
  inv w L → mi_peers (impl w) !! peer = Some p → 
  wp never (erase_peer peer) (λ _ w', inv w' (λ r, peer_owns p r + L r) ∧ in_flight w' = in_flight w ∧ ledger w' = ledger w ∧
     fresh w' = fresh w ∧ impl w' = set_mi_peers (delete peer (mi_peers (impl w))) (impl w) ∧ library w' = library w ∧ promises w' = promises w) w.
Proof.
  intros Hi Hp. apply (peers_wp (delete peer) w L); [done|by apply map_Forall_delete, Hi|].
  intros r. rewrite (msum_delete peer_owns (mi_peers (impl w)) peer p r Hp). lia.
Qed.

Lemma peer_state_wp peer w L :
  inv w L → wp never (peer_state peer) (λ p w', inv w' L ∧ in_flight w' = in_flight w ∧ ledger w' = ledger w ∧
    fresh w' = fresh w ∧ mi_peers (impl w') !! peer = Some p ∧ library w' = library w ∧
    match mi_peers (impl w) !! peer with Some p0 => p = p0 ∧ w' = w | None => p = PeerState_init end) w.
Proof.
  intros Hi. unfold peer_state, ask_impl. apply wp_bind. unfold wp at 1. cbn [id].
  destruct (mi_peers (impl w) !! peer) as [p|] eqn:Hp; [done|].
  eapply wp_seq; [apply (set_peer_wp peer PeerState_init w L L Hi)|].
  - split; [constructor|]. split; [constructor|]. split; [|done]. by intros [].
  - intros r. by rewrite Hp.
  - intros _ w' (Hi' & Hf & Hl & Hn & He & Hb & _). apply wp_ret. split_and!; try done. rewrite He. cbn. by apply lookup_insert_eq.
Qed.

(** The RPCs under way change, with what they own. *)
Lemma in_flight_wp (f : InFlight → InFlight) w L L' :
  inv w L → (∀ r, flight_owns (f (in_flight w)) r + L' r = flight_owns (in_flight w) r + L r) →
  map_Forall (forward_ok (fresh w) (ledger w)) (forwarding (f (in_flight w))) →
  map_Forall (λ _, bound_to (library w)) (forwarding (f (in_flight w))) →
  map_Forall (pull_ok (fresh w) (impl w)) (pulling (f (in_flight w))) →
  map_Forall (call_ok (fresh w)) (handling (f (in_flight w))) →
  map_Forall (reply_ok (fresh w)) (responding (f (in_flight w))) →
  wp never (upd_in_flight f) (λ _ w', inv w' L' ∧ impl w' = impl w ∧ ledger w' = ledger w) w.
Proof.
  intros [] Hr H1 Hbd H2 H3 H4. unfold wp, upd_in_flight, modify. split; [|done]. split; cbn; try done.
  intros r. specialize (Hr r). specialize (inv_balance0 r). unfold owned in *. cbn. lia.
Qed.

Lemma forward_ok_mono n n' l p s : n ≤ n' → forward_ok n l p s → forward_ok n' l p s.
Proof. intros Hn (? & ?). split; [lia|done]. Qed.

Lemma next_id_wp w L :
  inv w L → wp never next_id (λ n w', n = fresh w ∧ inv w' L ∧ in_flight w' = in_flight w ∧ impl w' = impl w ∧
    ledger w' = ledger w ∧ fresh w' = S (fresh w) ∧ library w' = library w ∧ promises w' = promises w) w.
Proof.
  intros []. unfold wp, next_id. split_and!; try done. split; cbn; try done.
  - intros r Hin. specialize (inv_valid0 r Hin). destruct r; cbn in *; auto with lia.
  - intros k p Hp. destruct (inv_peers0 k p Hp) as (? & ? & ? & Hl). split_and!; try done.
    destruct (ps_pending_lookup p); [|done]. destruct Hl as [[? ?] Hl]. split; [split; [lia|done]|done].
  - eapply Forall_impl; [done|]. intros l [[? ?] Hl]. split; [split; [lia|done]|done].
  - intros k p Hp. specialize (inv_lookups0 k p Hp). cbn in inv_lookups0. lia.
  - intros p Hp. destruct (inv_open0 p Hp). split; [lia|done].
  - intros k p Hp. eapply forward_ok_mono; [|by apply inv_forwarding0]. lia.
  - intros k p Hp. destruct (inv_pulling0 k p Hp). split; [lia|done].
  - intros k p Hp. destruct (inv_handling0 k p Hp). split; [lia|done].
  - intros k p Hp. destruct (inv_responding0 k p Hp). split; [lia|done].
Qed.

(** *** The registry *)

Lemma registry_wp (f : Impl → Impl) w L :
  inv w L → mi_peers (f (impl w)) = mi_peers (impl w) →
  mi_orphaned_lookups (f (impl w)) = mi_orphaned_lookups (impl w) →
  (∀ name, registered (impl w) name → registered (f (impl w)) name) →
  Forall (λ e, registered (f (impl w)) (snd e)) (mi_rpcs_by_id (f (impl w))) →
  match mi_last_rpc (f (impl w)) with Some name => registered (f (impl w)) name | None => True end →
  wp never (upd_impl f) (λ _ w', inv w' L ∧ impl w' = f (impl w) ∧ ledger w' = ledger w ∧ in_flight w' = in_flight w ∧
    fresh w' = fresh w ∧ library w' = library w ∧ promises w' = promises w) w.
Proof.
  intros [] Hp Ho Hr Hid Hlast. unfold wp, upd_impl, modify. split; [|done]. split; cbn; try done.
  - intros r. specialize (inv_balance0 r). unfold owned in *. cbn. by rewrite Hp.
  - by rewrite Hp.
  - by rewrite Ho.
  - intros k s Hs. destruct (inv_pulling0 k s Hs) as (? & ? & ? & ? & ?). split_and!; auto.
Qed.

(** *** What Mercury knows *)

(** A handle in the hands of the operation is not that of a forward. *)
Lemma handle_not_forwarding w L p s h :
  inv w L → 1 ≤ L (RHandle h) → forwarding (in_flight w) !! p = Some s → cs_handle s ≠ h.
Proof.
  intros Hi HL Hs <-. destruct (inv_forwarding _ _ Hi p s Hs) as (_ & _ & Hne & _).
  pose proof (inv_balance _ _ Hi (RHandle (cs_handle s))) as Hb. pose proof (inv_once _ _ Hi (RHandle (cs_handle s))).
  unfold owned, flight_owns in Hb. rewrite (msum_delete client_owns _ _ _ _ Hs) in Hb. unfold client_owns at 1, at_most at 1 in Hb.
  rewrite (proj2 (Z.eqb_neq _ _) Hne), one_refl in Hb. lia.
Qed.

Lemma bind_handle_wp h addr rpc_id w L :
  inv w L → 1 ≤ L (RHandle h) →
  wp never (bind_handle h addr rpc_id) (λ _ w', inv w' L ∧ impl w' = impl w ∧ in_flight w' = in_flight w ∧
    ledger w' = ledger w ∧ bound (library w') !! h = Some (resolved (library w) !! addr, rpc_id)) w.
Proof.
  intros Hi HL. pose proof (λ p s, handle_not_forwarding w L p s h Hi HL) as Hne. destruct Hi.
  unfold wp, bind_handle, upd_library, modify. split; [|by cbn; rewrite lookup_insert_eq]. split; cbn; try done.
  intros p s Hs. unfold bound_to. cbn. rewrite lookup_insert_ne by (by apply not_eq_sym, (Hne p)). by apply (inv_bound0 p).
Qed.

Lemma lookup_due_wp raw name w L :
  inv w L → raw < fresh w →
  (∀ peer p l, mi_peers (impl w) !! peer = Some p → ps_pending_lookup p = Some l → ls_id l = raw → ls_peer l = name) →
  (∀ l, l ∈ mi_orphaned_lookups (impl w) → ls_id l ≠ raw) →
  wp never (lookup_due raw name) (λ _ w', inv w' L) w.
Proof.
  intros [] Hraw Hp Ho. unfold wp, lookup_due, upd_library, modify. split; cbn; try done.
  - intros k p Hk. destruct (inv_peers0 k p Hk) as (? & ? & ? & Hl). split_and!; try done.
    destruct (ps_pending_lookup p) as [l|] eqn:El; [|done]. destruct Hl as ([? Hn] & ?). split; [split; [done|]|done].
    intros x. cbn. destruct (decide (ls_id l = raw)) as [<-|Hne]; [|rewrite lookup_insert_ne by done; apply Hn].
    rewrite lookup_insert_eq. intros [= <-]. symmetry. by apply (Hp k p).
  - rewrite Forall_forall in inv_orphans0 |- *. intros l Hl. destruct (inv_orphans0 l Hl) as ([? Hn] & ?). split; [split; [done|]|done].
    intros x. cbn. rewrite lookup_insert_ne by (by apply not_eq_sym, Ho). apply Hn.
  - by apply map_Forall_insert_2.
Qed.

Lemma peer_addr_held w L peer p :
  inv w L → mi_peers (impl w) !! peer = Some p → ps_addr p ≠ HG_NULL → RAddr (ps_addr p) ∈ ledger w.
Proof.
  intros Hi Hp Hne. apply held_in. rewrite <- (inv_balance _ _ Hi). unfold owned. rewrite (msum_delete peer_owns _ _ _ _ Hp).
  unfold peer_owns at 1, at_most. rewrite (proj2 (Z.eqb_neq _ _) Hne), one_refl. lia.
Qed.

(** A lookup is over: Mercury may have found a new address. *)
Definition found_addr (ret : hg_return_t) (addr : Z) (r : Resource) : nat :=
  match ret with HG_SUCCESS => one (RAddr addr) r | _ => 0 end.
Lemma lookup_over_wp raw ret addr name w L :
  inv w L → lookups (library w) !! raw = Some name →
  (ret = HG_SUCCESS → addr ≠ HG_NULL ∧ RAddr addr ∉ ledger w) →
  wp never (lookup_over raw ret addr) (λ _ w', inv w' (λ r, found_addr ret addr r + L r) ∧ impl w' = impl w ∧
    leaked (library w') = leaked (library w) ∧ (ret = HG_SUCCESS → resolved (library w') !! addr = Some name)) w.
Proof.
  intros Hi Hraw Hnew. unfold lookup_over, upd_library, modify. apply wp_bind. unfold wp at 1. rewrite Hraw.
  set (w1 := mkMercury _ _ _ _ _ _ _).
  assert (inv w1 L) as Hi1.
  { pose proof (λ k p, peer_addr_held w L k p Hi) as Haddr. destruct Hi.
    assert (∀ l, lookup_named (library w) l → lookup_named (library w1) l) as Hn.
    { intros l Hl x. cbn. intros [_ Hx]%lookup_delete_Some. by apply Hl. }
    split; cbn; try done.
    - intros k p Hp. destruct (inv_peers0 k p Hp) as (? & ? & Ha & Hl). split_and!; try done.
      + cbn. intros Hne. destruct ret; [|by apply Ha..]. destruct (Hnew eq_refl) as [_ Hout].
        rewrite lookup_insert_ne; [by apply Ha|]. intros ->. by apply Hout, (Haddr k p).
      + destruct (ps_pending_lookup p); [|done]. destruct Hl as ([? ?] & ?). split; [split|]; auto.
    - eapply Forall_impl; [done|]. intros l ([? ?] & ?). split; [split|]; auto.
    - by apply map_Forall_delete. }
  destruct ret; [|by apply wp_ret..]. destruct (Hnew eq_refl) as [Hne Hout].
  pose proof (acquire_wp (RAddr addr) w1 L Hi1 Hout Hne ltac:(done)) as [Hi2 _].
  unfold wp, acquire, modify. split_and!; [exact Hi2|done|done|]. intros _. cbn. apply lookup_insert_eq.
Qed.

(** An address that [lookup_cb] forgets. *)
Lemma forget_wp ret addr w L :
  inv w (λ r, found_addr ret addr r + L r) → wp never (forget ret addr) (λ _ w', inv w' L) w.
Proof.
  intros Hi. unfold forget. destruct ret; [|by apply wp_ret..]. destruct Hi. unfold wp, upd_library, modify. split; cbn; try done.
  intros r. specialize (inv_balance0 r). unfold owned, lost, total in *. cbn in *. lia.
Qed.

(** Nobody keeps a decoded output. *)
Lemma total_none {A} (f : A → Resource → nat) l r : (∀ x, f x r = 0) → total f l r = 0.
Proof. intros Hf. induction l as [|x l IH]; [done|]. unfold total in *. cbn. by rewrite Hf, IH. Qed.

Lemma at_most_other z f r : (∀ x, f x ≠ r) → at_most z f r = 0.
Proof. intros Hf. unfold at_most, one. destruct (Z.eqb _ _); [done|]. by rewrite decide_False. Qed.

(** Clients and peers own no decoded inputs and outputs. *)
Definition decoded (r : Resource) : Prop := match r with RInput _ | ROutput _ => True | _ => False end.

Lemma lost_decoded b r : decoded r → lost b r = 0.
Proof. intros Hr. apply total_none. intros addr. unfold one. by rewrite decide_False by (by intros <-). Qed.
Lemma lost_promise b p : lost b (RPromise p) = 0.
Proof. apply total_none. intros addr. unfold one. by rewrite decide_False. Qed.
Lemma lost_handle b h : lost b (RHandle h) = 0.
Proof. apply total_none. intros addr. unfold one. by rewrite decide_False. Qed.

Lemma client_owns_decoded s r : decoded r → client_owns s r = 0.
Proof. intros Hr. unfold client_owns. destruct r; try done; rewrite !at_most_other by done; by destruct (cs_promise_done s). Qed.

Lemma peer_owns_decoded p r : decoded r → peer_owns p r = 0.
Proof.
  intros Hr. unfold peer_owns, pools_own. rewrite at_most_other by (by intros ? <-).
  rewrite total_none by (intros; apply total_none; intros; unfold one; by rewrite decide_False by (by intros <-)).
  destruct (ps_pending_lookup p); [|done]. apply total_none. intros; by apply client_owns_decoded.
Qed.

Lemma owned_output w h : owned w (ROutput h) = 0.
Proof.
  assert (∀ s, server_owns s (ROutput h) = 0) as Hs.
  { intros s. unfold server_owns. rewrite !at_most_other by done. by destruct (ss_input_loaded s). }
  unfold owned, flight_owns. rewrite !(msum_none server_owns), (msum_none call_owns) by (done || intros; apply Hs).
  rewrite (msum_none client_owns) by (intros; by apply client_owns_decoded).
  by rewrite (msum_none peer_owns) by (intros; by apply peer_owns_decoded).
Qed.

Lemma msum_le {K A} `{Countable K} (f : A → Resource → nat) (P : K → A → Prop) (m : gmap K A) r r' :
  map_Forall P m → (∀ k x, P k x → f x r ≤ f x r') → msum f m r ≤ msum f m r'.
Proof.
  intros HP Hf. induction m as [|k x m Hk IH] using map_ind; [by rewrite !msum_empty|].
  rewrite !msum_new by done. apply map_Forall_insert in HP as [Hx HP]; [|done]. specialize (Hf k x Hx). specialize (IH HP). lia.
Qed.

(** An input is decoded from a handle that its owner holds. *)
Lemma owned_input w L h : inv w L → owned w (RInput h) ≤ owned w (RHandle h).
Proof.
  intros Hi. assert (∀ s, ss_handle s ≠ HG_NULL → server_owns s (RInput h) ≤ server_owns s (RHandle h)) as Hs.
  { intros s Hh. unfold server_owns. rewrite !(at_most_other _ _ (RInput h)) by done. unfold at_most at 1.
    rewrite (proj2 (Z.eqb_neq _ _) Hh). destruct (ss_input_loaded s); [|lia]. unfold one.
    destruct (decide (RInput _ = _)) as [[= <-]|]; [|lia]. rewrite decide_True by done. lia. }
  unfold owned, flight_owns. rewrite (msum_none client_owns _ (RInput h)) by (intros; by apply client_owns_decoded).
  rewrite (msum_none peer_owns _ (RInput h)) by (intros; by apply peer_owns_decoded).
  pose proof (msum_le server_owns _ _ (RInput h) (RHandle h) (inv_pulling _ _ Hi) (λ k x Hx, Hs x (proj1 (proj2 Hx)))).
  pose proof (msum_le call_owns _ _ (RInput h) (RHandle h) (inv_handling _ _ Hi) (λ k x Hx, Hs (hc_state x) (proj1 (proj2 Hx)))).
  pose proof (msum_le server_owns _ _ (RInput h) (RHandle h) (inv_responding _ _ Hi) (λ k x Hx, Hs x (proj1 (proj2 Hx)))).
  lia.
Qed.
