(* ===== verification/MercuryKeeps.v ===== *)
(** * What no step of the Mercury shard takes back

    Facts that hold step by step whatever the state ([Stable]: a relation that
    the primitive steps respect, and so every operation does): a promise that
    was given out stays known, the clock does not go back, only start and
    stop change whether the shard runs, only a callback with an address loses
    one, and only a reply gives a promise a value. *)

From Stdlib Require Import ZArith Lia.
From stdpp Require Import base tactics numbers option fin_maps gmap functions list.
From S2P Require Import Prelude Storage MercuryProc MercuryShard MercuryRep.

(** [m] only makes steps of [R]. *)
Definition respects {A} (R : Mercury → Mercury → Prop) (m : Mercury_ A) : Prop := ∀ w, R w (snd (m w)).

Section respects.
Context (R : Mercury → Mercury → Prop) `{!PreOrder R}.

Lemma respects_ret {A} (a : A) : respects R (mret a).
Proof. intros w. reflexivity. Qed.
Lemma respects_fail {A} e : respects R (fail e : Mercury_ A).
Proof. intros w. reflexivity. Qed.
Lemma respects_lift {A} (r : result A) : respects R (lift r : Mercury_ A).
Proof. intros w. reflexivity. Qed.
Lemma respects_ask {A} (f : Impl → A) : respects R (ask_impl f).
Proof. intros w. reflexivity. Qed.
Lemma respects_ask_flight {A} (f : InFlight → A) : respects R (ask_flight f).
Proof. intros w. reflexivity. Qed.
Lemma respects_uses r : respects R (uses r).
Proof. intros w. reflexivity. Qed.

Lemma respects_bind {A B} (m : Mercury_ A) (k : A → Mercury_ B) :
  respects R m → (∀ a, respects R (k a)) → respects R (m ≫= k).
Proof.
  intros Hm Hk w. unfold mbind, IO_bind. specialize (Hm w). destruct (m w) as [[a|e] w'] eqn:E; [|done].
  transitivity w'; [done|apply Hk].
Qed.

Lemma respects_each {A} (body : A → Mercury_ unit) l :
  (∀ x, respects R (body x)) → respects R (io_each l body).
Proof. intros Hb. induction l as [|x l IH]; [apply respects_ret|]. cbn. apply respects_bind; [done|by intros _]. Qed.
End respects.

(** Promise [p] was given out. *)
Definition issued (w : Mercury) (p : nat) : Prop := RPromise p ∈ ledger w ∨ is_Some (promises w !! p).

Definition keeps (w w' : Mercury) : Prop := ∀ p, issued w p → issued w' p.
#[global] Instance keeps_preorder : PreOrder keeps.
Proof. split; [by intros w p|]. intros a b c Hab Hbc p Hp. auto. Qed.

(** Whether the shard runs. *)
Definition life (i : Impl) : bool * bool * bool := (mi_running i, mi_hg_class i, mi_hg_context i).
Definition steady (w w' : Mercury) : Prop := keeps w w' ∧ life (impl w') = life (impl w) ∧ clock w ≤ clock w'.
#[global] Instance steady_preorder : PreOrder steady.
Proof.
  split; [by split|]. intros a b c (Hab & H1 & H2) (Hbc & G1 & G2). split; [by transitivity b|]. split; [congruence|lia].
Qed.

Lemma respects_keeps {A} (m : Mercury_ A) : respects steady m → respects keeps m.
Proof. intros Hm w. apply Hm. Qed.

Lemma wp_respects {A} R E (m : Mercury_ A) Q w :
  respects R m → wp E m Q w → wp E m (λ a w', Q a w' ∧ R w w') w.
Proof. intros Hm. specialize (Hm w). unfold wp. by destruct (m w) as [[a|e] w']. Qed.

(** ** Primitives *)

Lemma keeps_impl f : respects keeps (upd_impl f).
Proof. intros w p. done. Qed.
Lemma steady_impl f : (∀ i, life (f i) = life i) → respects steady (upd_impl f).
Proof. intros Hf w. split; [by intros p|]. split; [apply Hf|done]. Qed.
Lemma steady_flight f : respects steady (upd_in_flight f).
Proof. intros w. split; [by intros p|]. split; [done|cbn; lia]. Qed.
Lemma steady_hg {A} (f : nat → list Resource → A) : respects steady (hg f).
Proof. intros w. split; [by intros p|]. split; [done|cbn; lia]. Qed.
Lemma steady_next_id : respects steady next_id.
Proof. intros w. split; [by intros p|]. split; [done|cbn; lia]. Qed.
Lemma steady_acquire r : respects steady (acquire r).
Proof. intros w. split; [|done]. intros p [?|?]; [left; cbn; by right|by right]. Qed.

Lemma strike_other r l k x : strike r l = Some k → x ∈ l → x ≠ r → x ∈ k.
Proof.
  revert k. induction l as [|y l IH]; intros k Hk Hx Hne; [done|]. cbn in Hk. apply elem_of_cons in Hx.
  case_bool_decide; simplify_eq; [by destruct Hx|]. destruct (strike r l) as [k'|]; [|done]. cbn in Hk. simplify_eq.
  destruct Hx as [->|Hx]; [left|right; by apply IH].
Qed.

Lemma steady_release r : (∀ p, r ≠ RPromise p) → respects steady (release r).
Proof.
  intros Hr w. unfold release. destruct (strike r (ledger w)) as [k|] eqn:Hk; [|by reflexivity].
  split; [|done]. intros p [Hp|Hp]; [left; cbn|by right]. by eapply strike_other.
Qed.

Lemma steady_set_promise p r : respects steady (set_promise p r).
Proof.
  intros w. unfold set_promise, mbind, IO_bind, release. destruct (strike (RPromise p) (ledger w)) as [k|] eqn:Hk; [|by reflexivity].
  split; [|done]. intros q Hq. unfold issued, modify. cbn. destruct (decide (q = p)) as [->|Hne].
  - right. by rewrite lookup_insert_eq.
  - destruct Hq as [Hq|Hq]; [left|right; by rewrite lookup_insert_ne].
    eapply strike_other; [done..|]. by intros [= ->].
Qed.

Lemma steady_library f : respects steady (upd_library f).
Proof. intros w. split; [by intros p|]. split; [done|cbn; lia]. Qed.

(** *** Other relations *)

(** No address is lost. *)
Definition leakless (w w' : Mercury) : Prop := leaked (library w') = leaked (library w).
#[global] Instance leakless_preorder : PreOrder leakless.
Proof. split; [done|]. intros a b c Hab Hbc. unfold leakless in *. congruence. Qed.

(** No promise gets a value. *)
Definition valueless (w w' : Mercury) : Prop := ∀ p v, promises w' !! p = Some (Ok v) → promises w !! p = Some (Ok v).
#[global] Instance valueless_preorder : PreOrder valueless.
Proof. split; [by intros w p v|]. intros a b c Hab Hbc p v Hv. auto. Qed.

Class Stable (R : Mercury → Mercury → Prop) : Prop := {
  #[global] stable_preorder :: PreOrder R;
  stable_impl f : (∀ i, life (f i) = life i) → respects R (upd_impl f);
  stable_flight f : respects R (upd_in_flight f);
  stable_hg {A} (f : nat → list Resource → A) : respects R (hg f);
  stable_next_id : respects R next_id;
  stable_acquire r : respects R (acquire r);
  stable_release r : (∀ p, r ≠ RPromise p) → respects R (release r);
  stable_error p e : respects R (set_promise p (Err e));
  stable_library f : (∀ b, leaked (f b) = leaked b) → respects R (upd_library f);
}.
(** Also when a promise gets a value, and when an address is lost. *)
Class StableValue (R : Mercury → Mercury → Prop) : Prop := stable_value p v : respects R (set_promise p (Ok v)).
Class StableLoss (R : Mercury → Mercury → Prop) : Prop := stable_loss ret addr : respects R (forget ret addr).

#[global] Instance steady_stable : Stable steady.
Proof.
  split; [apply _|apply steady_impl|apply steady_flight|intros A; apply steady_hg|apply steady_next_id|apply steady_acquire
    |apply steady_release|intros; apply steady_set_promise|intros; apply steady_library].
Qed.
#[global] Instance steady_value : StableValue steady.
Proof. intros p v. apply steady_set_promise. Qed.
#[global] Instance steady_loss : StableLoss steady.
Proof. intros ret addr. destruct ret; [apply steady_library|apply respects_ret, _..]. Qed.

#[global] Instance leakless_stable : Stable leakless.
Proof.
  split; try (intros; intros w; done); [apply _| | |].
  - intros r _ w. unfold release. by destruct (strike r (ledger w)).
  - intros p e w. unfold set_promise, mbind, IO_bind, release. by destruct (strike _ (ledger w)).
  - intros f Hf w. apply Hf.
Qed.
#[global] Instance leakless_value : StableValue leakless.
Proof. intros p v w. unfold set_promise, mbind, IO_bind, release. by destruct (strike _ (ledger w)). Qed.

#[global] Instance valueless_stable : Stable valueless.
Proof.
  split; try (intros; intros w p v; done); [apply _| |].
  - intros r _ w. unfold release. by destruct (strike r (ledger w)); intros q v.
  - intros p e w. unfold set_promise, mbind, IO_bind, release. destruct (strike _ (ledger w)); [|by intros q v].
    intros q v. unfold modify. cbn. destruct (decide (q = p)) as [->|]; [by rewrite lookup_insert_eq|by rewrite lookup_insert_ne].
Qed.
#[global] Instance valueless_loss : StableLoss valueless.
Proof. intros ret addr w. by destruct ret; intros q v. Qed.

Create HintDb stable.
#[export] Hint Resolve respects_ret respects_fail respects_lift respects_ask respects_ask_flight respects_uses
  stable_flight stable_hg stable_next_id stable_acquire stable_error stable_value stable_loss : stable.

(** Takes a computation apart down to its primitives. *)
Ltac respects_step :=
  first
  [ solve [auto with stable nocore typeclass_instances]
  | apply respects_bind; [apply _| |intros ?]
  | apply respects_each; [apply _|intros ?]
  | apply stable_impl; intros; done
  | apply stable_release; intros; discriminate
  | apply stable_library; intros; done
  | match goal with
    | |- respects _ (match ?x with _ => _ end) => destruct x
    | |- respects _ (match ?x with _ => _ end _) => destruct x
    end ].
Ltac respects := repeat (respects_step; cbv beta iota).

(** ** Operations *)

Section operations.
Context {Hg0 : Hg} (R : Mercury → Mercury → Prop) {St : Stable R}.

Lemma stable_mbump c n : respects R (mbump c n).
Proof. by apply stable_impl. Qed.
#[local] Hint Resolve stable_mbump : stable.
Lemma stable_uses_bulk bulk : respects R (uses_bulk bulk).
Proof. unfold uses_bulk. respects. Qed.
#[local] Hint Resolve stable_uses_bulk : stable.
Lemma stable_lookup_due raw name : respects R (lookup_due raw name).
Proof. unfold lookup_due. respects. Qed.
#[local] Hint Resolve stable_lookup_due : stable.
Lemma stable_bind_handle h addr id : respects R (bind_handle h addr id).
Proof. unfold bind_handle. respects. Qed.
#[local] Hint Resolve stable_bind_handle : stable.
Lemma stable_lookup_over raw ret addr : respects R (lookup_over raw ret addr).
Proof. unfold lookup_over. respects. Qed.
#[local] Hint Resolve stable_lookup_over : stable.

Lemma stable_find name : respects R (find_rpc_by_name name).
Proof. unfold find_rpc_by_name. respects. Qed.
Lemma stable_rpc_entry name : respects R (rpc_entry name).
Proof. unfold rpc_entry. respects. Qed.
#[local] Hint Resolve stable_find stable_rpc_entry : stable.

Lemma stable_bind_rpc name : respects R (bind_rpc_to_mercury name).
Proof. unfold bind_rpc_to_mercury. respects. Qed.
#[local] Hint Resolve stable_bind_rpc : stable.
Lemma stable_register_handler name handler : respects R (register_handler name handler).
Proof. unfold register_handler. respects. Qed.
#[local] Hint Resolve stable_register_handler : stable.
Lemma stable_set_peer peer p : respects R (set_peer peer p).
Proof. unfold set_peer. respects. Qed.
#[local] Hint Resolve stable_set_peer : stable.
Lemma stable_erase_peer peer : respects R (erase_peer peer).
Proof. unfold erase_peer. respects. Qed.
#[local] Hint Resolve stable_erase_peer : stable.
Lemma stable_peer_state peer : respects R (peer_state peer).
Proof. unfold peer_state. respects. Qed.
#[local] Hint Resolve stable_peer_state : stable.
Lemma stable_recycle peer rpc_id handle : respects R (recycle_handle peer rpc_id handle).
Proof. unfold recycle_handle. respects. Qed.
#[local] Hint Resolve stable_recycle : stable.
Lemma stable_destroy_pools pools : respects R (destroy_pools pools).
Proof. unfold destroy_pools. respects. Qed.
#[local] Hint Resolve stable_destroy_pools : stable.
Lemma stable_free_addr addr : respects R (free_addr addr).
Proof. unfold free_addr. respects. Qed.
#[local] Hint Resolve stable_free_addr : stable.
Lemma stable_free_handle handle : respects R (free_handle handle).
Proof. unfold free_handle. respects. Qed.
#[local] Hint Resolve stable_free_handle : stable.
Lemma stable_drop_peer peer : respects R (drop_peer peer).
Proof. unfold drop_peer. respects. Qed.
#[local] Hint Resolve stable_drop_peer : stable.
Lemma stable_take_pending peer : respects R (take_pending_lookup peer).
Proof. unfold take_pending_lookup. respects. Qed.
#[local] Hint Resolve stable_take_pending : stable.
Lemma stable_take_orphaned raw : respects R (take_orphaned_lookup raw).
Proof. unfold take_orphaned_lookup. respects. Qed.
#[local] Hint Resolve stable_take_orphaned : stable.
Lemma stable_cleanup_client s : respects R (cleanup_client s).
Proof. unfold cleanup_client. respects. Qed.
#[local] Hint Resolve stable_cleanup_client : stable.
Lemma stable_fail_promise s e : respects R (fail_promise s e).
Proof. unfold fail_promise. respects. Qed.
#[local] Hint Resolve stable_fail_promise : stable.
Lemma stable_fail_client s e : respects R (fail_client s e).
Proof. unfold fail_client. respects. Qed.
#[local] Hint Resolve stable_fail_client : stable.
Lemma stable_clear_peer p : respects R (clear_peer p).
Proof. unfold clear_peer. respects. Qed.
#[local] Hint Resolve stable_clear_peer : stable.
Lemma stable_create_handle s : respects R (create_handle s).
Proof. unfold create_handle. respects. Qed.
#[local] Hint Resolve stable_create_handle : stable.
Lemma stable_cached_handle s : respects R (cached_handle s).
Proof. unfold cached_handle. respects. Qed.
#[local] Hint Resolve stable_cached_handle : stable.
Lemma stable_set_forwarding p s : respects R (set_forwarding p s).
Proof. unfold set_forwarding. respects. Qed.
#[local] Hint Resolve stable_set_forwarding : stable.
Lemma stable_start_forward s : respects R (start_client_forward s).
Proof. unfold start_client_forward. respects. Qed.
#[local] Hint Resolve stable_start_forward : stable.
Lemma stable_call_handler rpc payload : respects R (call_handler rpc payload).
Proof. unfold call_handler. respects. Qed.
#[local] Hint Resolve stable_call_handler : stable.
Lemma stable_forward_local rpc payload : respects R (forward_local rpc payload).
Proof. unfold forward_local. respects. Qed.
#[local] Hint Resolve stable_forward_local : stable.
Lemma stable_forward_rpc_id rpc : respects R (forward_rpc_id rpc).
Proof. unfold forward_rpc_id. respects. Qed.
#[local] Hint Resolve stable_forward_rpc_id : stable.
Lemma stable_forward_input payload : respects R (forward_input payload).
Proof. unfold forward_input. respects. Qed.
#[local] Hint Resolve stable_forward_input : stable.
Lemma stable_forward_to_peer s : respects R (forward_to_peer s).
Proof. unfold forward_to_peer. respects. Qed.
#[local] Hint Resolve stable_forward_to_peer : stable.
Lemma stable_forward peer rpc payload : respects R (forward peer rpc payload).
Proof. unfold forward. respects. Qed.
#[local] Hint Resolve stable_forward : stable.
Lemma stable_timed_out p : respects R (timed_out p).
Proof. unfold timed_out. respects. Qed.
#[local] Hint Resolve stable_timed_out : stable.
Lemma stable_take_output `{!StableValue R} s : respects R (take_output s).
Proof. unfold take_output. respects. Qed.
#[local] Hint Resolve stable_take_output : stable.
Lemma stable_forward_cb `{!StableValue R} p ret : respects R (forward_cb p ret).
Proof. unfold forward_cb. respects. Qed.
#[local] Hint Resolve stable_forward_cb : stable.
Lemma stable_forward_waiter peer s : respects R (forward_waiter peer s).
Proof. unfold forward_waiter. respects. Qed.
#[local] Hint Resolve stable_forward_waiter : stable.
Lemma stable_lookup_cb `{!StableLoss R} raw ret addr : respects R (lookup_cb raw ret addr).
Proof. unfold lookup_cb. respects. Qed.
#[local] Hint Resolve stable_lookup_cb : stable.
Lemma stable_respond_server s : respects R (respond_server s).
Proof. unfold respond_server. respects. Qed.
#[local] Hint Resolve stable_respond_server : stable.
Lemma stable_run_server_handler s : respects R (run_server_handler s).
Proof. unfold run_server_handler. respects. Qed.
#[local] Hint Resolve stable_run_server_handler : stable.
Lemma stable_handler_done k fut : respects R (handler_done k fut).
Proof. unfold handler_done. respects. Qed.
#[local] Hint Resolve stable_handler_done : stable.
Lemma stable_cleanup_server_bulk s : respects R (cleanup_server_bulk s).
Proof. unfold cleanup_server_bulk. respects. Qed.
#[local] Hint Resolve stable_cleanup_server_bulk : stable.
Lemma stable_respond_cb k : respects R (respond_cb k).
Proof. unfold respond_cb. respects. Qed.
#[local] Hint Resolve stable_respond_cb : stable.
Lemma stable_bulk_pull_cb k ret data : respects R (bulk_pull_cb k ret data).
Proof. unfold bulk_pull_cb. respects. Qed.
#[local] Hint Resolve stable_bulk_pull_cb : stable.
Lemma stable_reject_bulk s : respects R (reject_bulk s).
Proof. unfold reject_bulk. respects. Qed.
#[local] Hint Resolve stable_reject_bulk : stable.
Lemma stable_start_bulk_pull s : respects R (start_bulk_pull s).
Proof. unfold start_bulk_pull. respects. Qed.
#[local] Hint Resolve stable_start_bulk_pull : stable.
Lemma stable_handle_rpc h : respects R (handle_rpc h).
Proof. unfold handle_rpc. respects. Qed.
#[local] Hint Resolve stable_handle_rpc : stable.
Lemma stable_dispatch_cb h : respects R (dispatch_cb h).
Proof. unfold dispatch_cb. respects. Qed.
#[local] Hint Resolve stable_dispatch_cb : stable.
Lemma stable_callback `{!StableValue R, !StableLoss R} cb : respects R (callback cb).
Proof. unfold callback. respects. Qed.
#[local] Hint Resolve stable_callback : stable.
Lemma stable_clear_all_peers : respects R (clear_all_peers).
Proof. unfold clear_all_peers. respects. Qed.
#[local] Hint Resolve stable_clear_all_peers : stable.

End operations.
#[export] Hint Resolve stable_mbump stable_bind_rpc stable_register_handler stable_forward stable_timed_out stable_handler_done
  stable_callback stable_clear_all_peers stable_set_peer stable_peer_state stable_forward_waiter stable_fail_client : stable.

(** Start and stop, which change whether the shard runs. *)
Section start_stop.
Context {Hg0 : Hg}.
Class StableImpl (R : Mercury → Mercury → Prop) : Prop := stable_any_impl f : respects R (upd_impl f).
#[global] Instance leakless_impl : StableImpl leakless.
Proof. intros f w. done. Qed.
#[global] Instance valueless_impl : StableImpl valueless.
Proof. by intros f w p v. Qed.

Lemma stable_start R {St : Stable R} {Im : StableImpl R} address listen : respects R (mercury_start_ address listen).
Proof.
  unfold mercury_start_, arm_progress_timer.
  repeat first [apply respects_bind; [apply _| |intros ?] | apply stable_any_impl | progress cbv beta
    | solve [respects] | match goal with |- respects _ (if ?b then _ else _) => destruct b end ].
Qed.
Lemma stable_stop R {St : Stable R} {Im : StableImpl R} : respects R mercury_stop_.
Proof.
  unfold mercury_stop_.
  repeat first [apply respects_bind; [apply _| |intros ?] | apply stable_any_impl | progress cbv beta
    | solve [respects] | match goal with |- respects _ (if ?b then _ else _) => destruct b end ].
Qed.

Lemma keeps_start address listen : respects keeps (mercury_start_ address listen).
Proof.
  unfold mercury_start_, arm_progress_timer.
  repeat first [apply respects_bind; [apply _| |intros ?] | apply keeps_impl | progress cbv beta
    | solve [apply respects_keeps; respects] | match goal with |- respects _ (if ?b then _ else _) => destruct b end ].
Qed.
Lemma keeps_stop : respects keeps mercury_stop_.
Proof.
  unfold mercury_stop_.
  repeat first [apply respects_bind; [apply _| |intros ?] | apply keeps_impl | progress cbv beta
    | solve [apply respects_keeps; respects] | match goal with |- respects _ (if ?b then _ else _) => destruct b end ].
Qed.
End start_stop.
