(* ===== verification/MercuryClient.v ===== *)
(** * The client side of the Mercury shard

    The pools of handles, the peers, the address lookups and the forwards:
    each operation and callback of the client side preserves the ownership
    invariant of MercuryRep.v.  The faults are in [lookup_cb]: the loop over
    its waiters ([shared_lookup]), and the callback of a lookup that another
    one has used up ([overtaken]). *)

From Stdlib Require Import ZArith Lia.
From stdpp Require Import base tactics numbers option fin_maps gmap functions list.
From S2P Require Import Prelude Storage MercuryProc MercuryShard MercuryRep MercuryKeeps.

(** What the code relies on: what Mercury creates is not null and new. *)
Class HgLaws {Hg0 : Hg} := {
  create_fresh n held addr id h : HG_Create n held addr id = (HG_SUCCESS, h) → h ≠ HG_NULL ∧ RHandle h ∉ held;
  bulk_create_fresh n held size b : HG_Bulk_create n held size = (HG_SUCCESS, b) → b ≠ HG_NULL ∧ RBulk b ∉ held;
}.

Lemma ret_match {A} (ret : hg_return_t) (a b : A) :
  match ret with HG_SUCCESS => a | _ => b end = if decide (ret = HG_SUCCESS) then a else b.
Proof. by destruct ret. Qed.
Ltac case_ret ret := rewrite (ret_match ret); destruct (decide (ret = HG_SUCCESS)).

(** ** Loops, and steps that do not look at the peers *)

Lemma each_same {A} (own : A → Resource → nat) (body : A → Mercury_ unit) l :
  (∀ x w L, inv w (λ r, own x r + L r) → wp never (body x) (λ _ w', inv w' L ∧ same w w') w) →
  ∀ w L, inv w (λ r, total own l r + L r) → wp never (io_each l body) (λ _ w', inv w' L ∧ same w w') w.
Proof.
  intros Hbody. induction l as [|x l IH]; intros w L Hi; [split; [done|by reflexivity]|]. cbn [io_each].
  eapply wp_seq; [apply (Hbody x w (λ r, total own l r + L r))|].
  - eapply inv_ext; [done|]. intros r. unfold total. cbn. lia.
  - intros _ w1 [Hi1 Hs1]. eapply wp_mono; [by apply IH|]. intros _ w2 [Hi2 Hs2]. split; [done|by transitivity w1].
Qed.

Lemma destroy_pools_wp pools w L :
  inv w (λ r, pools_own pools r + L r) → wp never (destroy_pools pools) (λ _ w', inv w' L ∧ same w w') w.
Proof. apply each_same. intros pool. apply each_same. intros h. apply release_wp. Qed.

(** A field that is null or is given back. *)
Lemma free_field_wp (f : Z → Resource) z w L :
  inv w (λ r, at_most z f r + L r) →
  wp never (if Z.eqb z HG_NULL then mret tt else release (f z)) (λ _ w', inv w' L ∧ same w w') w.
Proof.
  intros Hi. unfold at_most in Hi. destruct (Z.eqb z HG_NULL); [split; [done|reflexivity]|by apply release_wp].
Qed.

(** [m] does the same whatever [f] makes of the state of the shard. *)
Definition with_impl (f : Impl → Impl) (w : Mercury) : Mercury :=
  mkMercury (f (impl w)) (in_flight w) (ledger w) (promises w) (fresh w) (clock w) (library w).
Definition commutes {A} (f : Impl → Impl) (m : Mercury_ A) : Prop :=
  ∀ w, m (with_impl f w) = let '(r, w') := m w in (r, with_impl f w').

Lemma commutes_ret {A} f (a : A) : commutes f (mret a).
Proof. done. Qed.
Lemma commutes_bind {A B} f (m : Mercury_ A) (k : A → Mercury_ B) :
  commutes f m → (∀ a, commutes f (k a)) → commutes f (m ≫= k).
Proof.
  intros Hm Hk w. unfold mbind, IO_bind. rewrite Hm. destruct (m w) as [[a|e] w']; [apply Hk|done].
Qed.
Lemma commutes_each {A} f (body : A → Mercury_ unit) l :
  (∀ x, x ∈ l → commutes f (body x)) → commutes f (io_each l body).
Proof.
  induction l as [|x l IH]; intros Hb; [done|]. cbn. apply commutes_bind; [apply Hb; left|]. intros _.
  apply IH. intros y Hy. apply Hb. by right.
Qed.
Lemma commutes_release f r : commutes f (release r).
Proof. intros w. unfold release. cbn. by destruct (strike r (ledger w)). Qed.
Lemma commutes_set_promise f p r : commutes f (set_promise p r).
Proof. apply commutes_bind; [apply commutes_release|done]. Qed.
Lemma commutes_impl f g : (∀ i, f (g i) = g (f i)) → commutes f (upd_impl g).
Proof. intros Hfg w. unfold upd_impl, modify, with_impl. cbn. by rewrite Hfg. Qed.
Create HintDb commutes.
#[export] Hint Resolve commutes_ret commutes_bind commutes_each commutes_release commutes_set_promise : commutes.

Lemma commutes_wp {A} f (m : Mercury_ A) Q w :
  commutes f m → wp never m Q (with_impl f w) → wp never m (λ a w', Q a (with_impl f w')) w.
Proof. unfold wp. intros Hm. rewrite Hm. by destruct (m w) as [[a|e] w']. Qed.

Lemma commutes_destroy_pools f pools : commutes f (destroy_pools pools).
Proof. apply commutes_each. intros. apply commutes_each. intros. apply commutes_release. Qed.
Lemma commutes_free_addr f addr : commutes f (free_addr addr).
Proof. unfold free_addr. destruct (addr =? HG_NULL)%Z; [apply commutes_ret|apply commutes_release]. Qed.
#[export] Hint Resolve commutes_destroy_pools commutes_free_addr : commutes.

(** *** Peers that have their address *)

(** A peer, if there is one, has its address and waits for nothing. *)
Definition calm (peer : cstring) (w : Mercury) : Prop :=
  ∀ p, mi_peers (impl w) !! peer = Some p → ps_pending_lookup p = None ∧ ps_addr p ≠ HG_NULL.
Definition calms (w w' : Mercury) : Prop := ∀ peer, calm peer w → calm peer w'.
#[global] Instance calms_preorder : PreOrder calms.
Proof. split; [by intros w peer|]. intros a b c Hab Hbc peer Ha. auto. Qed.

Lemma calms_peers w w' : mi_peers (impl w') = mi_peers (impl w) → calms w w'.
Proof. intros E peer Hc p. rewrite E. apply Hc. Qed.
Lemma same_calms w w' : same w w' → calms w w'.
Proof. intros Hs. by apply calms_peers, same_peers. Qed.
Lemma calms_pools w w' peer p pools :
  mi_peers (impl w) !! peer = Some p → mi_peers (impl w') = <[peer := set_ps_pools pools p]> (mi_peers (impl w)) → calms w w'.
Proof.
  intros Hp E k Hc p'. rewrite E. destruct (decide (k = peer)) as [->|Hne]; [|rewrite lookup_insert_ne by done; apply Hc].
  rewrite lookup_insert_eq. intros [= <-]. exact (Hc p Hp).
Qed.

(** The address of a client state is that of its peer. *)
Definition addressed (w : Mercury) (s : ClientRpcState) : Prop :=
  ∃ p, mi_peers (impl w) !! cs_peer s = Some p ∧ ps_addr p = cs_addr s ∧ cs_addr s ≠ HG_NULL.
Lemma addressed_peers w w' s : mi_peers (impl w') = mi_peers (impl w) → addressed w s → addressed w' s.
Proof. intros E (p & Hp & H). exists p. by rewrite E. Qed.
Lemma addressed_facts w L s :
  inv w L → addressed w s → RAddr (cs_addr s) ∈ ledger w ∧ resolved (library w) !! cs_addr s = Some (cs_peer s).
Proof.
  intros Hi (p & Hp & Ha & Hne). rewrite <- Ha in *. split; [by eapply peer_addr_held|].
  by apply (inv_peers _ _ Hi (cs_peer s) p Hp).
Qed.

Lemma uses_held_wp r w : r ∈ ledger w → wp never (uses r) (λ _ w', w' = w) w.
Proof. intros Hr. unfold wp, uses. by rewrite bool_decide_true. Qed.
Lemma uses_bulk_wp bulk w L :
  inv w L → (bulk ≠ HG_NULL → 1 ≤ L (RBulk bulk)) → wp never (uses_bulk bulk) (λ _ w', w' = w) w.
Proof.
  intros Hi Hb. unfold uses_bulk. destruct (Z.eqb_spec bulk HG_NULL); [done|]. apply uses_held_wp, (inv_holds w L); auto.
Qed.

(** ** Pools *)

Lemma total_cons {A} (f : A → Resource → nat) x l r : total f (x :: l) r = f x r + total f l r.
Proof. done. Qed.

Lemma pool_handle_ok pools rpc_id h pools' :
  pool_handle pools rpc_id h = Some pools' → Forall pool_ok pools → NoDup (map hp_rpc_id pools) →
  Forall pool_ok pools' ∧ NoDup (map hp_rpc_id pools') ∧
  (∀ id, id ∈ map hp_rpc_id pools' → id = rpc_id ∨ id ∈ map hp_rpc_id pools) ∧
  ∀ r, pools_own pools' r = one (RHandle h) r + pools_own pools r.
Proof.
  revert pools'. induction pools as [|pool pools IH]; intros pools' E Hok Hnd; cbn [pool_handle] in E.
  - simplify_eq. split; [apply Forall_singleton; unfold pool_ok, kHandlePoolLimitPerPeerRpc; cbn; lia|].
    split; [apply NoDup_singleton|]. split; [|done]. intros id. cbn. rewrite list_elem_of_singleton. by left.
  - apply Forall_cons in Hok as [Hp Hok]. cbn in Hnd. apply NoDup_cons in Hnd as [Hni Hnd].
    revert E. destruct (Z.eqb_spec (hp_rpc_id pool) rpc_id) as [<-|Hne]; intros E.
    + revert E. destruct (Nat.leb_spec kHandlePoolLimitPerPeerRpc (length (hp_handles pool))); [done|]. intros E. simplify_eq.
      split_and!; [|by constructor| |].
      * constructor; [|done]. unfold pool_ok. cbn [hp_handles]. rewrite length_app. cbn [length]. lia.
      * intros id. cbn. rewrite !elem_of_cons. naive_solver.
      * intros r. unfold pools_own. rewrite !total_cons. cbn [hp_handles]. rewrite total_app. cbn. lia.
    + destruct (pool_handle pools rpc_id h) as [pools1|] eqn:E1; [|done]. cbn in E. simplify_eq.
      destruct (IH pools1 eq_refl Hok Hnd) as (H1 & H2 & H3 & H4). split_and!.
      * by constructor.
      * cbn. constructor; [|done]. intros [?|?]%H3; done.
      * intros id. cbn. rewrite !elem_of_cons. intros [->|Hin]; [by auto|]. destruct (H3 id Hin); auto.
      * intros r. unfold pools_own in *. rewrite !total_cons, H4. lia.
Qed.

Lemma last_removelast {A} (l : list A) x : last l = Some x → l = removelast l ++ [x].
Proof.
  induction l as [|y l IH]; [done|]. cbn. destruct l as [|z l]; [by intros [= ->]|].
  intros Hx. cbn. f_equal. by apply IH.
Qed.

Lemma take_cached_handle_ok pools rpc_id h pools' :
  take_cached_handle pools rpc_id = (h, pools') → Forall pool_ok pools →
  Forall pool_ok pools' ∧ map hp_rpc_id pools' = map hp_rpc_id pools ∧
  ((h = HG_NULL ∧ pools' = pools) ∨ ∀ r, pools_own pools r = one (RHandle h) r + pools_own pools' r).
Proof.
  revert h pools'. induction pools as [|pool pools IH]; intros h pools' E Hok; cbn [take_cached_handle] in E; [simplify_eq; auto|].
  apply Forall_cons in Hok as [Hp Hok]. revert E. destruct (Z.eqb_spec (hp_rpc_id pool) rpc_id) as [<-|Hne]; intros E.
  - destruct (last (hp_handles pool)) as [x|] eqn:Hlast; simplify_eq; [|by split_and!; auto using Forall_cons_2].
    apply last_removelast in Hlast. unfold pool_ok in Hp. rewrite Hlast, length_app in Hp. split_and!.
    + constructor; [|done]. unfold pool_ok. cbn [hp_handles]. lia.
    + done.
    + right. intros r. unfold pools_own. rewrite !total_cons. cbn [hp_handles]. rewrite Hlast at 1.
      rewrite total_app. cbn. lia.
  - destruct (take_cached_handle pools rpc_id) as [h1 pools1] eqn:E1. simplify_eq.
    destruct (IH h pools1 eq_refl Hok) as (H1 & H2 & H3). split_and!.
    + by constructor.
    + cbn. by rewrite H2.
    + destruct H3 as [[-> ->]|H3]; [by left|right]. intros r. unfold pools_own in *. rewrite !total_cons, H3. lia.
Qed.

Lemma recycle_handle_wp peer rpc_id h w L :
  inv w (λ r, one (RHandle h) r + L r) → wp never (recycle_handle peer rpc_id h) (λ _ w', inv w' L ∧ calms w w') w.
Proof.
  intros Hi. unfold recycle_handle, ask_impl. apply wp_bind. unfold wp at 1. cbn [id].
  assert (wp never (HG_Destroy h) (λ _ w', inv w' L ∧ calms w w') w) as Hd
    by (eapply wp_mono; [by apply release_wp|intros _ w' [? ?]; split; [done|by apply same_calms]]).
  destruct (mi_peers (impl w) !! peer) as [p|] eqn:Hp; [|done].
  destruct (pool_handle (ps_pools p) rpc_id h) as [pools|] eqn:E; [|done].
  destruct (inv_peers _ _ Hi peer p Hp) as (Hok & Hnd & Hra & Hpl).
  destruct (pool_handle_ok _ _ _ _ E Hok Hnd) as (H1 & H2 & _ & H4).
  eapply wp_mono; [eapply (set_peer_wp peer _ w _ L Hi)|intros _ w' (? & _ & _ & _ & E' & _)].
  - by split_and!.
  - intros r. rewrite Hp. unfold peer_owns. cbn [ps_addr ps_pools ps_pending_lookup set_ps_pools]. rewrite H4. lia.
  - split; [done|]. eapply calms_pools; [exact Hp|]. by rewrite E'.
Qed.

(** ** The client side *)

Lemma wp_same_inv {A} (m : Mercury_ A) w L :
  wp never m (λ _ w', inv w' L ∧ same w w') w → wp never m (λ _ w', inv w' L) w.
Proof. intros Hm. eapply wp_mono; [done|by intros ?? []]. Qed.

Lemma drop_peer_wp peer w L : inv w L → wp never (drop_peer peer) (λ _ w', inv w' L ∧ calms w w') w.
Proof.
  intros Hi. unfold drop_peer, ask_impl. apply wp_bind. unfold wp at 1. cbn [id].
  destruct (mi_peers (impl w) !! peer) as [p|] eqn:Hp; [|done].
  assert (∀ (g : Impl → Impl) w1, w1 = with_impl g w → inv w1 (λ r, pools_own (ps_pools p) r + (at_most (ps_addr p) RAddr r + L r)) →
    calms w w1 →
    wp never (destroy_pools (ps_pools p);; free_addr (ps_addr p);; upd_impl g) (λ _ w', inv w' L ∧ calms w w') w) as Hgo.
  { intros g w1 -> Hi1 Hc. eapply wp_seq; [eapply (commutes_wp g); [auto with commutes|exact (destroy_pools_wp _ _ _ Hi1)]|].
    intros _ w2 [Hi2 Hs2]. eapply wp_seq; [eapply (commutes_wp g); [auto with commutes|exact (free_field_wp RAddr _ _ _ Hi2)]|].
    intros _ w3 [Hi3 Hs3]. split; [done|]. transitivity (with_impl g w); [done|]. apply same_calms. by transitivity (with_impl g w2). }
  destruct (inv_peers _ _ Hi peer p Hp) as (Hok & Hnd & Hra & Hpl).
  destruct (ps_pending_lookup p) as [l|] eqn:Hl; (eapply Hgo; [done| |]).
  - refine (proj1 (set_peer_wp peer (mkPeerState HG_NULL [] (Some l)) w L _ Hi _ _)).
    { split_and!; [constructor|constructor|by intros []|by destruct Hpl..]. }
    intros r. rewrite Hp. unfold peer_owns. rewrite Hl. cbn [ps_addr ps_pools ps_pending_lookup]. cbn. lia.
  - intros k Hc p'. cbn. destruct (decide (k = peer)) as [->|Hne]; [|rewrite lookup_insert_ne by done; apply Hc].
    destruct (Hc p Hp) as [Hnone _]. congruence.
  - eapply inv_ext; [refine (proj1 (erase_peer_wp peer p w L Hi Hp))|].
    intros r. unfold peer_owns. rewrite Hl. lia.
  - intros k Hc p' Hp'. cbn in Hp'. apply lookup_delete_Some in Hp' as [_ Hp']. by apply Hc.
Qed.

Lemma fail_promise_wp s e w L :
  inv w (λ r, client_owns s r + L r) →
  wp never (fail_promise s e) (λ _ w', inv w' (λ r, client_owns (set_cs_promise_done true s) r + L r) ∧ same w w') w.
Proof.
  intros Hi. unfold fail_promise. destruct (cs_promise_done s) eqn:Hd.
  - split; [|reflexivity]. eapply inv_ext; [done|]. intros r. unfold client_owns. by rewrite Hd.
  - apply set_promise_wp. eapply inv_ext; [done|]. intros r. unfold client_owns. rewrite Hd. cbn. lia.
Qed.

Lemma cleanup_client_wp s w L :
  inv w (λ r, client_owns s r + L r) → cs_promise_done s = true → wp never (cleanup_client s) (λ _ w', inv w' L ∧ calms w w') w.
Proof.
  intros Hi Hd. unfold cleanup_client.
  eapply wp_seq; [apply (free_field_wp RBulk (cs_origin_bulk s) w (λ r, at_most (cs_handle s) RHandle r + L r))|].
  { eapply inv_ext; [done|]. intros r. unfold client_owns. rewrite Hd. lia. }
  intros _ w1 [Hi1 Hs1]. eapply (wp_seq _ _ _ _ (λ _ w', inv w' L ∧ calms w1 w')).
  - unfold at_most in Hi1. destruct (Z.eqb (cs_handle s) HG_NULL); [done|].
    destruct (cs_recycle_handle s); [by apply recycle_handle_wp|].
    eapply wp_mono; [by apply release_wp|]. intros _ w2 [Hi2 Hs2]. split; [done|by apply same_calms].
  - intros _ w2 [Hi2 Hc2]. assert (calms w w2) as Hc by (transitivity w1; [by apply same_calms|done]).
    destruct (cs_drop_peer s); [|done]. eapply wp_mono; [by apply drop_peer_wp|]. intros _ w3 [Hi3 Hc3].
    split; [done|by transitivity w2].
Qed.

Lemma fail_client_wp s e w L :
  inv w (λ r, client_owns s r + L r) → wp never (fail_client s e) (λ _ w', inv w' L ∧ calms w w') w.
Proof.
  intros Hi. eapply wp_seq; [by apply fail_promise_wp|]. intros _ w1 [Hi1 Hs1].
  eapply wp_seq; [by apply mbump_wp|]. intros _ w2 [Hi2 Hs2]. eapply wp_mono; [by apply cleanup_client_wp|].
  intros _ w3 [Hi3 Hc3]. split; [done|]. transitivity w2; [|done]. apply same_calms. by transitivity w1.
Qed.

Lemma fail_clients_wp l e w L :
  inv w (λ r, total client_owns l r + L r) → wp never (io_each l (λ s, fail_client s e)) (λ _ w', inv w' L) w.
Proof.
  intros Hi. apply (wp_each never _ (λ l w', inv w' (λ r, total client_owns l r + L r))); [done|].
  intros s l' w' Hi'. eapply wp_mono; [apply (fail_client_wp s e w' (λ r, total client_owns l' r + L r))|by intros _ w2 []].
  eapply inv_ext; [done|]. intros r. cbv beta. rewrite total_cons. lia.
Qed.

Section safety.
Context {Hg0 : Hg} {Laws : HgLaws}.

Lemma cached_handle_wp s w L :
  inv w (λ r, client_owns s r + L r) → cs_handle s = HG_NULL → addressed w s →
  wp never (cached_handle s) (λ s' w', inv w' (λ r, client_owns s' r + L r) ∧ (∃ h, s' = set_cs_handle h s) ∧
    addressed w' s ∧ calms w w' ∧ (cs_handle s' ≠ HG_NULL → bound_to (library w') s')) w.
Proof.
  intros Hi Hh (p0 & Hp0 & Ha & Hna). unfold cached_handle. eapply wp_seq; [by apply peer_state_wp|].
  rewrite Hp0. intros p w1 (_ & _ & _ & _ & _ & _ & -> & ->). destruct (take_cached_handle (ps_pools p0) (cs_rpc_id s)) as [h pools] eqn:E.
  destruct (inv_peers _ _ Hi (cs_peer s) p0 Hp0) as (Hok & Hnd & Hra & Hpl).
  destruct (take_cached_handle_ok _ _ _ _ E Hok) as (H1 & H2 & H3).
  eapply wp_seq; [apply (set_peer_wp _ _ w _ (λ r, at_most h RHandle r + (client_owns s r + L r)) Hi)|].
  { split_and!; [done|cbn; by rewrite H2|done..]. }
  { intros r. rewrite Hp0. unfold peer_owns. cbn [ps_addr ps_pools ps_pending_lookup set_ps_pools].
    destruct H3 as [[-> ->]|H3]; [done|]. rewrite H3. unfold at_most.
    destruct (Z.eqb_spec h HG_NULL) as [->|]; [|lia]. exfalso.
    assert (RHandle HG_NULL ∈ ledger w) as Hin; [|by apply (inv_valid _ _ Hi) in Hin].
    apply held_in. rewrite <- (inv_balance _ _ Hi). unfold owned.
    rewrite (msum_delete peer_owns _ _ _ _ Hp0). unfold peer_owns at 1. rewrite H3, one_refl. lia. }
  intros _ w2 (Hi2 & _ & _ & _ & He2 & _).
  assert (addressed w2 s) as Ha2 by (exists (set_ps_pools pools p0); rewrite He2; cbn; by rewrite lookup_insert_eq).
  assert (calms w w2) as Hc2 by (eapply calms_pools; [exact Hp0|by rewrite He2]). clear He2.
  unfold at_most in Hi2. destruct (Z.eqb_spec h HG_NULL) as [->|Hne].
  { apply wp_ret. split_and!; [|by exists HG_NULL|done|done|done]. eapply inv_ext; [done|]. intros r. unfold client_owns. by rewrite Hh. }
  destruct (addressed_facts _ _ _ Hi2 Ha2) as [Hin2 Hres2].
  eapply wp_seq; [eapply (uses_wp _ w2); [done|cbv beta; rewrite one_refl; lia]|]. intros _ w3 [Hi3 Hs3].
  eapply wp_seq; [apply uses_held_wp; apply (addressed_facts w3 _ s Hi3); by eapply addressed_peers; [apply same_peers|]|]. intros _ ? ->.
  eapply wp_seq; [by apply hg_wp|]. intros ret w4 (_ & Hi4 & Hs4 & _).
  assert (same w2 w4) as Hs by (by transitivity w3).
  case_ret ret.
  - eapply wp_seq; [apply (bind_handle_wp h (cs_addr s) (cs_rpc_id s) w4 _ Hi4); cbv beta; rewrite one_refl; lia|].
    intros _ w5 (Hi5 & He5 & _ & _ & Hb5). apply wp_ret. assert (mi_peers (impl w5) = mi_peers (impl w2)) as Hp5 by (by rewrite He5, (same_peers _ _ Hs)).
    split_and!; [|by exists h|by eapply addressed_peers|transitivity w2; [done|by apply calms_peers]|].
    + eapply inv_ext; [done|]. intros r. unfold client_owns. rewrite Hh. unfold at_most. cbn.
      rewrite (proj2 (Z.eqb_neq h HG_NULL) Hne). lia.
    + intros _. unfold bound_to. cbn. by rewrite Hb5, (same_library _ _ Hs), Hres2.
  - eapply wp_seq; [exact (release_wp _ _ _ Hi4)|]. intros _ w5 [Hi5 Hs5]. apply wp_ret.
    assert (mi_peers (impl w5) = mi_peers (impl w2)) as Hp5 by (by rewrite (same_peers _ _ Hs5), (same_peers _ _ Hs)).
    split_and!; [|by exists HG_NULL|by eapply addressed_peers|transitivity w2; [done|by apply calms_peers]|done].
    eapply inv_ext; [done|]. intros r. unfold client_owns. by rewrite Hh.
Qed.

Lemma create_handle_wp s w L :
  inv w (λ r, client_owns s r + L r) → addressed w s → (cs_handle s ≠ HG_NULL → bound_to (library w) s) →
  wp never (create_handle s) (λ '(ret, s') w', inv w' (λ r, client_owns s' r + L r) ∧
    (∃ h, s' = set_cs_handle h s) ∧ calms w w' ∧ (ret = HG_SUCCESS → cs_handle s' ≠ HG_NULL ∧ bound_to (library w') s')) w.
Proof.
  intros Hi Ha Hbd. unfold create_handle. destruct (Z.eqb_spec (cs_handle s) HG_NULL) as [Hh|Hh]; cbn [negb].
  2: { apply wp_ret. split_and!; [done| |done|auto]. exists (cs_handle s). by destruct s. }
  destruct (addressed_facts _ _ _ Hi Ha) as [Hin Hres].
  eapply wp_seq; [by apply uses_held_wp|]. intros _ ? ->.
  eapply wp_seq; [by apply hg_wp|]. intros [ret h] w1 (Hret & Hi1 & Hs & Hl). cbv beta iota.
  case_ret ret.
  - subst ret. destruct (create_fresh _ _ _ _ _ (eq_sym Hret)) as [Hne Hfr].
    eapply wp_seq; [apply (acquire_wp _ _ _ Hi1)|]; [by rewrite Hl|done|done|]. intros _ w2 [Hi2 Hs2].
    eapply wp_seq; [apply (bind_handle_wp h (cs_addr s) (cs_rpc_id s) w2 _ Hi2); cbv beta; rewrite one_refl; lia|].
    intros _ w3 (Hi3 & He3 & _ & _ & Hb3). apply wp_ret. split_and!; [|by exists h| |].
    + eapply inv_ext; [done|]. intros r. unfold client_owns. rewrite Hh. unfold at_most. cbn.
      rewrite (proj2 (Z.eqb_neq h HG_NULL) Hne). lia.
    + apply calms_peers. by rewrite He3, (same_peers _ _ Hs2), (same_peers _ _ Hs).
    + intros _. split; [done|]. unfold bound_to. cbn. by rewrite Hb3, (same_library _ _ Hs2), (same_library _ _ Hs), Hres.
  - apply wp_ret. split_and!; [done| |by apply same_calms|done]. exists (cs_handle s). by destruct s.
Qed.

(** A promise in the hands of the operation is not one of a forward. *)
Lemma promise_not_forwarding w L p : inv w L → 1 ≤ L (RPromise p) → forwarding (in_flight w) !! p = None.
Proof.
  intros Hi HL. destruct (forwarding (in_flight w) !! p) as [s|] eqn:Hs; [|done]. exfalso.
  destruct (inv_forwarding _ _ Hi p s Hs) as (_ & Hp & _ & _ & _ & Hd). destruct (cs_promise_done s) eqn:Hdone.
  - by apply Hd, (inv_holds w L).
  - pose proof (inv_balance _ _ Hi (RPromise p)) as Hb. pose proof (inv_once _ _ Hi (RPromise p)).
    unfold owned, flight_owns in Hb. rewrite (msum_delete client_owns _ _ _ _ Hs) in Hb.
    unfold client_owns at 1 in Hb. rewrite Hdone, Hp, one_refl in Hb. lia.
Qed.

Lemma start_client_forward_wp s w L :
  inv w (λ r, client_owns s r + L r) → waiter_ok (cs_peer s) s → addressed w s →
  wp never (start_client_forward s) (λ _ w', inv w' L ∧ calms w w') w.
Proof.
  intros Hi (_ & Hh & Hd & Hre & Hdr) Ha. unfold start_client_forward. rewrite Hd.
  eapply wp_seq; [by apply cached_handle_wp|]. intros s1 w1 (Hi1 & (h1 & ->) & Ha1 & Hc1 & Hb1).
  eapply wp_seq; [exact (create_handle_wp _ _ _ Hi1 Ha1 Hb1)|]. intros [ret s2] w2 (Hi2 & (h2 & ->) & Hc2 & Hne). cbv beta iota.
  assert (calms w w2) as Hcw2 by (by transitivity w1).
  assert (∀ s' e w3, inv w3 (λ r, client_owns s' r + L r) → calms w w3 → wp never (fail_client s' e) (λ _ w', inv w' L ∧ calms w w') w3) as Hfail.
  { intros s' e w3 Hi3 Hc3. eapply wp_mono; [by apply fail_client_wp|]. intros _ w4 [Hi4 Hc4]. split; [done|by transitivity w3]. }
  case_ret ret; [|by apply Hfail]. destruct (Hne e) as [Hnn Hbd]. cbn [cs_handle set_cs_handle] in *.
  eapply wp_seq; [eapply (uses_wp _ w2); [done|]|].
  { cbv beta. unfold client_owns, at_most. cbn. rewrite (proj2 (Z.eqb_neq h2 HG_NULL) Hnn), one_refl. lia. }
  intros _ w3 [Hi3 Hs3]. eapply wp_seq; [apply (uses_bulk_wp _ w3 _ Hi3)|].
  { intros Hb. unfold client_owns, at_most. cbn in Hb |- *. rewrite (proj2 (Z.eqb_neq _ HG_NULL) Hb), one_refl. lia. }
  intros _ ? ->. eapply wp_seq; [by apply hg_wp|]. intros ret3 w4 (_ & Hi4 & Hs4 & _).
  assert (calms w w4) as Hc4 by (transitivity w2; [done|]; apply same_calms; by transitivity w3).
  assert (library w4 = library w2) as Hl4 by (by rewrite (same_library _ _ Hs4), (same_library _ _ Hs3)).
  case_ret ret3; [|by apply Hfail].
  assert (forwarding (in_flight w4) !! cs_promise s = None) as Hnone.
  { apply (promise_not_forwarding w4 _ _ Hi4). unfold client_owns. cbn. rewrite Hd, one_refl. lia. }
  eapply wp_seq; [eapply (in_flight_wp _ w4 _ L Hi4)|].
  - intros r. unfold flight_owns. cbn. rewrite msum_new by done.
    change (client_owns (set_cs_timer true _) r) with (client_owns (set_cs_handle h2 (set_cs_handle h1 s)) r). lia.
  - cbn. apply map_Forall_insert_2; [|apply Hi4]. split_and!; [|done|done|done|done|by cbn; rewrite Hd].
    apply (inv_valid _ _ Hi4 (RPromise (cs_promise s))), (inv_holds w4 _ _ Hi4).
    unfold client_owns. cbn. rewrite Hd, one_refl. lia.
  - cbn. apply map_Forall_insert_2; [|apply Hi4]. rewrite Hl4. exact Hbd.
  - apply Hi4.
  - apply Hi4.
  - apply Hi4.
  - intros _ w5 (Hi5 & He5 & _). eapply wp_seq; [by apply hg_wp|]. intros _ w6 (_ & Hi6 & Hs6 & _). split; [done|].
    transitivity w4; [done|]. apply calms_peers. by rewrite (same_peers _ _ Hs6), He5.
Qed.

Lemma take_pending_lookup_wp peer w L :
  inv w L → wp never (take_pending_lookup peer) (λ o w', ledger w' = ledger w ∧ in_flight w' = in_flight w ∧ library w' = library w ∧
    (∀ p, mi_peers (impl w') !! peer = Some p → ps_pending_lookup p = None) ∧
    match o with
    | None => w' = w
    | Some l => inv w' (λ r, lookup_owns l r + L r) ∧ ls_peer l = peer ∧ ls_cancelled l = false ∧
        Forall (waiter_ok peer) (ls_waiters l) ∧
        ∃ p, mi_peers (impl w) !! peer = Some p ∧ ps_pending_lookup p = Some l
    end) w.
Proof.
  intros Hi. unfold take_pending_lookup, ask_impl. apply wp_bind. unfold wp at 1. cbn [id].
  destruct (mi_peers (impl w) !! peer) as [p|] eqn:Hp; [|split_and!; try done; by rewrite Hp].
  destruct (ps_pending_lookup p) as [l|] eqn:Hl; [|split_and!; try done; rewrite Hp; naive_solver].
  destruct (inv_peers _ _ Hi peer p Hp) as (Hok & Hnd & Hra & Hpl). rewrite Hl in Hpl. destruct Hpl as (? & ? & ? & ?).
  eapply (wp_seq _ _ _ _ (λ _ w', inv w' (λ r, lookup_owns l r + L r) ∧ in_flight w' = in_flight w ∧ ledger w' = ledger w ∧
    library w' = library w ∧ (∀ p, mi_peers (impl w') !! peer = Some p → ps_pending_lookup p = None))).
  - assert (wp never (set_peer peer (set_ps_pending_lookup None p)) (λ _ w', inv w' (λ r, lookup_owns l r + L r) ∧ in_flight w' = in_flight w ∧
      ledger w' = ledger w ∧ library w' = library w ∧ (∀ p, mi_peers (impl w') !! peer = Some p → ps_pending_lookup p = None)) w) as Hset.
    { eapply wp_mono; [apply (set_peer_wp peer _ w L (λ r, lookup_owns l r + L r) Hi)|]; [by split_and!| |].
      - intros r. rewrite Hp. unfold peer_owns. rewrite Hl. cbn [ps_addr ps_pools ps_pending_lookup set_ps_pending_lookup]. lia.
      - intros _ w' (? & ? & ? & _ & He & ? & _). split_and!; try done. rewrite He. cbn. rewrite lookup_insert_eq. by intros p' [= <-]. }
    destruct (Z.eqb_spec (ps_addr p) HG_NULL) as [Ha|Ha]; cbn [andb]; [|exact Hset].
    case_bool_decide as He; [|exact Hset].
    eapply wp_mono; [exact (erase_peer_wp peer p w L Hi Hp)|]. intros _ w' (Hi' & ? & ? & _ & He' & ? & _). split_and!; try done.
    + eapply inv_ext; [done|]. intros r. unfold peer_owns. by rewrite Ha, He, Hl.
    + rewrite He'. cbn. by rewrite lookup_delete_eq.
  - intros _ w' (Hi' & Hf & Hled & Hlib & Hpe). apply wp_ret. split_and!; try done. by exists p.
Qed.

Lemma forward_to_peer_wp s w L :
  inv w (λ r, client_owns s r + L r) → waiter_ok (cs_peer s) s → wp never (forward_to_peer s) (λ _ w', inv w' L) w.
Proof.
  intros Hi Hs. unfold forward_to_peer. eapply wp_seq; [by apply peer_state_wp|].
  intros p w1 (Hi1 & _ & _ & Hn & Hp & _). destruct (Z.eqb_spec (ps_addr p) HG_NULL) as [Ha|Ha]; cbn [negb].
  2: { eapply wp_mono; [apply start_client_forward_wp; [done|done|by exists p]|by intros _ w' []]. }
  destruct (inv_peers _ _ Hi1 (cs_peer s) p Hp) as (Hok & Hnd & Hra & Hpl).
  destruct (ps_pending_lookup p) as [l|] eqn:Hl.
  - destruct Hpl as ([? ?] & ? & ? & ?). eapply wp_mono; [apply (set_peer_wp _ _ w1 _ L Hi1)|by intros _ w' []].
    + split; [done|]. split; [done|]. cbn. split_and!; try done. apply Forall_app; split; [done|by constructor].
    + intros r. rewrite Hp. unfold peer_owns. rewrite Hl. cbn [ps_addr ps_pools ps_pending_lookup set_ps_pending_lookup].
      unfold lookup_owns. cbn [ls_waiters]. rewrite total_app. cbn. lia.
  - eapply wp_seq; [by apply next_id_wp|]. intros raw w2 (-> & Hi2 & _ & Himpl & _ & Hn2 & Hlib & _).
    eapply wp_seq; [apply (set_peer_wp _ _ w2 _ L Hi2)|].
    + split; [done|]. split; [done|]. cbn. rewrite Hlib. split_and!; try done; [lia| |by constructor].
      intros name Hname. apply (inv_lookups _ _ Hi1) in Hname. cbn in Hname. lia.
    + intros r. rewrite Himpl, Hp. unfold peer_owns. rewrite Hl.
      cbn [ps_addr ps_pools ps_pending_lookup set_ps_pending_lookup]. unfold lookup_owns. cbn. lia.
    + intros _ w3 (Hi3 & _ & _ & Hn3 & He3 & _). eapply wp_seq; [by apply hg_wp|]. intros ret w4 (_ & Hi4 & Hs4 & _). case_ret ret.
      * apply lookup_due_wp; [done|destruct Hs4 as (_ & _ & -> & _); lia| |].
        -- intros k p' l. rewrite (same_peers _ _ Hs4), He3. cbn. destruct (decide (k = cs_peer s)) as [->|Hne].
           ++ rewrite lookup_insert_eq. intros [= <-] [= <-] _. done.
           ++ rewrite lookup_insert_ne, Himpl by done. intros Hk El Hid. destruct (inv_peers _ _ Hi1 k p' Hk) as (_ & _ & _ & Hpl').
              rewrite El in Hpl'. destruct Hpl' as ([Hlt _] & _). lia.
        -- intros l. destruct Hs4 as ([c ->] & _). cbn. rewrite He3. cbn. rewrite Himpl. intros Hin.
           pose proof (inv_orphans _ _ Hi1) as Ho. rewrite Forall_forall in Ho. destruct (Ho l Hin) as ([Hlt _] & _). lia.
      * eapply wp_seq; [by apply take_pending_lookup_wp|]. intros [l|] w5 (_ & _ & _ & _ & Ho).
        -- destruct Ho as [Hi5 _]. exact (fail_clients_wp _ _ _ _ Hi5).
        -- by subst.
Qed.

(** What can go wrong, and when. *)
Definition shared_lookup (w : Mercury) : Prop :=
  ∃ peer p l, mi_peers (impl w) !! peer = Some p ∧ ps_pending_lookup p = Some l ∧ 2 ≤ length (ls_waiters l).
Definition throws_error (w : Mercury) (e : error) : Prop :=
  ∃ name entry handler payload, mi_rpcs_by_name (impl w) !! name = Some entry ∧ re_handler entry = Some handler ∧
    handler payload = Err e.
Definition throwing_handler (w : Mercury) : Prop := ∃ e, throws_error w e.
(** The callback of a lookup is due whose record is gone. *)
Definition overtaken (w : Mercury) (raw : nat) : Prop := is_Some (lookups (library w) !! raw) ∧ peer_of raw (impl w) = None.
Definition known_fault (w : Mercury) (e : error) : Prop :=
  (e = dangling_peer ∧ shared_lookup w) ∨ (e = thrown_in_callback ∧ throwing_handler w) ∨
  (e = freed_lookup ∧ ∃ raw, overtaken w raw).

Lemma forward_waiters_wp peer l w L :
  inv w (λ r, total client_owns l r + L r) → Forall (waiter_ok peer) l → is_Some (mi_peers (impl w) !! peer) → calm peer w →
  wp (λ e _, e = dangling_peer ∧ 2 ≤ length l) (io_each l (forward_waiter peer)) (λ _ w', inv w' L) w.
Proof.
  assert (∀ s w L, inv w (λ r, client_owns s r + L r) → waiter_ok peer s → calm peer w →
    wp (λ e _, e = dangling_peer ∧ mi_peers (impl w) !! peer = None) (forward_waiter peer s) (λ _ w', inv w' L ∧ calm peer w') w) as Hone.
  { clear w L. intros s w L Hi Hs Hc. unfold forward_waiter, ask_impl. apply wp_bind. unfold wp at 1. cbn [id].
    destruct (mi_peers (impl w) !! peer) as [p|] eqn:Hp; [|done]. destruct (Hc p Hp) as [_ Hne]. destruct Hs as (<- & Hs).
    apply wp_never. eapply wp_mono; [apply (start_client_forward_wp (set_cs_addr (ps_addr p) s) w L Hi); [done|by exists p]|].
    intros _ w' [Hi' Hc']. split; [done|by apply Hc']. }
  destruct l as [|s l]; intros Hi Hok [p Hp] Hc; [done|]. apply Forall_cons in Hok as [Hs Hok]. cbn [io_each].
  eapply (wp_seq _ _ _ _ (λ _ w', inv w' (λ r, total client_owns l r + L r) ∧ calm peer w')).
  - assert (inv w (λ r, client_owns s r + (total client_owns l r + L r))) as Hi'
      by (eapply inv_ext; [done|]; intros r; cbv beta; rewrite total_cons; lia).
    pose proof (Hone s w _ Hi' Hs Hc) as Hw. unfold wp in *. destruct (forward_waiter peer s w) as [[a|e] w']; [done|].
    destruct Hw. congruence.
  - intros _ w1 [Hi1 Hc1]. destruct l as [|s' l]; [done|].
    eapply wp_mono; [apply (wp_each _ _ (λ l w', inv w' (λ r, total client_owns l r + L r) ∧ calm peer w' ∧ Forall (waiter_ok peer) l)
      (s' :: l) w1 (conj Hi1 (conj Hc1 Hok)))|by intros _ w' [? _]].
    intros x l' w' (Hi2 & Hc2 & Hok2). apply Forall_cons in Hok2 as [Hx Hok2].
    assert (inv w' (λ r, client_owns x r + (total client_owns l' r + L r))) as Hi'
      by (eapply inv_ext; [done|]; intros r; cbv beta; rewrite total_cons; lia).
    pose proof (Hone x w' _ Hi' Hx Hc2) as Hw. unfold wp in *. destruct (forward_waiter peer x w') as [[a|e] w2]; [by destruct Hw|].
    destruct Hw as [-> _]. split; [done|]. cbn. lia.
Qed.

Lemma awaits_inv raw p : awaits raw p = true → ∃ l, ps_pending_lookup p = Some l ∧ ls_id l = raw.
Proof. unfold awaits. destruct (ps_pending_lookup p) as [l|]; [|done]. intros ?%bool_decide_eq_true. by exists l. Qed.

(** The address a lookup brings becomes that of the peer. *)
Lemma new_addr_wp peer p addr w L :
  inv w (λ r, one (RAddr addr) r + L r) → mi_peers (impl w) !! peer = Some p → ps_pending_lookup p = None → addr ≠ HG_NULL →
  resolved (library w) !! addr = Some peer →
  wp never (if (ps_addr p =? HG_NULL)%Z then set_peer peer (set_ps_addr addr p)
            else if negb (addr =? ps_addr p)%Z then HG_Addr_free addr else mret tt)
    (λ _ w', inv w' L ∧ is_Some (mi_peers (impl w') !! peer) ∧ calm peer w') w.
Proof.
  intros Hi Hp Hpn Hne Hres. destruct (inv_peers _ _ Hi peer p Hp) as (Hok & Hnd & Hra & Hpl).
  destruct (Z.eqb_spec (ps_addr p) HG_NULL) as [Ha|Ha].
  - eapply wp_mono; [apply (set_peer_wp _ _ w _ L Hi)|].
    + by split_and!.
    + intros r. rewrite Hp. unfold peer_owns. cbn [ps_addr ps_pools ps_pending_lookup set_ps_addr]. rewrite Ha.
      unfold at_most at 1. rewrite (proj2 (Z.eqb_neq addr HG_NULL) Hne). cbn [at_most]. unfold at_most. cbn. lia.
    + intros _ w' (Hi' & _ & _ & _ & He & _). split; [done|]. unfold calm. rewrite He. cbn. rewrite lookup_insert_eq.
      split; [by eexists|]. by intros p' [= <-].
  - destruct (Z.eqb_spec addr (ps_addr p)) as [->|Hd]; cbn [negb].
    + exfalso. pose proof (inv_balance _ _ Hi (RAddr (ps_addr p))) as Hb. pose proof (inv_once _ _ Hi (RAddr (ps_addr p))).
      cbv beta in Hb. unfold owned in Hb. rewrite (msum_delete peer_owns _ _ _ _ Hp) in Hb. unfold peer_owns at 1 in Hb.
      unfold at_most in Hb. rewrite (proj2 (Z.eqb_neq _ HG_NULL) Ha), one_refl in Hb. lia.
    + eapply wp_mono; [exact (release_wp _ _ _ Hi)|]. intros _ w' [Hi' Hs]. split; [done|]. unfold calm.
      rewrite (same_peers _ _ Hs), Hp. split; [by eexists|]. by intros p' [= <-].
Qed.

(** [peer_of] finds the record of the lookup. *)
Lemma peer_of_inv raw i peer : peer_of raw i = Some peer →
  (∃ p l, mi_peers i !! peer = Some p ∧ ps_pending_lookup p = Some l ∧ ls_id l = raw) ∨
  ∃ l, l ∈ mi_orphaned_lookups i ∧ ls_id l = raw ∧ ls_peer l = peer.
Proof.
  unfold peer_of. destruct (List.find _ (map_to_list _)) as [[k p]|] eqn:E.
  - intros [= ->]. left. apply List.find_some in E as [Hin (l & Hl & Hid)%awaits_inv]. exists p, l. split_and!; [|done|done].
    apply elem_of_map_to_list. by apply list_elem_of_In.
  - clear E. destruct (List.find _ _) as [l|] eqn:E; [|done]. intros [= <-]. right.
    apply List.find_some in E as [Hin Hid%bool_decide_eq_true]. exists l. split_and!; [by apply list_elem_of_In|done|done].
Qed.

Lemma peer_of_named raw name w L peer :
  inv w L → lookups (library w) !! raw = Some name → peer_of raw (impl w) = Some peer → name = peer.
Proof.
  intros Hi Hraw [(p & l & Hp & Hl & <-)|(l & Hl & <- & <-)]%peer_of_inv.
  - destruct (inv_peers _ _ Hi peer p Hp) as (_ & _ & _ & Hpl). rewrite Hl in Hpl. destruct Hpl as ([_ Hn] & <- & _). by apply Hn.
  - pose proof (inv_orphans _ _ Hi) as Ho. rewrite Forall_forall in Ho. destruct (Ho l Hl) as ([_ Hn] & _). by apply Hn.
Qed.

Lemma take_orphaned_lookup_wp raw w L :
  inv w L → wp never (take_orphaned_lookup raw) (λ o w', inv w' L ∧ library w' = library w ∧
    match o with Some l => ls_cancelled l = true ∧ l ∈ mi_orphaned_lookups (impl w) ∧ ls_id l = raw
    | None => ∀ l, l ∈ mi_orphaned_lookups (impl w) → ls_id l ≠ raw end) w.
Proof.
  intros Hi. unfold take_orphaned_lookup, ask_impl. apply wp_bind. unfold wp at 1. cbn [id].
  destruct (list_find _ _) as [[n l]|] eqn:E.
  2: { apply list_find_None in E. rewrite Forall_forall in E. by split_and!. }
  apply list_find_Some in E as (Hl & Hid & _). apply list_elem_of_lookup_2 in Hl as Hin.
  pose proof (inv_orphans _ _ Hi) as Ho. rewrite Forall_forall in Ho. destruct (Ho l Hin) as (_ & _ & Hc). destruct Hi.
  unfold wp, upd_impl, modify, mbind, IO_bind. split; [|done]. split; cbn; try done. by apply Forall_delete.
Qed.

Lemma lookup_cb_wp raw ret addr w :
  inv w nothing → callback_ok w (LookupDone raw ret addr) = true →
  wp (λ e _, known_fault w e) (lookup_cb raw ret addr) (λ _ w', inv w' nothing) w.
Proof.
  intros Hi [[name Hraw]%bool_decide_eq_true Hnew]%andb_true_iff.
  assert (ret = HG_SUCCESS → addr ≠ HG_NULL ∧ RAddr addr ∉ ledger w) as Hfresh.
  { intros ->. by apply orb_true_iff in Hnew as [?%bool_decide_eq_true|?%bool_decide_eq_true]. }
  unfold lookup_cb. eapply wp_seq; [by apply (lookup_over_wp raw ret addr name w nothing)|].
  intros _ w0 (Hi0 & He0 & _ & Hres). unfold ask_impl. apply wp_bind. unfold wp at 1. cbn [id]. rewrite He0.
  destruct (peer_of raw (impl w)) as [peer|] eqn:Hpeer.
  2: { right. right. split; [done|]. exists raw. split; [by eexists|done]. }
  apply (peer_of_named raw name w nothing) in Hpeer as Hname; [subst name|done|done].
  eapply wp_seq; [exact (take_pending_lookup_wp peer w0 _ Hi0)|]. intros [l|] w1 (_ & _ & Hlib & Hpn & Ho).
  - destruct Ho as (Hi1 & Hpe & Hc & Hw & p2 & Hp2 & Hl2). rewrite He0 in Hp2.
    apply wp_bind, wp_ret. rewrite Hc, (ret_match ret). destruct (decide (ret = HG_SUCCESS)) as [->|Hne].
    2: { apply wp_never, fail_clients_wp. eapply inv_ext; [exact Hi1|]. intros r. unfold found_addr, lookup_owns. by destruct ret. }
    destruct (Hfresh eq_refl) as [Hnn _].
    eapply wp_seq; [by apply peer_state_wp|]. rewrite Hpe. intros p3 w3 (Hi3 & _ & _ & _ & Hp3 & Hlib3 & Hp3').
    assert (ps_pending_lookup p3 = None) as Hnone.
    { destruct (mi_peers (impl w1) !! peer) as [q|] eqn:Hq; [destruct Hp3' as [-> _]; by apply Hpn|by subst]. }
    eapply wp_seq; [apply (new_addr_wp peer p3 addr w3 (λ r, lookup_owns l r + nothing r)); [|done..|]|].
    { eapply inv_ext; [exact Hi3|]. intros r. cbn. lia. }
    { rewrite Hlib3, Hlib. by apply Hres. }
    intros _ w4 (Hi4 & Hs4 & Hc4).
    pose proof (forward_waiters_wp peer (ls_waiters l) w4 nothing Hi4 Hw Hs4 Hc4) as Hfin. unfold wp in *.
    destruct (io_each _ _ w4) as [[a|e] w5]; [done|]. left. destruct Hfin. split; [done|]. by exists peer, p2, l.
  - subst w1. eapply wp_seq; [exact (take_orphaned_lookup_wp raw w0 _ Hi0)|].
    intros [l|] w1 (Hi1 & _ & Hc); [destruct Hc as [-> _]|]; by apply wp_never, forget_wp.
Qed.

(** Only a lookup that was orphaned loses its address. *)
Lemma lookup_cb_leaks raw ret addr w :
  inv w nothing → callback_ok w (LookupDone raw ret addr) = true →
  let w' := snd (lookup_cb raw ret addr w) in
  leakless w w' ∨
  ret = HG_SUCCESS ∧ raw ∈ map ls_id (mi_orphaned_lookups (impl w)) ∧ leaked (library w') = addr :: leaked (library w).
Proof.
  intros Hi [[name Hraw]%bool_decide_eq_true Hnew]%andb_true_iff w'. unfold w', lookup_cb.
  assert (ret = HG_SUCCESS → addr ≠ HG_NULL ∧ RAddr addr ∉ ledger w) as Hfresh.
  { intros ->. by apply orb_true_iff in Hnew as [?%bool_decide_eq_true|?%bool_decide_eq_true]. }
  pose proof (lookup_over_wp raw ret addr name w nothing Hi Hraw Hfresh) as Hover. unfold wp in Hover.
  destruct (lookup_over raw ret addr w) as [[[]|e] w0] eqn:E0; [|done]. destruct Hover as (Hi0 & He0 & Hle0 & _).
  rewrite (io_bind_ok _ _ _ _ _ E0), (io_bind_ok _ _ _ (impl w0) w0) by done.
  destruct (peer_of raw (impl w0)) as [peer|] eqn:Hpeer; [|by left].
  pose proof (take_pending_lookup_wp peer w0 _ Hi0) as Htp. unfold wp in Htp.
  destruct (take_pending_lookup peer w0) as [[o|e] w1] eqn:E1; [|done]. destruct Htp as (_ & _ & Hlib & Hpn & Ho).
  rewrite (io_bind_ok _ _ _ _ _ E1). assert (leakless w w1) as Hl1 by (unfold leakless; congruence). destruct o as [l|].
  - destruct Ho as (_ & _ & Hc & _). rewrite (io_bind_ok _ _ _ (Some l) w1), Hc by done. left. transitivity w1; [done|].
    match goal with |- leakless w1 (snd (?m w1)) => enough (respects leakless m) as Hm by apply Hm end. respects.
  - subst w1. pose proof (take_orphaned_lookup_wp raw w0 _ Hi0) as Hto. unfold wp in Hto.
    destruct (take_orphaned_lookup raw w0) as [[o|e] w2] eqn:E2; [|done]. destruct Hto as (_ & Hlib2 & Ho).
    rewrite (io_bind_ok _ _ _ _ _ E2). assert (leaked (library w2) = leaked (library w)) as Hl2 by congruence.
    destruct o as [l|].
    + destruct Ho as (-> & Hin & Hid). unfold forget. destruct ret; [|by left..]. right. split_and!; [done| |cbn; by rewrite Hl2].
      rewrite He0 in Hin. apply list_elem_of_fmap. by exists l.
    + exfalso. apply peer_of_inv in Hpeer as [(p & l & Hp & Hl & _)|(l & Hl & Hid & _)]; [|by apply (Ho l)].
      specialize (Hpn p Hp). congruence.
Qed.

(** A forward leaves the table of those under way. *)
Lemma forwarded_wp promise s w L :
  inv w L → forwarding (in_flight w) !! promise = Some s →
  wp never (upd_in_flight (λ f, mkInFlight (delete promise (forwarding f)) (pulling f) (handling f) (responding f)))
    (λ _ w', inv w' (λ r, client_owns s r + L r) ∧ impl w' = impl w ∧ ledger w' = ledger w) w.
Proof.
  intros Hi Hs. apply (in_flight_wp _ w L); try apply Hi; [|by apply map_Forall_delete, Hi..].
  intros r. unfold flight_owns. cbn. rewrite (msum_delete client_owns _ _ _ _ Hs). lia.
Qed.

(** A forward under way is answered while Mercury keeps it. *)
Lemma answer_in_place promise s s' e w L :
  inv w L → forwarding (in_flight w) !! promise = Some s → cs_promise_done s = false →
  s' = set_cs_timer false (set_cs_promise_done true s) →
  wp never (set_promise (cs_promise s) e;; set_forwarding promise s') (λ _ w', inv w' L) w.
Proof.
  intros Hi Hs Hd ->. destruct (inv_forwarding _ _ Hi promise s Hs) as (Hn & Hp & Hh & Hdr & Hre & _).
  pose proof (forwarded_wp promise s w L Hi Hs) as Hw1. unfold wp, upd_in_flight, modify in Hw1. destruct Hw1 as (Hi1 & _).
  set (w1 := mkMercury _ _ _ _ _ _ _) in Hi1.
  assert (inv w1 (λ r, one (RPromise (cs_promise s)) r + (client_owns (set_cs_promise_done true s) r + L r))) as Hi2
    by (eapply inv_ext; [done|]; intros r; unfold client_owns; rewrite Hd; cbn; lia).
  pose proof (set_promise_wp _ e w1 _ Hi2) as Hw2. unfold wp, set_promise, release, mbind, IO_bind in Hw2 |- *.
  cbn [w1 ledger] in Hw2. destruct (strike (RPromise (cs_promise s)) (ledger w)) as [k|] eqn:Hk; [|done].
  unfold modify in Hw2 |- *. destruct Hw2 as [Hi3 _]. set (w2 := mkMercury _ _ _ _ _ _ _) in Hi3.
  unfold set_forwarding, upd_in_flight, modify.
  set (s' := set_cs_timer false _).
  assert (wp never (set_forwarding promise s') (λ _ w', inv w' L) w2) as Hw3.
  - eapply wp_mono; [eapply (in_flight_wp _ w2 _ L Hi3); try apply Hi3|by intros _ w' []]; cbn.
    + intros r. unfold flight_owns. cbn. rewrite msum_new by apply lookup_delete_eq.
      change (client_owns s' r) with (client_owns (set_cs_promise_done true s) r). lia.
    + apply map_Forall_insert_2; [|apply Hi3]. split_and!; try done. cbn.
      pose proof (inv_once _ _ Hi (RPromise promise)) as Ho.
      assert (RPromise promise ∈ ledger w) as Hin.
      { apply held_in. rewrite <- (inv_balance _ _ Hi). unfold owned, flight_owns.
        rewrite (msum_delete client_owns _ _ _ _ Hs). unfold client_owns at 1. rewrite Hd, Hp, one_refl. lia. }
      destruct (strike_held _ _ Hin) as (k' & Hk' & Hheld). assert (k' = k) as -> by congruence.
      rewrite held_in. specialize (Hheld (RPromise promise)). rewrite one_refl in Hheld. lia.
    + apply map_Forall_insert_2; [|apply Hi3]. exact (inv_bound _ _ Hi promise s Hs).
  - unfold wp, set_forwarding, upd_in_flight, modify in Hw3. cbn in Hw3. by rewrite insert_delete_eq in Hw3.
Qed.

Lemma timed_out_wp promise w :
  inv w nothing → is_Some (forwarding (in_flight w) !! promise) →
  wp never (timed_out promise) (λ _ w', inv w' nothing) w.
Proof.
  intros Hi [s Hs]. unfold timed_out, ask_flight. apply wp_bind. unfold wp at 1. cbv beta. rewrite Hs.
  destruct (cs_promise_done s) eqn:Hdone.
  - destruct (inv_forwarding _ _ Hi promise s Hs) as (Hn & Hp & Hh & Hdr & Hre & Hd). rewrite Hdone in Hd.
    eapply wp_mono; [eapply (in_flight_wp _ w _ nothing Hi); try apply Hi|by intros _ w' []]; cbn.
    + intros r. unfold flight_owns. cbn. pose proof (msum_insert client_owns _ _ _ (set_cs_timer false s) r Hs) as Hm.
      change (client_owns (set_cs_timer false s) r) with (client_owns s r) in Hm. lia.
    + apply map_Forall_insert_2; [|apply Hi]. split_and!; try done. cbn. by rewrite Hdone.
    + apply map_Forall_insert_2; [|apply Hi]. exact (inv_bound _ _ Hi promise s Hs).
  - pose proof (answer_in_place promise s _ (Err (RuntimeError (str "Mercury RPC timed out"))) w nothing Hi Hs Hdone eq_refl) as Hw.
    unfold wp, mbind, IO_bind in Hw |- *.
    destruct (set_promise _ _ w) as [[[]|] w1]; [|done]. destruct (set_forwarding _ _ w1) as [[[]|] w2]; [|done].
    pose proof (mbump_wp rpc_errors 1 w2 nothing Hw) as Hw2. unfold wp, on_rpc_error in *.
    destruct (mbump rpc_errors 1 w2) as [[[]|] w3]; [|done]. apply (wp_same_inv _ w3), mbump_wp, Hw2.
Qed.

Lemma take_output_wp s w :
  inv w (client_owns s) → cs_promise_done s = false →
  wp never (take_output s) (λ _ w', inv w' (client_owns (set_cs_promise_done true s))) w.
Proof.
  intros Hi Hd. unfold take_output.
  assert (∀ w', inv w' (client_owns s) → inv w' (λ r, one (RPromise (cs_promise s)) r + client_owns (set_cs_promise_done true s) r)) as Hx.
  { intros w' Hi'. eapply inv_ext; [done|]. intros r. unfold client_owns. rewrite Hd. cbn. lia. }
  eapply wp_seq; [by apply hg_wp|]. intros [ret output] w2 (_ & Hi2 & _). cbv beta iota.
  case_ret ret.
  - eapply wp_seq; [apply (acquire_wp (ROutput (cs_handle s)) w2 _ Hi2)|]; [|done|done|].
    { rewrite held_in, <- (inv_balance _ _ Hi2), owned_output, client_owns_decoded, lost_decoded by done. lia. }
    intros _ w3 [Hi3 _].
    assert (inv w3 (λ r, one (RPromise (cs_promise s)) r + (one (ROutput (cs_handle s)) r + client_owns (set_cs_promise_done true s) r))) as Hi3'.
    { eapply inv_ext; [done|]. intros r. unfold client_owns. rewrite Hd. cbn. lia. }
    eapply (wp_seq _ _ _ _ (λ _ w', inv w' (λ r, one (ROutput (cs_handle s)) r + client_owns (set_cs_promise_done true s) r))).
    + destruct (negb _); [|exact (wp_same_inv _ _ _ (set_promise_wp _ _ _ _ Hi3'))].
      eapply wp_seq; [exact (set_promise_wp _ _ _ _ Hi3')|]. intros _ w4 [Hi4 _]. exact (wp_same_inv _ _ _ (mbump_wp _ _ _ _ Hi4)).
    + intros _ w4 Hi4. exact (wp_same_inv _ _ _ (release_wp _ _ _ Hi4)).
  - eapply wp_seq; [exact (set_promise_wp _ _ _ _ (Hx w2 Hi2))|]. intros _ w4 [Hi4 _].
    exact (wp_same_inv _ _ _ (mbump_wp _ _ _ _ Hi4)).
Qed.

Lemma forward_cb_wp promise ret w :
  inv w nothing → is_Some (forwarding (in_flight w) !! promise) →
  wp never (forward_cb promise ret) (λ _ w', inv w' nothing) w.
Proof.
  intros Hi [s Hs]. unfold forward_cb, ask_flight. apply wp_bind. unfold wp at 1. cbv beta. rewrite Hs.
  destruct (inv_forwarding _ _ Hi promise s Hs) as (Hn & Hp & Hh & Hdr & Hre & Hd).
  eapply wp_seq; [exact (forwarded_wp promise s w nothing Hi Hs)|]. intros _ w0 (Hi0 & _).
  assert (inv w0 (client_owns s)) as Hi0' by (eapply inv_ext; [done|]; intros r; unfold nothing; lia). clear Hi0.
  eapply wp_seq; [apply (uses_wp _ w0 _ Hi0')|].
  { unfold client_owns, at_most. rewrite (proj2 (Z.eqb_neq _ _) Hh), one_refl. lia. }
  intros _ w1 [Hi1' _]. eapply wp_seq; [apply (uses_bulk_wp _ w1 _ Hi1')|].
  { intros Hb. unfold client_owns, at_most. rewrite (proj2 (Z.eqb_neq _ HG_NULL) Hb), one_refl. lia. }
  intros _ ? ->. clear Hi0' w0.
  assert (∀ m k : Mercury_ unit, (cs_promise_done s = false → wp never m (λ _ w', inv w' (client_owns (set_cs_promise_done true s))) w1) →
    (∀ w', inv w' (client_owns (set_cs_promise_done true s)) → wp never k (λ _ w', inv w' nothing) w') →
    wp never ((if cs_promise_done s then mret tt else m);; k) (λ _ w', inv w' nothing) w1) as Hgo.
  { intros m k Hm Hk. eapply (wp_seq _ _ _ _ (λ _ w', inv w' (client_owns (set_cs_promise_done true s))));
      [|intros a w' Hw'; by apply Hk].
    destruct (cs_promise_done s) eqn:Hdone; [|by apply Hm]. apply wp_ret. eapply inv_ext; [done|].
    intros r. unfold client_owns. by rewrite Hdone. }
  assert (∀ s' w', cs_promise_done s' = true → (∀ r, client_owns s' r = client_owns (set_cs_promise_done true s) r) →
    inv w' (client_owns (set_cs_promise_done true s)) → wp never (cleanup_client s') (λ _ w', inv w' nothing) w') as Hcl.
  { intros s' w' Hd' He Hi'. eapply wp_mono; [apply (cleanup_client_wp s' w' nothing); [|done]|by intros _ w2 []].
    eapply inv_ext; [done|]. intros r. rewrite He. unfold nothing. lia. }
  case_ret ret; apply Hgo.
  - intros Hdone. by apply take_output_wp.
  - intros w' Hi'. by apply Hcl.
  - intros Hdone. eapply wp_seq; [apply (set_promise_wp _ _ w1 (client_owns (set_cs_promise_done true s)))|].
    + eapply inv_ext; [done|]. intros r. unfold client_owns. rewrite Hdone. cbn. lia.
    + intros _ w2 [Hi2 _]. exact (wp_same_inv _ _ _ (mbump_wp _ _ _ _ Hi2)).
  - intros w' Hi'. by apply Hcl.
Qed.

End safety.
