(* ===== verification/MercurySafety.v ===== *)
(** * The Mercury shard keeps track of its resources

    The registry, the server side, and start and stop of the shard preserve
    the ownership invariant of MercuryRep.v; with MercuryClient.v, so does
    every step of the shard.  The theorems: nothing is given back twice or
    used after it was given back, and no promise is fulfilled twice, the known
    faults apart; who waits for a promise; and what stop and the time-out do
    for those who wait. *)

From Stdlib Require Import ZArith Lia.
From stdpp Require Import base tactics numbers option fin_maps gmap functions list.
From S2P Require Import Prelude Storage MercuryProc MercuryShard MercuryRep MercuryKeeps MercuryClient.

Section safety.
Context {Hg0 : Hg} {Laws : HgLaws}.

(** ** The registry *)

(** The registry is as it was, and only it may have changed. *)
Definition same_registry (w w' : Mercury) : Prop := mi_rpcs_by_name (impl w') = mi_rpcs_by_name (impl w).

Lemma find_rpc_by_name_wp name w L :
  inv w L → wp never (find_rpc_by_name name) (λ o w', inv w' L ∧ same_registry w w' ∧
    match o with
    | Some found => found = name ∧ registered (impl w') name
    | None => mi_rpcs_by_name (impl w') !! name = None
    end) w.
Proof.
  intros Hi. pose proof (inv_registry _ _ Hi) as [Hreg Hlast]. unfold find_rpc_by_name, ask_impl. apply wp_bind. unfold wp at 1. cbn [id].
  assert (wp never (match mi_rpcs_by_name (impl w) !! name with
      | None => mret None
      | Some e => upd_impl (set_last_rpc (Some name));; mret (Some name) end)
    (λ o w', inv w' L ∧ same_registry w w' ∧
      match o with Some found => found = name ∧ registered (impl w') name
      | None => mi_rpcs_by_name (impl w') !! name = None end) w) as Hmap.
  { destruct (mi_rpcs_by_name (impl w) !! name) as [e|] eqn:He; [|done].
    eapply wp_seq; [apply (registry_wp _ w L Hi); try done; by exists e|].
    intros _ w' (Hi' & Hw & _). apply wp_ret. unfold same_registry, registered. rewrite Hw. cbn. by rewrite He. }
  destruct (mi_last_rpc (impl w)) as [last|]; [|exact Hmap]. case_bool_decide as Heq; [|exact Hmap].
  subst last. by apply wp_ret.
Qed.

Lemma rpc_entry_wp name w L :
  inv w L → registered (impl w) name →
  wp never (rpc_entry name) (λ e w', w' = w ∧ mi_rpcs_by_name (impl w) !! name = Some e) w.
Proof.
  intros Hi [e He]. unfold rpc_entry, ask_impl. apply wp_bind. unfold wp at 1. cbn [id]. by rewrite He.
Qed.

(** An operation that throws leaves the invariant. *)
Definition throws (L : Resource → nat) (e : error) (w : Mercury) : Prop := defined e ∧ inv w L.

Lemma bind_rpc_wp name w L :
  inv w L → registered (impl w) name →
  wp (throws L) (bind_rpc_to_mercury name) (λ _ w', inv w' L ∧ ∀ n, registered (impl w) n → registered (impl w') n) w.
Proof.
  intros Hi Hr. unfold bind_rpc_to_mercury. eapply wp_seq; [by eapply rpc_entry_wp|]. intros e w1 [-> He].
  eapply wp_seq; [by apply hg_wp|]. intros id w1 (_ & Hi1 & Hs1 & _). destruct (Z.eqb_spec id 0%Z) as [|Hid]; [by split|].
  eapply wp_seq; [by apply hg_wp|]. intros ret w2 (_ & Hi2 & Hs2 & _). case_ret ret; [|by split].
  assert (mi_rpcs_by_name (impl w2) = mi_rpcs_by_name (impl w)) as Hn by (by rewrite (same_rpcs _ _ Hs2), (same_rpcs _ _ Hs1)).
  pose proof (inv_registry _ _ Hi2) as [Hreg2 Hlast2].
  assert (∀ n, registered (impl w2) n → is_Some (<[name := set_re_id id e]> (mi_rpcs_by_name (impl w2)) !! n)) as Hmono.
  { intros n Hn2. destruct (decide (n = name)) as [->|]; [by rewrite lookup_insert_eq|by rewrite lookup_insert_ne]. }
  eapply wp_seq; [apply (registry_wp _ w2 L Hi2); try done|].
  - eapply Forall_impl; [exact Hreg2|]. intros x. apply Hmono.
  - cbn. destruct (mi_last_rpc (impl w2)); [by apply Hmono|done].
  - intros _ w3 (Hi3 & He3 & _). pose proof (inv_registry _ _ Hi3) as [Hreg3 Hlast3].
    eapply wp_mono; [apply wp_never, (registry_wp _ w3 L Hi3); try done|].
    + cbn. apply Forall_app; split; [exact Hreg3|]. apply Forall_singleton. unfold registered. cbn. rewrite He3. cbn.
      by rewrite lookup_insert_eq.
    + intros _ w4 (Hi4 & He4 & _). split; [done|]. intros n Hn4. unfold registered. rewrite He4. cbn. rewrite He3. cbn.
      apply Hmono. unfold registered in *. by rewrite Hn.
Qed.

Lemma register_handler_wp name handler w L :
  inv w L → wp (throws L) (register_handler name handler) (λ _ w', inv w' L ∧ registered (impl w') name) w.
Proof.
  intros Hi. pose proof (inv_registry _ _ Hi) as [Hreg Hlast]. unfold register_handler, ask_impl. apply wp_bind. unfold wp at 1. cbn [id].
  set (entry := match _ with Some e => e | None => _ end).
  assert (∀ n, registered (impl w) n → is_Some (<[name := set_re_handler handler entry]> (mi_rpcs_by_name (impl w)) !! n)) as Hmono.
  { intros n Hn. destruct (decide (n = name)) as [->|]; [by rewrite lookup_insert_eq|by rewrite lookup_insert_ne]. }
  eapply wp_seq; [apply (registry_wp _ w L Hi); try done|].
  - eapply Forall_impl; [exact Hreg|]. intros x. apply Hmono.
  - cbn. destruct (mi_last_rpc (impl w)); [by apply Hmono|done].
  - intros _ w1 (Hi1 & He1 & _).
    assert (registered (impl w1) name) as Hr1 by (unfold registered; rewrite He1; cbn; by rewrite lookup_insert_eq).
    destruct (_ && _); [|by split]. eapply wp_mono; [by apply bind_rpc_wp|]. intros _ w2 [Hi2 Hm]. auto.
Qed.

Lemma wp_catchless {A} E E' (m : Mercury_ A) Q w :
  wp E m Q w → (∀ e w', E e w' → E' e w') → wp E' m Q w.
Proof. unfold wp. destruct (m w) as [[a|e] w']; auto. Qed.

Lemma forward_rpc_id_wp rpc w L : inv w L → wp (throws L) (forward_rpc_id rpc) (λ _ w', inv w' L) w.
Proof.
  intros Hi. unfold forward_rpc_id. eapply wp_seq; [by apply find_rpc_by_name_wp|].
  intros found w1 (Hi1 & _ & Hf). apply wp_bind. eapply (wp_mono _ _ (λ _ w', inv w' L ∧ registered (impl w') rpc)).
  { destruct found as [name|]; [by destruct Hf|]. apply wp_bind. eapply wp_mono; [by apply register_handler_wp|].
    intros _ w2 [Hi2 Hr2]. eapply wp_seq; [by apply find_rpc_by_name_wp|]. intros o w3 (Hi3 & Hs3 & _). apply wp_ret.
    split; [done|]. unfold registered. by rewrite Hs3. }
  intros _ w2 [Hi2 Hr2]. eapply wp_seq; [by eapply rpc_entry_wp|]. intros e w3 [-> He]. apply wp_bind.
  eapply (wp_mono _ _ (λ _ w', inv w' L ∧ registered (impl w') rpc)).
  { destruct (re_id e =? 0)%Z; [|by split]. eapply wp_mono; [by apply bind_rpc_wp|]. intros _ w3 [Hi3 Hm]. auto. }
  intros _ w3 [Hi3 Hr3]. eapply wp_seq; [by eapply rpc_entry_wp|]. by intros e' w4 [-> _].
Qed.

Lemma forward_input_wp payload w :
  inv w nothing → wp never (forward_input payload) (λ '(ret, bulk, input) w',
    inv w' (λ r, if decide (ret = HG_SUCCESS) then at_most bulk RBulk r else 0)) w.
Proof.
  intros Hi. unfold forward_input. destruct (_ <=? _)%Z.
  2: { apply wp_ret. eapply inv_ext; [done|]. intros r. by destruct (decide _). }
  eapply wp_seq; [by apply hg_wp|]. intros [ret bulk] w1 (Ha & Hi1 & _ & Hl). cbv beta iota. case_ret ret.
  - subst ret. destruct (bulk_create_fresh _ _ _ _ (eq_sym Ha)) as [Hne Hfr].
    eapply wp_seq; [apply (acquire_wp _ _ _ Hi1)|]; [by rewrite Hl|done|done|]. intros _ w2 [Hi2 _]. apply wp_ret.
    eapply inv_ext; [done|]. intros r. rewrite decide_True by done. unfold at_most, nothing.
    rewrite (proj2 (Z.eqb_neq _ _) Hne). lia.
  - apply wp_ret. eapply inv_ext; [done|]. intros r. by rewrite decide_False.
Qed.

(** ** The operations of the client *)

Definition forward_throws (w : Mercury) (e : error) (w' : Mercury) : Prop :=
  inv w' nothing ∧ (defined e ∨ throws_error w e).

Lemma forward_local_wp rpc payload w :
  inv w nothing → wp (forward_throws w) (forward_local rpc payload) (λ _ w', inv w' nothing) w.
Proof.
  intros Hi. unfold forward_local. eapply wp_seq; [by apply find_rpc_by_name_wp|].
  intros [name|] w1 (Hi1 & Hs1 & Hf); [|done]. destruct Hf as [-> Hr1].
  eapply wp_seq; [by eapply rpc_entry_wp|]. intros e w2 [-> He]. destruct (re_handler e) as [handler|] eqn:Hh; [|done].
  unfold call_handler. apply wp_bind. eapply wp_seq; [by eapply rpc_entry_wp|]. intros e' w3 [-> He'].
  assert (e' = e) as -> by congruence. rewrite Hh. unfold wp, lift. destruct (handler payload) as [[]|err] eqn:Hp; [done|].
  split; [done|]. right. exists rpc, e, handler, payload. by rewrite <- Hs1.
Qed.

(** A new number is that of no promise. *)
Lemma fresh_promise w w' L :
  inv w L → in_flight w' = in_flight w → promises w' = promises w →
  forwarding (in_flight w') !! fresh w = None ∧ promises w' !! fresh w = None.
Proof.
  intros Hi -> ->. split.
  - destruct (forwarding (in_flight w) !! fresh w) as [s|] eqn:Hs; [|done]. destruct (inv_forwarding _ _ Hi _ _ Hs). lia.
  - destruct (promises w !! fresh w) as [v|] eqn:Hv; [|done]. destruct (inv_open _ _ Hi (fresh w)); [by eexists|lia].
Qed.

Lemma forward_wp peer rpc payload w :
  inv w nothing → wp (forward_throws w) (forward peer rpc payload) (λ _ w', inv w' nothing) w.
Proof.
  intros Hi. unfold forward, ask_impl. apply wp_bind. unfold wp at 1. cbn [id].
  case_bool_decide; [by apply forward_local_wp|]. destruct (_ || _); [done|].
  apply wp_bind. eapply wp_mono; [eapply wp_catchless; [exact (forward_rpc_id_wp rpc w nothing Hi)|]|].
  { intros e w' [Hd Hi']. split; [done|by left]. }
  intros rpc_id w1 Hi1. eapply wp_seq; [exact (mbump_wp _ _ _ _ Hi1)|]. intros _ w2 [Hi2 _].
  eapply wp_seq; [by apply forward_input_wp|]. intros [[ret bulk] input] w3 Hi3. cbv beta iota in Hi3 |- *.
  case_ret ret.
  2: { eapply wp_seq; [by apply mbump_wp|]. intros _ w4 [Hi4 _]. by apply wp_ret. }
  eapply wp_seq; [exact (next_id_wp _ _ Hi3)|]. intros p w4 (-> & Hi4 & Hf4 & _ & Hl4 & Hn4 & _ & Hpr4).
  eapply wp_seq; [apply (acquire_wp (RPromise (fresh w3)) w4 _ Hi4)|].
  - rewrite Hl4. intros Hin. apply (inv_valid _ _ Hi3) in Hin. cbn in Hin. lia.
  - cbn. lia.
  - intros p [= <-]. by apply (fresh_promise w3 w4 _ Hi3).
  - intros _ w5 [Hi5 _]. eapply (wp_seq _ _ _ _ (λ _ w', inv w' nothing)); [apply forward_to_peer_wp; [|done]|done].
    eapply inv_ext; [exact Hi5|]. intros r. unfold client_owns, nothing, at_most. cbn. lia.
Qed.

(** ** The server side *)

Lemma cleanup_server_bulk_wp s w L :
  inv w (λ r, server_owns s r + L r) → ss_handle s ≠ HG_NULL →
  wp never (cleanup_server_bulk s) (λ s' w', inv w' (λ r, server_owns s' r + L r) ∧ same w w' ∧ settled s' ∧
    ss_rpc s' = ss_rpc s) w.
Proof.
  intros Hi Hh. unfold cleanup_server_bulk.
  eapply wp_seq; [apply (free_field_wp RBulk (ss_local_bulk s) w (λ r, at_most (ss_handle s) RHandle r +
    (if ss_input_loaded s then one (RInput (ss_handle s)) r else 0) + L r))|].
  { eapply inv_ext; [done|]. intros r. unfold server_owns. lia. }
  intros _ w1 [Hi1 Hs1]. eapply (wp_seq _ _ _ _ (λ _ w', inv w' (λ r, at_most (ss_handle s) RHandle r + L r) ∧ same w w')).
  - destruct (ss_input_loaded s) eqn:Hld.
    + eapply wp_mono; [apply (release_wp (RInput (ss_handle s)) w1 (λ r, at_most (ss_handle s) RHandle r + L r))|].
      * eapply inv_ext; [done|]. intros r. cbv beta. lia.
      * intros _ w2 [Hi2 Hs2]. split; [done|by transitivity w1].
    + apply wp_ret. split; [|done]. eapply inv_ext; [done|]. intros r. cbv beta. lia.
  - intros _ w2 [Hi2 Hs2]. apply wp_ret. split_and!; try done.
    eapply inv_ext; [done|]. intros r. unfold server_owns, at_most. cbn. lia.
Qed.

Lemma settled_owns s r : settled s → server_owns s r = one (RHandle (ss_handle s)) r.
Proof.
  intros (Hh & Hb & Hl). unfold server_owns, at_most. rewrite Hb, Hl, (proj2 (Z.eqb_neq _ _) Hh). cbn. lia.
Qed.

Lemma respond_server_wp s w L :
  inv w (λ r, server_owns s r + L r) → settled s → wp never (respond_server s) (λ _ w', inv w' L) w.
Proof.
  intros Hi Hs. unfold respond_server. eapply wp_seq; [eapply (uses_wp _ w _ Hi)|].
  { cbv beta. rewrite settled_owns, one_refl by done. lia. }
  intros _ w1 [Hi1 _]. eapply wp_seq; [by apply hg_wp|]. intros ret w2 (_ & Hi2 & _). case_ret ret.
  - eapply wp_seq; [exact (next_id_wp _ _ Hi2)|]. intros k w3 (-> & Hi3 & Hf & _ & _ & Hn).
    assert (responding (in_flight w3) !! fresh w2 = None) as Hk.
    { rewrite Hf. destruct (responding (in_flight w2) !! fresh w2) as [s'|] eqn:Hs'; [|done].
      destruct (inv_responding _ _ Hi2 _ _ Hs'). lia. }
    eapply wp_mono; [eapply (in_flight_wp _ w3 _ L Hi3); try apply Hi3|by intros _ w' []]; cbn.
    + intros r. unfold flight_owns. cbn. rewrite msum_new by done. lia.
    + apply map_Forall_insert_2; [|apply Hi3]. split; [lia|done].
  - unfold free_handle. rewrite (proj2 (Z.eqb_neq _ _) (proj1 Hs)). apply wp_same_inv.
    refine (release_wp _ w2 L _). eapply inv_ext; [done|]. intros r. cbv beta. by rewrite settled_owns.
Qed.

Lemma run_server_handler_wp s w entry handler :
  inv w (server_owns s) → settled s → mi_rpcs_by_name (impl w) !! ss_rpc s = Some entry → re_handler entry = Some handler →
  wp (λ e _, e = thrown_in_callback ∧ throwing_handler w) (run_server_handler s) (λ _ w', inv w' nothing) w.
Proof.
  intros Hi Hs He Hh. unfold run_server_handler. eapply wp_seq; [eapply rpc_entry_wp; [done|by exists entry]|].
  intros e w1 [-> He']. assert (e = entry) as -> by congruence. rewrite Hh.
  destruct (handler (ss_request s)) as [[]|err] eqn:Hr.
  2: { split; [done|]. by exists err, (ss_rpc s), entry, handler, (ss_request s). }
  eapply wp_seq; [exact (next_id_wp _ _ Hi)|]. intros k w3 (-> & Hi3 & Hf & _ & _ & Hn).
  assert (handling (in_flight w3) !! fresh w = None) as Hk.
  { rewrite Hf. destruct (handling (in_flight w) !! fresh w) as [s'|] eqn:Hs'; [|done].
    destruct (inv_handling _ _ Hi _ _ Hs'). lia. }
  eapply wp_mono; [apply wp_never; eapply (in_flight_wp _ w3 _ nothing Hi3); try apply Hi3|by intros _ w' []]; cbn.
  - intros r. unfold flight_owns, nothing. cbn. rewrite msum_new by done.
    change (call_owns (mkHandlerCall (ss_request s) (set_ss_request [] s)) r) with (server_owns s r). lia.
  - apply map_Forall_insert_2; [|apply Hi3]. split; [lia|done].
Qed.

(** A server state leaves the table it is in. *)
Lemma unflight_wp (f : InFlight → InFlight) s w :
  inv w nothing → (∀ r, flight_owns (in_flight w) r = server_owns s r + flight_owns (f (in_flight w)) r) →
  forwarding (f (in_flight w)) = forwarding (in_flight w) → pulling (f (in_flight w)) ⊆ pulling (in_flight w) →
  handling (f (in_flight w)) ⊆ handling (in_flight w) → responding (f (in_flight w)) ⊆ responding (in_flight w) →
  wp never (upd_in_flight f) (λ _ w', inv w' (server_owns s) ∧ impl w' = impl w) w.
Proof.
  intros Hi Hr Hf Hp Hh Hre. eapply wp_mono; [apply (in_flight_wp f w nothing (server_owns s) Hi)|by intros _ w' (? & ? & _)].
  - intros r. rewrite (Hr r). unfold nothing. lia.
  - rewrite Hf. apply Hi.
  - rewrite Hf. apply Hi.
  - intros k x Hk. eapply (inv_pulling _ _ Hi). by eapply lookup_weaken.
  - intros k x Hk. eapply (inv_handling _ _ Hi). by eapply lookup_weaken.
  - intros k x Hk. eapply (inv_responding _ _ Hi). by eapply lookup_weaken.
Qed.

Lemma handler_done_wp server fut w :
  inv w nothing → is_Some (handling (in_flight w) !! server) → wp never (handler_done server fut) (λ _ w', inv w' nothing) w.
Proof.
  intros Hi [c Hs]. set (s := hc_state c). unfold handler_done, ask_flight. apply wp_bind. unfold wp at 1. cbv beta. rewrite Hs.
  destruct (inv_handling _ _ Hi server c Hs) as [_ Hset]. fold s in Hset |- *.
  eapply wp_seq; [apply (unflight_wp _ s w Hi); try done; [|apply delete_subseteq]|].
  { intros r. unfold flight_owns. cbn. rewrite (msum_delete call_owns _ _ _ _ Hs). unfold call_owns at 1. fold s. lia. }
  intros _ w1 [Hi1 _]. destruct fut as [response|e].
  - apply respond_server_wp; [|done]. eapply inv_ext; [exact Hi1|]. intros r. unfold nothing, server_owns. cbn. lia.
  - eapply wp_seq; [exact (mbump_wp _ _ _ _ Hi1)|]. intros _ w2 [Hi2 _]. apply respond_server_wp; [|done].
    eapply inv_ext; [exact Hi2|]. intros r. unfold nothing, server_owns. cbn. lia.
Qed.

Lemma respond_cb_wp server w :
  inv w nothing → is_Some (responding (in_flight w) !! server) → wp never (respond_cb server) (λ _ w', inv w' nothing) w.
Proof.
  intros Hi [s Hs]. unfold respond_cb, ask_flight. apply wp_bind. unfold wp at 1. cbv beta. rewrite Hs.
  destruct (inv_responding _ _ Hi server s Hs) as [_ Hset].
  eapply wp_seq; [apply (unflight_wp _ s w Hi); try done; [|apply delete_subseteq]|].
  { intros r. unfold flight_owns. cbn. rewrite (msum_delete server_owns _ _ _ _ Hs). lia. }
  intros _ w0 [Hi0 _]. eapply wp_seq; [apply (uses_wp _ w0 _ Hi0); by rewrite settled_owns, one_refl by done|]. intros _ w1 [Hi1 _].
  unfold free_handle. rewrite (proj2 (Z.eqb_neq _ _) (proj1 Hset)). apply wp_same_inv, release_wp.
  eapply inv_ext; [exact Hi1|]. intros r. rewrite settled_owns by done. unfold nothing. lia.
Qed.

Lemma inv_nothing w (L : Resource → nat) : inv w L → inv w (λ r, L r + nothing r).
Proof. intros Hi. eapply inv_ext; [done|]. intros r. unfold nothing. lia. Qed.
Lemma nothing_inv w (L : Resource → nat) : inv w (λ r, L r + nothing r) → inv w L.
Proof. intros Hi. eapply inv_ext; [done|]. intros r. unfold nothing. lia. Qed.

Definition throws_in_callback (w : Mercury) (e : error) (_ : Mercury) : Prop :=
  e = thrown_in_callback ∧ throwing_handler w.

Lemma throwing_handler_rpcs w w' :
  mi_rpcs_by_name (impl w') = mi_rpcs_by_name (impl w) → throwing_handler w' → throwing_handler w.
Proof. unfold throwing_handler, throws_error. by intros ->. Qed.

(** The handler of a request that is complete. *)
Lemma run_settled_wp s w w0 entry :
  inv w (server_owns s) → settled s → mi_rpcs_by_name (impl w) = mi_rpcs_by_name (impl w0) →
  mi_rpcs_by_name (impl w) !! ss_rpc s = Some entry → is_Some (re_handler entry) →
  wp (throws_in_callback w0) (run_server_handler s) (λ _ w', inv w' nothing) w.
Proof.
  intros Hi Hs Hrpc He [handler Hh]. eapply wp_catchless; [by eapply run_server_handler_wp|].
  intros e w' [-> Ht]. split; [done|]. by eapply throwing_handler_rpcs.
Qed.

Lemma bulk_pull_cb_wp server ret data w :
  inv w nothing → is_Some (pulling (in_flight w) !! server) →
  wp (throws_in_callback w) (bulk_pull_cb server ret data) (λ _ w', inv w' nothing) w.
Proof.
  intros Hi [s Hs]. unfold bulk_pull_cb, ask_flight. apply wp_bind. unfold wp at 1. cbv beta. rewrite Hs.
  destruct (inv_pulling _ _ Hi server s Hs) as (_ & Hh & (entry & He) & Hlb & Hil).
  eapply wp_seq; [apply (unflight_wp _ s w Hi); try done; [|apply delete_subseteq]|].
  { intros r. unfold flight_owns. cbn. rewrite (msum_delete server_owns _ _ _ _ Hs). lia. }
  intros _ w0 [Hi0 Himpl0]. cbv zeta. apply inv_nothing in Hi0.
  assert (∀ r, r = RInput (ss_handle s) ∨ r = RBulk (ss_local_bulk s) → 1 ≤ server_owns s r) as Hown.
  { intros r [->| ->]; unfold server_owns, at_most; rewrite ?Hil, ?(proj2 (Z.eqb_neq _ _) Hlb), one_refl; lia. }
  eapply wp_seq; [apply (uses_wp _ w0 _ Hi0); pose proof (Hown (RInput (ss_handle s)) ltac:(auto)); lia|]. intros _ w0' [Hi0' Hs0'].
  eapply wp_seq; [apply (uses_wp _ w0' _ Hi0'); pose proof (Hown (RBulk (ss_local_bulk s)) ltac:(auto)); lia|]. intros _ w1 [Hi1 Hs1'].
  assert (mi_rpcs_by_name (impl w1) = mi_rpcs_by_name (impl w)) as Himpl
    by (by rewrite (same_rpcs _ _ Hs1'), (same_rpcs _ _ Hs0'), Himpl0).
  case_ret ret.
  - eapply (wp_seq _ _ _ _ (λ _ w', inv w' (λ r, server_owns s r + nothing r) ∧ same w1 w')).
    { unfold on_bulk_transfer. eapply wp_seq; [exact (mbump_wp _ _ _ _ Hi1)|]. intros _ w2 [Hi2 Hs2]. eapply wp_mono; [exact (mbump_wp _ _ _ _ Hi2)|]. intros _ w3 [Hi3 Hs3].
      exact (conj Hi3 (transitivity Hs2 Hs3)). }
    intros _ w2 [Hi2 Hs2]. eapply wp_seq; [exact (cleanup_server_bulk_wp (set_ss_request _ s) w2 nothing Hi2 Hh)|].
    intros s' w3 (Hi3 & Hs3 & Hset & Hrpc). cbn in Hrpc.
    assert (mi_rpcs_by_name (impl w3) = mi_rpcs_by_name (impl w)) as Hn
      by (by rewrite (same_rpcs _ _ Hs3), (same_rpcs _ _ Hs2), Himpl).
    assert (mi_rpcs_by_name (impl w3) !! ss_rpc s' = Some entry) as He3 by (by rewrite Hn, Hrpc).
    eapply wp_seq; [eapply rpc_entry_wp; [exact Hi3|by exists entry]|]. intros entry' w4 [-> He4].
    assert (entry' = entry) as -> by congruence. destruct (re_handler entry) as [handler|] eqn:Hhd.
    + apply nothing_inv in Hi3. eapply run_settled_wp; [done|done|done|done|by rewrite Hhd].
    + apply wp_never. by apply respond_server_wp.
  - eapply wp_seq; [exact (mbump_wp _ _ _ _ Hi1)|]. intros _ w2 [Hi2 _].
    eapply wp_seq; [exact (mbump_wp _ _ _ _ Hi2)|]. intros _ w3 [Hi3 _].
    eapply wp_seq; [exact (cleanup_server_bulk_wp (set_ss_reply [] (-1) (set_ss_request [] (set_ss_request _ s))) w3 nothing Hi3 Hh)|].
    intros s' w4 (Hi4 & _ & Hset & _). by apply wp_never, respond_server_wp.
Qed.

Lemma reject_bulk_wp s w :
  inv w (λ r, server_owns s r + nothing r) → ss_handle s ≠ HG_NULL → wp never (reject_bulk s) (λ _ w', inv w' nothing) w.
Proof.
  intros Hi Hh. unfold reject_bulk. eapply wp_seq; [exact (mbump_wp _ _ _ _ Hi)|]. intros _ w2 [Hi2 _].
  eapply wp_seq; [exact (mbump_wp _ _ _ _ Hi2)|]. intros _ w3 [Hi3 _].
  eapply wp_seq; [exact (cleanup_server_bulk_wp s w3 nothing Hi3 Hh)|]. intros s' w4 (Hi4 & _ & Hset & _).
  eapply (wp_seq _ _ _ _ (λ _ w', inv w' nothing)); [by apply respond_server_wp|done].
Qed.

Lemma start_bulk_pull_wp s w :
  inv w (server_owns s) → ss_handle s ≠ HG_NULL → ss_local_bulk s = HG_NULL → ss_input_loaded s = true → registered (impl w) (ss_rpc s) →
  wp never (start_bulk_pull s) (λ _ w', inv w' nothing) w.
Proof.
  intros Hi Hh Hb Hil Hr. apply inv_nothing in Hi. unfold start_bulk_pull. destruct (_ || _); [by apply reject_bulk_wp|].
  eapply wp_seq; [exact (hg_wp _ _ _ Hi)|]. intros [ret bulk] w1 (Ha & Hi1 & Hs1 & Hl). cbv beta iota.
  case_ret ret; [|by apply reject_bulk_wp]. subst ret.
  destruct (bulk_create_fresh _ _ _ _ (eq_sym Ha)) as [Hne Hfr].
  eapply wp_seq; [apply (acquire_wp _ _ _ Hi1)|]; [by rewrite Hl|done|done|]. intros _ w2 [Hi2 Hs2].
  set (s' := set_ss_local_bulk bulk _).
  assert (inv w2 (λ r, server_owns s' r + nothing r)) as Hi2'.
  { eapply inv_ext; [exact Hi2|]. intros r. unfold server_owns, at_most. cbn. rewrite Hb, (proj2 (Z.eqb_neq bulk _) Hne).
    cbn. lia. }
  assert (∀ r, r = RHandle (ss_handle s) ∨ r = RInput (ss_handle s) ∨ r = RBulk bulk → r ∈ ledger w2) as Hown.
  { intros r Hrs. apply (inv_holds _ _ r Hi2'). unfold server_owns, at_most. cbn. rewrite Hil, (proj2 (Z.eqb_neq bulk _) Hne), (proj2 (Z.eqb_neq _ _) Hh).
    destruct Hrs as [->|[->| ->]]; rewrite one_refl; lia. }
  do 3 (eapply wp_seq; [apply uses_held_wp, Hown; auto|]; intros _ ? ->).
  eapply wp_seq; [exact (hg_wp _ _ _ Hi2')|]. intros ret w3 (_ & Hi3' & Hs3 & _).
  case_ret ret; [|by apply reject_bulk_wp].
  eapply wp_seq; [exact (next_id_wp _ _ Hi3')|]. intros k w4 (-> & Hi4 & Hf & Himpl & _ & Hn).
  assert (pulling (in_flight w4) !! fresh w3 = None) as Hk.
  { rewrite Hf. destruct (pulling (in_flight w3) !! fresh w3) as [x|] eqn:Hx; [|done].
    destruct (inv_pulling _ _ Hi3' _ _ Hx). lia. }
  eapply wp_seq; [eapply (in_flight_wp _ w4 _ nothing Hi4); try apply Hi4|by intros _ w' []]; cbn.
  - intros r. unfold flight_owns. cbn. rewrite msum_new by done. lia.
  - apply map_Forall_insert_2; [|apply Hi4]. split_and!; [lia|done| |done|done].
    unfold registered. rewrite Himpl, (same_rpcs _ _ Hs3), (same_rpcs _ _ Hs2), (same_rpcs _ _ Hs1). done.
Qed.

Lemma handle_rpc_wp h w :
  inv w (one (RHandle h)) → wp (throws_in_callback w) (handle_rpc h) (λ _ w', inv w' nothing) w.
Proof.
  intros Hi. assert (h ≠ HG_NULL) as Hh.
  { apply (inv_valid _ _ Hi (RHandle h)), (inv_holds _ _ _ Hi). by rewrite one_refl. }
  assert (∀ ret w', inv w' (one (RHandle h)) → wp (throws_in_callback w) (on_rpc_error;; HG_Destroy h;; mret ret : Mercury_ hg_return_t)
    (λ _ w', inv w' nothing) w') as Hdestroy.
  { intros ret w' Hi'. eapply wp_seq; [exact (mbump_wp _ _ _ _ Hi')|]. intros _ w1 [Hi1 _]. apply inv_nothing in Hi1.
    eapply wp_seq; [exact (release_wp _ _ _ Hi1)|]. by intros _ w2 [Hi2 _]. }
  unfold handle_rpc. eapply wp_seq; [exact (mbump_wp _ _ _ _ Hi)|]. intros _ w1 [Hi1 Hs1].
  eapply wp_seq; [apply (uses_wp _ w1 _ Hi1); by rewrite one_refl|]. intros _ w2 [Hi2 Hs2].
  eapply wp_seq; [exact (hg_wp _ _ _ Hi2)|]. intros info w3 (_ & Hi3 & Hs3 & _). destruct info as [id|]; [|by apply Hdestroy].
  pose proof (inv_registry _ _ Hi3) as [Hreg _]. unfold ask_impl. apply wp_bind. unfold wp at 1.
  destruct (find_rpc_by_id id (impl w3)) as [name|] eqn:Hf.
  2: { apply wp_bind, wp_ret. by apply Hdestroy. }
  assert (registered (impl w3) name) as [entry He].
  { unfold find_rpc_by_id in Hf. destruct (List.find _ _) as [[id' n]|] eqn:E; [|done]. cbn in Hf. simplify_eq.
    apply List.find_some in E as [Hin _]. rewrite Forall_forall in Hreg. apply (Hreg (id', name)). by apply list_elem_of_In. }
  apply wp_bind. eapply wp_seq; [eapply rpc_entry_wp; [exact Hi3|by exists entry]|]. intros e w4 [-> He4].
  assert (e = entry) as -> by congruence. apply wp_ret. destruct (re_handler entry) as [handler|] eqn:Hhd; [|by apply Hdestroy].
  eapply wp_seq; [exact (hg_wp _ _ _ Hi3)|]. intros [ret input] w4 (_ & Hi4 & Hs4 & _). cbv beta iota.
  case_ret ret; [|by apply Hdestroy].
  eapply wp_seq; [apply (acquire_wp (RInput h) w4 _ Hi4)|]; [|done|done|].
  { rewrite held_in, <- (inv_balance _ _ Hi4). pose proof (owned_input _ _ h Hi4). pose proof (inv_once _ _ Hi4 (RHandle h)) as Ho.
    rewrite <- (inv_balance _ _ Hi4), one_refl in Ho. rewrite lost_decoded by done. unfold one. rewrite decide_False by done. lia. }
  intros _ w5 [Hi5 Hs5]. cbv zeta.
  assert (mi_rpcs_by_name (impl w5) = mi_rpcs_by_name (impl w)) as Hn5
    by (by rewrite (same_rpcs _ _ Hs5), (same_rpcs _ _ Hs4), (same_rpcs _ _ Hs3), (same_rpcs _ _ Hs2), (same_rpcs _ _ Hs1)).
  assert (mi_rpcs_by_name (impl w5) !! name = Some entry) as He5 by (by rewrite (same_rpcs _ _ Hs5), (same_rpcs _ _ Hs4)).
  set (s := mkServerRpcState h name input true HG_NULL [] [] 0).
  assert (inv w5 (server_owns s)) as Hi5'.
  { eapply inv_ext; [exact Hi5|]. intros r. unfold server_owns, at_most. cbn. rewrite (proj2 (Z.eqb_neq h _) Hh). lia. }
  destruct (negb _).
  - apply inv_nothing in Hi5'.
    eapply wp_seq; [exact (cleanup_server_bulk_wp (set_ss_request (bytes_of (hq_eager input)) s) w5 nothing Hi5' Hh)|].
    intros s' w6 (Hi6 & Hs6 & Hset & Hrpc). apply nothing_inv in Hi6. apply wp_bind.
    eapply wp_mono; [eapply (run_settled_wp s' w6 w entry); [done|done| | |by rewrite Hhd]|done].
    + by rewrite (same_rpcs _ _ Hs6).
    + by rewrite (same_rpcs _ _ Hs6), Hrpc.
  - apply wp_never, start_bulk_pull_wp; [done|done|done|done|by exists entry].
Qed.

Lemma dispatch_cb_wp h w :
  inv w nothing → h ≠ HG_NULL → RHandle h ∉ ledger w →
  wp (throws_in_callback w) (dispatch_cb h) (λ _ w', inv w' nothing) w.
Proof.
  intros Hi Hh Hn. unfold dispatch_cb. eapply wp_seq; [by apply (acquire_wp _ _ _ Hi)|]. intros _ w1 [Hi1 Hs1].
  assert (∀ ret w', inv w' (λ r, one (RHandle h) r + nothing r) →
    wp (throws_in_callback w) (HG_Destroy h;; mret ret : Mercury_ hg_return_t) (λ _ w', inv w' nothing) w') as Hdestroy.
  { intros ret w' Hi'. eapply wp_seq; [exact (release_wp _ _ _ Hi')|]. by intros _ w2 [Hi2 _]. }
  eapply wp_seq; [exact (hg_wp _ _ _ Hi1)|]. intros info w2 (_ & Hi2 & Hs2 & _). destruct info as [id|]; [|by apply Hdestroy].
  eapply wp_seq; [exact (hg_wp _ _ _ Hi2)|]. intros data w3 (_ & Hi3 & Hs3 & _). destruct data; [|by apply Hdestroy]. cbn [negb].
  eapply wp_catchless; [apply handle_rpc_wp; by apply nothing_inv|]. intros e w' [-> Ht]. split; [done|].
  eapply throwing_handler_rpcs; [|done]. by rewrite (same_rpcs _ _ Hs3), (same_rpcs _ _ Hs2), (same_rpcs _ _ Hs1).
Qed.

(** Every callback. *)
Lemma callback_wp cb w :
  inv w nothing → callback_ok w cb = true → wp (λ e _, known_fault w e) (callback cb) (λ _ w', inv w' nothing) w.
Proof.
  intros Hi Hok. destruct cb as [raw ret addr|p ret|h|k ret data|k]; cbn [callback].
  - by apply lookup_cb_wp.
  - apply wp_never, forward_cb_wp; [done|]. by apply bool_decide_eq_true in Hok.
  - cbn in Hok. apply bool_decide_eq_true in Hok as [Hh Hn]. apply wp_bind.
    eapply wp_mono; [eapply wp_catchless; [by apply dispatch_cb_wp|]|done]. intros e w' He. by right; left.
  - eapply wp_catchless; [apply bulk_pull_cb_wp; [done|by apply bool_decide_eq_true in Hok]|]. intros e w' He. by right; left.
  - apply wp_never, respond_cb_wp; [done|]. by apply bool_decide_eq_true in Hok.
Qed.

(** ** Start and stop *)

Lemma inv_with_impl f w L :
  inv w L → mi_peers (f (impl w)) = mi_peers (impl w) → mi_orphaned_lookups (f (impl w)) = mi_orphaned_lookups (impl w) →
  mi_rpcs_by_name (f (impl w)) = mi_rpcs_by_name (impl w) → mi_rpcs_by_id (f (impl w)) = mi_rpcs_by_id (impl w) →
  mi_last_rpc (f (impl w)) = mi_last_rpc (impl w) →
  wp never (upd_impl f) (λ _ w', inv w' L ∧ impl w' = f (impl w) ∧ in_flight w' = in_flight w ∧ library w' = library w) w.
Proof.
  intros Hi Hp Ho Hr Hid Hl. pose proof (inv_registry _ _ Hi) as [Hreg Hlast].
  assert (∀ n, registered (impl w) n → registered (f (impl w)) n) as Hm by (intros n; unfold registered; by rewrite Hr).
  eapply wp_mono; [apply (registry_wp f w L Hi Hp Ho Hm)|by intros _ w' (? & ? & _ & ? & _ & ? & _)].
  - rewrite Hid. by eapply Forall_impl; [exact Hreg|auto].
  - rewrite Hl. destruct (mi_last_rpc (impl w)); auto.
Qed.

Lemma bind_all_wp l w L :
  inv w L → Forall (λ e : cstring * RpcEntry, registered (impl w) (fst e)) l →
  wp (throws L) (io_each l (λ entry, if (re_id (snd entry) =? 0)%Z then bind_rpc_to_mercury (fst entry) else mret tt))
    (λ _ w', inv w' L) w.
Proof.
  intros Hi Hl. eapply wp_mono; [apply (wp_each (throws L) _
    (λ l w', inv w' L ∧ Forall (λ e : cstring * RpcEntry, registered (impl w') (fst e)) l) l w (conj Hi Hl))|by intros _ w' []].
  intros x l' w' [Hi' Hl']. apply Forall_cons in Hl' as [Hx Hl']. destruct (re_id (snd x) =? 0)%Z; [|by split].
  eapply wp_mono; [by apply bind_rpc_wp|]. intros _ w'' [Hi'' Hm]. split; [done|]. eapply Forall_impl; [exact Hl'|auto].
Qed.

Lemma mercury_start_wp address listen w L :
  inv w L → wp (throws L) (mercury_start_ address listen) (λ _ w', inv w' L) w.
Proof.
  intros Hi. unfold mercury_start_, ask_impl. apply wp_bind. unfold wp at 1. cbn [id]. destruct (mi_running (impl w)); [done|].
  eapply wp_seq; [exact (hg_wp _ _ _ Hi)|]. intros class w1 (_ & Hi1 & _).
  eapply wp_seq; [by apply inv_with_impl|]. intros _ w2 [Hi2 _]. destruct class; [|by split]. cbn [negb].
  eapply wp_seq; [exact (hg_wp _ _ _ Hi2)|]. intros context w3 (_ & Hi3 & _).
  eapply wp_seq; [by apply inv_with_impl|]. intros _ w4 [Hi4 _]. destruct context; cbn [negb].
  2: { eapply wp_seq; [by apply inv_with_impl|]. intros _ w5 [Hi5 _]. by split. }
  eapply wp_seq; [by apply inv_with_impl|]. intros _ w5 [Hi5 _].
  eapply wp_seq; [by apply inv_with_impl|]. intros _ w6 [Hi6 _].
  apply wp_bind. unfold wp at 1. cbn [id]. apply wp_bind. eapply wp_mono; [apply bind_all_wp; [done|]|].
  { apply Forall_forall. intros [n e] Hin%elem_of_map_to_list. by exists e. }
  intros [] w7 Hi7. apply wp_never. unfold arm_progress_timer.
  eapply wp_mono; [apply (inv_with_impl (λ i, if mi_running i then set_progress_timer (Some 5%Z) i else i) w7 L Hi7)|by intros _ w' []];
    by destruct (mi_running (impl w7)).
Qed.

(** The peers leave the state at once: what they own is in the hands of the
    loop. *)
Lemma cleanup_waiter peer s : waiter_ok peer s →
  cleanup_client (set_cs_promise_done true s) =
  ((if (cs_origin_bulk s =? HG_NULL)%Z then mret tt else HG_Bulk_free (cs_origin_bulk s));; mret tt;; mret tt).
Proof. intros (_ & Hh & _ & _ & Hd). unfold cleanup_client. cbn. by rewrite Hh, Hd. Qed.

Lemma stop_waiter_wp peer e s w L :
  waiter_ok peer s → inv w (λ r, client_owns s r + L r) →
  wp never (fail_promise s e;; cleanup_client (set_cs_promise_done true s)) (λ _ w', inv w' L ∧ same w w') w.
Proof.
  intros Hs Hi. eapply wp_seq; [exact (fail_promise_wp s e w L Hi)|]. intros _ w1 [Hi1 Hs1].
  rewrite (cleanup_waiter peer) by done. destruct Hs as (_ & Hh & _ & _ & _).
  eapply wp_seq; [apply (free_field_wp RBulk (cs_origin_bulk s) w1 L)|].
  - eapply inv_ext; [exact Hi1|]. intros r. unfold client_owns. cbn. rewrite Hh. unfold at_most at 2. cbn. lia.
  - intros _ w2 [Hi2 Hs2]. split; [done|by transitivity w1].
Qed.

Lemma orphan_wp l w L :
  inv w L → orphan_ok (fresh w) (library w) l →
  wp never (upd_impl (λ i, set_orphaned_lookups (mi_orphaned_lookups i ++ [l]) i))
    (λ _ w', inv w' L ∧ in_flight w' = in_flight w ∧ fresh w' = fresh w ∧ library w' = library w) w.
Proof.
  intros [] Hl. unfold wp, upd_impl, modify. split; [|done]. split; cbn; try done. apply Forall_app; split; [done|by constructor].
Qed.

(** What the loop over the peers leaves alone. *)
Definition rest (w : Mercury) : InFlight * nat * Library := (in_flight w, fresh w, library w).
Lemma same_rest w w' : same w w' → rest w' = rest w.
Proof. unfold rest. by intros (_ & -> & -> & ->). Qed.

Lemma clear_peer_wp peer p w L :
  peer_ok (fresh w) (library w) peer p → inv w (λ r, peer_owns p r + L r) →
  wp never (clear_peer p) (λ _ w', inv w' L ∧ rest w' = rest w) w.
Proof.
  intros (_ & _ & _ & Hl) Hi. unfold clear_peer.
  eapply (wp_seq _ _ _ _ (λ _ w', inv w' (λ r, pools_own (ps_pools p) r + (at_most (ps_addr p) RAddr r + L r)) ∧ rest w' = rest w)).
  - destruct (ps_pending_lookup p) as [l|] eqn:Hp.
    2: { apply wp_ret. split; [|done]. eapply inv_ext; [exact Hi|]. intros r. unfold peer_owns. rewrite Hp. lia. }
    destruct Hl as (Hlk & _ & _ & Hw).
    set (K := λ r, pools_own (ps_pools p) r + (at_most (ps_addr p) RAddr r + L r)).
    eapply (wp_seq _ _ _ _ (λ _ w', inv w' K ∧ rest w' = rest w)).
    + assert (inv w (λ r, total client_owns (ls_waiters l) r + K r)) as Hi'
        by (eapply inv_ext; [exact Hi|]; intros r; unfold peer_owns, K, lookup_owns; rewrite Hp; unfold lookup_owns; lia).
      eapply wp_mono; [apply (wp_each never _ (λ l w', inv w' (λ r, total client_owns l r + K r) ∧
        Forall (waiter_ok peer) l ∧ rest w' = rest w) (ls_waiters l) w (conj Hi' (conj Hw eq_refl)))|by intros _ w' (? & _ & ?)].
      intros s l' w' (Hi2 & Hw2 & Hf2). apply Forall_cons in Hw2 as [Hs Hw2].
      eapply wp_mono; [apply (stop_waiter_wp peer _ s w' (λ r, total client_owns l' r + K r) Hs)|].
      * eapply inv_ext; [exact Hi2|]. intros r. cbv beta. rewrite total_cons. lia.
      * intros _ w2 [Hi3 Hs3]. split_and!; [done|done|]. by rewrite (same_rest _ _ Hs3).
    + intros _ w1 [Hi1 Hf1]. injection Hf1 as Hf1 Hn1 Hb1.
      eapply wp_mono; [apply (orphan_wp _ w1 K Hi1); rewrite Hn1, Hb1; exact (conj Hlk (conj eq_refl eq_refl))|].
      intros _ w2 (Hi2 & Hf2 & Hn2 & Hb2). split; [done|]. unfold rest. congruence.
  - intros _ w1 [Hi1 Hf1]. eapply wp_seq; [exact (destroy_pools_wp _ _ _ Hi1)|]. intros _ w2 [Hi2 Hs2].
    eapply wp_mono; [exact (free_field_wp RAddr _ _ _ Hi2)|]. intros _ w3 [Hi3 Hs3]. split; [done|].
    by rewrite (same_rest _ _ Hs3), (same_rest _ _ Hs2).
Qed.

Lemma commutes_clear_peer n b peer p : peer_ok n b peer p → commutes (set_mi_peers ∅) (clear_peer p).
Proof.
  intros (_ & _ & _ & Hl). unfold clear_peer. apply commutes_bind; [|intros _; apply commutes_bind; auto with commutes].
  destruct (ps_pending_lookup p) as [l|]; [|apply commutes_ret]. destruct Hl as (_ & _ & _ & Hw).
  apply commutes_bind; [|intros _; by apply commutes_impl]. apply commutes_each. intros s Hs.
  rewrite Forall_forall in Hw. apply commutes_bind; [|intros _; rewrite (cleanup_waiter peer) by auto].
  - unfold fail_promise. destruct (cs_promise_done s); [apply commutes_ret|apply commutes_set_promise].
  - apply commutes_bind; [|intros _; apply commutes_bind; [|intros _]; apply commutes_ret].
    destruct (Z.eqb _ _); [apply commutes_ret|apply commutes_release].
Qed.

Lemma clear_all_peers_wp w L :
  inv w L → wp never clear_all_peers (λ _ w', inv w' L ∧ mi_peers (impl w') = ∅ ∧ rest w' = rest w) w.
Proof.
  intros Hi. unfold clear_all_peers, ask_impl. apply wp_bind. unfold wp at 1. cbn [id].
  set (l := map_to_list (mi_peers (impl w))).
  assert (Forall (λ e : cstring * PeerState, peer_ok (fresh w) (library w) (fst e) (snd e)) l) as Hl.
  { apply Forall_forall. intros [k p] Hin%elem_of_map_to_list. by apply (inv_peers _ _ Hi). }
  assert (inv (with_impl (set_mi_peers ∅) w) (λ r, total (λ e : cstring * PeerState, peer_owns (snd e)) l r + L r)) as Hi0.
  { refine (proj1 (peers_wp (λ _, ∅) w L _ Hi _ _)); [apply map_Forall_empty|]. intros r. rewrite msum_empty, msum_list.
    unfold l, total. change (snd <$> map_to_list (mi_peers (impl w))) with (map snd (map_to_list (mi_peers (impl w)))).
    rewrite map_map. lia. }
  eapply (wp_seq _ _ _ _ (λ _ w', (λ _ w', inv w' L ∧ rest w' = rest w) tt (with_impl (set_mi_peers ∅) w')));
    [|by intros _ w' [Hi' Hf']].
  apply (commutes_wp (set_mi_peers ∅) _ (λ _ w', inv w' L ∧ rest w' = rest w)).
  { apply commutes_each. intros e He. rewrite Forall_forall in Hl. eapply commutes_clear_peer. by apply Hl. }
  eapply wp_mono; [apply (wp_each never _ (λ l w', inv w' (λ r, total (λ e : cstring * PeerState, peer_owns (snd e)) l r + L r) ∧
    Forall (λ e : cstring * PeerState, peer_ok (fresh w) (library w) (fst e) (snd e)) l ∧ rest w' = rest w) l _ (conj Hi0 (conj Hl eq_refl)))
    |intros _ w' (Hi' & _ & Hf'); exact (conj Hi' Hf')].
  intros e l' w' (Hi' & Hl' & Hf'). apply Forall_cons in Hl' as [He Hl'].
  eapply wp_mono; [eapply (clear_peer_wp (fst e) _ w' (λ r, total (λ e : cstring * PeerState, peer_owns (snd e)) l' r + L r))|].
  - by injection Hf' as _ -> ->.
  - eapply inv_ext; [exact Hi'|]. intros r. cbv beta. rewrite total_cons. lia.
  - intros _ w2 [Hi2 Hf2]. split_and!; [done|done|by rewrite Hf2].
Qed.

(** Between operations the shard runs iff Mercury is initialized. *)
Definition alive (w : Mercury) : Prop := ∃ b, life (impl w) = (b, b, b).

Lemma alive_steady w w' : steady w w' → alive w → alive w'.
Proof. intros (_ & Hl & _) [b Hb]. exists b. by rewrite Hl. Qed.

Lemma alive_wp {A} (m : Mercury_ A) w :
  respects steady m → alive w → wp (λ _ w', alive w') m (λ _ w', alive w') w.
Proof.
  intros Hm Ha. specialize (Hm w). unfold wp. destruct (m w) as [[a|e] w']; by eapply alive_steady.
Qed.

Lemma start_alive address listen w :
  alive w → wp (λ _ w', alive w') (mercury_start_ address listen) (λ _ w', alive w') w.
Proof.
  intros [b Hb]. unfold mercury_start_. apply wp_bind. unfold wp at 1. unfold ask_impl at 1. cbn [id].
  unfold life in Hb. simplify_eq. destruct (mi_running (impl w)) eqn:Hr; [exists true; unfold life; congruence|].
  apply wp_bind. unfold wp at 1, hg. cbv beta iota. apply wp_bind. unfold wp at 1, upd_impl, modify. cbv beta iota.
  destruct (HG_Init (clock w) address listen); cbn [negb].
  2: { exists false. unfold life. cbn. congruence. }
  apply wp_bind. unfold wp at 1, hg. cbv beta iota. apply wp_bind. unfold wp at 1, upd_impl, modify. cbv beta iota.
  destruct (HG_Context_create _); cbn [negb].
  2: { apply wp_bind. unfold wp, upd_impl, modify, fail. cbn. exists false. unfold life. cbn. congruence. }
  apply wp_bind. unfold wp at 1, upd_impl, modify. cbv beta iota. apply wp_bind. unfold wp at 1, upd_impl, modify. cbv beta iota.
  apply alive_wp; [|by exists true]. unfold arm_progress_timer. respects.
  apply stable_impl. intros i. by destruct (mi_running i).
Qed.

Lemma mercury_stop_wp w L :
  inv w L → alive w →
  wp never mercury_stop_ (λ _ w', inv w' L ∧ alive w' ∧ in_flight w' = in_flight w ∧
    library w' = library w ∧ (mi_running (impl w) = true → mi_peers (impl w') = ∅ ∧ mi_running (impl w') = false)) w.
Proof.
  intros Hi [b Hb]. unfold mercury_stop_. apply wp_bind. unfold wp at 1, ask_impl. cbn [id].
  unfold life in Hb. injection Hb as Hr Hc Hx. rewrite Hc, Hr.
  destruct b; cbn [negb]; [|apply wp_ret; split_and!; [done|by exists false; unfold life; congruence|done..]].
  eapply wp_seq; [exact (inv_with_impl (set_running false) w L Hi eq_refl eq_refl eq_refl eq_refl eq_refl)|].
  intros _ w1 (Hi1 & He1 & Hf1 & Hb1).
  eapply wp_seq; [exact (inv_with_impl (set_progress_timer None) w1 L Hi1 eq_refl eq_refl eq_refl eq_refl eq_refl)|].
  intros _ w2 (Hi2 & He2 & Hf2 & Hb2).
  eapply wp_seq; [exact (wp_respects _ _ _ _ _ (stable_clear_all_peers steady) (clear_all_peers_wp w2 L Hi2))|].
  intros _ w3 ((Hi3 & Hp3 & Hf3) & _ & Hl3 & _). injection Hf3 as Hf3 _ Hb3.
  match goal with |- wp never _ ?Q w3 => change (wp never (upd_impl (λ i, set_rpcs_by_name (set_re_id 0 <$> mi_rpcs_by_name i)
    (set_last_rpc None (set_rpcs_by_id [] (set_hg_class false (set_hg_context false i)))))) Q w3) end.
  eapply wp_mono; [apply (registry_wp _ w3 L Hi3); try done|].
  - intros n [e He]. unfold registered. cbn. rewrite lookup_fmap, He. by eexists.
  - intros _ w4 (Hi4 & He4 & _ & Hf4 & _ & Hb4 & _). rewrite He2, He1 in Hl3. unfold life in Hl3. cbn in Hl3. injection Hl3 as Hr3 _ _.
    split_and!; [done| |by rewrite Hf4, Hf3, Hf2, Hf1|by rewrite Hb4, Hb3, Hb2, Hb1|].
    + exists false. unfold life. rewrite He4. cbn. by rewrite Hr3.
    + intros _. rewrite He4. cbn. by rewrite Hp3, Hr3.
Qed.

(** ** Steps of the shard *)

Inductive Op :=
  | OpStart (address : cstring) (listen : bool)
  | OpStop
  | OpRegister (name : cstring) (handler : RpcHandler)
  | OpForward (peer rpc : cstring) (payload : bytes)
  | OpTimeout (promise : nat)
  | OpHandlerDone (server : nat) (fut : result bytes)
  | OpCallback (cb : Callback)
  | OpTick.

(** A timer fires when it is armed, a handler finishes when it runs, a
    callback is run by [HG_Trigger]; that of a lookup may also come while the
    shard is stopped.  [OpTick]: a library call without consequences. *)
Definition is_lookup (cb : Callback) : bool := match cb with LookupDone _ _ _ => true | _ => false end.
Definition enabled (w : Mercury) (op : Op) : Prop :=
  match op with
  | OpTimeout p => ∃ s, forwarding (in_flight w) !! p = Some s ∧ cs_timer s = true
  | OpHandlerDone k fut => is_Some (handling (in_flight w) !! k)
  | OpCallback cb => (mi_running (impl w) && mi_hg_context (impl w) || is_lookup cb) = true ∧ callback_ok w cb = true
  | _ => True
  end.

Definition run (op : Op) : Mercury_ unit :=
  match op with
  | OpStart address listen => mercury_start_ address listen
  | OpStop => mercury_stop_
  | OpRegister name handler => register_handler name (Some handler)
  | OpForward peer rpc payload => forward peer rpc payload;; mret tt
  | OpTimeout p => timed_out p
  | OpHandlerDone k fut => handler_done k fut
  | OpCallback cb => callback cb
  | OpTick => hg (λ _ _, tt)
  end.

(** The operation ended, with or without an exception for its caller. *)
Definition survives (r : result unit) : Prop := match r with Ok _ => True | Err e => defined e end.
Inductive step (w w' : Mercury) : Prop :=
  | step_op op r : enabled w op → run op w = (r, w') → survives r → step w w'.
Definition reachable (w : Mercury) : Prop := rtc step Mercury_init w.

(** What an operation can end in. *)
Definition outcome (w : Mercury) (e : error) (w' : Mercury) : Prop :=
  (inv w' nothing ∧ (defined e ∨ throws_error w e)) ∨ known_fault w e.

Lemma run_wp op w :
  inv w nothing → alive w → enabled w op → wp (outcome w) (run op) (λ _ w', inv w' nothing) w.
Proof.
  intros Hi Ha He. destruct op as [address listen| |name handler|peer rpc payload|p|k fut|cb|]; cbn [run enabled] in *.
  - eapply wp_catchless; [by apply mercury_start_wp|]. intros e w' [Hd Hi']. left. auto.
  - apply wp_never. eapply wp_mono; [by apply mercury_stop_wp|]. by intros _ w' [].
  - eapply wp_catchless; [eapply wp_mono; [by apply register_handler_wp|by intros _ w' []]|]. intros e w' [Hd Hi']. left. auto.
  - apply wp_bind. eapply wp_mono; [eapply wp_catchless; [by apply forward_wp|]|done].
    intros e w' Ht. by left.
  - destruct He as (s & Hs & _). apply wp_never, timed_out_wp; [done|by exists s].
  - by apply wp_never, handler_done_wp.
  - destruct He as [_ Hok]. eapply wp_catchless; [by apply callback_wp|]. intros e w' Hf. by right.
  - apply wp_never. eapply wp_mono; [exact (hg_wp _ _ _ Hi)|]. by intros _ w' (_ & ? & _).
Qed.

Lemma run_alive op w : inv w nothing → alive w → wp (λ _ w', alive w') (run op) (λ _ w', alive w') w.
Proof.
  intros Hi Ha. destruct op; cbn [run]; try (apply alive_wp; [|done]; by auto with stable nocore typeclass_instances).
  - by apply start_alive.
  - apply wp_never. eapply wp_mono; [by apply mercury_stop_wp|]. by intros _ w' (_ & ? & _).
  - apply alive_wp; [|done]. respects.
Qed.

Lemma known_fault_undefined w e : known_fault w e → ¬ defined e.
Proof. intros [[-> _]|[[-> _]|[-> _]]] []. Qed.

Lemma step_inv w w' : step w w' → inv w nothing ∧ alive w → inv w' nothing ∧ alive w'.
Proof.
  intros [op r Hen Hrun Hr] [Hi Ha]. pose proof (run_wp op w Hi Ha Hen) as H1. pose proof (run_alive op w Hi Ha) as H2.
  unfold wp in *. rewrite Hrun in *. destruct r as [[]|e]; [done|]. split; [|done].
  destruct H1 as [[? _]|Hf]; [done|]. by apply known_fault_undefined in Hf.
Qed.

Lemma inv_init : inv Mercury_init nothing ∧ alive Mercury_init.
Proof.
  split; [|by exists false]. split; cbn; try done; try apply map_Forall_empty; try by constructor.
  - intros r Hr. by apply elem_of_nil in Hr.
  - intros p [v Hv]. by rewrite lookup_empty in Hv.
Qed.

Lemma reachable_inv w : reachable w → inv w nothing ∧ alive w.
Proof.
  intros Hr. refine (rtc_ind_r (λ w, inv w nothing ∧ alive w) Mercury_init inv_init _ w Hr).
  intros x y _ Hs IH. by eapply step_inv.
Qed.

Lemma step_keeps w w' : step w w' → keeps w w'.
Proof.
  intros [op r _ Hrun _]. assert (respects keeps (run op)) as Hk; [|specialize (Hk w); by rewrite Hrun in Hk].
  destruct op; cbn [run]; [apply keeps_start|apply keeps_stop|apply respects_keeps; respects..].
Qed.

(** ** Who waits for an answer *)

Lemma total_pos {A} (f : A → Resource → nat) l r : 0 < total f l r → ∃ x, x ∈ l ∧ 0 < f x r.
Proof.
  induction l as [|x l IH]; [unfold total; cbn; lia|]. rewrite total_cons. intros Hp. destruct (decide (f x r = 0)) as [H0|H0].
  - destruct IH as (y & Hy & Hf); [lia|]. exists y. split; [by right|done].
  - exists x. split; [by left|lia].
Qed.
Lemma msum_pos {K A} `{Countable K} (f : A → Resource → nat) (m : gmap K A) r :
  0 < msum f m r → ∃ k x, m !! k = Some x ∧ 0 < f x r.
Proof.
  rewrite msum_list. intros (x & Hx & Hf)%total_pos. apply list_elem_of_fmap in Hx as ([k y] & -> & Hin).
  apply elem_of_map_to_list in Hin. by exists k, y.
Qed.

Lemma client_owns_promise s p : 0 < client_owns s (RPromise p) → cs_promise s = p ∧ cs_promise_done s = false.
Proof.
  unfold client_owns. rewrite !at_most_other by done. destruct (cs_promise_done s); [lia|]. unfold one.
  destruct (decide (RPromise (cs_promise s) = RPromise p)) as [[= ->]|]; [done|lia].
Qed.
Lemma server_owns_promise s p : server_owns s (RPromise p) = 0.
Proof. unfold server_owns. rewrite !at_most_other by done. by destruct (ss_input_loaded s). Qed.

Definition waits_for_address (w : Mercury) (p : nat) : Prop :=
  ∃ peer ps l s, mi_peers (impl w) !! peer = Some ps ∧ ps_pending_lookup ps = Some l ∧ s ∈ ls_waiters l ∧ cs_promise s = p.
Definition waits_for_reply (w : Mercury) (p : nat) : Prop :=
  ∃ s, forwarding (in_flight w) !! p = Some s ∧ cs_promise_done s = false ∧ cs_timer s = true.

(** A promise on the ledger has someone who will fulfil it. *)
Lemma promise_owner w p :
  inv w nothing → RPromise p ∈ ledger w → waits_for_address w p ∨ waits_for_reply w p.
Proof.
  intros Hi Hin. apply held_in in Hin. rewrite <- (inv_balance _ _ Hi) in Hin. unfold owned, flight_owns, nothing in Hin.
  rewrite !(msum_none server_owns), (msum_none call_owns), lost_promise in Hin by (intros; apply server_owns_promise).
  destruct (decide (msum client_owns (forwarding (in_flight w)) (RPromise p) = 0)) as [H0|H0].
  - left. destruct (msum_pos peer_owns (mi_peers (impl w)) (RPromise p)) as (peer & ps & Hps & Ho); [lia|].
    unfold peer_owns, pools_own in Ho. rewrite at_most_other in Ho by done.
    rewrite total_none in Ho by (intros; apply total_none; intros; unfold one; by rewrite decide_False).
    destruct (ps_pending_lookup ps) as [l|] eqn:Hl; [|lia]. destruct (total_pos _ _ _ Ho) as (s & Hs & Hos).
    apply client_owns_promise in Hos as [Hp _]. by exists peer, ps, l, s.
  - right. destruct (msum_pos client_owns (forwarding (in_flight w)) (RPromise p)) as (k & s & Hs & Hos); [lia|].
    apply client_owns_promise in Hos as [Hp Hd]. destruct (inv_forwarding _ _ Hi k s Hs) as (_ & Hk & _ & _ & _ & Ht).
    rewrite Hd in Ht. exists s. assert (k = p) as -> by congruence. done.
Qed.

(** Who waits holds the promise. *)
Lemma reply_held w p : inv w nothing → waits_for_reply w p → RPromise p ∈ ledger w.
Proof.
  intros Hi (s & Hs & Hd & _). destruct (inv_forwarding _ _ Hi p s Hs) as (_ & Hp & _). apply held_in.
  rewrite <- (inv_balance _ _ Hi). unfold owned, flight_owns. rewrite (msum_delete client_owns _ _ _ _ Hs).
  unfold client_owns at 1. rewrite Hd, Hp, one_refl. lia.
Qed.

Lemma address_held w p : inv w nothing → waits_for_address w p → forwarding (in_flight w) !! p = None ∧ RPromise p ∈ ledger w.
Proof.
  intros Hi (peer & ps & l & s & Hps & Hl & Hs & Hp). destruct (inv_peers _ _ Hi peer ps Hps) as (_ & _ & _ & Hpl).
  rewrite Hl in Hpl. destruct Hpl as (_ & _ & _ & Hw). rewrite Forall_forall in Hw. destruct (Hw s Hs) as (_ & _ & Hd & _).
  assert (1 ≤ msum peer_owns (mi_peers (impl w)) (RPromise p)) as Ho.
  { rewrite (msum_delete peer_owns _ _ _ _ Hps). unfold peer_owns at 1. rewrite Hl. unfold lookup_owns.
    apply list_elem_of_split in Hs as (l1 & l2 & ->). rewrite total_app, total_cons. unfold client_owns at 2.
    rewrite Hd, Hp, one_refl. lia. }
  assert (RPromise p ∈ ledger w) as Hin by (apply held_in; rewrite <- (inv_balance _ _ Hi); unfold owned; lia).
  split; [|done]. destruct (forwarding (in_flight w) !! p) as [s'|] eqn:Hs'; [|done]. exfalso.
  destruct (inv_forwarding _ _ Hi p s' Hs') as (_ & Hp' & _ & _ & _ & Hd'). destruct (cs_promise_done s') eqn:Hdone; [done|].
  pose proof (inv_balance _ _ Hi (RPromise p)) as Hb. pose proof (inv_once _ _ Hi (RPromise p)).
  unfold owned, flight_owns in Hb. rewrite (msum_delete client_owns _ _ _ _ Hs') in Hb. unfold client_owns at 1 in Hb.
  rewrite Hdone, Hp', one_refl in Hb. lia.
Qed.

Lemma held_open w p : inv w nothing → RPromise p ∈ ledger w → promises w !! p = None.
Proof.
  intros Hi Hin. destruct (promises w !! p) as [v|] eqn:Hv; [|done]. destruct (inv_open _ _ Hi p); [by eexists|done].
Qed.

Lemma promise_owned w p : inv w nothing → owned w (RPromise p) = if decide (RPromise p ∈ ledger w) then 1 else 0.
Proof.
  intros Hi. pose proof (inv_balance _ _ Hi (RPromise p)) as Hb. rewrite lost_promise in Hb. unfold nothing in Hb.
  pose proof (inv_once _ _ Hi (RPromise p)). pose proof (held_in (ledger w) (RPromise p)) as Hh. case_decide; [|rewrite held_out in Hb by done]; lia || naive_solver lia.
Qed.

(** The answers that fail a promise. *)
Lemma timed_out_answers w p :
  inv w nothing → waits_for_reply w p → ∃ w' e, timed_out p w = (Ok tt, w') ∧ promises w' !! p = Some (Err e).
Proof.
  intros Hi Hw. pose proof (reply_held w p Hi Hw) as Hin. destruct Hw as (s & Hs & Hd & _).
  destruct (inv_forwarding _ _ Hi p s Hs) as (_ & Hp & _).
  destruct (strike_held _ _ Hin) as (k & Hk & _). unfold timed_out, ask_flight, mbind, IO_bind. cbv beta iota. rewrite Hs, Hd.
  unfold set_promise, release, mbind, IO_bind. rewrite Hp, Hk. unfold modify, set_forwarding, upd_in_flight, on_rpc_error,
    on_rpc_timeout, mbump, upd_impl, modify. eexists _, _. split; [reflexivity|]. cbn. by rewrite lookup_insert_eq.
Qed.

Lemma stop_answers w p :
  inv w nothing → alive w → mi_running (impl w) = true → waits_for_address w p →
  ∃ w' e, mercury_stop_ w = (Ok tt, w') ∧ promises w' !! p = Some (Err e).
Proof.
  intros Hi Ha Hrun Hwait. destruct (address_held w p Hi Hwait) as [Hnone Hin]. pose proof (mercury_stop_wp w nothing Hi Ha) as Hw.
  unfold wp in Hw. pose proof (keeps_stop w) as Hk. pose proof (stable_stop valueless w) as Hv.
  destruct (mercury_stop_ w) as [[[]|e] w'] eqn:Hst; [|done]. cbn [snd] in Hk, Hv.
  destruct Hw as (Hi' & _ & Hf & _ & Hp). destruct (Hp Hrun) as [Hpe _].
  destruct (Hk p) as [Hin'|[[v|e] Hs]]; [by left| | |by exists w', e]; exfalso.
  - destruct (promise_owner w' p Hi' Hin') as [(peer & ps & l & s & Hps & _)|(s & Hs & _)].
    + by rewrite Hpe, lookup_empty in Hps.
    + rewrite Hf in Hs. congruence.
  - apply Hv in Hs. by rewrite (held_open w p Hi Hin) in Hs.
Qed.

Lemma wp_any {A} (m : Mercury_ A) w : wp (λ _ _, True) m (λ _ _, True) w.
Proof. unfold wp. by destruct (m w) as [[a|e] w']. Qed.

Lemma forward_issues peer rpc payload w p w' :
  forward peer rpc payload w = (Ok (PromiseFuture p), w') → issued w' p.
Proof.
  intros Hf. assert (wp (λ _ _, True) (forward peer rpc payload)
    (λ fut w', match fut with PromiseFuture p => issued w' p | _ => True end) w) as Hw; [|unfold wp in Hw; by rewrite Hf in Hw].
  unfold forward. apply wp_bind. unfold wp at 1, ask_impl. cbn [id]. case_bool_decide.
  { unfold forward_local. apply wp_bind. eapply wp_mono; [apply wp_any|]. intros [name|] w1 _; [|done].
    apply wp_bind. eapply wp_mono; [apply wp_any|]. intros e w2 _. destruct (re_handler e); [|done].
    apply wp_bind. eapply wp_mono; [apply wp_any|]. done. }
  destruct (_ || _); [done|]. apply wp_bind. eapply wp_mono; [apply wp_any|]. intros id w1 _.
  apply wp_bind. eapply wp_mono; [apply wp_any|]. intros _ w2 _.
  apply wp_bind. eapply wp_mono; [apply wp_any|]. intros [[ret bulk] input] w3 _. cbv beta iota. case_ret ret; [|done].
  apply wp_bind. unfold wp at 1, next_id. cbv beta iota. apply wp_bind. unfold wp at 1, acquire, modify. cbv beta iota.
  match goal with |- wp _ (?m ≫= _) _ ?w4 => pose proof (stable_forward_to_peer steady _ w4 : steady w4 (snd (m w4))) as [Hk _];
    assert (issued w4 (fresh w3)) as H4 by (left; cbn; by left) end.
  apply wp_bind. unfold wp at 1. destruct (forward_to_peer _ _) as [[[]|e'] w5]; [|done]. by apply Hk.
Qed.
End safety.
