(* ===== verification/MercuryFlow.v ===== *)
(** * What flows through the Mercury shard

    MercuryRep.v counts what a shard holds; here is what its records say.
    [good] states that every client state, bulk pull, running handler and
    reply of a shard satisfies a given predicate, and that the registry has
    the ids of its names.  [safe m Ψ]: [m] keeps this, and its value satisfies
    [Ψ].  Each operation needs the predicate only of what it brings in, so
    that the network (MercuryNetwork.v) can say what a request, a payload and
    a reply are. *)

From Stdlib Require Import ZArith Lia.
From stdpp Require Import base tactics numbers option fin_maps gmap functions list.
From S2P Require Import Prelude Storage MercuryProc MercuryShard MercuryRep MercuryClient.

Local Open Scope Z_scope.

(** What stays the same in a client state until it is destroyed. *)
Record ClientCall := mkClientCall {
  cc_promise : nat;
  cc_peer : cstring;
  cc_rpc_id : Z;
  cc_request : bytes;
  cc_input : HgRequest;
  cc_origin_bulk : Z;
}.
Definition call_of (s : ClientRpcState) : ClientCall :=
  mkClientCall (cs_promise s) (cs_peer s) (cs_rpc_id s) (cs_request s) (cs_input s) (cs_origin_bulk s).

Section flow.
Context {Hg0 : Hg} (hg_id : cstring → Z).
Hypothesis register_id : ∀ n name, HG_Register_name n name = 0 ∨ HG_Register_name n name = hg_id name.

(** The RPCs that have a handler, the least id to come, and what client
    states, pulls, running handlers, replies and fulfilled promises satisfy. *)
Context (K : cstring → Prop) (next : nat) (P : ClientCall → Prop) (PP : nat → ServerRpcState → Prop)
  (PH : nat → HandlerCall → Prop) (PR : nat → ServerRpcState → Prop) (Q : nat → bytes → Prop).

Definition lookup_good (l : LookupState) : Prop := ∀ s, s ∈ ls_waiters l → P (call_of s).
Definition peer_good (p : PeerState) : Prop := ∀ l, ps_pending_lookup p = Some l → lookup_good l.
Definition entry_good (name : cstring) (e : RpcEntry) : Prop :=
  re_name e = name ∧ (re_id e = 0 ∨ re_id e = hg_id name) ∧ (K name ↔ is_Some (re_handler e)).

Record good (w : Mercury) : Prop := mkGood {
  good_peers : map_Forall (λ _, peer_good) (mi_peers (impl w));
  good_orphans : Forall lookup_good (mi_orphaned_lookups (impl w));
  good_forwarding : map_Forall (λ p s, cs_promise s = p ∧ P (call_of s)) (forwarding (in_flight w));
  good_pulling : map_Forall PP (pulling (in_flight w));
  good_handling : map_Forall PH (handling (in_flight w));
  good_responding : map_Forall PR (responding (in_flight w));
  good_promises : ∀ p r, promises w !! p = Some (Ok r) → Q p r;
  good_entries : map_Forall entry_good (mi_rpcs_by_name (impl w));
  good_handlers : ∀ name, K name → is_Some (mi_rpcs_by_name (impl w) !! name);
  good_ids : Forall (λ e, fst e = hg_id (snd e)) (mi_rpcs_by_id (impl w));
  good_fresh : (next ≤ fresh w)%nat;
}.

Definition safe {A} (m : Mercury_ A) (Ψ : A → Prop) : Prop :=
  ∀ w, good w → match m w with (Ok a, w') => good w' ∧ Ψ a | (Err _, w') => good w' end.
Abbreviation anything := (λ _, True).

(** ** Rules *)

Lemma safe_ret {A} (a : A) (Ψ : A → Prop) : Ψ a → safe (mret a) Ψ.
Proof. by intros Ha w Hg. Qed.
Lemma safe_fail {A} e (Ψ : A → Prop) : safe (fail e) Ψ.
Proof. by intros w Hg. Qed.
Lemma safe_lift {A} (r : result A) : safe (lift r) anything.
Proof. intros w Hg. unfold lift. by destruct r. Qed.
Lemma safe_bind {A B} (m : Mercury_ A) (k : A → Mercury_ B) Ψ Φ :
  safe m Ψ → (∀ a, Ψ a → safe (k a) Φ) → safe (m ≫= k) Φ.
Proof.
  intros Hm Hk w Hg. unfold mbind, IO_bind. specialize (Hm w Hg). destruct (m w) as [[a|e] w']; [|done].
  destruct Hm as [Hg' Ha]. by apply Hk.
Qed.
Lemma safe_mono {A} (m : Mercury_ A) (Ψ Φ : A → Prop) : safe m Ψ → (∀ a, Ψ a → Φ a) → safe m Φ.
Proof. intros Hm Himp w Hg. specialize (Hm w Hg). destruct (m w) as [[a|e] w']; naive_solver. Qed.
Lemma safe_any {A} (m : Mercury_ A) (Ψ : A → Prop) : safe m Ψ → safe m anything.
Proof. intros Hm. by eapply safe_mono. Qed.
Lemma safe_each {A} (body : A → Mercury_ unit) l :
  (∀ x, x ∈ l → safe (body x) anything) → safe (io_each l body) anything.
Proof.
  induction l as [|x l IH]; intros Hb; [by apply safe_ret|]. cbn. eapply safe_bind; [apply Hb; left|]. intros _ _.
  apply IH. intros y Hy. apply Hb. by right.
Qed.
(** What is read comes from a good state. *)
Lemma safe_ask {A} (f : Impl → A) : safe (ask_impl f) (λ a, ∃ w, good w ∧ a = f (impl w)).
Proof. intros w Hg. split; [done|]. by exists w. Qed.
Lemma safe_ask_flight {A} (f : InFlight → A) : safe (ask_flight f) (λ a, ∃ w, good w ∧ a = f (in_flight w)).
Proof. intros w Hg. split; [done|]. by exists w. Qed.
Lemma safe_hg {A} (f : nat → list Resource → A) : safe (hg f) (λ a, ∃ n held, a = f n held).
Proof. intros w []. split; [done|]. by eexists _, _. Qed.

Lemma safe_ledger {A} (m : Mercury_ A) :
  (∀ w, ∃ r l, m w = (r, mkMercury (impl w) (in_flight w) l (promises w) (fresh w) (clock w) (library w))) → safe m anything.
Proof. intros Hm w []. destruct (Hm w) as (r & l & ->). by destruct r. Qed.
Lemma safe_release r : safe (release r) anything.
Proof.
  apply safe_ledger. intros w. unfold release. destruct (strike r (ledger w)); [by eexists _, _|].
  eexists _, (ledger w). by destruct w.
Qed.
Lemma safe_uses r : safe (uses r) anything.
Proof. apply safe_ledger. intros w. eexists _, (ledger w). by destruct w. Qed.
Lemma safe_acquire r : safe (acquire r) anything.
Proof. apply safe_ledger. intros w. by eexists _, _. Qed.
Lemma safe_library f : safe (upd_library f) anything.
Proof. by intros w []. Qed.
Lemma safe_next_id : safe next_id (λ n, (next ≤ n)%nat).
Proof. intros w []. split; [|done]. split; try done. cbn. lia. Qed.

Lemma safe_set_promise p r : match r with Ok v => Q p v | Err _ => True end → safe (set_promise p r) anything.
Proof.
  intros Hr. eapply safe_bind; [apply safe_release|]. intros _ _ w []. split; [|done]. split; try done. cbn.
  intros q v. destruct (decide (q = p)) as [->|]; [rewrite lookup_insert_eq; intros [= ->]; done|].
  rewrite lookup_insert_ne by done. auto.
Qed.

Lemma safe_set_error p e : safe (set_promise p (Err e)) anything.
Proof. by apply safe_set_promise. Qed.

(** An assignment to the state of the shard. *)
Lemma safe_impl (f : Impl → Impl) :
  (∀ w, good w → map_Forall (λ _, peer_good) (mi_peers (f (impl w))) ∧ Forall lookup_good (mi_orphaned_lookups (f (impl w))) ∧
     map_Forall entry_good (mi_rpcs_by_name (f (impl w))) ∧
     (∀ name, K name → is_Some (mi_rpcs_by_name (f (impl w)) !! name)) ∧
     Forall (λ e, fst e = hg_id (snd e)) (mi_rpcs_by_id (f (impl w)))) →
  safe (upd_impl f) anything.
Proof. intros Hf w Hg. destruct (Hf w Hg) as (? & ? & ? & ? & ?). destruct Hg. split; [|done]. by split. Qed.

(** One that the predicates do not look at. *)
Definition unrelated (f : Impl → Impl) : Prop :=
  ∀ i, mi_peers (f i) = mi_peers i ∧ mi_orphaned_lookups (f i) = mi_orphaned_lookups i ∧
    mi_rpcs_by_name (f i) = mi_rpcs_by_name i ∧ mi_rpcs_by_id (f i) = mi_rpcs_by_id i.
Lemma safe_unrelated f : unrelated f → safe (upd_impl f) anything.
Proof. intros Hf. apply safe_impl. intros w []. by destruct (Hf (impl w)) as (-> & -> & -> & ->). Qed.

Lemma safe_mbump c n : safe (mbump c n) anything.
Proof. by apply safe_unrelated. Qed.

Lemma safe_set_peer peer p : peer_good p → safe (set_peer peer p) anything.
Proof. intros Hp. apply safe_impl. intros w []. split_and!; try done. by apply map_Forall_insert_2. Qed.
Lemma safe_erase_peer peer : safe (erase_peer peer) anything.
Proof. apply safe_impl. intros w []. split_and!; try done. by apply map_Forall_delete. Qed.

(** Takes an operation apart; what is left is about what it brings in. *)
#[local] Hint Resolve safe_fail safe_lift safe_ask safe_ask_flight safe_hg safe_release safe_uses safe_acquire safe_library
  safe_next_id safe_mbump safe_erase_peer safe_set_error : flow.
Ltac flow_match :=
  match goal with
  | |- safe (match ?x with _ => _ end) _ => destruct x eqn:?
  | |- safe (match ?x with _ => _ end _) _ => destruct x eqn:?
  end.
Ltac flow_step :=
  first
  [ solve [eauto with flow nocore]
  | apply safe_ret; first [exact I | assumption | idtac]
  | eapply safe_bind; [solve [eauto with flow nocore]|intros ? ?]
  | apply (safe_bind _ _ (λ _, True)); [|intros ? _]
  | apply safe_each; intros ? ?
  | solve [eapply safe_any; eauto with flow nocore]
  | flow_match ].
Ltac flow := repeat (flow_step; cbv beta iota).

(** ** The registry *)

Lemma safe_find name :
  safe (find_rpc_by_name name) (λ found, match found with Some n => n = name | None => ¬ K name end).
Proof.
  unfold find_rpc_by_name. eapply safe_bind; [apply safe_ask|]. intros i (w & Hg & ->). cbn [id].
  assert (safe (match mi_rpcs_by_name (impl w) !! name with
    | None => mret None
    | Some e => upd_impl (set_last_rpc (Some name));; mret (Some name) end)
    (λ found, match found with Some n => n = name | None => ¬ K name end)) as Hmap.
  { destruct (mi_rpcs_by_name (impl w) !! name) eqn:E.
    - eapply safe_bind; [by apply safe_unrelated|]. intros _ _. by apply safe_ret.
    - apply safe_ret. intros Hk. destruct (good_handlers w Hg name Hk). congruence. }
  destruct (mi_last_rpc (impl w)) as [last|]; [|done]. case_bool_decide; [by apply safe_ret|done].
Qed.

Lemma safe_rpc_entry name : safe (rpc_entry name) (entry_good name).
Proof.
  unfold rpc_entry. eapply safe_bind; [apply safe_ask|]. intros i (w & Hg & ->). cbn [id].
  destruct (mi_rpcs_by_name (impl w) !! name) as [e|] eqn:E; [|apply safe_fail].
  apply safe_ret. by apply (good_entries w Hg).
Qed.
#[local] Hint Resolve safe_find safe_rpc_entry : flow.

Lemma safe_bind_rpc name : safe (bind_rpc_to_mercury name) anything.
Proof.
  unfold bind_rpc_to_mercury. eapply safe_bind; [apply safe_rpc_entry|]. intros e (Hn & Hid & Hk).
  eapply safe_bind; [apply safe_hg|]. intros id (n & held & Hreg). destruct (Z.eqb_spec id 0) as [|Hne]; [apply safe_fail|].
  assert (id = hg_id name) as Hi by (rewrite Hn in Hreg; destruct (register_id n name); congruence).
  eapply safe_bind; [apply safe_hg|]. intros ret _. case_ret ret; [|apply safe_fail].
  eapply safe_bind; [apply safe_impl|intros _ _; apply safe_impl]; intros w [].
  - split_and!; try done; cbn.
    + apply map_Forall_insert_2; [|done]. split_and!; [done|by right|done].
    + intros n' Hn'. destruct (decide (n' = name)) as [->|]; [by rewrite lookup_insert_eq|rewrite lookup_insert_ne by done; auto].
  - split_and!; try done. cbn. apply Forall_app; split; [done|]. by apply Forall_singleton.
Qed.

Lemma safe_register_handler name handler :
  (K name ↔ is_Some handler) → safe (register_handler name handler) anything.
Proof.
  intros Hk. unfold register_handler. eapply safe_bind; [apply safe_ask|]. intros i (w0 & Hg & ->). cbn [id].
  set (entry := match _ with Some e => e | None => _ end).
  assert (re_name entry = name ∧ (re_id entry = 0 ∨ re_id entry = hg_id name)) as [Hn Hid].
  { unfold entry. destruct (mi_rpcs_by_name (impl w0) !! name) as [e|] eqn:E; [|by split; [|left]].
    by destruct (good_entries w0 Hg name e E) as (? & ? & _). }
  eapply safe_bind; [apply safe_impl|intros _ _; destruct (_ && _); [apply safe_bind_rpc|by apply safe_ret]].
  intros w []. split_and!; try done; cbn.
  - apply map_Forall_insert_2; [by split_and!|]. apply Hg.
  - intros n' Hn'. destruct (decide (n' = name)) as [->|]; [by rewrite lookup_insert_eq|rewrite lookup_insert_ne by done].
    by apply Hg.
Qed.
#[local] Hint Resolve safe_bind_rpc : flow.

Lemma safe_forward_rpc_id rpc : safe (forward_rpc_id rpc) (λ id, id = 0 ∨ id = hg_id rpc).
Proof.
  unfold forward_rpc_id. eapply safe_bind; [apply safe_find|]. intros found Hf.
  apply (safe_bind _ _ anything).
  { destruct found as [n|]; [by apply safe_ret|]. eapply safe_bind; [apply safe_register_handler|intros _ _; flow].
    split; [done|]. by intros []. }
  intros _ _. eapply safe_bind; [apply safe_rpc_entry|]. intros e He. apply (safe_bind _ _ anything); [flow|]. intros _ _.
  eapply safe_bind; [apply safe_rpc_entry|]. intros e' (_ & Hid & _). by apply safe_ret.
Qed.

(** ** Peers *)

Lemma safe_peer_state peer : safe (peer_state peer) peer_good.
Proof.
  unfold peer_state. eapply safe_bind; [apply safe_ask|]. intros i (w & Hg & ->). cbn [id].
  destruct (mi_peers (impl w) !! peer) as [p|] eqn:E; [apply safe_ret; by eapply (good_peers w Hg)|].
  eapply safe_bind; [by apply safe_set_peer|]. intros _ _. by apply safe_ret.
Qed.

Lemma safe_recycle peer rpc_id handle : safe (recycle_handle peer rpc_id handle) anything.
Proof.
  unfold recycle_handle, HG_Destroy. eapply safe_bind; [apply safe_ask|]. intros i (w & Hg & ->). cbn [id].
  destruct (mi_peers (impl w) !! peer) as [p|] eqn:E; [|flow]. destruct (pool_handle _ _ _); [|flow].
  apply safe_set_peer. exact (good_peers w Hg peer p E).
Qed.
#[local] Hint Resolve safe_recycle : flow.

Lemma safe_destroy_pools pools : safe (destroy_pools pools) anything.
Proof. unfold destroy_pools, HG_Destroy. flow. Qed.
Lemma safe_free_addr addr : safe (free_addr addr) anything.
Proof. unfold free_addr, HG_Addr_free. flow. Qed.
Lemma safe_free_handle handle : safe (free_handle handle) anything.
Proof. unfold free_handle, HG_Destroy. flow. Qed.
#[local] Hint Resolve safe_destroy_pools safe_free_addr safe_free_handle : flow.

Lemma safe_drop_peer peer : safe (drop_peer peer) anything.
Proof.
  unfold drop_peer. eapply safe_bind; [apply safe_ask|]. intros i (w & Hg & ->). cbn [id].
  destruct (mi_peers (impl w) !! peer) as [p|] eqn:E; [|by apply safe_ret]. do 2 (eapply safe_bind; [eauto with flow nocore|intros _ _]).
  destruct (ps_pending_lookup p) as [l|] eqn:El; [|flow]. apply safe_set_peer. intros l' [= <-].
  exact (good_peers w Hg peer p E l El).
Qed.

Lemma safe_take_pending peer :
  safe (take_pending_lookup peer) (λ o, match o with Some l => lookup_good l | None => True end).
Proof.
  unfold take_pending_lookup. eapply safe_bind; [apply safe_ask|]. intros i (w & Hg & ->). cbn [id].
  destruct (mi_peers (impl w) !! peer) as [p|] eqn:E; [|by apply safe_ret].
  destruct (ps_pending_lookup p) as [l|] eqn:El; [|by apply safe_ret].
  apply (safe_bind _ _ anything); [destruct (_ && _); [flow|by apply safe_set_peer]|]. intros _ _. apply safe_ret.
  exact (good_peers w Hg peer p E l El).
Qed.

Lemma safe_take_orphaned raw :
  safe (take_orphaned_lookup raw) (λ o, match o with Some l => lookup_good l | None => True end).
Proof.
  unfold take_orphaned_lookup. eapply safe_bind; [apply safe_ask|]. intros i (w & Hg & ->). cbn [id].
  destruct (list_find _ _) as [[n l]|] eqn:E; [|by apply safe_ret]. apply list_find_Some in E as (Hl & _).
  eapply safe_bind; [apply safe_impl; intros w' []; split_and!; try done; cbn; apply Forall_delete; apply Hg|].
  intros _ _. apply safe_ret. exact (Forall_lookup_1 _ _ _ _ (good_orphans w Hg) Hl).
Qed.
#[local] Hint Resolve safe_peer_state safe_drop_peer safe_take_pending safe_take_orphaned : flow.

(** ** The client side *)

Lemma safe_uses_bulk bulk : safe (uses_bulk bulk) anything.
Proof. unfold uses_bulk. flow. Qed.
Lemma safe_lookup_due raw name : safe (lookup_due raw name) anything.
Proof. apply safe_library. Qed.
Lemma safe_bind_handle handle addr id : safe (bind_handle handle addr id) anything.
Proof. apply safe_library. Qed.
Lemma safe_lookup_over raw ret addr : safe (lookup_over raw ret addr) anything.
Proof. unfold lookup_over. flow. Qed.
Lemma safe_forget ret addr : safe (forget ret addr) anything.
Proof. unfold forget. flow. Qed.
#[local] Hint Resolve safe_uses_bulk safe_lookup_due safe_bind_handle safe_lookup_over safe_forget : flow.

Lemma safe_cleanup_client s : safe (cleanup_client s) anything.
Proof. unfold cleanup_client, HG_Bulk_free, HG_Destroy. flow. Qed.
Lemma safe_fail_promise s e : safe (fail_promise s e) anything.
Proof. unfold fail_promise. flow. Qed.
#[local] Hint Resolve safe_cleanup_client safe_fail_promise : flow.
Lemma safe_fail_client s e : safe (fail_client s e) anything.
Proof. unfold fail_client, on_rpc_error. flow. Qed.
#[local] Hint Resolve safe_fail_client : flow.

Lemma safe_create_handle s : safe (create_handle s) (λ out, call_of (snd out) = call_of s).
Proof. unfold create_handle. flow; done. Qed.
Lemma safe_cached_handle s : safe (cached_handle s) (λ s', call_of s' = call_of s).
Proof.
  unfold cached_handle. eapply safe_bind; [apply safe_peer_state|]. intros p Hp.
  destruct (take_cached_handle _ _) as [h pools]. eapply safe_bind; [by apply safe_set_peer|]. intros _ _.
  unfold HG_Destroy. flow; done.
Qed.

Lemma safe_set_forwarding p s : cs_promise s = p → P (call_of s) → safe (set_forwarding p s) anything.
Proof. intros Hp Hs w []. split; [|done]. split; try done. cbn. by apply map_Forall_insert_2. Qed.

Lemma safe_start_forward s : P (call_of s) → safe (start_client_forward s) anything.
Proof.
  intros Hs. unfold start_client_forward. destruct (cs_promise_done s); [flow|].
  eapply safe_bind; [apply safe_cached_handle|]. intros s1 H1. eapply safe_bind; [apply safe_create_handle|].
  intros [ret s2] H2. cbn [snd] in H2. rewrite H1 in H2. cbv beta iota. case_ret ret; [|flow].
  eapply safe_bind; [apply safe_uses|]. intros _ _. eapply safe_bind; [apply safe_uses_bulk|]. intros _ _.
  eapply safe_bind; [apply safe_hg|]. intros ret' _. case_ret ret'; [|flow].
  eapply safe_bind; [apply safe_set_forwarding; [done|]|intros _ _; flow]. cbn. change (P (call_of s2)). by rewrite H2.
Qed.

Lemma safe_fail_waiters l e : safe (io_each (ls_waiters l) (λ waiter, fail_client waiter e)) anything.
Proof. flow. Qed.

Lemma safe_forward_to_peer s : P (call_of s) → safe (forward_to_peer s) anything.
Proof.
  intros Hs. unfold forward_to_peer. eapply safe_bind; [apply safe_peer_state|]. intros p Hp.
  destruct (negb _); [by apply safe_start_forward|]. destruct (ps_pending_lookup p) as [l|] eqn:El.
  - apply safe_set_peer. intros l' [= <-] s'. cbn. rewrite elem_of_app, list_elem_of_singleton. intros [Hin| ->]; [|done].
    by apply (Hp l El).
  - eapply safe_bind; [apply safe_next_id|]. intros raw _. eapply safe_bind; [apply safe_set_peer|].
    { intros l' [= <-] s'. cbn. by intros ->%list_elem_of_singleton. }
    intros _ _. eapply safe_bind; [apply safe_hg|]. intros ret _. case_ret ret; [apply safe_lookup_due|].
    eapply safe_bind; [apply safe_take_pending|]. intros [l|] _; [apply safe_fail_waiters|by apply safe_ret].
Qed.

(** [safe] from one state. *)
Definition safe_from {A} (w : Mercury) (m : Mercury_ A) (Ψ : A → Prop) : Prop :=
  match m w with (Ok a, w') => good w' ∧ Ψ a | (Err _, w') => good w' end.
Lemma safe_from_flight {A B} (f : InFlight → A) (k : A → Mercury_ B) Ψ w :
  good w → safe (k (f (in_flight w))) Ψ → safe_from w (ask_flight f ≫= k) Ψ.
Proof. intros Hg Hk. exact (Hk w Hg). Qed.

Lemma safe_from_end {A} w (m : Mercury_ A) Ψ : safe_from w m Ψ → good (snd (m w)).
Proof. unfold safe_from. by destruct (m w) as [[a|e] w']; [intros []|]. Qed.
Lemma safe_end {A} w (m : Mercury_ A) Ψ : safe m Ψ → good w → good (snd (m w)).
Proof. intros Hm Hg. exact (safe_from_end w m Ψ (Hm w Hg)). Qed.

(** The records under way only change where the predicates hold. *)
Lemma safe_flight (f : InFlight → InFlight) :
  (∀ w, good w → map_Forall (λ p s, cs_promise s = p ∧ P (call_of s)) (forwarding (f (in_flight w))) ∧
     map_Forall PP (pulling (f (in_flight w))) ∧ map_Forall PH (handling (f (in_flight w))) ∧
     map_Forall PR (responding (f (in_flight w)))) →
  safe (upd_in_flight f) anything.
Proof. intros Hf w Hg. destruct (Hf w Hg) as (? & ? & ? & ?). destruct Hg. split; [|done]. by split. Qed.

Lemma safe_timed_out p : safe (timed_out p) anything.
Proof.
  unfold timed_out, on_rpc_error, on_rpc_timeout. eapply safe_bind; [apply safe_ask_flight|]. intros found (w & Hg & ->).
  destruct (forwarding (in_flight w) !! p) as [s|] eqn:E; [|flow]. destruct (good_forwarding w Hg p s E) as [Hp Hs].
  destruct (cs_promise_done s); [by apply safe_set_forwarding|]. eapply safe_bind; [eauto with flow nocore|]. intros _ _.
  eapply safe_bind; [by apply safe_set_forwarding|]. intros _ _. flow.
Qed.

(** The reply that Mercury has for the handle of [s] may be given out. *)
Definition output_good (s : ClientRpcState) : Prop :=
  ∀ n out, HG_Get_output n (cs_handle s) = (HG_SUCCESS, out) → hr_status out = 0 → Q (cs_promise s) (bytes_of (hr_payload out)).

Lemma safe_take_output s : output_good s → safe (take_output s) anything.
Proof.
  intros Ho. unfold take_output, on_rpc_error, HG_Free_output.
  eapply safe_bind; [apply safe_hg|]. intros [ret out] (n & held & Hout). cbv beta iota. case_ret ret; [subst ret|flow].
  eapply safe_bind; [apply safe_acquire|]. intros _ _. apply (safe_bind _ _ anything); [|intros _ _; flow].
  destruct (Z.eqb_spec (hr_status out) 0) as [Hst|]; cbn [negb]; [|flow]. apply safe_set_promise. by eapply Ho.
Qed.

Lemma safe_forward_cb p ret w :
  good w → (ret = HG_SUCCESS → ∀ s, forwarding (in_flight w) !! p = Some s → output_good s) →
  safe_from w (forward_cb p ret) anything.
Proof.
  intros Hg Ho. apply safe_from_flight; [done|]. destruct (forwarding (in_flight w) !! p) as [s|] eqn:E; [|flow].
  unfold on_rpc_error. eapply safe_bind; [apply safe_flight; intros w' []; split_and!; try done; cbn; by apply map_Forall_delete|].
  intros _ _. eapply safe_bind; [apply safe_uses|]. intros _ _. eapply safe_bind; [apply safe_uses_bulk|]. intros _ _.
  case_ret ret; [|flow]. apply (safe_bind _ _ anything); [|intros _ _; flow].
  destruct (cs_promise_done s); [flow|]. apply safe_take_output. by apply Ho.
Qed.

Lemma safe_forward_waiter peer s : P (call_of s) → safe (forward_waiter peer s) anything.
Proof.
  intros Hs. unfold forward_waiter. eapply safe_bind; [apply safe_ask|]. intros i _.
  destruct (mi_peers i !! peer); [by apply safe_start_forward|flow].
Qed.

Lemma safe_lookup_cb raw ret addr : safe (lookup_cb raw ret addr) anything.
Proof.
  unfold lookup_cb, HG_Addr_free. eapply safe_bind; [apply safe_lookup_over|]. intros _ _. eapply safe_bind; [apply safe_ask|]. intros i _. destruct (peer_of raw i) as [peer|]; [|flow].
  eapply safe_bind; [apply safe_take_pending|]. intros o Ho.
  apply (safe_bind _ _ (λ o, match o with Some l => lookup_good l | None => True end)).
  { destruct o; [by apply safe_ret|apply safe_take_orphaned]. }
  clear o Ho. intros [l|] Hl; [|flow]. destruct (ls_cancelled l); [flow|]. case_ret ret; [|apply safe_fail_waiters].
  eapply safe_bind; [apply safe_peer_state|]. intros p Hp.
  apply (safe_bind _ _ anything); [destruct (_ =? _); [by apply safe_set_peer|flow]|]. intros _ _.
  apply safe_each. intros s Hs. by apply safe_forward_waiter, Hl.
Qed.

(** ** The server side *)

Lemma safe_respond_server s : (∀ k, PR k s) → safe (respond_server s) anything.
Proof.
  intros Hs. unfold respond_server. eapply safe_bind; [apply safe_uses|]. intros _ _. eapply safe_bind; [apply safe_hg|].
  intros ret _. case_ret ret; [|flow]. eapply safe_bind; [apply safe_next_id|]. intros k _.
  apply safe_flight. intros w []. split_and!; try done. cbn. by apply map_Forall_insert_2.
Qed.

Lemma safe_run_server_handler s :
  (∀ k, PH k (mkHandlerCall (ss_request s) (set_ss_request [] s))) → safe (run_server_handler s) anything.
Proof.
  intros Hs. unfold run_server_handler. eapply safe_bind; [apply safe_rpc_entry|]. intros e _.
  destruct (re_handler e) as [handler|]; [|flow]. destruct (handler _); [|flow].
  eapply safe_bind; [apply safe_next_id|]. intros k _.
  apply safe_flight. intros w []. split_and!; try done. cbn. by apply map_Forall_insert_2.
Qed.

(** What clean-up leaves of a server state. *)
Definition cleaned (s s' : ServerRpcState) : Prop :=
  ss_handle s' = ss_handle s ∧ ss_rpc s' = ss_rpc s ∧ ss_request s' = ss_request s ∧ ss_response s' = ss_response s ∧
  ss_status s' = ss_status s.
Lemma safe_cleanup_server_bulk s : safe (cleanup_server_bulk s) (cleaned s).
Proof. unfold cleanup_server_bulk, HG_Bulk_free, HG_Free_input. flow. done. Qed.

Lemma safe_respond_cb k : safe (respond_cb k) anything.
Proof.
  unfold respond_cb. eapply safe_bind; [apply safe_ask_flight|]. intros found _. destruct found; [|flow].
  eapply safe_bind; [apply safe_flight; intros w' []; split_and!; try done; cbn; by apply map_Forall_delete|].
  intros _ _. flow.
Qed.

(** Replies that report a failure on handle [h]. *)
Definition failure_good (h : Z) : Prop := ∀ k s, ss_handle s = h → ss_response s = [] → ss_status s = -1 → PR k s.

Lemma safe_handler_done k fut w :
  good w → (∀ c, handling (in_flight w) !! k = Some c → failure_good (ss_handle (hc_state c)) ∧
    ∀ k' s response, fut = Ok response → ss_handle s = ss_handle (hc_state c) → ss_response s = response → ss_status s = 0 → PR k' s) →
  safe_from w (handler_done k fut) anything.
Proof.
  intros Hg Hok. apply safe_from_flight; [done|]. destruct (handling (in_flight w) !! k) as [c|] eqn:E; [|flow].
  destruct (Hok c eq_refl) as [Hfail Hdone]. cbv zeta. unfold on_rpc_error.
  eapply safe_bind; [apply safe_flight; intros w' []; split_and!; try done; cbn; by apply map_Forall_delete|].
  intros _ _. destruct fut as [response|e].
  - apply safe_respond_server. intros k'. by eapply Hdone.
  - eapply safe_bind; [apply safe_mbump|]. intros _ _. apply safe_respond_server. intros k'. by apply Hfail.
Qed.

Lemma safe_bulk_pull_cb k ret data w :
  good w → (∀ s, pulling (in_flight w) !! k = Some s → ss_response s = [] ∧ K (ss_rpc s) ∧ failure_good (ss_handle s) ∧
    (ret = HG_SUCCESS → ∀ k' c, ss_handle (hc_state c) = ss_handle s → ss_rpc (hc_state c) = ss_rpc s →
       hc_payload c = pulled (length (ss_request s)) data → PH k' c)) →
  safe_from w (bulk_pull_cb k ret data) anything.
Proof.
  intros Hg Hok. apply safe_from_flight; [done|]. destruct (pulling (in_flight w) !! k) as [s|] eqn:E; [|flow].
  destruct (Hok s eq_refl) as (Hresp & Hk & Hfail & Hdone). cbv zeta. unfold on_rpc_error, on_bulk_error, on_bulk_transfer.
  eapply safe_bind; [apply safe_flight; intros w' []; split_and!; try done; cbn; by apply map_Forall_delete|].
  intros _ _. do 2 (eapply safe_bind; [apply safe_uses|]; intros _ _). case_ret ret.
  - eapply safe_bind; [by flow|]. intros _ _. eapply safe_bind; [apply safe_cleanup_server_bulk|].
    intros s' (H1 & H2 & H3 & H4 & H5). cbn in H1, H2, H3. eapply safe_bind; [apply safe_rpc_entry|].
    intros entry (_ & _ & Hkh). rewrite H2 in Hkh. destruct (re_handler entry); [|by destruct (proj1 Hkh Hk)].
    apply safe_run_server_handler. intros k'. by apply Hdone.
  - do 2 (eapply safe_bind; [apply safe_mbump|]; intros _ _). eapply safe_bind; [apply safe_cleanup_server_bulk|].
    intros s' (H1 & H2 & H3 & H4 & H5). apply safe_respond_server. intros k'. by apply Hfail.
Qed.

Lemma safe_reject_bulk s : ss_response s = [] → failure_good (ss_handle s) → safe (reject_bulk s) anything.
Proof.
  intros Hr Hfail. unfold reject_bulk, on_rpc_error, on_bulk_error. do 2 (eapply safe_bind; [apply safe_mbump|]; intros _ _).
  eapply safe_bind; [apply safe_cleanup_server_bulk|]. intros s' (H1 & H2 & H3 & H4 & H5).
  eapply safe_bind; [apply safe_respond_server; intros k; apply Hfail; cbn; congruence|]. intros _ _. flow.
Qed.

Lemma safe_start_bulk_pull s :
  ss_response s = [] → failure_good (ss_handle s) →
  (∀ k s', cleaned (set_ss_request (fresh_buffer (hq_bulk_size (ss_input s))) s) s' → ss_input s' = ss_input s → PP k s') →
  safe (start_bulk_pull s) anything.
Proof.
  intros Hr Hfail Hpull. unfold start_bulk_pull. destruct (_ || _); [by apply safe_reject_bulk|].
  eapply safe_bind; [apply safe_hg|]. intros [ret bulk] _. cbv beta iota zeta. case_ret ret; [|by apply safe_reject_bulk].
  eapply safe_bind; [apply safe_acquire|]. intros _ _. do 3 (eapply safe_bind; [apply safe_uses|]; intros _ _).
  eapply safe_bind; [apply safe_hg|]. intros ret' _. case_ret ret'; [|by apply safe_reject_bulk]. eapply safe_bind; [apply safe_next_id|]. intros k _.
  eapply safe_bind; [apply safe_flight|intros _ _; flow]. intros w []. split_and!; try done. cbn.
  apply map_Forall_insert_2; [by apply Hpull|done].
Qed.

(** What the request on handle [h] may become. *)
Definition request_good (h : Z) : Prop :=
  ∀ n id n' input name, HG_Get_info n h = Some id → HG_Get_input n' h = (HG_SUCCESS, input) → id = hg_id name → K name →
  failure_good h ∧
  (hq_mode input ≠ HgTransferMode_Bulk → ∀ k c, ss_handle (hc_state c) = h → ss_rpc (hc_state c) = name →
     hc_payload c = bytes_of (hq_eager input) → PH k c) ∧
  (hq_mode input = HgTransferMode_Bulk → ∀ k s, ss_handle s = h → ss_rpc s = name → ss_input s = input →
     ss_request s = fresh_buffer (hq_bulk_size input) → ss_response s = [] → PP k s).

Lemma safe_handle_rpc h : request_good h → safe (handle_rpc h) anything.
Proof.
  intros Hreq. unfold handle_rpc, on_rpc_receive, on_rpc_error, HG_Destroy.
  eapply safe_bind; [apply safe_mbump|]. intros _ _. eapply safe_bind; [apply safe_uses|]. intros _ _.
  eapply safe_bind; [apply safe_hg|]. intros info (n & held & Hinfo). destruct info as [id|]; [|flow].
  eapply safe_bind; [apply safe_ask|]. intros found (w & Hg & ->).
  destruct (find_rpc_by_id id (impl w)) as [name|] eqn:Hf; [|flow].
  assert (id = hg_id name) as Hid.
  { unfold find_rpc_by_id in Hf. destruct (List.find _ _) as [[id' n']|] eqn:E; [|done]. cbn in Hf. simplify_eq.
    apply List.find_some in E as [Hin Heq%Z.eqb_eq]. cbn in Heq. subst id'.
    exact (proj1 (Forall_forall _ _) (good_ids w Hg) (id, name) (proj2 (list_elem_of_In _ _) Hin)). }
  eapply (safe_bind _ _ (λ o, is_Some o ↔ K name)).
  { eapply safe_bind; [apply safe_rpc_entry|]. intros e (_ & _ & Hk). apply safe_ret. by rewrite Hk. }
  intros [handler|] Hk; [|flow]. assert (K name) as HK by (apply Hk; by eexists).
  eapply safe_bind; [apply safe_hg|]. intros [ret input] (n' & held' & Hin). cbv beta iota. case_ret ret; [subst ret|flow].
  destruct (Hreq n id n' input name (eq_sym Hinfo) (eq_sym Hin) Hid HK) as (Hfail & Heager & Hbulk).
  eapply safe_bind; [apply safe_acquire|]. intros _ _. cbv zeta. destruct (Z.eqb_spec (hq_mode input) HgTransferMode_Bulk) as [Hm|Hm]; cbn [negb].
  - apply safe_start_bulk_pull; [done|done|]. intros k s' (H1 & H2 & H3 & H4 & H5) H6. by apply Hbulk.
  - eapply safe_bind; [apply safe_cleanup_server_bulk|]. intros s' (H1 & H2 & H3 & H4 & H5).
    eapply safe_bind; [apply safe_run_server_handler; intros k; by apply Heager|]. intros _ _. flow.
Qed.

Lemma safe_dispatch_cb h : request_good h → safe (dispatch_cb h) anything.
Proof.
  intros Hreq. unfold dispatch_cb, HG_Destroy. eapply safe_bind; [apply safe_acquire|]. intros _ _.
  eapply safe_bind; [apply safe_hg|]. intros [id|] _; [|flow]. eapply safe_bind; [apply safe_hg|]. intros [] _; [|flow].
  by apply safe_handle_rpc.
Qed.

(** ** Start and stop *)

Lemma safe_start address listen : safe (mercury_start_ address listen) anything.
Proof.
  unfold mercury_start_, arm_progress_timer.
  eapply safe_bind; [apply safe_ask|]. intros i _. destruct (mi_running i); [flow|].
  eapply safe_bind; [apply safe_hg|]. intros class _. eapply safe_bind; [by apply safe_unrelated|]. intros _ _.
  destruct class; cbn [negb]; [|flow]. eapply safe_bind; [apply safe_hg|]. intros context _.
  eapply safe_bind; [by apply safe_unrelated|]. intros _ _. destruct context; cbn [negb].
  - do 2 (eapply safe_bind; [by apply safe_unrelated|]; intros _ _). eapply safe_bind; [apply safe_ask|]. intros i' _.
    apply (safe_bind _ _ anything); [flow|]. intros _ _. apply safe_unrelated. intros j. by destruct (mi_running j).
  - eapply safe_bind; [by apply safe_unrelated|]. intros _ _. flow.
Qed.

Lemma safe_clear_peer p : safe (clear_peer p) anything.
Proof.
  unfold clear_peer. apply (safe_bind _ _ anything); [|intros _ _; flow]. destruct (ps_pending_lookup p) as [l|]; [|flow].
  apply (safe_bind _ _ anything); [flow|]. intros _ _. apply safe_impl. intros w []. split_and!; try done. cbn.
  apply Forall_app; split; [done|]. apply Forall_singleton. by intros s ?%elem_of_nil.
Qed.
#[local] Hint Resolve safe_clear_peer : flow.

Lemma safe_stop : safe mercury_stop_ anything.
Proof.
  unfold mercury_stop_, clear_all_peers. eapply safe_bind; [apply safe_ask|]. intros i _. destruct (negb _); [flow|].
  do 2 (eapply safe_bind; [by apply safe_unrelated|]; intros _ _). apply (safe_bind _ _ anything).
  { destruct (mi_hg_class i); [|flow]. eapply safe_bind; [apply safe_ask|]. intros i' _.
    apply (safe_bind _ _ anything); [flow|]. intros _ _. apply safe_impl. intros w []. by split_and!. }
  intros _ _. do 2 (eapply safe_bind; [by apply safe_unrelated|]; intros _ _).
  eapply safe_bind; [apply safe_impl; intros w []; by split_and!|]. intros _ _.
  eapply safe_bind; [by apply safe_unrelated|]. intros _ _. apply safe_impl. intros w []. split_and!; try done; cbn.
  - intros n e He. apply lookup_fmap_Some in He as (e0 & <- & He0). destruct (good_entries0 n e0 He0) as (? & _ & ?).
    split_and!; [done|by left|done].
  - intros n Hn. rewrite lookup_fmap. apply fmap_is_Some. auto.
Qed.

Lemma safe_forward_local rpc payload :
  safe (forward_local rpc payload) (λ fut, match fut with PromiseFuture _ => False | _ => True end).
Proof.
  unfold forward_local, call_handler. eapply safe_bind; [apply safe_find|]. intros [n|] _; [|by apply safe_ret].
  eapply safe_bind; [apply safe_rpc_entry|]. intros e _. destruct (re_handler e); [|by apply safe_ret].
  apply (safe_bind _ _ anything); [flow|]. intros _ _. by apply safe_ret.
Qed.

(** The request of a payload: eager, or with a descriptor of its memory. *)
Lemma safe_forward_input payload :
  safe (forward_input payload) (λ '(ret, bulk, input), ret = HG_SUCCESS →
    input = eager_request payload ∨
    input = bulk_request (zlen payload) bulk ∧ ∃ n held, HG_Bulk_create n held (zlen payload) = (HG_SUCCESS, bulk)).
Proof.
  unfold forward_input. destruct (_ <=? _); [|apply safe_ret; by left].
  eapply safe_bind; [apply safe_hg|]. intros [ret bulk] (n & held & E). cbv beta iota. case_ret ret; [subst ret|by apply safe_ret].
  eapply safe_bind; [apply safe_acquire|]. intros _ _. apply safe_ret. intros _. right. split; [done|]. by exists n, held.
Qed.
End flow.

(** A handler is registered. *)
Lemma good_register {Hg0 : Hg} hg_id K n P PP PH PR (Q : nat → bytes → Prop) name handler w :
  (∀ n name, HG_Register_name n name = 0 ∨ HG_Register_name n name = hg_id name) →
  good hg_id K n P PP PH PR Q w →
  good hg_id (λ x, K x ∨ x = name) n P PP PH PR Q (snd (register_handler name (Some handler) w)).
Proof.
  intros Hid Hg. unfold register_handler, mbind, IO_bind, ask_impl, upd_impl, modify. cbn [id].
  set (entry := match mi_rpcs_by_name (impl w) !! name with Some e => e | None => _ end). set (w1 := mkMercury _ _ _ _ _ _ _).
  assert (re_name entry = name ∧ (re_id entry = 0 ∨ re_id entry = hg_id name)) as [Hn He].
  { unfold entry. destruct (mi_rpcs_by_name (impl w) !! name) as [e|] eqn:E; [|by split; [|left]].
    by destruct (good_entries _ _ _ _ _ _ _ _ _ Hg name e E) as (? & ? & _). }
  assert (good hg_id (λ x, K x ∨ x = name) n P PP PH PR Q w1) as Hg1.
  { destruct Hg. split; try done; cbn.
    - intros x e Hx. destruct (decide (x = name)) as [->|Hne].
      + rewrite lookup_insert_eq in Hx. injection Hx as <-. split_and!; [done|done|]. cbn. split; [by eexists|by right].
      + rewrite lookup_insert_ne in Hx by done. destruct (good_entries0 x e Hx) as (? & ? & Hk).
        split_and!; try done. rewrite <- Hk. naive_solver.
    - intros x Hx. destruct (decide (x = name)) as [->|Hne]; [by rewrite lookup_insert_eq|rewrite lookup_insert_ne by done].
      destruct Hx; [auto|done]. }
  destruct (_ && _); [|exact Hg1]. by eapply (safe_end hg_id); [apply safe_bind_rpc|].
Qed.

(** Weaker predicates. *)
Lemma good_mono hg_id K K' n n' P P' PP PP' PH PH' PR PR' (Q Q' : nat → bytes → Prop) w :
  good hg_id K n P PP PH PR Q w → (∀ name, K' name ↔ K name) → (n' ≤ fresh w)%nat → (∀ c, P c → P' c) →
  (∀ k s, pulling (in_flight w) !! k = Some s → PP k s → PP' k s) →
  (∀ k c, handling (in_flight w) !! k = Some c → PH k c → PH' k c) →
  (∀ k s, responding (in_flight w) !! k = Some s → PR k s → PR' k s) →
  (∀ p r, promises w !! p = Some (Ok r) → Q p r → Q' p r) → good hg_id K' n' P' PP' PH' PR' Q' w.
Proof.
  intros [] HK Hn HP HPP HPH HPR HQ.
  assert (∀ l, lookup_good P l → lookup_good P' l) as Hl by (intros l Hl s Hs; by apply HP, Hl). split; auto.
  - intros k p Hp l El. apply Hl. by apply (good_peers0 k p Hp l).
  - eapply Forall_impl; [done|]. apply Hl.
  - intros p s Hs. destruct (good_forwarding0 p s Hs). auto.
  - intros k s Hs. apply HPP; auto.
  - intros k s Hs. apply HPH; auto.
  - intros k s Hs. apply HPR; auto.
  - intros k e He. destruct (good_entries0 k e He) as (? & ? & Hk). split_and!; try done. by rewrite HK.
  - intros name. rewrite HK. auto.
Qed.
