(* ===== verification/MercuryContract.v ===== *)
(** * What the Mercury shard promises

    The theorems on MercuryShard.v, for every state that operations, timers
    and callbacks can lead to ([reachable]), and for every instance of the
    library that satisfies [HgLaws].  The instance [memory_hg] serves the
    witnesses and shows the faults of the code: a peer that is read after it
    was erased, a handler that throws through the library, a lookup whose
    record is freed before its callback, and an address that is lost. *)

From Stdlib Require Import ZArith Lia.
From stdpp Require Import base tactics numbers option fin_maps gmap functions list.
From S2P Require Import Prelude Storage Detail BrokerShard MercuryProc MercuryShard MercuryRep MercuryKeeps MercuryClient MercurySafety.

(** ** Progress *)

Section progress.
Context {Hg0 : Hg} {Laws : HgLaws}.

Definition running (w : Mercury) : Prop := mi_running (impl w) = true ∧ mi_hg_context (impl w) = true.

Lemma steady_running w w' : steady w w' → running w → running w'.
Proof. intros (_ & Hl & _) [H1 H2]. unfold life in Hl. split; congruence. Qed.

(** What a loop over callbacks ends in: steps of the shard, or the error of a
    callback. *)
Definition stepped {A} (w : Mercury) (out : result A * Mercury) : Prop :=
  match out with
  | (Ok _, w') => rtc step w w' ∧ running w' ∧ clock w ≤ clock w'
  | (Err e, w') => ∃ w1 cb, rtc step w w1 ∧ run_callback cb w1 = (Err e, w')
  end.

Lemma stepped_trans {A} w w1 (out : result A * Mercury) :
  rtc step w w1 → clock w ≤ clock w1 → stepped w1 out → stepped w out.
Proof.
  intros Hs Hc. destruct out as [[a|e] w']; cbn.
  - intros (Hs1 & Hr & Hc1). split; [by etrans|]. split; [done|lia].
  - intros (w2 & cb & Hs2 & Hcb). exists w2, cb. split; [by etrans|done].
Qed.

Lemma run_callback_steps cb w : running w → stepped w (run_callback cb w).
Proof.
  intros Hr. destruct (run_callback cb w) as [[[]|e] w'] eqn:Hc; [|by exists w, cb].
  unfold run_callback in Hc. destruct (callback_ok w cb) eqn:Hok; [|done].
  pose proof (stable_callback steady cb w) as Hs. rewrite Hc in Hs. split_and!.
  - eapply rtc_once, (step_op w w' (OpCallback cb) (Ok tt)); [|done|done]. destruct Hr as [H1 H2]. cbn. by rewrite H1, H2.
  - by eapply steady_running.
  - apply Hs.
Qed.

Lemma callbacks_steps l w : running w → stepped w (io_each l run_callback w).
Proof.
  revert w. induction l as [|cb l IH]; intros w Hr; [by split|]. cbn. unfold mbind, IO_bind.
  pose proof (run_callback_steps cb w Hr) as Hc. destruct (run_callback cb w) as [[[]|e] w1]; [|done].
  destruct Hc as (Hs & Hr1 & Hcl). by eapply stepped_trans; [..|apply IH].
Qed.

(** A library call without consequences is a step. *)
Definition tick (w : Mercury) : Mercury :=
  mkMercury (impl w) (in_flight w) (ledger w) (promises w) (fresh w) (S (clock w)) (library w).
Lemma tick_step w : rtc step w (tick w).
Proof. by apply rtc_once, (step_op _ _ OpTick (Ok tt)). Qed.

(** [HG_Trigger] has nothing to run from call [n] on. *)
Definition drained (n : nat) : Prop := ∀ k, n ≤ k → snd (HG_Trigger k kMercuryTriggerBatch) = [].

Lemma trigger_steps w : running w → stepped w (trigger w) ∧
  ∀ n w', trigger w = (Ok n, w') → clock w < clock w' ∧ (snd (HG_Trigger (clock w) kMercuryTriggerBatch) = [] → n = 0).
Proof.
  intros Hr. unfold trigger, mbind, IO_bind, hg. destruct (HG_Trigger (clock w) kMercuryTriggerBatch) as [ret l].
  change (mkMercury _ _ _ _ _ _ _) with (tick w). pose proof (callbacks_steps l (tick w) Hr) as Hl.
  destruct (io_each l run_callback (tick w)) as [[[]|e] w2] eqn:El.
  - destruct Hl as (Hs & Hr2 & Hc). cbn in Hc. rewrite (ret_match ret). split.
    + assert (stepped w ((Ok 0, w2) : result nat * Mercury)) as Hok.
      { split; [|by split; [|lia]]. by etrans; [apply tick_step|]. }
      by destruct (decide _).
    + intros n w' E. unfold mret, IO_ret in E. destruct (decide _); injection E as <- <-; (split; [lia|]); by cbn; intros ->.
  - split; [|done]. eapply (stepped_trans w (tick w)); [apply tick_step|cbn; lia|done].
Qed.

Lemma trigger_loop_steps n fuel b w :
  drained n → n - clock w < fuel → running w → stepped w (trigger_loop fuel b w).
Proof.
  intros Hd. revert b w. induction fuel as [|fuel IH]; intros b w Hn Hr; [lia|]. cbn [trigger_loop]. unfold mbind, IO_bind.
  destruct (trigger_steps w Hr) as [Hs Hc]. destruct (trigger w) as [[k|e] w1] eqn:Ht; [|done].
  destruct (Hc k w1 eq_refl) as [Hlt Hk]. destruct Hs as (Hs & Hr1 & _).
  destruct k as [|k]; [split; [done|]; split; [done|lia]|].
  eapply stepped_trans; [done|lia|]. apply IH; [|done]. destruct (decide (n ≤ clock w)) as [Hle|]; [|lia].
  by specialize (Hk (Hd _ Hle)).
Qed.

Lemma progress_rounds_steps n fuel rounds b w :
  drained n → n < fuel → running w → stepped w (progress_rounds fuel rounds b w).
Proof.
  intros Hd Hn. revert b w. induction rounds as [|rounds IH]; intros b w Hr; [by split|]. cbn [progress_rounds].
  unfold mbind, IO_bind. pose proof (trigger_loop_steps n fuel false w Hd ltac:(lia) Hr) as Ht.
  destruct (trigger_loop fuel false w) as [[t|e] w1]; [|done]. destruct Ht as (Hs & Hr1 & Hc). unfold hg.
  change (mkMercury _ _ _ _ _ _ _) with (tick w1). rewrite (ret_match (HG_Progress (clock w1))).
  assert (rtc step w (tick w1)) as Hs2 by (by etrans; [|apply tick_step]).
  assert (stepped w (progress_rounds fuel rounds true (tick w1))) as Hgo
    by (eapply stepped_trans; [done|cbn; lia|by apply IH]).
  destruct (decide _); [done|]. destruct t; [done|]. split; [done|]. split; [done|cbn; lia].
Qed.
End progress.

Section contract.
Context {Hg0 : Hg} {Laws : HgLaws}.

(** Everything on the ledger has one owner or is one of the addresses that
    were forgotten, and what is owned is on it. *)
Definition accounted (w : Mercury) : Prop :=
  ∀ r, held (ledger w) r = owned w r + lost (library w) r ∧ held (ledger w) r ≤ 1.

Lemma inv_accounted w : inv w nothing → accounted w.
Proof.
  intros Hi r. split; [|apply Hi]. rewrite <- (inv_balance _ _ Hi). unfold nothing. lia.
Qed.

(** Only the callback of an orphaned lookup forgets an address. *)
Definition forgets (w : Mercury) (op : Op) (w' : Mercury) : Prop :=
  ∃ raw addr, op = OpCallback (LookupDone raw HG_SUCCESS addr) ∧ raw ∈ map ls_id (mi_orphaned_lookups (impl w)) ∧
    leaked (library w') = addr :: leaked (library w).

Lemma run_leaks op w : inv w nothing → enabled w op → leakless w (snd (run op w)) ∨ forgets w op (snd (run op w)).
Proof.
  intros Hi He. destruct op as [address listen| |name handler|peer rpc payload|p|k fut|cb|]; cbn [run enabled] in *.
  - left. apply (stable_start leakless).
  - left. apply (stable_stop leakless).
  - left. apply (stable_register_handler leakless).
  - left. match goal with |- leakless w (snd (?m w)) => enough (respects leakless m) as Hm by apply Hm end. respects.
  - left. apply (stable_timed_out leakless).
  - left. apply (stable_handler_done leakless).
  - destruct He as [_ Hok]. destruct cb as [raw ret addr|promise ret|h|k ret data|k]; cbn [callback].
    + destruct (lookup_cb_leaks raw ret addr w Hi Hok) as [?|(-> & ? & ?)]; [by left|right]. by exists raw, addr.
    + left. apply (stable_forward_cb leakless).
    + left. match goal with |- leakless w (snd (?m w)) => enough (respects leakless m) as Hm by apply Hm end.
      apply respects_bind; [apply _|apply (stable_dispatch_cb leakless)|respects].
    + left. apply (stable_bulk_pull_cb leakless).
    + left. apply (stable_respond_cb leakless).
  - by left.
Qed.

(** C7: the resources of Mercury.  In every state that operations, timers and
    callbacks lead to, any operation that can happen next leaves every
    handle, address, bulk descriptor, decoded input and unanswered promise
    with exactly one owner: none is given back twice or used after it was
    given back, and no promise is fulfilled twice.  Nothing is lost but an
    address, and that only by the callback of a lookup that [stop] had
    orphaned: [lookup_cb] returns early and forgets the address it was given.
    An operation may throw to its caller (an error of its own, or that of a
    local handler), with the same guarantee.  There are three exceptions
    ([known_fault]): a lookup that several forwards share ([lookup_cb] reads a
    peer that the failure of an earlier waiter has erased), a handler that
    throws before it returns a future, and a lookup whose record the callback
    of an earlier, orphaned lookup of the same peer has freed. *)
Theorem mercury_resources_accounted w op r w' :
  reachable w → enabled w op → run op w = (r, w') →
  match r with
  | Ok _ => accounted w'
  | Err e => (accounted w' ∧ (defined e ∨ throws_error w e)) ∨ known_fault w e
  end ∧
  (leaked (library w') = leaked (library w) ∨ forgets w op w').
Proof.
  intros Hr He Hrun. destruct (reachable_inv w Hr) as [Hi Ha]. pose proof (run_leaks op w Hi He) as Hleak.
  pose proof (run_wp op w Hi Ha He) as Hw. unfold wp in Hw. rewrite Hrun in Hw, Hleak. split; [|done].
  destruct r as [[]|e]; [by apply inv_accounted|].
  destruct Hw as [[Hi' Hd]|Hf]; [left; split; [by apply inv_accounted|done]|by right].
Qed.

(** C31: the handle pools.  A peer has one pool per RPC, with at most
    [kHandlePoolLimitPerPeerRpc] (128) handles; every pooled handle is live,
    is not null, and is in no other pool and no RPC under way. *)
Theorem handle_pools_bounded w peer p pool :
  reachable w → mi_peers (impl w) !! peer = Some p → pool ∈ ps_pools p →
  length (hp_handles pool) ≤ 128 ∧ NoDup (map hp_rpc_id (ps_pools p)) ∧
  ∀ h, h ∈ hp_handles pool → h ≠ HG_NULL ∧ held (ledger w) (RHandle h) = 1 ∧ owned w (RHandle h) = 1.
Proof.
  intros Hr Hp Hpool. destruct (reachable_inv w Hr) as [Hi _]. destruct (inv_peers _ _ Hi peer p Hp) as (Hok & Hnd & _).
  rewrite Forall_forall in Hok. split; [by apply Hok|]. split; [done|]. intros h Hh.
  assert (1 ≤ owned w (RHandle h)) as Ho.
  { unfold owned. rewrite (msum_delete peer_owns _ _ _ _ Hp). unfold peer_owns at 1.
    assert (1 ≤ pools_own (ps_pools p) (RHandle h)) as Hpo; [|lia].
    apply list_elem_of_split in Hpool as (l1 & l2 & ->). apply list_elem_of_split in Hh as (h1 & h2 & Hh).
    unfold pools_own. rewrite total_app, total_cons, Hh, total_app, total_cons, one_refl. lia. }
  destruct (inv_accounted w Hi (RHandle h)) as [He Hle]. rewrite lost_handle in He.
  split; [|lia]. apply (inv_valid _ _ Hi (RHandle h)). apply held_in. lia.
Qed.

(** C32: stopping.  [stop] of a running shard succeeds and leaves no peer; the
    addresses, the pooled handles and what the lookups held are given back,
    so that only RPCs under way still own something (besides the addresses
    that were lost before, and [stop] loses none); and everyone who waited for
    an address gets an exception. *)
Theorem stop_settles w :
  reachable w → mi_running (impl w) = true →
  ∃ w', mercury_stop_ w = (Ok tt, w') ∧ mi_peers (impl w') = ∅ ∧ mi_running (impl w') = false ∧
    in_flight w' = in_flight w ∧ leaked (library w') = leaked (library w) ∧
    (∀ r, held (ledger w') r = flight_owns (in_flight w) r + lost (library w) r) ∧
    ∀ p, waits_for_address w p → ∃ e, promises w' !! p = Some (Err e).
Proof.
  intros Hr Hrun. destruct (reachable_inv w Hr) as [Hi Ha]. pose proof (mercury_stop_wp w nothing Hi Ha) as Hw. unfold wp in Hw.
  pose proof (λ p, stop_answers w p Hi Ha Hrun) as Hans. destruct (mercury_stop_ w) as [[[]|e] w'] eqn:Hst; [|done].
  destruct Hw as (Hi' & _ & Hf & Hlib & Hp). destruct (Hp Hrun) as [Hpe Hr'].
  assert (∀ r, held (ledger w') r = flight_owns (in_flight w) r + lost (library w) r) as Hled.
  { intros r. rewrite <- (inv_balance _ _ Hi'). unfold owned, nothing. rewrite Hpe, msum_empty, Hf, Hlib. lia. }
  exists w'. split_and!; try done; [by rewrite Hlib|]. intros p Hwait. destruct (Hans p Hwait) as (w2 & e & [= <-] & He). by exists e.
Qed.

(** C20: a forward has one owner until it is answered.  When [forward] returns
    the future of a promise, then in every later state exactly one of three
    cases holds: the promise is fulfilled, and nobody waits for it any more;
    or it is open and its request waits for the address of the peer (there is
    no time-out then, but [stop] of the running shard fails it); or it is open
    and its request is under way with its timer armed, and the timer, when it
    fires, fails it. *)
Theorem forward_answered peer rpc payload w p w1 w2 :
  reachable w → forward peer rpc payload w = (Ok (PromiseFuture p), w1) → rtc step w1 w2 →
  (is_Some (promises w2 !! p) ∧ owned w2 (RPromise p) = 0 ∧ ¬ waits_for_address w2 p ∧ ¬ waits_for_reply w2 p) ∨
  (promises w2 !! p = None ∧ owned w2 (RPromise p) = 1 ∧ waits_for_address w2 p ∧ ¬ waits_for_reply w2 p ∧
   (mi_running (impl w2) = true → ∃ w3 e, mercury_stop_ w2 = (Ok tt, w3) ∧ promises w3 !! p = Some (Err e))) ∨
  (promises w2 !! p = None ∧ owned w2 (RPromise p) = 1 ∧ ¬ waits_for_address w2 p ∧ waits_for_reply w2 p ∧
   ∃ w3 e, timed_out p w2 = (Ok tt, w3) ∧ promises w3 !! p = Some (Err e)).
Proof.
  intros Hr Hf Hs. assert (reachable w2) as Hr2.
  { unfold reachable. etrans; [|exact Hs]. eapply rtc_r; [exact Hr|]. apply (step_op w w1 (OpForward peer rpc payload) (Ok tt)); [done| |done].
    cbn. unfold mbind, IO_bind. by rewrite Hf. }
  destruct (reachable_inv w2 Hr2) as [Hi2 Ha2]. pose proof (promise_owned w2 p Hi2) as Ho.
  assert (issued w2 p) as [Hin|Hdone].
  { refine (rtc_ind_r (λ x, issued x p) w1 (forward_issues _ _ _ _ _ _ Hf) _ w2 Hs). intros x y _ Hxy. by apply step_keeps. }
  - right. pose proof (held_open w2 p Hi2 Hin) as Hopen. rewrite decide_True in Ho by done.
    destruct (promise_owner w2 p Hi2 Hin) as [Hw|Hw]; [left|right].
    + split_and!; try done; [|by intros Hrun; apply stop_answers].
      destruct (address_held w2 p Hi2 Hw) as [Hnone _]. intros (s & Hsome & _). congruence.
    + split_and!; try done; [|by apply timed_out_answers].
      intros [Hnone _]%(address_held w2 p Hi2). destruct Hw as (s & Hsome & _). congruence.
  - left. destruct (inv_open _ _ Hi2 p Hdone) as [_ Hout]. rewrite decide_False in Ho by done. split_and!; try done.
    + by intros [_ ?]%(address_held w2 p Hi2).
    + by intros ?%(reply_held w2 p Hi2).
Qed.

(** The progress loop ends.  When [HG_Trigger] runs dry after finitely
    many calls, [progress_once] returns: what it did is a sequence of steps
    of the shard (callbacks that Mercury had ready), or one of the callbacks
    threw and that is its error. *)
Theorem progress_once_ends n fuel w :
  reachable w → drained n → n < fuel →
  match progress_once fuel w with
  | (Ok _, w') => rtc step w w'
  | (Err e, w') => ∃ w1 cb, rtc step w w1 ∧ run_callback cb w1 = (Err e, w')
  end.
Proof.
  intros Hr Hd Hn. unfold progress_once, ask_impl, mbind, IO_bind. cbn [id].
  destruct (mi_running (impl w)) eqn:H1; [|apply rtc_refl]. destruct (mi_hg_context (impl w)) eqn:H2; [|apply rtc_refl].
  cbn [negb orb].
  pose proof (progress_rounds_steps n fuel kMercuryProgressRounds false w Hd Hn (conj H1 H2)) as Hs.
  destruct (progress_rounds _ _ _ w) as [[b|e] w']; [by destruct Hs|done].
Qed.
End contract.

(** ** An instance *)

(** A library where what [create] says happens to [HG_Create], and where the
    callbacks are [ready]. *)
Definition next_handle (held : list Resource) : Z :=
  foldr (λ r acc, match r with RHandle z | RBulk z => Z.max (z + 1) acc | _ => acc end) 1%Z held.
Definition memory_hg (create : hg_return_t) (request : HgRequest) (ready : nat → list Callback) : Hg := {|
  HG_Init _ _ _ := true;
  HG_Context_create _ := true;
  HG_Register_name _ name := (1 + zlen name)%Z;
  HG_Register_data _ _ := HG_SUCCESS;
  HG_Registered_data _ _ := true;
  HG_Addr_lookup _ _ := HG_SUCCESS;
  HG_Create _ held _ _ := (create, next_handle held);
  HG_Reset _ _ _ _ := HG_SUCCESS;
  HG_Forward _ _ _ := HG_SUCCESS;
  HG_Respond _ _ _ := HG_SUCCESS;
  HG_Get_info _ _ := Some (1 + zlen (str "replica_append"))%Z;
  HG_Get_input _ _ := (HG_SUCCESS, request);
  HG_Get_output _ _ := (HG_SUCCESS, HgReply_init);
  HG_Bulk_create _ held _ := (HG_SUCCESS, next_handle held);
  HG_Bulk_transfer _ _ _ _ := HG_SUCCESS;
  HG_Progress _ := HG_OTHER 1;
  HG_Trigger n _ := (HG_SUCCESS, ready n);
|}.

Lemma next_handle_fresh held z : (RHandle z ∈ held ∨ RBulk z ∈ held) → (z < next_handle held)%Z.
Proof.
  unfold next_handle. induction held as [|r held IH]; [by intros [?%elem_of_nil|?%elem_of_nil]|]. rewrite !elem_of_cons. intros Hin. cbn.
  assert ((RHandle z ∈ held ∨ RBulk z ∈ held) ∨ r = RHandle z ∨ r = RBulk z) as [H|[-> | ->]] by naive_solver; [|lia|lia].
  specialize (IH H). destruct r; lia.
Qed.

Lemma next_handle_pos held : (1 <= next_handle held)%Z.
Proof. unfold next_handle. induction held as [|r held IH]; cbn; [lia|]. destruct r; lia. Qed.

#[local] Instance memory_hg_laws create request ready : @HgLaws (memory_hg create request ready).
Proof.
  split; cbn.
  - intros _ held _ _ h [= _ <-]. pose proof (next_handle_pos held). split; [unfold HG_NULL; lia|].
    intros Hin. pose proof (next_handle_fresh held _ (or_introl Hin)). lia.
  - intros _ held _ b [= <-]. pose proof (next_handle_pos held). split; [unfold HG_NULL; lia|].
    intros Hin. pose proof (next_handle_fresh held _ (or_intror Hin)). lia.
Qed.

Definition after {Hg0 : Hg} (op : Op) (w : Mercury) : Mercury := snd (run op w).
Lemma after_reachable {Hg0 : Hg} op w :
  reachable w → enabled w op → survives (fst (run op w)) → reachable (after op w).
Proof.
  intros Hr He Hs. eapply rtc_r; [exact Hr|]. apply (step_op w _ op (fst (run op w))); [done| |done].
  unfold after. by destruct (run op w).
Qed.

(** The handler that [register_mercury_rpcs] installs for "replica_append":
    it decodes the payload before it returns a future. *)
Definition replica_append_handler : RpcHandler := λ payload,
  match decode_replica_append payload with Ok _ => Ok tt | Err e => Err e end.

(** A shard that runs, with the handler registered and the forwards [l] made. *)
Definition started {Hg0 : Hg} (l : list bytes) : Mercury :=
  foldr (λ payload, after (OpForward (str "peer") (str "replica_append") payload))
    (after (OpRegister (str "replica_append") replica_append_handler) (after (OpStart (str "self") true) Mercury_init)) l.

Definition all_ok := memory_hg HG_SUCCESS (eager_request []) (λ _, []).
Definition no_create := memory_hg (HG_OTHER 1) (eager_request []) (λ _, []).

Lemma started_reachable (l : list bytes) create :
  l = [] ∨ l = [[Byte.x00]] ∨ l = [[Byte.x01]; [Byte.x00]] → create = HG_SUCCESS ∨ create = HG_OTHER 1 →
  @reachable (memory_hg create (eager_request []) (λ _, [])) (@started (memory_hg create (eager_request []) (λ _, [])) l).
Proof.
  intros Hl Hc. unfold started. destruct Hl as [->|[->| ->]], Hc as [->| ->]; cbn [foldr];
    repeat (apply after_reachable; [|done|vm_compute; exact I]); apply rtc_refl.
Qed.

(** The two exceptions are real.  With two forwards waiting for the same
    address and [HG_Create] failing, the lookup callback reads a peer that is
    gone; and a request whose payload "replica_append" cannot decode makes
    the handler throw through the Mercury callback. *)
Theorem mercury_faults :
  (let Hg0 := no_create in let w := started [[Byte.x01]; [Byte.x00]] in let op := OpCallback (LookupDone 1 HG_SUCCESS 9) in
   reachable w ∧ enabled w op ∧ fst (run op w) = Err dangling_peer) ∧
  (let Hg0 := all_ok in let w := started [] in let op := OpCallback (Dispatched 9) in
   reachable w ∧ enabled w op ∧ fst (run op w) = Err thrown_in_callback).
Proof.
  split; cbv zeta.
  - split; [apply (started_reachable [[Byte.x01]; [Byte.x00]]); auto|].
    split; [refine (conj _ _); vm_compute; reflexivity|vm_compute; reflexivity].
  - split; [apply (started_reachable []); auto|].
    split; [refine (conj _ _); vm_compute; reflexivity|vm_compute; reflexivity].
Qed.

(** The shard stops while a lookup is due; and is started again, with a
    second lookup of the same peer. *)
Definition orphaned {Hg0 : Hg} : Mercury := after OpStop (started [[Byte.x00]]).
Definition restarted {Hg0 : Hg} : Mercury :=
  after (OpForward (str "peer") (str "replica_append") [Byte.x00]) (after (OpStart (str "self") true) orphaned).

Lemma orphaned_reachable : @reachable all_ok (@orphaned all_ok).
Proof. apply after_reachable; [apply (started_reachable [[Byte.x00]]); auto|done|vm_compute; exact I]. Qed.

(** An address is lost: the callback of the lookup that [stop] orphaned ends
    without it, and nobody owns it. *)
Theorem orphan_address_leaked :
  let Hg0 := all_ok in let w := orphaned in let op := OpCallback (LookupDone 1 HG_SUCCESS 9) in let w' := after op w in
  reachable w ∧ enabled w op ∧ fst (run op w) = Ok tt ∧ RAddr 9 ∈ ledger w' ∧ owned w' (RAddr 9) = 0.
Proof.
  cbv zeta. split; [exact orphaned_reachable|]. split; [refine (conj _ _); vm_compute; reflexivity|].
  split; [vm_compute; reflexivity|]. split; [|vm_compute; reflexivity]. rewrite held_in. vm_compute. exact (le_n 1).
Qed.

(** The record of a lookup is freed before its callback: that of the earlier
    lookup takes the pending lookup of the peer for its own. *)
Theorem lookup_record_freed :
  let Hg0 := all_ok in let w := after (OpCallback (LookupDone 1 HG_SUCCESS 9)) restarted in
  let op := OpCallback (LookupDone 3 HG_SUCCESS 10) in
  reachable w ∧ enabled w op ∧ fst (run op w) = Err freed_lookup.
Proof.
  cbv zeta. split; [|split; [refine (conj _ _); vm_compute; reflexivity|vm_compute; reflexivity]].
  apply after_reachable; [|refine (conj _ _); vm_compute; reflexivity|vm_compute; exact I].
  do 2 (apply after_reachable; [|done|vm_compute; exact I]). exact orphaned_reachable.
Qed.

(** ** Witnesses *)

Lemma pair_of {A B} (p : A * B) a : fst p = a → p = (a, snd p).
Proof. destruct p. cbn. by intros ->. Qed.

Lemma all_ok_started : @reachable all_ok (@started all_ok []).
Proof. by apply (started_reachable []); auto. Qed.

(** A forward of a running shard, and the callback of an orphaned lookup. *)
Lemma mercury_resources_accounted_witness :
  let forwarded := snd (@run all_ok (OpForward (str "peer") (str "replica_append") [Byte.x00]) (@started all_ok [])) in
  let looked_up := snd (@run all_ok (OpCallback (LookupDone 1 HG_SUCCESS 9)) (@orphaned all_ok)) in
  accounted forwarded ∧ accounted looked_up ∧ leaked (library looked_up) = [9%Z].
Proof.
  cbv zeta. split; [|split].
  - refine (proj1 (@mercury_resources_accounted all_ok _ (@started all_ok []) (OpForward (str "peer") (str "replica_append") [Byte.x00])
      (Ok tt) _ all_ok_started I (pair_of _ _ _))). vm_compute. reflexivity.
  - refine (proj1 (@mercury_resources_accounted all_ok _ (@orphaned all_ok) (OpCallback (LookupDone 1 HG_SUCCESS 9))
      (Ok tt) _ orphaned_reachable (conj _ _) (pair_of _ _ _))); vm_compute; reflexivity.
  - vm_compute. reflexivity.
Defined.

(** One forward was answered, so that its handle is pooled. *)
Definition pooled : Mercury :=
  @after all_ok (OpCallback (ForwardDone 0 HG_SUCCESS))
    (@after all_ok (OpCallback (LookupDone 1 HG_SUCCESS 9)) (@started all_ok [[Byte.x00]])).

Lemma pooled_reachable : @reachable all_ok pooled.
Proof.
  unfold pooled. apply after_reachable; [apply after_reachable; [apply (started_reachable [[Byte.x00]]); auto| |]| |].
  all: try (vm_compute; exact I). all: refine (conj _ _); vm_compute; reflexivity.
Qed.

Lemma handle_pools_bounded_witness : length (hp_handles (mkHandlePool 15 [1%Z])) ≤ 128 ∧
  mi_peers (impl pooled) !! str "peer" = Some (mkPeerState 9 [mkHandlePool 15 [1%Z]] None).
Proof.
  assert (mi_peers (impl pooled) !! str "peer" = Some (mkPeerState 9 [mkHandlePool 15 [1%Z]] None)) as Hp by (vm_compute; reflexivity).
  split; [|exact Hp]. refine (proj1 (@handle_pools_bounded all_ok _ pooled (str "peer") _ _ pooled_reachable Hp _)). left.
Defined.

Lemma stop_settles_witness : ∃ w' e, @mercury_stop_ (@started all_ok [[Byte.x00]]) = (Ok tt, w') ∧ mi_peers (impl w') = ∅ ∧
  promises w' !! 0 = Some (Err e).
Proof.
  assert (@reachable all_ok (@started all_ok [[Byte.x00]])) as Hr by (apply (started_reachable [[Byte.x00]]); auto).
  destruct (@stop_settles all_ok _ (@started all_ok [[Byte.x00]]) Hr) as (w' & H1 & H2 & _ & _ & _ & _ & H3); [vm_compute; reflexivity|].
  destruct (H3 0) as [e He]; [|exists w', e; exact (conj H1 (conj H2 He))].
  eexists (str "peer"), _, _, _. split; [vm_compute; reflexivity|]. split; [reflexivity|]. split; [apply list_elem_of_here|reflexivity].
Defined.

Lemma forward_answered_witness :
  let w1 := snd (@forward all_ok (str "peer") (str "replica_append") [Byte.x00] (@started all_ok [])) in
  promises w1 !! 0 = None ∧ waits_for_address w1 0.
Proof.
  cbv zeta. assert (fst (@forward all_ok (str "peer") (str "replica_append") [Byte.x00] (@started all_ok [])) = Ok (PromiseFuture 0)) as Hf
    by (vm_compute; reflexivity).
  destruct (@forward_answered all_ok _ (str "peer") (str "replica_append") [Byte.x00] (@started all_ok []) 0 _ _
    all_ok_started (pair_of _ _ Hf) (rtc_refl _ _)) as [([v Hv] & _)|[(H1 & _ & H2 & _)|(_ & _ & _ & (s & Hs & _) & _)]].
  - vm_compute in Hv. discriminate Hv.
  - exact (conj H1 H2).
  - vm_compute in Hs. discriminate Hs.
Defined.

Lemma progress_once_ends_witness :
  rtc (@step all_ok) (@started all_ok []) (snd (@progress_once all_ok 1 (@started all_ok []))).
Proof.
  pose proof (@progress_once_ends all_ok 0 1 (@started all_ok []) all_ok_started (λ k _, eq_refl) (le_n 1)) as H.
  assert (fst (@progress_once all_ok 1 (@started all_ok [])) = Ok false) as E by (vm_compute; reflexivity).
  rewrite (pair_of _ _ E) in H. exact H.
Defined.
