(* ===== verification/MercuryNetwork.v ===== *)
(** * Shards that call each other

    Composes Mercury shards (MercuryShard.v) into a network: what one shard
    forwards, the shard at that address may get as a request, and what it
    responds may come back.  Between the two is Mercury, of which the steps
    of the network assume what its documentation says ([carries]): a request
    goes to the shard whose name was looked up for the address that the
    caller's handle was created or reset for, with the id of the RPC that it
    was created or reset for; the input and the output of a call are what the
    other side has encoded with the [proc] callbacks of MercuryProc.v, a pull
    reads the memory that the descriptor names, and a callback belongs to the
    handle of its operation.
    Mercury may lose a message, fail a call or let it time out at any time.

    The theorem: whatever the order of calls, callbacks, time-outs, restarts
    and failures, the value that a promise gets is the answer that the
    handler of the RPC gave, on the shard the call was for, to the payload of
    this call. *)

From Stdlib Require Import ZArith Lia.
From stdpp Require Import base tactics numbers option fin_maps gmap functions list.
From S2P Require Import Prelude Storage MercuryProc MercuryShard MercuryRep MercuryKeeps MercuryClient.
From S2P Require Import MercurySafety MercuryFlow MercuryContract.

Local Open Scope Z_scope.

(** ** The network *)

(** Where a forward is: on its way, at handle [handle] of a shard, with its
    reply on the way back, or nowhere any more. *)
Inductive Stage :=
  | Sent
  | Serving (server : nat) (handle : Z)
  | Answered (reply : HgReply)
  | Lost.

(** [stage i p]: the forward of promise [p] of shard [i].  [calls i p]: peer,
    RPC and payload of the call that promise [p] was given out for. *)
Record Network := mkNetwork {
  node : nat → Mercury;
  stage : nat → nat → Stage;
  calls : nat → nat → option (cstring * cstring * bytes);
}.
Definition Network_init : Network := mkNetwork (λ _, Mercury_init) (λ _ _, Sent) (λ _ _, None).

(** The reply that [HG_Respond] took for handle [h]. *)
Definition reply_sent (w w' : Mercury) (h : Z) : option HgReply :=
  match List.find (λ e, ss_handle (snd e) =? h) (map_to_list (responding (in_flight w') ∖ responding (in_flight w))) with
  | Some (_, s) => Some (mkHgReply (ss_status s) (hg_bytes (ss_response s)))
  | None => None
  end.

(** After a step of shard [i] from [w] to [w']: a request that it has
    responded to is answered, one whose handle it has destroyed is lost, and
    so is a forward of its own that is over. *)
Definition settle (i : nat) (w w' : Mercury) (stages : nat → nat → Stage) (j p : nat) : Stage :=
  match stages j p with
  | Sent => Sent
  | Lost => Lost
  | s =>
      if bool_decide (j = i ∧ forwarding (in_flight w') !! p = None) then Lost
      else match s with
      | Serving k h =>
          if bool_decide (k = i) then
            match reply_sent w w' h with
            | Some reply => Answered reply
            | None => if bool_decide (RHandle h ∈ ledger w') then Serving k h else Lost
            end
          else s
      | _ => s
      end
  end.

Definition survived {A} (r : result A) : Prop := match r with Ok _ => True | Err e => defined e end.

Section network.
Context `{ProcLaws : HgProcLaws}.

(** [address_of i]: where shard [i] listens.  [hg_id]: the id of a name, a
    hash of it; [named]: the RPCs of the system, whose ids are distinct.
    [served i rpc payload fut]: the handler of [rpc] on shard [i], called with
    [payload], may come to [fut]. *)
Context (address_of : nat → cstring) (hg_id : cstring → Z) (named : cstring → Prop).
Context (served : nat → cstring → bytes → result bytes → Prop).
Hypothesis hg_id_inj : ∀ name name', named name → named name' → hg_id name = hg_id name' → name = name'.
Hypothesis hg_id_valid : ∀ name, named name → hg_id name ≠ 0.
Hypothesis served_size : ∀ i rpc payload response, served i rpc payload (Ok response) → in_u 64 (zlen response).

(** [out] was decoded from an encoding of [v]. *)
Definition received {A} (f : A → hg_proc_t → hg_return_t * A * hg_proc_t) (v out : A) : Prop :=
  ∃ enc enc' dec dec' old v' code rest,
    hg_proc_get_op enc = HG_ENCODE ∧ f v enc = (HG_SUCCESS, v', enc') ∧ stream enc' = stream enc ++ code ∧
    hg_proc_get_op dec = HG_DECODE ∧ stream dec = code ++ rest ∧ f old dec = (HG_SUCCESS, out, dec').

(** What holds of the library in any case. *)
Record sound (Hg0 : Hg) : Prop := mkSound {
  sound_laws : HgLaws;
  sound_id : ∀ n name, HG_Register_name n name = 0 ∨ HG_Register_name n name = hg_id name;
  sound_bulk : ∀ n held size b, HG_Bulk_create n held size = (HG_SUCCESS, b) → in_u 64 b;
}.

(** What it gives shard [i] of the calls under way. *)
Record carries (Hg0 : Hg) (nodes : nat → Mercury) (stages : nat → nat → Stage) (i : nat) : Prop := mkCarries {
  carries_info : ∀ n h id, HG_Get_info n h = Some id →
    ∃ j p s, stages j p = Serving i h ∧ forwarding (in_flight (nodes j)) !! p = Some s ∧
      ∃ to, bound (library (nodes j)) !! cs_handle s = Some (to, id);
  carries_input : ∀ n h input, HG_Get_input n h = (HG_SUCCESS, input) →
    ∃ j p s, stages j p = Serving i h ∧ forwarding (in_flight (nodes j)) !! p = Some s ∧
      received proc_hg_request (cs_input s) input;
  carries_output : ∀ n h out, HG_Get_output n h = (HG_SUCCESS, out) →
    ∃ p s reply, forwarding (in_flight (nodes i)) !! p = Some s ∧ cs_handle s = h ∧ stages i p = Answered reply ∧
      received proc_hg_reply reply out;
}.

(** What holds of an operation when it happens. *)
Definition delivers (N : Network) (i : nat) (op : Op) : Prop :=
  match op with
  | OpStart address _ => address = address_of i
  | OpRegister name _ => named name
  | OpForward _ _ _ => False
  | OpHandlerDone k fut => ∀ c, handling (in_flight (node N i)) !! k = Some c →
      served i (ss_rpc (hc_state c)) (hc_payload c) fut
  | OpCallback (Dispatched _) => False
  | OpCallback (ForwardDone p HG_SUCCESS) => ∃ reply, stage N i p = Answered reply
  | OpCallback (PullDone k HG_SUCCESS data) => ∀ s j p, pulling (in_flight (node N i)) !! k = Some s →
      stage N j p = Serving i (ss_handle s) → ∃ p0 s0, forwarding (in_flight (node N j)) !! p0 = Some s0 ∧
        cs_origin_bulk s0 = hq_bulk_handle (ss_input s) ∧ data = cs_request s0
  | _ => True
  end.

Inductive net_step (N N' : Network) : Prop :=
  | net_op i op (Hg0 : Hg) r w' :
      sound Hg0 → carries Hg0 (node N) (stage N) i → delivers N i op → enabled (node N i) op →
      run op (node N i) = (r, w') → survived r →
      N' = mkNetwork (<[i := w']> (node N)) (settle i (node N i) w' (stage N)) (calls N) → net_step N N'
  | net_forward i peer rpc payload (Hg0 : Hg) r w' :
      sound Hg0 → carries Hg0 (node N) (stage N) i → named rpc → in_u 64 (zlen payload) →
      forward peer rpc payload (node N i) = (r, w') → survived r →
      N' = mkNetwork (<[i := w']> (node N)) (settle i (node N i) w' (stage N))
        match r with
        | Ok (PromiseFuture p) => <[i := <[p := Some (peer, rpc, payload)]> (calls N i)]> (calls N)
        | _ => calls N
        end → net_step N N'
  | net_dispatch i h j p s id stages (Hg0 : Hg) r w' :
      forwarding (in_flight (node N j)) !! p = Some s → stage N j p = Sent →
      bound (library (node N j)) !! cs_handle s = Some (Some (address_of i), id) →
      stages = <[j := <[p := Serving i h]> (stage N j)]> (stage N) →
      sound Hg0 → carries Hg0 (node N) stages i → enabled (node N i) (OpCallback (Dispatched h)) →
      run (OpCallback (Dispatched h)) (node N i) = (r, w') → survived r →
      N' = mkNetwork (<[i := w']> (node N)) (settle i (node N i) w' stages) (calls N) → net_step N N'.

Definition net_reachable (N : Network) : Prop := rtc net_step Network_init N.

(** ** The invariant *)

Abbreviation Calls := (nat → nat → option (cstring * cstring * bytes)).
Abbreviation forwards w := (forwarding (in_flight w)).

(** The answer to a call. *)
Definition answer_to (cl : Calls) (i p : nat) (r : bytes) : Prop :=
  ∃ j rpc payload, cl i p = Some (address_of j, rpc, payload) ∧ served j rpc payload (Ok r).
Definition reply_to (cl : Calls) (i p : nat) (reply : HgReply) : Prop :=
  ∃ status response, reply = mkHgReply status (hg_bytes response) ∧ in_s 32 status ∧ in_u 64 (zlen response) ∧
    (status = 0 → answer_to cl i p response).

(** A client state holds the call of its promise. *)
Definition bulk_call (c : ClientCall) : Prop :=
  cc_origin_bulk c ≠ HG_NULL ∧ in_u 64 (cc_origin_bulk c) ∧
  cc_input c = bulk_request (zlen (cc_request c)) (cc_origin_bulk c).
Definition client_call (cl : Calls) (i : nat) (c : ClientCall) : Prop :=
  ∃ rpc, cl i (cc_promise c) = Some (cc_peer c, rpc, cc_request c) ∧ named rpc ∧ (cc_rpc_id c = 0 ∨ cc_rpc_id c = hg_id rpc) ∧
    in_u 64 (zlen (cc_request c)) ∧ (cc_input c = eager_request (cc_request c) ∨ bulk_call c).

(** What shard [i] does for a call: it pulls its payload, runs the handler
    on it, or has just replied. *)
Definition has_handler (w : Mercury) (name : cstring) : Prop :=
  ∃ e, mi_rpcs_by_name (impl w) !! name = Some e ∧ is_Some (re_handler e).
Definition pull_call (nodes : nat → Mercury) (stages : nat → nat → Stage) (cl : Calls) (i : nat) (s : ServerRpcState) : Prop :=
  ss_response s = [] ∧ has_handler (nodes i) (ss_rpc s) ∧
  ∀ j p c, stages j p = Serving i (ss_handle s) → forwards (nodes j) !! p = Some c →
    cl j p = Some (address_of i, ss_rpc s, cs_request c) ∧ bulk_call (call_of c) ∧ ss_input s = cs_input c ∧
    length (ss_request s) = length (cs_request c).
Definition handler_call (stages : nat → nat → Stage) (cl : Calls) (i : nat) (c : HandlerCall) : Prop :=
  ∀ j p, stages j p = Serving i (ss_handle (hc_state c)) → cl j p = Some (address_of i, ss_rpc (hc_state c), hc_payload c).
Definition new_reply (stages : nat → nat → Stage) (cl : Calls) (i : nat) (s : ServerRpcState) : Prop :=
  ∀ j p, stages j p = Serving i (ss_handle s) → reply_to cl j p (mkHgReply (ss_status s) (hg_bytes (ss_response s))).

Definition node_good nodes stages cl (i : nat) : Prop :=
  good hg_id (has_handler (nodes i)) 0 (client_call cl i) (λ _, pull_call nodes stages cl i) (λ _, handler_call stages cl i)
    (λ _ _, True) (answer_to cl i) (nodes i).

(** A forward that was delivered is still there, and its reply is one. *)
Definition live (nodes : nat → Mercury) (stages : nat → nat → Stage) (cl : Calls) : Prop :=
  ∀ j p, match stages j p with
  | Serving i h => ∃ s, forwards (nodes j) !! p = Some s ∧ cs_peer s = address_of i
  | Answered reply => is_Some (forwards (nodes j) !! p) ∧ reply_to cl j p reply
  | _ => True
  end.
Definition one_each (stages : nat → nat → Stage) : Prop :=
  ∀ i h j p j' p', stages j p = Serving i h → stages j' p' = Serving i h → j = j' ∧ p = p'.

Record net_inv (nodes : nat → Mercury) (stages : nat → nat → Stage) (cl : Calls) : Prop := mkNetInv {
  net_nodes : ∀ i, inv (nodes i) nothing ∧ alive (nodes i);
  net_good : ∀ i, node_good nodes stages cl i;
  net_live : live nodes stages cl;
  net_unique : one_each stages;
  net_handles : ∀ j p i h, stages j p = Serving i h → RHandle h ∈ ledger (nodes i);
  net_named : ∀ i name, has_handler (nodes i) name → named name;
  net_calls : ∀ i p, cl i p ≠ None → (p < fresh (nodes i))%nat;
}.

Lemma received_same {A} (f : A → hg_proc_t → hg_return_t * A * hg_proc_t) v out :
  transfers f v → received f v out → out = v.
Proof.
  intros (code & Henc & Hdec) (enc & enc' & dec & dec' & old & v' & code' & rest & He & Hf & Hs & Hd & Hs' & Hf').
  destruct (Henc enc He) as (enc2 & Hf2 & _ & Hs2). rewrite Hf in Hf2. simplify_eq. rewrite Hs in Hs2.
  apply (inj (app _)) in Hs2 as ->. destruct (Hdec old dec rest Hd Hs') as (dec2 & Hf3 & _). rewrite Hf' in Hf3. by simplify_eq.
Qed.

Lemma client_input_same cl i c input : client_call cl i c → received proc_hg_request (cc_input c) input → input = cc_input c.
Proof.
  intros (rpc & _ & _ & _ & Hsz & Hin). apply received_same.
  destruct (envelope_roundtrip (cc_request c) Hsz) as (He & Hb & _).
  destruct Hin as [->|(_ & Hu & ->)]; [done|by apply Hb].
Qed.

Lemma reply_same cl i p reply out : reply_to cl i p reply → received proc_hg_reply reply out → out = reply.
Proof.
  intros (status & response & -> & Hst & Hsz & _). apply received_same.
  by apply (envelope_roundtrip response Hsz).
Qed.

(** ** Steps of one shard *)

Section step.
Context (nodes : nat → Mercury) (stages : nat → nat → Stage) (cl : Calls) (i : nat) (w' : Mercury).
Abbreviation w := (nodes i).
Abbreviation nodes' := (<[i := w']> nodes).
Abbreviation stages' := (settle i w w' stages).

(** What the records of shard [i] satisfy during a step: a forward that was
    under way stays what it is. *)
Definition kept (c : ClientCall) : Prop :=
  client_call cl i c ∧ ∀ s, forwards w !! cc_promise c = Some s → call_of s = c.
Definition step_good (K : cstring → Prop) (n : nat) : Mercury → Prop :=
  good hg_id K n kept (λ _, pull_call nodes stages cl i) (λ _, handler_call stages cl i)
    (λ k s, responding (in_flight w) !! k = Some s ∨ new_reply stages cl i s) (answer_to cl i).

Lemma settle_serving j p k h : stages' j p = Serving k h →
  stages j p = Serving k h ∧ (j = i → is_Some (forwards w' !! p)) ∧ (k = i → RHandle h ∈ ledger w').
Proof.
  unfold settle. destruct (stages j p) as [|k0 h0|reply|]; try done; case_bool_decide as Hf; try done.
  assert (j = i → is_Some (forwards w' !! p)) as Hfw.
  { intros ->. destruct (forwards w' !! p) eqn:E; [by eexists|]. by destruct Hf. }
  case_bool_decide as Hk; [destruct (reply_sent w w' h0); [done|case_bool_decide; [|done]]|]; intros [= <- <-]; done.
Qed.

Lemma settle_answered j p reply : stages' j p = Answered reply →
  (j = i → is_Some (forwards w' !! p)) ∧
  (stages j p = Answered reply ∨ ∃ h, stages j p = Serving i h ∧ reply_sent w w' h = Some reply).
Proof.
  unfold settle. destruct (stages j p) as [|k0 h0|reply0|]; try done; case_bool_decide as Hf; try done.
  all: assert (j = i → is_Some (forwards w' !! p)) as Hfw
    by (intros ->; destruct (forwards w' !! p) eqn:E; [by eexists|]; by destruct Hf).
  - case_bool_decide as Hk; [|done]. destruct (reply_sent w w' h0) eqn:E; [|by case_bool_decide]. intros [= ->]. subst k0.
    split; [done|]. right. by exists h0.
  - intros [= ->]. split; [done|by left].
Qed.

Lemma node_at j : nodes' j = if decide (j = i) then w' else nodes j.
Proof. unfold insert, fn_insert. by repeat case_decide; simplify_eq. Qed.

Hypothesis Hlive : live nodes stages cl.
Context (K : cstring → Prop) (n : nat).
Hypothesis Hgood : step_good K n w'.

(** A delivered forward of [nodes'] was one of [nodes], with the same call. *)
Lemma forward_before j p k h s' : stages j p = Serving k h → forwards (nodes' j) !! p = Some s' →
  ∃ s, forwards (nodes j) !! p = Some s ∧ call_of s = call_of s'.
Proof.
  intros Hst. pose proof (Hlive j p) as Hl. rewrite Hst in Hl. destruct Hl as (s & Hs & _). rewrite node_at. case_decide as Hj; intros Hs'.
  - subst j. exists s. split; [done|]. destruct (good_forwarding _ _ _ _ _ _ _ _ _ Hgood p s' Hs') as [Hp [_ Hk]]. apply Hk.
    cbn. by rewrite Hp.
  - exists s. split; [done|]. congruence.
Qed.

Lemma pull_call_step k s :
  (∀ name, has_handler (nodes k) name → has_handler (nodes' k) name) →
  pull_call nodes stages cl k s → pull_call nodes' stages' cl k s.
Proof.
  intros Hh (Hr & Hk & Hc). split_and!; [done|by apply Hh|]. intros j p c' Hst Hc'. apply settle_serving in Hst as (Hst & _).
  destruct (forward_before j p _ _ c' Hst Hc') as (c & Hc0 & Heq). destruct (Hc j p c Hst Hc0) as (H1 & H2 & H3 & H4).
  rewrite Heq in H2. injection (Heq : mkClientCall _ _ _ _ _ _ = mkClientCall _ _ _ _ _ _) as _ _ _ Hreq Hin _. rewrite <- Hreq, <- Hin. done.
Qed.

Lemma handler_call_step k c : handler_call stages cl k c → handler_call stages' cl k c.
Proof. intros Hc j p (Hst & _)%settle_serving. by apply Hc. Qed.

Lemma new_reply_step j p h reply :
  stages j p = Serving i h → reply_sent w w' h = Some reply → reply_to cl j p reply.
Proof.
  intros Hst. unfold reply_sent. destruct (List.find _ _) as [[k s]|] eqn:E; [|done]. intros [= <-].
  apply List.find_some in E as [Hin Hh%Z.eqb_eq]. cbn in Hh. apply list_elem_of_In, elem_of_map_to_list in Hin.
  apply lookup_difference_Some in Hin as [Hs Hold].
  destruct (good_responding _ _ _ _ _ _ _ _ _ Hgood k s Hs) as [Ho|Hn]; [congruence|]. apply Hn. by rewrite Hh.
Qed.

Lemma live_step : live nodes' stages' cl.
Proof.
  intros j p. destruct (stages' j p) as [|k h|reply|] eqn:E; try done.
  - apply settle_serving in E as (Hst & Hj & _). pose proof (Hlive j p) as Hl. rewrite Hst in Hl. destruct Hl as (s & Hs & Hp).
    assert (is_Some (forwards (nodes' j) !! p)) as [s' Hs'].
    { rewrite node_at. case_decide as Hji; [by apply Hj|by exists s]. }
    exists s'. split; [done|]. destruct (forward_before j p k h s' Hst Hs') as (s0 & Hs0 & Heq). simplify_eq.
    congruence.
  - apply settle_answered in E as [Hj Hst].
    assert (is_Some (forwards (nodes j) !! p) ∧ reply_to cl j p reply) as [Hs Hr].
    { pose proof (Hlive j p) as Hl. destruct Hst as [Hst|(h & Hst & Hre)]; rewrite Hst in Hl; [done|].
      destruct Hl as (s & Hs & _). split; [by exists s|]. by eapply new_reply_step. }
    split; [|done]. rewrite node_at. case_decide; [by apply Hj|done].
Qed.

(** The invariant after the step. *)
Lemma step_inv_net :
  (∀ j, inv (nodes j) nothing ∧ alive (nodes j)) → inv w' nothing ∧ alive w' →
  (∀ j, j ≠ i → node_good nodes stages cl j) → (∀ name, K name ↔ has_handler w' name) →
  (∀ name, has_handler w name → K name) → (∀ j name, has_handler (nodes j) name → named name) → (∀ name, K name → named name) → one_each stages →
  (∀ j p k h, k ≠ i → stages j p = Serving k h → RHandle h ∈ ledger (nodes k)) →
  (∀ j p, cl j p ≠ None → (p < fresh (nodes' j))%nat) →
  net_inv nodes' stages' cl.
Proof.
  intros Hinv Hinv' Hothers HK HK' Hna HKn Hun Hhand Hcalls. split.
  - intros j. rewrite node_at. case_decide; [done|apply Hinv].
  - intros j. unfold node_good. destruct (decide (j = i)) as [->|Hj].
    + eapply good_mono; [replace (nodes' i) with w'; [exact Hgood|]|..]; rewrite ?node_at, ?decide_True by done.
      * done.
      * intros name. by rewrite HK.
      * lia.
      * by intros c [Hc _].
      * intros k s _. apply pull_call_step. intros name Hn. rewrite node_at, decide_True by done. by apply HK, HK'.
      * intros k c _. apply handler_call_step.
      * done.
      * done.
    + eapply good_mono; [replace (nodes' j) with (nodes j); [exact (Hothers j Hj)|]|..]; rewrite ?node_at, ?decide_False by done; try done.
      * lia.
      * intros k s _. apply pull_call_step. by rewrite node_at, decide_False.
      * intros k c _. apply handler_call_step.
  - apply live_step.
  - intros k h j p j' p' (H1 & _)%settle_serving (H2 & _)%settle_serving. by eapply Hun.
  - intros j p k h (Hst & _ & Hl)%settle_serving. rewrite node_at. case_decide as Hk; [by apply Hl|]. by eapply Hhand.
  - intros j name. rewrite node_at. case_decide; [|apply Hna]. intros Hn. by apply HKn, HK.
  - done.
Qed.
End step.

(** ** Lemmas *)

(** No two forwards own the same. *)
Lemma forward_owner w p p' s s' r :
  inv w nothing → forwards w !! p = Some s → forwards w !! p' = Some s' → (1 ≤ client_owns s r)%nat → (1 ≤ client_owns s' r)%nat →
  p = p'.
Proof.
  intros Hi Hs Hs' Ho Ho'. destruct (decide (p = p')) as [|Hne]; [done|exfalso].
  pose proof (inv_balance _ _ Hi r) as Hb. pose proof (inv_once _ _ Hi r). unfold owned, flight_owns in Hb.
  rewrite (msum_delete client_owns _ _ _ _ Hs) in Hb.
  rewrite (msum_delete client_owns (delete p (forwards w)) p' s') in Hb by (by rewrite lookup_delete_ne). lia.
Qed.

Lemma forward_handle w p p' s s' :
  inv w nothing → forwards w !! p = Some s → forwards w !! p' = Some s' → cs_handle s = cs_handle s' → p = p'.
Proof.
  intros Hi Hs Hs' Hh. destruct (inv_forwarding _ _ Hi p s Hs) as (_ & _ & Hne & _).
  apply (forward_owner w p p' s s' (RHandle (cs_handle s))); [done..| |]; unfold client_owns, at_most; rewrite <- ?Hh.
  all: rewrite (proj2 (Z.eqb_neq _ _) Hne), one_refl; lia.
Qed.

Lemma forward_bulk w p p' s s' :
  inv w nothing → forwards w !! p = Some s → forwards w !! p' = Some s' → cs_origin_bulk s ≠ HG_NULL →
  cs_origin_bulk s = cs_origin_bulk s' → p = p'.
Proof.
  intros Hi Hs Hs' Hne Hb.
  apply (forward_owner w p p' s s' (RBulk (cs_origin_bulk s))); [done..| |]; unfold client_owns, at_most; rewrite <- ?Hb.
  all: rewrite (proj2 (Z.eqb_neq _ _) Hne), one_refl; lia.
Qed.

Lemma good_has_handler K n P PP PH PR (Q : nat → bytes → Prop) w name :
  good hg_id K n P PP PH PR Q w → (K name ↔ has_handler w name).
Proof.
  intros Hg. split.
  - intros Hk. destruct (good_handlers _ _ _ _ _ _ _ _ _ Hg name Hk) as [e He]. exists e. split; [done|].
    by apply (good_entries _ _ _ _ _ _ _ _ _ Hg name e He).
  - intros (e & He & Hh). by apply (good_entries _ _ _ _ _ _ _ _ _ Hg name e He).
Qed.

(** A step of shard [i] starts from a good state. *)
Lemma step_good_start nodes stages cl i :
  inv (nodes i) nothing → node_good nodes stages cl i →
  step_good nodes stages cl i (has_handler (nodes i)) (fresh (nodes i)) (nodes i).
Proof.
  intros Hi [Hp Ho Hf Hpu Hh Hr Hpr He Hk Hid Hn].
  assert (∀ s, waits_for_address (nodes i) (cs_promise s) → client_call cl i (call_of s) → kept nodes cl i (call_of s)) as Hwait.
  { intros s Hw Hc. split; [done|]. intros s' Hs'. destruct (address_held _ _ Hi Hw) as [Hnone _]. cbn in Hs'. congruence. }
  split; try done.
  - intros k p Ep l El s Hs. apply Hwait; [by exists k, p, l, s|]. by apply (Hp k p Ep l El s Hs).
  - eapply Forall_impl; [exact (inv_orphans _ _ Hi)|]. intros l (_ & Hl & _) s Hs. rewrite Hl in Hs. by apply elem_of_nil in Hs.
  - intros p s Hs. destruct (Hf p s Hs) as [Hps Hc]. split; [done|]. split; [done|]. intros s' Hs'. cbn in Hs'. congruence.
  - intros k s Hs. by left.
Qed.

(** Replies that report a failure say nothing. *)
Lemma failure_reply nodes stages cl i h :
  failure_good (λ k s, responding (in_flight (nodes i)) !! k = Some s ∨ new_reply stages cl i s) h.
Proof.
  intros k s Hh Hr Hst. right. intros j p _. exists (-1), []. rewrite Hst, Hr. split_and!; try done; by vm_compute.
Qed.

Section operations.
Context (N : Network) (i : nat) {Hg0 : Hg} (Hsound : sound Hg0).
Hypothesis Hinv : net_inv (node N) (stage N) (calls N).
Abbreviation w := (node N i).
Abbreviation start K := (step_good (node N) (stage N) (calls N) i K (fresh w)).

Lemma started_good : start (has_handler w) w.
Proof. apply step_good_start; apply Hinv. Qed.

Lemma forward_cb_good p ret :
  carries Hg0 (node N) (stage N) i → start (has_handler w) (snd (forward_cb p ret w)).
Proof.
  intros Hc. eapply (safe_from_end hg_id), safe_forward_cb; [exact started_good|].
  intros _ s Hs n out Hout Hst; destruct (carries_output _ _ _ _ Hc _ _ _ Hout) as (p' & s' & reply & Hs' & Hh & Hans & Hrec).
  assert (p' = p) as -> by (by eapply (forward_handle w); [apply Hinv|..]).
  pose proof (net_live _ _ _ Hinv i p) as Hl; rewrite Hans in Hl; destruct Hl as [_ Hr].
  apply (reply_same _ _ _ _ _ Hr) in Hrec; subst out; destruct Hr as (status & response & -> & _ & _ & Ha); cbn in Hst |- *.
  rewrite bytes_of_hg_bytes, (proj1 (good_forwarding _ _ _ _ _ _ _ _ _ started_good p s Hs)); auto.
Qed.

Lemma handler_done_good k fut :
  (∀ c, handling (in_flight w) !! k = Some c → served i (ss_rpc (hc_state c)) (hc_payload c) fut) →
  start (has_handler w) (snd (handler_done k fut w)).
Proof.
  intros Hserved. eapply (safe_from_end hg_id), safe_handler_done; [exact started_good|].
  intros c Hc; split; [apply failure_reply|].
  intros k' s response -> Hh Hr Hst; right; intros j p Hsv; rewrite Hh in Hsv.
  pose proof (good_handling _ _ _ _ _ _ _ _ _ started_good k c Hc j p Hsv) as Hcall; specialize (Hserved c Hc).
  exists 0, response; rewrite Hst, Hr; split_and!; [done|by vm_compute|by eapply served_size|].
  intros _; by exists i, (ss_rpc (hc_state c)), (hc_payload c).
Qed.

Lemma pulled_all n (data : bytes) : n = length data → pulled n data = data.
Proof. intros ->. unfold pulled. apply take_app_length. Qed.

Lemma bulk_pull_good k ret data :
  (ret = HG_SUCCESS → delivers N i (OpCallback (PullDone k HG_SUCCESS data))) →
  start (has_handler w) (snd (bulk_pull_cb k ret data w)).
Proof.
  intros Hd. eapply (safe_from_end hg_id), safe_bulk_pull_cb; [exact started_good|].
  intros s Hs; destruct (good_pulling _ _ _ _ _ _ _ _ _ started_good k s Hs) as (Hr & Hk & Hcall).
  split_and!; [done|done|apply failure_reply|].
  intros -> k' c Hh Hrpc Hpay j p Hsv; rewrite Hh in Hsv.
  pose proof (net_live _ _ _ Hinv j p) as Hl; rewrite Hsv in Hl; destruct Hl as (cs & Hcs & _).
  destruct (Hcall j p cs Hsv Hcs) as (Hcl & (Hne & _ & Hin) & Hss & Hlen).
  destruct (Hd eq_refl s j p Hs Hsv) as (p0 & s0 & Hs0 & Hb & ->).
  assert (p = p0) as <- by (eapply (forward_bulk (node N j) p p0 cs s0); [apply Hinv|done|done|done|];
    cbn in Hin; by rewrite Hb, Hss, Hin).
  assert (s0 = cs) as -> by congruence; by rewrite Hpay, Hrpc, pulled_all.
Qed.

Lemma op_good op :
  carries Hg0 (node N) (stage N) i → delivers N i op →
  ∃ K, (∀ name, has_handler w name → K name) ∧ (∀ name, K name → named name) ∧ start K (snd (run op w)).
Proof.
  intros Hc Hd. pose proof (sound_id _ Hsound) as Hid. pose proof started_good as Hg. pose proof (net_named _ _ _ Hinv i) as Hna.
  destruct op as [address listen| |name handler|peer rpc payload|p|k fut|cb|]; cbn [run].
  3: { exists (λ x, has_handler w x ∨ x = name). split_and!; [by left|intros x [Hx| ->]; [by apply Hna|done]|]. by apply good_register. }
  all: exists (has_handler w); split_and!; [done|done|].
  - by eapply (safe_end hg_id); [apply safe_start|].
  - by eapply (safe_end hg_id); [apply safe_stop|].
  - done.
  - by eapply (safe_end hg_id); [apply safe_timed_out|].
  - by apply handler_done_good.
  - destruct cb as [raw ret addr|p ret|h|k ret data|k]; cbn [callback].
    + by eapply (safe_end hg_id); [apply safe_lookup_cb|].
    + by apply forward_cb_good.
    + done.
    + apply bulk_pull_good. intros ->. exact Hd.
    + by eapply (safe_end hg_id); [apply safe_respond_cb|].
  - by eapply (safe_end hg_id); [apply safe_hg|].
Qed.

(** What follows for the network. *)
Lemma op_step op r w' :
  carries Hg0 (node N) (stage N) i → delivers N i op → enabled w op → run op w = (r, w') → survives r →
  net_inv (<[i := w']> (node N)) (settle i w w' (stage N)) (calls N).
Proof.
  intros Hc Hd He Hrun Hs. destruct (op_good op Hc Hd) as (K & HK & HKn & Hg). rewrite Hrun in Hg. cbn [snd] in Hg.
  pose proof (sound_laws _ Hsound) as Laws.
  apply (step_inv_net _ _ _ _ _ (net_live _ _ _ Hinv) K (fresh w) Hg); try apply Hinv.
  - eapply step_inv; [by econstructor|apply Hinv].
  - intros j _. apply Hinv.
  - intros name. eapply good_has_handler. exact Hg.
  - done.
  - done.
  - intros j p k h _. apply Hinv.
  - intros j p Hp%(net_calls _ _ _ Hinv). rewrite node_at. case_decide as Hj; [subst j|done].
    pose proof (good_fresh _ _ _ _ _ _ _ _ _ Hg). lia.
Qed.
End operations.

(** ** A request arrives *)

(** A server state holds its handle. *)
Lemma pulling_handle w k s : inv w nothing → pulling (in_flight w) !! k = Some s → RHandle (ss_handle s) ∈ ledger w.
Proof.
  intros Hi Hs. destruct (inv_pulling _ _ Hi k s Hs) as (_ & Hh & _). apply held_in. rewrite <- (inv_balance _ _ Hi).
  unfold owned, flight_owns. rewrite (msum_delete server_owns _ _ _ _ Hs). unfold server_owns at 1, at_most.
  rewrite (proj2 (Z.eqb_neq _ _) Hh), one_refl. lia.
Qed.
Lemma handling_handle w k c : inv w nothing → handling (in_flight w) !! k = Some c → RHandle (ss_handle (hc_state c)) ∈ ledger w.
Proof.
  intros Hi Hc. destruct (inv_handling _ _ Hi k c Hc) as (_ & Hset). apply held_in. rewrite <- (inv_balance _ _ Hi).
  unfold owned, flight_owns. rewrite (msum_delete call_owns _ _ _ _ Hc). unfold call_owns at 1.
  rewrite settled_owns, one_refl by done. lia.
Qed.

Section arrival.
Context (nodes : nat → Mercury) (stages : nat → nat → Stage) (cl : Calls) (i j p : nat) (h : Z) (s : ClientRpcState).
Hypothesis Hinv : net_inv nodes stages cl.
Hypothesis Hsent : stages j p = Sent.
Hypothesis Hs : forwards (nodes j) !! p = Some s.
Hypothesis Hpeer : cs_peer s = address_of i.
Hypothesis Hfresh : RHandle h ∉ ledger (nodes i).
Abbreviation arrived := (<[j := <[p := Serving i h]> (stages j)]> stages).

Lemma arrived_at j' p' : arrived j' p' = if decide (j' = j ∧ p' = p) then Serving i h else stages j' p'.
Proof. unfold insert, fn_insert. repeat case_decide; naive_solver. Qed.

(** [h] was not the handle of another call. *)
Lemma arrived_serving j' p' k h' : arrived j' p' = Serving k h' →
  (j' = j ∧ p' = p ∧ k = i ∧ h' = h) ∨ (stages j' p' = Serving k h' ∧ ¬ (k = i ∧ h' = h)).
Proof.
  rewrite arrived_at. case_decide as Hd; [intros [= <- <-]; left; naive_solver|]. intros Hst. right. split; [done|].
  intros [-> ->]. by apply Hfresh, (net_handles _ _ _ Hinv j' p').
Qed.

Lemma arrived_live : live nodes arrived cl.
Proof.
  intros j' p'. rewrite arrived_at. case_decide as Hd; [|apply Hinv]. destruct Hd as [-> ->]. by exists s.
Qed.
Lemma arrived_one : one_each arrived.
Proof.
  intros k h' j1 p1 j2 p2 H1%arrived_serving H2%arrived_serving.
  destruct H1 as [?|[H1 ?]], H2 as [?|[H2 ?]]; [naive_solver|naive_solver|naive_solver|]. by eapply (net_unique _ _ _ Hinv).
Qed.

Lemma arrived_good k : node_good nodes arrived cl k.
Proof.
  destruct (net_nodes _ _ _ Hinv k) as [Hi _].
  eapply good_mono; [exact (net_good _ _ _ Hinv k)|done|lia|done| | |done|done].
  - intros n st Hst (Hr & Hk & Hc). split_and!; [done|done|]. intros j' p' c [(_ & _ & -> & Hh)|[Hold _]]%arrived_serving; [|by apply Hc].
    exfalso. apply Hfresh. rewrite <- Hh. by eapply pulling_handle.
  - intros n c Hc Hcall j' p' [(_ & _ & -> & Hh)|[Hold _]]%arrived_serving; [|by apply Hcall].
    exfalso. apply Hfresh. rewrite <- Hh. by eapply handling_handle.
Qed.

(** What Mercury has for [h] is the request of [s]. *)
Lemma arrived_request {Hg0 : Hg} :
  carries Hg0 nodes arrived i →
  request_good hg_id (has_handler (nodes i)) (λ _, pull_call nodes arrived cl i) (λ _, handler_call arrived cl i)
    (λ k s, responding (in_flight (nodes i)) !! k = Some s ∨ new_reply arrived cl i s) h.
Proof.
  intros Hc n id n' input name Hinfo Hin Hid Hk. split; [apply failure_reply|].
  assert (∀ j' p' s', arrived j' p' = Serving i h → forwards (nodes j') !! p' = Some s' → j' = j ∧ p' = p ∧ s' = s) as Honly.
  { intros j' p' s' [(-> & -> & _)|[_ Hno]]%arrived_serving Hs'; [|by destruct Hno]. split_and!; try done. congruence. }
  destruct (carries_info _ _ _ _ Hc _ _ _ Hinfo) as (j1 & p1 & s1 & Hst1 & Hs1 & to & Hbd).
  destruct (Honly j1 p1 s1 Hst1 Hs1) as (-> & -> & ->).
  pose proof (inv_bound _ _ (proj1 (net_nodes _ _ _ Hinv j)) p s Hs) as Hown. unfold bound_to in Hown.
  assert (id = cs_rpc_id s) as -> by congruence. clear Hbd Hown.
  destruct (carries_input _ _ _ _ Hc _ _ _ Hin) as (j2 & p2 & s2 & Hst2 & Hs2 & Hrec).
  destruct (Honly j2 p2 s2 Hst2 Hs2) as (-> & -> & ->).
  destruct (good_forwarding _ _ _ _ _ _ _ _ _ (net_good _ _ _ Hinv j) p s Hs) as [Hp Hcall].
  apply (client_input_same _ _ _ _ Hcall) in Hrec. cbn in Hrec. subst input.
  destruct Hcall as (rpc & Hcl & Hrn & Hrid & _ & Hreq). pose proof (net_named _ _ _ Hinv i name Hk) as Hnn. cbn in Hcl, Hrid, Hreq. rewrite Hp, Hpeer in Hcl.
  assert (rpc = name) as -> by (destruct Hrid as [H0|Hr]; [destruct (hg_id_valid name); congruence|apply hg_id_inj; [done..|congruence]]).
  split.
  - intros Hm k c Hh Hrpc Hpay j' p' Hst. rewrite Hh in Hst. apply arrived_serving in Hst as [(-> & -> & _)|[_ Hno]]; [|by destruct Hno].
    rewrite Hrpc, Hpay, Hcl. destruct Hreq as [->|(_ & _ & Hb)]; [cbn [hq_eager eager_request]; by rewrite bytes_of_hg_bytes|]. cbn in Hb. by rewrite Hb in Hm.
  - intros Hm k st Hh Hrpc Hinp Hbuf Hresp. split_and!; [done|by rewrite Hrpc|]. intros j' p' c Hst Hc'. rewrite Hh in Hst.
    destruct (Honly j' p' c Hst Hc') as (-> & -> & ->). destruct Hreq as [Hb|Hb]; [by rewrite Hb in Hm|].
    split_and!; [by rewrite Hrpc|done|done|]. destruct Hb as (_ & _ & Hb). cbn in Hb.
    rewrite Hbuf, Hb. unfold fresh_buffer. cbn. rewrite length_replicate. unfold zlen. lia.
Qed.

Lemma arrival_step {Hg0 : Hg} r w' :
  sound Hg0 → carries Hg0 nodes arrived i → enabled (nodes i) (OpCallback (Dispatched h)) →
  run (OpCallback (Dispatched h)) (nodes i) = (r, w') → survives r →
  net_inv (<[i := w']> nodes) (settle i (nodes i) w' arrived) cl.
Proof.
  intros Hsound Hc He Hrun Hsv. pose proof (sound_laws _ Hsound) as Laws. pose proof (sound_id _ Hsound) as Hid.
  assert (step_good nodes arrived cl i (has_handler (nodes i)) (fresh (nodes i)) w') as Hg.
  { replace w' with (snd (run (OpCallback (Dispatched h)) (nodes i))) by (by rewrite Hrun).
    apply (safe_end hg_id _ _ _ _ _ _ _ _ _ (λ _, True));
      [|exact (step_good_start _ _ _ _ (proj1 (net_nodes _ _ _ Hinv i)) (arrived_good i))].
    cbn. eapply safe_bind; [by apply safe_dispatch_cb, arrived_request|]. intros _ _. by apply safe_ret. }
  apply (step_inv_net _ _ _ _ _ arrived_live _ (fresh (nodes i)) Hg).
  - apply Hinv.
  - eapply step_inv; [by econstructor|apply Hinv].
  - intros k _. apply arrived_good.
  - intros name. eapply good_has_handler. exact Hg.
  - done.
  - apply Hinv.
  - apply Hinv.
  - apply arrived_one.
  - intros j' p' k h' Hk [(_ & _ & -> & _)|[Hold _]]%arrived_serving; [done|]. by eapply (net_handles _ _ _ Hinv).
  - intros j' p' Hp%(net_calls _ _ _ Hinv). rewrite node_at. case_decide as Hj; [subst j'|done].
    pose proof (good_fresh _ _ _ _ _ _ _ _ _ Hg). lia.
Qed.
End arrival.

(** ** A call is made *)

Section forwarding.
Context {Hg0 : Hg} (Hsound : sound Hg0).
Context (K : cstring → Prop) (n : nat) (P : ClientCall → Prop) (PP : nat → ServerRpcState → Prop)
  (PH : nat → HandlerCall → Prop) (PR : nat → ServerRpcState → Prop) (Q : nat → bytes → Prop).
Abbreviation good_ := (good hg_id K n P PP PH PR Q).
Abbreviation safe_ := (safe hg_id K n P PP PH PR Q).

Lemma wp_safe {A} E (m : Mercury_ A) R Ψ w :
  wp E m R w → safe_ m Ψ → good_ w → wp (λ e w', E e w' ∧ good_ w') m (λ a w', R a w' ∧ good_ w' ∧ Ψ a) w.
Proof. unfold wp. intros Hm Hs Hg. specialize (Hs w Hg). by destruct (m w) as [[a|e] w']. Qed.

(** A step that does not throw, then the rest. *)
Lemma wp_safe_seq {A B} E (m : Mercury_ A) (k : A → Mercury_ B) R Ψ S w :
  wp never m R w → safe_ m Ψ → good_ w → (∀ a w', R a w' → good_ w' → Ψ a → wp E (k a) S w') → wp E (m ≫= k) S w.
Proof.
  intros Hm Hs Hg Hk. apply wp_bind. pose proof (wp_safe never m R Ψ w Hm Hs Hg) as Hw. unfold wp at 1. unfold wp at 1 in Hw.
  destruct (m w) as [[a|e] w']; [|by destruct Hw]. destruct Hw as (? & ? & ?). by apply Hk.
Qed.

(** The client state that [forward] makes. *)
Definition new_client (peer rpc : cstring) (payload : bytes) (p : nat) (s : ClientRpcState) : Prop :=
  ∃ rpc_id input bulk, s = mkClientRpcState p false HG_NULL HG_NULL rpc_id peer payload input bulk false false false ∧
    (rpc_id = 0 ∨ rpc_id = hg_id rpc) ∧ (input = eager_request payload ∨ bulk_call (call_of s)).

Lemma forward_from peer rpc payload w :
  inv w nothing → good_ w →
  wp (λ _ w', good_ w') (forward peer rpc payload) (λ fut w', match fut with
    | PromiseFuture p => ∃ s w1, new_client peer rpc payload p s ∧ (n ≤ p < fresh w1)%nat ∧ good_ w1 ∧
        forward_to_peer s w1 = (Ok tt, w')
    | _ => good_ w'
    end) w.
Proof.
  intros Hi Hg. pose proof (sound_laws _ Hsound) as Laws. pose proof (sound_id _ Hsound) as Hid.
  unfold forward, ask_impl. apply wp_bind. unfold wp at 1. cbn [id]. case_bool_decide.
  { pose proof (safe_forward_local hg_id K n P PP PH PR Q rpc payload w Hg) as Hs. unfold wp.
    destruct (forward_local rpc payload w) as [[fut|e] w']; [|done]. destruct Hs as [Hg' Hf]. by destruct fut. }
  destruct (_ || _); [by apply wp_ret|]. apply wp_bind.
  eapply wp_mono; [eapply wp_catchless; [exact (wp_safe _ _ _ _ w (forward_rpc_id_wp rpc w nothing Hi) (safe_forward_rpc_id hg_id Hid _ _ _ _ _ _ _ rpc) Hg)|]|].
  { by intros e w' [_ Hg']. }
  intros rpc_id w1 (Hi1 & Hg1 & Hrid). eapply wp_safe_seq; [exact (mbump_wp _ _ _ _ Hi1)|apply safe_mbump|done|]. intros _ w2 [Hi2 _] Hg2 _.
  eapply wp_safe_seq; [by apply forward_input_wp|apply safe_forward_input|done|].
  intros [[ret bulk] input] w3 Hi3 Hg3 Hin. cbv beta iota in Hi3, Hin |- *. case_ret ret.
  2: { eapply wp_safe_seq; [exact (mbump_wp _ _ _ _ Hi3)|apply safe_mbump|done|]. intros _ w4 _ Hg4 _. by apply wp_ret. }
  eapply wp_safe_seq; [exact (next_id_wp _ _ Hi3)|apply safe_next_id|done|]. intros p w4 (-> & Hi4 & Hf4 & _ & Hl4 & Hn4 & _ & Hpr4) Hg4 Hnp.
  eapply wp_safe_seq; [apply (acquire_wp (RPromise (fresh w3)) w4 _ Hi4)|apply safe_acquire|done|].
  - rewrite Hl4. intros Hp. apply (inv_valid _ _ Hi3) in Hp. cbn in Hp. lia.
  - cbn. lia.
  - intros p [= <-]. by apply (fresh_promise w3 w4 _ Hi3).
  - intros _ w5 [Hi5 (_ & _ & Hn5 & _)] Hg5 _. set (s := mkClientRpcState _ _ _ _ _ _ _ _ _ _ _ _).
    assert (inv w5 (λ r, client_owns s r + nothing r)%nat) as Hi6.
    { eapply inv_ext; [exact Hi5|]. intros r. unfold client_owns, nothing, at_most. cbn. lia. }
    pose proof (forward_to_peer_wp s w5 nothing Hi6 ltac:(done)) as Hw. unfold wp in Hw. apply wp_bind. unfold wp at 1.
    destruct (forward_to_peer s w5) as [[[]|e'] w6] eqn:Hfw; [|done]. apply wp_ret.
    exists s, w5. split_and!; [|done|rewrite Hn5, Hn4; lia|done|done].
    exists rpc_id, input, bulk. split_and!; [done|done|]. destruct (Hin e) as [->|[-> (k & held & Hb)]]; [by left|right].
    destruct (bulk_create_fresh _ _ _ _ Hb) as [Hne _]. split_and!; [done|by eapply (sound_bulk _ Hsound)|done].
Qed.
End forwarding.

(** More calls. *)
Section more.
Context (cl cl' : Calls) (Hle : ∀ j p x, cl j p = Some x → cl' j p = Some x).

Lemma answer_to_more i p r : answer_to cl i p r → answer_to cl' i p r.
Proof. intros (j & rpc & payload & Hc & Hs). exists j, rpc, payload. auto. Qed.
Lemma reply_to_more i p reply : reply_to cl i p reply → reply_to cl' i p reply.
Proof. intros (st & resp & -> & ? & ? & Ha). exists st, resp. split_and!; try done. intros Hst. by apply answer_to_more, Ha. Qed.
Lemma client_call_more i c : client_call cl i c → client_call cl' i c.
Proof. intros (rpc & Hc & ?). exists rpc. auto. Qed.
Lemma pull_call_more nodes stages i s : pull_call nodes stages cl i s → pull_call nodes stages cl' i s.
Proof.
  intros (? & ? & Hc). split_and!; try done. intros j p c Hst Hs. destruct (Hc j p c Hst Hs) as (? & ? & ? & ?).
  split_and!; auto.
Qed.
Lemma handler_call_more stages i c : handler_call stages cl i c → handler_call stages cl' i c.
Proof. intros Hc j p Hst. auto. Qed.
Lemma new_reply_more stages i s : new_reply stages cl i s → new_reply stages cl' i s.
Proof. intros Hc j p Hst. by apply reply_to_more, Hc. Qed.
Lemma live_more nodes stages : live nodes stages cl → live nodes stages cl'.
Proof.
  intros Hl j p. specialize (Hl j p). destruct (stages j p); try done. destruct Hl. split; [done|]. by apply reply_to_more.
Qed.
Lemma node_good_more nodes stages i : node_good nodes stages cl i → node_good nodes stages cl' i.
Proof.
  intros Hg. eapply good_mono; [exact Hg|done|lia|apply client_call_more|..]; try done.
  - intros k s _. apply pull_call_more.
  - intros k c _. apply handler_call_more.
  - intros p r _. apply answer_to_more.
Qed.
Lemma step_good_more nodes stages i K n n' w :
  step_good nodes stages cl i K n w → (n' ≤ fresh w)%nat → step_good nodes stages cl' i K n' w.
Proof.
  intros Hg Hn. eapply good_mono; [exact Hg|done|done|..].
  - intros c [Hc Hk]. split; [by apply client_call_more|done].
  - intros k s _. apply pull_call_more.
  - intros k c _. apply handler_call_more.
  - intros k s _ [Ho|Hr]; [by left|right; by apply new_reply_more].
  - intros p r _. apply answer_to_more.
Qed.
End more.

(** The invariant after a step of shard [i] that may have made a call. *)
Lemma extend_step N i K n w' cl :
  net_inv (node N) (stage N) (calls N) → inv w' nothing ∧ alive w' → (∀ name, K name ↔ has_handler (node N i) name) →
  (∀ j p x, calls N j p = Some x → cl j p = Some x) → (∀ j p, calls N j p = None → cl j p ≠ None → j = i ∧ (p < n)%nat) →
  (fresh (node N i) ≤ n)%nat → step_good (node N) (stage N) cl i K n w' →
  net_inv (<[i := w']> (node N)) (settle i (node N i) w' (stage N)) cl.
Proof.
  intros Hinv Hi' HK Hle Hnew Hn Hg. pose proof (good_fresh _ _ _ _ _ _ _ _ _ Hg) as Hfr.
  apply (step_inv_net _ _ _ _ _ (live_more _ _ Hle _ _ (net_live _ _ _ Hinv)) K n Hg); try apply Hinv; try done.
  - intros j _. eapply node_good_more; [exact Hle|apply Hinv].
  - intros name. eapply good_has_handler. exact Hg.
  - intros name. apply HK.
  - intros name Hk. by apply (net_named _ _ _ Hinv i), HK.
  - intros j p k h _. apply Hinv.
  - intros j p Hp. rewrite node_at. destruct (calls N j p) as [x|] eqn:Hc.
    + pose proof (net_calls _ _ _ Hinv j p ltac:(by rewrite Hc)). case_decide as Hj; [subst j; lia|done].
    + destruct (Hnew j p Hc Hp) as [-> ?]. case_decide; [lia|done].
Qed.

(** The new client state, under the calls with its own. *)
Lemma new_client_kept N i peer rpc payload p s :
  net_inv (node N) (stage N) (calls N) → named rpc → in_u 64 (zlen payload) → new_client peer rpc payload p s → (fresh (node N i) ≤ p)%nat →
  kept (node N) (<[i := <[p := Some (peer, rpc, payload)]> (calls N i)]> (calls N)) i (call_of s).
Proof.
  intros Hinv Hnam Hsz (rpc_id & input & bulk & -> & Hid & Hin) Hp. split.
  - exists rpc. cbn. rewrite !fn_lookup_insert. split_and!; try done.
  - intros s Hs. cbn in Hs. destruct (net_nodes _ _ _ Hinv i) as [Hi _]. destruct (inv_forwarding _ _ Hi p s Hs). lia.
Qed.

Lemma forward_step N i {Hg0 : Hg} peer rpc payload r w' :
  net_inv (node N) (stage N) (calls N) → sound Hg0 → named rpc → in_u 64 (zlen payload) →
  forward peer rpc payload (node N i) = (r, w') → survived r →
  net_inv (<[i := w']> (node N)) (settle i (node N i) w' (stage N))
    match r with
    | Ok (PromiseFuture p) => <[i := <[p := Some (peer, rpc, payload)]> (calls N i)]> (calls N)
    | _ => calls N
    end.
Proof.
  intros Hinv Hsound Hnam Hsz Hf Hsv. pose proof (sound_laws _ Hsound) as Laws.
  destruct (net_nodes _ _ _ Hinv i) as [Hi Ha].
  assert (inv w' nothing ∧ alive w') as Hi'.
  { eapply step_inv; [|exact (conj Hi Ha)].
    apply (step_op _ w' (OpForward peer rpc payload) (match r with Ok _ => Ok tt | Err e => Err e end)); [done| |by destruct r].
    cbn. unfold mbind, IO_bind. rewrite Hf. by destruct r. }
  pose proof (forward_from Hsound _ _ _ _ _ _ _ peer rpc payload _ Hi (step_good_start _ _ _ _ Hi (net_good _ _ _ Hinv i))) as Hw.
  unfold wp in Hw. rewrite Hf in Hw.
  assert (step_good (node N) (stage N) (calls N) i (has_handler (node N i)) (fresh (node N i)) w' →
    net_inv (<[i := w']> (node N)) (settle i (node N i) w' (stage N)) (calls N)) as Hsame.
  { intros Hg. eapply extend_step; [done..| | |exact Hg]; [by intros j p ->|done]. }
  destruct r as [[e|name pl|p]|e]; [by apply Hsame..| |by apply Hsame].
  destruct Hw as (s & w1 & Hnew & Hp & Hg1 & Hfw). set (cl := <[i := _]> (calls N)).
  assert (∀ j q, cl j q = if decide (j = i ∧ q = p) then Some (peer, rpc, payload) else calls N j q) as Hcl.
  { intros j q. unfold cl, insert, fn_insert. repeat case_decide; naive_solver. }
  assert (∀ j q x, calls N j q = Some x → cl j q = Some x) as Hle.
  { intros j q x Hx. rewrite Hcl. case_decide as Hd; [|done]. destruct Hd as [-> ->].
    pose proof (net_calls _ _ _ Hinv i p ltac:(by rewrite Hx)). lia. }
  apply (extend_step N i (has_handler (node N i)) (S p)); try done; [|lia|].
  - intros j q Hq. rewrite Hcl. case_decide as Hd; [|done]. destruct Hd as [-> ->]. split; [done|lia].
  - pose proof (step_good_more (calls N) cl Hle _ _ _ _ _ (S p) _ Hg1 ltac:(lia)) as Hg2.
    replace w' with (snd (forward_to_peer s w1)) by (by rewrite Hfw).
    eapply (safe_end hg_id); [|exact Hg2]. apply safe_forward_to_peer. eapply new_client_kept; [done..|lia].
Qed.

(** ** The theorem *)

Lemma net_init : net_inv (node Network_init) (stage Network_init) (calls Network_init).
Proof.
  split; try done.
  - intros i. apply inv_init.
  - intros i. split; try done; try apply map_Forall_empty; try constructor. intros name (e & He & _). by cbn in He; rewrite lookup_empty in He.
  - intros i name (e & He & _). by cbn in He; rewrite lookup_empty in He.
Qed.

Lemma enabled_dispatch w h : enabled w (OpCallback (Dispatched h)) → RHandle h ∉ ledger w.
Proof. intros (_ & Hok). by apply bool_decide_eq_true in Hok as [_ ?]. Qed.

Lemma net_step_inv N N' : net_step N N' → net_inv (node N) (stage N) (calls N) → net_inv (node N') (stage N') (calls N').
Proof.
  intros [i op Hg0 r w' Hsound Hc Hd He Hrun Hs ->|i peer rpc payload Hg0 r w' Hsound Hc Hnam Hsz Hf Hs ->
    |i h j p s id stages Hg0 r w' Hfw Hst Hto -> Hsound Hc He Hrun Hs ->] Hinv; cbn [node stage calls].
  - by apply (op_step N i Hsound Hinv op r w').
  - by apply (forward_step N i (Hg0 := Hg0)).
  - apply enabled_dispatch in He as Hfr. pose proof (inv_bound _ _ (proj1 (net_nodes _ _ _ Hinv j)) p s Hfw) as Hown.
    unfold bound_to in Hown. assert (cs_peer s = address_of i) as Hp by congruence. by eapply (arrival_step _ _ _ i j p h s).
Qed.

Lemma net_reachable_inv N : net_reachable N → net_inv (node N) (stage N) (calls N).
Proof.
  intros Hr. refine (rtc_ind_r (λ N, net_inv (node N) (stage N) (calls N)) Network_init net_init _ N Hr).
  intros x y _ Hs. by apply net_step_inv.
Qed.

(** C6: replies belong to their calls.  In a network of shards where calls,
    lookups, requests, bulk pulls, handlers, replies, time-outs, failures,
    stops and restarts of all shards interleave in any order, with pooled
    handles used again and again, and where Mercury routes a request by what
    its handle was created or reset for: when a promise that [forward] gave out is
    fulfilled with a value, then the shard at the address that this call was
    for has run the handler of the RPC that it names, on exactly the payload
    that was given to [forward], and the value is what this handler returned.
    And whenever a handler runs for a call under way, it runs on the payload
    of that call. *)
Theorem rpc_answers_match N i p :
  net_reachable N →
  (∀ r, promises (node N i) !! p = Some (Ok r) →
     ∃ j rpc payload, calls N i p = Some (address_of j, rpc, payload) ∧ served j rpc payload (Ok r)) ∧
  (∀ j h k c, stage N i p = Serving j h → handling (in_flight (node N j)) !! k = Some c → ss_handle (hc_state c) = h →
     calls N i p = Some (address_of j, ss_rpc (hc_state c), hc_payload c)).
Proof.
  intros Hr%net_reachable_inv. split.
  - apply (good_promises _ _ _ _ _ _ _ _ _ (net_good _ _ _ Hr i) p).
  - intros j h k c Hst Hc <-. exact (good_handling _ _ _ _ _ _ _ _ _ (net_good _ _ _ Hr j) k c Hc i p Hst).
Qed.
End network.

(** ** A network of two shards *)

Definition two_addresses (i : nat) : cstring := match i with O => str "client" | _ => str "server" end.
Definition name_id (name : cstring) : Z := Z.pos (encode name).
Definition echo_only (name : cstring) : Prop := name = str "echo".
Definition echoes (i : nat) (rpc : cstring) (payload : bytes) (fut : result bytes) : Prop :=
  fut = Ok payload ∧ in_u 64 (zlen payload).

(** A library that has [request] (its handle, the id of the RPC, the input)
    and [reply] (its handle, the output) for the shard. *)
Definition wire_hg (request : option (Z * Z * HgRequest)) (reply : option (Z * HgReply)) : Hg := {|
  HG_Init _ _ _ := true;
  HG_Context_create _ := true;
  HG_Register_name _ name := name_id name;
  HG_Register_data _ _ := HG_SUCCESS;
  HG_Registered_data _ _ := true;
  HG_Addr_lookup _ _ := HG_SUCCESS;
  HG_Create _ held _ _ := (HG_SUCCESS, next_handle held);
  HG_Reset _ _ _ _ := HG_SUCCESS;
  HG_Forward _ _ _ := HG_SUCCESS;
  HG_Respond _ _ _ := HG_SUCCESS;
  HG_Get_info _ h := match request with Some (h0, id, _) => if h =? h0 then Some id else None | None => None end;
  HG_Get_input _ h := match request with
    | Some (h0, _, input) => if h =? h0 then (HG_SUCCESS, input) else (HG_OTHER 1, HgRequest_init)
    | None => (HG_OTHER 1, HgRequest_init)
    end;
  HG_Get_output _ h := match reply with
    | Some (h0, out) => if h =? h0 then (HG_SUCCESS, out) else (HG_OTHER 1, HgReply_init)
    | None => (HG_OTHER 1, HgReply_init)
    end;
  HG_Bulk_create _ held _ := (if next_handle held <? 2 ^ 64 then HG_SUCCESS else HG_OTHER 1, next_handle held);
  HG_Bulk_transfer _ _ _ _ := HG_SUCCESS;
  HG_Progress _ := HG_OTHER 1;
  HG_Trigger _ _ := (HG_SUCCESS, []);
|}.

Lemma wire_hg_sound request reply : sound name_id (wire_hg request reply).
Proof.
  split.
  - split; cbn.
    + intros _ held _ _ h [= <-]. pose proof (next_handle_pos held). split; [unfold HG_NULL; lia|].
      intros Hin. pose proof (next_handle_fresh held _ (or_introl Hin)). lia.
    + intros _ held _ b. destruct (_ <? _); [intros [= <-]|done]. pose proof (next_handle_pos held). split; [unfold HG_NULL; lia|].
      intros Hin. pose proof (next_handle_fresh held _ (or_intror Hin)). lia.
  - by right.
  - cbn. intros _ held _ b. destruct (Z.ltb_spec (next_handle held) (2 ^ 64)); [intros [= <-]|done].
    pose proof (next_handle_pos held). unfold in_u. lia.
Qed.

#[local] Existing Instance memory_proc.
#[local] Existing Instance memory_proc_laws.

Lemma memory_received {A} (f : A → hg_proc_t → hg_return_t * A * hg_proc_t) v : transfers f v → received f v v.
Proof.
  intros (code & Henc & Hdec). destruct (Henc (HG_ENCODE, []) eq_refl) as (enc' & E1 & _ & S1).
  destruct (Hdec v (HG_DECODE, code ++ []) [] eq_refl eq_refl) as (dec' & E2 & _ & _).
  exists (HG_ENCODE, []), enc', (HG_DECODE, code ++ []), dec', v, v, code, []. by split_and!.
Qed.

(** A step that is an operation, and the network after it. *)
Definition after_op (Hg0 : Hg) (i : nat) (op : Op) (stages : nat → nat → Stage) (N : Network) : Network :=
  let w' := snd (run op (node N i)) in
  mkNetwork (<[i := w']> (node N)) (settle i (node N i) w' stages) (calls N).
Abbreviation two_step := (net_step two_addresses name_id echo_only echoes).
Abbreviation quiet := (wire_hg None None).

Lemma quiet_carries N i : carries quiet (node N) (stage N) i.
Proof. by split. Qed.

Lemma quiet_step i op N :
  delivers two_addresses echo_only echoes N i op → @enabled (node N i) op → survived (fst (@run quiet op (node N i))) →
  two_step N (after_op quiet i op (stage N) N).
Proof.
  intros Hd He Hs. eapply (net_op _ _ _ _ _ _ i op quiet _ (snd (@run quiet op (node N i))));
    [apply wire_hg_sound|apply quiet_carries|done|done|by apply pair_of|done|done].
Qed.

Lemma two_id_inj name name' : echo_only name → echo_only name' → name_id name = name_id name' → name = name'.
Proof. by intros -> ->. Qed.
Lemma two_id_valid name : echo_only name → name_id name ≠ 0.
Proof. done. Qed.
Lemma echoes_size i rpc payload response : echoes i rpc payload (Ok response) → in_u 64 (zlen response).
Proof. intros [[= ->] ?]. done. Qed.

(** Both shards run, and shard 1 has a handler. *)
Definition ready_pair : Network :=
  let N1 := after_op quiet 0 (OpStart (str "client") true) (stage Network_init) Network_init in
  let N2 := after_op quiet 1 (OpStart (str "server") true) (stage N1) N1 in
  after_op quiet 1 (OpRegister (str "echo") (λ _, Ok tt)) (stage N2) N2.

Abbreviation two_reachable := (net_reachable two_addresses name_id echo_only echoes).

Lemma ready_pair_reachable : two_reachable ready_pair.
Proof.
  unfold ready_pair. cbv zeta. do 3 (eapply rtc_r; [|apply quiet_step; [done|done|vm_compute; exact I]]). apply rtc_refl.
Qed.

(** Shard 0 calls shard 1 with [payload] and finds its address; the request
    arrives at handle 5, and is pulled when it is large; the handler echoes
    it; and the reply comes back. *)
Section exchange.
Context (payload : bytes).

Definition called : Network :=
  let w' := snd (@forward quiet (str "server") (str "echo") payload (node ready_pair 0)) in
  mkNetwork (<[0%nat := w']> (node ready_pair)) (settle 0 (node ready_pair 0) w' (stage ready_pair))
    (<[0%nat := <[0%nat := Some (str "server", str "echo", payload)]> (calls ready_pair 0)]> (calls ready_pair)).
Definition found : Network := after_op quiet 0 (OpCallback (LookupDone 1 HG_SUCCESS 9)) (stage called) called.
Definition request_of (s : ClientRpcState) : Hg := wire_hg (Some (5, cs_rpc_id s, cs_input s)) None.
Definition arrives (s : ClientRpcState) : Network :=
  after_op (request_of s) 1 (OpCallback (Dispatched 5)) (<[0%nat := <[0%nat := Serving 1 5]> (stage found 0)]> (stage found)) found.
Definition pulls (N : Network) : Network := after_op quiet 1 (OpCallback (PullDone 0 HG_SUCCESS payload)) (stage N) N.
Definition echoed (k : nat) (N : Network) : Network := after_op quiet 1 (OpHandlerDone k (Ok payload)) (stage N) N.
Definition reply_of (s : ClientRpcState) : Hg := wire_hg None (Some (cs_handle s, mkHgReply 0 (hg_bytes payload))).
Definition returns (s : ClientRpcState) (N : Network) : Network :=
  after_op (reply_of s) 0 (OpCallback (ForwardDone 0 HG_SUCCESS)) (stage N) N.

Lemma found_reachable :
  in_u 64 (zlen payload) → fst (@forward quiet (str "server") (str "echo") payload (node ready_pair 0)) = Ok (PromiseFuture 0) →
  @enabled (node called 0) (OpCallback (LookupDone 1 HG_SUCCESS 9)) →
  survived (fst (@run quiet (OpCallback (LookupDone 1 HG_SUCCESS 9)) (node called 0))) → two_reachable found.
Proof.
  intros Hsz Hf He Hs. eapply rtc_r; [|by apply quiet_step]. eapply rtc_r; [exact ready_pair_reachable|].
  eapply (net_forward _ _ _ _ _ _ 0%nat (str "server") (str "echo") payload quiet (Ok (PromiseFuture 0)));
    [apply wire_hg_sound|apply quiet_carries|done|done|by apply pair_of|done|done].
Qed.

Lemma arrives_reachable s :
  two_reachable found → forwarding (in_flight (node found 0)) !! 0%nat = Some s → stage found 0 0 = Sent →
  bound (library (node found 0)) !! cs_handle s = Some (Some (str "server"), cs_rpc_id s) →
  transfers proc_hg_request (cs_input s) →
  enabled (node found 1) (OpCallback (Dispatched 5)) →
  survived (fst (@run (request_of s) (OpCallback (Dispatched 5)) (node found 1))) → two_reachable (arrives s).
Proof.
  intros Hr Hs Hst Hp Ht He Hsv. eapply rtc_r; [exact Hr|].
  eapply (net_dispatch _ _ _ _ _ _ 1%nat 5 0%nat 0%nat s (cs_rpc_id s) _ (request_of s));
    [exact Hs|exact Hst|exact Hp|done|apply wire_hg_sound| |exact He|by apply pair_of|exact Hsv|done].
  split; [intros n h id E|intros n h input E|done]; cbn in E; destruct (Z.eqb_spec h 5) as [->|]; simplify_eq.
  - exists 0%nat, 0%nat, s. split_and!; try done. by eexists.
  - exists 0%nat, 0%nat, s. split_and!; try done. by apply memory_received.
Qed.

Lemma returns_reachable s N :
  two_reachable N → forwarding (in_flight (node N 0)) !! 0%nat = Some s → stage N 0 0 = Answered (mkHgReply 0 (hg_bytes payload)) →
  in_u 64 (zlen payload) → enabled (node N 0) (OpCallback (ForwardDone 0 HG_SUCCESS)) →
  survived (fst (@run (reply_of s) (OpCallback (ForwardDone 0 HG_SUCCESS)) (node N 0))) → two_reachable (returns s N).
Proof.
  intros Hr Hs Hst Hsz He Hsv. eapply rtc_r; [exact Hr|].
  eapply (net_op _ _ _ _ _ _ 0%nat (OpCallback (ForwardDone 0 HG_SUCCESS)) (reply_of s));
    [apply wire_hg_sound| |by eexists|exact He|by apply pair_of|exact Hsv|done].
  split; [done|done|]. intros n h out E. cbn in E. destruct (Z.eqb_spec h (cs_handle s)) as [->|]; simplify_eq.
  exists 0%nat, s, (mkHgReply 0 (hg_bytes payload)). split_and!; try done. apply memory_received.
  by apply (envelope_roundtrip payload Hsz).
Qed.
End exchange.

(** A small payload travels with the request. *)
Abbreviation hello := (str "hello").
Definition hello_call : ClientRpcState :=
  mkClientRpcState 0 true 9 1 (name_id (str "echo")) (str "server") hello (eager_request hello) HG_NULL false false false.
Definition hello_back : Network := returns hello hello_call (echoed hello 0 (arrives hello hello_call)).

Lemma hello_reachable : two_reachable hello_back.
Proof.
  assert (in_u 64 (zlen hello)) as Hsz by by vm_compute.
  apply returns_reachable; [|vm_compute; reflexivity|vm_compute; reflexivity|done|by vm_compute|vm_compute; exact I].
  eapply rtc_r; [apply arrives_reachable|apply quiet_step].
  - apply found_reachable; [done|vm_compute; reflexivity|by vm_compute|vm_compute; exact I].
  - vm_compute; reflexivity.
  - vm_compute; reflexivity.
  - vm_compute; reflexivity.
  - by apply envelope_roundtrip.
  - by vm_compute.
  - vm_compute; exact I.
  - intros c Hc. vm_compute in Hc. by simplify_eq.
  - vm_compute; eexists; reflexivity.
  - vm_compute; exact I.
Qed.

Lemma rpc_answers_match_witness :
  promises (node hello_back 0) !! 0%nat = Some (Ok hello) ∧
  ∃ j rpc payload, calls hello_back 0 0 = Some (two_addresses j, rpc, payload) ∧ echoes j rpc payload (Ok hello).
Proof.
  split; [vm_compute; reflexivity|].
  apply (rpc_answers_match two_addresses name_id echo_only echoes two_id_inj two_id_valid echoes_size hello_back 0 0 hello_reachable).
  vm_compute; reflexivity.
Defined.
