(* ===== verification/Main.v ===== *)
(** * The broker process

    Models src/main.cpp: the shards are created and started, then told of
    each other, and the process waits for signals; SIGHUP reloads the
    configuration, SIGINT and SIGTERM stop.  The theorems connect the
    configuration with the routing of BrokerRouting.v: a broker that started
    serves what its configuration lists, and a reload keeps the logs.

    The Prometheus server is the interface [Host].  The parser of the two
    command-line options belongs to Seastar; console output is left out. *)

From Stdlib Require Import ZArith Lia.
From stdpp Require Import base tactics numbers option sorting sets gmap functions list.
From S2P Require Import Prelude Wire Protocol Codec Crc32c RecordBatch Config Detail Storage PartitionLog KafkaProtocol PartitionTable BrokerShard.
From S2P Require Import LogRep LogDurable BrokerRep BrokerRouting Replication.

Local Open Scope Z_scope.

(** ** Signals *)

Inductive Event := Stop | Reload.

Record StopSignal := mkStopSignal { pending_ : option Event }.
Definition StopSignal_init : StopSignal := mkStopSignal None.
Definition signaled (s : StopSignal) (event : Event) : StopSignal := mkStopSignal (Some event).
(** [None]: there is nothing to return yet. *)
Definition wait (s : StopSignal) : option (Event * StopSignal) :=
  match pending_ s with
  | None => None
  | Some event => Some (event, mkStopSignal None)
  end.

(** ** The process *)

Section main.
Context `{Crc32Intrinsics} {St : Storage} {Reactor0 : Reactor}.

Class Host := {
  prometheus_start : IO (Node Net) unit;
  prometheus_listen : cstring → Z → IO (Node Net) unit;
  prometheus_stop : IO (Node Net) unit;
}.

(** [shards.start()], with [n] shards. *)
Definition shards_start (n : nat) : IO (Node Net) unit :=
  modify (λ w, mkNode (replicate n BrokerShard_init) (disk w) (net w)).
Definition invoke_on_all (f : nat → IO (Node Net) unit) : IO (Node Net) unit := λ w,
  when_all_succeed (map f (seq 0 (length (shards w)))) w.
(** [shards.stop()]: every shard is stopped and destroyed. *)
Definition shards_stop : IO (Node Net) unit :=
  invoke_on_all BrokerShard_stop;;
  modify (λ w, mkNode [] (disk w) (net w)).

Definition startup (n : nat) (config : BrokerConfig) : IO (Node Net) unit :=
  shards_start n;;
  invoke_on_all (λ me, BrokerShard_start me config);;
  invoke_on_all (λ me, update me set_peers).

(** A reload, when [load_config_file] gives [loaded]. *)
Definition reload (loaded : result BrokerConfig) : IO (Node Net) unit :=
  updated ← lift loaded;
  invoke_on_all (λ me, apply_config me updated).

(** The loop: a round is the signals that come while it waits, and what the
    configuration file holds then.  Whether the loop was left. *)
Fixpoint serve_signals (rounds : list (list Event * result BrokerConfig)) (s : StopSignal) : IO (Node Net) bool :=
  match rounds with
  | [] => mret false
  | (events, loaded) :: rounds' =>
      let s := foldl signaled s events in
      match wait s with
      | None => serve_signals rounds' s
      | Some (Stop, s) => mret true
      | Some (Reload, s) => reload loaded;; serve_signals rounds' s
      end
  end.

(** The body of [seastar::async] with its deferred [cleanup].  [Ok false]:
    the process still waits.  (An exception of the clean-up itself, which ends
    the process, is the error result.) *)
Definition run_broker {Host0 : Host} (n : nat) (prefix : cstring) (config : BrokerConfig)
    (rounds : list (list Event * result BrokerConfig)) : IO (Node Net) bool :=
  match find_broker config (bc_node_id config) with
  | None => fail (RuntimeError (str "configured node_id is missing from brokers"))
  | Some _ =>
      started ← attempt (startup n config;; prometheus_start);
      ended ← match started with
        | Err e => mret (Err e)
        | Ok _ => attempt (prometheus_listen prefix (bc_metrics_port config);; serve_signals rounds StopSignal_init)
        end;
      match ended with
      | Ok false => mret false
      | _ =>
          shards_stop;;
          (match started with Ok _ => prometheus_stop | Err _ => mret tt end);;
          lift ended
      end
  end.

(** [main] with the values of [--config] and [--prometheus-prefix].  [file]
    is YAML::LoadFile when the process starts; a round has the signals and
    YAML::LoadFile at that time. *)
Definition broker_main {Host0 : Host} `{YamlApi} (n : nat) (config_arg prefix_arg : option cstring)
    (file : cstring → result YamlNode) (rounds : list (list Event * (cstring → result YamlNode))) : IO (Node Net) bool :=
  match config_arg with
  | None => fail (RuntimeError (str "--config is required"))
  | Some config_path =>
      config ← lift (load_config_file file config_path);
      run_broker n (default (str "mkmq") prefix_arg) config
        (map (λ round, (round.1, load_config_file round.2 config_path)) rounds)
  end.

(** ** Starting *)

Lemma when_all_ok {σ} (m : IO σ unit) ms w w' :
  when_all_succeed (m :: ms) w = (Ok tt, w') → ∃ w1, m w = (Ok tt, w1) ∧ when_all_succeed ms w1 = (Ok tt, w').
Proof.
  cbn [when_all_succeed]. unfold mbind, IO_bind, attempt, lift.
  destruct (m w) as [[[]|e] w1] eqn:Em; destruct (when_all_succeed ms w1) as [[[]|e'] w2] eqn:Er; intros [= ->]; subst.
  by exists w1.
Qed.

(** A step from [I x] to [I (x ++ [a])] for every member. *)
Lemma when_all_each {σ A} (I : list A → σ → Prop) (f : A → IO σ unit) l w w' :
  (∀ x a y w w', l = x ++ a :: y → I x w → f a w = (Ok tt, w') → I (x ++ [a]) w') →
  I [] w → when_all_succeed (map f l) w = (Ok tt, w') → I l w'.
Proof.
  intros Hstep. assert (∀ y x w, l = x ++ y → I x w → when_all_succeed (map f y) w = (Ok tt, w') → I l w') as Hgo; [|by apply Hgo].
  induction y as [|a y IH]; intros x w0 Hl Hx; cbn [map].
  - intros [= <-]. by rewrite Hl, app_nil_r.
  - intros (w1 & Ha & Hrest)%when_all_ok. eapply (IH (x ++ [a])); [by rewrite <- app_assoc|by eapply Hstep|done].
Qed.

(** The log that [start] gives for a partition that is new to the shard. *)
Definition started (me : nat) (config : BrokerConfig) (partition : PartitionConfig) (log : PartitionLogShard) : Prop :=
  ∃ d d', start partition (shard_root config me) (bc_segment_bytes config) (PartitionLogShard_init, d) = (Ok tt, (log, d')).

(** Opening a partition: its log is in the table. *)
Lemma start_partition_table me config partition w b w' :
  shards w !! me = Some b → sorted_table (table_ b) → table_map (table_ b) !! partition_key_of partition = None →
  start_partition me config partition w = (Ok tt, w') →
  ∃ t log, shards w' = <[me := set_table_ t b]> (shards w) ∧ sorted_table t ∧
    table_map t = <[partition_key_of partition := log]> (table_map (table_ b)) ∧ started me config partition log.
Proof.
  intros Hb Ht Hnew. assert (me < length (shards w))%nat as Hme by by eapply lookup_lt_Some.
  destruct (emplace_partition_log_refines (partition_key_of partition) (table_ b) Ht) as [Ht1 Hm1].
  unfold start_partition, update, mbind, IO_bind. rewrite Hb. unfold on_log. cbn [shards disk net].
  rewrite list_lookup_insert_eq by done. cbn [table_ set_table_].
  rewrite log_of_map by done. rewrite Hm1, lookup_insert_eq, Hnew. cbn [default].
  destruct (start _ _ _ _) as [r [log' disk']] eqn:Hstart. intros [= -> <-].
  destruct (set_log_refines (partition_key_of partition) log' _ Ht1) as [Ht2 Hm2]; [rewrite Hm1, lookup_insert_eq; by eexists|].
  eexists _, log'. cbn [shards]. rewrite list_insert_insert_eq. split; [reflexivity|]. split; [done|]. split; [|by exists (disk w), disk'].
  by rewrite Hm2, Hm1, insert_insert_eq.
Qed.

(** Partitions with different keys. *)
Lemma key_fresh (x : list PartitionConfig) a y :
  NoDup (map partition_key_of (x ++ a :: y)) → ∀ p, p ∈ x → partition_key_of p ≠ partition_key_of a.
Proof.
  rewrite map_app. cbn [map]. intros (_ & Hd & _)%NoDup_app p Hp Heq. apply (Hd (partition_key_of p)); [by apply list_elem_of_fmap_2|].
  rewrite Heq. by left.
Qed.

(** Shard [me] of [w] differs from [w0], has the configuration [config] and
    logs for the partitions [done]. *)
Definition opened (me : nat) (config : BrokerConfig) (w0 : Node Net) (b0 : BrokerShard) (done : list PartitionConfig)
    (w : Node Net) : Prop :=
  ∃ b, shards w = <[me := b]> (shards w0) ∧ bs_config_ b = config ∧ sorted_table (table_ b) ∧
    peers_set_ b = peers_set_ b0 ∧
    (∀ p, p ∈ done → ∃ log, table_map (table_ b) !! partition_key_of p = Some log ∧ started me config p log) ∧
    ∀ k, k ∉ map partition_key_of done → table_map (table_ b) !! k = None.

Lemma start_partition_opened me config w0 b0 done partition rest w w' :
  (me < length (shards w0))%nat → NoDup (map partition_key_of (done ++ partition :: rest)) →
  opened me config w0 b0 done w → start_partition me config partition w = (Ok tt, w') →
  opened me config w0 b0 (done ++ [partition]) w'.
Proof.
  intros Hme Hnd (b & Hs & Hc & Ht & Hp & Hk & Hn) Hst.
  assert (shards w !! me = Some b) as Hb by (rewrite Hs; by apply list_lookup_insert_eq).
  pose proof (key_fresh _ _ _ Hnd) as Hfresh.
  destruct (start_partition_table me config partition w b w' Hb Ht) as (t & log & Hs' & Ht' & Hm' & Hlog); [|done|].
  { apply Hn. intros Hin. apply list_elem_of_fmap in Hin as (q & Hq & Hin). by apply (Hfresh q). }
  exists (set_table_ t b). rewrite Hs', Hs, list_insert_insert_eq. cbn. split_and!; try done.
  - intros p [Hin|Hin]%elem_of_app; rewrite Hm'.
    + rewrite lookup_insert_ne by (apply not_eq_sym; by apply Hfresh). auto.
    + apply list_elem_of_singleton in Hin as ->. rewrite lookup_insert_eq. by exists log.
  - intros k. rewrite map_app, not_elem_of_app. cbn [map]. rewrite not_elem_of_cons. intros (Hout & Hne & _). rewrite Hm', lookup_insert_ne by done. auto.
Qed.

(** Starting Mercury and listening do not touch the shards. *)
Definition leaves_shards (m : IO (Node Net) unit) : Prop := ∀ w, shards (snd (m w)) = shards w.
Class OutsideStart : Prop := {
  mercury_start_leaves me address listen : leaves_shards (mercury_start me address listen);
  listen_leaves me host port : leaves_shards (listen me host port);
}.

(** What [start] leaves of shard [me]. *)
Definition ready (me : nat) (config : BrokerConfig) (b : BrokerShard) : Prop :=
  bs_config_ b = config ∧ sorted_table (table_ b) ∧ listening_ b = true ∧ rpcs_registered_ b = true ∧
  ∀ p, p ∈ local_partitions config me →
    ∃ log, table_map (table_ b) !! partition_key_of p = Some log ∧ started me config p log.

Lemma update_at me f (w : Node Net) b :
  shards w !! me = Some b → update me f w = (Ok tt, mkNode (<[me := f b]> (shards w)) (disk w) (net w)).
Proof. intros Hb. unfold update. by rewrite Hb. Qed.

Lemma local_keys config me : config_valid config → NoDup (map partition_key_of (local_partitions config me)).
Proof.
  intros (_ & _ & _ & _ & _ & Hnd & _). unfold local_partitions. revert Hnd. generalize (all_partitions config). intros l.
  induction l as [|p l IH]; [constructor|]. cbn [map]. intros [Hp Hl]%NoDup_cons. rewrite filter_cons. case_decide; [|by apply IH].
  cbn [map]. apply NoDup_cons. split; [|by apply IH]. intros Hin. apply Hp. apply list_elem_of_fmap in Hin as (q & Hq & Hin).
  apply list_elem_of_filter in Hin as [_ Hin]. apply list_elem_of_fmap. exists q. split; [|done].
  injection Hq as Hq1 Hq2. unfold partition_key. by rewrite Hq1, Hq2.
Qed.

Lemma start_ready {Outside : OutsideStart} me config w b w' :
  shards w !! me = Some b → table_ b = PartitionTable_init → config_valid config → BrokerShard_start me config w = (Ok tt, w') →
  ∃ b', shards w' = <[me := b']> (shards w) ∧ ready me config b' ∧ peers_set_ b' = peers_set_ b.
Proof.
  intros Hb Ht Hv. assert (me < length (shards w))%nat as Hme by by eapply lookup_lt_Some. pose proof (local_keys config me Hv) as Hnd.
  unfold BrokerShard_start. rewrite (io_bind_ok _ _ _ _ _ (update_at me (set_bs_config_ config) w b Hb)).
  set (w1 := mkNode _ _ _). assert (opened me config w b [] w1) as H1.
  { exists (set_bs_config_ config b). cbn. rewrite Ht. split_and!; try done; [by split; [constructor|]|].
    intros p Hp. by apply elem_of_nil in Hp. }
  unfold mbind at 1, IO_bind at 1, attempt. destruct (when_all_succeed _ w1) as [r w2] eqn:Hall.
  destruct (find_broker config (bc_node_id config)) as [broker|]; [|done].
  unfold mbind, IO_bind, lift. destruct r as [[]|e]; [|done].
  destruct (when_all_each (opened me config w b) (start_partition me config) (local_partitions config me) w1 w2) as
    (b2 & Hs2 & Hc2 & Ht2 & Hp2 & Hk2 & _); [|done|done|].
  { intros x a y wx wy Hl Hx Ha. eapply start_partition_opened; [done| |done|done]. by rewrite <- Hl. }
  pose proof (mercury_start_leaves me (be_mercury_address broker) true w2) as Hl3.
  destruct (mercury_start me _ true w2) as [[[]|e] w3]; [|done]. cbn [snd] in Hl3. rewrite Hs2 in Hl3.
  unfold register_mercury_rpcs. rewrite (update_at _ _ w3 b2) by (rewrite Hl3; by apply list_lookup_insert_eq).
  rewrite Hl3, list_insert_insert_eq. set (w4 := mkNode _ _ _).
  pose proof (listen_leaves me (be_kafka_host broker) (be_kafka_port broker) w4) as Hl5.
  destruct (listen me _ _ w4) as [[[]|e] w5]; [|done]. cbn [snd] in Hl5.
  assert (shards w5 !! me = Some (set_rpcs_registered_ true b2)) as Hb5 by (rewrite Hl5; by apply list_lookup_insert_eq).
  rewrite (update_at _ _ w5 _ Hb5), Hl5. unfold arm_maintenance_timer. cbn [w4 shards]. rewrite list_insert_insert_eq.
  rewrite (update_at _ _ _ (set_listening_ true (set_rpcs_registered_ true b2))) by (cbn; by apply list_lookup_insert_eq).
  intros [= <-]. eexists. cbn [shards]. rewrite list_insert_insert_eq. split; [reflexivity|]. unfold ready. cbn [stopping_ set_listening_ set_rpcs_registered_].
  by destruct (stopping_ b2); cbn; split_and!.
Qed.

(** An operation on every shard that changes this shard only. *)
Lemma invoke_each (f : nat → IO (Node Net) unit) (P Q : nat → BrokerShard → Prop) :
  (∀ i w w' b, shards w !! i = Some b → P i b → f i w = (Ok tt, w') → ∃ b', shards w' = <[i := b']> (shards w) ∧ Q i b') →
  ∀ w w', (∀ i b, shards w !! i = Some b → P i b) → invoke_on_all f w = (Ok tt, w') →
  length (shards w') = length (shards w) ∧ ∀ i b, shards w' !! i = Some b → Q i b.
Proof.
  intros Hf w w' HP. unfold invoke_on_all.
  assert (∀ m k w, (k + m = length (shards w))%nat → (∀ i b, (i < k)%nat → shards w !! i = Some b → Q i b) →
    (∀ i b, (k <= i)%nat → shards w !! i = Some b → P i b) → when_all_succeed (map f (seq k m)) w = (Ok tt, w') →
    length (shards w') = length (shards w) ∧ ∀ i b, shards w' !! i = Some b → Q i b) as Hgo.
  { clear w HP. induction m as [|m IH]; intros k w Hlen HQ HP; cbn [seq map].
    - intros [= <-]. split; [done|]. intros i b Hb. apply HQ; [|done]. apply lookup_lt_Some in Hb. lia.
    - intros (w1 & Hk & Hrest)%when_all_ok. destruct (lookup_lt_is_Some_2 (shards w) k) as [b Hb]; [lia|].
      destruct (Hf k w w1 b Hb (HP k b (le_n k) Hb) Hk) as (b' & Hs & Hb').
      destruct (IH (S k) w1) as [Hl HQ']; [rewrite Hs, length_insert; lia| | |done|].
      + intros i bi Hi Hbi. rewrite Hs in Hbi. destruct (decide (i = k)) as [->|Hne].
        * rewrite list_lookup_insert_eq in Hbi by lia. by simplify_eq.
        * rewrite list_lookup_insert_ne in Hbi by done. apply HQ; [lia|done].
      + intros i bi Hi Hbi. rewrite Hs, list_lookup_insert_ne in Hbi by lia. apply HP; [lia|done].
      + rewrite Hl, Hs, length_insert. done. }
  intros Hr. apply (Hgo (length (shards w)) 0%nat w); [done| |auto|done]. intros i b Hi. lia.
Qed.

(** The state of the shards after [startup]. *)
Lemma startup_ready {Outside : OutsideStart} n config w w' :
  config_valid config → startup n config w = (Ok tt, w') →
  length (shards w') = n ∧ ∀ i b, shards w' !! i = Some b → ready i config b ∧ peers_set_ b = true.
Proof.
  intros Hv. unfold startup, shards_start, modify, mbind, IO_bind. set (w0 := mkNode _ _ _).
  destruct (invoke_on_all (λ me, BrokerShard_start me config) w0) as [[[]|e] w1] eqn:E1; [|done]. intros E2.
  destruct (invoke_each _ (λ _ b, table_ b = PartitionTable_init) (λ i b, ready i config b)
    (λ i x x' b Hb Ht Hf, match start_ready i config x b x' Hb Ht Hv Hf with ex_intro _ b' (conj Hs (conj Hr _)) => ex_intro _ b' (conj Hs Hr) end)
    w0 w1) as [Hl1 Hr1]; [|done|].
  { intros i b Hb. by apply lookup_replicate in Hb as [-> _]. }
  destruct (invoke_each (λ me, update me set_peers) (λ i b, ready i config b) (λ i b, ready i config b ∧ peers_set_ b = true))
    with (w := w1) (w' := w') as [Hl2 Hr2]; [|done|done|].
  { intros i x x' b Hb Hr. rewrite (update_at _ _ _ _ Hb). intros [= <-]. by exists (set_peers b). }
  split; [|done]. rewrite Hl2, Hl1. apply length_replicate.
Qed.

(** A configuration as [parse_config_node] gives it, with distinct topics. *)
Definition config_ok (config : BrokerConfig) : Prop :=
  config_valid config ∧ topics_consistent config ∧ NoDup (map tc_name (bc_topics config)).

(** C13: a broker that has started serves its configuration, when that is
    valid, lists no topic twice, and a partition's shard exists (neither of
    which [validate_config] enforces).  When start-up succeeds, every shard
    has the configuration, listens and knows its peers; each configured
    partition whose shard number is below the number of shards is owned by
    that shard, whose log for it is what [PartitionLogShard::start] made of
    the partition's directory when it ran for this configuration, and all
    shards agree on it, so that every request for it reaches the log whichever
    shard it comes in at; a partition that is not configured has no owner. *)
Theorem startup_serves {Outside : OutsideStart} n config w w' :
  config_ok config → startup n config w = (Ok tt, w') →
  length (shards w') = n ∧
  (∀ i b, shards w' !! i = Some b → bs_config_ b = config ∧ listening_ b = true ∧ rpcs_registered_ b = true ∧ peers_set_ b = true) ∧
  (∀ topic partition pc, find_partition config topic partition = Some pc → 0 <= pc_shard pc < Z.of_nat n →
     let o := Z.to_nat (pc_shard pc) in
     agreed w' topic partition o ∧ served w' o topic partition = true ∧
     ∃ log, log_at w' o (mkTopicPartition topic partition) log ∧ started o config pc log) ∧
  (∀ topic partition i, find_partition config topic partition = None → knows w' i topic partition = false).
Proof.
  intros (Hv & Hcons & Hnd) Hst. destruct (startup_ready n config w w' Hv Hst) as [Hlen Hall].
  assert (∀ i b topic partition, shards w' !! i = Some b →
    owner_shard topic partition b = pc_shard <$> find_partition config topic partition) as Hown.
  { intros i b topic partition Hb. destruct (Hall i b Hb) as [(Hc & _) _]. rewrite owner_shard_find by (by rewrite Hc). by rewrite Hc. }
  split; [done|]. split; [|split].
  - intros i b Hb. destruct (Hall i b Hb) as [(? & _ & ? & ? & _) ?]. done.
  - intros topic partition pc Hf Hsh. set (o := Z.to_nat (pc_shard pc)).
    destruct (lookup_lt_is_Some_2 (shards w') o) as [bo Hbo]; [lia|].
    destruct (proj1 (find_partition_iff config topic partition pc Hv Hcons) Hf) as [Hin Hkey].
    injection Hkey as Ht Hp. destruct (Hall o bo Hbo) as [(_ & Hso & _ & _ & Hk) _].
    destruct (Hk pc) as (log & Hlog & Hstarted); [by apply list_elem_of_filter; split; [lia|]|].
    unfold partition_key_of in Hlog. rewrite Ht, Hp in Hlog. split_and!.
    + split; [lia|]. intros i b Hb. destruct (Hall i b Hb) as [(_ & Hs & _) Hpeers]. split; [done|]. split; [done|].
      right. rewrite (Hown i b topic partition Hb), Hf. cbn. f_equal. lia.
    + unfold served, knows. rewrite Hbo, (Hown o bo topic partition Hbo), Hf. cbn [fmap option_fmap option_map].
      rewrite bool_decide_true by by eexists. cbn [andb]. apply bool_decide_eq_true_2. rewrite Hlog. by eexists.
    + exists log. split; [|done]. by exists bo.
  - intros topic partition i Hf. unfold knows. destruct (shards w' !! i) as [b|] eqn:Hb; [|done].
    rewrite (Hown i b topic partition Hb), Hf. by apply bool_decide_eq_false_2; intros [].
Qed.

(** ** Reloading *)

(** Shard [me] after the partitions [done] of the new configuration: a log it
    had has the new configuration and is otherwise the same, a new one was
    started, and the others are untouched. *)
Definition applied (me : nat) (config : BrokerConfig) (old new : gmap TopicPartition PartitionLogShard)
    (done : list PartitionConfig) : Prop :=
  (∀ p, p ∈ done → match old !! partition_key_of p with
     | Some log => new !! partition_key_of p = Some (set_config_ p log)
     | None => ∃ log, new !! partition_key_of p = Some log ∧ started me config p log
     end) ∧
  ∀ k, k ∉ map partition_key_of done → new !! k = old !! k.

Definition reloaded (me : nat) (config : BrokerConfig) (w0 : Node Net) (b0 : BrokerShard) (done : list PartitionConfig)
    (w : Node Net) : Prop :=
  ∃ b, shards w = <[me := b]> (shards w0) ∧ same_shard b0 b ∧ sorted_table (table_ b) ∧
    applied me config (table_map (table_ b0)) (table_map (table_ b)) done.

Lemma applied_step me config old m m' done p rest :
  NoDup (map partition_key_of (done ++ p :: rest)) → applied me config old m done →
  match old !! partition_key_of p with
  | Some log => m' !! partition_key_of p = Some (set_config_ p log)
  | None => ∃ log, m' !! partition_key_of p = Some log ∧ started me config p log
  end → (∀ k, k ≠ partition_key_of p → m' !! k = m !! k) → applied me config old m' (done ++ [p]).
Proof.
  intros Hnd [Hdone Hrest] Hp Hother. pose proof (key_fresh _ _ _ Hnd) as Hfresh. split.
  - intros q [Hq|Hq]%elem_of_app; [|by apply list_elem_of_singleton in Hq as ->].
    specialize (Hdone q Hq). rewrite (Hother _ (Hfresh q Hq)). done.
  - intros k. rewrite map_app, not_elem_of_app. cbn [map]. rewrite not_elem_of_cons. intros (Hout & Hne & _). rewrite Hother by done. auto.
Qed.

Lemma apply_partition_reloaded me config w0 b0 done p rest w w' :
  (me < length (shards w0))%nat → NoDup (map partition_key_of (done ++ p :: rest)) → reloaded me config w0 b0 done w →
  apply_partition me config p w = (Ok tt, w') → reloaded me config w0 b0 (done ++ [p]) w'.
Proof.
  intros Hme Hnd (b & Hs & Hsame & Ht & Happ) Hrun. set (key := partition_key_of p) in *.
  assert (shards w !! me = Some b) as Hb by (rewrite Hs; by apply list_lookup_insert_eq).
  assert (table_map (table_ b0) !! key = table_map (table_ b) !! key) as Hkey.
  { symmetry. apply Happ. intros Hin. apply list_elem_of_fmap in Hin as (q & Hq & Hin). by apply (key_fresh _ _ _ Hnd q Hin). }
  unfold apply_partition in Hrun. fold key in Hrun. destruct (table_map (table_ b) !! key) as [log|] eqn:Hk.
  - assert (log_at w me key log) as Hlog by (exists b; by split).
    destruct (find_log_ok me key w log Hlog) as (w1 & Hf & Hkept1 & _ & _ & Hlog1).
    rewrite (io_bind_ok _ _ _ _ _ Hf) in Hrun.
    destruct (on_log_ok me key (upd (update_config p)) w1 log (Ok tt) (update_config p log) (disk w1) Hlog1 eq_refl)
      as (w2 & Hu & Hkept2 & _ & _ & Hlog2). rewrite Hu in Hrun. injection Hrun as <-.
    destruct (kept_trans _ _ _ _ _ Hkept1 Hkept2) as (b1 & b2 & [Hb1 _] & [Hb2 Ht2] & Hs2 & Hsame2 & Hother).
    assert (b1 = b) as -> by congruence. destruct Hlog2 as (b2' & [Hb2' _] & Hl2). assert (b2' = b2) as -> by congruence.
    exists b2. split_and!; [by rewrite Hs2, Hs, list_insert_insert_eq|by transitivity b|done|].
    eapply applied_step; [exact Hnd|exact Happ| |done]. fold key. by rewrite Hkey.
  - rewrite (io_bind_ok _ _ _ None w) in Hrun by (by apply (find_log_none me key w b)).
    destruct (start_partition_table me config p w b w' Hb Ht Hk Hrun) as (t & log & Hs' & Ht' & Hm' & Hst).
    exists (set_table_ t b). split_and!; [by rewrite Hs', Hs, list_insert_insert_eq|by transitivity b|done|]. cbn.
    eapply applied_step; [exact Hnd|exact Happ| |]; fold key; rewrite ?Hkey, Hm'.
    + rewrite lookup_insert_eq. by exists log.
    + intros k Hne. by rewrite lookup_insert_ne.
Qed.

(** C26: a reload keeps the data.  [apply_config] on a shard rejects what
    [validate_reload] rejects, and then nothing has changed.  When it succeeds
    with a valid configuration, the shard has the new configuration; every
    partition that it gives to this shard and that had a log keeps this log,
    with the same offsets, index and segments, under the new partition
    configuration; every partition that is new to the shard has the log that
    [start] gave for it; and all other logs are untouched. *)
Theorem reload_keeps_logs me config w b :
  shard_at w me b →
  (∀ e, validate_reload (bs_config_ b) config = Err e → apply_config me config w = (Err e, w)) ∧
  (config_valid config → ∀ w', apply_config me config w = (Ok tt, w') →
    ∃ b', shards w' = <[me := b']> (shards w) ∧ bs_config_ b' = config ∧ sorted_table (table_ b') ∧
      (∀ p, p ∈ local_partitions config me → match table_map (table_ b) !! partition_key_of p with
         | Some log => table_map (table_ b') !! partition_key_of p = Some (set_config_ p log)
         | None => ∃ log, table_map (table_ b') !! partition_key_of p = Some log ∧ started me config p log
         end) ∧
      ∀ k, k ∉ map partition_key_of (local_partitions config me) → table_map (table_ b') !! k = table_map (table_ b) !! k).
Proof.
  intros [Hb Ht]. assert (me < length (shards w))%nat as Hme by by eapply lookup_lt_Some.
  unfold apply_config. rewrite (io_bind_ok _ _ _ (bs_config_ b) w) by (exact (ask_ok me bs_config_ w b Hb)). split.
  { intros e He. unfold mbind, IO_bind, lift. by rewrite He. }
  intros Hv w'. pose proof (local_keys config me Hv) as Hnd.
  unfold mbind, IO_bind, lift. destruct (validate_reload (bs_config_ b) config) as [[]|e]; [|done].
  destruct (when_all_succeed _ w) as [[[]|e] w1] eqn:Hall; [|done].
  destruct (when_all_each (reloaded me config w b) (apply_partition me config) (local_partitions config me) w w1)
    as (b1 & Hs1 & Hsame & Ht1 & Happ); [| |done|].
  { intros x a y wx wy Hl Hx Ha. eapply apply_partition_reloaded; [done| |done|done]. by rewrite <- Hl. }
  { exists b. split_and!; try done; [by rewrite list_insert_id|]. split; [|done]. intros p Hp. by apply elem_of_nil in Hp. }
  rewrite (update_at _ _ w1 b1) by (rewrite Hs1; by apply list_lookup_insert_eq).
  intros [= <-]. exists (set_bs_config_ config b1). cbn. rewrite Hs1, list_insert_insert_eq. split_and!; try done; apply Happ.
Qed.

(** ** Signals *)

Lemma signaled_last events s : pending_ (foldl signaled s events) = match last events with Some e => Some e | None => pending_ s end.
Proof. destruct events as [|e events _] using rev_ind; [done|]. by rewrite foldl_app, last_snoc. Qed.

Lemma serve_round events loaded rounds w :
  serve_signals ((events, loaded) :: rounds) StopSignal_init w =
  match last events with
  | None => serve_signals rounds StopSignal_init w
  | Some Stop => (Ok true, w)
  | Some Reload => (reload loaded;; serve_signals rounds StopSignal_init) w
  end.
Proof.
  cbn [serve_signals]. pose proof (signaled_last events StopSignal_init) as Hp. unfold wait.
  destruct (foldl signaled StopSignal_init events) as [p]. cbn [pending_ StopSignal_init] in *. subst p.
  by destruct (last events) as [[]|].
Qed.

(** Rounds without a signal. *)
Lemma serve_idle idle rounds w :
  Forall (λ r : list Event * result BrokerConfig, r.1 = []) idle →
  serve_signals (idle ++ rounds) StopSignal_init w = serve_signals rounds StopSignal_init w.
Proof.
  induction 1 as [|[events loaded] idle He _ IH]; [done|]. cbn in He. subst events. cbn [app]. by rewrite serve_round.
Qed.

(** What the last signal of a round decides.  Signals that arrive before
    the loop looks overwrite each other, so a stop request followed by SIGHUP
    reloads instead of stopping.  And when a reload fails, because the file
    does not load or a shard rejects it, the broker does not go on with the
    old configuration: the exception ends the loop, every shard is stopped,
    and the process ends with the error. *)
Theorem signals_decide {Host0 : Host} n prefix config idle events loaded rounds w w1 w2 :
  is_Some (find_broker config (bc_node_id config)) → (startup n config;; prometheus_start) w = (Ok tt, w1) →
  prometheus_listen prefix (bc_metrics_port config) w1 = (Ok tt, w2) →
  Forall (λ r : list Event * result BrokerConfig, r.1 = []) idle →
  let run := run_broker n prefix config (idle ++ (events, loaded) :: rounds) w in
  (last events = Some Stop → run = (shards_stop;; prometheus_stop;; mret true) w2) ∧
  (∀ e w3, last events = Some Reload → reload loaded w2 = (Err e, w3) → run = (shards_stop;; prometheus_stop;; fail e) w3).
Proof.
  intros [broker Hb] Hst Hli Hidle. unfold run_broker. rewrite Hb. cbv zeta.
  rewrite (io_bind_ok _ _ _ (Ok tt) w1) by (unfold attempt; by rewrite Hst).
  assert (∀ r w3, serve_signals ((events, loaded) :: rounds) StopSignal_init w2 = (r, w3) →
    attempt (prometheus_listen prefix (bc_metrics_port config);; serve_signals (idle ++ (events, loaded) :: rounds) StopSignal_init) w1
    = (Ok r, w3)) as Hserve.
  { intros r w3 Hr. unfold attempt. rewrite (io_bind_ok _ _ _ tt w2 Hli), serve_idle, Hr by done. done. }
  split.
  - intros Hlast. rewrite (io_bind_ok _ _ _ (Ok true) w2); [done|]. apply Hserve. by rewrite serve_round, Hlast.
  - intros e w3 Hlast He. rewrite (io_bind_ok _ _ _ (Err e) w3); [done|]. apply Hserve.
    rewrite serve_round, Hlast. unfold mbind, IO_bind. by rewrite He.
Qed.
End main.

(** ** A broker alone *)

#[local] Existing Instance isolated.
#[local] Instance isolated_outside : OutsideStart.
Proof. by split. Qed.
#[local] Instance no_metrics : Host := {| prometheus_start := mret tt; prometheus_listen _ _ := mret tt; prometheus_stop := mret tt |}.

Definition bare_node : Peer := mkNode [] empty_disk tt.

Lemma outcome {A B} (p : A * B) a : fst p = a → p = (a, snd p).
Proof. by destruct p; intros <-. Qed.

Lemma pair_config_ok : config_ok (pair_config 1).
Proof.
  split; [apply validate_config_valid; vm_compute; reflexivity|]. split.
  - intros t p Ht%list_elem_of_singleton Hp. subst t. apply list_elem_of_singleton in Hp as ->. reflexivity.
  - apply NoDup_singleton.
Qed.

Lemma lone_starts : startup 1 (pair_config 1) bare_node = (Ok tt, snd (startup 1 (pair_config 1) bare_node)).
Proof. apply outcome. vm_compute. reflexivity. Qed.

Lemma startup_serves_witness :
  let w' := snd (startup 1 (pair_config 1) bare_node) in
  agreed w' (str "orders") 0 0 ∧ served w' 0 (str "orders") 0 = true ∧ (∃ log, log_at w' 0 pair_key log ∧ started 0 (pair_config 1) pair_partition log) ∧
  knows w' 0 (str "orders") 1 = false.
Proof.
  destruct (startup_serves 1 (pair_config 1) bare_node _ pair_config_ok lone_starts)
    as (_ & _ & Hserved & Hunknown).
  destruct (Hserved (str "orders") 0 pair_partition eq_refl) as (Ha & Hs & Hlog); [vm_compute; split; congruence|].
  split; [exact Ha|]. split; [exact Hs|]. split; [exact Hlog|]. apply Hunknown. reflexivity.
Defined.

(** A reload to the next generation, with a second partition. *)
Definition grown_config : BrokerConfig :=
  mkBrokerConfig 1 2 (str "data") 9642 100 100 1024 (bc_brokers (pair_config 1))
    [mkTopicConfig (str "orders") [pair_partition;
       mkPartitionConfig (str "orders") 1 0 [1; 2] [1; 2] Fsync 16 4096 HighWatermark false 1 0 0 (-1)]].

Definition lone_node : Peer := mkNode [pair_shard 1] pair_disk tt.

Lemma lone_reloads : apply_config 0 grown_config lone_node = (Ok tt, snd (apply_config 0 grown_config lone_node)).
Proof. apply outcome. vm_compute. reflexivity. Qed.

Definition grown_partition : PartitionConfig :=
  mkPartitionConfig (str "orders") 1 0 [1; 2] [1; 2] Fsync 16 4096 HighWatermark false 1 0 0 (-1).

Lemma reload_keeps_logs_witness :
  ∃ b', shards (snd (apply_config 0 grown_config lone_node)) = [b'] ∧
    table_map (table_ b') !! pair_key = Some (set_config_ pair_partition pair_log) ∧
    ∃ log, table_map (table_ b') !! mkTopicPartition (str "orders") 1 = Some log ∧ started 0 grown_config grown_partition log.
Proof.
  assert (shard_at (Reactor0 := isolated) lone_node 0 (pair_shard 1)) as Hat by (split; [reflexivity|apply pair_table]).
  destruct (reload_keeps_logs 0 grown_config lone_node (pair_shard 1) Hat) as [_ Hok].
  destruct (Hok ltac:(apply validate_config_valid; vm_compute; reflexivity) _ lone_reloads) as (b' & Hs & _ & _ & Hparts & _).
  exists b'. split; [exact Hs|]. split.
  - apply (Hparts pair_partition). apply list_elem_of_filter. split; [reflexivity|]. left.
  - apply (Hparts grown_partition). apply list_elem_of_filter. split; [reflexivity|]. right. left.
Defined.

(** SIGTERM, then SIGHUP with a file that no longer lists the partition. *)
Definition shrunk_config : BrokerConfig :=
  mkBrokerConfig 1 2 (str "data") 9642 100 100 1024 (bc_brokers (pair_config 1)) [].
Definition lone_broker : Peer := snd (startup 1 (pair_config 1) bare_node).

Lemma lone_rejects : fst (reload (Ok shrunk_config) lone_broker)
  = Err (RuntimeError (str "SIGHUP reload cannot delete topic partitions")).
Proof. vm_compute. reflexivity. Qed.

Lemma signals_decide_witness :
  ∃ w3, run_broker 1 (str "mkmq") (pair_config 1) [([], Ok shrunk_config); ([Stop; Reload], Ok shrunk_config)] bare_node
    = (shards_stop;; fail (RuntimeError (str "SIGHUP reload cannot delete topic partitions"))) w3.
Proof.
  destruct (signals_decide 1 (str "mkmq") (pair_config 1) [([], Ok shrunk_config)] [Stop; Reload] (Ok shrunk_config) []
    bare_node lone_broker lone_broker) as [_ Hreload].
  - by eexists.
  - rewrite (io_bind_ok _ _ _ _ _ lone_starts). reflexivity.
  - reflexivity.
  - by constructor.
  - eexists. apply (Hreload _ _ eq_refl (outcome _ _ lone_rejects)).
Defined.
