(* ===== verification/Metrics.v ===== *)
(** * Metrics of a shard

    Models [register_metrics] of src/broker_shard.cpp: the group of metrics
    that a shard registers, in order, each with the function that reads it
    when the metrics server asks.  Counters of the shard are read directly,
    the totals over its partitions are summed up in their machine types, and
    the counters of Mercury are those of MercuryShard.v.  Seastar's latency
    histograms are not part of the shard's state and have a name only. *)

From Stdlib Require Import ZArith Lia.
From stdpp Require Import base tactics numbers option sorting sets gmap functions list.
From S2P Require Import Prelude Wire Protocol Codec Crc32c RecordBatch Config Detail Storage PartitionLog KafkaProtocol PartitionTable BrokerShard.
From S2P Require Import MercuryProc MercuryShard.

Local Open Scope Z_scope.

Inductive Metric :=
| make_counter (name : cstring) (read : BrokerShard → (MercuryCounter → Z) → Z)
| make_gauge (name : cstring) (read : BrokerShard → (MercuryCounter → Z) → result Z)
| make_histogram (name : cstring).

Definition metric_name (m : Metric) : cstring :=
  match m with make_counter name _ | make_gauge name _ | make_histogram name => name end.

(** The loops over [partitions_]: a [std::uint64_t] that is added to, and the
    [std::int64_t] of the lag, whose overflow is undefined. *)
Definition sum_u64 (f : PartitionLogShard → Z) (b : BrokerShard) : Z :=
  foldl (λ count entry, u64 (count + f (pe_log entry))) 0 (partitions_ (table_ b)).
Definition sum_lag (b : BrokerShard) : result Z :=
  foldl (λ lag entry,
    lag ← lag;
    let lag := lag + replica_lag_ (pe_log entry) in
    if (- 2 ^ 63 <=? lag) && (lag <? 2 ^ 63) then Ok lag else Err (UndefinedBehavior (str "int64 overflow")))
    (Ok 0) (partitions_ (table_ b)).

Definition shard_counter (name : cstring) (c : Counter) : Metric := make_counter name (λ b _, counters_ b c).
Definition mercury_counter (name : cstring) (c : MercuryCounter) : Metric := make_counter name (λ _ mercury, mercury c).
Definition degraded_one (log : PartitionLogShard) : Z := if degraded_ log then 1 else 0.

Definition register_metrics : list Metric := [
  shard_counter (str "kafka_requests") kafka_requests_;
  shard_counter (str "kafka_errors") kafka_errors_;
  shard_counter (str "produce_errors") produce_errors_;
  shard_counter (str "fetch_errors") fetch_errors_;
  shard_counter (str "replica_appends") replica_appends_;
  shard_counter (str "replica_errors") replica_errors_;
  shard_counter (str "broker_health_checks") health_checks_;
  shard_counter (str "broker_health_failures") health_failures_;
  shard_counter (str "replica_catchup_attempts") catchup_attempts_;
  shard_counter (str "replica_catchup_errors") catchup_errors_;
  shard_counter (str "replica_catchup_records") catchup_records_;
  mercury_counter (str "mercury_rpc_forwards") rpc_forwards;
  mercury_counter (str "mercury_rpc_receives") rpc_receives;
  mercury_counter (str "mercury_rpc_errors") rpc_errors;
  mercury_counter (str "mercury_rpc_timeouts") rpc_timeouts;
  mercury_counter (str "mercury_bulk_transfers") bulk_transfers;
  mercury_counter (str "mercury_bulk_bytes") bulk_bytes;
  mercury_counter (str "mercury_bulk_errors") bulk_errors;
  make_counter (str "disk_writes") (λ b _, sum_u64 disk_writes_ b);
  make_counter (str "disk_fsyncs") (λ b _, sum_u64 disk_fsyncs_ b);
  make_histogram (str "kafka_request_latency");
  make_histogram (str "produce_latency");
  make_histogram (str "fetch_latency");
  make_histogram (str "disk_write_latency");
  make_histogram (str "disk_fsync_latency");
  make_histogram (str "mercury_rpc_forward_latency");
  make_histogram (str "mercury_rpc_handler_latency");
  make_histogram (str "mercury_bulk_latency");
  make_gauge (str "degraded_partitions") (λ b _, Ok (sum_u64 degraded_one b));
  make_gauge (str "replica_lag") (λ b _, sum_lag b);
  make_gauge (str "queue_depth") (λ b _, Ok (sum_u64 queue_depth_ b))].

(** What the metrics server reads under a name. *)
Definition read_metric (name : cstring) (b : BrokerShard) (mercury : MercuryCounter → Z) : option (result Z) :=
  match list_find (λ m, metric_name m = name) register_metrics with
  | Some (_, make_counter _ read) => Some (Ok (read b mercury))
  | Some (_, make_gauge _ read) => Some (read b mercury)
  | _ => None
  end.

(** ** Reference *)

(** A total over the partitions of the table, in any order. *)
Definition total (f : PartitionLogShard → Z) (b : BrokerShard) : Z :=
  foldr (λ kl acc, f kl.2 + acc) 0 (map_to_list (table_map (table_ b))).

Lemma total_entries f b : sorted_table (table_ b) →
  total f b = foldr (λ entry acc, f (pe_log entry) + acc) 0 (partitions_ (table_ b)).
Proof.
  intros Ht. unfold total, table_map.
  assert (map_to_list (list_to_map (map (λ e, (pe_key e, pe_log e)) (partitions_ (table_ b))) : gmap TopicPartition PartitionLogShard)
    ≡ₚ map (λ e, (pe_key e, pe_log e)) (partitions_ (table_ b))) as Hp.
  { apply map_to_list_to_map. change (NoDup (map fst (map (λ e, (pe_key e, pe_log e)) (partitions_ (table_ b))))).
    rewrite map_map. by apply keys_NoDup. }
  etrans; [eapply (foldr_permutation eq); [apply _..| |exact Hp]; cbn; intros; lia|].
  clear. induction (partitions_ (table_ b)) as [|e es IH]; [done|]. cbn. by rewrite IH.
Qed.

Lemma u64_sum {A} (g : A → Z) es z :
  foldl (λ count e, u64 (count + g e)) (u64 z) es = u64 (z + foldr (λ e acc, g e + acc) 0 es).
Proof.
  revert z. induction es as [|e es IH]; intros z; cbn; [by rewrite Z.add_0_r|].
  assert (u64 (u64 z + g e) = u64 (z + g e)) as -> by (unfold u64, wrap_u; apply Zplus_mod_idemp_l).
  rewrite IH. f_equal. lia.
Qed.

Lemma sum_u64_total f b : sorted_table (table_ b) → sum_u64 f b = u64 (total f b).
Proof. intros Ht. rewrite total_entries by done. exact (u64_sum (λ entry, f (pe_log entry)) _ 0). Qed.

(** Terms that are not negative add up without overflow if their sum fits. *)
Lemma foldr_nonneg {A} (g : A → Z) es : Forall (λ e, 0 <= g e) es → 0 <= foldr (λ e acc, g e + acc) 0 es.
Proof. induction 1; cbn; lia. Qed.

Lemma checked_sum {A} (g : A → Z) es z :
  Forall (λ e, 0 <= g e) es → 0 <= z → z + foldr (λ e acc, g e + acc) 0 es < 2 ^ 63 →
  foldl (λ lag e, lag ← lag; let lag := lag + g e in
    if (- 2 ^ 63 <=? lag) && (lag <? 2 ^ 63) then Ok lag else Err (UndefinedBehavior (str "int64 overflow"))) (Ok z) es
  = Ok (z + foldr (λ e acc, g e + acc) 0 es).
Proof.
  intros Hg. revert z. induction Hg as [|e es He Hes IH]; intros z Hz Hs; cbn [foldl foldr] in *; [by rewrite Z.add_0_r|].
  pose proof (foldr_nonneg g es Hes). cbn [mbind result_bind]. cbv zeta.
  destruct (Z.leb_spec (- 2 ^ 63) (z + g e)); [|lia]. destruct (Z.ltb_spec (z + g e) (2 ^ 63)); [|lia]. cbn [andb].
  rewrite IH by lia. f_equal. lia.
Qed.

Lemma NoDup_filter_keys {K A} (P : K * A → Prop) `{∀ x, Decision (P x)} (l : list (K * A)) : NoDup l.*1 → NoDup (filter P l).*1.
Proof.
  intros Hl. induction l as [|x l IH]; [done|]. apply NoDup_cons in Hl as [Hx Hl]. rewrite filter_cons. case_decide; [|auto].
  apply NoDup_cons. split; [|auto]. intros (y & Ey & Hy)%list_elem_of_fmap. apply list_elem_of_filter in Hy as [_ Hy].
  apply Hx, list_elem_of_fmap. by exists y.
Qed.

Lemma total_degraded b :
  total degraded_one b = Z.of_nat (size (filter (λ kl, degraded_ kl.2 = true) (table_map (table_ b)))).
Proof.
  rewrite <- length_map_to_list, map_filter_alt, map_to_list_to_map.
  2:{ pose proof (NoDup_fst_map_to_list (table_map (table_ b))) as Hnd. by apply NoDup_filter_keys. }
  unfold total. induction (map_to_list (table_map (table_ b))) as [|[k l] kls IH]; [done|]. cbn [foldr snd].
  rewrite IH. unfold degraded_one. destruct (degraded_ l) eqn:El.
  - rewrite filter_cons_True by done. cbn [length]. lia.
  - rewrite filter_cons_False by (cbn; congruence). lia.
Qed.

(** ** Theorems *)

(** The metrics of a shard.  No two have the same name, which registration
    would refuse.  The totals over the partitions do not depend on the order
    of the table: they are the sums over the map that the table stands for,
    modulo 2^64; the degraded partitions are counted, so that the gauge is 0
    exactly when none is degraded; and the lag does not overflow as long as
    the sum of the lags, none of them negative, fits. *)
Theorem metrics_report b mercury :
  sorted_table (table_ b) →
  NoDup (map metric_name register_metrics) ∧
  (∀ name f, (name, f) ∈ [(str "disk_writes", disk_writes_); (str "disk_fsyncs", disk_fsyncs_); (str "queue_depth", queue_depth_)] →
     read_metric name b mercury = Some (Ok (u64 (total f b)))) ∧
  (Z.of_nat (size (table_map (table_ b))) < 2 ^ 64 →
     let degraded := filter (λ kl, degraded_ kl.2 = true) (table_map (table_ b)) in
     read_metric (str "degraded_partitions") b mercury = Some (Ok (Z.of_nat (size degraded)))) ∧
  (map_Forall (λ _ log, 0 <= replica_lag_ log) (table_map (table_ b)) → total replica_lag_ b < 2 ^ 63 →
     read_metric (str "replica_lag") b mercury = Some (Ok (total replica_lag_ b))).
Proof.
  intros Ht. split; [|split; [|split]].
  - apply (bool_decide_eq_true_1 (NoDup _)). vm_compute. reflexivity.
  - intros name f Hin. rewrite <- sum_u64_total by done.
    repeat (apply elem_of_cons in Hin as [[= -> ->]|Hin]; [reflexivity|]). by apply elem_of_nil in Hin.
  - intros Hsize degraded. unfold degraded. rewrite <- (total_degraded b).
    change (Some (Ok (sum_u64 degraded_one b)) = Some (Ok (total degraded_one b))). rewrite sum_u64_total by done.
    rewrite (wrap_u_id 64); [done|]. rewrite total_degraded. unfold in_u.
    pose proof (map_subseteq_size _ _ (map_filter_subseteq (λ kl, degraded_ kl.2 = true) (table_map (table_ b)))). lia.
  - intros Hlag Hsum. change (Some (sum_lag b) = Some (Ok (total replica_lag_ b))). rewrite total_entries in Hsum |- * by done.
    f_equal. apply (checked_sum (λ entry, replica_lag_ (pe_log entry)) _ 0); [|done|done]. apply Forall_forall. intros [key log] He.
    apply (Hlag key). by apply table_map_Some.
Qed.

(** A shard with the partition of the sample configuration. *)
Lemma metrics_report_witness :
  read_metric (str "queue_depth") (set_table_ (emplace_partition_log (mkTopicPartition (str "orders") 0) PartitionTable_init) BrokerShard_init)
    (λ _, 0) = Some (Ok 0).
Proof.
  refine (proj1 (proj2 (metrics_report _ (λ _, 0) _)) (str "queue_depth") queue_depth_ _).
  - split; [vm_compute; repeat constructor|done].
  - set_solver.
Defined.
