(* ===== verification/BenchOptions.v ===== *)
(** * The options of the benchmark client

    Models [Options], [require_value] and [parse_options] of
    src/tools/kafka_bench_client.cpp.  The arguments are the list
    [argv[1 ..]].  Numbers go through [std::stoi], [std::stoll] and
    [std::stoull], modelled here with what they accept beyond digits:
    leading blanks, a sign, and anything after the last digit.

    The theorems: the options a command line can produce are exactly those of
    [options_ok], each from the command line [command_line], and what the
    narrowing casts let through. *)

From Stdlib Require Import ZArith Lia.
From stdpp Require Import base tactics numbers option list.
From S2P Require Import Prelude Detail.

Local Open Scope Z_scope.

(** ** Numbers *)

(** [std::isspace] in the C locale. *)
Definition is_space (c : byte) : bool := (Z_of_byte c =? 32) || ((9 <=? Z_of_byte c) && (Z_of_byte c <=? 13)).

Fixpoint skip_spaces (s : cstring) : cstring :=
  match s with
  | c :: s' => if is_space c then skip_spaces s' else s
  | [] => []
  end.

(** The digits in front. *)
Fixpoint leading_digits (s : cstring) : cstring :=
  match s with
  | c :: s' => if is_digit c then c :: leading_digits s' else []
  | [] => []
  end.

(** What [strtol] and its kin read in base 10: a sign and a magnitude, or
    nothing. *)
Definition scan_number (s : cstring) : option (bool * Z) :=
  let s := skip_spaces s in
  let '(negative, s) :=
    match s with
    | c :: s' => if Z_of_byte c =? 45 then (true, s') else if Z_of_byte c =? 43 then (false, s') else (false, s)
    | [] => (false, [])
    end in
  match leading_digits s with
  | [] => None
  | digits => Some (negative, decimal_value digits)
  end.

(** A signed conversion to [bits] bits; [name] is in the exception. *)
Definition std_sto (name : cstring) (bits : Z) (s : cstring) : result Z :=
  match scan_number s with
  | None => Err (InvalidArgument name)
  | Some (negative, n) =>
      let v := if negative : bool then - n else n in
      if (- 2 ^ (bits - 1) <=? v) && (v <? 2 ^ (bits - 1)) then Ok v else Err (OutOfRange name)
  end.
Definition std_stoi : cstring → result Z := std_sto (str "stoi") 32.
Definition std_stoll : cstring → result Z := std_sto (str "stoll") 64.
(** [std::stoull] negates modulo 2^64 after a minus sign. *)
Definition std_stoull (s : cstring) : result Z :=
  match scan_number s with
  | None => Err (InvalidArgument (str "stoull"))
  | Some (negative, n) =>
      if n <? 2 ^ 64 then Ok (if negative : bool then u64 (- n) else n) else Err (OutOfRange (str "stoull"))
  end.

(** ** Options *)

Record Options := mkOptions {
  opt_host : cstring;
  opt_port : Z;
  opt_topic : cstring;
  opt_partition : Z;
  opt_messages : Z;
  opt_payload_size : Z;
  opt_acks : Z;
  opt_fetch_empty_wait_ms : Z;
  opt_fetch_offset : Z;
  opt_expect_fetch_error : option Z;
  opt_expect_metadata_error : option Z;
  opt_expect_list_offsets_error : option Z;
  opt_expect_fetch_min_bytes : option Z;
  opt_expect_fetch_max_bytes : option Z;
  opt_expect_produce_error : option Z;
  opt_transactional_id : option cstring;
  opt_idempotent_batch : bool;
  opt_metadata_only : bool;
  opt_list_offsets_only : bool;
  opt_fetch_only : bool;
  opt_smoke : bool;
}.

Definition set_host (v : cstring) (o : Options) : Options :=
  let '(mkOptions _ x2 x3 x4 x5 x6 x7 x8 x9 x10 x11 x12 x13 x14 x15 x16 x17 x18 x19 x20 x21) := o in
  mkOptions v x2 x3 x4 x5 x6 x7 x8 x9 x10 x11 x12 x13 x14 x15 x16 x17 x18 x19 x20 x21.
Definition set_port (v : Z) (o : Options) : Options :=
  let '(mkOptions x1 _ x3 x4 x5 x6 x7 x8 x9 x10 x11 x12 x13 x14 x15 x16 x17 x18 x19 x20 x21) := o in
  mkOptions x1 v x3 x4 x5 x6 x7 x8 x9 x10 x11 x12 x13 x14 x15 x16 x17 x18 x19 x20 x21.
Definition set_topic (v : cstring) (o : Options) : Options :=
  let '(mkOptions x1 x2 _ x4 x5 x6 x7 x8 x9 x10 x11 x12 x13 x14 x15 x16 x17 x18 x19 x20 x21) := o in
  mkOptions x1 x2 v x4 x5 x6 x7 x8 x9 x10 x11 x12 x13 x14 x15 x16 x17 x18 x19 x20 x21.
Definition set_partition (v : Z) (o : Options) : Options :=
  let '(mkOptions x1 x2 x3 _ x5 x6 x7 x8 x9 x10 x11 x12 x13 x14 x15 x16 x17 x18 x19 x20 x21) := o in
  mkOptions x1 x2 x3 v x5 x6 x7 x8 x9 x10 x11 x12 x13 x14 x15 x16 x17 x18 x19 x20 x21.
Definition set_messages (v : Z) (o : Options) : Options :=
  let '(mkOptions x1 x2 x3 x4 _ x6 x7 x8 x9 x10 x11 x12 x13 x14 x15 x16 x17 x18 x19 x20 x21) := o in
  mkOptions x1 x2 x3 x4 v x6 x7 x8 x9 x10 x11 x12 x13 x14 x15 x16 x17 x18 x19 x20 x21.
Definition set_payload_size (v : Z) (o : Options) : Options :=
  let '(mkOptions x1 x2 x3 x4 x5 _ x7 x8 x9 x10 x11 x12 x13 x14 x15 x16 x17 x18 x19 x20 x21) := o in
  mkOptions x1 x2 x3 x4 x5 v x7 x8 x9 x10 x11 x12 x13 x14 x15 x16 x17 x18 x19 x20 x21.
Definition set_acks (v : Z) (o : Options) : Options :=
  let '(mkOptions x1 x2 x3 x4 x5 x6 _ x8 x9 x10 x11 x12 x13 x14 x15 x16 x17 x18 x19 x20 x21) := o in
  mkOptions x1 x2 x3 x4 x5 x6 v x8 x9 x10 x11 x12 x13 x14 x15 x16 x17 x18 x19 x20 x21.
Definition set_fetch_empty_wait_ms (v : Z) (o : Options) : Options :=
  let '(mkOptions x1 x2 x3 x4 x5 x6 x7 _ x9 x10 x11 x12 x13 x14 x15 x16 x17 x18 x19 x20 x21) := o in
  mkOptions x1 x2 x3 x4 x5 x6 x7 v x9 x10 x11 x12 x13 x14 x15 x16 x17 x18 x19 x20 x21.
Definition set_fetch_offset (v : Z) (o : Options) : Options :=
  let '(mkOptions x1 x2 x3 x4 x5 x6 x7 x8 _ x10 x11 x12 x13 x14 x15 x16 x17 x18 x19 x20 x21) := o in
  mkOptions x1 x2 x3 x4 x5 x6 x7 x8 v x10 x11 x12 x13 x14 x15 x16 x17 x18 x19 x20 x21.
Definition set_expect_fetch_error (v : option Z) (o : Options) : Options :=
  let '(mkOptions x1 x2 x3 x4 x5 x6 x7 x8 x9 _ x11 x12 x13 x14 x15 x16 x17 x18 x19 x20 x21) := o in
  mkOptions x1 x2 x3 x4 x5 x6 x7 x8 x9 v x11 x12 x13 x14 x15 x16 x17 x18 x19 x20 x21.
Definition set_expect_metadata_error (v : option Z) (o : Options) : Options :=
  let '(mkOptions x1 x2 x3 x4 x5 x6 x7 x8 x9 x10 _ x12 x13 x14 x15 x16 x17 x18 x19 x20 x21) := o in
  mkOptions x1 x2 x3 x4 x5 x6 x7 x8 x9 x10 v x12 x13 x14 x15 x16 x17 x18 x19 x20 x21.
Definition set_expect_list_offsets_error (v : option Z) (o : Options) : Options :=
  let '(mkOptions x1 x2 x3 x4 x5 x6 x7 x8 x9 x10 x11 _ x13 x14 x15 x16 x17 x18 x19 x20 x21) := o in
  mkOptions x1 x2 x3 x4 x5 x6 x7 x8 x9 x10 x11 v x13 x14 x15 x16 x17 x18 x19 x20 x21.
Definition set_expect_fetch_min_bytes (v : option Z) (o : Options) : Options :=
  let '(mkOptions x1 x2 x3 x4 x5 x6 x7 x8 x9 x10 x11 x12 _ x14 x15 x16 x17 x18 x19 x20 x21) := o in
  mkOptions x1 x2 x3 x4 x5 x6 x7 x8 x9 x10 x11 x12 v x14 x15 x16 x17 x18 x19 x20 x21.
Definition set_expect_fetch_max_bytes (v : option Z) (o : Options) : Options :=
  let '(mkOptions x1 x2 x3 x4 x5 x6 x7 x8 x9 x10 x11 x12 x13 _ x15 x16 x17 x18 x19 x20 x21) := o in
  mkOptions x1 x2 x3 x4 x5 x6 x7 x8 x9 x10 x11 x12 x13 v x15 x16 x17 x18 x19 x20 x21.
Definition set_expect_produce_error (v : option Z) (o : Options) : Options :=
  let '(mkOptions x1 x2 x3 x4 x5 x6 x7 x8 x9 x10 x11 x12 x13 x14 _ x16 x17 x18 x19 x20 x21) := o in
  mkOptions x1 x2 x3 x4 x5 x6 x7 x8 x9 x10 x11 x12 x13 x14 v x16 x17 x18 x19 x20 x21.
Definition set_transactional_id (v : option cstring) (o : Options) : Options :=
  let '(mkOptions x1 x2 x3 x4 x5 x6 x7 x8 x9 x10 x11 x12 x13 x14 x15 _ x17 x18 x19 x20 x21) := o in
  mkOptions x1 x2 x3 x4 x5 x6 x7 x8 x9 x10 x11 x12 x13 x14 x15 v x17 x18 x19 x20 x21.
Definition set_idempotent_batch (v : bool) (o : Options) : Options :=
  let '(mkOptions x1 x2 x3 x4 x5 x6 x7 x8 x9 x10 x11 x12 x13 x14 x15 x16 _ x18 x19 x20 x21) := o in
  mkOptions x1 x2 x3 x4 x5 x6 x7 x8 x9 x10 x11 x12 x13 x14 x15 x16 v x18 x19 x20 x21.
Definition set_metadata_only (v : bool) (o : Options) : Options :=
  let '(mkOptions x1 x2 x3 x4 x5 x6 x7 x8 x9 x10 x11 x12 x13 x14 x15 x16 x17 _ x19 x20 x21) := o in
  mkOptions x1 x2 x3 x4 x5 x6 x7 x8 x9 x10 x11 x12 x13 x14 x15 x16 x17 v x19 x20 x21.
Definition set_list_offsets_only (v : bool) (o : Options) : Options :=
  let '(mkOptions x1 x2 x3 x4 x5 x6 x7 x8 x9 x10 x11 x12 x13 x14 x15 x16 x17 x18 _ x20 x21) := o in
  mkOptions x1 x2 x3 x4 x5 x6 x7 x8 x9 x10 x11 x12 x13 x14 x15 x16 x17 x18 v x20 x21.
Definition set_fetch_only (v : bool) (o : Options) : Options :=
  let '(mkOptions x1 x2 x3 x4 x5 x6 x7 x8 x9 x10 x11 x12 x13 x14 x15 x16 x17 x18 x19 _ x21) := o in
  mkOptions x1 x2 x3 x4 x5 x6 x7 x8 x9 x10 x11 x12 x13 x14 x15 x16 x17 x18 x19 v x21.
Definition set_smoke (v : bool) (o : Options) : Options :=
  let '(mkOptions x1 x2 x3 x4 x5 x6 x7 x8 x9 x10 x11 x12 x13 x14 x15 x16 x17 x18 x19 x20 _) := o in
  mkOptions x1 x2 x3 x4 x5 x6 x7 x8 x9 x10 x11 x12 x13 x14 x15 x16 x17 x18 x19 x20 v.

Definition default_options : Options :=
  mkOptions (str "127.0.0.1") 9092 (str "orders") 0 10000 128 1 0 0 None None None None None None None
    false false false false false.

(** ** Parsing *)

(** [require_value(i, argc, argv, name)]: [rest] is what follows the option;
    [k] goes on with the value and what follows it. *)
Definition require_value {A} (rest : list cstring) (name : cstring) (k : cstring → list cstring → result A) : result A :=
  match rest with
  | [] => Err (RuntimeError (str "missing value for " ++ name))
  | value :: rest' => k value rest'
  end.

(** [std::exit(0)] after the usage text, or options to run with. *)
Inductive parsed :=
| Usage
| Parsed (o : Options).

(** What an argument is: an option with a value, a flag, or the help. *)
Inductive argument :=
| WithValue (set : cstring → Options → result Options)
| Flag (set : Options → Options)
| Help
| Unknown.

(** An option whose value is converted, then cast and stored. *)
Definition numeric (convert : cstring → result Z) (set : Z → Options → Options) : argument :=
  WithValue (λ v o, z ← convert v; Ok (set z o)).

(** The chain of comparisons, in its order. *)
Definition argument_of (arg : cstring) : argument :=
  if cstring_eqb arg (str "--host") then WithValue (λ v o, Ok (set_host v o))
  else if cstring_eqb arg (str "--port") then numeric std_stoi (λ z, set_port (u16 z))
  else if cstring_eqb arg (str "--topic") then WithValue (λ v o, Ok (set_topic v o))
  else if cstring_eqb arg (str "--partition") then numeric std_stoi set_partition
  else if cstring_eqb arg (str "--messages") then numeric std_stoi set_messages
  else if cstring_eqb arg (str "--payload-size") then numeric std_stoi set_payload_size
  else if cstring_eqb arg (str "--acks") then numeric std_stoi (λ z, set_acks (i16 z))
  else if cstring_eqb arg (str "--fetch-empty-wait-ms") then numeric std_stoi set_fetch_empty_wait_ms
  else if cstring_eqb arg (str "--fetch-offset") then numeric std_stoll set_fetch_offset
  else if cstring_eqb arg (str "--expect-fetch-error") then numeric std_stoi (λ z, set_expect_fetch_error (Some (i16 z)))
  else if cstring_eqb arg (str "--expect-metadata-error") then numeric std_stoi (λ z, set_expect_metadata_error (Some (i16 z)))
  else if cstring_eqb arg (str "--expect-list-offsets-error")
  then numeric std_stoi (λ z, set_expect_list_offsets_error (Some (i16 z)))
  else if cstring_eqb arg (str "--expect-fetch-min-bytes") then numeric std_stoull (λ z, set_expect_fetch_min_bytes (Some z))
  else if cstring_eqb arg (str "--expect-fetch-max-bytes") then numeric std_stoull (λ z, set_expect_fetch_max_bytes (Some z))
  else if cstring_eqb arg (str "--expect-produce-error") then numeric std_stoi (λ z, set_expect_produce_error (Some (i16 z)))
  else if cstring_eqb arg (str "--transactional-id") then WithValue (λ v o, Ok (set_transactional_id (Some v) o))
  else if cstring_eqb arg (str "--idempotent-batch") then Flag (set_idempotent_batch true)
  else if cstring_eqb arg (str "--metadata-only") then Flag (set_metadata_only true)
  else if cstring_eqb arg (str "--list-offsets-only") then Flag (set_list_offsets_only true)
  else if cstring_eqb arg (str "--fetch-only") then Flag (set_fetch_only true)
  else if cstring_eqb arg (str "--smoke") then Flag (λ o, set_messages 1 (set_smoke true o))
  else if cstring_eqb arg (str "--help") then Help
  else Unknown.

(** The check after the loop. *)
Definition check_options (o : Options) : result parsed :=
  if (opt_messages o <=? 0) || (opt_payload_size o <? 0) || (opt_acks o <? -1) || (opt_acks o >? 1) ||
     (opt_fetch_empty_wait_ms o <? 0)
  then Err (RuntimeError (str "messages must be positive, payload-size non-negative, acks one of 0, 1, -1, and fetch wait non-negative"))
  else Ok (Parsed o).

Fixpoint parse_args (args : list cstring) (o : Options) : result parsed :=
  match args with
  | [] => check_options o
  | arg :: rest =>
      match argument_of arg with
      | WithValue set => require_value rest arg (λ value rest', o' ← set value o; parse_args rest' o')
      | Flag set => parse_args rest (set o)
      | Help => Ok Usage
      | Unknown => Err (RuntimeError (str "unknown argument: " ++ arg))
      end
  end.
Definition parse_options (args : list cstring) : result parsed := parse_args args default_options.

(** ** What options are, and how to write them *)

(** Every field in its type, and what the check demands. *)
Definition opt_in (P : Z → Prop) (z : option Z) : Prop := from_option P True z.
Definition fields_ok (o : Options) : Prop :=
  in_u 16 (opt_port o) ∧ in_s 32 (opt_partition o) ∧ in_s 32 (opt_messages o) ∧ in_s 32 (opt_payload_size o) ∧
  in_s 16 (opt_acks o) ∧ in_s 32 (opt_fetch_empty_wait_ms o) ∧ in_s 64 (opt_fetch_offset o) ∧
  opt_in (in_s 16) (opt_expect_fetch_error o) ∧ opt_in (in_s 16) (opt_expect_metadata_error o) ∧
  opt_in (in_s 16) (opt_expect_list_offsets_error o) ∧ opt_in (in_u 64) (opt_expect_fetch_min_bytes o) ∧
  opt_in (in_u 64) (opt_expect_fetch_max_bytes o) ∧ opt_in (in_s 16) (opt_expect_produce_error o).
Definition options_ok (o : Options) : Prop :=
  fields_ok o ∧ 0 < opt_messages o ∧ 0 <= opt_payload_size o ∧ -1 <= opt_acks o <= 1 ∧ 0 <= opt_fetch_empty_wait_ms o.

(** A command line for [o]: [--smoke] comes first since it sets the number
    of messages. *)
Definition arg_of {A} (name : cstring) (show : A → cstring) (v : option A) : list cstring :=
  match v with Some v => [name; show v] | None => [] end.
Definition flag_of (name : cstring) (b : bool) : list cstring := if b then [name] else [].
Definition command_line (o : Options) : list cstring :=
  flag_of (str "--smoke") (opt_smoke o) ++
  [str "--host"; opt_host o; str "--port"; to_string (opt_port o); str "--topic"; opt_topic o;
   str "--partition"; to_string (opt_partition o); str "--messages"; to_string (opt_messages o);
   str "--payload-size"; to_string (opt_payload_size o); str "--acks"; to_string (opt_acks o);
   str "--fetch-empty-wait-ms"; to_string (opt_fetch_empty_wait_ms o);
   str "--fetch-offset"; to_string (opt_fetch_offset o)] ++
  arg_of (str "--expect-fetch-error") to_string (opt_expect_fetch_error o) ++
  arg_of (str "--expect-metadata-error") to_string (opt_expect_metadata_error o) ++
  arg_of (str "--expect-list-offsets-error") to_string (opt_expect_list_offsets_error o) ++
  arg_of (str "--expect-fetch-min-bytes") to_string (opt_expect_fetch_min_bytes o) ++
  arg_of (str "--expect-fetch-max-bytes") to_string (opt_expect_fetch_max_bytes o) ++
  arg_of (str "--expect-produce-error") to_string (opt_expect_produce_error o) ++
  arg_of (str "--transactional-id") id (opt_transactional_id o) ++
  flag_of (str "--idempotent-batch") (opt_idempotent_batch o) ++
  flag_of (str "--metadata-only") (opt_metadata_only o) ++
  flag_of (str "--list-offsets-only") (opt_list_offsets_only o) ++
  flag_of (str "--fetch-only") (opt_fetch_only o).

(** ** Lemmas: numbers *)

Lemma leading_digits_all ds : forallb is_digit ds = true → leading_digits ds = ds.
Proof.
  induction ds as [|d ds IH]; [done|]. cbn [forallb leading_digits]. intros [-> Hds]%andb_true_iff.
  by rewrite IH.
Qed.

Lemma digit_not_space c : is_digit c = true → is_space c = false ∧ (Z_of_byte c =? 45) = false ∧ (Z_of_byte c =? 43) = false.
Proof.
  unfold is_digit, is_space. intros [?%Z.leb_le ?%Z.leb_le]%andb_true_iff. bcase; try lia; done.
Qed.

Lemma scan_digits ds : forallb is_digit ds = true → ds ≠ [] → scan_number ds = Some (false, decimal_value ds).
Proof.
  intros Hds Hne. destruct ds as [|d ds]; [done|]. unfold scan_number. cbn [skip_spaces].
  assert (is_digit d = true) as Hd by (cbn [forallb] in Hds; by apply andb_true_iff in Hds as [? _]).
  destruct (digit_not_space d Hd) as (-> & -> & ->). by rewrite leading_digits_all.
Qed.

Lemma scan_minus ds : forallb is_digit ds = true → ds ≠ [] → scan_number (str "-" ++ ds) = Some (true, decimal_value ds).
Proof.
  intros Hds Hne. unfold scan_number. cbn. rewrite leading_digits_all by done. by destruct ds.
Qed.

(** What [std::to_string] prints is read back. *)
Lemma scan_to_string z : - 10 ^ 20 < z < 10 ^ 20 → scan_number (to_string z) = Some (z <? 0, Z.abs z).
Proof.
  intros Hz. destruct (Z.ltb_spec z 0) as [Hneg|Hpos].
  - assert (to_string z = str "-" ++ to_string (- z)) as ->.
    { rewrite (to_string_nonneg (- z)) by lia. unfold to_string. by destruct (Z.ltb_spec z 0); [|lia]. }
    destruct (to_string_digits (- z)) as [Hd Hne]; [lia|]. rewrite scan_minus, to_string_value by (done || lia).
    do 2 f_equal. lia.
  - destruct (to_string_digits z) as [Hd Hne]; [lia|]. rewrite scan_digits, to_string_value by (done || lia).
    do 2 f_equal. lia.
Qed.

Lemma std_sto_to_string name bits z : 0 < bits <= 64 → in_s bits z → std_sto name bits (to_string z) = Ok z.
Proof.
  intros Hb Hz. unfold std_sto. unfold in_s in Hz. pose proof (Z.pow_le_mono_r 2 (bits - 1) 63 ltac:(lia) ltac:(lia)).
  rewrite scan_to_string by lia. assert ((if z <? 0 then - Z.abs z else Z.abs z) = z) as -> by (bcase; lia).
  destruct (Z.leb_spec (- 2 ^ (bits - 1)) z), (Z.ltb_spec z (2 ^ (bits - 1))); try lia. done.
Qed.

Lemma std_stoull_to_string z : in_u 64 z → std_stoull (to_string z) = Ok z.
Proof.
  unfold in_u. intros Hz. unfold std_stoull. rewrite scan_to_string by lia.
  destruct (Z.ltb_spec z 0); [lia|]. rewrite Z.abs_eq by lia. by destruct (Z.ltb_spec z (2 ^ 64)); [|lia].
Qed.

Lemma std_sto_range name bits s z : std_sto name bits s = Ok z → in_s bits z.
Proof.
  unfold std_sto, in_s. destruct (scan_number s) as [[neg n]|]; [|done].
  destruct (_ && _) eqn:E; [|done]. intros [= <-]. apply andb_true_iff in E as [?%Z.leb_le ?%Z.ltb_lt]. done.
Qed.

Lemma decimal_fold_nonneg ds acc :
  forallb is_digit ds = true → 0 <= acc → 0 <= fold_left (λ acc c, acc * 10 + (Z_of_byte c - 48)) ds acc.
Proof.
  revert acc. induction ds as [|d ds IH]; [done|]. cbn [forallb fold_left]. intros acc [Hd Hds]%andb_true_iff Hacc.
  apply IH; [done|]. unfold is_digit in Hd. apply andb_true_iff in Hd as [?%Z.leb_le ?%Z.leb_le]. lia.
Qed.

Lemma leading_digits_digits s : forallb is_digit (leading_digits s) = true.
Proof. induction s as [|c s IH]; [done|]. cbn [leading_digits]. destruct (is_digit c) eqn:E; [|done]. simpl. by rewrite E. Qed.

Lemma scan_number_nonneg s neg n : scan_number s = Some (neg, n) → 0 <= n.
Proof.
  unfold scan_number. destruct (match skip_spaces s with [] => _ | _ => _ end) as [neg' s'].
  pose proof (leading_digits_digits s') as Hd. destruct (leading_digits s') eqn:E; [done|]. rewrite <- E in *.
  intros [= _ <-]. by apply decimal_fold_nonneg.
Qed.

Lemma std_stoull_range s z : std_stoull s = Ok z → in_u 64 z.
Proof.
  unfold std_stoull. destruct (scan_number s) as [[neg n]|] eqn:E; [|done]. apply scan_number_nonneg in E.
  destruct (Z.ltb_spec n (2 ^ 64)); [|done]. intros [= <-]. destruct neg; [by apply wrap_u_range|done].
Qed.

(** ** Lemmas: the loop *)

Lemma parse_value name set v rest o o' :
  argument_of name = WithValue set → set v o = Ok o' → parse_args (name :: v :: rest) o = parse_args rest o'.
Proof. intros Hn Hs. cbn [parse_args]. rewrite Hn. unfold require_value. by rewrite Hs. Qed.

Lemma parse_flag name set rest o : argument_of name = Flag set → parse_args (name :: rest) o = parse_args rest (set o).
Proof. intros Hn. cbn [parse_args]. by rewrite Hn. Qed.

(** An optional option, absent when the field has its default. *)
Lemma parse_arg_of {A} name set (show : A → cstring) (v : option A) rest o o' :
  argument_of name = WithValue set → (∀ x, v = Some x → set (show x) o = Ok o') → (v = None → o' = o) →
  parse_args (arg_of name show v ++ rest) o = parse_args rest o'.
Proof.
  intros Hn Hs Hd. destruct v as [x|]; cbn [arg_of app]; [by eapply parse_value; [|apply Hs]|by rewrite Hd].
Qed.

Lemma parse_flag_of name set (b : bool) rest o o' :
  argument_of name = Flag set → (if b then o' = set o else o' = o) →
  parse_args (flag_of name b ++ rest) o = parse_args rest o'.
Proof. intros Hn Hb. destruct b; subst o'; cbn [flag_of app]; [by apply parse_flag|done]. Qed.

(** Every option keeps the fields in their types. *)
Definition keeps_fields (a : argument) : Prop :=
  match a with
  | WithValue set => ∀ v o o', fields_ok o → set v o = Ok o' → fields_ok o'
  | Flag set => ∀ o, fields_ok o → fields_ok (set o)
  | _ => True
  end.

Lemma numeric_keeps convert set (P : Z → Prop) :
  (∀ s z, convert s = Ok z → P z) → (∀ z o, P z → fields_ok o → fields_ok (set z o)) → keeps_fields (numeric convert set).
Proof.
  intros Hc Hs v o o' Ho. cbn. destruct (convert v) as [z|e] eqn:E; [|done]. intros [= <-]. eauto.
Qed.

Ltac fields_step :=
  let o := fresh "o" in intros ? o; intros; destruct o; unfold fields_ok in *; cbn in *; naive_solver.

Lemma argument_keeps_fields arg : keeps_fields (argument_of arg).
Proof.
  unfold argument_of.
  repeat match goal with |- keeps_fields (if ?b then _ else _) => destruct b end; try done.
  all: try (intros v o o' Ho [= <-]; destruct o; done).
  all: try (intros o Ho; destruct o; unfold fields_ok in *; cbn in *; split_and!; first [tauto|done]).
  all: try (eapply numeric_keeps; [intros s z Hz; exact (std_stoull_range s z Hz)|fields_step]).
  all: try (eapply numeric_keeps; [intros s z Hz; exact (std_sto_range _ _ s z Hz)|]; fields_step).
  all: eapply (numeric_keeps _ _ (λ _, True)); [done|]; intros z o _ Ho; destruct o; unfold fields_ok in *; cbn in *.
  all: pose proof (wrap_u_range 16 z ltac:(lia)); pose proof (wrap_s_range 16 z ltac:(lia)); naive_solver.
Qed.

Lemma default_fields_ok : fields_ok default_options.
Proof. repeat split; vm_compute; congruence. Qed.

Lemma parse_args_ok args o o' : fields_ok o → parse_args args o = Ok (Parsed o') → options_ok o'.
Proof.
  remember (length args) as n eqn:Hn. revert args Hn o. induction (lt_wf n) as [n _ IH]. intros args -> o Ho.
  destruct args as [|arg rest]; cbn [parse_args].
  - unfold check_options, options_ok. destruct (_ || _) eqn:E; [done|]. intros [= <-]. revert E.
    rewrite Z.gtb_ltb. bcase; done.
  - pose proof (argument_keeps_fields arg) as Hk. destruct (argument_of arg) as [set|set| |]; try done.
    + unfold require_value. destruct rest as [|v rest]; [done|]. destruct (set v o) as [o1|e] eqn:Hs; [|done].
      apply (IH (length rest)); [simpl; lia|done|]. by eapply Hk.
    + apply (IH (length rest)); [simpl; lia|done|]. by apply Hk.
Qed.

(** Numbers that [to_string] printed, cast to their type. *)
Lemma std_stoi_narrow z : in_s 16 z → std_stoi (to_string z) = Ok z ∧ i16 z = z.
Proof.
  intros Hz. split; [apply std_sto_to_string; [lia|]|by apply wrap_s_id]. unfold in_s in *.
  change (2 ^ (16 - 1)) with 32768 in Hz. change (2 ^ (32 - 1)) with 2147483648. lia.
Qed.
Lemma std_stoi_port z : in_u 16 z → std_stoi (to_string z) = Ok z ∧ u16 z = z.
Proof.
  intros Hz. split; [apply std_sto_to_string; [lia|]|by apply wrap_u_id]. unfold in_s, in_u in *.
  change (2 ^ 16) with 65536 in Hz. change (2 ^ (32 - 1)) with 2147483648. lia.
Qed.
Lemma std_stoi_i32 z : in_s 32 z → std_stoi (to_string z) = Ok z.
Proof. by apply std_sto_to_string. Qed.
Lemma std_stoll_i64 z : in_s 64 z → std_stoll (to_string z) = Ok z.
Proof. by apply std_sto_to_string. Qed.

Ltac convert_number :=
  unfold numeric;
  first [ reflexivity
        | rewrite std_stoi_i32 by done; reflexivity
        | rewrite std_stoll_i64 by done; reflexivity
        | rewrite std_stoull_to_string by done; reflexivity
        | match goal with
          | H : in_s 16 ?z |- context [std_stoi (to_string ?z)] =>
              destruct (std_stoi_narrow z H) as [E1 E2]; rewrite E1; simpl; rewrite E2; reflexivity
          | H : in_u 16 ?z |- context [std_stoi (to_string ?z)] =>
              destruct (std_stoi_port z H) as [E1 E2]; rewrite E1; simpl; rewrite E2; reflexivity
          end ].
(** The next option of [command_line]: it sets its field to [v]. *)
Ltac value_step set v := erewrite (λ rest o, parse_value _ _ _ rest o (set v o)) by (reflexivity || convert_number).
Ltac option_step set v :=
  erewrite (λ rest o, parse_arg_of _ _ _ v rest o (set v o));
  [|reflexivity
   |let x := fresh "x" in let E := fresh "E" in intros x E; rewrite E in *; cbn [from_option opt_in] in *; convert_number
   |let E := fresh "E" in intros E; rewrite E; reflexivity].
Ltac flag_step set b :=
  erewrite (λ rest o, parse_flag_of _ _ b rest o (set b o)); [|reflexivity|by destruct b].

Lemma command_line_parsed o : options_ok o → parse_options (command_line o) = Ok (Parsed o).
Proof.
  intros ((? & ? & ? & ? & ? & ? & ? & ? & ? & ? & ? & ? & ?) & Hm & Hp & Ha & Hw). unfold parse_options, command_line.
  set (o0 := set_smoke (opt_smoke o) (set_messages (if opt_smoke o then 1 else 10000) default_options)).
  rewrite (parse_flag_of _ (λ o, set_messages 1 (set_smoke true o)) _ _ _ o0) by (by try (unfold o0; destruct (opt_smoke o))).
  rewrite <- !app_comm_cons, app_nil_l.
  value_step set_host (opt_host o). value_step set_port (opt_port o). value_step set_topic (opt_topic o).
  value_step set_partition (opt_partition o). value_step set_messages (opt_messages o).
  value_step set_payload_size (opt_payload_size o). value_step set_acks (opt_acks o).
  value_step set_fetch_empty_wait_ms (opt_fetch_empty_wait_ms o). value_step set_fetch_offset (opt_fetch_offset o).
  option_step set_expect_fetch_error (opt_expect_fetch_error o).
  option_step set_expect_metadata_error (opt_expect_metadata_error o).
  option_step set_expect_list_offsets_error (opt_expect_list_offsets_error o).
  option_step set_expect_fetch_min_bytes (opt_expect_fetch_min_bytes o).
  option_step set_expect_fetch_max_bytes (opt_expect_fetch_max_bytes o).
  option_step set_expect_produce_error (opt_expect_produce_error o).
  option_step set_transactional_id (opt_transactional_id o).
  flag_step set_idempotent_batch (opt_idempotent_batch o). flag_step set_metadata_only (opt_metadata_only o).
  flag_step set_list_offsets_only (opt_list_offsets_only o). rewrite <- (app_nil_r (flag_of _ _)).
  flag_step set_fetch_only (opt_fetch_only o).
  cbn [parse_args]. transitivity (check_options o); [by destruct o|].
  unfold check_options. rewrite Z.gtb_ltb. bcase; try lia; done.
Qed.

(** ** Theorems *)

(** The options a command line can produce are exactly those whose fields
    fit their types, with a positive number of messages, a payload size and a
    fetch wait that are not negative, and acks -1, 0 or 1: [parse_options]
    never returns others, and each of them is what it returns for
    [command_line]. *)
Theorem parse_options_exact (o : Options) :
  (∀ args, parse_options args = Ok (Parsed o) → options_ok o) ∧
  (options_ok o → parse_options (command_line o) = Ok (Parsed o)).
Proof.
  split; [|apply command_line_parsed]. intros args. apply parse_args_ok, default_fields_ok.
Qed.

(** The casts narrow before the check: a port, an error code or acks outside
    its type is silently reduced modulo 2^16, so that "--acks 65537" is
    accepted as 1 and "--port 74628" as 9092; text after the digits is ignored;
    and [--smoke] after [--messages] undoes it. *)
Theorem parse_options_narrows :
  parse_options [str "--acks"; str "65537"] = Ok (Parsed default_options) ∧
  parse_options [str "--port"; str "74628"] = Ok (Parsed default_options) ∧
  parse_options [str "--payload-size"; str "128MB"] = Ok (Parsed default_options) ∧
  parse_options [str "--messages"; str "5"; str "--smoke"]
    = Ok (Parsed (set_smoke true (set_messages 1 default_options))).
Proof. done. Qed.

Lemma parse_options_exact_witness :
  options_ok default_options ∧
  parse_options (command_line (set_acks (-1) (set_smoke true default_options)))
  = Ok (Parsed (set_acks (-1) (set_smoke true default_options))).
Proof.
  split; [apply (proj1 (parse_options_exact default_options) []); done|].
  apply (proj2 (parse_options_exact (set_acks (-1) (set_smoke true default_options)))).
  repeat split; vm_compute; congruence.
Defined.
