(* ===== verification/BenchClient.v ===== *)
(** * The benchmark client

    Models src/tools/kafka_bench_client.cpp but for its options, which are in
    BenchOptions.v: the socket with its two loops, the request bodies and the
    record batch, the readers of responses, the four modes ([run_smoke],
    [run_list_offsets_only], [run_fetch_only], [run_benchmark]) and [main].

    The system calls are the interface [Posix].  [recv] gives the bytes it
    stored (none: the peer closed), [send] the number of bytes it took; both
    may be interrupted by a signal or fail.  What is printed is kept as a
    list of items; a duration is kept in nanoseconds, which is what
    [steady_clock] counts, and not as the text of a [double].

    The loops around [recv] and [send] take [rounds] calls at most; running
    out is an [UndefinedBehavior]. *)

From Stdlib Require Import ZArith Lia SpecFloat.
From stdpp Require Import base tactics numbers option sorting list.
From S2P Require Import Prelude Wire Protocol Codec Crc32c RecordBatch Detail Storage BenchOptions.

Local Open Scope Z_scope.

(** ** The system *)

Inductive sysret (A : Type) :=
| Returned (a : A)
| Interrupted
| Failed.
Arguments Returned {A} _.
Arguments Interrupted {A}.
Arguments Failed {A}.

Class Posix := {
  Sys : Type;
  sys_socket : Sys → Z * Sys;
  sys_nodelay : Z → Sys → Sys;
  inet_pton : cstring → option Z;
  (** [connect], and the text of [errno] when it fails. *)
  sys_connect : Z → Z → Z → Sys → option cstring * Sys;
  sys_recv : Z → Z → Sys → sysret bytes * Sys;
  sys_send : Z → bytes → Sys → sysret Z * Sys;
  sys_close : Z → Sys → Sys;
  steady_clock_now : Sys → Z * Sys;
}.

(** What is printed. *)
Inductive item :=
| Text (s : cstring)
| Micros (ns : Z).
Definition newline : item := Text (str "
").

Record Process `{Posix} := mkProcess {
  sys : Sys;
  cout : list item;
  cerr : cstring;
}.

(** ** Reading and writing varints and integers in a vector *)

Definition put_i64_be (pos value : Z) : Vec unit := write_shifted pos (u64 value) [56; 48; 40; 32; 24; 16; 8; 0].

Definition put_i32_be (pos value : Z) : Vec unit :=
  let raw := u32 value in
  vec_set pos (Z.land (Z.shiftr raw 24) 0xff);;
  vec_set (pos + 1) (Z.land (Z.shiftr raw 16) 0xff);;
  vec_set (pos + 2) (Z.land (Z.shiftr raw 8) 0xff);;
  vec_set (pos + 3) (Z.land raw 0xff).

Definition put_i16_be (pos value : Z) : Vec unit :=
  let raw := u16 value in
  vec_set pos (Z.land (Z.shiftr raw 8) 0xff);;
  vec_set (pos + 1) (Z.land raw 0xff).

(** Seven bits a round: ten rounds are enough for 64 bits. *)
Fixpoint unsigned_varint_loop (fuel : nat) (value : Z) : Vec unit :=
  match fuel with
  | O => out_of_rounds
  | S fuel' =>
      if negb (Z.land value 0xffffffffffffff80 =? 0) then
        push_back (Z.lor (Z.land value 0x7f) 0x80);;
        unsigned_varint_loop fuel' (Z.shiftr value 7)
      else push_back value
  end.
Definition append_unsigned_varint (value : Z) : Vec unit := unsigned_varint_loop 10 (u64 value).

Definition append_varint (value : Z) : Vec unit :=
  let raw := u32 value in
  append_unsigned_varint (Z.lxor (u32 (Z.shiftl raw 1)) (u32 (Z.shiftr value 31))).

Definition append_varlong (value : Z) : Vec unit :=
  let raw := u64 value in
  append_unsigned_varint (Z.lxor (u64 (Z.shiftl raw 1)) (u64 (Z.shiftr value 63))).

(** ** Requests *)

Section requests.
Context `{Crc32Intrinsics}.

(** [for (i < payload_size) record_body.push_back(i)]. *)
Definition payload_bytes (payload_size : Z) : bytes := map (λ i, byte_of_Z (Z.of_nat i)) (seq 0 (Z.to_nat payload_size)).

Definition make_record_body (payload_size : Z) : result bytes :=
  take_bytes (
    push_back 0;;
    append_varlong 0;;
    append_varint 0;;
    append_varint (-1);;
    append_varint payload_size;;
    write_raw (payload_bytes payload_size);;
    append_varint 0).

(** [std::copy(records.begin(), records.end(), batch.begin() + pos)]. *)
Definition copy_to (pos : Z) (records : bytes) : Vec unit := λ batch,
  if pos + zlen records <=? zlen batch
  then Ok (tt, take (Z.to_nat pos) batch ++ records ++ drop (Z.to_nat pos + length records) batch)
  else Err (UndefinedBehavior (str "copy out of range")).

Definition make_record_batch (options : Options) : result bytes :=
  let payload_size := opt_payload_size options in
  let idempotent_batch := opt_idempotent_batch options in
  record_body ← make_record_body payload_size;
  records ← take_bytes (append_varint (i32 (zlen record_body));; write_raw record_body);
  let size := 61 + zlen records in
  let batch_length := i32 (size - 12) in
  '(_, batch) ← (
    put_i32_be 8 batch_length;;
    vec_set 16 2;;
    put_i64_be 43 (if idempotent_batch then 1 else -1);;
    put_i16_be 51 (if idempotent_batch then 0 else -1);;
    put_i32_be 53 (if idempotent_batch then 0 else -1);;
    put_i32_be 57 1;;
    copy_to 61 records;;
    n ← gets zlen;
    crc ← crc32c_at 21 (u64 (n - 21));
    put_i32_be 17 (i32 crc)) (replicate (Z.to_nat size) Byte.x00);
  Ok batch.

Definition make_api_versions_body : result bytes :=
  take_bytes (
    write_compact_string (str "mkmq-bench");;
    write_compact_string (str "0.1");;
    write_empty_tagged_fields).

Definition make_metadata_body (options : Options) : result bytes :=
  take_bytes (
    write_array_count 1 true;;
    write_compact_string (opt_topic options);;
    write_empty_tagged_fields;;
    write_bool false;;
    write_bool false;;
    write_bool false;;
    write_empty_tagged_fields).

Definition make_produce_body (options : Options) (acks : Z) : result bytes :=
  batch ← make_record_batch options;
  take_bytes (
    write_compact_nullable_string (opt_transactional_id options);;
    write_int16 acks;;
    write_int32 100;;
    write_array_count 1 true;;
    write_compact_string (opt_topic options);;
    write_array_count 1 true;;
    write_int32 (opt_partition options);;
    write_compact_nullable_bytes (Some batch);;
    write_empty_tagged_fields;;
    write_empty_tagged_fields;;
    write_empty_tagged_fields).

Definition make_fetch_body (options : Options) (offset max_wait_ms : Z) : result bytes :=
  take_bytes (
    write_int32 (-1);;
    write_int32 max_wait_ms;;
    write_int32 1;;
    write_int32 (1024 * 1024);;
    write_int8 0;;
    write_int32 0;;
    write_int32 (-1);;
    write_array_count 1 true;;
    write_compact_string (opt_topic options);;
    write_array_count 1 true;;
    write_int32 (opt_partition options);;
    write_int32 0;;
    write_int64 offset;;
    write_int32 (-1);;
    write_int64 (-1);;
    write_int32 (1024 * 1024);;
    write_empty_tagged_fields;;
    write_empty_tagged_fields;;
    write_array_count 0 true;;
    write_compact_string (str "");;
    write_empty_tagged_fields).

Definition make_list_offsets_body (options : Options) (timestamp : Z) : result bytes :=
  take_bytes (
    write_int32 (-1);;
    write_int8 0;;
    write_array_count 1 true;;
    write_compact_string (opt_topic options);;
    write_array_count 1 true;;
    write_int32 (opt_partition options);;
    write_int32 (-1);;
    write_int64 timestamp;;
    write_empty_tagged_fields;;
    write_empty_tagged_fields;;
    write_empty_tagged_fields).

Definition wrap_request (api_key api_version correlation_id : Z) (body : bytes) : result bytes :=
  take_bytes (
    write_int32 0;;
    write_int16 api_key;;
    write_int16 api_version;;
    write_int32 correlation_id;;
    write_nullable_string (Some (str "mkmq-bench"));;
    write_empty_tagged_fields;;
    write_raw body;;
    size ← writer_size;
    patch_int32 0 (i32 (size - 4))).
End requests.

(** ** Responses *)

(** The value of a reader on a whole frame. *)
Definition read_frame {A} (m : Reader A) (frame : bytes) : result A :=
  match m (WireReader_of frame) with Ok (a, _) => Ok a | Err e => Err e end.

Definition check_correlation (correlation_id : Z) : Reader unit :=
  read_int32;;
  actual ← read_int32;
  if negb (actual =? correlation_id) then throw (RuntimeError (str "unexpected correlation id in response"))
  else mret tt.

Definition expect_correlation (frame : bytes) (correlation_id : Z) : result unit :=
  read_frame (check_correlation correlation_id) frame.

Definition skip_response_header_tags (correlation_id : Z) : Reader unit :=
  check_correlation correlation_id;;
  skip_tagged_fields.

(** [if (read_array_count(true) <= 0) throw runtime_error(message)]. *)
Definition require_some (message : cstring) : Reader unit :=
  count ← read_array_count true false;
  if count <=? 0 then throw (RuntimeError message) else mret tt.

Definition first_produce_error (frame : bytes) (correlation_id : Z) : result Z :=
  read_frame (
    skip_response_header_tags correlation_id;;
    require_some (str "Produce response had no topics");;
    read_compact_string;;
    require_some (str "Produce response had no partitions");;
    read_int32;;
    read_int16) frame.

(** One broker of a metadata response, dropped. *)
Definition skip_broker : Reader unit :=
  read_int32;;
  read_compact_string;;
  read_int32;;
  read_compact_nullable_string;;
  skip_tagged_fields.

Definition first_metadata_error (frame : bytes) (correlation_id : Z) : result Z :=
  read_frame (
    skip_response_header_tags correlation_id;;
    read_int32;;
    broker_count ← read_array_count true false;
    for_range broker_count tt (λ _ _, skip_broker);;
    read_compact_nullable_string;;
    read_int32;;
    require_some (str "Metadata response had no topics");;
    read_int16) frame.

Record FetchSummary := mkFetchSummary {
  fs_error_code : Z;
  fs_high_watermark : Z;
  fs_records : bytes;
}.

Definition skip_aborted : Reader unit :=
  read_int64;;
  read_int64;;
  skip_tagged_fields.

Definition first_fetch_summary (frame : bytes) (correlation_id : Z) : result FetchSummary :=
  read_frame (
    skip_response_header_tags correlation_id;;
    read_int32;;
    read_int16;;
    read_int32;;
    require_some (str "Fetch response had no topics");;
    read_compact_string;;
    require_some (str "Fetch response had no partitions");;
    read_int32;;
    error_code ← read_int16;
    high_watermark ← read_int64;
    read_int64;;
    read_int64;;
    aborted_count ← read_array_count true true;
    for_range aborted_count tt (λ _ _, skip_aborted);;
    read_int32;;
    records ← read_compact_nullable_bytes;
    mret (mkFetchSummary error_code high_watermark (default [] records))) frame.

Definition first_fetch_error (frame : bytes) (correlation_id : Z) : result Z :=
  summary ← first_fetch_summary frame correlation_id; Ok (fs_error_code summary).

Definition first_list_offset (frame : bytes) (correlation_id : Z) : result (Z * Z) :=
  read_frame (
    skip_response_header_tags correlation_id;;
    read_int32;;
    require_some (str "ListOffsets response had no topics");;
    read_compact_string;;
    require_some (str "ListOffsets response had no partitions");;
    read_int32;;
    error ← read_int16;
    read_int64;;
    offset ← read_int64;
    mret (error, offset)) frame.

(** ** The socket *)

Definition decode_i32 (b0 b1 b2 b3 : byte) : Z :=
  i32 (Z.lor (Z.lor (Z.lor (u32 (Z.shiftl b0 24)) (u32 (Z.shiftl b1 16))) (u32 (Z.shiftl b2 8))) b3).

Definition kMaxResponseBytes : Z := 100 * 1024 * 1024.

Section client.
Context `{Crc32Intrinsics} `{Posix} (rounds : nat).
Abbreviation Client A := (IO Process A).

(** A system call, and output. *)
Definition syscall {A} (f : Sys → A * Sys) : Client A := λ p,
  let '(a, s) := f (sys p) in (Ok a, mkProcess _ s (cout p) (cerr p)).
Definition print (items : list item) : Client unit := modify (λ p, mkProcess _ (sys p) (cout p ++ items) (cerr p)).
Definition eprint (s : cstring) : Client unit := modify (λ p, mkProcess _ (sys p) (cout p) (cerr p ++ s)).
Definition runtime_error {A} (message : cstring) : Client A := fail (RuntimeError message).

(** [read_exact]: the buffer when it returned true. [out] is what was read
    so far, [out + done] where [recv] writes. *)
Fixpoint read_exact_loop (rounds : nat) (fd size : Z) (out : bytes) : Client (option bytes) :=
  match rounds with
  | O => fail (UndefinedBehavior (str "out of rounds"))
  | S rounds' =>
      if zlen out <? size then
        n ← syscall (sys_recv fd (size - zlen out));
        match n with
        | Returned [] => mret None
        | Returned bs => read_exact_loop rounds' fd size (out ++ bs)
        | Interrupted => read_exact_loop rounds' fd size out
        | Failed => mret None
        end
      else mret (Some out)
  end.
Definition read_exact (fd size : Z) : Client (option bytes) := read_exact_loop rounds fd size [].

(** [done] bytes of [data] are sent. *)
Fixpoint write_exact_loop (rounds : nat) (fd : Z) (data : bytes) (done : Z) : Client bool :=
  match rounds with
  | O => fail (UndefinedBehavior (str "out of rounds"))
  | S rounds' =>
      if done <? zlen data then
        n ← syscall (sys_send fd (drop (Z.to_nat done) data));
        match n with
        | Returned n => write_exact_loop rounds' fd data (done + n)
        | Interrupted => write_exact_loop rounds' fd data done
        | Failed => mret false
        end
      else mret true
  end.
Definition write_exact (fd : Z) (data : bytes) : Client bool := write_exact_loop rounds fd data 0.

(** The constructor: when it throws, the descriptor stays open. *)
Definition Socket (host : cstring) (port : Z) : Client Z :=
  fd ← syscall sys_socket;
  if fd <? 0 then runtime_error (str "socket failed")
  else
    modify (λ p, mkProcess _ (sys_nodelay fd (sys p)) (cout p) (cerr p));;
    match inet_pton host with
    | None => runtime_error (str "host must be an IPv4 address")
    | Some addr =>
        failed ← syscall (sys_connect fd addr port);
        match failed with
        | Some why => runtime_error (str "connect failed: " ++ why)
        | None => mret fd
        end
    end.

Definition close_socket (fd : Z) (p : Process) : Process :=
  if 0 <=? fd then mkProcess _ (sys_close fd (sys p)) (cout p) (cerr p) else p.

Definition send_frame (fd : Z) (frame : bytes) : Client unit :=
  sent ← write_exact fd frame;
  if negb sent then runtime_error (str "send failed") else mret tt.

Definition recv_frame (fd : Z) : Client bytes :=
  size_bytes ← read_exact fd 4;
  match size_bytes with
  | Some [b0; b1; b2; b3] =>
      let size := decode_i32 b0 b1 b2 b3 in
      if (size <=? 0) || (size >? kMaxResponseBytes) then runtime_error (str "invalid response frame size")
      else
        payload ← read_exact fd size;
        match payload with
        | Some payload => mret ([b0; b1; b2; b3] ++ payload)
        | None => runtime_error (str "failed to read response payload")
        end
  | Some _ => fail (UndefinedBehavior (str "recv stored more than it was asked for"))
  | None => runtime_error (str "failed to read response size")
  end.

(** ** The modes *)

(** [socket.send_frame(wrap_request(key, version, correlation, body))], the
    request frame made first. *)
Definition send_request (fd key version correlation : Z) (body : result bytes) : Client unit :=
  body ← lift body;
  frame ← lift (wrap_request key version correlation body);
  send_frame fd frame.

Definition run_smoke (fd : Z) (options : Options) : Client unit :=
  let expected_error := default 0 (opt_expect_produce_error options) in
  send_request fd 18 3 1 make_api_versions_body;;
  frame ← recv_frame fd;
  lift (expect_correlation frame 1);;
  send_request fd 3 9 2 (make_metadata_body options);;
  frame ← recv_frame fd;
  metadata_error ← lift (first_metadata_error frame 2);
  let expected_metadata_error := default 0 (opt_expect_metadata_error options) in
  if negb (metadata_error =? expected_metadata_error) then
    runtime_error (str "Metadata returned Kafka error " ++ to_string metadata_error ++
      str ", expected " ++ to_string expected_metadata_error)
  else if opt_metadata_only options then
    print [Text (str "metadata_error=" ++ to_string metadata_error); newline]
  else
    send_request fd 0 9 3 (make_produce_body options (opt_acks options));;
    (if negb (opt_acks options =? 0) then
       frame ← recv_frame fd;
       error ← lift (first_produce_error frame 3);
       if negb (error =? expected_error)
       then runtime_error (str "Produce smoke returned Kafka error " ++ to_string error)
       else mret tt
     else mret tt);;
    if negb (expected_error =? 0) then mret tt
    else
      send_request fd 1 12 4 (make_fetch_body options 0 0);;
      frame ← recv_frame fd;
      lift (expect_correlation frame 4);;
      send_request fd 2 6 5 (make_list_offsets_body options (-2));;
      frame ← recv_frame fd;
      '(earliest_error, earliest) ← lift (first_list_offset frame 5);
      if negb (earliest_error =? 0) || negb (earliest =? 0) then
        runtime_error (str "ListOffsets earliest returned error " ++ to_string earliest_error ++
          str " offset " ++ to_string earliest)
      else
        send_request fd 2 6 6 (make_list_offsets_body options (-1));;
        frame ← recv_frame fd;
        '(latest_error, latest) ← lift (first_list_offset frame 6);
        if negb (latest_error =? 0) || (latest <? 1) then
          runtime_error (str "ListOffsets latest returned error " ++ to_string latest_error ++
            str " offset " ++ to_string latest)
        else if opt_fetch_empty_wait_ms options >? 0 then
          start ← syscall steady_clock_now;
          send_request fd 1 12 7 (make_fetch_body options 1 (opt_fetch_empty_wait_ms options));;
          frame ← recv_frame fd;
          error ← lift (first_fetch_error frame 7);
          stop ← syscall steady_clock_now;
          if negb (error =? 0)
          then runtime_error (str "Fetch empty wait returned Kafka error " ++ to_string error)
          else print [Text (str "fetch_empty_wait_us="); Micros (stop - start); newline]
        else mret tt.

(** What [run_list_offsets_only] and [run_fetch_only] start with. *)
Definition greet (fd : Z) (options : Options) : Client unit :=
  send_request fd 18 3 1 make_api_versions_body;;
  frame ← recv_frame fd;
  lift (expect_correlation frame 1);;
  send_request fd 3 9 2 (make_metadata_body options);;
  frame ← recv_frame fd;
  lift (expect_correlation frame 2).

Definition run_list_offsets_only (fd : Z) (options : Options) : Client unit :=
  greet fd options;;
  send_request fd 2 6 3 (make_list_offsets_body options (-1));;
  frame ← recv_frame fd;
  '(error, offset) ← lift (first_list_offset frame 3);
  let expected_error := default 0 (opt_expect_list_offsets_error options) in
  if negb (error =? expected_error) then
    runtime_error (str "ListOffsets returned Kafka error " ++ to_string error ++ str ", expected " ++ to_string expected_error)
  else print [Text (str "list_offsets_error=" ++ to_string error ++ str " list_offsets_selected=" ++ to_string offset); newline].

(** The checks of [run_fetch_only] on the summary. *)
Definition check_fetch (options : Options) (summary : FetchSummary) : Client unit :=
  let error_code := fs_error_code summary in
  let size := zlen (fs_records summary) in
  match opt_expect_fetch_error options with
  | Some expected =>
      if negb (error_code =? expected) then
        runtime_error (str "Fetch returned Kafka error " ++ to_string error_code ++ str ", expected " ++ to_string expected)
      else mret tt
  | None =>
      if negb (error_code =? 0) then runtime_error (str "Fetch returned Kafka error " ++ to_string error_code) else mret tt
  end;;
  match opt_expect_fetch_min_bytes options with
  | Some n =>
      if size <? n then
        runtime_error (str "Fetch returned " ++ to_string size ++ str " record bytes, expected at least " ++ to_string n)
      else mret tt
  | None => mret tt
  end;;
  match opt_expect_fetch_max_bytes options with
  | Some n =>
      if size >? n then
        runtime_error (str "Fetch returned " ++ to_string size ++ str " record bytes, expected at most " ++ to_string n)
      else mret tt
  | None => mret tt
  end.

Definition run_fetch_only (fd : Z) (options : Options) : Client unit :=
  greet fd options;;
  send_request fd 1 12 3 (make_fetch_body options (opt_fetch_offset options) 0);;
  frame ← recv_frame fd;
  summary ← lift (first_fetch_summary frame 3);
  check_fetch options summary;;
  print [Text (str "fetch_error=" ++ to_string (fs_error_code summary) ++
    str " fetch_high_watermark=" ++ to_string (fs_high_watermark summary) ++
    str " fetch_record_bytes=" ++ to_string (zlen (fs_records summary))); newline].

(** A signed 32-bit result: undefined when it does not fit. *)
Definition checked_i32 (z : Z) : Client Z :=
  if (- 2 ^ 31 <=? z) && (z <? 2 ^ 31) then mret z else fail (UndefinedBehavior (str "int32 overflow")).

(** The rounds of [run_benchmark] left to do. *)
Fixpoint bench_loop (n : nat) (fd : Z) (body : bytes) (correlation : Z) (micros : list Z) : Client (list Z) :=
  match n with
  | O => mret micros
  | S n' =>
      frame ← lift (wrap_request 0 9 correlation body);
      start ← syscall steady_clock_now;
      send_frame fd frame;;
      frame ← recv_frame fd;
      error ← lift (first_produce_error frame correlation);
      if negb (error =? 0) then runtime_error (str "Produce benchmark returned Kafka error " ++ to_string error)
      else
        stop ← syscall steady_clock_now;
        correlation' ← checked_i32 (correlation + 1);
        bench_loop n' fd body correlation' (micros ++ [stop - start])
  end.

(** [double] arithmetic: IEEE 754 with 53 bits of precision. *)
Definition double (z : Z) : spec_float :=
  match z with
  | Z0 => S754_zero false
  | Zpos p => binary_round 53 1024 false p 0
  | Zneg p => binary_round 53 1024 true p 0
  end.
(** [static_cast<std::size_t>(x)] of a value in range. *)
Definition truncate (x : spec_float) : Z :=
  match x with
  | S754_finite false m e => Z.shiftl (Zpos m) e
  | _ => 0
  end.

Definition pct_index (p size : Z) : Z :=
  Z.min (size - 1) (truncate (SFmul 53 1024 (SFdiv 53 1024 (double p) (double 100)) (double (size - 1)))).

Definition pct (micros : list Z) (p : Z) : Client Z :=
  match micros !! Z.to_nat (pct_index p (zlen micros)) with
  | Some ns => mret ns
  | None => fail (UndefinedBehavior (str "vector index out of range"))
  end.

Definition run_benchmark (fd : Z) (options : Options) : Client unit :=
  if opt_acks options =? 0 then
    runtime_error (str "benchmark mode requires a Produce response; use --acks 1 or --acks -1")
  else
    body ← lift (make_produce_body options (opt_acks options));
    micros ← bench_loop (Z.to_nat (opt_messages options)) fd body 1000 [];
    let micros := merge_sort Z.le micros in
    p50 ← pct micros 50;
    p99 ← pct micros 99;
    match last micros with
    | None => fail (UndefinedBehavior (str "back of an empty vector"))
    | Some max =>
        print [Text (str "messages=" ++ to_string (opt_messages options) ++
            str " payload=" ++ to_string (opt_payload_size options) ++ str " p50_us="); Micros p50;
          Text (str " p99_us="); Micros p99; Text (str " max_us="); Micros max; newline]
    end.

(** ** The process *)

Definition usage : cstring := str "Usage: mkmq_kafka_bench [--host HOST] [--port PORT] [--topic TOPIC]
                        [--partition N] [--messages N]
                        [--payload-size N] [--acks 0|1|-1]
                        [--fetch-empty-wait-ms N]
                        [--fetch-only] [--fetch-offset N]
                        [--metadata-only] [--list-offsets-only]
                        [--expect-fetch-error N]
                        [--expect-metadata-error N]
                        [--expect-list-offsets-error N]
                        [--expect-fetch-min-bytes N]
                        [--expect-fetch-max-bytes N]
                        [--expect-produce-error N]
                        [--transactional-id ID]
                        [--idempotent-batch] [--smoke]
".

Definition what (e : error) : cstring :=
  match e with
  | ProtocolError msg | InvalidArgument msg | OutOfRange msg | RuntimeError msg | UndefinedBehavior msg => msg
  end.

(** The body of the [try] block once the socket is connected. *)
Definition run_modes (fd : Z) (options : Options) : Client unit :=
  (if opt_metadata_only options then run_smoke fd options
   else if opt_list_offsets_only options then run_list_offsets_only fd options
   else if opt_fetch_only options then run_fetch_only fd options
   else run_smoke fd options);;
  if negb (opt_smoke options) && negb (opt_fetch_only options) && negb (opt_metadata_only options) &&
     negb (opt_list_offsets_only options) && bool_decide (opt_expect_produce_error options = None)
  then run_benchmark fd options
  else mret tt.

(** [catch (const std::exception&)]: undefined behaviour is not caught. *)
Definition main (argv : list cstring) : Client Z :=
  catch (
    parsed ← lift (parse_options argv);
    match parsed with
    | Usage => print [Text usage];; mret 0
    | Parsed options =>
        fd ← Socket (opt_host options) (opt_port options);
        finally (run_modes fd options) (close_socket fd);;
        mret 0
    end)
    (λ e, match e with
     | UndefinedBehavior _ => fail e
     | _ => eprint (str "mkmq_kafka_bench: " ++ what e ++ str "
");; mret 1
     end).
End client.
