(* ===== verification/BenchRequests.v ===== *)
(** * What the benchmark client sends and understands

    The bytes of the client's requests against the message schemas of
    Codec.v, its record batch against the batches of RecordBatch.v, and its
    readers of responses against the frames the broker makes. *)

From Stdlib Require Import ZArith Lia.
From stdpp Require Import base tactics numbers option list.
From S2P Require Import Prelude Wire Protocol Codec Crc32c RecordBatch Config Detail Storage PartitionLog KafkaProtocol.
From S2P Require Import BenchOptions BenchClient.

Local Open Scope Z_scope.

(** ** Varints *)

(** The zigzag image of a signed integer, and back. *)
Definition zigzag (z : Z) : Z := if z <? 0 then - 2 * z - 1 else 2 * z.
Definition unzigzag (u : Z) : Z := if Z.even u then u / 2 else - (u / 2) - 1.

Lemma unzigzag_zigzag z : unzigzag (zigzag z) = z.
Proof.
  unfold unzigzag, zigzag. destruct (Z.ltb_spec z 0).
  - replace (-2 * z - 1) with (1 + 2 * (- z - 1)) by lia. rewrite Z.even_add_mul_2. cbn [Z.even].
    rewrite (Z.mul_comm 2), Z.div_add by lia. change (1 / 2) with 0. lia.
  - replace (2 * z) with (0 + 2 * z) by lia. rewrite Z.even_add_mul_2. cbn [Z.even].
    rewrite (Z.mul_comm 2), Z.div_add by lia. change (0 / 2) with 0. lia.
Qed.

Lemma zigzag_range w z : 0 < w → in_s w z → in_u w (zigzag z).
Proof.
  intros Hw Hz. pose proof (pow2_half w Hw). unfold in_s, in_u, zigzag in *. bcase; lia.
Qed.

Lemma lxor_ones w a : 0 <= w → in_u w a → Z.lxor a (Z.ones w) = 2 ^ w - 1 - a.
Proof.
  intros Hw Ha. unfold in_u in Ha.
  assert (Z.ldiff a (Z.ones w) = 0) as Hd.
  { rewrite Z.ldiff_ones_r, Z.shiftr_div_pow2, Z.div_small by lia. by rewrite Z.shiftl_0_l. }
  apply Z.sub_nocarry_ldiff in Hd as Hs. rewrite Z.ones_equiv in Hs at 1.
  destruct (decide (a = 0)) as [->|Ha0]; [rewrite Z.lxor_0_l, Z.ones_equiv; lia|].
  rewrite <- Z.ldiff_ones_l_low by (try lia; apply Z.log2_lt_pow2; lia). lia.
Qed.

(** [(raw << 1) ^ (value >> (w - 1))] is the zigzag image. *)
Lemma zigzag_bits w z :
  0 < w → in_s w z → Z.lxor (wrap_u w (Z.shiftl (wrap_u w z) 1)) (wrap_u w (Z.shiftr z (w - 1))) = zigzag z.
Proof.
  intros Hw Hz. pose proof (pow2_half w Hw) as Hp. pose proof (pow2_pos (w - 1) ltac:(lia)). unfold in_s in Hz.
  rewrite Z.shiftl_mul_pow2, Z.shiftr_div_pow2 by lia. change (2 ^ 1) with 2. unfold zigzag, wrap_u.
  rewrite Zmult_mod_idemp_l. destruct (Z.ltb_spec z 0).
  - assert (z / 2 ^ (w - 1) = -1) as ->.
    { symmetry. apply (Z.div_unique_pos z (2 ^ (w - 1)) (-1) (z + 2 ^ (w - 1))); lia. }
    assert ((-1) mod 2 ^ w = Z.ones w) as ->.
    { rewrite Z.ones_equiv. symmetry. apply (Z.mod_unique_pos _ _ (-1)); lia. }
    assert ((z * 2) mod 2 ^ w = 2 ^ w + 2 * z) as -> by (symmetry; apply (Z.mod_unique_pos _ _ (-1)); lia).
    rewrite lxor_ones by (try lia; unfold in_u; lia). lia.
  - rewrite Z.div_small, Z.mod_0_l, Z.lxor_0_r, Z.mod_small by lia. lia.
Qed.

Lemma varint_enc_fuel n k v : 0 <= v < 128 ^ Z.of_nat (S n) → varint_enc (n + k) v = varint_enc n v.
Proof.
  revert v. induction n as [|n IH]; intros v Hv.
  - change (128 ^ Z.of_nat 1) with 128 in Hv. destruct k; [done|]. cbn [varint_enc Nat.add].
    by destruct (Z.ltb_spec v 128); [|lia].
  - cbn [varint_enc Nat.add]. destruct (Z.ltb_spec v 128); [done|]. f_equal. apply IH.
    rewrite (Nat2Z.inj_succ (S n)), Z.pow_succ_r in Hv by lia.
    split; [apply Z.div_pos; lia|apply Z.div_lt_upper_bound; lia].
Qed.

Lemma land_high_zero_64 v : in_u 64 v → (Z.land v 0xffffffffffffff80 =? 0) = (v <? 128).
Proof.
  unfold in_u. intros Hv. change 0xffffffffffffff80 with (Z.ldiff (Z.ones 64) (Z.ones 7)).
  rewrite !Z.ldiff_land, Z.land_assoc, Z.land_ones, Z.mod_small by lia. rewrite <- Z.ldiff_land, Z.ldiff_ones_r by lia.
  rewrite Z.shiftl_mul_pow2, Z.shiftr_div_pow2 by lia. change (2 ^ 7) with 128.
  pose proof (Z.div_mod v 128 ltac:(lia)). pose proof (Z.mod_pos_bound v 128 ltac:(lia)). bcase; lia.
Qed.

Lemma unsigned_varint_writes n v :
  0 <= v < 128 ^ Z.of_nat (S n) → in_u 64 v → writes (unsigned_varint_loop (S n) v) (varint_enc n v).
Proof.
  revert v. induction n as [|n IH]; intros v Hv H64.
  - cbn [unsigned_varint_loop varint_enc]. rewrite land_high_zero_64 by done. change (128 ^ Z.of_nat 1) with 128 in Hv.
    destruct (Z.ltb_spec v 128); [|lia]. apply push_back_writes.
  - remember (S n) as m eqn:Hm. cbn [unsigned_varint_loop]. subst m. cbn [varint_enc].
    rewrite land_high_zero_64 by done. destruct (Z.ltb_spec v 128); simpl negb; cbv iota; [apply push_back_writes|].
    rewrite lor_continuation. apply (writes_bind _ _ [_]); [apply push_back_writes|].
    rewrite Z.shiftr_div_pow2 by lia. rewrite (Nat2Z.inj_succ (S n)), Z.pow_succ_r in Hv by lia.
    apply IH; [split; [apply Z.div_pos; lia|apply Z.div_lt_upper_bound; lia]|].
    unfold in_u in *. split; [apply Z.div_pos; lia|apply Z.div_lt_upper_bound; lia].
Qed.

(** [append_varint] writes the unsigned varint of the zigzag image. *)
Lemma writes_append_uvarint v : in_u 32 v → writes (append_unsigned_varint v) (uvarint v).
Proof.
  unfold in_u. intros Hv. assert (in_u 64 v) as H64 by (unfold in_u; lia).
  unfold append_unsigned_varint, uvarint. rewrite wrap_u_id by done.
  rewrite (varint_enc_fuel 4 1) by (change (128 ^ Z.of_nat 5) with (2 ^ 35); lia).
  rewrite <- (varint_enc_fuel 4 5) by (change (128 ^ Z.of_nat 5) with (2 ^ 35); lia).
  apply unsigned_varint_writes; [change (128 ^ Z.of_nat 10) with (2 ^ 70); lia|done].
Qed.

Lemma writes_append_varint z : in_s 32 z → writes (append_varint z) (uvarint (zigzag z)).
Proof.
  intros Hz. unfold append_varint. rewrite (zigzag_bits 32) by done.
  by apply writes_append_uvarint, zigzag_range.
Qed.

Lemma uvarint_size v : 1 <= zlen (uvarint v) <= 6.
Proof.
  unfold uvarint. cbn [varint_enc].
  repeat match goal with |- context [if ?b then _ else _] => destruct b end; done.
Qed.

(** ** The record batch *)

(** A record without key and headers: attributes, timestamp delta, offset
    delta, key length -1, value, no headers. *)
Definition bench_record (payload_size : Z) : bytes :=
  [Byte.x00] ++ uvarint 0 ++ uvarint 0 ++ uvarint (zigzag (-1)) ++ uvarint (zigzag payload_size) ++
  payload_bytes payload_size ++ uvarint 0.
Definition bench_records (payload_size : Z) : bytes :=
  uvarint (zigzag (zlen (bench_record payload_size))) ++ bench_record payload_size.

(** What the checksum covers: attributes, last offset delta 0, two timestamps,
    the producer and one record. *)
Definition bench_checked (payload_size : Z) (idempotent : bool) : bytes :=
  be_bytes 2 0 ++ be_bytes 4 0 ++ be_bytes 8 0 ++ be_bytes 8 0 ++
  be_bytes 8 (if idempotent then 1 else -1) ++ be_bytes 2 (if idempotent then 0 else -1) ++
  be_bytes 4 (if idempotent then 0 else -1) ++ be_bytes 4 1 ++ bench_records payload_size.
Definition bench_batch `{Crc32Intrinsics} (o : Options) : bytes :=
  let checked := bench_checked (opt_payload_size o) (opt_idempotent_batch o) in
  be_bytes 8 0 ++ be_bytes 4 (9 + zlen checked) ++ be_bytes 4 0 ++ [Byte.x02] ++
  be_bytes 4 (crc32c_spec checked) ++ checked.

(** A payload that leaves room for the rest of a batch in 31 bits. *)
Definition payload_fits (o : Options) : Prop := 0 <= opt_payload_size o < 2 ^ 30.

Lemma zlen_payload n : 0 <= n → zlen (payload_bytes n) = n.
Proof. intros. unfold payload_bytes, zlen. rewrite length_map, length_seq. lia. Qed.

Lemma bench_record_size n : 0 <= n → n + 5 <= zlen (bench_record n) <= n + 25.
Proof.
  intros Hn. unfold bench_record. rewrite !zlen_app, zlen_payload by done.
  pose proof (uvarint_size (zigzag n)). change (zlen [Byte.x00]) with 1. change (zlen (uvarint 0)) with 1.
  change (zlen (uvarint (zigzag (-1)))) with 1. lia.
Qed.

Lemma bench_records_size n : 0 <= n → n + 6 <= zlen (bench_records n) <= n + 31.
Proof.
  intros Hn. unfold bench_records. rewrite zlen_app. pose proof (bench_record_size n Hn).
  pose proof (uvarint_size (zigzag (zlen (bench_record n)))). lia.
Qed.

Lemma make_record_body_enc n : 0 <= n < 2 ^ 30 → make_record_body n = Ok (bench_record n).
Proof.
  intros Hn. apply writes_take_bytes. unfold bench_record.
  apply writes_bind; [apply push_back_writes|].
  apply writes_bind; [exact (writes_append_uvarint 0 ltac:(done))|].
  apply writes_bind; [by apply writes_append_varint|].
  apply writes_bind; [by apply writes_append_varint|].
  apply writes_bind; [apply writes_append_varint; unfold in_s; lia|].
  apply writes_bind; [apply writes_raw|by apply writes_append_varint].
Qed.

Lemma make_records_enc n : 0 <= n < 2 ^ 30 →
  take_bytes (append_varint (i32 (zlen (bench_record n)));; write_raw (bench_record n)) = Ok (bench_records n).
Proof.
  intros Hn. pose proof (bench_record_size n ltac:(lia)). apply writes_take_bytes.
  assert (in_s 32 (zlen (bench_record n))) by (unfold in_s; lia).
  rewrite wrap_s_id by done. apply writes_bind; [by apply writes_append_varint|apply writes_raw].
Qed.

(** Overwriting [length old] bytes of a vector in the middle. *)
Definition overwrite (pos : nat) (new v : bytes) : bytes := take pos v ++ new ++ drop (pos + length new) v.

Lemma split_at (pos n : nat) (v : bytes) :
  (pos + n <= length v)%nat → ∃ pre old post, v = pre ++ old ++ post ∧ length pre = pos ∧ length old = n ∧
    pre = take pos v ∧ post = drop (pos + n) v.
Proof.
  intros Hl. exists (take pos v), (take n (drop pos v)), (drop (pos + n) v). split_and!; try done.
  - rewrite <- drop_drop, take_drop. symmetry. apply take_drop.
  - rewrite length_take. lia.
  - rewrite length_take, length_drop. lia.
Qed.

Lemma put_i64_ok (pos : nat) z v : (pos + 8 <= length v)%nat →
  put_i64_be (Z.of_nat pos) z v = Ok (tt, overwrite pos (be_bytes 8 z) v).
Proof.
  intros Hl. destruct (split_at pos 8 v Hl) as (pre & old & post & Hv & Hp & Ho & Hpre & Hpost).
  unfold overwrite. rewrite length_be_bytes, <- Hpre, <- Hpost, Hv, <- Hp. by apply write_i64_be_ok.
Qed.
Lemma put_i32_ok (pos : nat) z v : (pos + 4 <= length v)%nat →
  put_i32_be (Z.of_nat pos) z v = Ok (tt, overwrite pos (be_bytes 4 z) v).
Proof.
  intros Hl. destruct (split_at pos 4 v Hl) as (pre & old & post & Hv & Hp & Ho & Hpre & Hpost).
  unfold overwrite. rewrite length_be_bytes, <- Hpre, <- Hpost, Hv, <- Hp. by apply write_i32_be_ok.
Qed.
Lemma put_i16_ok (pos : nat) z v : (pos + 2 <= length v)%nat →
  put_i16_be (Z.of_nat pos) z v = Ok (tt, overwrite pos (be_bytes 2 z) v).
Proof.
  intros Hl. destruct (split_at pos 2 v Hl) as (pre & old & post & Hv & Hp & Ho & Hpre & Hpost).
  unfold overwrite. rewrite length_be_bytes, <- Hpre, <- Hpost, Hv, <- Hp.
  change (Z.of_nat (length pre)) with (zlen pre).
  assert (put_i16_be (zlen pre) z (pre ++ old ++ post) = write_shifted (zlen pre) (u16 z) [8; 0] (pre ++ old ++ post)) as ->.
  { unfold put_i16_be. cbn [write_shifted]. rewrite Z.shiftr_0_r. unfold mbind, ST_bind, mret, ST_ret.
    repeat (destruct (vec_set _ _ _) as [[[] ?]|]; [|done]). done. }
  rewrite write_shifted_ok; [done|done|repeat constructor; lia].
Qed.
Lemma vec_set_ok (pos : nat) z v : (pos + 1 <= length v)%nat →
  vec_set (Z.of_nat pos) z v = Ok (tt, overwrite pos [byte_of_Z z] v).
Proof.
  intros Hl. destruct (split_at pos 1 v Hl) as (pre & old & post & Hv & Hp & Ho & Hpre & Hpost).
  unfold overwrite. cbn [length]. rewrite <- Hpre, <- Hpost, Hv, <- Hp. destruct old as [|b [|]]; try done.
  apply vec_set_app.
Qed.
Lemma copy_to_ok (pos : nat) records v : (pos + length records <= length v)%nat →
  copy_to (Z.of_nat pos) records v = Ok (tt, overwrite pos records v).
Proof.
  intros Hl. unfold copy_to, overwrite. rewrite Nat2Z.id.
  destruct (Z.leb_spec (Z.of_nat pos + zlen records) (zlen v)); [done|unfold zlen in *; lia].
Qed.
Lemma length_overwrite pos new v : (pos + length new <= length v)%nat → length (overwrite pos new v) = length v.
Proof. intros. unfold overwrite. rewrite !length_app, length_take, length_drop. lia. Qed.

Lemma overwrite_app pos new (v tail : bytes) :
  (pos + length new <= length v)%nat → overwrite pos new (v ++ tail) = overwrite pos new v ++ tail.
Proof.
  intros Hl. unfold overwrite. rewrite take_app_le, drop_app_le by lia. by rewrite <- !app_assoc.
Qed.

(** Writing into a header [v] of [n] bytes in front of the records. *)
Lemma put_header (w : Vec unit) (pos : nat) new v (n : nat) tail :
  (∀ u : bytes, (pos + length new <= length u)%nat → w u = Ok (tt, overwrite pos new u)) →
  length v = n → (pos + length new <= n)%nat →
  w (v ++ tail) = Ok (tt, overwrite pos new v ++ tail) ∧ length (overwrite pos new v) = n.
Proof.
  intros Hw Hv Hp. rewrite length_overwrite by lia. split; [|done].
  rewrite Hw by (rewrite length_app; lia). by rewrite overwrite_app by lia.
Qed.
Ltac header_step pos new lem Hv tail :=
  let E := fresh "E" in let Hv' := fresh in
  destruct (put_header _ pos new _ _ tail lem Hv ltac:(simpl; lia)) as [E Hv'];
  rewrite (st_bind_ok _ _ _ _ _ E); clear E Hv; rename Hv' into Hv.

Section batch.
Context `{Crc32Laws}.

(** The header of a batch, without its checksum, in front of the records. *)
Definition bench_header (len pid epoch : Z) : bytes :=
  be_bytes 8 0 ++ be_bytes 4 len ++ be_bytes 4 0 ++ [Byte.x02] ++ be_bytes 4 0 ++ be_bytes 2 0 ++ be_bytes 4 0 ++
  be_bytes 8 0 ++ be_bytes 8 0 ++ be_bytes 8 pid ++ be_bytes 2 epoch ++ be_bytes 4 epoch ++ be_bytes 4 1.

Lemma fill_header {A} len pid epoch records (k : unit → Vec A) :
  (put_i32_be 8 len;; vec_set 16 2;; put_i64_be 43 pid;; put_i16_be 51 epoch;; put_i32_be 53 epoch;; put_i32_be 57 1;;
   x ← copy_to 61 records; k x) (replicate (61 + length records) Byte.x00)
  = k tt (bench_header len pid epoch ++ records).
Proof.
  rewrite replicate_add. set (v := replicate 61 Byte.x00). set (tail := replicate (length records) Byte.x00). assert (length v = 61%nat) as Hv by done.
  header_step 8%nat (be_bytes 4 len) (put_i32_ok 8 len) Hv tail.
  header_step 16%nat [byte_of_Z 2] (vec_set_ok 16 2) Hv tail.
  header_step 43%nat (be_bytes 8 pid) (put_i64_ok 43 pid) Hv tail.
  header_step 51%nat (be_bytes 2 epoch) (put_i16_ok 51 epoch) Hv tail.
  header_step 53%nat (be_bytes 4 epoch) (put_i32_ok 53 epoch) Hv tail.
  header_step 57%nat (be_bytes 4 1) (put_i32_ok 57 1) Hv tail.
  match goal with |- (mbind _ _) (?h ++ _) = _ => assert (h = bench_header len pid epoch) as -> by reflexivity end.
  rewrite (st_bind_ok _ _ _ _ _ (copy_to_ok 61 records (bench_header len pid epoch ++ tail) ltac:(unfold tail; rewrite length_app, length_replicate; simpl; lia))).
  f_equal. unfold overwrite. rewrite take_app_length' by done.
  by rewrite drop_ge, app_nil_r by (unfold tail; rewrite length_app, length_replicate; simpl; lia).
Qed.

(** The header bytes are written one field after the other into zeros. *)
Lemma make_record_batch_enc o : payload_fits o → make_record_batch o = Ok (bench_batch o).
Proof.
  intros Hn. unfold payload_fits in Hn. unfold make_record_batch. rewrite make_record_body_enc by done. cbn [mbind result_bind].
  rewrite make_records_enc by done. cbn [mbind result_bind]. pose proof (bench_records_size (opt_payload_size o) ltac:(lia)) as Hs.
  unfold bench_batch, bench_checked. set (records := bench_records (opt_payload_size o)) in *. clearbody records.
  set (pid := if opt_idempotent_batch o then 1 else -1). set (epoch := if opt_idempotent_batch o then 0 else -1).
  replace (Z.to_nat (61 + zlen records)) with (61 + length records)%nat by (unfold zlen; lia).
  rewrite (wrap_s_id 32) by (unfold in_s; lia). rewrite fill_header.
  rewrite (st_bind_ok (gets _) _ _ _ _ eq_refl).
  set (checked := be_bytes 2 0 ++ _). set (len := 61 + zlen records - 12).
  set (head := be_bytes 8 0 ++ be_bytes 4 len ++ be_bytes 4 0 ++ [Byte.x02]).
  assert (bench_header len pid epoch ++ records = head ++ be_bytes 4 0 ++ checked) as -> by reflexivity.
  assert (zlen checked = 40 + zlen records) as Hc by (unfold checked; rewrite !zlen_app; unfold zlen; rewrite !length_be_bytes; lia).
  rewrite (st_bind_ok _ _ _ (crc32c_spec checked) (head ++ be_bytes 4 0 ++ checked)).
  - change 17 with (zlen head). unfold put_i32_be.
    fold (write_i32_be (zlen head) (i32 (crc32c_spec checked))). rewrite write_i32_be_ok by done.
    cbn [mbind result_bind]. rewrite be_bytes_i32, Hc. unfold head, len. rewrite <- !app_assoc.
    by replace (61 + zlen records - 12) with (9 + (40 + zlen records)) by lia.
  - unfold crc32c_at. rewrite app_assoc, drop_app_length' by done.
    rewrite zlen_app.
    rewrite wrap_u_id by (unfold in_u; change (zlen (head ++ be_bytes 4 0)) with 21; lia).
    rewrite crc32c_prefix by (change (zlen (head ++ be_bytes 4 0)) with 21; lia).
    change (zlen (head ++ be_bytes 4 0)) with 21. replace (21 + zlen checked - 21) with (zlen checked) by lia.
    unfold zlen. by rewrite Nat2Z.id, firstn_all.
Qed.

Lemma bench_checked_size o : payload_fits o →
  46 + opt_payload_size o <= zlen (bench_checked (opt_payload_size o) (opt_idempotent_batch o)) <= 71 + opt_payload_size o.
Proof.
  intros Hn. unfold payload_fits in Hn. pose proof (bench_records_size (opt_payload_size o) ltac:(lia)).
  unfold bench_checked. rewrite !zlen_app. change (zlen (be_bytes 2 _)) with 2. change (zlen (be_bytes 4 _)) with 4.
  change (zlen (be_bytes 8 _)) with 8. lia.
Qed.

Lemma bench_batch_size o : payload_fits o →
  67 + opt_payload_size o <= zlen (bench_batch o) <= 92 + opt_payload_size o.
Proof.
  intros Hn. pose proof (bench_checked_size o Hn). unfold bench_batch. rewrite !zlen_app.
  change (zlen (be_bytes 4 _)) with 4. change (zlen (be_bytes 8 _)) with 8. change (zlen [Byte.x02]) with 1. lia.
Qed.

Lemma drop_bench_batch o : drop 21 (bench_batch o) = bench_checked (opt_payload_size o) (opt_idempotent_batch o).
Proof. reflexivity. Qed.

Lemma bench_batch_crc o : slice 17 4 (bench_batch o) = be_bytes 4 (crc32c_spec (drop 21 (bench_batch o))).
Proof. by rewrite drop_bench_batch. Qed.
Lemma bench_batch_records o : drop 61 (bench_batch o) = bench_records (opt_payload_size o).
Proof. reflexivity. Qed.

(** The broker accepts it as one batch of one record. *)
Lemma bench_batch_ok o : payload_fits o → batch_ok (bench_batch o) ∧ batch_count (bench_batch o) = 1.
Proof.
  intros Hn. pose proof (bench_batch_size o Hn) as Hs. pose proof (bench_checked_size o Hn) as Hc. unfold payload_fits in Hn.
  split; [|reflexivity]. split; [lia|]. unfold batch_length.
  change (slice 8 4 (bench_batch o)) with (be_bytes 4 (9 + zlen (bench_checked (opt_payload_size o) (opt_idempotent_batch o)))).
  rewrite be_value_bytes, Z.mod_small by (change (2 ^ (8 * Z.of_nat 4)) with (2 ^ 32); lia).
  unfold bench_batch. rewrite !zlen_app.
  change (zlen (be_bytes 4 _)) with 4. change (zlen (be_bytes 8 _)) with 8. change (zlen [Byte.x02]) with 1. lia.
Qed.

Lemma bench_batch_idempotent o : batch_idempotent (bench_batch o) = opt_idempotent_batch o.
Proof.
  unfold batch_idempotent, bench_batch, bench_checked. by destruct (opt_idempotent_batch o).
Qed.

(** At offset 0 the broker's rewriting leaves it as it is. *)
Lemma rebased_bench_batch o : rebased 0 (bench_batch o) = bench_batch o.
Proof. reflexivity. Qed.
End batch.

(** ** Sizes *)

Lemma zlen_enc_compact_string s : zlen (enc_compact_string s) <= 6 + zlen s.
Proof. unfold enc_compact_string. rewrite zlen_app. pose proof (uvarint_size (zlen s + 1)). lia. Qed.
Lemma zlen_enc_compact_nullable s : zlen (enc_compact_nullable s) <= 6 + zlen (default [] s).
Proof. destruct s as [s|]; [apply zlen_enc_compact_string|done]. Qed.

(** Lengths of the pieces of an encoding. *)
Ltac enc_size :=
  rewrite ?zlen_app; change (zlen (be_bytes 2 _)) with 2; change (zlen (be_bytes 4 _)) with 4;
  change (zlen (be_bytes 8 _)) with 8; change (zlen enc_no_tags) with 1; change (zlen (@nil byte)) with 0;
  repeat match goal with
  | |- context [zlen (enc_compact_string ?s)] => pose proof (zlen_enc_compact_string s); generalize dependent (zlen (enc_compact_string s)); intros
  | |- context [zlen (enc_compact_nullable ?s)] => pose proof (zlen_enc_compact_nullable s); generalize dependent (zlen (enc_compact_nullable s)); intros
  | |- context [zlen (enc_compact_count ?n)] => pose proof (uvarint_size (n + 1)); change (zlen (enc_compact_count n)) with (zlen (uvarint (n + 1))) in *; generalize dependent (zlen (uvarint (n + 1))); intros
  end.

(** ** Requests *)

Section requests.
Context `{Crc32Laws}.

Definition bench_metadata (o : Options) : MetadataRequest :=
  mkMetadataRequest false [mkMetadataRequestTopic (opt_topic o)] false false false.
Definition bench_produce (o : Options) (acks : Z) : WireProduceRequest :=
  mkWireProduceRequest (opt_transactional_id o) acks 100
    [mkProduceRequestTopic (opt_topic o) [mkProduceRequestPartition (opt_partition o) (bench_batch o)]].
Definition bench_fetch (o : Options) (offset max_wait_ms : Z) : FetchRequest :=
  mkFetchRequest (-1) max_wait_ms 1 (1024 * 1024) 0 0 (-1)
    [mkFetchRequestTopic (opt_topic o) [mkFetchRequestPartition (opt_partition o) 0 offset (-1) (-1) (1024 * 1024)]] [].
Definition bench_list_offsets (o : Options) (timestamp : Z) : ListOffsetsRequest :=
  mkListOffsetsRequest (-1) 0 [mkListOffsetsRequestTopic (opt_topic o) [mkListOffsetsRequestPartition (opt_partition o) (-1) timestamp]].
Definition bench_api_versions : bytes :=
  enc_compact_string (str "mkmq-bench") ++ enc_compact_string (str "0.1") ++ enc_no_tags.

(** Options whose requests fit in a frame the broker accepts. *)
Definition request_room (o : Options) : Z :=
  opt_payload_size o + zlen (opt_topic o) + zlen (default [] (opt_transactional_id o)).
Definition sendable (o : Options) : Prop := options_ok o ∧ request_room o <= 100 * 1024 * 1024 - 250.

Lemma sendable_fits o : sendable o →
  payload_fits o ∧ fits32 (opt_topic o) ∧ opt_fits (opt_transactional_id o) ∧ fits32 (bench_batch o) ∧
  in_s 32 (opt_partition o).
Proof.
  intros [(Hf & _ & Hp & _) Hs]. unfold request_room in Hs. pose proof (zlen_nonneg (opt_topic o)). pose proof (zlen_nonneg (default [] (opt_transactional_id o))).
  assert (payload_fits o) as Hpay by (unfold payload_fits; lia). pose proof (bench_batch_size o Hpay).
  split_and!; [done|unfold fits32; lia| |unfold fits32; lia|apply Hf].
  intros x Hx. rewrite Hx in Hs. simpl in Hs. pose proof (zlen_nonneg x). unfold fits32. lia.
Qed.

Lemma writes_count_one : writes (write_array_count 1 true) (enc_compact_count 1).
Proof. exact (writes_compact_count [tt] ltac:(done)). Qed.
Lemma writes_count_none : writes (write_array_count 0 true) (enc_compact_count 0).
Proof. exact (writes_compact_count (@nil unit) ltac:(done)). Qed.

(** A body field by field. *)
Ltac body_go :=
  apply writes_take_bytes;
  cbn [map concat mdqt_name pqt_name pqt_partitions pqp_partition_index pqp_records fqt_topic fqt_partitions fqp_partition
    fqp_current_leader_epoch fqp_fetch_offset fqp_last_fetched_epoch fqp_log_start_offset fqp_partition_max_bytes
    lqt_name lqt_partitions lqp_partition_index lqp_current_leader_epoch lqp_timestamp];
  rewrite ?app_nil_r, <- ?app_assoc, ?app_nil_l;
  repeat (apply writes_bind; [solve [apply writes_count_one | apply writes_count_none | eauto with mkmq]|cbv beta]);
  solve [eauto with mkmq].

Lemma make_api_versions_body_enc : make_api_versions_body = Ok bench_api_versions.
Proof. reflexivity. Qed.

Lemma make_metadata_body_enc o : fits32 (opt_topic o) → make_metadata_body o = Ok (enc_metadata_request (bench_metadata o)).
Proof.
  intros Ht. unfold make_metadata_body, enc_metadata_request, enc_vector, enc_metadata_request_topic. cbn [bench_metadata mdq_all_topics
    mdq_topics mdqt_name mdq_allow_auto_topic_creation mdq_include_cluster_authorized_operations mdq_include_topic_authorized_operations].
  body_go.
Qed.

Lemma make_produce_body_enc o acks : sendable o → make_produce_body o acks = Ok (enc_produce_request (bench_produce o acks)).
Proof.
  intros Hs. destruct (sendable_fits o Hs) as (Hp & Ht & Hid & Hb & _). unfold make_produce_body.
  rewrite make_record_batch_enc by done. cbn [mbind result_bind].
  assert (opt_fits (Some (bench_batch o))) by (by intros x [= <-]).
  unfold enc_produce_request, enc_produce_request_topic, enc_produce_request_partition.
  cbn [bench_produce pq_transactional_id pq_acks pq_timeout_ms pq_topics].
  body_go.
Qed.

Lemma make_fetch_body_enc o offset wait :
  fits32 (opt_topic o) → make_fetch_body o offset wait = Ok (enc_fetch_request (bench_fetch o offset wait) []).
Proof.
  intros Ht. unfold make_fetch_body, enc_fetch_request, enc_fetch_request_topic, enc_fetch_request_partition.
  cbn [bench_fetch fq_replica_id fq_max_wait_ms fq_min_bytes fq_max_bytes fq_isolation_level fq_session_id fq_session_epoch
    fq_topics fq_rack_id].
  assert (fits32 (@nil byte)) by done. change (str "") with (@nil byte). body_go.
Qed.

Lemma make_list_offsets_body_enc o timestamp :
  fits32 (opt_topic o) → make_list_offsets_body o timestamp = Ok (enc_list_offsets_request (bench_list_offsets o timestamp)).
Proof.
  intros Ht. unfold make_list_offsets_body, enc_list_offsets_request, enc_list_offsets_request_topic,
    enc_list_offsets_request_partition.
  cbn [bench_list_offsets lq_replica_id lq_isolation_level lq_topics]. body_go.
Qed.

(** The frame around a body: the length, the header of version 2 with the
    client's name, the body. *)
Definition bench_client : option cstring := Some (str "mkmq-bench").
Definition bench_payload (key : ApiKey) (version corr : Z) (body : bytes) : bytes :=
  request_frame (header_of key version corr bench_client) bench_client body.
Definition bench_frame (key : ApiKey) (version corr : Z) (body : bytes) : bytes :=
  let payload := bench_payload key version corr body in be_bytes 4 (zlen payload) ++ payload.

Lemma bench_payload_size key version corr body :
  request_header_version key version = 2 → zlen (bench_payload key version corr body) = 21 + zlen body.
Proof.
  intros Hv. unfold bench_payload, request_frame, enc_request_header. cbn [header_of header_version]. rewrite Hv.
  rewrite !zlen_app. change (zlen (be_bytes 4 _)) with 4. change (zlen (be_bytes 2 _)) with 2.
  change (zlen (enc_nullable_string bench_client)) with 12. change (zlen (if 2 >=? 2 then enc_no_tags else [])) with 1. lia.
Qed.

Lemma wrap_request_enc key version corr body :
  request_header_version key version = 2 → zlen body < 2 ^ 31 - 30 →
  wrap_request (api_id key) version corr body = Ok (bench_frame key version corr body).
Proof.
  intros Hv Hb. pose proof (zlen_nonneg body). pose proof (bench_payload_size key version corr body Hv) as Hsize.
  set (payload := bench_payload key version corr body) in *.
  set (fields := write_int16 (api_id key);; write_int16 version;; write_int32 corr;;
    write_nullable_string bench_client;; write_empty_tagged_fields;; write_raw body).
  assert (writes fields payload) as Hw.
  { unfold payload, bench_payload, request_frame, enc_request_header. cbn [header_of header_version api_key api_version correlation_id].
    rewrite Hv. change (if 2 >=? 2 then enc_no_tags else []) with enc_no_tags. rewrite <- !app_assoc.
    repeat (apply writes_bind; [solve [eauto with mkmq|apply writes_nullable_string; intros c [= <-]; done]|cbv beta]).
    apply writes_raw. }
  assert (wrap_request (api_id key) version corr body
    = take_bytes (write_int32 0;; fields;; size ← writer_size; patch_int32 0 (i32 (size - 4)))) as ->.
  { unfold wrap_request, take_bytes, fields, bench_client, mbind, ST_bind, write_int32, write_int16, write_empty_tagged_fields.
    done. }
  unfold take_bytes. rewrite (st_bind_ok _ _ _ _ _ (writes_int32 0 [])), (st_bind_ok _ _ _ _ _ (Hw _)).
  rewrite (st_bind_ok writer_size _ _ _ _ eq_refl), app_nil_l, zlen_app. change (zlen (be_bytes 4 0)) with 4.
  rewrite Z.add_simpl_l, wrap_s_id by (unfold in_s; lia). change (be_bytes 4 0) with [Byte.x00; Byte.x00; Byte.x00; Byte.x00].
  cbn [app]. rewrite patch_front; [done|]. rewrite !zlen_cons. lia.
Qed.

(** The requests are ones the schemas can carry, in a frame the broker takes. *)
Lemma bench_requests_wf o : sendable o →
  metadata_request_wf (bench_metadata o) ∧
  (∀ acks, in_s 16 acks → produce_request_wf (bench_produce o acks)) ∧
  (∀ offset wait, in_s 64 offset → in_s 32 wait → fetch_request_wf (bench_fetch o offset wait)) ∧
  (∀ timestamp, in_s 64 timestamp → list_offsets_request_wf (bench_list_offsets o timestamp)).
Proof.
  intros Hs. destruct (sendable_fits o Hs) as (Hp & Ht & Hid & Hb & Hpart).
  assert (∀ {A} (x : A), fits32 [x]) as Hone by done.
  split_and!; intros; repeat (split || apply Forall_cons_2 || apply Forall_nil_2 || (intros x [= <-])); try done.
  all: unfold in_s in *; simpl; lia.
Qed.

(** The longest body, in a frame of the longest length. *)
Definition kMaxBody : Z := 100 * 1024 * 1024 - 21.
Lemma bench_bodies_fit o : sendable o →
  229 + request_room o <= kMaxBody ∧ zlen bench_api_versions <= 229 + request_room o ∧
  zlen (enc_metadata_request (bench_metadata o)) <= 229 + request_room o ∧
  (∀ acks, zlen (enc_produce_request (bench_produce o acks)) <= 229 + request_room o) ∧
  (∀ offset wait, zlen (enc_fetch_request (bench_fetch o offset wait) []) <= 229 + request_room o) ∧
  (∀ timestamp, zlen (enc_list_offsets_request (bench_list_offsets o timestamp)) <= 229 + request_room o).
Proof.
  intros Hs. destruct (sendable_fits o Hs) as (Hp & _). pose proof (bench_batch_size o Hp) as Hb. destruct Hs as [Ho Hs].
  assert (0 <= opt_payload_size o) by apply Hp. pose proof (zlen_nonneg (opt_topic o)).
  pose proof (zlen_nonneg (default [] (opt_transactional_id o))). unfold kMaxBody, request_room in *.
  split; [lia|]. split; [assert (zlen bench_api_versions = 16) as -> by reflexivity; lia|]. split_and!; intros.
  - unfold enc_metadata_request, enc_vector, enc_metadata_request_topic, enc_bool.
    cbn [bench_metadata mdq_all_topics mdq_topics map concat mdqt_name]. enc_size. change (zlen [_]) with 1. lia.
  - unfold enc_produce_request, enc_produce_request_topic, enc_produce_request_partition.
    cbn [bench_produce pq_transactional_id pq_topics map concat]. cbn [pqt_name pqt_partitions map concat]. cbn [pqp_records].
    enc_size. cbn [from_option] in *. unfold id in *. lia.
  - unfold enc_fetch_request, enc_fetch_request_topic, enc_fetch_request_partition.
    cbn [bench_fetch fq_topics fq_rack_id map concat]. cbn [fqt_topic fqt_partitions map concat].
    enc_size. change (zlen [_]) with 1. rewrite ?zlen_nil in *. lia.
  - unfold enc_list_offsets_request, enc_list_offsets_request_topic, enc_list_offsets_request_partition.
    cbn [bench_list_offsets lq_topics map concat]. cbn [lqt_name lqt_partitions map concat].
    enc_size. change (zlen [_]) with 1. lia.
Qed.
End requests.

(** ** Responses *)

(** [m] on bytes that start with [enc] has the outcome [res]. *)
Definition yields {A} (m : Reader A) (enc : bytes) (res : result A) : Prop :=
  ∀ r tail, reader_wf r → rest r = enc ++ tail → run_reader m r = res.

Lemma yields_reads {A} (m : Reader A) enc v : reads m enc v → yields m enc (Ok v).
Proof. intros Hm r tail Hr Hrest. unfold run_reader. by rewrite (Hm r tail). Qed.

Lemma yields_throw {A} e enc : yields (throw e : Reader A) enc (Err e).
Proof. done. Qed.

Lemma yields_bind {A B} (m : Reader A) (k : A → Reader B) e1 e2 a res :
  reads m e1 a → yields (k a) e2 res → yields (m ≫= k) (e1 ++ e2) res.
Proof.
  intros Hm Hk r tail Hr Hrest. rewrite <- app_assoc in Hrest. unfold run_reader.
  erewrite st_bind_ok by (eapply Hm; eauto). apply (Hk _ tail); [by eapply moved_wf|by eapply moved_rest].
Qed.

(** A computation that only tests what was read. *)
Lemma yields_nothing {A B} (m : Reader A) (k : A → Reader B) e a res :
  reads m [] a → yields (k a) e res → yields (m ≫= k) e res.
Proof. intros Hm Hk. rewrite <- (app_nil_l e). by eapply yields_bind. Qed.

Lemma yields_prefix {A} (m : Reader A) e1 e2 res : yields m e1 res → yields m (e1 ++ e2) res.
Proof. intros Hm r tail Hr Hrest. rewrite <- app_assoc in Hrest. by eapply Hm. Qed.

Lemma yields_frame {A} (m : Reader A) frame res : yields m frame res → zlen frame < 2 ^ 64 → read_frame m frame = res.
Proof.
  intros Hm Hl. apply (Hm (WireReader_of frame) []); [by apply WireReader_of_wf|].
  by rewrite app_nil_r, WireReader_of_rest.
Qed.

Lemma yields_bind_err {A B} (m : Reader A) (k : A → Reader B) enc e :
  yields m enc (Err e) → yields (m ≫= k) enc (Err e).
Proof.
  intros Hm r tail Hr Hrest. specialize (Hm r tail Hr Hrest). unfold run_reader in *. unfold mbind, ST_bind.
  destruct (m r) as [[]|]; [done|]. by injection Hm as ->.
Qed.

Lemma yields_bind_assoc {A B C} (m : Reader A) (k : A → Reader B) (k' : B → Reader C) enc res :
  yields (m ≫= λ a, k a ≫= k') enc res → yields ((m ≫= k) ≫= k') enc res.
Proof.
  intros Hm r tail Hr Hrest. specialize (Hm r tail Hr Hrest). unfold run_reader in *. unfold mbind, ST_bind in *.
  by destruct (m r) as [[]|].
Qed.

(** The first two integers: a length, and the correlation id. *)
Definition wrong_correlation : error := RuntimeError (str "unexpected correlation id in response").
Lemma yields_correlation {A} (k : unit → Reader A) size corr corr' enc res :
  in_s 32 size → in_s 32 corr → (corr = corr' → yields (k tt) enc res) →
  yields (check_correlation corr' ≫= k) (be_bytes 4 size ++ be_bytes 4 corr ++ enc)
    (if corr =? corr' then res else Err wrong_correlation).
Proof.
  intros Hs Hc Hk. unfold check_correlation. apply yields_bind_assoc. eapply yields_bind; [by apply reads_int32_enc|]. cbv beta.
  apply yields_bind_assoc. eapply yields_bind; [by apply reads_int32_enc|]. cbv beta.
  destruct (Z.eqb_spec corr corr') as [->|]; cbn [negb].
  - eapply yields_nothing; [apply reads_ret|]. by apply Hk.
  - apply yields_bind_err, yields_throw.
Qed.

Lemma yields_header {A} (k : unit → Reader A) size corr corr' body res :
  in_s 32 size → in_s 32 corr → (corr = corr' → yields (k tt) body res) →
  yields (skip_response_header_tags corr' ≫= k) (be_bytes 4 size ++ (be_bytes 4 corr ++ enc_no_tags) ++ body)
    (if corr =? corr' then res else Err wrong_correlation).
Proof.
  intros Hs Hc Hk. rewrite <- app_assoc. unfold skip_response_header_tags. apply yields_bind_assoc.
  apply yields_correlation; [done|done|]. intros E. eapply yields_bind; [apply reads_no_tags|by apply Hk].
Qed.

(** A counted array: the message when it is empty. *)
Lemma yields_some {A B} message (l : list A) (enc : A → bytes) (k : unit → Reader B) tail res :
  fits32 l →
  (∀ x xs, l = x :: xs → yields (k tt) (enc x ++ concat (map enc xs) ++ tail) res) →
  (l = [] → res = Err (RuntimeError message)) →
  yields (require_some message ≫= k) (enc_vector enc l ++ tail) res.
Proof.
  intros Hl Hk Hn. unfold require_some, enc_vector. rewrite <- app_assoc. apply yields_bind_assoc.
  eapply yields_bind; [by apply reads_count|]. cbv beta. destruct l as [|x xs].
  - rewrite Hn by done. apply yields_bind_err, yields_throw.
  - destruct (Z.leb_spec (zlen (x :: xs)) 0) as [Hz|]; [rewrite zlen_cons in Hz; pose proof (zlen_nonneg xs); lia|].
    eapply yields_nothing; [apply reads_ret|]. cbn [map concat]. rewrite <- app_assoc. by apply Hk.
Qed.

Ltac yields_step := eapply yields_bind; [solve [eauto with mkmq]|cbv beta].

(** The bytes of the broker's encoders. *)
Ltac encode_go w := let x := fresh in let H := fresh in intros x H; message x H; unfold w; apply writes_take_bytes; codec_writes.
Lemma encode_metadata_enc : ∀ r, metadata_response_wf r → encode_metadata_response r = Ok (enc_metadata_response r).
Proof. encode_go encode_metadata_response. Qed.
Lemma encode_produce_enc : ∀ r, produce_response_wf r → encode_produce_response r = Ok (enc_produce_response r).
Proof. encode_go encode_produce_response. Qed.
Lemma encode_fetch_enc : ∀ r, fetch_response_wf r → encode_fetch_response r = Ok (enc_fetch_response r).
Proof. encode_go encode_fetch_response. Qed.
Lemma encode_list_offsets_enc : ∀ r, list_offsets_response_wf r → encode_list_offsets_response r = Ok (enc_list_offsets_response r).
Proof. encode_go encode_list_offsets_response. Qed.

(** What the readers look for in a response. *)
Definition produce_error_of (r : ProduceResponse) : result Z :=
  match pr_topics r with
  | [] => Err (RuntimeError (str "Produce response had no topics"))
  | t :: _ =>
      match prt_partitions t with
      | [] => Err (RuntimeError (str "Produce response had no partitions"))
      | p :: _ => Ok (prp_error_code p)
      end
  end.
Definition metadata_error_of (r : MetadataResponse) : result Z :=
  match mdr_topics r with
  | [] => Err (RuntimeError (str "Metadata response had no topics"))
  | t :: _ => Ok (mdt_error_code t)
  end.
Definition fetch_summary_of (r : FetchResponse) : result FetchSummary :=
  match fr_topics r with
  | [] => Err (RuntimeError (str "Fetch response had no topics"))
  | t :: _ =>
      match frt_partitions t with
      | [] => Err (RuntimeError (str "Fetch response had no partitions"))
      | p :: _ => Ok (mkFetchSummary (frp_error_code p) (frp_high_watermark p) (frp_records p))
      end
  end.
Definition list_offset_of (r : ListOffsetsResponse) : result (Z * Z) :=
  match lr_topics r with
  | [] => Err (RuntimeError (str "ListOffsets response had no topics"))
  | t :: _ =>
      match lrt_partitions t with
      | [] => Err (RuntimeError (str "ListOffsets response had no partitions"))
      | p :: _ => Ok (lrp_error_code p, lrp_offset p)
      end
  end.

(** A response frame with a header of version 1. *)
Definition tagged_frame (corr : Z) (body : bytes) : bytes :=
  be_bytes 4 (5 + zlen body) ++ (be_bytes 4 corr ++ enc_no_tags) ++ body.
Definition body_fits (body : bytes) : Prop := zlen body < 2 ^ 31 - 5.

Lemma tagged_frame_size corr body : zlen (tagged_frame corr body) = 9 + zlen body.
Proof.
  unfold tagged_frame. rewrite !zlen_app. change (zlen (be_bytes 4 _)) with 4. change (zlen enc_no_tags) with 1. lia.
Qed.

Lemma read_tagged_frame {A} (k : unit → Reader A) corr corr' body res :
  in_s 32 corr → body_fits body → (corr = corr' → yields (k tt) body res) →
  read_frame (skip_response_header_tags corr' ≫= k) (tagged_frame corr body)
  = if corr =? corr' then res else Err wrong_correlation.
Proof.
  intros Hc Hb Hk. unfold body_fits in Hb. pose proof (zlen_nonneg body). apply yields_frame; [|rewrite tagged_frame_size; lia].
  apply yields_header; [unfold in_s; lia|done|done].
Qed.

Lemma first_produce_error_ok r corr corr' :
  produce_response_wf r → in_s 32 corr → body_fits (enc_produce_response r) →
  first_produce_error (tagged_frame corr (enc_produce_response r)) corr'
  = if corr =? corr' then produce_error_of r else Err wrong_correlation.
Proof.
  intros (Hn & Hts & Ht) Hc Hb. apply read_tagged_frame; [done|done|]. intros _. unfold enc_produce_response.
  eapply yields_some; [done| |unfold produce_error_of; by intros ->]. intros t ts Et.
  unfold produce_error_of. rewrite Et in *. apply Forall_cons in Hts as [(Hname & Hps & Hwf) _].
  unfold enc_produce_topic. rewrite <- !app_assoc. yields_step.
  eapply yields_some; [done| |by intros ->]. intros p ps Ep. rewrite Ep in *.
  apply Forall_cons in Hwf as [(Hi & He & _) _]. unfold enc_produce_partition. rewrite <- !app_assoc. yields_step.
  apply yields_prefix, yields_reads. by apply reads_int16_enc.
Qed.

Lemma reads_skip_broker b : metadata_broker_wf b → reads skip_broker (enc_metadata_broker b) tt.
Proof.
  intros (Hid & Hhost & Hport & Hrack). unfold skip_broker, enc_metadata_broker.
  repeat (eapply reads_bind; [solve [eauto with mkmq]|cbv beta]). apply reads_no_tags.
Qed.

Lemma first_metadata_error_ok r corr corr' :
  metadata_response_wf r → in_s 32 corr → body_fits (enc_metadata_response r) →
  first_metadata_error (tagged_frame corr (enc_metadata_response r)) corr'
  = if corr =? corr' then metadata_error_of r else Err wrong_correlation.
Proof.
  intros (Ht & (Hnb & Hbs) & Hcl & Hctl & (Hnt & Hts) & _) Hc Hb. apply read_tagged_frame; [done|done|]. intros _.
  unfold enc_metadata_response, enc_vector at 1. rewrite <- !app_assoc. yields_step.
  eapply yields_bind; [by apply reads_count|]. cbv beta.
  eapply yields_bind; [apply reads_drop_loop; intros b Hin; apply reads_skip_broker; by eapply Forall_forall in Hbs|]. cbv beta.
  yields_step. yields_step. eapply yields_some; [done| |unfold metadata_error_of; by intros ->].
  intros t ts Et. unfold metadata_error_of. rewrite Et in *. apply Forall_cons in Hts as [(He & _) _].
  unfold enc_metadata_topic. rewrite <- !app_assoc. apply yields_prefix, yields_reads. by apply reads_int16_enc.
Qed.

(** The aborted transactions of a partition, dropped. *)
Lemma yields_aborted {A} a (k : Z → unit → Reader A) tail res :
  aborted_wf a → (∀ n, yields (k n tt) tail res) →
  yields (aborted_count ← read_array_count true true; for_range aborted_count tt (λ _ _, skip_aborted) ≫= k aborted_count)
    (enc_aborted_list a ++ tail) res.
Proof.
  intros Hwf Hk. destruct a as [l|]; cbn [enc_aborted_list].
  - destruct (Hwf l eq_refl) as [Hl Hall]. unfold enc_vector. rewrite <- app_assoc.
    eapply yields_bind; [by apply reads_count|]. cbv beta. eapply yields_bind; [|apply Hk].
    apply reads_drop_loop. intros i Hi. eapply Forall_forall in Hall; [|done]. unfold skip_aborted, enc_aborted.
    eapply reads_bind; [by apply reads_int64_enc|]. eapply reads_bind; [by apply reads_int64_enc|]. apply reads_no_tags.
  - eapply yields_bind; [apply reads_null_count|]. cbv beta. eapply yields_nothing; [apply reads_ret|apply Hk].
Qed.

Lemma first_fetch_summary_ok r corr corr' :
  fetch_response_wf r → in_s 32 corr → body_fits (enc_fetch_response r) →
  first_fetch_summary (tagged_frame corr (enc_fetch_response r)) corr'
  = if corr =? corr' then fetch_summary_of r else Err wrong_correlation.
Proof.
  intros (Ht & He & Hsid & Hn & Hts) Hc Hb. apply read_tagged_frame; [done|done|]. intros _. unfold enc_fetch_response.
  do 3 yields_step. eapply yields_some; [done| |unfold fetch_summary_of; by intros ->]. intros t ts Et.
  unfold fetch_summary_of. rewrite Et in *. apply Forall_cons in Hts as [(Hname & Hps & Hwf) _].
  unfold enc_fetch_topic. rewrite <- !app_assoc. yields_step.
  eapply yields_some; [done| |by intros ->]. intros p ps Ep. rewrite Ep in *.
  apply Forall_cons in Hwf as [(Hi & Hec & Hhw & Hlso & Hst & Hab & Hpr & Hrec) _].
  unfold enc_fetch_partition. rewrite <- !app_assoc.
  do 5 yields_step. apply (yields_aborted _ (λ n _, _)); [done|]. intros _. yields_step.
  eapply yields_bind; [by apply reads_compact_nullable_bytes|]. by apply (yields_prefix _ []), yields_reads, reads_ret.
Qed.

Lemma first_list_offset_ok r corr corr' :
  list_offsets_response_wf r → in_s 32 corr → body_fits (enc_list_offsets_response r) →
  first_list_offset (tagged_frame corr (enc_list_offsets_response r)) corr'
  = if corr =? corr' then list_offset_of r else Err wrong_correlation.
Proof.
  intros (Ht & Hn & Hts) Hc Hb. apply read_tagged_frame; [done|done|]. intros _. unfold enc_list_offsets_response.
  yields_step. eapply yields_some; [done| |unfold list_offset_of; by intros ->]. intros t ts Et.
  unfold list_offset_of. rewrite Et in *. apply Forall_cons in Hts as [(Hname & Hps & Hwf) _].
  unfold enc_list_offsets_topic. rewrite <- !app_assoc. yields_step.
  eapply yields_some; [done| |by intros ->]. intros p ps Ep. rewrite Ep in *.
  apply Forall_cons in Hwf as [(Hi & Hec & Hts' & Hoff & _) _]. unfold enc_list_offsets_partition. rewrite <- !app_assoc.
  do 4 yields_step.
  by apply (yields_prefix _ []), yields_reads, reads_ret.
Qed.

(** ** Theorems *)

(** A record as the Kafka format defines it: its length, attributes, the
    deltas, the key's length, the value and the number of headers. *)
Record KafkaRecord := mkKafkaRecord {
  kr_length : Z; kr_attributes : Z; kr_timestamp_delta : Z; kr_offset_delta : Z;
  kr_key_length : Z; kr_value : bytes; kr_headers : Z }.
Definition read_varint : Reader Z := u ← read_unsigned_varint; mret (unzigzag u).
Definition read_record : Reader KafkaRecord :=
  length ← read_varint; attributes ← read_int8; timestamp_delta ← read_varint; offset_delta ← read_varint;
  key_length ← read_varint; value_length ← read_varint; value ← read_raw value_length; headers ← read_varint;
  mret (mkKafkaRecord length attributes timestamp_delta offset_delta key_length value headers).

Lemma reads_varint z : in_s 32 z → reads read_varint (uvarint (zigzag z)) z.
Proof.
  intros Hz. rewrite <- (unzigzag_zigzag z) at 2. apply (reads_bind_ret _ unzigzag), reads_uvarint.
  by apply zigzag_range.
Qed.

Lemma reads_bench_records n : 0 <= n < 2 ^ 30 →
  reads read_record (bench_records n) (mkKafkaRecord (zlen (bench_record n)) 0 0 0 (-1) (payload_bytes n) 0).
Proof.
  intros Hn. pose proof (bench_record_size n ltac:(lia)). unfold bench_records.
  eapply reads_bind; [apply reads_varint; unfold in_s; lia|]. unfold bench_record at 1. eapply reads_bind; [by apply (reads_int8_enc 0)|].
  eapply reads_bind; [by apply (reads_varint 0)|]. eapply reads_bind; [by apply (reads_varint 0)|].
  eapply reads_bind; [by apply (reads_varint (-1))|]. eapply reads_bind; [apply reads_varint; unfold in_s; lia|].
  pose proof (reads_raw (payload_bytes n)) as Hraw. rewrite zlen_payload in Hraw by lia. eapply reads_bind; [exact Hraw|].
  apply (reads_bind_ret _ (λ headers, _)). by apply (reads_varint 0).
Qed.

Section checks.
Context `{Crc32Laws}.

Lemma bench_batch_checksum o : be_value (slice 17 4 (bench_batch o)) = crc32c_spec (drop 21 (bench_batch o)).
Proof.
  rewrite bench_batch_crc, be_value_bytes. generalize (drop 21 (bench_batch o)). intros bs.
  apply Z.mod_small. apply (lxor_range _ _ 32); [lia|by apply crc_bytes_range|done].
Qed.

Lemma bench_batch_estimate o : payload_fits o → estimate_record_count (bench_batch o) = Ok (1, bench_batch o).
Proof.
  intros Hn. destruct (bench_batch_ok o Hn) as [Hok Hcount]. pose proof (bench_batch_size o Hn) as Hs. unfold payload_fits in Hn.
  revert Hok Hcount Hs. generalize (bench_batch o). intros b Hok Hcount Hs.
  pose proof (estimate_batches [b] [] ltac:(by constructor) ltac:(by left)) as He.
  cbn [concat] in He. rewrite !app_nil_r in He. rewrite He by lia. unfold total_count. cbn [foldr]. rewrite Hcount.
  destruct (Nat.eqb_spec (length b) 0); [unfold zlen in *; lia|done].
Qed.

Lemma bench_batch_has_idempotent o :
  payload_fits o → has_idempotent_record_batch (bench_batch o) = Ok (opt_idempotent_batch o, bench_batch o).
Proof.
  intros Hn. destruct (bench_batch_ok o Hn) as [Hok _]. pose proof (bench_batch_size o Hn) as Hs. unfold payload_fits in Hn.
  pose proof (bench_batch_idempotent o) as Hi. revert Hok Hs Hi. generalize (bench_batch o). intros b Hok Hs Hi.
  unfold has_idempotent_record_batch. rewrite (st_bind_ok (gets _) _ _ _ _ eq_refl).
  pose proof (idempotent_loop_batches [b] (S (length b)) [] [] ltac:(by constructor) ltac:(by left)) as He.
  cbn [concat app existsb length] in He. rewrite !app_nil_r, orb_false_r, Hi in He. change (zlen []) with 0 in He.
  apply He; unfold zlen in *; lia.
Qed.
End checks.

(** C35: the record batch the client produces.  It is a whole batch whose
    length field is right and whose checksum is that of its bytes from 21 on;
    the broker counts one record in it and finds it idempotent exactly when
    the option asks for that; what follows the header is one record of the
    Kafka format, filled to its length, with the payload as its value and
    neither key nor headers. *)
Theorem make_record_batch_spec `{Crc32Laws} (o : Options) : payload_fits o →
  ∃ batch, make_record_batch o = Ok batch ∧ batch_ok batch ∧
    be_value (slice 17 4 batch) = crc32c_spec (drop 21 batch) ∧
    estimate_record_count batch = Ok (1, batch) ∧
    has_idempotent_record_batch batch = Ok (opt_idempotent_batch o, batch) ∧
    ∃ record, zlen (kr_value record) = opt_payload_size o ∧
      record = mkKafkaRecord (kr_length record) 0 0 0 (-1) (payload_bytes (opt_payload_size o)) 0 ∧
      reads read_record (drop 61 batch) record ∧
      zlen (drop 61 batch) = zlen (uvarint (zigzag (kr_length record))) + kr_length record.
Proof.
  intros Hn. exists (bench_batch o). split; [by apply make_record_batch_enc|].
  split; [by apply bench_batch_ok|]. split; [apply bench_batch_checksum|]. split; [by apply bench_batch_estimate|].
  split; [by apply bench_batch_has_idempotent|]. rewrite bench_batch_records. unfold payload_fits in Hn.
  exists (mkKafkaRecord (zlen (bench_record (opt_payload_size o))) 0 0 0 (-1) (payload_bytes (opt_payload_size o)) 0).
  cbn [kr_value kr_length]. rewrite zlen_payload by lia.
  split; [done|]. split; [done|]. split; [by apply reads_bench_records|apply zlen_app].
Qed.

Lemma make_record_batch_spec_witness :
  ∃ batch, make_record_batch (set_payload_size 3 default_options) = Ok batch ∧ batch_ok batch ∧
    be_value (slice 17 4 batch) = crc32c_spec (drop 21 batch).
Proof.
  destruct (make_record_batch_spec (set_payload_size 3 default_options)) as (batch & Hm & Hok & Hcrc & _);
    [split; vm_compute; congruence|].
  exists batch. exact (conj Hm (conj Hok Hcrc)).
Defined.
