(* ===== verification/BenchTransport.v ===== *)
(** * The benchmark client's connection

    What the client relies on of the sockets, as laws of a connected
    descriptor: bytes are sent and received in order, in pieces of any size,
    and interrupted by finitely many signals.  The peer is a function: from
    all the bytes it has been sent, all the bytes it sends back ([peer]) and
    whether it has hung up ([hangs_up]).

    Under the laws [read_exact] and [write_exact] move all their bytes, with
    one round for each byte and each signal, and a request that the peer
    answers with a frame is answered with that frame. *)

From Stdlib Require Import ZArith Lia.
From stdpp Require Import base tactics numbers option list.
From S2P Require Import Prelude Wire Protocol Codec Crc32c RecordBatch Detail Storage BenchOptions BenchClient.

Local Open Scope Z_scope.

(** ** Laws *)

(** [sent], [received]: what went over the descriptor so far.  [signals]:
    how many more signals can interrupt a call. *)
Class Connected `{Posix} (fd : Z) := {
  sent : Sys → bytes;
  received : Sys → bytes;
  signals : Sys → nat;
  peer : bytes → bytes;
  hangs_up : bytes → bool;
  send_law s data : data ≠ [] → hangs_up (sent s) = false →
    match sys_send fd data s with
    | (Returned n, s') => 0 < n <= zlen data ∧ sent s' = sent s ++ take (Z.to_nat n) data ∧
        received s' = received s ∧ (signals s' <= signals s)%nat
    | (Interrupted, s') => sent s' = sent s ∧ received s' = received s ∧ (signals s' < signals s)%nat
    | (Failed, _) => False
    end;
  recv_law s n more : 0 < n → more ≠ [] → peer (sent s) = received s ++ more →
    match sys_recv fd n s with
    | (Returned bs, s') => 0 < zlen bs <= n ∧ bs `prefix_of` more ∧ sent s' = sent s ∧
        received s' = received s ++ bs ∧ (signals s' <= signals s)%nat
    | (Interrupted, s') => sent s' = sent s ∧ received s' = received s ∧ (signals s' < signals s)%nat
    | (Failed, _) => False
    end;
  hangup_law s n : 0 < n → peer (sent s) = received s → hangs_up (sent s) = true →
    match sys_recv fd n s with
    | (Returned bs, s') => bs = [] ∧ sent s' = sent s ∧ received s' = received s ∧ (signals s' <= signals s)%nat
    | (Interrupted, s') => sent s' = sent s ∧ received s' = received s ∧ (signals s' < signals s)%nat
    | (Failed, _) => False
    end;
  clock_law s : let s' := snd (steady_clock_now s) in
    sent s' = sent s ∧ received s' = received s ∧ (signals s' <= signals s)%nat;
}.

(** ** A socket in memory *)

(** The state: what was sent and received, and a schedule of the calls to
    come: interrupted ([None]), or moving at most so many bytes; calls after
    the schedule move all they can.  The clock ticks once a call. *)
Record MemorySocket := mkMemorySocket {
  ms_sent : bytes;
  ms_received : bytes;
  ms_schedule : list (option nat);
  ms_clock : Z;
}.

Section memory.
Context (answer : bytes → bytes) (gone : bytes → bool).

Definition memory_call {A} (limit : nat) (move : nat → MemorySocket → A * MemorySocket) (s : MemorySocket) : sysret A * MemorySocket :=
  match ms_schedule s with
  | None :: schedule => (Interrupted, mkMemorySocket (ms_sent s) (ms_received s) schedule (ms_clock s))
  | Some k :: schedule =>
      let '(a, s') := move (Nat.min limit (S k)) (mkMemorySocket (ms_sent s) (ms_received s) schedule (ms_clock s)) in (Returned a, s')
  | [] => let '(a, s') := move limit s in (Returned a, s')
  end.

Definition memory_take (k : nat) (s : MemorySocket) : bytes * MemorySocket :=
  let bs := take k (drop (length (ms_received s)) (answer (ms_sent s))) in
  (bs, mkMemorySocket (ms_sent s) (ms_received s ++ bs) (ms_schedule s) (ms_clock s)).
Definition memory_put (data : bytes) (k : nat) (s : MemorySocket) : Z * MemorySocket :=
  (Z.of_nat k, mkMemorySocket (ms_sent s ++ take k data) (ms_received s) (ms_schedule s) (ms_clock s)).

#[local] Instance memory_posix : Posix := {|
  Sys := MemorySocket;
  sys_socket s := (3, s);
  sys_nodelay _ s := s;
  inet_pton host := if bool_decide (host = str "127.0.0.1") then Some 2130706433 else None;
  sys_connect _ _ _ s := (None, s);
  sys_recv _ n := memory_call (Z.to_nat n) memory_take;
  sys_send _ data := memory_call (length data) (memory_put data);
  sys_close _ s := s;
  steady_clock_now s := (ms_clock s, mkMemorySocket (ms_sent s) (ms_received s) (ms_schedule s) (ms_clock s + 1000));
|}.

Definition pending_signals (s : MemorySocket) : nat := length (filter (λ c, c = None) (ms_schedule s)).

Lemma pending_signals_cons a b c s sched :
  ms_schedule s = c :: sched →
  (pending_signals (mkMemorySocket a b sched (ms_clock s)) + (if c then 0 else 1) = pending_signals s)%nat.
Proof.
  intros Hs. unfold pending_signals. rewrite Hs. cbn [ms_schedule]. destruct c.
  - rewrite filter_cons_False by done. lia.
  - rewrite filter_cons_True by done. simpl. lia.
Qed.

(** A call is interrupted, or moves some of the bytes. *)
Lemma memory_call_cases {A} limit (move : nat → MemorySocket → A * MemorySocket) s :
  (0 < limit)%nat →
  (∃ s', memory_call limit move s = (Interrupted, s') ∧ ms_sent s' = ms_sent s ∧ ms_received s' = ms_received s ∧
     (pending_signals s' < pending_signals s)%nat) ∨
  (∃ k s1, (0 < k <= limit)%nat ∧ memory_call limit move s = (Returned (move k s1).1, (move k s1).2) ∧
     ms_sent s1 = ms_sent s ∧ ms_received s1 = ms_received s ∧ (pending_signals s1 <= pending_signals s)%nat).
Proof.
  intros Hl. unfold memory_call. destruct (ms_schedule s) as [|[k|] sched] eqn:Es.
  - right. exists limit, s. destruct (move limit s). split_and!; try done; lia.
  - right. set (s1 := mkMemorySocket (ms_sent s) (ms_received s) sched (ms_clock s)). exists (Nat.min limit (S k)), s1.
    pose proof (pending_signals_cons (ms_sent s) (ms_received s) _ s sched Es). fold s1 in H. simpl in H.
    destruct (move _ s1). split_and!; try done; lia.
  - left. eexists. split; [done|]. split_and!; try done.
    pose proof (pending_signals_cons (ms_sent s) (ms_received s) _ s sched Es). simpl in H. lia.
Qed.

#[local] Instance memory_connected fd : Connected fd.
Proof.
  refine {| sent := ms_sent; received := ms_received; signals := pending_signals; peer := answer; hangs_up := gone |}.
  - intros s data Hd _. cbn [sys_send memory_posix].
    destruct (memory_call_cases (length data) (memory_put data) s) as [(s' & -> & ?)|(k & s1 & Hk & -> & H1 & H2 & H3)]; [by destruct data; simpl; [|lia]|done|].
    cbn [fst snd memory_put ms_sent ms_received]. rewrite Nat2Z.id, H1. unfold zlen. split_and!; try done; lia.
  - intros s n more Hn Hm Hp. cbn [sys_recv memory_posix].
    destruct (memory_call_cases (Z.to_nat n) memory_take s) as [(s' & -> & ?)|(k & s1 & Hk & -> & H1 & H2 & H3)]; [lia|done|].
    cbn [fst snd memory_take ms_sent ms_received]. rewrite H1, H2, Hp, drop_app_length. split_and!; try done.
    + destruct more; [done|]. destruct k; [lia|]. done.
    + unfold zlen. rewrite length_take. lia.
    + exists (drop k more). symmetry. apply take_drop.
  - intros s n Hn Hp _. cbn [sys_recv memory_posix].
    destruct (memory_call_cases (Z.to_nat n) memory_take s) as [(s' & -> & ?)|(k & s1 & Hk & -> & H1 & H2 & H3)]; [lia|done|].
    cbn [fst snd memory_take ms_sent ms_received]. rewrite H1, H2, Hp, drop_all, take_nil, app_nil_r. done.
  - intros s. done.
Defined.
End memory.

(** ** The two loops *)

Section loops.
Context `{Posix} (fd : Z) `{!Connected fd}.

(** Only the system's state changed, and no signal was added. *)
Definition same_output (p p' : Process) : Prop :=
  cout p' = cout p ∧ cerr p' = cerr p ∧ (signals (sys p') <= signals (sys p))%nat.
#[global] Instance same_output_preorder : PreOrder same_output.
Proof.
  split; [intros p; done|]. intros p q r (H1 & H2 & H3) (G1 & G2 & G3). unfold same_output. split_and!; [congruence..|lia].
Qed.

(** [write_exact] sends everything, whatever the pieces and the signals. *)
Lemma write_exact_loop_ok rounds data (done : nat) p :
  (done <= length data)%nat → (signals (sys p) + (length data - done) < rounds)%nat →
  (∀ k, hangs_up (sent (sys p) ++ take k (drop done data)) = false ∨ (length data - done <= k)%nat) →
  ∃ p', write_exact_loop rounds fd data (Z.of_nat done) p = (Ok true, p') ∧ same_output p p' ∧
    sent (sys p') = sent (sys p) ++ drop done data ∧ received (sys p') = received (sys p).
Proof.
  revert done p. induction rounds as [|rounds IH]; intros done p Hd Hr Hh; [lia|]. cbn [write_exact_loop].
  destruct (Z.ltb_spec (Z.of_nat done) (zlen data)) as [Hlt|Hge].
  2: { exists p. rewrite drop_ge, app_nil_r by (unfold zlen in Hge; lia). done. }
  unfold zlen in Hlt. rewrite Nat2Z.id. unfold syscall at 1, mbind, IO_bind.
  assert (drop done data ≠ []) as Hne by (intros E; apply (f_equal length) in E; rewrite length_drop in E; simpl in E; lia).
  assert (hangs_up (sent (sys p)) = false) as Hup.
  { destruct (Hh 0%nat) as [E|E]; [by rewrite take_0, app_nil_r in E|lia]. }
  pose proof (send_law (sys p) (drop done data) Hne Hup) as Hs.
  destruct (sys_send fd (drop done data) (sys p)) as [[n| |] s']; [| |done].
  - destruct Hs as (Hn & Hsent & Hrec & Hsig).
    assert (zlen (drop done data) = zlen data - Z.of_nat done) as Hz by (unfold zlen; rewrite length_drop; lia).
    replace (Z.of_nat done + n) with (Z.of_nat (done + Z.to_nat n)) by lia.
    destruct (IH (done + Z.to_nat n)%nat (mkProcess _ s' (cout p) (cerr p))) as (p' & Hp' & Hsame & Hse & Hre); cbn [sys cout cerr] in *.
    + unfold zlen in *. lia.
    + unfold zlen in *. lia.
    + intros k. rewrite Hsent, <- app_assoc, <- drop_drop, take_take_drop.
      destruct (Hh (Z.to_nat n + k)%nat) as [E|E]; [by left|]. right. unfold zlen in *. lia.
    + exists p'. split; [exact Hp'|]. destruct Hsame as (? & ? & ?). unfold same_output. cbn [sys cout cerr] in *.
      split_and!; try done; [lia| |congruence]. rewrite Hse, Hsent, <- app_assoc, <- drop_drop. by rewrite take_drop.
  - destruct Hs as (Hsent & Hrec & Hsig).
    destruct (IH done (mkProcess _ s' (cout p) (cerr p))) as (p' & Hp' & Hsame & Hse & Hre); cbn [sys cout cerr] in *; [done|lia| |].
    + rewrite Hsent. exact Hh.
    + exists p'. split; [exact Hp'|]. destruct Hsame as (? & ? & ?). unfold same_output. cbn [sys cout cerr] in *.
      split_and!; try done; [lia|congruence..].
Qed.

(** [read_exact] returns the next bytes of the peer. *)
Lemma read_exact_loop_ok rounds out bs more p :
  peer (sent (sys p)) = received (sys p) ++ bs ++ more → (signals (sys p) + length bs < rounds)%nat →
  ∃ p', read_exact_loop rounds fd (zlen out + zlen bs) out p = (Ok (Some (out ++ bs)), p') ∧ same_output p p' ∧
    sent (sys p') = sent (sys p) ∧ received (sys p') = received (sys p) ++ bs.
Proof.
  revert out bs p. induction rounds as [|rounds IH]; intros out bs p Hp Hr; [lia|]. cbn [read_exact_loop].
  destruct (Z.ltb_spec (zlen out) (zlen out + zlen bs)) as [Hlt|Hge].
  2: { destruct bs; [|rewrite zlen_cons in Hge; pose proof (zlen_nonneg bs); lia]. exists p. by rewrite !app_nil_r. }
  rewrite Z.add_simpl_l. unfold syscall at 1, mbind, IO_bind.
  assert (bs ++ more ≠ []) as Hne by (destruct bs; [rewrite zlen_nil in Hlt; lia|done]).
  pose proof (recv_law (sys p) (zlen bs) (bs ++ more) ltac:(lia) Hne Hp) as Hs.
  destruct (sys_recv fd (zlen bs) (sys p)) as [[got| |] s']; [| |done].
  - destruct Hs as (Hn & [suffix Hpre] & Hsent & Hrec & Hsig).
    destruct got as [|b got]; [unfold zlen in Hn; simpl in Hn; lia|]. set (got' := b :: got) in *.
    assert (∃ bs', bs = got' ++ bs') as [bs' ->].
    { exists (drop (length got') bs). rewrite <- (take_drop (length got') bs) at 1. f_equal.
      apply (f_equal (take (length got'))) in Hpre. rewrite take_app_length, take_app_le in Hpre by (unfold zlen in Hn; lia).
      done. }
    rewrite <- app_assoc in Hp.
    destruct (IH (out ++ got') bs' (mkProcess _ s' (cout p) (cerr p))) as (p' & Hp' & Hsame & Hse & Hre); cbn [sys cout cerr] in *.
    + rewrite Hsent, Hrec, <- app_assoc. exact Hp.
    + rewrite length_app in Hr. unfold zlen in Hn. lia.
    + exists p'. destruct Hsame as (? & ? & ?). unfold same_output. cbn [sys cout cerr] in *.
      rewrite <- app_assoc in Hp'. replace (zlen (out ++ got') + zlen bs') with (zlen out + zlen (got' ++ bs')) in Hp'
        by (rewrite !zlen_app; lia).
      split; [exact Hp'|]. split_and!; try done; [lia|congruence|]. by rewrite Hre, Hrec, <- app_assoc.
  - destruct Hs as (Hsent & Hrec & Hsig).
    destruct (IH out bs (mkProcess _ s' (cout p) (cerr p))) as (p' & Hp' & Hsame & Hse & Hre); cbn [sys cout cerr] in *;
      [by rewrite Hsent, Hrec|lia|].
    exists p'. split; [exact Hp'|]. destruct Hsame as (? & ? & ?). unfold same_output. cbn [sys cout cerr] in *.
    split_and!; try done; [lia|congruence..].
Qed.

(** At the end of what the peer sends, [read_exact] returns false. *)
Lemma read_exact_loop_hangup rounds size p :
  0 < size → peer (sent (sys p)) = received (sys p) → hangs_up (sent (sys p)) = true → (signals (sys p) < rounds)%nat →
  ∃ p', read_exact_loop rounds fd size [] p = (Ok None, p') ∧ same_output p p' ∧
    sent (sys p') = sent (sys p) ∧ received (sys p') = received (sys p).
Proof.
  intros Hsize. revert p. induction rounds as [|rounds IH]; intros p Hp Hh Hr; [lia|]. cbn [read_exact_loop].
  change (zlen []) with 0. destruct (Z.ltb_spec 0 size); [|lia]. unfold syscall at 1, mbind, IO_bind. rewrite Z.sub_0_r.
  pose proof (hangup_law (sys p) size Hsize Hp Hh) as Hs. destruct (sys_recv fd size (sys p)) as [[got| |] s']; [| |done].
  - destruct Hs as (-> & Hsent & Hrec & Hsig). by exists (mkProcess _ s' (cout p) (cerr p)).
  - destruct Hs as (Hsent & Hrec & Hsig).
    destruct (IH (mkProcess _ s' (cout p) (cerr p))) as (p' & Hp' & Hsame & Hse & Hre); cbn [sys cout cerr] in *;
      [by rewrite Hsent, Hrec|by rewrite Hsent|lia|].
    exists p'. split; [exact Hp'|]. destruct Hsame as (? & ? & ?). unfold same_output. cbn [sys cout cerr] in *.
    split_and!; try done; [lia|congruence..].
Qed.

(** ** Frames *)

(** Rounds enough for frames of [budget] bytes and the signals to come. *)
Context (rounds : nat) (budget : Z).
Definition roomy (p : Process) : Prop := Z.of_nat (signals (sys p)) + budget < Z.of_nat rounds.

Lemma roomy_same p p' : same_output p p' → roomy p → roomy p'.
Proof. intros (_ & _ & Hs). unfold roomy. lia. Qed.

Lemma send_frame_ok frame p :
  roomy p → zlen frame <= budget →
  (∀ k, hangs_up (sent (sys p) ++ take k frame) = false ∨ (length frame <= k)%nat) →
  ∃ p', send_frame rounds fd frame p = (Ok tt, p') ∧ same_output p p' ∧
    sent (sys p') = sent (sys p) ++ frame ∧ received (sys p') = received (sys p).
Proof.
  intros Hr Hb Hh. unfold roomy in Hr. unfold zlen in Hb.
  destruct (write_exact_loop_ok rounds frame 0 p) as (p' & Hp' & Hsame & Hse & Hre); [lia|lia| |].
  { intros k. destruct (Hh k) as [E|E]; [left; by rewrite drop_0|right; lia]. }
  exists p'. rewrite drop_0 in Hse. split; [|done]. unfold send_frame, write_exact.
  change 0 with (Z.of_nat 0). by rewrite (io_bind_ok _ _ _ _ _ Hp').
Qed.

Lemma recv_frame_ok payload more p :
  roomy p → 4 + zlen payload <= budget → 0 < zlen payload <= kMaxResponseBytes →
  peer (sent (sys p)) = received (sys p) ++ (be_bytes 4 (zlen payload) ++ payload) ++ more →
  ∃ p', recv_frame rounds fd p = (Ok (be_bytes 4 (zlen payload) ++ payload), p') ∧ same_output p p' ∧
    sent (sys p') = sent (sys p) ∧ received (sys p') = received (sys p) ++ be_bytes 4 (zlen payload) ++ payload.
Proof.
  intros Hr Hb Hn Hp. rewrite <- app_assoc in Hp.
  destruct (read_exact_loop_ok rounds [] (be_bytes 4 (zlen payload)) (payload ++ more) p Hp) as (p1 & Hp1 & Hs1 & Hse1 & Hre1).
  { rewrite length_be_bytes. unfold roomy in Hr. lia. }
  destruct (read_exact_loop_ok rounds [] payload more p1) as (p2 & Hp2 & Hs2 & Hse2 & Hre2).
  { by rewrite Hse1, Hre1, <- app_assoc. }
  { pose proof (roomy_same _ _ Hs1 Hr) as Hr1. unfold roomy, zlen in *. lia. }
  exists p2. split; [|split; [by transitivity p1|split; [congruence|by rewrite Hre2, Hre1, app_assoc]]].
  unfold recv_frame, read_exact. change 4 with (zlen (@nil byte) + zlen (be_bytes 4 (zlen payload))) at 1.
  rewrite (io_bind_ok _ _ _ _ _ Hp1), app_nil_l.
  assert (∃ b0 b1 b2 b3, be_bytes 4 (zlen payload) = [b0; b1; b2; b3]) as (b0 & b1 & b2 & b3 & Hbs) by (do 4 eexists; reflexivity).
  rewrite Hbs. cbv iota beta zeta.
  assert (decode_i32 b0 b1 b2 b3 = zlen payload) as ->.
  { unfold decode_i32. rewrite lor_be4, <- Hbs. apply (be_signed_roundtrip 4); [lia|].
    unfold kMaxResponseBytes in Hn. unfold in_s. simpl. lia. }
  rewrite Z.gtb_ltb. destruct (Z.leb_spec (zlen payload) 0); [lia|]. destruct (Z.ltb_spec kMaxResponseBytes (zlen payload)); [lia|].
  cbn [orb]. change (zlen (@nil byte)) with 0 in Hp2. rewrite Z.add_0_l, app_nil_l in Hp2. by rewrite (io_bind_ok _ _ _ _ _ Hp2).
Qed.

Lemma recv_frame_hangup p :
  roomy p → 0 <= budget → peer (sent (sys p)) = received (sys p) → hangs_up (sent (sys p)) = true →
  ∃ p', recv_frame rounds fd p = (Err (RuntimeError (str "failed to read response size")), p') ∧ same_output p p'.
Proof.
  intros Hr Hb Hp Hh. unfold roomy in Hr.
  destruct (read_exact_loop_hangup rounds 4 p ltac:(lia) Hp Hh ltac:(lia)) as (p' & Hp' & Hsame & _).
  exists p'. split; [|done]. unfold recv_frame, read_exact. by rewrite (io_bind_ok _ _ _ _ _ Hp').
Qed.
End loops.

(** ** Theorems *)

(** C34: the client's socket loops.  On a connection that obeys the laws,
    however the kernel cuts the stream and whichever calls signals interrupt,
    [write_exact] sends exactly its bytes, [read_exact] returns exactly the
    next bytes of the peer, and both return within as many calls as there are
    bytes and signals, plus one.  When the peer has hung up [read_exact]
    returns false.  But a [send] that keeps returning 0 makes [write_exact]
    loop for ever. *)
Theorem exact_loops :
  (∀ `{Posix} (fd : Z) `{!Connected fd} (rounds : nat) (p : Process),
     (∀ data, (signals (sys p) + length data < rounds)%nat → (∀ x, hangs_up x = false) →
        ∃ p', write_exact rounds fd data p = (Ok true, p') ∧ sent (sys p') = sent (sys p) ++ data ∧
          received (sys p') = received (sys p) ∧ cout p' = cout p) ∧
     (∀ bs more, (signals (sys p) + length bs < rounds)%nat → peer (sent (sys p)) = received (sys p) ++ bs ++ more →
        ∃ p', read_exact rounds fd (zlen bs) p = (Ok (Some bs), p') ∧ sent (sys p') = sent (sys p) ∧
          received (sys p') = received (sys p) ++ bs ∧ cout p' = cout p) ∧
     (∀ size, 0 < size → (signals (sys p) < rounds)%nat → peer (sent (sys p)) = received (sys p) →
        hangs_up (sent (sys p)) = true → ∃ p', read_exact rounds fd size p = (Ok None, p'))) ∧
  (∀ `{Posix} (fd : Z) data p, data ≠ [] → (∀ data s, sys_send fd data s = (Returned 0, s)) →
     ∀ rounds, (write_exact rounds fd data p).1 = Err (UndefinedBehavior (str "out of rounds"))).
Proof.
  split.
  - intros ? fd ? rounds p. split_and!.
    + intros data Hr Hh. destruct (write_exact_loop_ok fd rounds data 0 p) as (p' & Hp' & Hsame & Hse & Hre); [lia|lia|by left|].
      exists p'. rewrite drop_0 in Hse. split_and!; [exact Hp'|done|done|apply Hsame].
    + intros bs more Hr Hp. destruct (read_exact_loop_ok fd rounds [] bs more p Hp Hr) as (p' & Hp' & Hsame & Hse & Hre).
      exists p'. split_and!; [exact Hp'|done|done|apply Hsame].
    + intros size Hs Hr Hp Hh. destruct (read_exact_loop_hangup fd rounds size p Hs Hp Hh Hr) as (p' & Hp' & _). by exists p'.
  - intros ? fd data p Hne Hzero rounds. unfold write_exact. induction rounds as [|rounds IH]; [done|]. cbn [write_exact_loop].
    destruct (Z.ltb_spec 0 (zlen data)) as [_|Hz].
    + unfold syscall, mbind, IO_bind. rewrite Hzero. rewrite Z.add_0_r. destruct p. exact IH.
    + destruct data; [done|]. rewrite zlen_cons in Hz. pose proof (zlen_nonneg data). lia.
Qed.

(** An echo server, with two signals and pieces of two and one bytes. *)
Definition echo : bytes → bytes := λ x, x.
Definition open_socket : bytes → bool := λ _, false.
Lemma exact_loops_witness :
  let P := memory_posix echo in
  let C := memory_connected echo open_socket 3 in
  let p := @mkProcess P (mkMemorySocket [] (str "") [None; Some 1%nat; Some 0%nat; None] 0) [] [] in
  ∃ p', @write_exact P 6 3 (str "abc") p = (Ok true, p') ∧ @sent P 3 C (@sys P p') = str "abc".
Proof.
  intros P C p. destruct (proj1 exact_loops P 3 C 6%nat p) as [Hw _].
  destruct (Hw (str "abc")) as (p' & Hp' & Hs & _); [vm_compute; lia|done|]. by exists p'.
Defined.
