(* ===== verification/BenchSession.v ===== *)
(** * The benchmark client against the broker

    The client and the broker joined: the peer of the client's socket is a
    broker that answers frames the way its connection loop does ([replies]),
    through the protocol handler of KafkaProtocol.v.  What the client then
    does is a dialogue of requests with the broker ([modes_session]), in which
    neither bytes nor frames occur: [run_modes] refines it.

    The broker is any [BrokerApi], with what its connection handler does
    around a request: [arrive] before it, [on_error] when its future fails,
    and [stops] when it is shutting down.  BrokerShard is such a broker. *)

From Stdlib Require Import ZArith Lia.
From stdpp Require Import base tactics numbers option sorting sets gmap functions list.
From S2P Require Import Prelude Wire Protocol Codec Crc32c RecordBatch Config Detail Storage PartitionLog KafkaProtocol PartitionTable BrokerShard.
From S2P Require Import LogRep BrokerRep Connection.
From S2P Require Import BenchOptions BenchClient BenchRequests BenchTransport.

Local Open Scope Z_scope.

(** ** A broker at the other end of the socket *)

(** The length in front of a frame, as the broker reads it. *)
Lemma frame_prefix (payload : bytes) : 0 < zlen payload <= kMaxKafkaFrameBytes →
  ∃ b0 b1 b2 b3, be_bytes 4 (zlen payload) = [b0; b1; b2; b3] ∧ decode_frame_size b0 b1 b2 b3 = zlen payload ∧
    (zlen payload <=? 0) || (zlen payload >? kMaxKafkaFrameBytes) = false.
Proof.
  intros Hn. do 4 eexists. split; [reflexivity|]. split.
  - rewrite decode_frame_size_be. apply (be_signed_roundtrip 4); [lia|]. unfold kMaxKafkaFrameBytes in Hn. unfold in_s. simpl. lia.
  - rewrite Z.gtb_ltb. bcase; (lia || done).
Qed.

Section replies.
Context {W : Type} (answer : bytes → IO W (option bytes)) (stops : W → bool).

(** What a broker in state [w] sends when it receives [input], whether it has
    closed the connection by then, and its state. *)
Fixpoint replies (fuel : nat) (w : W) (input : bytes) : bytes * bool * W :=
  match fuel with
  | O => ([], stops w, w)
  | S fuel' =>
      if stops w then ([], true, w)
      else match input with
      | b0 :: b1 :: b2 :: b3 :: input' =>
          let size := decode_frame_size b0 b1 b2 b3 in
          if (size <=? 0) || (size >? kMaxKafkaFrameBytes) then ([], true, w)
          else if zlen input' <? size then ([], false, w)
          else match answer (take (Z.to_nat size) input') w with
          | (Err _, w') => ([], true, w')
          | (Ok response, w') =>
              let '(out, closed, w'') := replies fuel' w' (drop (Z.to_nat size) input') in
              (default [] response ++ out, closed, w'')
          end
      | _ => ([], false, w)
      end
  end.
Definition reply_all (w : W) (input : bytes) : bytes * bool * W := replies (S (length input)) w input.

Lemma replies_fuel n m w input :
  (length input < n)%nat → (length input < m)%nat → replies n w input = replies m w input.
Proof.
  revert m w input. induction n as [|n IH]; intros [|m] w input Hn Hm; try lia. cbn [replies].
  destruct (stops w); [done|]. destruct input as [|b0 [|b1 [|b2 [|b3 input]]]]; try done.
  destruct (_ || _); [done|]. destruct (_ <? _); [done|]. destruct (answer _ w) as [[r|e] w']; [|done].
  rewrite (IH m); [done|rewrite length_drop; simpl in *; lia..].
Qed.

(** Nothing is sent before a whole frame has come. *)
Lemma reply_part w payload k :
  0 < zlen payload <= kMaxKafkaFrameBytes → stops w = false → (k < length (client_frame payload))%nat →
  reply_all w (take k (client_frame payload)) = ([], false, w).
Proof.
  intros Hn Hs Hk. unfold reply_all, client_frame in *. rewrite length_app, length_be_bytes in Hk. cbn [replies]. rewrite Hs.
  destruct (frame_prefix payload Hn) as (b0 & b1 & b2 & b3 & Hb & Hd & Hg).
  rewrite Hb. destruct k as [|[|[|[|k]]]]; try done. cbn [app take]. rewrite Hd, Hg.
  destruct (Z.ltb_spec (zlen (take k payload)) (zlen payload)) as [|Hz]; [done|].
  unfold zlen in Hz. rewrite length_take in Hz. lia.
Qed.

(** A whole frame is answered, and the rest goes to the state after it. *)
Lemma reply_frame w payload x :
  0 < zlen payload <= kMaxKafkaFrameBytes → stops w = false →
  reply_all w (client_frame payload ++ x) =
  match answer payload w with
  | (Err _, w') => ([], true, w')
  | (Ok response, w') => let '(out, closed, w'') := reply_all w' x in (default [] response ++ out, closed, w'')
  end.
Proof.
  intros Hn Hs. unfold reply_all at 1, client_frame. cbn [replies]. rewrite Hs.
  destruct (frame_prefix payload Hn) as (b0 & b1 & b2 & b3 & Hb & Hd & Hg).
  rewrite <- app_assoc, Hb. cbn [app]. rewrite Hd, Hg, zlen_app. pose proof (zlen_nonneg x). destruct (Z.ltb_spec (zlen payload + zlen x) (zlen payload)); [lia|].
  replace (Z.to_nat (zlen payload)) with (length payload) by (unfold zlen; lia). rewrite take_app_length, drop_app_length.
  destruct (answer payload w) as [[r|e] w']; [|done]. cbn [length]. rewrite length_app.
  rewrite (replies_fuel _ (S (length x)) w' x) by lia. done.
Qed.
End replies.

(** [handle_connection] is such a broker: a shard whose writes go to the
    client and change nothing else ends in the state [replies] gives. *)
Definition shard_stops `{Crc32Intrinsics} {St : Storage} {Reactor0 : Reactor} (me : nat) (w : Node Net) : bool :=
  match shards w !! me with Some b => stopping_ b | None => true end.

Section shard.
Context `{Crc32Intrinsics} {St : Storage} {Reactor0 : Reactor} (me : nat).
Hypothesis writes_out : ∀ response w, socket_write me response w = (Ok tt, w).

Lemma connection_replies n input w :
  (length input < n)%nat →
  snd (handle_connection n me input w) = (replies (handle_kafka_frame me) (shard_stops me) n w input).2.
Proof.
  revert input w. induction n as [|n IH]; intros input w Hn; [lia|]. cbn [handle_connection replies].
  unfold mbind, IO_bind at 1. unfold ask at 1, shard_stops at 1. destruct (shards w !! me) as [b|]; [|done].
  destruct (stopping_ b); [done|]. destruct input as [|b0 [|b1 [|b2 [|b3 input]]]]; try done.
  set (size := decode_frame_size b0 b1 b2 b3). destruct ((size <=? 0) || (size >? kMaxKafkaFrameBytes)) eqn:Eg; [done|].
  rewrite Z.gtb_ltb in Eg. apply orb_false_iff in Eg as [Eg _]. apply Z.leb_gt in Eg.
  assert (negb (zlen (take (Z.to_nat size) input) =? size) = (zlen input <? size)) as ->.
  { unfold zlen. rewrite length_take. bcase; try done; lia. }
  destruct (zlen input <? size); [done|]. unfold IO_bind, catch.
  destruct (handle_kafka_frame me (take (Z.to_nat size) input) w) as [[[response|]|e] w']; [| |done].
  - rewrite writes_out. unfold mret, IO_ret. rewrite IH by (rewrite length_drop; simpl in Hn; lia).
    by destruct (replies _ _ n w' _) as [[]].
  - unfold mret, IO_ret. rewrite IH by (rewrite length_drop; simpl in Hn; lia). by destruct (replies _ _ n w' _) as [[]].
Qed.
End shard.

(** ** The dialogue *)

(** The errors of the dialogue: the broker closed the connection; or what
    follows is not described: a broker that is shutting down, a result that
    does not fit in a frame of [budget] bytes, and a broker that throws on a
    request without an answer. *)
Definition closed : error := RuntimeError (str "failed to read response size").
Definition undescribed : error := UndefinedBehavior (str "not part of the dialogue").

Record Session (W : Type) := mkSession { host : W; printed : list item }.
Arguments mkSession {W} _ _.
Arguments host {W} _.
Arguments printed {W} _.

(** Output without the measured times. *)
Definition untimed (i : item) : item := match i with Text s => Text s | Micros _ => Micros 0 end.

(** Decidable well-formedness of the responses. *)
Section decisions.
#[local] Instance in_s_dec w z : Decision (in_s w z).
Proof. unfold in_s. apply _. Defined.
#[local] Instance fits32_dec {A} (l : list A) : Decision (fits32 l).
Proof. unfold fits32. apply _. Defined.
#[local] Instance opt_fits_dec {A} (s : option (list A)) : Decision (opt_fits s).
Proof.
  destruct s as [l|]; [|left; by intros ? [=]].
  destruct (decide (fits32 l)) as [Hl|Hl]; [left; by intros ? [= <-]|right; intros Hs; by apply Hl, Hs].
Defined.
#[local] Instance aborted_wf_dec a : Decision (aborted_wf a).
Proof.
  destruct a as [l|]; [|left; by intros ? [=]].
  destruct (decide (fits32 l ∧ Forall (in_s 64) l)) as [Hl|Hl]; [left; by intros ? [= <-]|right; intros Hs; by apply Hl, Hs].
Defined.
#[local] Instance metadata_broker_wf_dec b : Decision (metadata_broker_wf b).
Proof. unfold metadata_broker_wf. apply _. Defined.
#[local] Instance metadata_partition_wf_dec b : Decision (metadata_partition_wf b).
Proof. unfold metadata_partition_wf. apply _. Defined.
#[local] Instance metadata_topic_wf_dec b : Decision (metadata_topic_wf b).
Proof. unfold metadata_topic_wf. apply _. Defined.
#[global] Instance metadata_response_wf_dec b : Decision (metadata_response_wf b).
Proof. unfold metadata_response_wf. apply _. Defined.
#[local] Instance produce_partition_wf_dec b : Decision (produce_partition_wf b).
Proof. unfold produce_partition_wf. apply _. Defined.
#[local] Instance produce_topic_wf_dec b : Decision (produce_topic_wf b).
Proof. unfold produce_topic_wf. apply _. Defined.
#[global] Instance produce_response_wf_dec b : Decision (produce_response_wf b).
Proof. unfold produce_response_wf. apply _. Defined.
#[local] Instance fetch_partition_wf_dec b : Decision (fetch_partition_wf b).
Proof. unfold fetch_partition_wf. apply _. Defined.
#[local] Instance fetch_topic_wf_dec b : Decision (fetch_topic_wf b).
Proof. unfold fetch_topic_wf. apply _. Defined.
#[global] Instance fetch_response_wf_dec b : Decision (fetch_response_wf b).
Proof. unfold fetch_response_wf. apply _. Defined.
#[local] Instance list_offsets_partition_wf_dec b : Decision (list_offsets_partition_wf b).
Proof. unfold list_offsets_partition_wf. apply _. Defined.
#[local] Instance list_offsets_topic_wf_dec b : Decision (list_offsets_topic_wf b).
Proof. unfold list_offsets_topic_wf. apply _. Defined.
#[global] Instance list_offsets_response_wf_dec b : Decision (list_offsets_response_wf b).
Proof. unfold list_offsets_response_wf. apply _. Defined.
End decisions.

Section session.
Context `{Crc32Laws} `{Api : BrokerApi} (arrive on_error : IO Broker unit) (stops : Broker → bool) (budget : Z).
Abbreviation Dialogue A := (IO (Session Broker) A).

(** What the connection handler does with a frame. *)
Definition serve_frame (payload : bytes) : IO Broker (option bytes) :=
  arrive;;
  w ← get;
  future ← lift (handle_frame payload w);
  catch future (λ e, on_error;; fail e).

(** A step of the broker, and output of the client. *)
Definition at_host {A} (m : IO Broker A) : Dialogue A := λ s,
  let '(r, w) := m (host s) in (r, mkSession w (printed s)).
Definition say (items : list item) : Dialogue unit := modify (λ s, mkSession (host s) (printed s ++ map untimed items)).

(** A request comes in. *)
Definition attend : Dialogue unit := at_host (λ w,
  if stops w then (Err undescribed, w)
  else match arrive w with
  | (Ok _, w') => (Ok tt, w')
  | (Err _, w') => (Err closed, w')
  end).
(** The broker's part; when it throws the connection is closed. *)
Definition serve_request {A} (m : IO Broker A) : Dialogue A := at_host (λ w,
  match m w with
  | (Ok a, w') => (Ok a, w')
  | (Err _, w') => (Err closed, (on_error w').2)
  end).
(** The answer, of which the client reads [view]. *)
Definition reply {R A} (wf : R → Prop) `{∀ r, Decision (wf r)} (enc : R → bytes) (view : R → result A) (r : R) : Dialogue A :=
  if bool_decide (wf r) && (9 + zlen (enc r) <=? budget) && (5 + zlen (enc r) <=? kMaxResponseBytes)
  then lift (view r) else fail undescribed.

Definition ask_versions : Dialogue unit := attend;; mret tt.

(** The client may look at a correlation id only. *)
Definition noted {R} (_ : R) : result unit := Ok tt.

Definition ask_metadata {A} (view : MetadataResponse → result A) (o : Options) : Dialogue A :=
  attend;;
  config ← at_host (λ w, (Ok (broker_config w), w));
  reply metadata_response_wf enc_metadata_response view (metadata_response config (bench_metadata o)).

Definition fetch_error_of (r : FetchResponse) : result Z := summary ← fetch_summary_of r; Ok (fs_error_code summary).

(** The requests the broker's handlers get. *)
Definition append_request (o : Options) : ProducePartitionRequest :=
  mkProducePartitionRequest (opt_topic o) (opt_partition o) (bench_batch o).
Definition fetch_request (o : Options) (offset wait : Z) : FetchPartitionRequest :=
  mkFetchPartitionRequest (opt_topic o) (opt_partition o) offset wait 1 (1024 * 1024).
Definition offsets_request (o : Options) (timestamp : Z) : ListOffsetPartitionRequest :=
  mkListOffsetPartitionRequest (opt_topic o) (opt_partition o) timestamp.

(** A transactional or idempotent request is refused without the broker. *)
Definition refused (o : Options) : bool := bool_decide (is_Some (opt_transactional_id o)) || opt_idempotent_batch o.
Definition refusal (o : Options) : ProducePartitionResult :=
  mkProducePartitionResult (opt_topic o) (opt_partition o) (error_code_value InvalidRequest) 0 0 0.
Definition append_result (o : Options) : Dialogue ProducePartitionResult :=
  if refused o then mret (refusal o)
  else serve_request (broker_append (append_request o) (opt_acks o) 100).
Definition ask_produce (o : Options) : Dialogue Z :=
  attend;;
  r ← append_result o;
  reply produce_response_wf enc_produce_response produce_error_of (produce_response [r]).
(** With acks 0 there is no answer, and an exception is not described. *)
Definition tell_produce (o : Options) : Dialogue unit := at_host (λ w,
  let quietly {A} (m : IO Broker A) (k : Broker → result unit * Broker) w :=
    match m w with (Ok _, w') => k w' | (Err _, w') => (Err undescribed, w') end in
  if stops w then (Err undescribed, w)
  else quietly arrive (λ w1,
    if refused o then (Ok tt, w1)
    else quietly (broker_append (append_request o) (opt_acks o) 100) (λ w2, (Ok tt, w2)) w1) w).

Definition ask_fetch {A} (view : FetchResponse → result A) (o : Options) (offset wait : Z) : Dialogue A :=
  attend;;
  r ← serve_request (broker_fetch (fetch_request o offset wait));
  reply fetch_response_wf enc_fetch_response view (fetch_response [(fetch_request o offset wait, r)]).
Definition ask_offset (o : Options) (timestamp : Z) : Dialogue (Z * Z) :=
  attend;;
  r ← serve_request (broker_list_offsets (offsets_request o timestamp));
  reply list_offsets_response_wf enc_list_offsets_response list_offset_of (list_offsets_response [r]).

(** ** The modes *)

Definition wrong (message : cstring) {A} : Dialogue A := fail (RuntimeError message).

Definition smoke_session (o : Options) : Dialogue unit :=
  let expected_error := default 0 (opt_expect_produce_error o) in
  let expected_metadata_error := default 0 (opt_expect_metadata_error o) in
  ask_versions;;
  metadata_error ← ask_metadata metadata_error_of o;
  if negb (metadata_error =? expected_metadata_error) then
    wrong (str "Metadata returned Kafka error " ++ to_string metadata_error ++
      str ", expected " ++ to_string expected_metadata_error)
  else if opt_metadata_only o then say [Text (str "metadata_error=" ++ to_string metadata_error); newline]
  else
    (if negb (opt_acks o =? 0) then
       error ← ask_produce o;
       if negb (error =? expected_error)
       then wrong (str "Produce smoke returned Kafka error " ++ to_string error)
       else mret tt
     else tell_produce o);;
    if negb (expected_error =? 0) then mret tt
    else
      ask_fetch noted o 0 0;;
      '(earliest_error, earliest) ← ask_offset o (-2);
      if negb (earliest_error =? 0) || negb (earliest =? 0) then
        wrong (str "ListOffsets earliest returned error " ++ to_string earliest_error ++
          str " offset " ++ to_string earliest)
      else
        '(latest_error, latest) ← ask_offset o (-1);
        if negb (latest_error =? 0) || (latest <? 1) then
          wrong (str "ListOffsets latest returned error " ++ to_string latest_error ++
            str " offset " ++ to_string latest)
        else if opt_fetch_empty_wait_ms o >? 0 then
          error ← ask_fetch fetch_error_of o 1 (opt_fetch_empty_wait_ms o);
          if negb (error =? 0)
          then wrong (str "Fetch empty wait returned Kafka error " ++ to_string error)
          else say [Text (str "fetch_empty_wait_us="); Micros 0; newline]
        else mret tt.

Definition greet_session (o : Options) : Dialogue unit := ask_versions;; ask_metadata noted o.

Definition list_offsets_session (o : Options) : Dialogue unit :=
  greet_session o;;
  '(error, offset) ← ask_offset o (-1);
  let expected_error := default 0 (opt_expect_list_offsets_error o) in
  if negb (error =? expected_error) then
    wrong (str "ListOffsets returned Kafka error " ++ to_string error ++ str ", expected " ++ to_string expected_error)
  else say [Text (str "list_offsets_error=" ++ to_string error ++ str " list_offsets_selected=" ++ to_string offset); newline].

Definition expect (ok : bool) (message : cstring) : Dialogue unit := if ok then mret tt else wrong message.
Definition expect_fetch (o : Options) (summary : FetchSummary) : Dialogue unit :=
  let error_code := fs_error_code summary in
  let size := zlen (fs_records summary) in
  match opt_expect_fetch_error o with
  | Some expected => expect (error_code =? expected)
      (str "Fetch returned Kafka error " ++ to_string error_code ++ str ", expected " ++ to_string expected)
  | None => expect (error_code =? 0) (str "Fetch returned Kafka error " ++ to_string error_code)
  end;;
  match opt_expect_fetch_min_bytes o with
  | Some n => expect (n <=? size)
      (str "Fetch returned " ++ to_string size ++ str " record bytes, expected at least " ++ to_string n)
  | None => mret tt
  end;;
  match opt_expect_fetch_max_bytes o with
  | Some n => expect (size <=? n)
      (str "Fetch returned " ++ to_string size ++ str " record bytes, expected at most " ++ to_string n)
  | None => mret tt
  end.
Definition fetch_session (o : Options) : Dialogue unit :=
  greet_session o;;
  summary ← ask_fetch fetch_summary_of o (opt_fetch_offset o) 0;
  expect_fetch o summary;;
  say [Text (str "fetch_error=" ++ to_string (fs_error_code summary) ++
    str " fetch_high_watermark=" ++ to_string (fs_high_watermark summary) ++
    str " fetch_record_bytes=" ++ to_string (zlen (fs_records summary))); newline].

(** [n] requests, each acknowledged before the next. *)
Fixpoint produce_session (n : nat) (o : Options) : Dialogue unit :=
  match n with
  | O => mret tt
  | S n' =>
      error ← ask_produce o;
      if negb (error =? 0) then wrong (str "Produce benchmark returned Kafka error " ++ to_string error)
      else produce_session n' o
  end.
Definition benchmark_session (o : Options) : Dialogue unit :=
  if opt_acks o =? 0 then wrong (str "benchmark mode requires a Produce response; use --acks 1 or --acks -1")
  else
    produce_session (Z.to_nat (opt_messages o)) o;;
    say [Text (str "messages=" ++ to_string (opt_messages o) ++ str " payload=" ++ to_string (opt_payload_size o) ++
        str " p50_us="); Micros 0; Text (str " p99_us="); Micros 0; Text (str " max_us="); Micros 0; newline].

Definition modes_session (o : Options) : Dialogue unit :=
  (if opt_metadata_only o then smoke_session o
   else if opt_list_offsets_only o then list_offsets_session o
   else if opt_fetch_only o then fetch_session o
   else smoke_session o);;
  if negb (opt_smoke o) && negb (opt_fetch_only o) && negb (opt_metadata_only o) &&
     negb (opt_list_offsets_only o) && bool_decide (opt_expect_produce_error o = None)
  then benchmark_session o
  else mret tt.

(** ** Simulation *)

Context `{Posix} (fd : Z) `{!Connected fd} (rounds : nat).

(** From here on the peer of [p] is the broker in state [w]. *)
Definition talks (p : Process) (w : Broker) : Prop := ∀ x,
  peer (sent (sys p) ++ x) = received (sys p) ++ (reply_all serve_frame stops w x).1.1 ∧
  hangs_up (sent (sys p) ++ x) = (reply_all serve_frame stops w x).1.2.
Definition linked (p : Process) (s : Session Broker) : Prop :=
  talks p (host s) ∧ map untimed (cout p) = printed s ∧ roomy fd rounds budget p.

(** [m] does what the dialogue [d] says, with the same value or error. *)
Definition simulates {A} (m : IO Process A) (d : Dialogue A) : Prop := ∀ p s, linked p s →
  match d s with
  | (Ok a, s') => ∃ p', m p = (Ok a, p') ∧ linked p' s' ∧ cerr p' = cerr p
  | (Err e, s') => e = undescribed ∨ ∃ p', m p = (Err e, p') ∧ map untimed (cout p') = printed s' ∧ cerr p' = cerr p
  end.

Lemma simulates_ret {A} (a : A) : simulates (mret a) (mret a).
Proof. intros p s Hl. by exists p. Qed.

Lemma simulates_fail {A} message : simulates (runtime_error message : IO Process A) (wrong message).
Proof. intros p s (_ & Ho & _). right. by exists p. Qed.

Lemma simulates_bind {A B} (m : IO Process A) (k : A → IO Process B) d e :
  simulates m d → (∀ a, simulates (k a) (e a)) → simulates (m ≫= k) (d ≫= e).
Proof.
  intros Hm Hk p s Hl. specialize (Hm p s Hl). unfold mbind, IO_bind in *. destruct (d s) as [[a|err] s1].
  - destruct Hm as (p1 & -> & Hl1 & He). specialize (Hk a p1 s1 Hl1). destruct (e a s1) as [[b|err] s2].
    + destruct Hk as (p2 & -> & Hl2 & He2). exists p2. split_and!; [done|done|congruence].
    + destruct Hk as [?|(p2 & -> & Ho & He2)]; [by left|]. right. exists p2. split_and!; [done|done|congruence].
  - destruct Hm as [?|(p1 & -> & Ho & He)]; [by left|]. right. by exists p1.
Qed.

(** Equal computations. *)
Lemma simulates_ext {A} (m m' : IO Process A) d : (∀ p, m p = m' p) → simulates m' d → simulates m d.
Proof. intros E Hm p s Hl. rewrite E. by apply Hm. Qed.

Lemma simulates_extd {A} (m : IO Process A) d d' : (∀ s, d s = d' s) → simulates m d' → simulates m d.
Proof. intros E Hm p s Hl. rewrite E. by apply Hm. Qed.

Lemma simulates_say items : simulates (print items) (say items).
Proof.
  intros p s (Ht & Ho & Hr). unfold say, modify. eexists. split; [reflexivity|]. split; [|done].
  split; [exact Ht|]. split; [|exact Hr]. cbn [cout printed]. by rewrite map_app, Ho.
Qed.

(** Reading the clock is not part of the dialogue. *)
Lemma simulates_clock {A} (k : Z → IO Process A) d : (∀ t, simulates (k t) d) → simulates (syscall steady_clock_now ≫= k) d.
Proof.
  intros Hk p s (Ht & Ho & Hr). pose proof (clock_law (sys p)) as Hc. unfold mbind, IO_bind, syscall.
  destruct (steady_clock_now (sys p)) as [t s']. cbn [snd] in Hc. destruct Hc as (Hs & Hrec & Hsig).
  apply (Hk t (mkProcess _ s' (cout p) (cerr p)) s). split; [|split; [done|]].
  - intros x. cbn [sys]. rewrite Hs, Hrec. apply Ht.
  - unfold roomy in *. cbn [sys]. lia.
Qed.

(** The fields of [linked] after output-preserving steps. *)
Lemma same_linked p p' (s : Session Broker) w :
  same_output fd p p' → map untimed (cout p) = printed s → roomy fd rounds budget p → talks p' w →
  linked p' (mkSession w (printed s)) ∧ cerr p' = cerr p.
Proof.
  intros Hs Ho Hr Ht. pose proof Hs as (Hc & He & _). split; [|done]. split; [done|]. split; [cbn [printed]; congruence|].
  by eapply roomy_same.
Qed.

(** Sending a request that reaches the broker. *)
Definition sends (key : ApiKey) (version corr : Z) (body : bytes) : Prop :=
  request_header_version key version = 2 ∧ 25 + zlen body <= budget ∧ zlen body <= kMaxBody.

Lemma send_request_ok key version corr body p w :
  sends key version corr body → talks p w → roomy fd rounds budget p → stops w = false →
  let payload := bench_payload key version corr body in
  0 < zlen payload <= kMaxKafkaFrameBytes ∧
  ∃ p', send_request rounds fd (api_id key) version corr (Ok body) p = (Ok tt, p') ∧ same_output fd p p' ∧
    sent (sys p') = sent (sys p) ++ client_frame payload ∧ received (sys p') = received (sys p).
Proof.
  intros (Hv & Hb & Hm) Ht Hr Hs payload. pose proof (bench_payload_size key version corr body Hv) as Hz. fold payload in Hz.
  pose proof (zlen_nonneg body). unfold kMaxBody in Hm. assert (0 < zlen payload <= kMaxKafkaFrameBytes) as Hn by (unfold kMaxKafkaFrameBytes; lia).
  split; [done|]. destruct (send_frame_ok fd rounds budget (client_frame payload) p) as (p' & Hp' & Hrest); [done| | |].
  - unfold client_frame. rewrite zlen_app. change (zlen (be_bytes 4 _)) with 4. lia.
  - intros k. destruct (decide (length (client_frame payload) <= k)%nat) as [|Hk]; [by right|left].
    by rewrite (proj2 (Ht _)), reply_part by (done || lia).
  - exists p'. split; [|done]. unfold send_request. rewrite (io_bind_ok _ _ _ body p) by done.
    rewrite (io_bind_ok _ _ _ (client_frame payload) p); [done|]. unfold lift. by rewrite wrap_request_enc by (done || lia).
Qed.

(** The three outcomes of a request. *)
Lemma request_answered key version corr body p w w' payload {A} (k : bytes → IO Process A) :
  sends key version corr body → talks p w → roomy fd rounds budget p → stops w = false →
  serve_frame (bench_payload key version corr body) w = (Ok (Some (be_bytes 4 (zlen payload) ++ payload)), w') →
  4 + zlen payload <= budget → 0 < zlen payload <= kMaxResponseBytes →
  ∃ p', (send_request rounds fd (api_id key) version corr (Ok body);; frame ← recv_frame rounds fd; k frame) p
    = k (be_bytes 4 (zlen payload) ++ payload) p' ∧ same_output fd p p' ∧ talks p' w'.
Proof.
  intros Hsend Ht Hr Hs Ha Hb Hn. destruct (send_request_ok key version corr body p w Hsend Ht Hr Hs) as (Hq & p1 & Hp1 & Hs1 & Hse1 & Hre1).
  set (frame := client_frame (bench_payload key version corr body)) in *.
  set (response := be_bytes 4 (zlen payload) ++ payload) in *.
  assert (∀ x, reply_all serve_frame stops w (frame ++ x) = let '(out, closed, w'') := reply_all serve_frame stops w' x in
    (response ++ out, closed, w'')) as Hreply by (intros x; unfold frame; by rewrite reply_frame, Ha by done).
  destruct (recv_frame_ok fd rounds budget payload [] p1) as (p2 & Hp2 & Hs2 & Hse2 & Hre2);
    [by eapply roomy_same|done|done| |].
  { rewrite Hse1, Hre1, app_nil_r. fold response. rewrite <- (app_nil_r frame), (proj1 (Ht _)), Hreply. unfold reply_all at 1.
    cbn [length replies]. by destruct (stops w'); cbn [fst]; rewrite app_nil_r. }
  exists p2. rewrite (io_bind_ok _ _ _ _ _ Hp1), (io_bind_ok _ _ _ _ _ Hp2). split; [done|]. split; [by transitivity p1|].
  intros x. rewrite Hse2, Hse1, Hre2, Hre1, <- !app_assoc. destruct (Ht (frame ++ x)) as [-> ->]. rewrite Hreply.
  fold response. rewrite (app_assoc _ payload). fold response. destruct (reply_all serve_frame stops w' x) as [[]]. done.
Qed.

Lemma request_closed key version corr body p w w' e {A} (k : bytes → IO Process A) :
  sends key version corr body → talks p w → roomy fd rounds budget p → stops w = false →
  serve_frame (bench_payload key version corr body) w = (Err e, w') →
  ∃ p', (send_request rounds fd (api_id key) version corr (Ok body);; frame ← recv_frame rounds fd; k frame) p
    = (Err closed, p') ∧ same_output fd p p'.
Proof.
  intros Hsend Ht Hr Hs Ha. destruct (send_request_ok key version corr body p w Hsend Ht Hr Hs) as (Hq & p1 & Hp1 & Hs1 & Hse1 & Hre1).
  set (frame := client_frame (bench_payload key version corr body)) in *.
  assert (reply_all serve_frame stops w frame = ([], true, w')) as Hreply.
  { unfold frame. by rewrite <- (app_nil_r (client_frame _)), reply_frame, Ha by done. }
  destruct (recv_frame_hangup fd rounds budget p1) as (p2 & Hp2 & Hs2); [by eapply roomy_same| | | |].
  - destruct Hsend as (_ & Hb & _). pose proof (zlen_nonneg body). lia.
  - by rewrite Hse1, Hre1, (proj1 (Ht _)), Hreply, app_nil_r.
  - by rewrite Hse1, (proj2 (Ht _)), Hreply.
  - exists p2. rewrite (io_bind_ok _ _ _ _ _ Hp1). unfold mbind, IO_bind. rewrite Hp2. split; [done|by transitivity p1].
Qed.

Lemma request_unanswered key version corr body p w w' :
  sends key version corr body → talks p w → roomy fd rounds budget p → stops w = false →
  serve_frame (bench_payload key version corr body) w = (Ok None, w') →
  ∃ p', send_request rounds fd (api_id key) version corr (Ok body) p = (Ok tt, p') ∧ same_output fd p p' ∧ talks p' w'.
Proof.
  intros Hsend Ht Hr Hs Ha. destruct (send_request_ok key version corr body p w Hsend Ht Hr Hs) as (Hq & p1 & Hp1 & Hs1 & Hse1 & Hre1).
  exists p1. split; [done|]. split; [done|]. intros x. rewrite Hse1, Hre1, <- app_assoc.
  destruct (Ht (client_frame (bench_payload key version corr body) ++ x)) as [-> ->].
  rewrite reply_frame, Ha by done. by destruct (reply_all serve_frame stops w' x) as [[]].
Qed.

(** A request and its answer, of which the client looks at [read]. *)
Lemma simulates_ask {A} key version corr body (read : bytes → result A) (d : Dialogue A) :
  sends key version corr body →
  (∀ s, stops (host s) = true → (d s).1 = Err undescribed) →
  (∀ s, stops (host s) = false → (d s).1 = Err undescribed ∨
     match serve_frame (bench_payload key version corr body) (host s) with
     | (Ok (Some response), w') => ∃ payload, response = be_bytes 4 (zlen payload) ++ payload ∧
         4 + zlen payload <= budget ∧ 0 < zlen payload <= kMaxResponseBytes ∧ d s = (read response, mkSession w' (printed s))
     | (Ok None, _) => False
     | (Err _, w') => d s = (Err closed, mkSession w' (printed s))
     end) →
  simulates (send_request rounds fd (api_id key) version corr (Ok body);; frame ← recv_frame rounds fd; lift (read frame)) d.
Proof.
  intros Hsend Hstop Hd p s (Ht & Ho & Hr). destruct (stops (host s)) eqn:Es.
  { specialize (Hstop s Es). destruct (d s) as [[a|e] s']; [done|]. left. by injection Hstop as ->. }
  destruct (Hd s Es) as [Hu|Ha]; [destruct (d s) as [[a|e] s']; [done|]; left; by injection Hu as ->|].
  destruct (serve_frame _ (host s)) as [[[response|]|e] w'] eqn:Ea; [| done|].
  - destruct Ha as (payload & -> & Hb & Hn & ->).
    destruct (request_answered key version corr body p (host s) w' payload (λ frame, lift (read frame)) Hsend Ht Hr Es Ea Hb Hn)
      as (p' & -> & Hs' & Ht'). destruct (same_linked p p' s w' Hs' Ho Hr Ht') as [Hl He]. unfold lift.
    destruct (read _) as [a|e]; [by exists p'|]. right. exists p'. split_and!; [done|apply Hl|done].
  - rewrite Ha. destruct (request_closed key version corr body p (host s) w' e (λ frame, lift (read frame)) Hsend Ht Hr Es Ea)
      as (p' & -> & (Hc & He & _)). right. exists p'. split_and!; [done|cbn [printed]; congruence|done].
Qed.

(** ** The answers of the broker *)

Lemma answer_eq payload w :
  serve_frame payload w =
  match arrive w with
  | (Err e, w1) => (Err e, w1)
  | (Ok _, w1) =>
      match handle_frame payload w1 with
      | Err e => (Err e, w1)
      | Ok future =>
          match future w1 with
          | (Ok r, w2) => (Ok r, w2)
          | (Err e, w2) => ((on_error;; fail e) w2 : result (option bytes) * Broker)
          end
      end
  end.
Proof.
  unfold serve_frame, mbind, IO_bind, get, lift, catch. destruct (arrive w) as [[?|?] w1]; [|done].
  destruct (handle_frame payload w1) as [future|e]; [|done]. destruct (future w1) as [[?|?] ?]; done.
Qed.

Lemma failed_future {A} e w2 : ∃ e', ((on_error;; fail e) w2 : result A * Broker) = (Err e', (on_error w2).2).
Proof. unfold mbind, IO_bind, fail. destruct (on_error w2) as [[?|e'] w3]; eauto. Qed.

(** A response in its frame. *)
Lemma respond_tagged key version corr body :
  response_header_version key version = 1 → body_fits body →
  respond (header_of key version corr bench_client) (Ok body) = Ok (tagged_frame corr body).
Proof.
  intros Hv Hb. unfold respond. cbn [mbind result_bind]. rewrite make_response_frame_enc by done.
  assert (enc_response_header (header_of key version corr bench_client) = be_bytes 4 corr ++ enc_no_tags) as ->.
  { unfold enc_response_header. cbn [header_of api_key api_version correlation_id]. by rewrite Hv. }
  unfold tagged_frame. rewrite zlen_app. change (zlen (be_bytes 4 corr ++ enc_no_tags)) with 5. done.
Qed.

(** What [reply] lets through: the broker's frame can be read. *)
Lemma reply_cases {R A} (wf : R → Prop) `{∀ r, Decision (wf r)} (enc : R → bytes) (view : R → result A) r s key version corr
    (encode : R → result bytes) :
  response_header_version key version = 1 → (∀ r, wf r → encode r = Ok (enc r)) →
  (reply wf enc view r s).1 = Err undescribed ∨
  (wf r ∧ body_fits (enc r) ∧ reply wf enc view r s = (view r, s) ∧
   respond (header_of key version corr bench_client) (encode r) = Ok (tagged_frame corr (enc r)) ∧
   ∃ payload, tagged_frame corr (enc r) = be_bytes 4 (zlen payload) ++ payload ∧
     4 + zlen payload <= budget ∧ 0 < zlen payload <= kMaxResponseBytes).
Proof.
  intros Hv He. unfold reply. destruct (bool_decide_reflect (wf r)) as [Hwf|]; [|by left].
  destruct (Z.leb_spec (9 + zlen (enc r)) budget); [|by left].
  destruct (Z.leb_spec (5 + zlen (enc r)) kMaxResponseBytes) as [Hk|]; [|by left]. right. pose proof (zlen_nonneg (enc r)).
  assert (body_fits (enc r)) as Hfits by (unfold body_fits, kMaxResponseBytes in *; lia).
  split; [done|]. split; [done|]. split; [done|]. split; [rewrite He by done; by apply respond_tagged|].
  exists ((be_bytes 4 corr ++ enc_no_tags) ++ enc r). unfold tagged_frame. rewrite !zlen_app.
  change (zlen (be_bytes 4 corr)) with 4. change (zlen enc_no_tags) with 1. split; [done|]. lia.
Qed.

Lemma attend_stops s {A} (k : unit → Dialogue A) : stops (host s) = true → ((attend ≫= k) s).1 = Err undescribed.
Proof. intros Hs. unfold attend, at_host, mbind, IO_bind. by rewrite Hs. Qed.

(** The request is let in, or the connection closed. *)
Lemma attend_cases s {A} (k : unit → Dialogue A) : stops (host s) = false →
  match arrive (host s) with
  | (Ok _, w1) => (attend ≫= k) s = k tt (mkSession w1 (printed s))
  | (Err _, w1) => (attend ≫= k) s = (Err closed, mkSession w1 (printed s))
  end.
Proof. intros Hs. unfold attend, at_host, mbind, IO_bind. rewrite Hs. by destruct (arrive (host s)) as [[?|?] w1]. Qed.

(** A request: it comes in, and the rest of the dialogue is the broker's
    future and the answer. *)
Lemma simulates_request {A} key version corr body (read : bytes → result A) (rest : Dialogue A) :
  sends key version corr body →
  (∀ w out, (rest (mkSession w out)).1 = Err undescribed ∨
     ∃ future, handle_frame (bench_payload key version corr body) w = Ok future ∧
     match future w with
     | (Ok (Some response), w') => ∃ payload, response = be_bytes 4 (zlen payload) ++ payload ∧
         4 + zlen payload <= budget ∧ 0 < zlen payload <= kMaxResponseBytes ∧ rest (mkSession w out) = (read response, mkSession w' out)
     | (Ok None, _) => False
     | (Err _, w') => rest (mkSession w out) = (Err closed, mkSession (on_error w').2 out)
     end) →
  simulates (send_request rounds fd (api_id key) version corr (Ok body);; frame ← recv_frame rounds fd; lift (read frame))
    (attend;; rest).
Proof.
  intros Hsend Hrest. apply simulates_ask; [done|by intros s Hs; apply attend_stops|]. intros s Hs.
  pose proof (attend_cases s (λ _, rest) Hs) as Ha. rewrite answer_eq. destruct (arrive (host s)) as [[?|e] w1].
  - rewrite Ha. destruct (Hrest w1 (printed s)) as [?|(future & -> & Hf)]; [by left|]. right.
    destruct (future w1) as [[[response|]|e] w2]; [done|done|].
    destruct (failed_future (A := option bytes) e w2) as [e' ->]. done.
  - right. done.
Qed.

Lemma bench_client_ok : client_ok bench_client.
Proof. by intros c [= <-]. Qed.

(** The frame of a request is small enough for the broker's reader. *)
Lemma sends_small key version corr body : sends key version corr body →
  zlen (request_frame (header_of key version corr bench_client) bench_client body) < 2 ^ 64.
Proof.
  intros (Hv & _ & Hm). pose proof (bench_payload_size key version corr body Hv) as Hz. unfold bench_payload in Hz. rewrite Hz.
  unfold kMaxBody in Hm. lia.
Qed.

(** The client checks no more than the correlation id. *)
Lemma expect_correlation_ok size corr rest :
  in_s 32 size → in_s 32 corr → zlen rest < 2 ^ 63 → expect_correlation (be_bytes 4 size ++ be_bytes 4 corr ++ rest) corr = Ok tt.
Proof.
  intros Hs Hc Hr.
  assert (read_frame (check_correlation corr;; mret tt) (be_bytes 4 size ++ be_bytes 4 corr ++ rest) = Ok tt) as Hf.
  { apply yields_frame; [|rewrite !zlen_app; change (zlen (be_bytes 4 _)) with 4; lia].
    pose proof (yields_correlation (λ _, mret tt) size corr corr rest (Ok tt) Hs Hc) as Hy.
    rewrite Z.eqb_refl in Hy. apply Hy. intros _. apply (yields_prefix _ []), yields_reads, reads_ret. }
  unfold expect_correlation, read_frame in *. unfold mbind, ST_bind in Hf.
  destruct (check_correlation corr (WireReader_of (be_bytes 4 size ++ be_bytes 4 corr ++ rest))) as [[[] ?]|]; done.
Qed.

Lemma expect_correlation_tagged corr body : in_s 32 corr → body_fits body → expect_correlation (tagged_frame corr body) corr = Ok tt.
Proof.
  intros Hc Hb. unfold body_fits in Hb. pose proof (zlen_nonneg body). unfold tagged_frame. rewrite <- app_assoc.
  apply expect_correlation_ok; [unfold in_s; lia|done|]. rewrite zlen_app. change (zlen enc_no_tags) with 1. lia.
Qed.

(** The answer to ApiVersions. *)
Definition versions_body : bytes := enc_api_versions_response (api_versions_response NoError).
Lemma respond_versions corr :
  respond (header_of ApiVersions 3 corr bench_client) (encode_api_versions_response (api_versions_response NoError))
  = Ok (be_bytes 4 47 ++ be_bytes 4 corr ++ versions_body).
Proof.
  assert (encode_api_versions_response (api_versions_response NoError) = Ok versions_body) as -> by reflexivity.
  unfold respond. cbn [mbind result_bind]. rewrite make_response_frame_enc by done.
  assert (enc_response_header (header_of ApiVersions 3 corr bench_client) = be_bytes 4 corr) as -> by apply app_nil_r.
  assert (zlen (be_bytes 4 corr ++ versions_body) = 47) as -> by reflexivity. done.
Qed.

Lemma simulates_versions corr :
  in_s 32 corr → 100 <= budget →
  simulates (send_request rounds fd 18 3 corr make_api_versions_body;; frame ← recv_frame rounds fd; lift (expect_correlation frame corr))
    ask_versions.
Proof.
  intros Hc Hb. rewrite make_api_versions_body_enc.
  assert (sends ApiVersions 3 corr bench_api_versions) as Hsend.
  { split; [done|]. assert (zlen bench_api_versions = 16) as -> by reflexivity. unfold kMaxBody. lia. }
  apply (simulates_request ApiVersions); [done|]. intros w out. right.
  destruct (handle_versions_frame 3 corr bench_client bench_api_versions w ltac:(done) Hc bench_client_ok (sends_small _ _ _ _ Hsend))
    as (response & Hh & Hr). exists (mret (Some response)). split; [exact Hh|]. unfold mret, IO_ret.
  change (if (0 <=? 3) && (3 <=? 3) then NoError else UnsupportedVersion) with NoError in Hr.
  rewrite respond_versions in Hr. assert (response = be_bytes 4 47 ++ be_bytes 4 corr ++ versions_body) as -> by congruence.
  exists (be_bytes 4 corr ++ versions_body). assert (zlen (be_bytes 4 corr ++ versions_body) = 47) as -> by reflexivity.
  unfold kMaxResponseBytes. split; [done|]. split; [lia|]. split; [lia|].
  by rewrite expect_correlation_ok.
Qed.

(** Options whose requests fit in the budget. *)
Definition in_budget (o : Options) : Prop := sendable o ∧ 254 + request_room o <= budget.

Lemma in_budget_room o : in_budget o → 100 <= budget.
Proof.
  intros [[(_ & _ & Hp & _) _] Hb]. unfold request_room in Hb. pose proof (zlen_nonneg (opt_topic o)).
  pose proof (zlen_nonneg (default [] (opt_transactional_id o))). lia.
Qed.

Lemma in_budget_sends o key version corr body :
  in_budget o → request_header_version key version = 2 → zlen body <= 229 + request_room o → sends key version corr body.
Proof.
  intros [Hs Hb] Hv Hl. destruct (bench_bodies_fit o Hs) as (Hm & _). split; [done|]. lia.
Qed.

(** The client's view of a metadata answer. *)
Definition reads_metadata {A} (read : bytes → Z → result A) (view : MetadataResponse → result A) : Prop :=
  ∀ r corr, metadata_response_wf r → in_s 32 corr → body_fits (enc_metadata_response r) →
    read (tagged_frame corr (enc_metadata_response r)) corr = view r.
Lemma reads_metadata_error : reads_metadata first_metadata_error metadata_error_of.
Proof. intros r corr Hr Hc Hb. by rewrite first_metadata_error_ok, Z.eqb_refl. Qed.
Lemma reads_metadata_noted : reads_metadata expect_correlation noted.
Proof. intros r corr Hr Hc Hb. by apply expect_correlation_tagged. Qed.

Lemma simulates_metadata {A} (read : bytes → Z → result A) view o corr :
  reads_metadata read view → in_budget o → in_s 32 corr →
  simulates (send_request rounds fd 3 9 corr (make_metadata_body o);; frame ← recv_frame rounds fd; lift (read frame corr))
    (ask_metadata view o).
Proof.
  intros Hread Hin Hc. pose proof Hin as [Hs Hb]. destruct (sendable_fits o Hs) as (_ & Ht & _). rewrite make_metadata_body_enc by done.
  destruct (bench_bodies_fit o Hs) as (_ & _ & Hm & _). destruct (bench_requests_wf o Hs) as (Hwf & _).
  pose proof (in_budget_sends o Metadata 9 corr _ Hin eq_refl Hm) as Hsend.
  apply (simulates_request Metadata 9 corr _ (λ frame, read frame corr)); [done|]. intros w out.
  pose proof (handle_metadata_frame corr bench_client (bench_metadata o) w Hc bench_client_ok Hwf (sends_small _ _ _ _ Hsend)) as Hh.
  unfold mbind, IO_bind, at_host. cbn [host printed].
  destruct (reply_cases metadata_response_wf enc_metadata_response view (metadata_response (broker_config w) (bench_metadata o))
    (mkSession w out) Metadata 9 corr encode_metadata_response eq_refl encode_metadata_enc) as [?|(Hr & Hfit & Hrep & Hresp & payload & Hpay)];
    [by left|]. right. rewrite Hresp in Hh. cbn [mbind result_bind] in Hh. eexists. split; [exact Hh|]. unfold mret, IO_ret.
  exists payload. destruct Hpay as (Hf & Hb1 & Hb2). split; [done|]. split; [done|]. split; [done|].
  rewrite Hrep. by rewrite Hread.
Qed.

Lemma do_for_each_one {B C} (x : B) (body : B → IO Broker C) w :
  do_for_each [x] body w = match body x w with (Ok r, w') => (Ok [r], w') | (Err e, w') => (Err e, w') end.
Proof. cbn [do_for_each]. unfold mbind, IO_bind, mret, IO_ret. by destruct (body x w) as [[?|?] ?]. Qed.

(** A future that asks the broker once and answers. *)
Lemma future_cases {R B A} (wf : R → Prop) `{∀ r, Decision (wf r)} (enc : R → bytes) (encode : R → result bytes)
    (view : R → result A) (m : IO Broker B) (response : B → R) (read : bytes → result A) key version corr w out :
  response_header_version key version = 1 → (∀ r, wf r → encode r = Ok (enc r)) →
  (∀ r, wf r → body_fits (enc r) → read (tagged_frame corr (enc r)) = view r) →
  let rest := r ← serve_request m; reply wf enc view (response r) in
  let future := r ← m; frame ← lift (respond (header_of key version corr bench_client) (encode (response r))); mret (Some frame) in
  (rest (mkSession w out)).1 = Err undescribed ∨
  match (future w : result (option bytes) * Broker) with
  | (Ok (Some response), w') => ∃ payload, response = be_bytes 4 (zlen payload) ++ payload ∧
      4 + zlen payload <= budget ∧ 0 < zlen payload <= kMaxResponseBytes ∧ rest (mkSession w out) = (read response, mkSession w' out)
  | (Ok None, _) => False
  | (Err _, w') => rest (mkSession w out) = (Err closed, mkSession (on_error w').2 out)
  end.
Proof.
  intros Hv He Hread rest future. unfold rest, future, serve_request, at_host, mbind, IO_bind, lift, mret, IO_ret. cbn [host printed].
  destruct (m w) as [[r|e] w']; [|by right].
  destruct (reply_cases wf enc view (response r) (mkSession w' out) key version corr encode Hv He)
    as [?|(Hr & Hfit & Hrep & Hresp & payload & Hf & Hb1 & Hb2)]; [by left|]. right. rewrite Hresp. exists payload.
  split; [done|]. split; [done|]. split; [done|]. rewrite Hrep. by rewrite Hread.
Qed.

Lemma rejected_refused o acks : payload_fits o → rejected (bench_produce o acks) = refused o.
Proof.
  intros Hp. unfold rejected, refused. cbn [bench_produce pq_transactional_id]. f_equal.
  unfold produce_partitions. cbn [bench_produce pq_topics map concat]. cbn [pqt_partitions pqt_name map app existsb].
  cbn [ppq_records pqp_records]. rewrite orb_false_r. unfold idem, idempotent. by rewrite bench_batch_has_idempotent.
Qed.

Lemma bench_produce_sends o corr :
  in_budget o → sends Produce 9 corr (enc_produce_request (bench_produce o (opt_acks o))).
Proof.
  intros Hin. destruct (bench_bodies_fit o (proj1 Hin)) as (_ & _ & _ & Hm & _). by apply (in_budget_sends o).
Qed.

(** What the protocol handler does with the client's Produce request. *)
Lemma handle_bench_produce o corr w :
  in_budget o → in_s 32 corr →
  let h := header_of Produce 9 corr bench_client in
  let body := enc_produce_request (bench_produce o (opt_acks o)) in
  handle_frame (bench_payload Produce 9 corr body) w =
    if refused o then
      if opt_acks o =? 0 then Ok (mret None)
      else frame ← respond h (encode_produce_response (produce_response [refusal o])); Ok (mret (Some frame))
    else Ok (
      results ← do_for_each [append_request o] (λ partition, broker_append partition (opt_acks o) 100);
      if opt_acks o =? 0 then mret None
      else frame ← lift (respond h (encode_produce_response (produce_response results))); mret (Some frame)).
Proof.
  intros Hin Hc h body. pose proof (bench_produce_sends o corr Hin) as Hsend. destruct Hin as [Hs Hb].
  destruct (sendable_fits o Hs) as (Hp & _). destruct (bench_requests_wf o Hs) as (_ & Hwf & _).
  assert (in_s 16 (opt_acks o)) as Ha by (destruct Hs as [[Hf _] _]; apply Hf).
  pose proof (handle_produce_frame corr bench_client (bench_produce o (opt_acks o)) w Hc bench_client_ok (Hwf _ Ha)
    (sends_small _ _ _ _ Hsend)) as Hh.
  rewrite (rejected_refused o (opt_acks o) Hp) in Hh. unfold bench_payload, body. rewrite Hh. unfold handle_produce.
  by destruct (refused o).
Qed.

Lemma simulates_produce o corr :
  in_budget o → in_s 32 corr → opt_acks o ≠ 0 →
  simulates (send_request rounds fd 0 9 corr (make_produce_body o (opt_acks o));; frame ← recv_frame rounds fd;
    lift (first_produce_error frame corr)) (ask_produce o).
Proof.
  intros Hin Hc Hacks. rewrite make_produce_body_enc by apply Hin. apply Z.eqb_neq in Hacks.
  apply (simulates_request Produce 9 corr _ (λ frame, first_produce_error frame corr)); [by apply bench_produce_sends|]. intros w out.
  pose proof (handle_bench_produce o corr w Hin Hc) as Hh. cbv zeta in Hh. rewrite Hacks in Hh.
  assert (∀ r, produce_response_wf r → body_fits (enc_produce_response r) →
    first_produce_error (tagged_frame corr (enc_produce_response r)) corr = produce_error_of r) as Hread
    by (intros r Hr Hfit; by rewrite first_produce_error_ok, Z.eqb_refl).
  unfold append_result. destruct (refused o).
  - destruct (reply_cases produce_response_wf enc_produce_response produce_error_of (produce_response [refusal o]) (mkSession w out)
      Produce 9 corr encode_produce_response eq_refl encode_produce_enc) as [?|(Hr & Hfit & Hrep & Hresp & payload & Hf & Hb1 & Hb2)];
      [by left|]. right. rewrite Hresp in Hh. cbn [mbind result_bind] in Hh. eexists. split; [exact Hh|].
    exists payload. split; [done|]. split; [done|]. split; [done|]. unfold mbind, IO_bind, mret, IO_ret. rewrite Hrep. by rewrite Hread.
  - destruct (future_cases produce_response_wf enc_produce_response encode_produce_response produce_error_of
      (broker_append (append_request o) (opt_acks o) 100) (λ r, produce_response [r]) (λ frame, first_produce_error frame corr)
      Produce 9 corr w out eq_refl encode_produce_enc Hread) as [?|Hfut]; [by left|]. right. eexists. split; [exact Hh|].
    revert Hfut. unfold mbind, IO_bind. rewrite do_for_each_one. by destruct (broker_append _ _ _ w) as [[?|?] ?].
Qed.

Lemma simulates_tell o corr :
  in_budget o → in_s 32 corr → opt_acks o = 0 →
  simulates (send_request rounds fd 0 9 corr (make_produce_body o (opt_acks o))) (tell_produce o).
Proof.
  intros Hin Hc Hacks p s (Ht & Ho & Hr). rewrite make_produce_body_enc by apply Hin. pose proof (bench_produce_sends o corr Hin) as Hsend.
  pose proof (answer_eq (bench_payload Produce 9 corr (enc_produce_request (bench_produce o (opt_acks o)))) (host s)) as Ha.
  unfold tell_produce, at_host. cbv zeta. destruct (stops (host s)) eqn:Es; [by left|].
  destruct (arrive (host s)) as [[?|e] w1]; [|by left].
  rewrite handle_bench_produce in Ha by done. rewrite Hacks in *. change (0 =? 0) with true in Ha. cbv iota in Ha.
  assert (∀ w', serve_frame (bench_payload Produce 9 corr (enc_produce_request (bench_produce o 0))) (host s) = (Ok None, w') →
    ∃ p', send_request rounds fd 0 9 corr (Ok (enc_produce_request (bench_produce o 0))) p = (Ok tt, p') ∧
      linked p' (mkSession w' (printed s)) ∧ cerr p' = cerr p) as Hdone.
  { intros w' Ha'. destruct (request_unanswered _ _ _ _ p (host s) w' Hsend Ht Hr Es Ha') as (p' & Hp' & Hs' & Ht').
    exists p'. split; [exact Hp'|]. by eapply same_linked. }
  destruct (refused o); [by apply Hdone|]. unfold mbind, IO_bind in Ha. rewrite do_for_each_one in Ha.
  destruct (broker_append (append_request o) 0 100 w1) as [[?|?] w2]; [|by left]. by apply Hdone.
Qed.

(** The client's view of a fetch answer. *)
Definition reads_fetch {A} (read : bytes → Z → result A) (view : FetchResponse → result A) : Prop :=
  ∀ r corr, fetch_response_wf r → in_s 32 corr → body_fits (enc_fetch_response r) →
    read (tagged_frame corr (enc_fetch_response r)) corr = view r.
Lemma reads_fetch_summary : reads_fetch first_fetch_summary fetch_summary_of.
Proof. intros r corr Hr Hc Hb. by rewrite first_fetch_summary_ok, Z.eqb_refl. Qed.
Lemma reads_fetch_error : reads_fetch first_fetch_error fetch_error_of.
Proof. intros r corr Hr Hc Hb. unfold first_fetch_error. by rewrite reads_fetch_summary. Qed.
Lemma reads_fetch_noted : reads_fetch expect_correlation noted.
Proof. intros r corr Hr Hc Hb. by apply expect_correlation_tagged. Qed.

Lemma simulates_fetch {A} (read : bytes → Z → result A) view o corr offset wait :
  reads_fetch read view → in_budget o → in_s 32 corr → in_s 64 offset → in_s 32 wait →
  simulates (send_request rounds fd 1 12 corr (make_fetch_body o offset wait);; frame ← recv_frame rounds fd; lift (read frame corr))
    (ask_fetch view o offset wait).
Proof.
  intros Hread Hin Hc Hoff Hwait. pose proof Hin as [Hs Hb]. destruct (sendable_fits o Hs) as (_ & Ht & _).
  rewrite make_fetch_body_enc by done. destruct (bench_bodies_fit o Hs) as (_ & _ & _ & _ & Hm & _).
  destruct (bench_requests_wf o Hs) as (_ & _ & Hwf & _).
  pose proof (in_budget_sends o Fetch 12 corr _ Hin eq_refl (Hm offset wait)) as Hsend.
  apply (simulates_request Fetch 12 corr _ (λ frame, read frame corr)); [done|]. intros w out.
  pose proof (handle_fetch_frame corr bench_client (bench_fetch o offset wait) [] w Hc bench_client_ok (Hwf _ _ Hoff Hwait)
    ltac:(done) ltac:(constructor) (sends_small _ _ _ _ Hsend)) as Hh.
  destruct (future_cases fetch_response_wf enc_fetch_response encode_fetch_response view
    (broker_fetch (fetch_request o offset wait)) (λ r, fetch_response [(fetch_request o offset wait, r)]) (λ frame, read frame corr)
    Fetch 12 corr w out eq_refl encode_fetch_enc (λ r Hr, Hread r corr Hr Hc)) as [?|Hfut]; [by left|]. right. eexists. split; [exact Hh|].
  revert Hfut. change (to_broker_fetch_request (bench_fetch o offset wait)) with [fetch_request o offset wait].
  unfold handle_fetch, mbind, IO_bind. rewrite do_for_each_one. by destruct (broker_fetch _ w) as [[?|?] ?].
Qed.

Lemma simulates_offset o corr timestamp :
  in_budget o → in_s 32 corr → in_s 64 timestamp →
  simulates (send_request rounds fd 2 6 corr (make_list_offsets_body o timestamp);; frame ← recv_frame rounds fd;
    lift (first_list_offset frame corr)) (ask_offset o timestamp).
Proof.
  intros Hin Hc Hts. pose proof Hin as [Hs Hb]. destruct (sendable_fits o Hs) as (_ & Ht & _).
  rewrite make_list_offsets_body_enc by done. destruct (bench_bodies_fit o Hs) as (_ & _ & _ & _ & _ & Hm).
  destruct (bench_requests_wf o Hs) as (_ & _ & _ & Hwf).
  pose proof (in_budget_sends o ListOffsets 6 corr _ Hin eq_refl (Hm timestamp)) as Hsend.
  apply (simulates_request ListOffsets 6 corr _ (λ frame, first_list_offset frame corr)); [done|]. intros w out.
  pose proof (handle_list_offsets_frame corr bench_client (bench_list_offsets o timestamp) w Hc bench_client_ok (Hwf _ Hts)
    (sends_small _ _ _ _ Hsend)) as Hh.
  assert (∀ r, list_offsets_response_wf r → body_fits (enc_list_offsets_response r) →
    first_list_offset (tagged_frame corr (enc_list_offsets_response r)) corr = list_offset_of r) as Hread
    by (intros r Hr Hfit; by rewrite first_list_offset_ok, Z.eqb_refl).
  destruct (future_cases list_offsets_response_wf enc_list_offsets_response encode_list_offsets_response list_offset_of
    (broker_list_offsets (offsets_request o timestamp)) (λ r, list_offsets_response [r]) (λ frame, first_list_offset frame corr)
    ListOffsets 6 corr w out eq_refl encode_list_offsets_enc Hread) as [?|Hfut]; [by left|]. right. eexists. split; [exact Hh|].
  revert Hfut. change (to_broker_list_offsets_request (bench_list_offsets o timestamp)) with [offsets_request o timestamp].
  unfold handle_list_offsets, mbind, IO_bind. rewrite do_for_each_one. by destruct (broker_list_offsets _ w) as [[?|?] ?].
Qed.

(** ** The modes *)

(** A request, its answer, and what follows. *)
Lemma simulates_step {A B} (m1 : IO Process unit) (m2 : IO Process bytes) (f : bytes → result A) (k : A → IO Process B) d e :
  simulates (m1;; frame ← m2; lift (f frame)) d → (∀ a, simulates (k a) (e a)) →
  simulates (m1;; frame ← m2; a ← lift (f frame); k a) (d ≫= e).
Proof.
  intros Hm Hk. apply (simulates_ext _ ((m1;; frame ← m2; lift (f frame)) ≫= k)); [|by apply simulates_bind].
  intros p. unfold mbind, IO_bind, lift. destruct (m1 p) as [[?|?] p1]; [|done]. destruct (m2 p1) as [[frame|?] p2]; [|done].
  by destruct (f frame).
Qed.

Lemma simulates_if {A} (b : bool) (m m' : IO Process A) d d' :
  simulates m d → simulates m' d' → simulates (if b then m else m') (if b then d else d').
Proof. by destruct b. Qed.

Lemma simulates_expect (b : bool) message : simulates (if negb b then runtime_error message else mret tt) (expect b message).
Proof. destruct b; [apply simulates_ret|apply simulates_fail]. Qed.

#[local] Arguments lift : simpl never.
#[local] Hint Resolve reads_metadata_error reads_metadata_noted reads_fetch_summary reads_fetch_error reads_fetch_noted : mkmq.
#[local] Hint Resolve simulates_ret simulates_fail simulates_say simulates_expect in_budget_room : mkmq.

(** The tests of the client, one at a time. *)
Ltac branch := apply simulates_if; [solve [eauto with mkmq]|].

Section modes.
Context (o : Options) (Hin : in_budget o).

Lemma wait_range : in_s 32 (opt_fetch_empty_wait_ms o) ∧ in_s 64 (opt_fetch_offset o).
Proof. destruct Hin as [[[Hf _] _] _]. split; apply Hf. Qed.

Lemma simulates_fetch_wait :
  simulates (
    start ← syscall steady_clock_now;
    send_request rounds fd 1 12 7 (make_fetch_body o 1 (opt_fetch_empty_wait_ms o));;
    frame ← recv_frame rounds fd;
    error ← lift (first_fetch_error frame 7);
    stop ← syscall steady_clock_now;
    if negb (error =? 0)
    then runtime_error (str "Fetch empty wait returned Kafka error " ++ to_string error)
    else print [Text (str "fetch_empty_wait_us="); Micros (stop - start); newline])
   (error ← ask_fetch fetch_error_of o 1 (opt_fetch_empty_wait_ms o);
    if negb (error =? 0)
    then wrong (str "Fetch empty wait returned Kafka error " ++ to_string error)
    else say [Text (str "fetch_empty_wait_us="); Micros 0; newline]).
Proof.
  apply simulates_clock. intros start. apply simulates_step; [apply simulates_fetch; [apply reads_fetch_error|done|done|done|apply wait_range]|].
  intros error. apply simulates_clock. intros stop. branch. exact (simulates_say [Text _; Micros (stop - start); newline]).
Qed.

(** The Produce request of the smoke test, which has no answer with acks 0. *)
Lemma simulates_smoke_produce :
  let expected_error := default 0 (opt_expect_produce_error o) in
  simulates (
    send_request rounds fd 0 9 3 (make_produce_body o (opt_acks o));;
    if negb (opt_acks o =? 0) then
      frame ← recv_frame rounds fd;
      error ← lift (first_produce_error frame 3);
      if negb (error =? expected_error) then runtime_error (str "Produce smoke returned Kafka error " ++ to_string error) else mret tt
    else mret tt)
   (if negb (opt_acks o =? 0) then
      error ← ask_produce o;
      if negb (error =? expected_error) then wrong (str "Produce smoke returned Kafka error " ++ to_string error) else mret tt
    else tell_produce o).
Proof.
  intros expected_error. destruct (Z.eqb_spec (opt_acks o) 0) as [Ha|Ha]; cbn [negb].
  - apply (simulates_ext _ (send_request rounds fd 0 9 3 (make_produce_body o (opt_acks o)))); [|by apply simulates_tell]. intros p. unfold mbind, IO_bind, mret, IO_ret.
    by destruct (send_request _ _ _ _ _ _ p) as [[[]|?] ?].
  - apply simulates_step; [by apply simulates_produce|]. intros error. branch. apply simulates_ret.
Qed.

(** Reassociation. *)
Lemma simulates_assoc {A B C} (m1 : IO Process A) (m2 : IO Process B) (m3 : IO Process C) d :
  simulates ((m1;; m2);; m3) d → simulates (m1;; m2;; m3) d.
Proof.
  apply simulates_ext. intros p. unfold mbind, IO_bind. by destruct (m1 p) as [[?|?] p1].
Qed.

Lemma simulates_smoke : simulates (run_smoke rounds fd o) (smoke_session o).
Proof.
  unfold run_smoke, smoke_session. apply simulates_step; [apply simulates_versions; [done|by eapply in_budget_room]|]. intros _.
  apply simulates_step; [by apply simulates_metadata; [apply reads_metadata_error|..]|]. intros metadata_error.
  branch. branch. apply simulates_assoc, simulates_bind; [apply simulates_smoke_produce|]. intros _. branch.
  apply simulates_step; [by apply simulates_fetch; [apply reads_fetch_noted|..]|]. intros _.
  apply simulates_step; [by apply simulates_offset|]. intros [earliest_error earliest]. branch.
  apply simulates_step; [by apply simulates_offset|]. intros [latest_error latest]. branch.
  apply simulates_if; [apply simulates_fetch_wait|apply simulates_ret].
Qed.

Lemma simulates_greet : simulates (greet rounds fd o) (greet_session o).
Proof.
  unfold greet, greet_session. apply simulates_step; [apply simulates_versions; [done|by eapply in_budget_room]|]. intros _.
  by apply simulates_metadata; [apply reads_metadata_noted|..].
Qed.

Lemma simulates_list_offsets : simulates (run_list_offsets_only rounds fd o) (list_offsets_session o).
Proof.
  unfold run_list_offsets_only, list_offsets_session. apply simulates_bind; [apply simulates_greet|]. intros _.
  apply simulates_step; [by apply simulates_offset|]. intros [error offset]. branch. apply simulates_say.
Qed.

Lemma simulates_check_fetch summary : simulates (check_fetch o summary) (expect_fetch o summary).
Proof.
  unfold check_fetch, expect_fetch. apply simulates_bind; [destruct (opt_expect_fetch_error o); apply simulates_expect|]. intros _.
  apply simulates_bind; [|intros _]; (case_match; [|apply simulates_ret]).
  - rewrite Z.ltb_antisym. apply simulates_expect.
  - rewrite Z.gtb_ltb, Z.ltb_antisym. apply simulates_expect.
Qed.

Lemma simulates_fetch_only : simulates (run_fetch_only rounds fd o) (fetch_session o).
Proof.
  unfold run_fetch_only, fetch_session. apply simulates_bind; [apply simulates_greet|]. intros _.
  apply simulates_step; [apply simulates_fetch; [apply reads_fetch_summary|done|done|apply wait_range|done]|]. intros summary.
  apply simulates_bind; [apply simulates_check_fetch|]. intros _. apply simulates_say.
Qed.

(** A round of the benchmark sends its request after reading the clock. *)
Lemma send_frame_request corr body p :
  make_produce_body o (opt_acks o) = Ok body → ∃ frame, wrap_request 0 9 corr body = Ok frame ∧
  send_frame rounds fd frame p = send_request rounds fd 0 9 corr (make_produce_body o (opt_acks o)) p.
Proof.
  intros Hbody. rewrite Hbody. rewrite make_produce_body_enc in Hbody by apply Hin.
  assert (body = enc_produce_request (bench_produce o (opt_acks o))) as -> by congruence.
  pose proof (bench_produce_sends o corr Hin) as (Hv & _ & Hm). unfold kMaxBody in Hm.
  assert (zlen (enc_produce_request (bench_produce o (opt_acks o))) < 2 ^ 31 - 30) as Hlt by lia.
  eexists. pose proof (wrap_request_enc Produce 9 corr _ Hv Hlt) as Hw.
  split; [exact Hw|]. unfold send_request, mbind, IO_bind, lift. change 0 with (api_id Produce) at 1. by rewrite Hw.
Qed.

Lemma checked_i32_ok z p : in_s 32 z → checked_i32 z p = (Ok z, p).
Proof. unfold in_s, checked_i32. change (2 ^ (32 - 1)) with (2 ^ 31). intros Hz. bcase; (done || lia). Qed.

(** The rounds: the dialogue keeps no times. *)
Lemma simulates_bench_loop {A} n corr body micros (k : list Z → IO Process A) e :
  make_produce_body o (opt_acks o) = Ok body → opt_acks o ≠ 0 → 0 <= corr → corr + Z.of_nat n < 2 ^ 31 →
  (∀ times, length times = (length micros + n)%nat → simulates (k times) e) →
  simulates (bench_loop rounds n fd body corr micros ≫= k) (produce_session n o;; e).
Proof.
  intros Hbody Hacks. revert corr micros. induction n as [|n IH]; intros corr micros Hc Hn Hk.
  { by apply (simulates_ext _ (k micros)), (Hk micros). }
  apply (simulates_ext _ (
    start ← syscall steady_clock_now;
    send_request rounds fd 0 9 corr (make_produce_body o (opt_acks o));;
    frame ← recv_frame rounds fd;
    error ← lift (first_produce_error frame corr);
    if negb (error =? 0) then runtime_error (str "Produce benchmark returned Kafka error " ++ to_string error)
    else
      stop ← syscall steady_clock_now;
      bench_loop rounds n fd body (corr + 1) (micros ++ [stop - start]) ≫= k)).
  { intros p. cbn [bench_loop]. destruct (send_frame_request corr body p Hbody) as (frame & Hw & _).
    unfold mbind, IO_bind, lift at 1. rewrite Hw. destruct (syscall steady_clock_now p) as [[start|?] p1]; [|done].
    destruct (send_frame_request corr body p1 Hbody) as (frame' & Hw' & <-). assert (frame' = frame) as -> by congruence.
    destruct (send_frame rounds fd frame p1) as [[[]|?] p2]; [|done]. destruct (recv_frame rounds fd p2) as [[answer'|?] p3]; [|done].
    unfold lift. destruct (first_produce_error answer' corr) as [error|?]; [|done]. destruct (negb _); [done|].
    destruct (syscall steady_clock_now p3) as [[stop|?] p4]; [|done]. rewrite checked_i32_ok by (unfold in_s; lia). done. }
  apply simulates_clock. intros start.
  apply (simulates_extd _ _ (error ← ask_produce o; if negb (error =? 0)
    then wrong (str "Produce benchmark returned Kafka error " ++ to_string error) else produce_session n o;; e)).
  { intros s. cbn [produce_session]. unfold mbind, IO_bind. destruct (ask_produce o s) as [[error|?] s1]; [|done]. by destruct (negb _). }
  apply simulates_step; [apply simulates_produce; [done|unfold in_s; lia|done]|]. intros error. branch.
  apply simulates_clock. intros stop. apply IH; [lia|lia|]. intros times Ht. apply Hk. rewrite Ht, length_app. simpl. lia.
Qed.

(** An index of [pct] is in the vector. *)
Lemma pct_ok micros percent p : micros ≠ [] → ∃ t, pct micros percent p = (Ok t, p).
Proof.
  intros Hne. unfold pct. destruct (lookup_lt_is_Some_2 micros (Z.to_nat (pct_index percent (zlen micros)))) as [t ->]; [|by exists t].
  unfold pct_index, zlen. destruct micros; [done|]. cbn [length]. lia.
Qed.

Lemma simulates_benchmark : opt_messages o < 2 ^ 31 - 1000 → simulates (run_benchmark rounds fd o) (benchmark_session o).
Proof.
  intros Hm. assert (0 < opt_messages o) as Hpos by apply Hin. unfold run_benchmark, benchmark_session.
  destruct (Z.eqb_spec (opt_acks o) 0) as [|Hacks]; [apply simulates_fail|].
  destruct (make_produce_body o (opt_acks o)) as [body|] eqn:Hbody; [|by rewrite make_produce_body_enc in Hbody by apply Hin].
  eapply simulates_ext; [intros p; by apply io_bind_ok|]. cbv beta.
  apply simulates_bench_loop; [done|done|lia|lia|]. intros times Hlen. cbv zeta. set (sorted := merge_sort Z.le times).
  assert (sorted ≠ []) as Hne.
  { intros Hnil. pose proof (Permutation_length (merge_sort_Permutation Z.le times)) as Hp. fold sorted in Hp.
    rewrite Hnil, Hlen in Hp. simpl in Hp. lia. }
  destruct (last sorted) as [longest|] eqn:El; [|by apply last_None in El].
  intros p s Hl. destruct (pct_ok sorted 50 p Hne) as [p50 H50]. destruct (pct_ok sorted 99 p Hne) as [p99 H99].
  rewrite (io_bind_ok _ _ _ _ _ H50), (io_bind_ok _ _ _ _ _ H99).
  exact (simulates_say [Text _; Micros p50; Text _; Micros p99; Text _; Micros longest; newline] p s Hl).
Qed.

Lemma simulates_modes : opt_messages o < 2 ^ 31 - 1000 → simulates (run_modes rounds fd o) (modes_session o).
Proof.
  intros Hm. unfold run_modes, modes_session. apply simulates_bind.
  - repeat apply simulates_if; auto using simulates_smoke, simulates_list_offsets, simulates_fetch_only.
  - intros _. apply simulates_if; [by apply simulates_benchmark|apply simulates_ret].
Qed.
End modes.

(** ** The exit code *)

(** A dialogue goes wrong with an exception that [main] catches. *)
Definition thrown (e : error) : Prop := e = undescribed ∨ ∃ message, e = RuntimeError message.
Definition proper {A} (r : result A) : Prop := ∀ e, r = Err e → thrown e.
Definition orderly {A} (d : Dialogue A) : Prop := ∀ s, proper (d s).1.

Lemma proper_ok {A} (a : A) : proper (Ok a).
Proof. by intros e [=]. Qed.
Lemma proper_runtime {A} message : proper (Err (RuntimeError message) : result A).
Proof. intros e [= <-]. right. eauto. Qed.
Lemma proper_undescribed {A} : proper (Err undescribed : result A).
Proof. intros e [= <-]. by left. Qed.
#[local] Hint Resolve proper_ok proper_runtime proper_undescribed : mkmq.

Ltac proper_go := first [apply proper_ok|apply proper_runtime|apply proper_undescribed].

Lemma orderly_ret {A} (a : A) : orderly (mret a).
Proof. intros s. apply proper_ok. Qed.
Lemma orderly_wrong {A} message : orderly (wrong message : Dialogue A).
Proof. intros s. apply proper_runtime. Qed.
Lemma orderly_say items : orderly (say items).
Proof. intros s. apply proper_ok. Qed.
Lemma orderly_bind {A B} (d : Dialogue A) (e : A → Dialogue B) : orderly d → (∀ a, orderly (e a)) → orderly (d ≫= e).
Proof.
  intros Hd He s. unfold mbind, IO_bind. specialize (Hd s). destruct (d s) as [[a|err] s1]; [apply He|].
  intros err' [= <-]. by apply Hd.
Qed.
Lemma orderly_if {A} (b : bool) (d e : Dialogue A) : orderly d → orderly e → orderly (if b then d else e).
Proof. by destruct b. Qed.
Lemma orderly_reply {R A} (wf : R → Prop) `{∀ r, Decision (wf r)} enc (view : R → result A) r :
  (∀ r, proper (view r)) → orderly (reply wf enc view r).
Proof. intros Hv s. unfold reply. destruct (_ && _); [apply Hv|apply proper_undescribed]. Qed.
Lemma orderly_attend : orderly attend.
Proof. intros s. unfold attend, at_host. destruct (stops (host s)); [|destruct (arrive (host s)) as [[] ?]]; proper_go. Qed.
Lemma orderly_serve {A} (m : IO Broker A) : orderly (serve_request m).
Proof. intros s. unfold serve_request, at_host. destruct (m (host s)) as [[] ?]; proper_go. Qed.
Lemma orderly_host {A} (f : Broker → A) : orderly (at_host (λ w, (Ok (f w), w))).
Proof. intros s. apply proper_ok. Qed.
Lemma orderly_tell o : orderly (tell_produce o).
Proof.
  intros s. unfold tell_produce, at_host. cbv zeta. destruct (stops _); [proper_go|]. destruct (arrive _) as [[] ?]; [|proper_go].
  destruct (refused o); [proper_go|]. destruct (broker_append _ _ _ _) as [[] ?]; proper_go.
Qed.
#[local] Hint Resolve orderly_ret orderly_wrong orderly_say orderly_attend orderly_serve orderly_host orderly_tell : mkmq.

(** The parts of a dialogue. *)
Ltac orderly_go := intros; repeat first
  [ solve [auto with mkmq] | apply (orderly_host broker_config) | apply orderly_reply | apply orderly_bind; [|intros ?] | apply orderly_if | case_match ].

Lemma proper_views :
  (∀ r, proper (metadata_error_of r)) ∧ (∀ r, proper (produce_error_of r)) ∧ (∀ r, proper (fetch_summary_of r)) ∧
  (∀ r, proper (fetch_error_of r)) ∧ (∀ r, proper (list_offset_of r)) ∧ ∀ R (r : R), proper (noted r).
Proof.
  split_and!; intros; unfold metadata_error_of, produce_error_of, fetch_error_of, fetch_summary_of, list_offset_of, noted;
    repeat case_match; proper_go.
Qed.

Lemma orderly_modes o : orderly (modes_session o).
Proof.
  destruct proper_views as (Hm & Hp & Hf & He & Hl & Hn).
  assert (∀ A (view : MetadataResponse → result A), (∀ r, proper (view r)) → orderly (ask_metadata view o)) by (unfold ask_metadata; orderly_go).
  assert (orderly (ask_produce o)) by (unfold ask_produce, append_result; orderly_go).
  assert (∀ A (view : FetchResponse → result A) a b, (∀ r, proper (view r)) → orderly (ask_fetch view o a b)) by (unfold ask_fetch; orderly_go).
  assert (∀ t, orderly (ask_offset o t)) by (unfold ask_offset; orderly_go).
  assert (orderly (greet_session o)) by (unfold greet_session, ask_versions; orderly_go).
  assert (∀ n, orderly (produce_session n o)) by (intros n; induction n; cbn [produce_session]; orderly_go).
  unfold modes_session, smoke_session, list_offsets_session, fetch_session, benchmark_session, ask_versions, expect_fetch, expect.
  cbv zeta. orderly_go.
Qed.

(** The process once it is connected: the socket is closed in any case. *)
Definition report (message : cstring) : cstring := str "mkmq_kafka_bench: " ++ message ++ str "
".
Lemma main_ends argv o p p0 :
  parse_options argv = Ok (Parsed o) → Socket (opt_host o) (opt_port o) p = (Ok fd, p0) →
  match run_modes rounds fd o p0 with
  | (Ok _, p1) => main rounds argv p = (Ok 0, close_socket fd p1)
  | (Err (RuntimeError message), p1) => ∃ p', main rounds argv p = (Ok 1, p') ∧ sys p' = sys (close_socket fd p1) ∧
      cout p' = cout p1 ∧ cerr p' = cerr p1 ++ report message
  | (Err _, _) => True
  end.
Proof.
  intros Ho Hs. unfold main, catch. rewrite (io_bind_ok _ _ _ (Parsed o) p) by (unfold lift; by rewrite Ho).
  rewrite (io_bind_ok _ _ _ _ _ Hs). unfold mbind, IO_bind, finally.
  destruct (run_modes rounds fd o p0) as [[[]|[]] p1]; [done|done..| |done].
  eexists. split; [reflexivity|]. unfold close_socket. by destruct (0 <=? fd).
Qed.

(** C17: the client and a broker.  Whatever the broker behind the socket is
    and however the stream is cut and interrupted, the client's run is the
    dialogue of its options: the same requests reach the broker one after the
    other and leave it in the dialogue's state, the same lines are printed (up
    to the measured times), and the client exits with 0 when the dialogue ends
    well; when a check fails, an answer is missing or the broker closes the
    connection it exits with 1 and reports why.  (The dialogue does not
    describe a broker that is shutting down, one that throws on a request
    that has no answer, and answers larger than the budget.) *)
Theorem bench_client_refines argv o p p0 s :
  parse_options argv = Ok (Parsed o) → Socket (opt_host o) (opt_port o) p = (Ok fd, p0) →
  in_budget o → opt_messages o < 2 ^ 31 - 1000 → linked p0 s →
  match modes_session o s with
  | (Ok _, s') => ∃ p', main rounds argv p = (Ok 0, close_socket fd p') ∧ linked p' s' ∧ cerr p' = cerr p0
  | (Err e, s') => e = undescribed ∨ ∃ message p', e = RuntimeError message ∧ main rounds argv p = (Ok 1, p') ∧
      map untimed (cout p') = printed s' ∧ cerr p' = cerr p0 ++ report message
  end.
Proof.
  intros Ho Hs Hin Hm Hl. pose proof (main_ends argv o p p0 Ho Hs) as Hmain. pose proof (orderly_modes o s) as Hord.
  pose proof (simulates_modes o Hin Hm p0 s Hl) as Hsim. destruct (modes_session o s) as [[[]|e] s'].
  - destruct Hsim as (p' & Hrun & Hl' & He). rewrite Hrun in Hmain. by exists p'.
  - destruct (Hord e eq_refl) as [->|(message & ->)]; [by left|]. destruct Hsim as [?|(p' & Hrun & Hout & He)]; [by left|]. right.
    rewrite Hrun in Hmain. destruct Hmain as (p'' & Hrun' & _ & Hc & He'). exists message, p''.
    split_and!; [done|done|by rewrite Hc|by rewrite He', He].
Qed.
End session.

(** ** A broker in memory *)

(** A broker whose partition ends at offset 8, and that stores nothing. *)
#[local] Instance small_broker : BrokerApi := {|
  Broker := BrokerConfig;
  broker_config c := c;
  broker_append p _ _ := mret (mkProducePartitionResult (ppq_topic p) (ppq_partition p) 0 7 8 0);
  broker_fetch _ := mret (mkFetchPartitionResult 0 8 8 0 (str "records"));
  broker_list_offsets p := mret (mkListOffsetPartitionResult (lpq_topic p) (lpq_partition p) 0 0 8
    (if lpq_timestamp p =? -2 then 0 else 8));
|}.
Definition small_reply (x : bytes) : bytes * bool * Broker := reply_all (serve_frame (mret tt) (mret tt)) (λ _, false) sample_config x.
Definition small_answer (x : bytes) : bytes := (small_reply x).1.1.
Definition small_hangup (x : bytes) : bool := (small_reply x).1.2.
(** Two calls are interrupted, and two move two bytes and one byte. *)
Definition small_process : @Process (memory_posix small_answer) :=
  @mkProcess (memory_posix small_answer) (mkMemorySocket [] [] [None; Some 1%nat; Some 0%nat; None] 0) [] [].
Definition small_args : list cstring := [str "--smoke"; str "--payload-size"; str "3"; str "--fetch-empty-wait-ms"; str "5"].
Definition small_options : Options :=
  set_fetch_empty_wait_ms 5 (set_payload_size 3 (set_smoke true (set_messages 1 default_options))).

Definition small_printed : list item := [Text (str "fetch_empty_wait_us="); Micros 0; newline].
Lemma small_session :
  modes_session (mret tt) (mret tt) (λ _, false) 400 small_options (mkSession sample_config []) = (Ok tt, mkSession sample_config small_printed).
Proof. vm_compute. reflexivity. Qed.
Lemma small_budget : in_budget 400 small_options.
Proof. split; [split; [repeat split; vm_compute; congruence|]|]; vm_compute; congruence. Qed.

Lemma bench_client_refines_witness :
  ∃ p', @main _ (memory_posix small_answer) 500 small_args small_process = (Ok 0, p') ∧
    map untimed (@cout (memory_posix small_answer) p') = small_printed.
Proof.
  pose proof (bench_client_refines (Connected0 := memory_connected small_answer small_hangup 3) (mret tt) (mret tt) (λ _, false)
    400 3 500 small_args small_options small_process small_process (mkSession sample_config [])) as Hmain.
  rewrite small_session in Hmain. destruct Hmain as (p' & Hrun & (_ & Hout & _) & _).
  - vm_compute. reflexivity.
  - reflexivity.
  - apply small_budget.
  - vm_compute. reflexivity.
  - split; [by intros x|]. split; [reflexivity|]. vm_compute. reflexivity.
  - exists (close_socket 3 p'). split; [exact Hrun|exact Hout].
Defined.
