(* ===== verification/BenchCluster.v ===== *)
(** * The smoke test against a cluster

    The whole system together: the benchmark client on a socket, the broker
    behind it a cluster (Replication.v) in which no deadline passes, and the
    client's smoke test.  It passes, and leaves the record it sent on the
    disks of the leader and of every in-sync follower. *)

From Stdlib Require Import ZArith Lia.
From stdpp Require Import base tactics numbers option sorting sets gmap functions list.
From S2P Require Import Prelude Wire Protocol Codec Crc32c RecordBatch Config Detail Storage PartitionLog KafkaProtocol PartitionTable BrokerShard.
From S2P Require Import LogLayout LogRep LogAppend LogRead LogRecovery LogDurable BrokerRep BrokerRouting Replication.
From S2P Require Import BenchOptions BenchClient BenchRequests BenchTransport BenchSession.

Local Open Scope Z_scope.

Section smoke.
Context `{Crc32Laws} {St : Storage} {Laws : StorageLaws}.
#[local] Hint Extern 0 Reactor => exact (leader_reactor false) : typeclass_instances.
Context (me : nat) (o : Options) (budget : Z).
#[local] Instance client_shard : BrokerApi := shard_api me.

(** The connection handler of shard [me] as the peer of the client. *)
Definition shard_arrive : IO Broker unit := count me kafka_requests_.
Definition shard_error : IO Broker unit := count me kafka_errors_.
Definition shard_frame : bytes → IO Broker (option bytes) := serve_frame shard_arrive shard_error.

(** The node serves the partition of the options: the shard [owner] leads it
    with the log [l], which holds [L]. *)
Definition hosts (w : Node Net) (owner : nat) (l : PartitionLogShard) (L : list bytes) : Prop :=
  replicates w me (opt_topic o) (opt_partition o) owner l L ∧
  pc_topic (config_ l) = opt_topic o ∧ pc_partition (config_ l) = opt_partition o ∧
  (∃ b, shards w !! owner = Some b ∧ pc_leader (config_ l) = bc_node_id (bs_config_ b)) ∧
  shard_stops me w = false ∧ in_u 32 (pc_max_frame_bytes (config_ l)) ∧ latest (offsets_ l) < 2 ^ 63.

Lemma hosts_step w w' owner l l' L L' :
  hosts w owner l L → alike w w' → config_ l' = config_ l →
  log_at w' owner (mkTopicPartition (opt_topic o) (opt_partition o)) l' → log_holds l' (disk w') L' →
  latest (offsets_ l') < 2 ^ 63 → hosts w' owner l' L'.
Proof.
  intros (Hr & Ht & Hp & (b & Hb & Hl) & Hs & Hm & _) Hal Hc Hlog Hh Hlat. unfold hosts. rewrite Hc. split_and!; try done.
  - by eapply replicates_step.
  - destruct (alike_shard _ _ _ _ Hal Hb) as (b' & Hb' & (Hcfg & _)). exists b'. by rewrite Hcfg.
  - unfold shard_stops in *. destruct (shards w !! me) as [b0|] eqn:Hb0; [|done].
    destruct (alike_shard _ _ _ _ Hal Hb0) as (b1 & -> & (_ & _ & Hst & _)). by rewrite Hst.
Qed.

Lemma hosts_quiet w w' owner l L : hosts w owner l L → quiet w w' → hosts w' owner l L.
Proof.
  intros Hh Hq. pose proof Hh as ((_ & _ & _ & Hlog & Hl & _) & _ & _ & _ & _ & _ & Hlat).
  eapply hosts_step; [done|by apply quiet_alike|done|by eapply quiet_log_at| |done]. destruct Hq as (Hd & _). by rewrite Hd.
Qed.

Lemma hosts_shard w owner l L : hosts w owner l L → ∃ b, shards w !! me = Some b ∧ stopping_ b = false.
Proof. intros (_ & _ & _ & _ & Hs & _). unfold shard_stops in Hs. destruct (shards w !! me) as [b|]; [by exists b|done]. Qed.

(** Routing ends at the owner. *)
Lemma hosts_destination w owner l L : hosts w owner l L →
  destination w me (opt_topic o) (opt_partition o) owner = owner ∧ served w owner (opt_topic o) (opt_partition o) = true.
Proof.
  intros ((_ & Hkm & Hko & Hlog & _) & _). unfold destination. rewrite Hkm. split; [done|]. by eapply log_at_served.
Qed.

Lemma attend_ok w owner l L out :
  hosts w owner l L → ∃ w', attend shard_arrive (shard_stops me) (mkSession w out) = (Ok tt, mkSession w' out) ∧ quiet w w'.
Proof.
  intros Hh. destruct (hosts_shard _ _ _ _ Hh) as (b & Hb & _). pose proof Hh as (_ & _ & _ & _ & Hs & _).
  destruct (count_quiet me kafka_requests_ w b Hb) as (w' & Hc & Hq & _). exists w'. split; [|done].
  unfold attend, at_host. cbn [host printed]. rewrite Hs. unfold shard_arrive. by rewrite Hc.
Qed.

Context (Hin : in_budget budget o) (Hmax : budget <= kMaxResponseBytes).

Lemma reply_fits {R A} (wf : R → Prop) `{∀ r, Decision (wf r)} enc (view : R → result A) r (s : Session Broker) :
  wf r → 9 + zlen (enc r) <= budget → reply budget wf enc view r s = (view r, s).
Proof.
  intros Hwf Hz. unfold reply. rewrite bool_decide_true by done. destruct (Z.leb_spec (9 + zlen (enc r)) budget); [|lia].
  by destruct (Z.leb_spec (5 + zlen (enc r)) kMaxResponseBytes); [|lia].
Qed.

Lemma topic_facts : fits32 (opt_topic o) ∧ in_s 32 (opt_partition o) ∧ 254 + zlen (opt_topic o) <= budget.
Proof.
  destruct Hin as [Hs Hb]. destruct (sendable_fits o Hs) as ([Hp _] & Ht & _ & _ & Hi). split_and!; [done|done|].
  unfold request_room in Hb. pose proof (zlen_nonneg (default [] (opt_transactional_id o))). lia.
Qed.

(** ** The answers *)

(** A response with one partition is well formed. *)
Ltac one_partition := repeat match goal with
  | |- _ ∧ _ => split
  | |- Forall _ [] => constructor
  | |- Forall _ [_] => constructor
  | |- in_s _ _ => first [assumption | done | unfold in_s in *; simpl in *; lia]
  | |- fits32 _ => first [assumption | done]
  | |- opt_fits (Some _) => intros ? [= <-]
  | |- opt_fits None => apply opt_fits_none
  | |- aborted_wf None => by intros ? [=]
  end.

(** The answers for the one partition are well formed and small. *)
Lemma produce_reply r :
  ppr_topic r = opt_topic o → ppr_partition r = opt_partition o → in_s 16 (ppr_error_code r) →
  in_s 64 (ppr_base_offset r) → in_s 64 (ppr_log_start_offset r) →
  produce_response_wf (produce_response [r]) ∧ 9 + zlen (enc_produce_response (produce_response [r])) <= budget ∧
  produce_error_of (produce_response [r]) = Ok (ppr_error_code r).
Proof.
  intros Ht Hp He Hb Hs. destruct topic_facts as (Hf & Hi & Hz). unfold produce_response, group_by.
  cbn [fold_left group_insert map fst snd]. rewrite Ht, Hp. split; [|split; [|done]].
  - unfold produce_response_wf. cbn [pr_topics pr_throttle_time_ms]. one_partition. unfold produce_topic_wf.
    cbn [prt_name prt_partitions]. one_partition. unfold produce_partition_wf.
    cbn [prp_partition_index prp_error_code prp_base_offset prp_log_append_time_ms prp_log_start_offset prp_record_errors prp_error_message].
    one_partition.
  - unfold enc_produce_response, enc_vector. cbn [pr_topics pr_throttle_time_ms map concat]. unfold enc_produce_topic, enc_vector.
    cbn [prt_name prt_partitions map concat]. unfold enc_produce_partition, enc_vector. cbn [prp_record_errors prp_error_message map concat].
    enc_size. change (zlen [_]) with 1. change (default [] None) with (@nil byte) in *. rewrite zlen_nil in *. lia.
Qed.

Lemma fetch_reply offset wait r :
  in_s 16 (fpr_error_code r) → in_s 64 (fpr_high_watermark r) → in_s 64 (fpr_log_start_offset r) →
  100 + zlen (opt_topic o) + zlen (fpr_records r) <= budget →
  let response := fetch_response [(fetch_request o offset wait, r)] in
  fetch_response_wf response ∧ 9 + zlen (enc_fetch_response response) <= budget ∧
  fetch_summary_of response = Ok (mkFetchSummary (fpr_error_code r) (fpr_high_watermark r) (fpr_records r)).
Proof.
  intros He Hw Hs Hr response. destruct topic_facts as (Hf & Hi & Hz). pose proof (zlen_nonneg (opt_topic o)).
  assert (fits32 (fpr_records r)) as Hfit by (unfold fits32, kMaxResponseBytes in *; lia).
  unfold response, fetch_response, group_by. cbn [fold_left group_insert map fst snd fetch_request fpq_topic fpq_partition].
  split; [|split; [|done]].
  - unfold fetch_response_wf. cbn [fr_topics fr_throttle_time_ms fr_error_code fr_session_id]. one_partition. unfold fetch_topic_wf.
    cbn [frt_topic frt_partitions]. one_partition. unfold fetch_partition_wf.
    cbn [frp_partition_index frp_error_code frp_high_watermark frp_last_stable_offset frp_log_start_offset frp_aborted_transactions
      frp_preferred_read_replica frp_records]. one_partition.
  - unfold enc_fetch_response, enc_vector. cbn [fr_topics map concat]. unfold enc_fetch_topic, enc_vector.
    cbn [frt_topic frt_partitions map concat]. unfold enc_fetch_partition. cbn [frp_aborted_transactions frp_records].
    change (enc_aborted_list None) with [Byte.x00].
    enc_size. change (zlen [_]) with 1. cbn [default] in *. unfold from_option, id in *. lia.
Qed.

Lemma offsets_reply r :
  lopr_topic r = opt_topic o → lopr_partition r = opt_partition o → in_s 16 (lopr_error_code r) → in_s 64 (lopr_selected r) →
  let response := list_offsets_response [r] in
  list_offsets_response_wf response ∧ 9 + zlen (enc_list_offsets_response response) <= budget ∧
  list_offset_of response = Ok (lopr_error_code r, lopr_selected r).
Proof.
  intros Ht Hp He Hs response. destruct topic_facts as (Hf & Hi & Hz).
  unfold response, list_offsets_response, group_by. cbn [fold_left group_insert map fst snd]. rewrite Ht, Hp. split; [|split; [|done]].
  - unfold list_offsets_response_wf. cbn [lr_topics lr_throttle_time_ms]. one_partition. unfold list_offsets_topic_wf.
    cbn [lrt_name lrt_partitions]. one_partition. unfold list_offsets_partition_wf.
    cbn [lrp_partition_index lrp_error_code lrp_timestamp lrp_offset lrp_leader_epoch]. one_partition.
  - unfold enc_list_offsets_response, enc_vector. cbn [lr_topics map concat]. unfold enc_list_offsets_topic, enc_vector.
    cbn [lrt_name lrt_partitions map concat]. unfold enc_list_offsets_partition. enc_size. change (zlen [_]) with 1. lia.
Qed.

(** ** The requests on the cluster *)

Lemma ask_offset_ok w owner l L out timestamp :
  hosts w owner l L →
  ∃ w', ask_offset shard_arrive shard_error (shard_stops me) budget o timestamp (mkSession w out)
      = (Ok (0, if timestamp =? -2 then 0 else latest (offsets_ l)), mkSession w' out) ∧ quiet w w'.
Proof.
  intros Hh. destruct (attend_ok w owner l L out Hh) as (w1 & Hat & Hq1). pose proof (hosts_quiet _ _ _ _ _ Hh Hq1) as Hh1.
  destruct (hosts_shard _ _ _ _ Hh1) as (b & Hb & _). destruct (hosts_destination _ _ _ _ Hh1) as [Hd Hserved].
  pose proof Hh1 as ((Ha & _ & _ & Hlog & Hl & _) & Ht & Hp & _ & _ & _ & Hlat).
  destruct (list_offsets_routed 0 me owner w1 b (offsets_request o timestamp) Hb Ha) as (w2 & Hq2 & Hrun).
  cbn [offsets_request lpq_topic lpq_partition lpq_timestamp] in Hrun. rewrite Hd, Hserved in Hrun.
  rewrite (on_log_asks owner _ (λ log, list_offsets log timestamp) w2 l) in Hrun by (by eapply quiet_log_at).
  assert (earliest (offsets_ l) = 0 ∧ 0 <= latest (offsets_ l)) as [He Hlo]
    by (pose proof Hl as (_ & ? & _ & ? & _); split; [done|lia]).
  exists w2. split; [|by transitivity w1]. unfold ask_offset. rewrite (io_bind_ok _ _ _ tt _ Hat).
  rewrite (io_bind_ok _ _ _ (list_offsets l timestamp) (mkSession w2 out)).
  2:{ unfold serve_request, at_host. cbn [host printed].
      change (broker_list_offsets (offsets_request o timestamp) w1) with (BrokerShard_list_offsets 2 me (offsets_request o timestamp) w1).
      by rewrite Hrun. }
  destruct (offsets_reply (list_offsets l timestamp)) as (Hwf & Hz & Hv); [done|done|done| |].
  { cbn. rewrite He. unfold in_s. simpl. destruct (timestamp =? -2); lia. }
  rewrite (reply_fits list_offsets_response_wf enc_list_offsets_response) by done. rewrite Hv. cbn. by rewrite He.
Qed.

(** The client's record can be appended and replicated. *)
Definition can_produce (w : Node Net) (owner : nat) (l : PartitionLogShard) (L : list bytes) (records : bytes)
    (addresses : list cstring) : Prop :=
  ∃ b, produces false w me owner b l L (append_request o) records (-1) ∧ followed false w b l L records addresses.

Lemma can_produce_quiet w w' owner l L records addresses :
  quiet w w' → can_produce w owner l L records addresses → can_produce w' owner l L records addresses.
Proof.
  intros Hq (b & Hp & Hfol). by eapply produces_quiet.
Qed.

(** The partition after a produce: it holds one record set more, everywhere. *)
Definition produced (w : Node Net) (owner : nat) (l l' : PartitionLogShard) (L : list bytes) (records : bytes)
    (addresses : list cstring) : Prop :=
  hosts w owner l' (L ++ [records]) ∧ latest (offsets_ l') = latest (offsets_ l) + cnt records ∧
  high_watermark (offsets_ l') = latest (offsets_ l') ∧
  Forall (has_taken (net w) (replica_request l records) L) addresses.

Lemma ask_produce_ok w owner l L records addresses out :
  refused o = false → opt_acks o = -1 → hosts w owner l L → can_produce w owner l L records addresses →
  ∃ w' l', ask_produce shard_arrive shard_error (shard_stops me) budget o (mkSession w out) = (Ok 0, mkSession w' out) ∧
    produced w' owner l l' L records addresses.
Proof.
  intros Href Hacks Hh Hcan. destruct (attend_ok w owner l L out Hh) as (w1 & Hat & Hq1). pose proof (hosts_quiet _ _ _ _ _ Hh Hq1) as Hh1.
  destruct (can_produce_quiet _ _ _ _ _ _ _ Hq1 Hcan) as (b & Hp & Hfol).
  destruct (produce_stored false w1 me owner b l L (append_request o) records 100 addresses Hp Hfol)
    as (w2 & l' & Hrun & Hal & (Hlog & Hl & Hlat & Hc) & Hhw & _ & Htaken).
  pose proof Hh1 as ((_ & _ & _ & _ & Hold & _) & Ht & Hpart & _). rewrite Ht, Hpart in Hlog.
  pose proof Hp as (_ & _ & _ & _ & _ & _ & _ & _ & _ & _ & (_ & _ & (Hrs & _ & Hbound & _) & _)).
  pose proof (latest_nonneg _ _ _ Hold). pose proof (cnt_pos records Hrs). exists w2, l'. split.
  - unfold ask_produce. rewrite (io_bind_ok _ _ _ tt _ Hat).
    rewrite (io_bind_ok _ _ _ (planned l records) (mkSession w2 out)).
    2:{ unfold append_result. rewrite Href, Hacks. unfold serve_request, at_host. cbn [host printed].
        change (broker_append (append_request o) (-1) 100 w1) with (BrokerShard_append kHops me (append_request o) (-1) 100 w1).
        by rewrite Hrun. }
    destruct (produce_reply (planned l records)) as (Hwf & Hz & Hv); [done|done|done|unfold in_s; cbn; lia|done|].
    rewrite (reply_fits produce_response_wf enc_produce_response) by done. by rewrite Hv.
  - split_and!; try done. eapply hosts_step; try done. by rewrite Hlat.
Qed.

(** Sizes of what a fetch of a megabyte returns. *)
Definition answers_fit (L : list bytes) : Prop :=
  100 + zlen (opt_topic o) + 1024 * 1024 <= budget ∧ Forall (λ b, 100 + zlen (opt_topic o) + zlen b <= budget) L.

Lemma selects_fit l L M offset visible :
  answers_fit L → selects L M offset visible (fetch_limit l (1024 * 1024)) → 100 + zlen (opt_topic o) + zlen (concat M) <= budget.
Proof.
  intros [Hmb Hall] (L1 & L2 & -> & _ & _ & _ & [Hsz|Hsz] & _); [change (fetch_limit l (1024 * 1024)) with (1024 * 1024) in Hsz; lia|].
  destruct M as [|b [|? ?]]; [cbn [concat]; rewrite zlen_nil; lia| |simpl in Hsz; lia].
  apply Forall_app in Hall as [_ Hall]. apply Forall_cons in Hall as [Hb _]. cbn [concat]. by rewrite app_nil_r.
Qed.

(** One read of the log through the shard that owns it. *)
Lemma fetch_log w owner l L offset :
  hosts w owner l L → 0 <= offset <= log_end L →
  ∃ M w' l', on_log owner (mkTopicPartition (opt_topic o) (opt_partition o)) (fetch offset (1024 * 1024)) w
      = (Ok (mkFetchPartitionResult 0 (visible_end_of l) 0 (log_end L) (concat M)), w') ∧
    hosts w' owner l' L ∧ offsets_ l' = offsets_ l ∧ config_ l' = config_ l ∧ net w' = net w ∧
    selects L M offset (visible_end_of l) (fetch_limit l (1024 * 1024)).
Proof.
  intros Hh Ho. pose proof Hh as ((_ & _ & _ & Hlog & Hl & _) & _ & _ & _ & _ & Hm & Hlat).
  destruct (fetch_in_range l (disk w) L offset (1024 * 1024) Hl Hm ltac:(done) Ho) as (M & c & d' & Hf & Hl' & Hsel).
  destruct (on_log_ok owner _ _ w l _ _ d' Hlog Hf) as (w' & Hon & Hk & Hd & Hn & Hlog').
  exists M, w', (set_segment_cache_ c l). split_and!; try done.
  eapply hosts_step; [done|by eapply kept_alike|done|done|by rewrite Hd|done].
Qed.

Lemma fetch_local_ok w owner l L offset wait :
  hosts w owner l L → 0 <= offset <= log_end L →
  ∃ M w' l', fetch_local owner (fetch_request o offset wait) (mkTopicPartition (opt_topic o) (opt_partition o)) w
      = (Ok (mkFetchPartitionResult 0 (visible_end_of l) 0 (log_end L) (concat M)), w') ∧
    hosts w' owner l' L ∧ offsets_ l' = offsets_ l ∧ net w' = net w ∧
    selects L M offset (visible_end_of l) (fetch_limit l (1024 * 1024)).
Proof.
  intros Hh Ho. pose proof Hh as ((_ & _ & _ & Hlog & _ & b & Hb & Hrep) & _ & _ & (b' & Hb' & Hlead) & _).
  assert (b' = b) as -> by congruence. unfold fetch_local. rewrite (io_bind_ok _ _ _ (config_ l) w) by (by apply on_log_asks).
  rewrite (io_bind_ok _ _ _ (bs_config_ b) w) by (by apply ask_ok). rewrite Hrep, Hlead, Z.eqb_refl. cbn [negb andb orb].
  destruct (fetch_log w owner l L offset Hh Ho) as (M & w1 & l1 & Hf1 & Hh1 & Ho1 & Hc1 & Hn1 & Hsel).
  rewrite (io_bind_ok _ _ _ _ _ Hf1). pose proof Hh1 as ((_ & _ & _ & _ & _ & b1 & Hb1 & _) & _).
  rewrite (io_bind_ok _ _ _ (bs_config_ b1) w1) by (by apply ask_ok). cbv zeta.
  destruct (_ || _ || _ || _ || _); [by exists M, w1, l1|].
  rewrite (io_bind_ok _ _ _ tt w1) by done.
  destruct (fetch_log w1 owner l1 L offset Hh1 Ho) as (M2 & w2 & l2 & Hf2 & Hh2 & Ho2 & Hc2 & Hn2 & Hsel2).
  assert (visible_end_of l1 = visible_end_of l) as Hv by (unfold visible_end_of; by rewrite Ho1, Hc1).
  rewrite Hv in *. exists M2, w2, l2. split_and!; [done|done|congruence|congruence|done].
Qed.

Lemma ask_fetch_ok {A} (view : FetchResponse → result A) w owner l L out offset wait :
  hosts w owner l L → answers_fit L → 0 <= offset <= log_end L →
  ∃ r w' l', ask_fetch shard_arrive shard_error (shard_stops me) budget view o offset wait (mkSession w out)
      = (view (fetch_response [(fetch_request o offset wait, r)]), mkSession w' out) ∧
    hosts w' owner l' L ∧ offsets_ l' = offsets_ l ∧ net w' = net w ∧ fpr_error_code r = 0.
Proof.
  intros Hh Hfit Ho. destruct (attend_ok w owner l L out Hh) as (w1 & Hat & Hq1). pose proof (hosts_quiet _ _ _ _ _ Hh Hq1) as Hh1.
  destruct (hosts_shard _ _ _ _ Hh1) as (b & Hb & _). destruct (hosts_destination _ _ _ _ Hh1) as [Hd Hserved].
  destruct (fetch_routed 0 me owner w1 b (fetch_request o offset wait) Hb (proj1 (proj1 Hh1))) as (w2 & Hq2 & Hrun).
  cbn [fetch_request fpq_topic fpq_partition] in Hrun. rewrite Hd, Hserved in Hrun. pose proof (hosts_quiet _ _ _ _ _ Hh1 Hq2) as Hh2.
  destruct (fetch_local_ok w2 owner l L offset wait Hh2 Ho) as (M & w3 & l3 & Hloc & Hh3 & Ho3 & Hn3 & Hsel).
  set (r := mkFetchPartitionResult 0 (visible_end_of l) 0 (log_end L) (concat M)) in *. exists r, w3, l3.
  destruct Hq1 as (_ & Hn1 & _), Hq2 as (_ & Hn2 & _). split_and!; try done; [|congruence].
  unfold ask_fetch. rewrite (io_bind_ok _ _ _ tt _ Hat). rewrite (io_bind_ok _ _ _ r (mkSession w3 out)).
  2:{ unfold serve_request, at_host. cbn [host printed].
      change (broker_fetch (fetch_request o offset wait) w1) with (BrokerShard_fetch 2 me (fetch_request o offset wait) w1).
      rewrite Hrun. change (mkFetchPartitionRequest _ _ _ _ _ _) with (fetch_request o offset wait). by rewrite Hloc. }
  destruct (fetch_reply offset wait r) as (Hwf & Hz & _); [done| |done|by eapply selects_fit|].
  { pose proof Hh as ((_ & _ & _ & _ & (_ & _ & _ & Hw & _) & _) & _ & _ & _ & _ & _ & Hlat). cbn. unfold in_s, visible_end_of. simpl.
    destruct (pc_fetch_visibility _); lia. }
  by rewrite (reply_fits fetch_response_wf enc_fetch_response).
Qed.

(** A topic with an owner is in the metadata. *)
Lemma known_topic topics :
  is_Some (owner_shard_in topics (opt_topic o) (opt_partition o)) →
  ∃ t, requested_topics topics (bench_metadata o) = [t] ∧ tc_partitions t ≠ [].
Proof.
  unfold requested_topics. cbn [bench_metadata mdq_all_topics mdq_topics map mdqt_name].
  induction topics as [|t topics IH]; [by intros []|]. cbn [owner_shard_in list_find]. unfold cstring_eqb.
  destruct (decide (tc_name t = opt_topic o)) as [Et|Et].
  - rewrite bool_decide_true by done. cbn [negb]. intros Hs. exists t. split; [done|]. intros Hp. rewrite Hp in Hs. by destruct Hs.
  - rewrite bool_decide_false by done. cbn [negb]. intros Hs. destruct (IH Hs) as (t' & Ht' & Hne). exists t'. split; [|done].
    revert Ht'. by destruct (list_find _ topics) as [[]|].
Qed.

Lemma broker_config_at (w : Node Net) b : shards w !! me = Some b → broker_config w = bs_config_ b.
Proof. intros Hb. unfold broker_config, client_shard, shard_api. by rewrite Hb. Qed.

(** The Metadata answer of the broker fits in the budget. *)
Definition metadata_fits (config : BrokerConfig) : Prop :=
  let response := metadata_response config (bench_metadata o) in
  metadata_response_wf response ∧ 9 + zlen (enc_metadata_response response) <= budget.

Lemma ask_metadata_ok w owner l L out :
  hosts w owner l L → metadata_fits (broker_config w) →
  ∃ w', ask_metadata shard_arrive (shard_stops me) budget metadata_error_of o (mkSession w out) = (Ok 0, mkSession w' out) ∧ quiet w w'.
Proof.
  intros Hh Hfits. destruct (attend_ok w owner l L out Hh) as (w1 & Hat & Hq1). exists w1. split; [|done].
  destruct (hosts_shard _ _ _ _ Hh) as (b & Hb & _). pose proof Hq1 as (_ & _ & _ & Hall). destruct (Hall me b Hb) as (b1 & Hb1 & (Hc & _) & _).
  assert (broker_config w1 = broker_config w) as Hcfg by (by rewrite (broker_config_at w b), (broker_config_at w1 b1)).
  unfold ask_metadata. rewrite (io_bind_ok _ _ _ tt _ Hat). rewrite (io_bind_ok _ _ _ (@broker_config client_shard w) (mkSession w1 out)).
  2:{ unfold at_host. cbn [host printed]. by rewrite Hcfg. }
  destruct Hfits as [Hwf Hz]. rewrite (reply_fits metadata_response_wf enc_metadata_response) by done.
  pose proof Hh as ((_ & Hk & _) & _). unfold knows in Hk. rewrite Hb in Hk. apply bool_decide_eq_true in Hk.
  destruct (known_topic _ Hk) as (t & Ht & Hne). unfold metadata_error_of, metadata_response. cbn [mdr_topics].
  rewrite (broker_config_at w b Hb), Ht. cbn [map mdt_error_code metadata_response_topic].
  by rewrite bool_decide_false.
Qed.

(** ** The smoke test *)

(** [--smoke --acks -1] and nothing else that changes what is expected. *)
Definition smoke_only : Prop :=
  opt_smoke o = true ∧ opt_metadata_only o = false ∧ opt_list_offsets_only o = false ∧ opt_fetch_only o = false ∧
  opt_expect_metadata_error o = None ∧ opt_expect_produce_error o = None ∧ refused o = false ∧ opt_acks o = -1.

Definition smoke_prints : list item :=
  if opt_fetch_empty_wait_ms o >? 0 then [Text (str "fetch_empty_wait_us="); Micros 0; newline] else [].

Lemma produced_step w w' owner l l1 l2 L records addresses :
  produced w owner l l1 L records addresses → hosts w' owner l2 (L ++ [records]) → offsets_ l2 = offsets_ l1 → net w' = net w →
  produced w' owner l l2 L records addresses.
Proof. intros (_ & Hlat & Hhw & Ht) Hh Ho Hn. unfold produced. by rewrite Ho, Hn. Qed.

Lemma produced_quiet w w' owner l l' L records addresses :
  produced w owner l l' L records addresses → quiet w w' → produced w' owner l l' L records addresses.
Proof. intros Hp Hq. eapply produced_step; [done|eapply hosts_quiet; [apply Hp|done]|done|apply Hq]. Qed.

(** The log is not empty any more. *)
Lemma produced_end w owner l l' L records addresses :
  produced w owner l l' L records addresses → rs_ok records → 1 <= log_end (L ++ [records]) ∧ 1 <= latest (offsets_ l').
Proof.
  intros (((_ & _ & _ & _ & Hl & _) & _) & _) Hrs. pose proof Hl as (((( HL & _) & _) & _) & _ & Hn & _).
  rewrite cu_next_log_end0 in Hn. rewrite Hn. apply Forall_app in HL as [HL _]. rewrite log_end_app.
  pose proof (log_end_nonneg L HL). pose proof (cnt_pos records Hrs). cbn [log_end]. lia.
Qed.

(** The empty fetch at offset 1. *)
Lemma empty_fetch_ok w owner l l1 L records addresses out :
  produced w owner l l1 L records addresses → answers_fit (L ++ [records]) → 1 <= log_end (L ++ [records]) →
  ∃ w' l', (if opt_fetch_empty_wait_ms o >? 0 then
      error ← ask_fetch shard_arrive shard_error (shard_stops me) budget fetch_error_of o 1 (opt_fetch_empty_wait_ms o);
      if negb (error =? 0) then wrong (str "Fetch empty wait returned Kafka error " ++ to_string error)
      else say [Text (str "fetch_empty_wait_us="); Micros 0; newline]
    else mret tt) (mkSession w out) = (Ok tt, mkSession w' (out ++ smoke_prints)) ∧
    produced w' owner l l' L records addresses.
Proof.
  intros Hp Hfit Hend. unfold smoke_prints. destruct (opt_fetch_empty_wait_ms o >? 0); [|exists w, l1; by rewrite app_nil_r].
  destruct (ask_fetch_ok fetch_error_of w owner l1 (L ++ [records]) out 1 (opt_fetch_empty_wait_ms o) (proj1 Hp) Hfit ltac:(lia))
    as (r & w1 & l2 & Hrun & Hh & Ho & Hn & Herr).
  exists w1, l2. split; [|by eapply produced_step]. unfold mbind, IO_bind at 1. rewrite Hrun.
  assert (fetch_error_of (fetch_response [(fetch_request o 1 (opt_fetch_empty_wait_ms o), r)]) = Ok 0) as -> by (rewrite <- Herr; done).
  done.
Qed.

Lemma smoke_ok w owner l L records addresses out :
  smoke_only → hosts w owner l L → can_produce w owner l L records addresses → metadata_fits (broker_config w) →
  answers_fit (L ++ [records]) →
  ∃ w' l', smoke_session shard_arrive shard_error (shard_stops me) budget o (mkSession w out)
      = (Ok tt, mkSession w' (out ++ smoke_prints)) ∧ produced w' owner l l' L records addresses.
Proof.
  intros (_ & Hmo & _ & _ & Hem & Hep & Href & Hacks) Hh Hcan Hmeta Hfit. unfold smoke_session. cbv zeta. rewrite Hmo, Hem, Hep.
  assert (opt_acks o =? 0 = false) as -> by (by rewrite Hacks).
  destruct (attend_ok w owner l L out Hh) as (w1 & Hat & Hq1). pose proof (hosts_quiet _ _ _ _ _ Hh Hq1) as Hh1.
  rewrite (io_bind_ok _ _ _ tt (mkSession w1 out)) by (unfold ask_versions; by rewrite (io_bind_ok _ _ _ tt _ Hat)).
  destruct (ask_metadata_ok w1 owner l L out Hh1) as (w2 & Hmd & Hq2).
  { destruct (hosts_shard _ _ _ _ Hh) as (b & Hb & _). pose proof Hq1 as (_ & _ & _ & Hall). destruct (Hall me b Hb) as (b1 & Hb1 & (Hc & _) & _).
    by rewrite (broker_config_at w1 b1 Hb1), Hc, <- (broker_config_at w b Hb). }
  rewrite (io_bind_ok _ _ _ _ _ Hmd). cbv beta iota. change (negb (0 =? default 0 None)) with false. cbv iota.
  pose proof (can_produce_quiet _ _ _ _ _ _ _ Hq2 (can_produce_quiet _ _ _ _ _ _ _ Hq1 Hcan)) as Hcan2.
  destruct (ask_produce_ok w2 owner l L records addresses out Href Hacks (hosts_quiet _ _ _ _ _ Hh1 Hq2) Hcan2) as (w3 & l3 & Hpr & Hp3).
  rewrite (io_bind_ok _ _ _ tt (mkSession w3 out)) by (cbn [negb]; by rewrite (io_bind_ok _ _ _ _ _ Hpr)).
  change (negb (default 0 None =? 0)) with false. cbv beta iota.
  destruct (produced_end _ _ _ _ _ _ _ Hp3) as (Hend & Hlat).
  { destruct Hcan as (b & (_ & _ & _ & _ & _ & _ & _ & _ & _ & _ & (_ & _ & (Hrs & _) & _)) & _). done. }
  destruct (ask_fetch_ok noted w3 owner l3 (L ++ [records]) out 0 0 (proj1 Hp3) Hfit ltac:(lia)) as (r & w4 & l4 & Hf & Hh4 & Ho4 & Hn4 & _).
  rewrite (io_bind_ok _ _ _ tt (mkSession w4 out)) by exact Hf.
  destruct (ask_offset_ok w4 owner l4 (L ++ [records]) out (-2) Hh4) as (w5 & He & Hq5). rewrite (io_bind_ok _ _ _ _ _ He).
  change (-2 =? -2) with true. cbn [negb orb Z.eqb].
  destruct (ask_offset_ok w5 owner l4 (L ++ [records]) out (-1) (hosts_quiet _ _ _ _ _ Hh4 Hq5)) as (w6 & Hl & Hq6).
  rewrite (io_bind_ok _ _ _ _ _ Hl). change (-1 =? -2) with false. cbn [negb orb Z.eqb]. rewrite Ho4. destruct (Z.ltb_spec (latest (offsets_ l3)) 1); [lia|].
  apply (empty_fetch_ok w6 owner l l4); [|done|lia].
  eapply produced_quiet; [eapply produced_quiet; [by eapply produced_step|done]|done].
Qed.

(** The peer of the client is the connection handler of the broker. *)
Lemma shard_frame_handles payload : shard_frame payload = handle_kafka_frame me payload.
Proof. reflexivity. Qed.

Context `{Posix} (fd : Z) `{!Connected fd} (rounds : nat).

(** C5: the system end to end.  The client is started with [--smoke] and
    [--acks -1] and connects to shard [me] of a broker of a cluster in which
    no deadline passes; the broker leads the partition (on any shard), its
    in-sync followers are configured, up and able to take the client's record
    batch, and the answers fit in the frames.  Then, however the stream is
    cut and interrupted, the client exits with 0, and the broker is left with
    the rebased batch of the client after the records the partition had, with
    a high watermark at its end; every in-sync follower holds the same. *)
Theorem smoke_test_passes argv p p0 w owner l L records addresses :
  parse_options argv = Ok (Parsed o) → Socket (opt_host o) (opt_port o) p = (Ok fd, p0) → smoke_only →
  hosts w owner l L → can_produce w owner l L records addresses → metadata_fits (broker_config w) → answers_fit (L ++ [records]) →
  linked shard_arrive shard_error (shard_stops me) budget fd rounds p0 (mkSession w (map untimed (cout p0))) →
  ∃ p' w' l', main rounds argv p = (Ok 0, close_socket fd p') ∧ cerr p' = cerr p0 ∧
    map untimed (cout p') = map untimed (cout p0) ++ smoke_prints ∧
    talks shard_arrive shard_error (shard_stops me) fd p' w' ∧ produced w' owner l l' L records addresses.
Proof.
  intros Ho Hs Hsm Hh Hcan Hmeta Hfit Hl. pose proof Hsm as (Hsmoke & Hmo & Hlo & Hfo & _).
  pose proof (main_ends fd rounds argv o p p0 Ho Hs) as Hmain.
  destruct (smoke_ok w owner l L records addresses (map untimed (cout p0)) Hsm Hh Hcan Hmeta Hfit) as (w' & l' & Hrun & Hp).
  pose proof (simulates_smoke shard_arrive shard_error (shard_stops me) budget fd rounds o Hin p0 _ Hl) as Hsim.
  rewrite Hrun in Hsim. destruct Hsim as (p' & Hrun' & (Ht & Hout & _) & He). exists p', w', l'.
  unfold run_modes in Hmain. rewrite Hmo, Hlo, Hfo, Hsmoke in Hmain. cbn [negb andb] in Hmain.
  rewrite (io_bind_ok _ _ _ tt p' Hrun') in Hmain. split_and!; [exact Hmain|done|exact Hout|exact Ht|exact Hp].
Qed.
End smoke.

(** ** The smoke test on two brokers *)

Definition pair_args : list cstring := [str "--smoke"; str "--payload-size"; str "3"; str "--acks"; str "-1"].
Definition pair_options : Options := set_acks (-1) (set_payload_size 3 (set_smoke true (set_messages 1 default_options))).
Definition pair_budget : Z := 1024 * 1024 + 1000.
Definition pair_reply (x : bytes) : bytes * bool * @Node memory_disk (@Net _ (leader_reactor false)) :=
  reply_all (handle_kafka_frame (Reactor0 := leader_reactor false) 0) (shard_stops (Reactor0 := leader_reactor false) 0) (pair_leader false) x.
Definition pair_answer (x : bytes) : bytes := (pair_reply x).1.1.
Definition pair_hangup (x : bytes) : bool := (pair_reply x).1.2.
Definition pair_process : @Process (memory_posix pair_answer) := @mkProcess (memory_posix pair_answer) (mkMemorySocket [] [] [] 0) [] [].

Lemma pair_in_budget : in_budget pair_budget pair_options.
Proof. split; [split; [repeat split; vm_compute; congruence|]|]; vm_compute; congruence. Qed.

Lemma pair_bench_batch : rewrite_record_batch_offsets (bench_batch pair_options) 0 = Ok (bench_batch pair_options).
Proof. vm_compute. reflexivity. Qed.

Lemma pair_takes_bench : pair_takes (append_request pair_options) (bench_batch pair_options).
Proof.
  split; [done|]. split; [done|]. split; [exact pair_bench_batch|]. split.
  - unfold room_for. destruct pair_holds as (_ & -> & -> & _).
    split_and!; [split; [vm_compute; congruence|vm_compute; reflexivity]|vm_compute; reflexivity..].
  - split; [vm_compute; congruence|]. vm_compute. split_and!; try reflexivity; congruence.
Qed.

Lemma pair_hosts : hosts 0 pair_options (pair_leader false) 0 pair_log [].
Proof.
  destruct (single_shard (Re := leader_reactor false) (pair_leader false) 1 eq_refl) as (Ha & Hk & Hl).
  destruct pair_holds as (Hh & Hc & Ho & Hq). unfold hosts. rewrite Hc, Ho.
  refine (conj (conj Ha (conj Hk (conj Hk (conj Hl (conj Hh _))))) (conj eq_refl (conj eq_refl (conj _ (conj eq_refl (conj _ _)))))).
  - exists (pair_shard 1). split; [reflexivity|]. by rewrite Hc.
  - by exists (pair_shard 1).
  - done.
  - done.
Qed.

Lemma pair_metadata : metadata_fits pair_options pair_budget (pair_config 1).
Proof. split; [apply (bool_decide_eq_true_1 (metadata_response_wf _)); vm_compute; reflexivity|vm_compute; congruence]. Qed.

Lemma smoke_test_passes_witness :
  ∃ p' w' l', @main _ (memory_posix pair_answer) (Z.to_nat 2000000) pair_args pair_process = (Ok 0, p') ∧
    log_holds l' (disk w') [bench_batch pair_options] ∧ high_watermark (offsets_ l') = 1 ∧
    Forall (has_taken (net w') (replica_request pair_log (bench_batch pair_options)) []) [str "m2"].
Proof.
  destruct (smoke_test_passes 0 pair_options pair_budget pair_in_budget ltac:(vm_compute; congruence) 3
    (Connected0 := memory_connected pair_answer pair_hangup 3) (Z.to_nat 2000000) pair_args pair_process pair_process
    (pair_leader false) 0 pair_log [] (bench_batch pair_options) [str "m2"])
    as (p' & w' & l' & Hrun & _ & _ & _ & Hp).
  - vm_compute. reflexivity.
  - reflexivity.
  - vm_compute. split_and!; reflexivity.
  - apply pair_hosts.
  - exists (pair_shard 1). split; [|exact (pair_followed false _ _ pair_takes_bench)].
    exact (pair_can_produce false (-1) _ _ (pair_leader false) ltac:(lia) pair_takes_bench eq_refl eq_refl).
  - exact pair_metadata.
  - split; [vm_compute; congruence|]. constructor; [vm_compute; congruence|constructor].
  - split; [by intros x|]. split; [reflexivity|]. unfold roomy. rewrite Z2Nat.id by lia. vm_compute. reflexivity.
  - destruct Hp as (((_ & _ & _ & _ & Hl & _) & _) & Hlat & Hhw & Ht). exists (close_socket 3 p'), w', l'.
    split_and!; [exact Hrun|exact Hl| |exact Ht]. rewrite Hhw, Hlat. destruct pair_holds as (_ & _ & -> & _). vm_compute. reflexivity.
Defined.
